(* ===== verification/_CoqProject ===== *)
-Q . S2P
Prelude.v
Schema.v
Messages.v
Persistence.v
ServerState.v
Server.v
ServerConn.v
ServerOps.v
ServerSubs.v
ServerBroadcast.v
ServerOrder.v
ServerTypes.v
ServerStore.v
ServerVersions.v
MessageBuffer.v
SocketWatcher.v
ByteQueue.v
MessageBus.v
BusInvariant.v
BusContract.v
BusSteps.v
BusSocket.v
BusTheorems.v
Connection.v
ClientCommit.v
ConnectionTheorems.v
ConnectionEvents.v
ConnectionData.v
EventModel.v
EventLemmas.v
EventTypes.v
EventHistory.v
EventTheorems.v
EventCache.v
EventCompress.v
EventCompressTheorems.v
ProxyState.v
Proxy.v
ProxyTheorems.v
ProxyMirror.v
Views.v
ViewTheorems.v
Reactor.v
ReactorLoop.v
ReactorTheorems.v
Children.v
CellGraph.v
CellInvariant.v
CellOrder.v
CellTheorems.v
WriteContext.v
WriteContextTheorems.v
CellTree.v
CellTreeInvariant.v
CellTreePasses.v
CellTreeClean.v
CellTreeTurns.v
CellTreeFrames.v
CellTreeTheorems.v
Doubles.v
Services.v
ServiceManager.v
ServiceTheorems.v
ServiceLimits.v
ServiceCollection.v
Logfiles.v
LogfileTheorems.v
