(* ===== verification/Prelude.v ===== *)
(** * object_database: a verification development

    object_database is a transactional object store: a server keeps versioned fields and indices
    of objects, clients subscribe to types, index values or objects, read snapshots and commit
    transactions under optimistic concurrency control.  Proxies fan one connection out to many
    clients.  On top sit a message bus, reactors, a service manager and a web framework with a
    text editor.  The development follows the Python code under [src/object_database/] file by
    file, with the Python names wherever Rocq allows them.

    ** How programs are modelled

    A method is a computation [M S A := S → outcome A * S] ([Prelude]): it returns a value or
    raises, and in both cases leaves a state, so that what a method did before an exception is
    kept, as in Python.  [tryM] and [finallyM] are [try] with [except] and [finally].  Objects
    with fields are records with the update notation [r <| field := v |>]; dictionaries and sets
    are [gmap] and [gset], visited in the order of [map_to_list] and [elements] (the theorems
    hold for that order; none depends on which order it is, except where sets are sent as
    sequences).  Objects that are shared and mutated (connections of the server, events that
    threads wait on, event dictionaries of the editor) live in a heap of the state and are
    referred to by numbers.  A method that holds a lock for its whole body is one transition; a
    thread that releases it is split there, and the system's step relation or list of operations
    interleaves the pieces with everything else.  The socket thread of the bus, which reads the
    tables without the lock, can be interrupted by the other threads between its steps
    ([interrupt]).  What comes from outside (clock readings, fresh
    identifiers, bytes received, descriptors) is an argument.  The typed_python package is a
    third-party library: its serialization is the class [Serialization], what the code relies on
    is [SerializationLaws], and [Codec] is an instance.  Integers that cross the wire are [Z],
    with the four-byte framing written out.  Log messages are left out.

    ** The files

    - [Prelude]: records, the monad with its Hoare-style rules ([wp], [preserves], [yields],
      [guards]) and their tactics, Python slices, multimaps (dictionaries of sets).
    - [Schema], [Messages] (schema.py, identity.py, messages.py, [TypeMap] of server.py): keys,
      schema definitions, the producer of identities, the two message alternatives.
    - [Persistence] (persistence.py): [InMemoryPersistence], and the interface [KVStore] with the
      laws [KVStoreLaws]; the server is verified against the interface.
    - [ServerState], [Server], [ServerConn], [ServerOps] (server.py): connections and their state,
      commits, broadcasts and version garbage collection; subscriptions, dispatch of messages and
      heartbeats; the server as a transition system ([server_op], [run_ops], [reachable]).
    - [ServerSubs], [ServerBroadcast], [ServerOrder], [ServerTypes], [ServerStore],
      [ServerVersions]: its theorems, described below.
    - [MessageBuffer], [MessageBus] (message_bus.py), [SocketWatcher] (socket_watcher.py),
      [ByteQueue] (bytecount_limited_queue.py): framing, the bus with its two threads and the
      callers, the watched sockets, the queue limited by bytes.  [BusInvariant] and [BusContract] hold
      the bus's invariant; [BusSteps] shows that the other threads keep it, and what they leave
      as it is ([drift]), [BusSocket] that the socket thread does, whatever they do in between;
      [BusTheorems] holds what follows.
    - [Connection] (database_connection.py): the client's side of a connection; [ClientCommit],
      [ConnectionTheorems], [ConnectionEvents], [ConnectionData] its theorems.
    - [EventModel], [EventCompress] (web/cells/editor/event_model.py): the edit history of the
      editor and its compression; [EventLemmas], [EventTypes], [EventHistory], [EventTheorems],
      [EventCache], [EventCompressTheorems] its theorems.
    - [ProxyState], [Proxy] (proxy_server.py): the proxy; [ProxyTheorems], [ProxyMirror].
    - [Views] (view.py): views and transactions of one thread, on top of the client's connection;
      [ViewTheorems].
    - [Reactor], [ReactorLoop] (reactor.py): reactors, used by calls and in a thread of their own;
      [ReactorTheorems].
    - [Children] (web/cells/children.py): the children of a cell, with its theorems.
    - [CellGraph] (web/cells/cell_dependencies.py, computed_slot.py, slot.py, and the read-only
      use of dependency_context.py): the dependency graph of the user interface; [CellInvariant],
      [CellOrder] (functions that read computed slots in one order), [CellTheorems].  [WriteContext] (dependency_context.py): functions that also write, with the
      copy that they keep of computed slots; [WriteContextTheorems].
    - [CellTree] (web/cells/cells.py, cell.py, root_cell.py): the tree of cells, its recalculation
      and the frames sent to the browser; its theorems, in the order in which a frame is made:
      [CellTreeInvariant], [CellTreePasses], [CellTreeClean], [CellTreeTurns], [CellTreeFrames],
      [CellTreeTheorems].
    - [Doubles]: the floating-point numbers of memory and cores.
    - [Services] (service_manager/ServiceInstance.py): services, hosts and instances in the
      database; [ServiceManager] (ServiceManager.py, ServiceWorker.py,
      SubprocessServiceManager.py): a pass of the manager, requests of clients, transactions of a
      worker, the table of processes; [ServiceTheorems], [ServiceLimits], [ServiceCollection].
    - [Logfiles] (service_manager/logfiles.py): log files; [LogfileTheorems].

    ** What the theorems show

    Server.  A transaction that read a key at a version older than a committed write to it is
    refused, whatever the server collected in between ([ServerVersions]: the invariant [vinv]).
    A commit leaves the store that an abstract specification gives ([committed_store]): fields,
    index members and both derived structures, and the reverse index and the metadata index are
    exact again ([ServerStore]).  A commit is broadcast to exactly the subscribed connections,
    once; subscription tables agree on both sides; a dropped connection is in none of them; an
    unauthenticated one changes nothing ([ServerSubs], [ServerBroadcast]).  Transaction numbers
    leave the server in order ([ServerOrder]); field ids keep their meaning ([ServerTypes]).

    Bus.  The reader of a stream gets exactly the messages framed into it, however it is cut;
    corrupt frames are noticed; writing ends ([MessageBuffer]).  The operations of the bus raise
    only what is stated for each, its tables agree with each other and with the watched sockets,
    each connection's events come in the order opened, messages, closed, and a peer reads what was
    sent, in order, unless a message was kept too late ([lost]); the count of the pending bytes
    leaks ([BusTheorems]).  All of it holds with the other threads' critical sections anywhere
    between the steps of the socket thread.  The queue counts its bytes and wakes its waiters ([ByteQueue]).

    Client.  A transaction cut into pieces arrives whole at the server, by composition of the
    client's [_createTransaction] with the server's [handleTransactionData] ([ClientCommit]);
    each commit is answered exactly once, also when the connection is lost; threads that wait are
    woken; subscription data is put together from its pieces.

    Editor.  Undo and redo refine a zipper of documents, although the program only has the list
    of events; collapsing changes keeps their effect; the state cache agrees with replaying;
    compression of a plain history keeps the text and passes its own checks.

    Proxy.  A result returns to the client that committed; the proxy's copy of a field is the
    value the main server sent last; each type is subscribed to at most once upstream.

    Views and reactors.  Code that opens, masks and watches views in any nesting leaves the thread
    as it found it; a transaction block sends everything or nothing and, unless it does not wait for
    the result, ends normally exactly when the commit succeeded.  The loop of a reactor misses no
    update, and [stop] ends it, in every interleaving of accesses to its attributes and however its
    function behaves ([loop_ok], [stop_ok], [told]).

    Cells.  The tables of the dependency graph are inverse to each other, also when a calculation
    ends with the AttributeError of a slot that was orphaned while it ran, or is repeated after
    subscribing; with functions that read computed slots in one order and no such end, an
    up-to-date slot has read what is there now.  A function that writes sees each
    computed slot as if it were calculated from what it has written so far, and leaves nothing
    behind when it has to start again ([WriteContextTheorems]).  The children of a cell are the
    same in the dictionary, the flat list and the reverse table.  A browser that handles the
    frames one after the other has the tree of cells on its page, as long as no cell is a child
    of two; no assertion fails on the way ([CellTreeTheorems]).

    Service manager.  A pass over the services starts and stops instances until each has as many
    as its target, or no host has room; hosts are never given more than they have (with
    amounts whose sums are not rounded), by any interleaving of the transactions of managers,
    workers and clients; failures are counted exactly once; the
    processes that are kept are those whose instance is alive and in time.  Log files are named
    without ambiguity, and deleted oldest first, with every byte accounted for.

    Several theorems are negative: they show, on runs of the model, defects of the code
    ([restart_loses_first_connection], [leaked_bytes_block_sending],
    [a_message_is_lost], [the_iteration_fails], [established_after_closed],
    [second_subscription_strands_first], [an_untyped_refusal_is_lost],
    [folding_an_empty_document_fails], [entering_twice_wedges_the_thread],
    [wakeup_ends_blockUntilTrue], [marks_are_lost], [orphaned_while_executing],
    [subscribed_while_executing],
    [writes_before_the_first_read_are_missed], [exception_of_a_dependency_escapes],
    [giving_up_keeps_slots], [moved_cells_are_not_forgotten], [an_error_is_not_shown],
    [destroyed_with_one_of_its_parents],
    [one_orphan_blocks_collection], [exhausted_service_raises], [empty_list_stays]).
    Theorems with hypotheses have a witness, [<theorem>_witness], on a concrete run.

    ** Fuel and bounds

    Loops over containers are structural.  Loops without a structural measure carry fuel, which is
    always at least the number of passes, so that the case without fuel is not reached:
    [write_loop] (two more than the bytes of the buffer; [write_ends] shows that the reader returns),
    [send_keys] and [consume_callbacks] (each pass shortens a list, whose length is the fuel),
    [collapse_loop], [first_recent], [leave_stream], [collapse_down] and [reverse_stream] (an index
    moves one way within the list), [first_power] and [getitem] of the event cache (the index asked
    for; [first_power_enough] and [getitem_ok]), [common_suffix] (the length of the shorter text).
    [pack] refuses what does not fit four bytes, as [struct.pack] does.  [ensureCalculated] takes
    more fuel than there are computed slots, which bounds the nesting of calculations that read
    each other in one order; [calculationDiscarded_rec] one more than the entries of two tables,
    of which each call removes one; [getComputedSlotValue] of [WriteContext] more than the number of
    the slot, which reads smaller ones only; [markComputedSlotDirty] the number of values kept;
    [_cellOutOfScope], [isAncestorOf] and [top] more than the identities given out, which bounds
    the depth of the tree; the loops over orphans and moves the size of the set.  The loops of
    [_updateAllDirtyCells] and [_recalculateAll] run over a list of what happens in each turn, of
    any length, and then once more with nothing new.  [boot_loop] has the target of the service as
    its fuel; the loops that delete logs the number of files.  Memory and cores
    are doubles, without infinities and overflow ([Doubles]); sizes and times are integers.

    ** Not modelled

    The C++ extension [_types] (versioned objects and views: the client model records the calls
    made on it); [RedisPersistence], a client of an external service; threads, sockets, TLS and
    epoll themselves, whose documented behaviour is state or an argument; tcp_server.py,
    inmem_server.py, channel.py and inmem_proxy_server.py, which connect the modelled parts with
    threads and sockets; object.py, the [Schema] class and direct_types, which build Python and
    C++ classes; of the service manager the loading of code, terminals, statistics and
    directories of dead instances, and children that a service spawns are left out of the limits
    of hosts; of cells the widgets themselves, focus, callbacks, packets and session state, and in
    functions that write the resubscription after a read that is not subscribed (everything is
    subscribed there); of the bus what the socket thread could see of a critical section of
    another thread that is half done; the command line
    front ends, AWS, logging, test utilities and demos. *)

From Stdlib Require Strings.Byte.
From stdpp Require Export base gmap strings list fin_maps sets sorting.
From stdpp Require Import options.

#[global] Set Warnings "-postfix-notation-not-level-1,-clear-no-such-hyp".

(** ** Record update

    [r <| field := v |>] and [r <| field ::= f |>] for the records of the
    development.  A record declares its constructor re-application as a
    [Settable] instance; the setter of a field is then derived by matching. *)

Class Settable (R : Type) := settable_mk : R → R.
Class Setter {R F : Type} (proj : R → F) := set_field : (F → F) → R → R.
Arguments set_field {R F} proj {_} f r /.

Ltac build_setter :=
  match goal with
  | |- @Setter ?R ?F ?proj =>
      let f := fresh "f" in let r := fresh "r" in
      unfold Setter; intros f r;
      let mk := constr:(_ : Settable R) in
      let t := eval cbv [settable_mk] in (mk r) in
      let t := eval hnf in t in
      match eval pattern (proj r) in t with
      | ?g _ => let v := eval cbv beta in (g (f (proj r))) in exact v
      end
  end.
#[export] Hint Extern 1 (Setter _) => build_setter : typeclass_instances.

Declare Scope record_scope.
Delimit Scope record_scope with record.
Notation "r <| p ::= f |>" := (set_field p f r)
  (at level 12, f at next level, left associativity) : record_scope.
Notation "r <| p := v |>" := (set_field p (λ _, v) r)
  (at level 12, left associativity) : record_scope.
Open Scope record_scope.

(** ** Bytes *)

Abbreviation byte := Corelib.Init.Byte.byte.
Abbreviation bytes := (list byte).

#[export] Instance byte_eq_decision : EqDecision byte := Byte.byte_eq_dec.
#[export] Instance byte_countable : Countable byte.
Proof. exact (inj_countable Byte.to_N Byte.of_N Byte.of_to_N). Defined.

(** ** Python exceptions, and the state-and-exception monad

    An exception raised in the middle of a Python method leaves the mutations
    made so far in place, so the state is returned next to the outcome in both
    cases. *)

Inductive exn :=
  | AssertionError
  | KeyError
  | AttributeError
  | TypeError
  | ValueError
  | IndexError
  | RuntimeError
  | UnboundLocalError
  | DeserializeError
  | StructError
  | CorruptMessageStream
  | QueueFull
  | QueueEmpty
  | OSError
  | UserException (msg : string).

#[export] Instance exn_eq_decision : EqDecision exn.
Proof. solve_decision. Defined.

Inductive outcome (A : Type) :=
  | Ok (a : A)
  | Raise (e : exn).
Arguments Ok {A} a.
Arguments Raise {A} e.

Definition M (S A : Type) : Type := S → outcome A * S.

Section monad.
Context {S : Type}.

Definition ret {A} (a : A) : M S A := λ s, (Ok a, s).

Definition bind {A B} (m : M S A) (f : A → M S B) : M S B := λ s,
  match m s with
  | (Ok a, s') => f a s'
  | (Raise e, s') => (Raise e, s')
  end.

Definition raise {A} (e : exn) : M S A := λ s, (Raise e, s).
Definition get_state : M S S := λ s, (Ok s, s).
Definition gets {A} (f : S → A) : M S A := λ s, (Ok (f s), s).
Definition modify (f : S → S) : M S unit := λ s, (Ok tt, f s).

(** [assert b] *)
Definition assertM (b : bool) : M S unit :=
  if b then ret tt else raise AssertionError.

(** [if b: m] *)
Definition whenM (b : bool) (m : M S unit) : M S unit :=
  if b then m else ret tt.

(** reading a value that may be missing, with the exception that signals it *)
Definition lift_option {A} (e : exn) (o : option A) : M S A :=
  match o with Some a => ret a | None => raise e end.

(** [for x in l: f(x)] *)
Fixpoint forM {A} (l : list A) (f : A → M S unit) : M S unit :=
  match l with
  | [] => ret tt
  | x :: l => bind (f x) (λ _, forM l f)
  end.

(** [for x in l: acc = f(x, acc)], for the loops that update locals *)
Fixpoint foldM {A B} (l : list A) (acc : B) (f : A → B → M S B) : M S B :=
  match l with
  | [] => ret acc
  | x :: l => bind (f x acc) (λ acc', foldM l acc' f)
  end.

(** [[f(x) for x in l]] *)
Fixpoint mapM {A B} (l : list A) (f : A → M S B) : M S (list B) :=
  match l with
  | [] => ret []
  | x :: l => bind (f x) (λ y, bind (mapM l f) (λ ys, ret (y :: ys)))
  end.

(** [try: m except Exception as e: h(e)] *)
Definition tryM {A} (m : M S A) (h : exn → M S A) : M S A := λ s,
  match m s with
  | (Ok a, s') => (Ok a, s')
  | (Raise e, s') => h e s'
  end.

(** [try: m finally: fin] *)
Definition finallyM {A} (m : M S A) (fin : M S unit) : M S A := λ s,
  match m s with
  | (r, s') =>
      match fin s' with
      | (Ok _, s'') => (r, s'')
      | (Raise e, s'') => (Raise e, s'')
      end
  end.
End monad.

(** Running a computation on one field of a larger state. *)
Definition zoom {S T A} (proj : S → T) `{!Setter proj} (m : M T A) : M S A := λ s,
  match m (proj s) with (r, t) => (r, s <| proj := t |>) end.

#[export] Instance M_ret {S} : MRet (M S) := λ A a, ret a.
#[export] Instance M_bind {S} : MBind (M S) := λ A B f m, bind m f.

(** Running the primitives, as rewriting rules. *)
Lemma outcome_eta {A S} (p : outcome A * S) r : p.1 = r → p = (r, p.2).
Proof. by destruct p; cbn; intros ->. Qed.

Definition is_ok {A} (r : outcome A) : bool := match r with Ok _ => true | Raise _ => false end.
Lemma ok_eta {A S} (p : outcome A * S) : is_ok p.1 = true → ∃ a, p = (Ok a, p.2).
Proof. destruct p as [[a|e] s]; cbn; [by exists a|done]. Qed.

Section run.
Context {S : Type}.
Lemma run_mret {A} (a : A) (s : S) : (mret a : M S A) s = (Ok a, s).
Proof. done. Qed.
Lemma run_gets {A} (f : S → A) s : gets f s = (Ok (f s), s).
Proof. done. Qed.
Lemma run_modify (f : S → S) s : modify f s = (Ok tt, f s).
Proof. done. Qed.
Lemma run_raise {A} e (s : S) : (raise e : M S A) s = (Raise e, s).
Proof. done. Qed.
Lemma run_lift_option {A} e (o : option A) (s : S) :
  lift_option e o s = (match o with Some a => Ok a | None => Raise e end, s).
Proof. by destruct o. Qed.
Lemma run_assertM b (s : S) :
  assertM b s = (if b then Ok tt else Raise AssertionError, s).
Proof. by destruct b. Qed.
Lemma run_bind {A B} (m : M S A) (f : A → M S B) s :
  (m ≫= f) s = match m s with (Ok a, s') => f a s' | (Raise e, s') => (Raise e, s') end.
Proof. done. Qed.
Lemma run_bind_ok {A B} (m : M S A) (f : A → M S B) s a s' :
  m s = (Ok a, s') → (m ≫= f) s = f a s'.
Proof. intros Hm. by rewrite run_bind, Hm. Qed.
Lemma run_bind_raise {A B} (m : M S A) (f : A → M S B) s e s' :
  m s = (Raise e, s') → (m ≫= f) s = (Raise e, s').
Proof. intros Hm. by rewrite run_bind, Hm. Qed.
Lemma run_forM_cons {A} x (l : list A) (f : A → M S unit) s :
  forM (x :: l) f s = match f x s with (Ok _, s') => forM l f s' | (Raise e, s') => (Raise e, s') end.
Proof. done. Qed.
Lemma run_mapM_cons {A B} x (l : list A) (f : A → M S B) s :
  mapM (x :: l) f s =
    match f x s with
    | (Ok y, s') => match mapM l f s' with (Ok ys, s'') => (Ok (y :: ys), s'') | (Raise e, s'') => (Raise e, s'') end
    | (Raise e, s') => (Raise e, s')
    end.
Proof. done. Qed.
Lemma run_forM_app {A} (l l' : list A) (f : A → M S unit) s s' :
  forM l f s = (Ok tt, s') → forM (l ++ l') f s = forM l' f s'.
Proof.
  revert s. induction l as [|x l IH]; intros s Hl; [by injection Hl as ->|].
  cbn [app]. rewrite run_forM_cons in *. destruct (f x s) as [[?|?] s1]; [by apply IH|done].
Qed.
End run.

Create Rewrite HintDb run.
#[export] Hint Rewrite @run_mret @run_gets @run_modify @run_raise @run_lift_option @run_assertM
  @run_bind : run.

(** ** Weakest preconditions

    [wp m Q E s]: run in [s], [m] either returns a value and a state in [Q] or
    raises an exception in a state in [E]. *)

Definition wp {S A} (m : M S A) (Q : A → S → Prop) (E : exn → S → Prop) (s : S) : Prop :=
  match m s with
  | (Ok a, s') => Q a s'
  | (Raise e, s') => E e s'
  end.

(** [I] holds after [m] whenever it holds before, however [m] ends. *)
Definition preserves {S A} (I : S → Prop) (m : M S A) : Prop :=
  ∀ s, I s → I (m s).2.

(** [m] does not raise from a state in [I], and re-establishes [I]. *)
Definition safe {S A} (I : S → Prop) (m : M S A) : Prop :=
  ∀ s, I s → wp m (λ _ s', I s') (λ _ _, False) s.

Create HintDb py discriminated.

Section wp_lemmas.
Context {S : Type}.
Implicit Types (I : S → Prop).

Lemma wp_ret {A} (a : A) (Q : A → S → Prop) E s : Q a s → wp (mret a) Q E s.
Proof. done. Qed.

Lemma wp_bind {A B} (m : M S A) (f : A → M S B) Q E s :
  wp m (λ a s', wp (f a) Q E s') E s → wp (m ≫= f) Q E s.
Proof.
  unfold wp, mbind, M_bind, bind. destruct (m s) as [[a|e] s']; done.
Qed.

Lemma wp_bind_ok {A B} (m : M S A) (f : A → M S B) Q E s a s' :
  m s = (Ok a, s') → wp (f a) Q E s' → wp (m ≫= f) Q E s.
Proof. intros Hm Hf. apply wp_bind. unfold wp at 1. by rewrite Hm. Qed.

Lemma wp_mono {A} (m : M S A) (Q Q' : A → S → Prop) (E E' : exn → S → Prop) s :
  wp m Q E s → (∀ a s', Q a s' → Q' a s') → (∀ e s', E e s' → E' e s') → wp m Q' E' s.
Proof. unfold wp. destruct (m s) as [[a|e] s']; auto. Qed.

Lemma wp_forM {A} (l : list A) (f : A → M S unit) (I : list A → S → Prop) E s :
  I [] s →
  (∀ pre x post s', l = pre ++ x :: post → I pre s' →
     wp (f x) (λ _ s'', I (pre ++ [x]) s'') E s') →
  wp (forM l f) (λ _ s', I l s') E s.
Proof.
  assert (∀ post pre s', l = pre ++ post → I pre s' →
    (∀ pre x post s', l = pre ++ x :: post → I pre s' →
       wp (f x) (λ _ s'', I (pre ++ [x]) s'') E s') →
    wp (forM post f) (λ _ s', I l s') E s') as Hgen.
  { induction post as [|x post IH]; intros pre s' Hl HI Hstep; simpl.
    - rewrite app_nil_r in Hl; subst. exact HI.
    - apply wp_bind. eapply wp_mono; [by eapply Hstep| |done].
      intros ? s'' HI'. apply (IH (pre ++ [x])); [|done|done].
      by rewrite <-(assoc_L (++)). }
  intros HI Hstep. by apply (Hgen l []).
Qed.

Lemma wp_foldM {A B} (l : list A) (acc : B) (f : A → B → M S B) (I : B → S → Prop) E s :
  I acc s → (∀ x acc s, x ∈ l → I acc s → wp (f x acc) I E s) → wp (foldM l acc f) I E s.
Proof.
  revert acc s. induction l as [|x l IH]; intros acc s HI Hstep; [done|]. cbn [foldM].
  apply wp_bind. eapply wp_mono; [apply Hstep; [set_solver|done]| |done].
  intros acc' s' HI'. apply IH; [done|]. intros y ???. apply Hstep. set_solver.
Qed.

Lemma preserves_of_wp {A} I (m : M S A) :
  (∀ s, I s → wp m (λ _, I) (λ _, I) s) → preserves I m.
Proof. intros Hm s HI. specialize (Hm s HI). unfold wp in Hm. by destruct (m s) as [[?|?] ?]. Qed.

Lemma preserves_ret {A} I (a : A) : preserves I (mret a).
Proof. by intros s. Qed.
Lemma preserves_ret' {A} I (a : A) : preserves I (ret a).
Proof. by intros s. Qed.
Lemma preserves_raise {A} I e : preserves I (raise (A:=A) e).
Proof. by intros s. Qed.
Lemma preserves_gets {A} I (f : S → A) : preserves I (gets f).
Proof. by intros s. Qed.
Lemma preserves_get_state I : preserves I get_state.
Proof. by intros s. Qed.
Lemma preserves_assertM I b : preserves I (assertM b).
Proof. intros s. by destruct b. Qed.
Lemma preserves_lift_option {A} I e (o : option A) : preserves I (lift_option e o).
Proof. intros s. by destruct o. Qed.
Lemma preserves_lift_option_bind {A B} I e (o : option A) (k : A → M S B) :
  (∀ a, o = Some a → preserves I (k a)) → preserves I (lift_option e o ≫= k).
Proof. intros Hk s. destruct o as [a|]; [by apply Hk|done]. Qed.
Lemma preserves_modify I f : (∀ s, I s → I (f s)) → preserves I (modify f).
Proof. intros Hf s. apply Hf. Qed.

Lemma preserves_bind {A B} I (m : M S A) (f : A → M S B) :
  preserves I m → (∀ a, preserves I (f a)) → preserves I (m ≫= f).
Proof.
  intros Hm Hf s HI. unfold mbind, M_bind, bind.
  specialize (Hm s HI). destruct (m s) as [[a|e] s']; simpl in *; [by apply Hf|done].
Qed.

Lemma preserves_whenM I b (m : M S unit) : (b = true → preserves I m) → preserves I (whenM b m).
Proof. intros Hm. destruct b; [by apply Hm|by intros s]. Qed.

Lemma preserves_forM {A} I (l : list A) f :
  (∀ x, x ∈ l → preserves I (f x)) → preserves I (forM l f).
Proof.
  induction l as [|x l IH]; intros Hf; [by intros s|].
  apply preserves_bind; [|intros _; apply IH]; set_solver.
Qed.

Lemma preserves_foldM {A B} I (l : list A) (acc : B) f :
  (∀ x acc, x ∈ l → preserves I (f x acc)) → preserves I (foldM l acc f).
Proof.
  revert acc. induction l as [|x l IH]; intros acc Hf; [by intros s|].
  apply preserves_bind; [|intros acc'; apply IH]; set_solver.
Qed.

Lemma preserves_mapM {A B} I (l : list A) (f : A → M S B) :
  (∀ x, x ∈ l → preserves I (f x)) → preserves I (mapM l f).
Proof.
  induction l as [|x l IH]; intros Hf; [by intros s|].
  apply preserves_bind; [set_solver|intros y].
  apply preserves_bind; [apply IH; set_solver|intros ys; by intros s].
Qed.

Lemma preserves_tryM {A} I (m : M S A) h :
  preserves I m → (∀ e, preserves I (h e)) → preserves I (tryM m h).
Proof.
  intros Hm Hh s HI. unfold tryM. specialize (Hm s HI).
  destruct (m s) as [[a|e] s']; simpl in *; [done|by apply Hh].
Qed.

Lemma preserves_finallyM {A} I (m : M S A) fin :
  preserves I m → preserves I fin → preserves I (finallyM m fin).
Proof.
  intros Hm Hfin s HI. unfold finallyM. specialize (Hm s HI).
  destruct (m s) as [r s']; simpl in *. specialize (Hfin s' Hm).
  by destruct (fin s') as [[?|e] s''].
Qed.

(** Remembering, for the rest of a computation, a value that was read and stays. *)
Lemma preserves_gets_bind {A B} I (f : S → A) (k : A → M S B) :
  (∀ x, preserves (λ s, I s ∧ f s = x) (k x)) → preserves I (gets f ≫= k).
Proof. intros Hk s HI. rewrite run_bind, run_gets. by apply (Hk (f s)). Qed.

Lemma preserves_gets_J {A B} I (J : A → S → Prop) (f : S → A) (k : A → M S B) :
  (∀ s, I s → J (f s) s) → (∀ x s, J x s → I s) → (∀ x, preserves (J x) (k x)) →
  preserves I (gets f ≫= k).
Proof. intros HIJ HJI Hk s HI. rewrite run_bind, run_gets. eapply HJI, Hk. by apply HIJ. Qed.

Lemma preserves_bind2 {A B C} I (m : M S A) (n : A → M S B) (k : A → B → M S C) :
  preserves I (m ≫= n) → (∀ a b, preserves I (k a b)) → preserves I (m ≫= λ a, n a ≫= k a).
Proof.
  intros Hm Hk s HI. specialize (Hm s HI). revert Hm. rewrite !run_bind.
  destruct (m s) as [[a|e] s']; [|done]. rewrite run_bind.
  destruct (n a s') as [[b|e] s'']; [|done]. cbn. apply Hk.
Qed.

Lemma preserves_weaken {A} (I J : S → Prop) (m : M S A) :
  (∀ s, I s → J s) → (∀ s s', I s → J s' → I s') → preserves J m → preserves I m.
Proof. intros HIJ HJI Hm s HI. eapply HJI; [done|]. by apply Hm, HIJ. Qed.

Lemma preserves_and {A} I I' (m : M S A) :
  preserves I m → preserves I' m → preserves (λ s, I s ∧ I' s) m.
Proof. intros H1 H2 s [??]. split; [by apply H1|by apply H2]. Qed.

(** Sequencing with a first part that keeps [I]. *)
Lemma wp_bind_preserves {A B} I (m : M S A) (f : A → M S B) Q (E : exn → S → Prop) s :
  preserves I m → I s → (∀ a s', I s' → wp (f a) Q E s') → (∀ e s', I s' → E e s') →
  wp (m ≫= f) Q E s.
Proof.
  intros Hm HI Hf HE. apply wp_bind. unfold wp. specialize (Hm s HI).
  destruct (m s) as [[a|e] s']; cbn in Hm; [by apply Hf|by apply HE].
Qed.

Lemma wp_gets_bind {A B} (f : S → A) (k : A → M S B) Q E s :
  wp (k (f s)) Q E s → wp (gets f ≫= k) Q E s.
Proof. done. Qed.

(** [m], when it returns, turns [I] into [Q]. *)
Definition yields {A} (I : S → Prop) (m : M S A) (Q : A → S → Prop) : Prop :=
  ∀ s, I s → wp m Q (λ _ _, True) s.

Lemma yields_bind {A B} I (J : S → Prop) (m : M S A) (f : A → M S B) Q :
  yields I m (λ _, J) → (∀ a, yields J (f a) Q) → yields I (m ≫= f) Q.
Proof.
  intros Hm Hf s HI. apply wp_bind. eapply wp_mono; [by apply Hm| |done].
  intros a s' HJ. by apply Hf.
Qed.

Lemma yields_preserves {A} I (m : M S A) : preserves I m → yields I m (λ _, I).
Proof.
  intros Hm s HI. unfold wp. specialize (Hm s HI). by destruct (m s) as [[?|?] ?].
Qed.

Lemma yields_gets_bind {A B} I (f : S → A) (k : A → M S B) Q :
  (∀ x, yields (λ s, I s ∧ f s = x) (k x) Q) → yields I (gets f ≫= k) Q.
Proof. intros Hk s HI. apply wp_gets_bind. by apply Hk. Qed.

Lemma yields_mono {A} (I J : S → Prop) (m : M S A) (Q R : A → S → Prop) :
  yields J m Q → (∀ s, I s → J s) → (∀ a s, Q a s → R a s) → yields I m R.
Proof. intros Hm HI HQ s Hs. eapply wp_mono; [by apply Hm, HI|done|done]. Qed.

(** [m] keeps [I], and raises nothing but the exceptions of [E]. *)
Definition guards {A} (I : S → Prop) (E : exn → Prop) (m : M S A) : Prop :=
  ∀ s, I s → wp m (λ _, I) (λ e s', I s' ∧ E e) s.

Lemma guards_ret {A} I E (a : A) : guards I E (mret a).
Proof. by intros s. Qed.
Lemma guards_raise {A} I (E : exn → Prop) e : E e → guards I E (raise (A:=A) e).
Proof. by intros He s HI. Qed.
Lemma guards_gets {A} I E (f : S → A) : guards I E (gets f).
Proof. by intros s. Qed.
Lemma guards_modify I E f : (∀ s, I s → I (f s)) → guards I E (modify f).
Proof. intros Hf s. apply Hf. Qed.
Lemma guards_bind {A B} I E (m : M S A) (f : A → M S B) :
  guards I E m → (∀ a, guards I E (f a)) → guards I E (m ≫= f).
Proof.
  intros Hm Hf s HI. apply wp_bind. eapply wp_mono; [by apply Hm| |done]. intros a s'. apply Hf.
Qed.
Lemma guards_gets_bind {A B} I E (f : S → A) (k : A → M S B) :
  (∀ s, I s → wp (k (f s)) (λ _, I) (λ e s', I s' ∧ E e) s) → guards I E (gets f ≫= k).
Proof. intros Hk s HI. by apply Hk. Qed.
Lemma guards_whenM I E b (m : M S unit) : (b = true → guards I E m) → guards I E (whenM b m).
Proof. intros Hm. destruct b; [by apply Hm|by intros s]. Qed.
Lemma guards_forM {A} I E (l : list A) f : (∀ x, x ∈ l → guards I E (f x)) → guards I E (forM l f).
Proof.
  induction l as [|x l IH]; intros Hf; [by intros s|].
  apply guards_bind; [apply Hf; left|]. intros _. apply IH. intros y Hy. apply Hf. by right.
Qed.
Lemma guards_foldM {A B} I E (l : list A) (acc : B) f :
  (∀ x acc, x ∈ l → guards I E (f x acc)) → guards I E (foldM l acc f).
Proof.
  revert acc. induction l as [|x l IH]; intros acc Hf; [by intros s|].
  apply guards_bind; [apply Hf; left|]. intros a. apply IH. intros y ? Hy. apply Hf. by right.
Qed.
Lemma guards_tryM {A} I E (m : M S A) h :
  guards I (λ _, True) m → (∀ e, guards I E (h e)) → guards I E (tryM m h).
Proof.
  intros Hm Hh s HI. unfold wp, tryM. specialize (Hm s HI). unfold wp in Hm.
  destruct (m s) as [[a|e] s']; [done|]. exact (Hh e s' (proj1 Hm)).
Qed.
Lemma guards_mono {A} I (E E' : exn → Prop) (m : M S A) :
  guards I E m → (∀ e, E e → E' e) → guards I E' m.
Proof. intros Hm HE s HI. eapply wp_mono; [by apply Hm|done|]. intros e s' [??]. auto. Qed.
Lemma guards_end {A} I E (m : M S A) s :
  guards I E m → I s → I (m s).2 ∧ ∀ e, (m s).1 = Raise e → E e.
Proof.
  intros Hm HI. specialize (Hm s HI). unfold wp in Hm.
  destruct (m s) as [[a|e] s']; cbn; [by split|]. split; [tauto|]. intros ? [= <-]. tauto.
Qed.

(** With preservation, a postcondition only has to be shown on the value. *)
Lemma preserves_wp {A} I (m : M S A) s : preserves I m → I s → wp m (λ _, I) (λ _, I) s.
Proof. intros Hm HI. unfold wp. specialize (Hm s HI). by destruct (m s) as [[?|?] ?]. Qed.
End wp_lemmas.

Lemma preserves_zoom {S T A} (proj : S → T) `{!Setter proj} (I : S → Prop) (m : M T A) :
  (∀ s, I s → I (s <| proj := (m (proj s)).2 |>)) → preserves I (zoom proj m).
Proof.
  intros Hz s HI. unfold zoom. specialize (Hz s HI). by destruct (m (proj s)).
Qed.

(** Walks through a monadic program, leaving the state updates as goals. *)
Ltac preserve_step :=
  lazymatch goal with
  | |- preserves _ (mbind _ _) => apply preserves_bind; [|intros ?]
  | |- preserves _ (mret _) => apply preserves_ret
  | |- preserves _ (ret _) => apply preserves_ret'
  | |- preserves _ (raise _) => apply preserves_raise
  | |- preserves _ (gets _) => apply preserves_gets
  | |- preserves _ get_state => apply preserves_get_state
  | |- preserves _ (assertM _) => apply preserves_assertM
  | |- preserves _ (lift_option _ _) => apply preserves_lift_option
  | |- preserves _ (whenM _ _) => apply preserves_whenM; intros ?
  | |- preserves _ (forM _ _) => apply preserves_forM; intros ? ?
  | |- preserves _ (foldM _ _ _) => apply preserves_foldM; intros ? ? ?
  | |- preserves _ (mapM _ _) => apply preserves_mapM; intros ? ?
  | |- preserves _ (tryM _ _) => apply preserves_tryM; [|intros ?]
  | |- preserves _ (finallyM _ _) => apply preserves_finallyM
  | |- preserves _ (match ?x with _ => _ end) => destruct x eqn:?
  | |- preserves _ (let _ := _ in _) => cbv zeta
  end.
(** A loop body that takes its element apart before its accumulator. *)
Ltac split_applied :=
  match goal with
  | |- preserves _ (?f _) => match f with match ?x with _ => _ end => destruct x end
  end.
Ltac head_of t := lazymatch t with ?f _ => head_of f | ?f => f end.
(** Known lemmas (hint database [py]) first, then the structure of the program, then
    [tac] for the primitive updates, and otherwise the head of the program is unfolded. *)
Ltac open_head :=
  lazymatch goal with
  | |- preserves _ ?m => let h := head_of m in unfold h
  end.
Ltac preserve_with tac :=
  repeat (first [solve [auto 1 with py nocore] | preserve_step | tac | open_head]).

(** ** Slices of Python lists and byte arrays *)

(** the position that index [i] of a slice means *)
Definition slice_index (len : nat) (i : Z) : nat :=
  if bool_decide (i < 0)%Z then Z.to_nat (Z.of_nat len + i) else min (Z.to_nat i) len.

(** [l[lo:hi]], [l[:hi]], [l[lo:]], [l[:hi] = []] and [l[lo:hi] = new] *)
Definition slice {A} (lo hi : Z) (l : list A) : list A :=
  let i := slice_index (length l) lo in take (slice_index (length l) hi - i) (drop i l).
Definition slice_to {A} (hi : Z) (l : list A) : list A := take (slice_index (length l) hi) l.
Definition slice_from {A} (lo : Z) (l : list A) : list A := drop (slice_index (length l) lo) l.
Definition del_to {A} (hi : Z) (l : list A) : list A := drop (slice_index (length l) hi) l.
Definition slice_assign {A} (lo hi : Z) (new l : list A) : list A :=
  let i := slice_index (length l) lo in take i l ++ new ++ drop (max i (slice_index (length l) hi)) l.

Lemma slice_index_nonneg len i : (0 <= i <= Z.of_nat len)%Z → slice_index len i = Z.to_nat i.
Proof. intros Hi. unfold slice_index. rewrite bool_decide_false by lia. lia. Qed.

Lemma slice_to_app {A} (x y : list A) : slice_to (Z.of_nat (length x)) (x ++ y) = x.
Proof.
  unfold slice_to. rewrite slice_index_nonneg by (rewrite length_app; lia).
  by rewrite Nat2Z.id, take_app_length.
Qed.
Lemma del_to_app {A} (x y : list A) (n : Z) : n = Z.of_nat (length x) → del_to n (x ++ y) = y.
Proof.
  intros ->. unfold del_to. rewrite slice_index_nonneg by (rewrite length_app; lia).
  by rewrite Nat2Z.id, drop_app_length.
Qed.
Lemma slice_app {A} (x y z : list A) (lo hi : Z) :
  lo = Z.of_nat (length x) → hi = (lo + Z.of_nat (length y))%Z → slice lo hi (x ++ y ++ z) = y.
Proof.
  intros -> ->. unfold slice. rewrite !slice_index_nonneg by (rewrite !length_app; lia).
  rewrite Nat2Z.id, drop_app_length, <-Nat2Z.inj_add, Nat2Z.id.
  replace (length x + length y - length x)%nat with (length y) by lia. apply take_app_length.
Qed.

Lemma slice_from_app {A} (x y : list A) (n : Z) :
  n = Z.of_nat (length y) → (0 < n)%Z → slice_from (- n) (x ++ y) = y.
Proof.
  intros -> Hy. unfold slice_from, slice_index. rewrite bool_decide_true, length_app by lia.
  apply drop_app_length'. lia.
Qed.

(** A prefix of a concatenation that is long enough contains its first part. *)
Lemma app_split_long {A} (x y p q : list A) :
  x ++ y = p ++ q → (length p ≤ length x)%nat → ∃ x', x = p ++ x' ∧ x' ++ y = q.
Proof.
  intros Heq Hlen. exists (drop (length p) x).
  assert (take (length p) x = p) as Htake.
  { apply (f_equal (take (length p))) in Heq. rewrite take_app_length in Heq.
    by rewrite take_app_le in Heq. }
  split.
  - by rewrite <-Htake at 1; rewrite take_drop.
  - apply (app_inv_head p). rewrite (assoc_L (++)). rewrite <-Heq. f_equal.
    by rewrite <-Htake at 1; rewrite take_drop.
Qed.

(** ** Dictionaries of sets

    The program keeps most of its bookkeeping in dictionaries from a key to a
    set: [d.setdefault(k, set()).add(v)], [d[k].discard(v)], and the variant that
    drops the key once its set is empty. *)

Section multimap.
Context {K V : Type} `{Countable K} `{Countable V}.
Implicit Types (m : gmap K (gset V)) (k : K) (v : V) (vs : gset V).

Definition mm_get m k : gset V := default ∅ (m !! k).
Definition mm_update k vs m : gmap K (gset V) := <[k := mm_get m k ∪ vs]> m.
Definition mm_add k v m : gmap K (gset V) := mm_update k {[v]} m.
Definition mm_discard k v m : gmap K (gset V) := alter (λ s, s ∖ {[v]}) k m.
Definition mm_prune k m : gmap K (gset V) :=
  if decide (m !! k = Some ∅) then delete k m else m.
Definition mm_discard_prune k v m : gmap K (gset V) := mm_prune k (mm_discard k v m).

Lemma elem_of_mm_update m k vs k' v' :
  v' ∈ mm_get (mm_update k vs m) k' ↔ (k' = k ∧ v' ∈ vs) ∨ v' ∈ mm_get m k'.
Proof.
  unfold mm_update, mm_get. rewrite lookup_insert. case_decide; subst; simpl; set_solver.
Qed.

Lemma elem_of_mm_add m k v k' v' :
  v' ∈ mm_get (mm_add k v m) k' ↔ (k' = k ∧ v' = v) ∨ v' ∈ mm_get m k'.
Proof. unfold mm_add. rewrite elem_of_mm_update. set_solver. Qed.

Lemma elem_of_mm_discard m k v k' v' :
  v' ∈ mm_get (mm_discard k v m) k' ↔ v' ∈ mm_get m k' ∧ ¬ (k' = k ∧ v' = v).
Proof.
  unfold mm_discard, mm_get. rewrite lookup_alter. case_decide; subst; [|naive_solver].
  destruct (m !! _); simpl; set_solver.
Qed.

Lemma mm_get_prune m k k' : mm_get (mm_prune k m) k' = mm_get m k'.
Proof.
  unfold mm_prune, mm_get. case_decide as Hk; [|done].
  rewrite lookup_delete. case_decide; subst; [by rewrite Hk|done].
Qed.

Lemma elem_of_mm_discard_prune m k v k' v' :
  v' ∈ mm_get (mm_discard_prune k v m) k' ↔ v' ∈ mm_get m k' ∧ ¬ (k' = k ∧ v' = v).
Proof. unfold mm_discard_prune. by rewrite mm_get_prune, elem_of_mm_discard. Qed.

Lemma mm_get_empty k : mm_get ∅ k = ∅.
Proof. unfold mm_get. by rewrite lookup_empty. Qed.

Lemma mm_dom_update m k vs : dom (mm_update k vs m) = {[k]} ∪ dom m.
Proof. unfold mm_update. by rewrite dom_insert_L. Qed.

Lemma mm_dom_discard m k v : dom (mm_discard k v m) = dom m.
Proof. unfold mm_discard. by rewrite dom_alter_L. Qed.

Lemma mm_get_dom m k v : v ∈ mm_get m k → k ∈ dom m.
Proof.
  unfold mm_get. intros Hv. apply elem_of_dom. destruct (m !! k); [done|set_solver].
Qed.
End multimap.

Create Rewrite HintDb mm.
#[export] Hint Rewrite @elem_of_mm_update @elem_of_mm_add @elem_of_mm_discard
  @elem_of_mm_discard_prune @mm_get_prune @mm_get_empty @mm_dom_update @mm_dom_discard : mm.

(** ** Dictionaries built by looking up a list of keys *)

Lemma lookup_zip_fmap `{Countable K} {V} (l : list K) (f : K → V) k :
  (list_to_map (zip l (f <$> l)) : gmap K V) !! k = if decide (k ∈ l) then Some (f k) else None.
Proof.
  induction l as [|x l IH]; [done|]. cbn. rewrite lookup_insert, IH.
  destruct (decide (x = k)) as [->|Hne].
  - by rewrite decide_True by set_solver.
  - destruct (decide (k ∈ l)); [by rewrite decide_True by set_solver|].
    rewrite decide_False; [done|]. set_solver.
Qed.

Lemma filter_ext_in {A} (P Q : A → Prop) `{!∀ x, Decision (P x), !∀ x, Decision (Q x)} (l : list A) :
  (∀ x, x ∈ l → P x ↔ Q x) → filter P l = filter Q l.
Proof.
  intros Heq. induction l as [|x l IH]; [done|]. rewrite !filter_cons, IH by (intros; apply Heq; set_solver).
  pose proof (Heq x) as Hx. repeat case_decide; set_solver.
Qed.

(** ** Sums over a map *)

Section sums.
Local Open Scope Z_scope.
Context `{Countable K} {A : Type}.
Implicit Types (m : gmap K A) (f g : A → Z).

Definition lsum f (l : list (K * A)) : Z := foldr (λ kx acc, f kx.2 + acc) 0 l.
Definition msum f m : Z := lsum f (map_to_list m).

Lemma lsum_perm f l l' : l ≡ₚ l' → lsum f l = lsum f l'.
Proof. unfold lsum. induction 1; cbn; lia. Qed.

Lemma msum_delete f m i x : m !! i = Some x → msum f m = f x + msum f (delete i m).
Proof.
  intros Hx. unfold msum. rewrite <-(insert_delete_id m i x Hx) at 1.
  rewrite (lsum_perm _ _ _ (map_to_list_insert (delete i m) i x (lookup_delete_eq m i))). done.
Qed.

Lemma msum_insert f m i x : m !! i = None → msum f (<[i := x]> m) = f x + msum f m.
Proof. intros Hi. unfold msum. by rewrite (lsum_perm _ _ _ (map_to_list_insert m i x Hi)). Qed.

Lemma msum_empty f : msum f ∅ = 0.
Proof. unfold msum. by rewrite map_to_list_empty. Qed.

Lemma msum_ext f g m : (∀ i x, m !! i = Some x → f x = g x) → msum f m = msum g m.
Proof.
  intros Hfg. unfold msum. assert (∀ k x, (k, x) ∈ map_to_list m → f x = g x) as Hl.
  { intros k x. rewrite elem_of_map_to_list. apply Hfg. }
  unfold lsum. induction (map_to_list m) as [|[k x] l IH]; [done|]. cbn. rewrite (Hl k x) by set_solver.
  rewrite IH; [done|]. intros; eapply Hl. by right.
Qed.

Lemma msum_nonneg f m : (∀ x, 0 <= f x) → 0 <= msum f m.
Proof. intros Hf. unfold msum, lsum. induction (map_to_list m) as [|[k x] l IH]; cbn; [lia|]. specialize (Hf x). lia. Qed.

(** Elements may disappear or count for less. *)
Lemma msum_mono f g m : ∀ m',
  (∀ i x, m !! i = Some x → ∃ y, m' !! i = Some y ∧ f x <= g y) → (∀ y, 0 <= g y) → msum f m <= msum g m'.
Proof.
  induction m as [|i x m Hi IH] using map_ind; intros m' Hm Hg; [rewrite msum_empty; by apply msum_nonneg|].
  rewrite msum_insert by done. destruct (Hm i x) as (y & Hy & Hle); [apply lookup_insert_eq|].
  rewrite (msum_delete g m' i y Hy). enough (msum f m <= msum g (delete i m')) by lia.
  apply IH; [|done]. intros j z Hz. assert (j ≠ i) as Hne by (intros ->; congruence).
  destruct (Hm j z) as (w & Hw & Hle'); [by rewrite lookup_insert_ne|]. exists w. by rewrite lookup_delete_ne.
Qed.
End sums.
