(* ===== verification/Schema.v ===== *)
(** * Identities, field ids, schemas and wire messages

    The data of [object_database/schema.py], [object_database/identity.py] and
    [object_database/messages.py]: the keys under which objects are stored, the
    definitions of types and schemas, the producer of object identities, and the
    messages that servers, proxies and clients exchange.  [TypeMap], the server's
    assignment of numeric ids to fields ([object_database/server.py]), is here as
    well because every component speaks in terms of it. *)

From stdpp Require Import options.
From S2P Require Import Prelude.

(** ** Keys *)

Abbreviation ObjectId := Z (only parsing).
Abbreviation FieldId := Z (only parsing).
Abbreviation IndexValue := bytes.

(** [ObjectFieldId = NamedTuple(objId=int, fieldId=int, isIndexValue=bool)] *)
Record ObjectFieldId := OFI { objId : ObjectId; ofiFieldId : FieldId; isIndexValue : bool }.

(** [IndexId = NamedTuple(fieldId=int, indexValue=IndexValue)] *)
Record IndexId := IXI { ixFieldId : FieldId; indexValue : IndexValue }.

#[export] Instance ObjectFieldId_eq_dec : EqDecision ObjectFieldId.
Proof. solve_decision. Defined.
#[export] Instance ObjectFieldId_countable : Countable ObjectFieldId.
Proof.
  refine (inj_countable' (λ k, (objId k, ofiFieldId k, isIndexValue k))
            (λ x, OFI x.1.1 x.1.2 x.2) _). by intros [].
Defined.
#[export] Instance IndexId_eq_dec : EqDecision IndexId.
Proof. solve_decision. Defined.
#[export] Instance IndexId_countable : Countable IndexId.
Proof.
  refine (inj_countable' (λ k, (ixFieldId k, indexValue k)) (λ x, IXI x.1 x.2) _). by intros [].
Defined.

(** [TypeDefinition], [SchemaDefinition] and [FieldDefinition]. *)
Record TypeDefinition := TypeDef { td_fields : list string; td_indices : list string }.
Abbreviation SchemaDefinition := (gmap string TypeDefinition).
Record FieldDefinition := FieldDef { fd_schema : string; fd_typename : string; fd_fieldname : string }.

#[export] Instance TypeDefinition_eq_dec : EqDecision TypeDefinition.
Proof. solve_decision. Defined.
#[export] Instance FieldDefinition_eq_dec : EqDecision FieldDefinition.
Proof. solve_decision. Defined.
#[export] Instance FieldDefinition_countable : Countable FieldDefinition.
Proof.
  refine (inj_countable' (λ k, (fd_schema k, fd_typename k, fd_fieldname k))
            (λ x, FieldDef x.1.1 x.1.2 x.2) _). by intros [].
Defined.

(** ** Identities ([identity.py]) *)

Module Identity.

Definition IDENTITY_BLOCK_SIZE : Z := 100000000.

Record IdentityProducer := { ip_ix : Z; ip_count : Z }.
#[export] Instance IdentityProducer_settable : Settable IdentityProducer :=
  λ r, {| ip_ix := ip_ix r; ip_count := ip_count r |}.

Definition new (ix : Z) : IdentityProducer := {| ip_ix := ix; ip_count := 0 |}.

Definition createIdentity : M IdentityProducer ObjectId :=
  count ← gets ip_count;
  modify (λ p, p <| ip_count ::= (λ c, c + 1)%Z |>);;
  ix ← gets ip_ix;
  mret (ix * IDENTITY_BLOCK_SIZE + count)%Z.

(** The identities handed out by [n] successive calls. *)
Fixpoint createIdentities (n : nat) : M IdentityProducer (list ObjectId) :=
  match n with
  | O => mret []
  | S n => i ← createIdentity; ids ← createIdentities n; mret (i :: ids)
  end.

Lemma createIdentity_run p :
  createIdentity p =
    (Ok (ip_ix p * IDENTITY_BLOCK_SIZE + ip_count p)%Z, p <| ip_count ::= (λ c, c + 1)%Z |>).
Proof. done. Qed.

Lemma createIdentities_run n p :
  createIdentities n p =
    (Ok ((λ i, ip_ix p * IDENTITY_BLOCK_SIZE + ip_count p + Z.of_nat i)%Z <$> seq 0 n),
     p <| ip_count ::= (λ c, c + Z.of_nat n)%Z |>).
Proof.
  revert p. induction n as [|n IH]; intros [ix c]; cbn -[IDENTITY_BLOCK_SIZE].
  - by rewrite Z.add_0_r.
  - rewrite run_bind, createIdentity_run, run_bind, IH, run_mret. cbn -[IDENTITY_BLOCK_SIZE].
    f_equal; [do 2 f_equal; [lia|]|f_equal; lia].
    rewrite <-fmap_S_seq, <-list_fmap_compose.
    apply list_fmap_ext. intros i x _. cbn -[IDENTITY_BLOCK_SIZE]. lia.
Qed.
End Identity.

(** ** Type maps ([TypeMap] in [server.py]) *)

Module TypeMap.

Record TypeMap := { fieldDefToId : gmap FieldDefinition FieldId; fieldIdToDef : gmap FieldId FieldDefinition }.
#[export] Instance TypeMap_settable : Settable TypeMap :=
  λ r, {| fieldDefToId := fieldDefToId r; fieldIdToDef := fieldIdToDef r |}.

Definition empty : TypeMap := {| fieldDefToId := ∅; fieldIdToDef := ∅ |}.

(** [__len__] *)
Definition len (tm : TypeMap) : Z := Z.of_nat (size (fieldDefToId tm)).

Definition lookupOrAdd (schema typename fieldname : string) : M TypeMap FieldId :=
  let key := FieldDef schema typename fieldname in
  known ← gets fieldDefToId;
  whenM (bool_decide (known !! key = None))
    (fieldId ← gets len;
     modify (λ tm, tm <| fieldDefToId ::= <[key := fieldId]> |>);;
     modify (λ tm, tm <| fieldIdToDef ::= <[fieldId := key]> |>));;
  known ← gets fieldDefToId;
  lift_option KeyError (known !! key).

Definition fieldIdFor (tm : TypeMap) (schema typename fieldname : string) : option FieldId :=
  fieldDefToId tm !! FieldDef schema typename fieldname.

(** The two dictionaries are inverse to each other and the ids are [0 .. len-1]. *)
Record wf (tm : TypeMap) : Prop := {
  wf_inverse d i : fieldDefToId tm !! d = Some i ↔ fieldIdToDef tm !! i = Some d;
  wf_range i : is_Some (fieldIdToDef tm !! i) ↔ (0 ≤ i < len tm)%Z;
}.

Lemma wf_empty : wf empty.
Proof.
  split; unfold empty; cbn; intros.
  - by rewrite !lookup_empty.
  - rewrite lookup_empty. unfold len. cbn. rewrite map_size_empty. split; [by intros []|lia].
Qed.

(** What a call returns, and the map it leaves. *)
Lemma lookupOrAdd_run s t f tm :
  lookupOrAdd s t f tm =
    match fieldIdFor tm s t f with
    | Some i => (Ok i, tm)
    | None => (Ok (len tm), {| fieldDefToId := <[FieldDef s t f := len tm]> (fieldDefToId tm);
                               fieldIdToDef := <[len tm := FieldDef s t f]> (fieldIdToDef tm) |})
    end.
Proof.
  unfold lookupOrAdd, fieldIdFor.
  autorewrite with run. destruct (fieldDefToId tm !! FieldDef s t f) as [i|] eqn:Hf; cbn.
  - autorewrite with run. by rewrite Hf.
  - autorewrite with run. cbn. by rewrite lookup_insert_eq.
Qed.

Lemma lookupOrAdd_wf s t f : preserves wf (lookupOrAdd s t f).
Proof.
  intros tm Hwf. rewrite lookupOrAdd_run.
  destruct (fieldIdFor tm s t f) as [i|] eqn:Hf; [done|]. unfold fieldIdFor in Hf.
  destruct Hwf as [Hinv Hrange].
  assert (fieldIdToDef tm !! len tm = None) as Hfresh.
  { apply eq_None_not_Some. rewrite Hrange. lia. }
  split; cbn.
  - intros d i. rewrite !lookup_insert. repeat case_decide; subst; naive_solver.
  - intros i. unfold len; cbn. rewrite map_size_insert_None by done.
    destruct (decide (i = len tm)) as [->|Hne].
    + rewrite lookup_insert_eq. unfold len. split; [lia|done].
    + rewrite lookup_insert_ne, Hrange by done. unfold len in *. lia.
Qed.

(** Known fields keep their ids. *)
Lemma lookupOrAdd_stable s t f tm d i :
  wf tm → fieldDefToId tm !! d = Some i → fieldDefToId (lookupOrAdd s t f tm).2 !! d = Some i.
Proof.
  intros Hwf Hd. rewrite lookupOrAdd_run. unfold fieldIdFor.
  destruct (fieldDefToId tm !! FieldDef s t f) eqn:Hf; cbn; [done|].
  rewrite lookup_insert_ne; congruence.
Qed.
End TypeMap.

