(* ===== verification/Messages.v ===== *)
(** * Wire messages and the serialization library

    [object_database/messages.py] defines the two message alternatives
    [ClientToServer] and [ServerToClient].  [typed_python], which encodes and
    decodes values, is a third-party package: its functions are the fields of the
    class [Serialization], with the round trips the program relies on in
    [SerializationLaws].  [Codec] is a concrete instance for evaluating examples. *)

From stdpp Require Import options.
From S2P Require Import Prelude Schema.

(** [OneOf(None, Tuple(str, IndexValue))] *)
Abbreviation FieldnameAndValue := (option (string * IndexValue)) (only parsing).

Inductive ClientToServer :=
  | TransactionData (writes : gmap ObjectFieldId (option bytes))
      (set_adds set_removes : gmap IndexId (list ObjectId))
      (key_versions : list ObjectFieldId) (index_versions : list IndexId)
      (transaction_guid : Z) (prerequisites : gmap ObjectFieldId (option bytes))
  | CompleteTransaction (as_of_version transaction_guid : Z) (no_log : bool)
  | Heartbeat
  | DefineSchema (name : string) (definition : SchemaDefinition)
  | LoadLazyObject (schema typename : string) (identity : ObjectId)
  | Subscribe (schema typename : string) (fieldname_and_value : FieldnameAndValue) (isLazy : bool)
  | Flush (guid : Z)
  | Authenticate (token : string)
  | RequestDependentConnectionId (parentId : ObjectId) (guid : string)
  | DropDependentConnectionId (connIdentity : ObjectId)
  | SubscribeNone (schema typename : string).

(** [OneOf(None, ObjectFieldId, IndexId, str)] *)
Inductive BadKey :=
  | NoBadKey
  | BadObjectField (k : ObjectFieldId)
  | BadIndex (k : IndexId)
  | BadText (s : string).

Inductive ServerToClient :=
  | Initialize (transaction_num : Z) (connIdentity : ObjectId) (identity_root : Z)
  | TransactionResult (transaction_guid : Z) (success : bool) (badKey : BadKey) (isException : bool)
  | SchemaMapping (schema : string) (mapping : gmap FieldDefinition FieldId)
  | FlushResponse (guid : Z)
  | SubscriptionData (schema : string) (typename : string) (fieldname_and_value : FieldnameAndValue)
      (values : gmap ObjectFieldId (option bytes))
      (index_values : gmap ObjectFieldId (option IndexValue))
      (identities : option (list ObjectId))
  | LazyTransactionPriors (writes : gmap ObjectFieldId (option bytes))
  | LazyLoadResponse (identity : ObjectId) (values : gmap ObjectFieldId (option bytes))
  | LazySubscriptionData (schema : string) (typename : string)
      (fieldname_and_value : FieldnameAndValue) (identities : list ObjectId)
      (index_values : gmap ObjectFieldId (option IndexValue))
  | SubscriptionComplete (schema : string) (typename : string)
      (fieldname_and_value : FieldnameAndValue) (tid : Z)
  | SubscriptionIncrease (schema typename : string) (fieldname_and_value : string * IndexValue)
      (identities : list ObjectId) (transaction_id : Z)
  | Disconnected
  | Transaction (writes : gmap ObjectFieldId (option bytes))
      (set_adds set_removes : gmap IndexId (list ObjectId)) (transaction_id : Z)
  | DependentConnectionId (guid : string) (connIdentity : ObjectId) (identity_root : Z).

(** ** The serialization library *)

Class Serialization := {
  (* [serialize(int, x)] and [deserialize(int, b)] *)
  serialize_int : Z → bytes;
  deserialize_int : bytes → option Z;
  (* [serialize(bool, x)] *)
  serialize_bool : bool → bytes;
  (* [serialize(IndexValue, x)] and its inverse; [IndexValue] is [bytes] *)
  serialize_IndexValue : bytes → bytes;
  deserialize_IndexValue : bytes → option bytes;
  (* [deserialize(ObjectBase, b)._identity] *)
  deserialize_ObjectBase : bytes → option ObjectId;
  (* [serializationContext.serialize(types, TypeMap)] and its inverse *)
  serialize_TypeMap : TypeMap.TypeMap → bytes;
  deserialize_TypeMap : bytes → option TypeMap.TypeMap;
}.

Class SerializationLaws `{Serialization} : Prop := {
  deserialize_serialize_int x : deserialize_int (serialize_int x) = Some x;
  serialize_bool_inj : serialize_bool true ≠ serialize_bool false;
  deserialize_serialize_IndexValue b : deserialize_IndexValue (serialize_IndexValue b) = Some b;
  deserialize_serialize_TypeMap tm : deserialize_TypeMap (serialize_TypeMap tm) = Some tm;
}.

(** [indexValueFor(bool, True)] ([schema.py]) *)
Definition indexValueFor_bool `{Serialization} (b : bool) : IndexValue := serialize_bool b.

(** A concrete instance of the library, through stdpp's [encode], for evaluating
    the definitions on examples: a positive number written in bits, a byte per bit. *)
Module Codec.

Fixpoint bits (p : positive) : bytes :=
  match p with
  | xH => []
  | xO p => Byte.x00 :: bits p
  | xI p => Byte.x01 :: bits p
  end.

Fixpoint unbits (b : bytes) : positive :=
  match b with
  | [] => xH
  | Byte.x00 :: b => xO (unbits b)
  | _ :: b => xI (unbits b)
  end.

Lemma unbits_bits p : unbits (bits p) = p.
Proof. induction p; simpl; congruence. Qed.

#[export] Instance TypeMap_eq_dec : EqDecision TypeMap.TypeMap.
Proof. solve_decision. Defined.
#[export] Instance TypeMap_countable : Countable TypeMap.TypeMap.
Proof.
  refine (inj_countable' (λ k, (TypeMap.fieldDefToId k, TypeMap.fieldIdToDef k))
            (λ x, TypeMap.Build_TypeMap x.1 x.2) _). by intros [].
Defined.

#[export] Instance codec : Serialization := {|
  serialize_int x := bits (encode x);
  deserialize_int b := decode (unbits b);
  serialize_bool b := [if b then Byte.x01 else Byte.x00];
  serialize_IndexValue b := Byte.x02 :: b;
  deserialize_IndexValue b := match b with Byte.x02 :: b => Some b | _ => None end;
  deserialize_ObjectBase b := decode (unbits b);
  serialize_TypeMap tm := bits (encode tm);
  deserialize_TypeMap b := decode (unbits b);
|}.

#[export] Instance codec_laws : SerializationLaws.
Proof. split; intros; cbn; rewrite ?unbits_bits, ?decode_encode; done. Qed.
End Codec.
