(* ===== verification/Persistence.v ===== *)
(** * The key-value store ([object_database/persistence.py])

    [InMemoryPersistence] keeps one dictionary from keys to either a byte string
    or a set.  Its operations are modelled with the assertions they make and the
    state they leave behind when one fails; [KVStore] is the interface the server
    is verified against, with the laws a store promises as [KVStoreLaws]. *)

From stdpp Require Import options.
From S2P Require Import Prelude Schema Messages.

(** [KeyType = OneOf(ObjectFieldId, IndexId, FieldId, "identityRoot", "types")] *)
Inductive Key :=
  | KObj (k : ObjectFieldId)
  | KIdx (k : IndexId)
  | KField (f : FieldId)
  | KName (s : string).

(** [SetValue = OneOf(int, bytes)] *)
Inductive SetValue :=
  | SInt (i : Z)
  | SBytes (b : bytes).

#[export] Instance Key_eq_dec : EqDecision Key.
Proof. solve_decision. Defined.
#[export] Instance Key_countable : Countable Key.
Proof.
  refine (inj_countable'
    (λ k, match k with KObj k => inl (inl k) | KIdx k => inl (inr k)
                     | KField f => inr (inl f) | KName s => inr (inr s) end)
    (λ x, match x with inl (inl k) => KObj k | inl (inr k) => KIdx k
                     | inr (inl f) => KField f | inr (inr s) => KName s end) _). by intros [].
Defined.
#[export] Instance SetValue_eq_dec : EqDecision SetValue.
Proof. solve_decision. Defined.
#[export] Instance SetValue_countable : Countable SetValue.
Proof.
  refine (inj_countable' (λ k, match k with SInt i => inl i | SBytes b => inr b end)
            (λ x, match x with inl i => SInt i | inr b => SBytes b end) _). by intros [].
Defined.

Inductive StoredValue :=
  | VBytes (b : bytes)
  | VSet (s : gset SetValue).

#[export] Instance StoredValue_eq_dec : EqDecision StoredValue.
Proof. solve_decision. Defined.

Section in_memory.
Context `{Serialization}.

(** [self.values]; the lock is held for the whole of every operation. *)
Record InMemoryPersistence := { values : gmap Key StoredValue }.
#[export] Instance InMemoryPersistence_settable : Settable InMemoryPersistence :=
  λ r, {| values := values r |}.

Definition new_store : InMemoryPersistence := {| values := ∅ |}.

(** [key.isIndexValue], read only when the key is not a string: an [IndexId] and a
    plain field id have no such attribute. *)
Definition key_isIndexValue (key : Key) : M InMemoryPersistence bool :=
  match key with
  | KName _ => mret false
  | KObj k => mret (isIndexValue k)
  | KIdx _ | KField _ => raise AttributeError
  end.

Definition get (key : Key) : M InMemoryPersistence (option bytes) :=
  vs ← gets values;
  match vs !! key with
  | None => mret None
  | Some (VSet _) => raise AssertionError
  | Some (VBytes val) =>
      isIV ← key_isIndexValue key;
      if isIV : bool then
        iv ← lift_option DeserializeError (deserialize_IndexValue val);
        mret (Some iv)
      else mret (Some val)
  end.

Definition set (key : Key) (value : option bytes) : M InMemoryPersistence unit :=
  isIV ← key_isIndexValue key;
  match value with
  | None => modify (λ s, s <| values ::= delete key |>)
  | Some v =>
      modify (λ s, s <| values ::=
        <[key := VBytes (if isIV : bool then serialize_IndexValue v else v)]> |>)
  end.

(** [self.values[key]], used as a set.  A byte string is never stored under a key that
    is used as a set (see [store_wf]); an access of that kind is an error here. *)
Definition lookup_set (key : Key) : M InMemoryPersistence (gset SetValue) :=
  vs ← gets values;
  match vs !! key with
  | None => raise KeyError
  | Some (VBytes _) => raise AttributeError
  | Some (VSet s) => mret s
  end.

Definition put_set (key : Key) (s : gset SetValue) : M InMemoryPersistence unit :=
  modify (λ st, st <| values ::= <[key := VSet s]> |>).

Definition _setAdd (key : Key) (vals : gset SetValue) : M InMemoryPersistence unit :=
  whenM (bool_decide (vals ≠ ∅))
    (vs ← gets values;
     whenM (bool_decide (vs !! key = None)) (put_set key ∅);;
     forM (elements vals) (λ value,
       s ← lookup_set key;
       assertM (bool_decide (value ∉ s));;
       put_set key ({[value]} ∪ s))).

Definition _setRemove (key : Key) (vals : gset SetValue) : M InMemoryPersistence unit :=
  whenM (bool_decide (vals ≠ ∅))
    (vs ← gets values;
     (* [assert self.values.get(key, set())]: present and not empty *)
     assertM (match vs !! key with
              | None => false
              | Some (VBytes b) => negb (bool_decide (b = []))
              | Some (VSet s) => bool_decide (s ≠ ∅) end);;
     forM (elements vals) (λ value,
       s ← lookup_set key;
       assertM (bool_decide (value ∈ s));;
       put_set key (s ∖ {[value]}));;
     s ← lookup_set key;
     whenM (bool_decide (s = ∅)) (modify (λ st, st <| values ::= delete key |>))).

Definition getSetMembers (key : Key) : M InMemoryPersistence (gset SetValue) :=
  vs ← gets values;
  match vs !! key with
  | None => mret ∅
  | Some (VBytes _) => raise AssertionError
  | Some (VSet s) => mret s
  end.

Definition getSeveral (keys : list Key) : M InMemoryPersistence (list (option bytes)) :=
  mapM keys get.

Definition getSeveralAsDictionary (keys : list Key) :
    M InMemoryPersistence (gmap Key (option bytes)) :=
  vals ← getSeveral keys;
  mret (list_to_map (zip keys vals)).

(** the bodies of the two loops of [setSeveral] over the set additions and removals *)
Definition add_step (kv : Key * gset SetValue) (new_sets : gset Key) :
    M InMemoryPersistence (gset Key) :=
  vs ← gets values;
  _setAdd kv.1 kv.2;;
  mret (if bool_decide (vs !! kv.1 = None) then {[kv.1]} ∪ new_sets else new_sets).

Definition remove_step (kv : Key * gset SetValue) (dropped_sets : gset Key) :
    M InMemoryPersistence (gset Key) :=
  _setRemove kv.1 kv.2;;
  vs ← gets values;
  mret (if bool_decide (vs !! kv.1 = None) then {[kv.1]} ∪ dropped_sets else dropped_sets).

Definition setSeveral (kvs : gmap Key (option bytes)) (adds removes : gmap Key (gset SetValue)) :
    M InMemoryPersistence (gset Key * gset Key) :=
  (* the two assertions that a key is not "already a string" test for [str]; values are
     [bytes] or sets, so they hold always *)
  forM (map_to_list kvs) (λ kv, set kv.1 kv.2);;
  new_sets ← foldM (map_to_list adds) ∅ add_step;
  dropped_sets ← foldM (map_to_list removes) ∅ remove_step;
  mret (new_sets, dropped_sets).

Definition exists_ (key : Key) : M InMemoryPersistence bool :=
  gets (λ s, bool_decide (is_Some (values s !! key))).

Definition delete_ (key : Key) : M InMemoryPersistence unit :=
  modify (λ s, s <| values ::= delete key |>).

(** ** The store as the sets and strings it holds *)

Definition members (st : InMemoryPersistence) (key : Key) : gset SetValue :=
  match values st !! key with Some (VSet s) => s | _ => ∅ end.

Definition is_set_key (key : Key) : bool :=
  match key with KIdx _ | KField _ => true | KObj _ | KName _ => false end.

(** the string under a key, as [get] decodes it *)
Definition str_value (st : InMemoryPersistence) (key : Key) : option bytes :=
  match values st !! key with
  | Some (VBytes b) =>
      match key with
      | KObj k => if isIndexValue k then deserialize_IndexValue b else Some b
      | _ => Some b
      end
  | _ => None
  end.

(** Strings are under object and name keys, non-empty sets under index and field keys,
    and what is stored for an index value decodes. *)
Definition value_wf (key : Key) (v : StoredValue) : Prop :=
  match v with
  | VBytes b => is_set_key key = false ∧
      match key with KObj k => isIndexValue k = true → is_Some (deserialize_IndexValue b)
                   | _ => True end
  | VSet s => is_set_key key = true ∧ s ≠ ∅
  end.

Definition store_wf (st : InMemoryPersistence) : Prop := map_Forall value_wf (values st).

Lemma store_wf_new : store_wf new_store.
Proof. apply map_Forall_empty. Qed.

Lemma store_wf_insert st key v :
  store_wf st → value_wf key v → store_wf (st <| values ::= <[key := v]> |>).
Proof. intros Hwf Hv. by apply map_Forall_insert_2. Qed.

Lemma store_wf_delete st key : store_wf st → store_wf (st <| values ::= delete key |>).
Proof. intros Hwf. by apply map_Forall_delete. Qed.

Lemma members_empty st key :
  store_wf st → is_set_key key = true → members st key = ∅ ↔ values st !! key = None.
Proof.
  intros Hwf Hkey. unfold members. destruct (values st !! key) as [v|] eqn:Hv; [|done].
  specialize (Hwf _ _ Hv). destruct v; naive_solver congruence.
Qed.

Lemma get_run st key :
  store_wf st → is_set_key key = false → get key st = (Ok (str_value st key), st).
Proof.
  intros Hwf Hkey. unfold get, str_value. autorewrite with run.
  destruct (values st !! key) as [[b|s]|] eqn:Hv; [| |done].
  - specialize (Hwf _ _ Hv) as [_ Hdec]. destruct key as [k| | |]; try done; cbn.
    rewrite run_bind, run_mret. destruct (isIndexValue k); [|done].
    destruct (Hdec eq_refl) as [iv Hiv]. autorewrite with run. by rewrite Hiv.
  - specialize (Hwf _ _ Hv) as [? _]. congruence.
Qed.

Lemma getSetMembers_run st key :
  store_wf st → is_set_key key = true → getSetMembers key st = (Ok (members st key), st).
Proof.
  intros Hwf Hkey. unfold getSetMembers, members. autorewrite with run.
  destruct (values st !! key) as [[b|s]|] eqn:Hv; try done.
  specialize (Hwf _ _ Hv) as [? _]. congruence.
Qed.

Lemma getSeveral_run st keys :
  store_wf st → Forall (λ k, is_set_key k = false) keys →
  getSeveral keys st = (Ok (str_value st <$> keys), st).
Proof.
  intros Hwf. unfold getSeveral. induction 1 as [|key keys Hkey _ IH]; [done|]. cbn [mapM].
  unfold bind at 1. rewrite get_run by done. unfold bind. by rewrite IH.
Qed.

(** *** One write *)

Definition enc_value (key : Key) (b : bytes) : bytes :=
  match key with KObj k => if isIndexValue k then serialize_IndexValue b else b | _ => b end.

Lemma set_run st key v :
  is_set_key key = false →
  set key v st = (Ok tt, st <| values ::= (match v with None => delete key
                                 | Some b => <[key := VBytes (enc_value key b)]> end) |>).
Proof.
  intros Hkey. unfold set. destruct key as [k| | |]; try done; destruct v; cbn; try done;
    rewrite run_bind, run_mret; try done.
Qed.

Lemma put_set_run st key s : put_set key s st = (Ok tt, st <| values ::= <[key := VSet s]> |>).
Proof. done. Qed.

Lemma lookup_set_run st key s :
  values st !! key = Some (VSet s) → lookup_set key st = (Ok s, st).
Proof. intros Hs. unfold lookup_set. autorewrite with run. by rewrite Hs. Qed.

Definition with_set (st : InMemoryPersistence) (key : Key) (s : gset SetValue) :=
  st <| values ::= <[key := VSet s]> |>.

Lemma with_set_with_set st key s s' : with_set (with_set st key s) key s' = with_set st key s'.
Proof. destruct st as [vs]. unfold with_set; cbn. by rewrite insert_insert_eq. Qed.

(** adding the elements of a list one after the other *)
Lemma setAdd_loop_run l st key s :
  NoDup l → (∀ v, v ∈ l → v ∉ s) →
  forM l (λ value, s ← lookup_set key; assertM (bool_decide (value ∉ s));;
                   put_set key ({[value]} ∪ s)) (with_set st key s)
  = (Ok tt, with_set st key (s ∪ list_to_set l)).
Proof.
  intros Hnd. revert s. induction Hnd as [|x l Hx Hnd IH]; intros s Hs.
  - simpl. by rewrite (right_id_L ∅ (∪)).
  - cbn [forM]. unfold bind at 1.
    erewrite run_bind_ok; [|apply lookup_set_run, lookup_insert_eq].
    rewrite run_bind, run_assertM, bool_decide_true by set_solver.
    rewrite put_set_run. fold (with_set (with_set st key s) key ({[x]} ∪ s)).
    rewrite with_set_with_set, IH by set_solver. do 2 f_equal. simpl. set_solver.
Qed.

Lemma setRemove_loop_run l st key s :
  NoDup l → (∀ v, v ∈ l → v ∈ s) →
  forM l (λ value, s ← lookup_set key; assertM (bool_decide (value ∈ s));;
                   put_set key (s ∖ {[value]})) (with_set st key s)
  = (Ok tt, with_set st key (s ∖ list_to_set l)).
Proof.
  intros Hnd. revert s. induction Hnd as [|x l Hx Hnd IH]; intros s Hs.
  - simpl. by rewrite difference_empty_L.
  - cbn [forM]. unfold bind at 1.
    erewrite run_bind_ok; [|apply lookup_set_run, lookup_insert_eq].
    rewrite run_bind, run_assertM, bool_decide_true by set_solver.
    rewrite put_set_run. fold (with_set (with_set st key s) key (s ∖ {[x]})).
    rewrite with_set_with_set, IH by set_solver. do 2 f_equal. simpl.
    apply set_eq. intros y. rewrite !elem_of_difference, elem_of_union, !elem_of_singleton. tauto.
Qed.

Lemma with_set_id st key s : values st !! key = Some (VSet s) → with_set st key s = st.
Proof. destruct st as [vs]. unfold with_set. cbn. intros. by rewrite insert_id. Qed.

Lemma members_with_set st key s key' :
  members (with_set st key s) key' = if decide (key' = key) then s else members st key'.
Proof. unfold members, with_set. cbn. rewrite lookup_insert. repeat case_decide; congruence. Qed.

Lemma _setAdd_run st key vals :
  store_wf st → is_set_key key = true → vals ≠ ∅ → vals ## members st key →
  _setAdd key vals st = (Ok tt, with_set st key (members st key ∪ vals)).
Proof.
  intros Hwf Hkey Hne Hdisj. unfold _setAdd. rewrite bool_decide_true by done. cbn [whenM].
  rewrite run_bind, run_gets.
  assert (whenM (bool_decide (values st !! key = None)) (put_set key ∅) st =
          (Ok tt, with_set st key (members st key))) as Hinit.
  { case_bool_decide as Hk; cbn [whenM].
    - rewrite put_set_run. unfold members. by rewrite Hk.
    - unfold members. destruct (values st !! key) as [[b|s]|] eqn:Hv; [|by rewrite with_set_id|done].
      specialize (Hwf _ _ Hv) as [? _]. congruence. }
  rewrite run_bind, Hinit. rewrite setAdd_loop_run; [|apply NoDup_elements|set_solver].
  by rewrite list_to_set_elements_L.
Qed.

Lemma _setRemove_run st key vals :
  store_wf st → is_set_key key = true → vals ≠ ∅ → vals ⊆ members st key →
  _setRemove key vals st =
    (Ok tt, if decide (members st key ∖ vals = ∅) then st <| values ::= delete key |>
            else with_set st key (members st key ∖ vals)).
Proof.
  intros Hwf Hkey Hne Hsub. unfold _setRemove. rewrite bool_decide_true by done. cbn [whenM].
  rewrite run_bind, run_gets.
  assert (members st key ≠ ∅) as Hm by set_solver.
  unfold members in *. destruct (values st !! key) as [[b|s]|] eqn:Hv; [done| |done].
  rewrite run_bind, run_assertM, bool_decide_true by done.
  rewrite <-(with_set_id st key s) at 1 by done.
  rewrite run_bind, setRemove_loop_run; [|apply NoDup_elements|set_solver].
  rewrite list_to_set_elements_L.
  erewrite run_bind_ok; [|apply lookup_set_run, lookup_insert_eq].
  case_bool_decide; case_decide; try done. cbn [whenM]. rewrite run_modify.
  destruct st as [vs]. unfold with_set. cbn. by rewrite delete_insert_eq.
Qed.

(** *** The three loops of [setSeveral] *)

Lemma set_loop_run l st :
  Forall (λ kv, is_set_key kv.1 = false) l → NoDup l.*1 → store_wf st → SerializationLaws →
  ∃ st', forM l (λ kv, set kv.1 kv.2) st = (Ok tt, st') ∧ store_wf st' ∧
    (∀ k, str_value st' k = default (str_value st k) ((list_to_map l : gmap Key _) !! k)) ∧
    (∀ k, is_set_key k = true → values st' !! k = values st !! k).
Proof.
  intros Hkeys. revert st. induction Hkeys as [|[key v] l Hkey _ IH]; intros st Hnd Hwf Hlaws.
  { exists st. cbn. split_and!; try done. }
  cbn in Hkey. rewrite fmap_cons in Hnd. apply NoDup_cons in Hnd as [Hx Hnd]. cbn in Hx.
  cbn [forM fst snd]. unfold bind. rewrite set_run by done.
  set (st1 := st <| values ::= _ |>).
  assert (store_wf st1) as Hwf1.
  { destruct v; [|by apply store_wf_delete]. apply store_wf_insert; [done|]. split; [done|].
    destruct key as [k| | |]; try done. intros Hk. cbn. rewrite Hk. eauto using
      deserialize_serialize_IndexValue. }
  destruct (IH st1 Hnd Hwf1 Hlaws) as (st' & Hrun & Hwf' & Hstr & Hset).
  exists st'. split_and!; [done|done| |].
  - intros k. rewrite Hstr. cbn. rewrite lookup_insert. case_decide as Hk; subst; cbn.
    + rewrite not_elem_of_list_to_map_1 by done. cbn. unfold str_value, st1; cbn.
      destruct v as [b|]; [|by rewrite lookup_delete_eq].
      rewrite lookup_insert_eq. destruct k as [k| | |]; try done. cbn.
      destruct (isIndexValue k); [|done]. by rewrite deserialize_serialize_IndexValue.
    + destruct (_ !! k); [done|]. cbn. unfold str_value, st1; cbn.
      destruct v; [by rewrite lookup_insert_ne|by rewrite lookup_delete_ne].
  - intros k Hk. rewrite Hset by done. unfold st1; cbn. assert (key ≠ k) by congruence.
    destruct v; [by rewrite lookup_insert_ne|by rewrite lookup_delete_ne].
Qed.

Lemma str_value_with_set st key s k :
  is_set_key key = true → is_set_key k = false → str_value (with_set st key s) k = str_value st k.
Proof.
  intros Hkey Hk. unfold str_value, with_set. cbn. rewrite lookup_insert_ne; [done|congruence].
Qed.

Lemma str_value_set_key st k : store_wf st → is_set_key k = true → str_value st k = None.
Proof.
  intros Hwf Hk. unfold str_value. destruct (values st !! k) as [[b|]|] eqn:Hv; try done.
  specialize (Hwf _ _ Hv) as [? _]. congruence.
Qed.

Lemma add_loop_run l st ns :
  Forall (λ kv, is_set_key kv.1 = true ∧ kv.2 ≠ ∅ ∧ kv.2 ## members st kv.1) l →
  NoDup l.*1 → store_wf st →
  ∃ st' ns', foldM l ns add_step st = (Ok ns', st') ∧ store_wf st' ∧
    (∀ k, is_set_key k = false → str_value st' k = str_value st k) ∧
    (∀ k, members st' k = members st k ∪ mm_get (list_to_map l) k) ∧
    (∀ k, k ∈ ns' ↔ k ∈ ns ∨ (k ∈ l.*1 ∧ members st k = ∅)).
Proof.
  revert st ns. induction l as [|[key vals] l IH]; intros st ns Hall Hnd Hwf.
  { exists st, ns. cbn. split_and!; try done; set_solver. }
  apply Forall_cons in Hall as [(Hkey & Hne & Hdisj) Hall]. cbn in Hkey, Hne, Hdisj.
  rewrite fmap_cons in Hnd. apply NoDup_cons in Hnd as [Hx Hnd]. cbn in Hx.
  cbn [foldM]. unfold bind at 1, add_step at 1. rewrite run_bind, run_gets, run_bind. cbn [fst snd].
  rewrite _setAdd_run, run_mret by done.
  set (st1 := with_set _ _ _).
  assert (store_wf st1) as Hwf1 by (apply store_wf_insert; [done|split; [done|set_solver]]).
  assert (∀ k, k ≠ key → members st1 k = members st k) as Hm1.
  { intros k Hk. unfold st1. rewrite members_with_set. by case_decide. }
  destruct (IH st1 (if bool_decide (values st !! key = None) then {[key]} ∪ ns else ns))
    as (st' & ns' & Hrun & Hwf' & Hstr & Hmem & Hns); [|done..|].
  { apply Forall_forall. intros [k v] Hin. rewrite Forall_forall in Hall.
    rewrite Hm1; [by apply (Hall (k, v))|]. cbn. intros ->. apply Hx.
    apply list_elem_of_fmap. by exists (key, v). }
  exists st', ns'. split_and!; [done|done| | |].
  - intros k Hk. rewrite Hstr by done. by apply str_value_with_set.
  - intros k. rewrite Hmem. unfold mm_get. cbn. rewrite lookup_insert. case_decide; subst; cbn.
    + rewrite not_elem_of_list_to_map_1 by done. unfold st1. rewrite members_with_set.
      rewrite decide_True by done. set_solver.
    + by rewrite Hm1.
  - intros k. rewrite Hns, fmap_cons, elem_of_cons. cbn.
    pose proof (members_empty st key Hwf Hkey) as Hempty.
    destruct (decide (k = key)) as [->|Hk]; [clear -Hx Hempty|rewrite Hm1 by done; clear -Hk];
      case_bool_decide; rewrite ?elem_of_union, ?elem_of_singleton; naive_solver.
Qed.

Lemma remove_loop_run l st ds :
  Forall (λ kv, is_set_key kv.1 = true ∧ kv.2 ≠ ∅ ∧ kv.2 ⊆ members st kv.1) l →
  NoDup l.*1 → store_wf st →
  ∃ st' ds', foldM l ds remove_step st = (Ok ds', st') ∧ store_wf st' ∧
    (∀ k, is_set_key k = false → str_value st' k = str_value st k) ∧
    (∀ k, members st' k = members st k ∖ mm_get (list_to_map l) k) ∧
    (∀ k, k ∈ ds' ↔ k ∈ ds ∨ (k ∈ l.*1 ∧ members st' k = ∅)).
Proof.
  revert st ds. induction l as [|[key vals] l IH]; intros st ds Hall Hnd Hwf.
  { exists st, ds. cbn. split_and!; try done; [intros k; rewrite mm_get_empty|]; set_solver. }
  apply Forall_cons in Hall as [(Hkey & Hne & Hsub) Hall]. cbn in Hkey, Hne, Hsub.
  rewrite fmap_cons in Hnd. apply NoDup_cons in Hnd as [Hx Hnd]. cbn in Hx.
  cbn [foldM]. unfold bind at 1, remove_step at 1. rewrite run_bind. cbn [fst snd].
  rewrite _setRemove_run by done. rewrite run_bind, run_gets, run_mret.
  set (st1 := if decide _ then _ else _).
  assert (store_wf st1) as Hwf1.
  { unfold st1. case_decide; [by apply store_wf_delete|apply store_wf_insert; [done|by split]]. }
  assert (∀ k, members st1 k = if decide (k = key) then members st key ∖ vals else members st k)
    as Hm1.
  { intros k. unfold st1. case_decide as Hd; [|by rewrite members_with_set].
    unfold members at 1. cbn. rewrite lookup_delete. repeat case_decide; try congruence. done. }
  assert (∀ k, is_set_key k = false → str_value st1 k = str_value st k) as Hs1.
  { intros k Hk. unfold st1. case_decide; [|by apply str_value_with_set].
    unfold str_value. cbn. rewrite lookup_delete_ne; [done|congruence]. }
  clearbody st1.
  destruct (IH st1 (if bool_decide (values st1 !! key = None) then {[key]} ∪ ds else ds))
    as (st' & ds' & Hrun & Hwf' & Hstr & Hmem & Hds); [|done..|].
  { apply Forall_forall. intros [k v] Hin. rewrite Forall_forall in Hall. cbn.
    rewrite Hm1, decide_False; [by apply (Hall (k, v))|]. intros ->. apply Hx.
    apply list_elem_of_fmap. by exists (key, v). }
  exists st', ds'. split_and!; [done|done| | |].
  - intros k Hk. by rewrite Hstr, Hs1.
  - intros k. rewrite Hmem. unfold mm_get. cbn. rewrite lookup_insert, Hm1.
    destruct (decide (key = k)) as [->|Hk]; [|by rewrite decide_False by done].
    rewrite decide_True, not_elem_of_list_to_map_1 by done. cbn. by rewrite difference_empty_L.
  - intros k. rewrite Hds, fmap_cons, elem_of_cons. cbn.
    pose proof (members_empty st1 key Hwf1 Hkey) as Hempty.
    destruct (decide (k = key)) as [->|Hk].
    2: { case_bool_decide; rewrite ?elem_of_union, ?elem_of_singleton; clear -Hk; naive_solver. }
    assert (members st' key = members st1 key) as Heq.
    { rewrite Hmem. unfold mm_get. rewrite not_elem_of_list_to_map_1 by done. cbn.
      by rewrite difference_empty_L. }
    rewrite Heq. clear -Hx Hempty.
    case_bool_decide; rewrite ?elem_of_union, ?elem_of_singleton; naive_solver.
Qed.
End in_memory.

(** ** The interface of a store

    What the server uses of a store, with the strings and sets it can be seen to
    hold.  A request to [setSeveral] is admissible when its keys have the right
    kind, what it adds is absent and what it removes is present. *)

Class KVStore (T : Type) := {
  kv_get : Key → M T (option bytes);
  kv_set : Key → option bytes → M T unit;
  kv_getSetMembers : Key → M T (gset SetValue);
  kv_getSeveral : list Key → M T (list (option bytes));
  kv_setSeveral : gmap Key (option bytes) → gmap Key (gset SetValue) →
    gmap Key (gset SetValue) → M T (gset Key * gset Key);
  kv_str : T → Key → option bytes;
  kv_members : T → Key → gset SetValue;
  kv_wf : T → Prop;
}.

Record request_wf {T} `{KVStore T} (t : T) (kvs : gmap Key (option bytes))
    (adds removes : gmap Key (gset SetValue)) : Prop := {
  rq_kvs : map_Forall (λ k _, is_set_key k = false) kvs;
  rq_adds : map_Forall (λ k vs, is_set_key k = true ∧ vs ≠ ∅ ∧ vs ## kv_members t k) adds;
  rq_removes : map_Forall (λ k vs, is_set_key k = true ∧ vs ≠ ∅ ∧
                             vs ⊆ kv_members t k ∪ mm_get adds k) removes;
}.

(** The result of a write, on the view. *)
Record updated {T} `{KVStore T} (t t' : T) (kvs : gmap Key (option bytes))
    (adds removes : gmap Key (gset SetValue)) : Prop := {
  up_str k : is_set_key k = false → kv_str t' k = default (kv_str t k) (kvs !! k);
  up_members k : is_set_key k = true →
    kv_members t' k = (kv_members t k ∪ mm_get adds k) ∖ mm_get removes k;
}.

Class KVStoreLaws (T : Type) `{KVStore T} : Prop := {
  kv_get_ok t k : kv_wf t → is_set_key k = false →
    ∃ t', kv_get k t = (Ok (kv_str t k), t') ∧ kv_wf t' ∧ updated t t' ∅ ∅ ∅;
  kv_getSeveral_ok t ks : kv_wf t → Forall (λ k, is_set_key k = false) ks →
    ∃ t', kv_getSeveral ks t = (Ok (kv_str t <$> ks), t') ∧ kv_wf t' ∧ updated t t' ∅ ∅ ∅;
  kv_getSetMembers_ok t k : kv_wf t → is_set_key k = true →
    ∃ t', kv_getSetMembers k t = (Ok (kv_members t k), t') ∧ kv_wf t' ∧ updated t t' ∅ ∅ ∅;
  kv_set_ok t k v : kv_wf t → is_set_key k = false →
    ∃ t', kv_set k v t = (Ok tt, t') ∧ kv_wf t' ∧ updated t t' {[k := v]} ∅ ∅;
  kv_setSeveral_ok t kvs adds removes : kv_wf t → request_wf t kvs adds removes →
    ∃ t' new_sets dropped_sets,
      kv_setSeveral kvs adds removes t = (Ok (new_sets, dropped_sets), t') ∧ kv_wf t' ∧
      updated t t' kvs adds removes ∧
      (∀ k, k ∈ new_sets ↔ k ∈ dom adds ∧ kv_members t k = ∅) ∧
      (∀ k, k ∈ dropped_sets ↔ k ∈ dom removes ∧ kv_members t' k = ∅);
}.

Section in_memory_store.
Context `{SerializationLaws}.
#[local] Set Default Proof Using "Type*".

#[export] Instance in_memory_KVStore : KVStore InMemoryPersistence := {|
  kv_get := get; kv_set := set; kv_getSetMembers := getSetMembers; kv_getSeveral := getSeveral;
  kv_setSeveral := setSeveral; kv_str := str_value; kv_members := members; kv_wf := store_wf |}.

Lemma updated_refl (t : InMemoryPersistence) : updated t t ∅ ∅ ∅.
Proof.
  split; intros k _; [by rewrite lookup_empty|]. rewrite !mm_get_empty. set_solver.
Qed.

Lemma in_memory_set_updated t k v :
  store_wf t → is_set_key k = false →
  ∃ t', set k v t = (Ok tt, t') ∧ store_wf t' ∧ updated t t' {[k := v]} ∅ ∅.
Proof.
  intros Hwf Hk.
  destruct (set_loop_run [(k, v)] t) as (t' & Hrun & Hwf' & Hstr & Hset); [| |done|done|].
  { by repeat constructor. } { apply NoDup_singleton. }
  exists t'. cbn in Hrun. unfold bind in Hrun. rewrite set_run in Hrun by done.
  rewrite set_run by done. split_and!; [done|done|]. split.
  - intros k' _. cbn -[str_value]. rewrite Hstr. done.
  - intros k' Hk'. rewrite !mm_get_empty. cbn -[members]. unfold members. rewrite Hset by done. set_solver.
Qed.

Lemma in_memory_setSeveral t kvs adds removes :
  store_wf t → request_wf t kvs adds removes →
  ∃ t' new_sets dropped_sets,
    setSeveral kvs adds removes t = (Ok (new_sets, dropped_sets), t') ∧ store_wf t' ∧
    updated t t' kvs adds removes ∧
    (∀ k, k ∈ new_sets ↔ k ∈ dom adds ∧ members t k = ∅) ∧
    (∀ k, k ∈ dropped_sets ↔ k ∈ dom removes ∧ members t' k = ∅).
Proof.
  intros Hwf [Hkvs Hadds Hremoves]. unfold setSeveral.
  destruct (set_loop_run (map_to_list kvs) t) as (t1 & Hrun1 & Hwf1 & Hstr1 & Hset1); [| |done|done|].
  { apply Forall_forall. intros [k v] Hin. apply (Hkvs k v). by apply elem_of_map_to_list. }
  { apply NoDup_fst_map_to_list. }
  rewrite list_to_map_to_list in Hstr1.
  assert (∀ k, is_set_key k = true → members t1 k = members t k) as Hm1.
  { intros k Hk. unfold members. by rewrite Hset1. }
  destruct (add_loop_run (map_to_list adds) t1 ∅) as (t2 & ns & Hrun2 & Hwf2 & Hstr2 & Hm2 & Hns);
    [| |done|].
  { apply Forall_forall. intros [k v] Hin%elem_of_map_to_list.
    destruct (Hadds k v Hin) as (Hk & Hv). cbn. by rewrite Hm1. }
  { apply NoDup_fst_map_to_list. }
  rewrite list_to_map_to_list in Hm2.
  destruct (remove_loop_run (map_to_list removes) t2 ∅)
    as (t3 & ds & Hrun3 & Hwf3 & Hstr3 & Hm3 & Hds); [| |done|].
  { apply Forall_forall. intros [k v] Hin%elem_of_map_to_list.
    destruct (Hremoves k v Hin) as (Hk & Hv). cbn. by rewrite Hm2, Hm1. }
  { apply NoDup_fst_map_to_list. }
  rewrite list_to_map_to_list in Hm3.
  exists t3, ns, ds. rewrite run_bind, Hrun1, run_bind, Hrun2, run_bind, Hrun3.
  assert (∀ (m : gmap Key (gset SetValue)) k, k ∈ (map_to_list m).*1 ↔ k ∈ dom m) as Hdom.
  { intros m k. rewrite list_elem_of_fmap, elem_of_dom. split.
    - intros ([k' v] & -> & Hin%elem_of_map_to_list). by eexists.
    - intros [v Hv]. exists (k, v). by rewrite elem_of_map_to_list. }
  split_and!; [done|done| | |].
  - split; intros k Hk; cbn -[str_value members]; [by rewrite Hstr3, Hstr2, Hstr1|by rewrite Hm3, Hm2, Hm1].
  - intros k. rewrite Hns, Hdom, elem_of_empty.
    split; [intros [[]|[Hk ?]]|intros [Hk ?]; right]; split; try done;
      apply elem_of_dom in Hk as [v Hv]; destruct (Hadds k v Hv); by rewrite Hm1 in *.
  - intros k. rewrite Hds, Hdom, elem_of_empty. naive_solver.
Qed.

#[export] Instance in_memory_laws : KVStoreLaws InMemoryPersistence.
Proof.
  split; cbn; intros t; intros.
  - exists t. rewrite get_run by done. eauto using updated_refl.
  - exists t. rewrite getSeveral_run by done. eauto using updated_refl.
  - exists t. rewrite getSetMembers_run by done. eauto using updated_refl.
  - by apply in_memory_set_updated.
  - by apply in_memory_setSeveral.
Qed.
End in_memory_store.
