(* ===== verification/ServerState.v ===== *)
(** * The server: state and local operations ([object_database/server.py])

    [ConnectedChannel], the per-connection bookkeeping, and the fields of [Server].
    A [ConnectedChannel] object is shared: the registry [_clientChannels], the
    dictionaries of subscribers and the message handler of its channel all refer to
    the same object, also after the connection is dropped.  The objects therefore
    live in a heap of the server state and are referred to by a number.

    [time.time()] reads the next value of an arbitrary clock. *)

From stdpp Require Import options.
From S2P Require Import Prelude Schema Messages Persistence.

Abbreviation ChannelId := nat (only parsing).
Abbreviation ChannelRef := nat (only parsing).

(** ** ConnectedChannel *)

(** one value of [self.pendingTransactions] *)
Record PendingTransaction := {
  pt_writes : gmap ObjectFieldId (option bytes);
  pt_prerequisites : gmap ObjectFieldId (option bytes);
  pt_set_adds : gmap IndexId (gset ObjectId);
  pt_set_removes : gmap IndexId (gset ObjectId);
  pt_key_versions : gset ObjectFieldId;
  pt_index_versions : gset IndexId;
}.
#[export] Instance PendingTransaction_settable : Settable PendingTransaction := λ r,
  {| pt_writes := pt_writes r; pt_prerequisites := pt_prerequisites r;
     pt_set_adds := pt_set_adds r; pt_set_removes := pt_set_removes r;
     pt_key_versions := pt_key_versions r; pt_index_versions := pt_index_versions r |}.

Definition empty_transaction : PendingTransaction :=
  {| pt_writes := ∅; pt_prerequisites := ∅; pt_set_adds := ∅; pt_set_removes := ∅;
     pt_key_versions := ∅; pt_index_versions := ∅ |}.

Record ConnectedChannel := {
  cc_channel : ChannelId;
  cc_initial_tid : Z;
  cc_connectionObject : ObjectId;
  cc_missedHeartbeats : Z;
  cc_definedSchemas : gmap string SchemaDefinition;
  (* field id to the lazy transaction id (or -1 if not lazy) *)
  cc_subscribedFields : gmap FieldId Z;
  cc_subscribedIds : gset ObjectId;
  cc_subscribedIndexKeys : gmap IndexId Z;
  cc_identityRoot : Z;
  cc_pendingTransactions : gmap Z PendingTransaction;
  cc_dependentConnections : gset ObjectId;
  cc_needsAuthentication : bool;
}.
#[export] Instance ConnectedChannel_settable : Settable ConnectedChannel := λ r,
  {| cc_channel := cc_channel r; cc_initial_tid := cc_initial_tid r;
     cc_connectionObject := cc_connectionObject r; cc_missedHeartbeats := cc_missedHeartbeats r;
     cc_definedSchemas := cc_definedSchemas r; cc_subscribedFields := cc_subscribedFields r;
     cc_subscribedIds := cc_subscribedIds r; cc_subscribedIndexKeys := cc_subscribedIndexKeys r;
     cc_identityRoot := cc_identityRoot r; cc_pendingTransactions := cc_pendingTransactions r;
     cc_dependentConnections := cc_dependentConnections r;
     cc_needsAuthentication := cc_needsAuthentication r |}.

(** [ConnectedChannel.__init__] *)
Definition new_ConnectedChannel (initial_tid : Z) (channel : ChannelId)
    (connectionObject : ObjectId) (identityRoot : Z) : ConnectedChannel :=
  {| cc_channel := channel; cc_initial_tid := initial_tid;
     cc_connectionObject := connectionObject; cc_missedHeartbeats := 0;
     cc_definedSchemas := ∅; cc_subscribedFields := ∅; cc_subscribedIds := ∅;
     cc_subscribedIndexKeys := ∅; cc_identityRoot := identityRoot;
     cc_pendingTransactions := ∅; cc_dependentConnections := {[connectionObject]};
     cc_needsAuthentication := true |}.

Definition authenticate (c : ConnectedChannel) : ConnectedChannel :=
  c <| cc_needsAuthentication := false |>.

Definition heartbeat (c : ConnectedChannel) : ConnectedChannel :=
  c <| cc_missedHeartbeats := 0%Z |>.

(** [d.update({k: set(msg[k]) for k in msg if msg[k]})] for the two set dictionaries *)
Definition nonempty_sets (m : gmap IndexId (list ObjectId)) : gmap IndexId (gset ObjectId) :=
  omap (λ l, if bool_decide (l = []) then None else Some (list_to_set l)) m.

(** one chunk of a transaction, merged into what was received before *)
Definition merge_chunk (w : gmap ObjectFieldId (option bytes)) (sa sr : gmap IndexId (list ObjectId))
    (kv : list ObjectFieldId) (iv : list IndexId) (pre : gmap ObjectFieldId (option bytes))
    (t : PendingTransaction) : PendingTransaction :=
  t <| pt_writes ::= union w |>
    <| pt_prerequisites ::= union pre |>
    <| pt_set_adds ::= union (nonempty_sets sa) |>
    <| pt_set_removes ::= union (nonempty_sets sr) |>
    <| pt_key_versions ::= union (list_to_set kv) |>
    <| pt_index_versions ::= union (list_to_set iv) |>.

Definition handleTransactionData (w : gmap ObjectFieldId (option bytes))
    (sa sr : gmap IndexId (list ObjectId)) (kv : list ObjectFieldId) (iv : list IndexId)
    (guid : Z) (pre : gmap ObjectFieldId (option bytes)) (c : ConnectedChannel) : ConnectedChannel :=
  c <| cc_pendingTransactions ::= λ p,
    <[guid := merge_chunk w sa sr kv iv pre (default empty_transaction (p !! guid))]> p |>.

(** ** Server *)

(** What the server does to the outside: the messages it writes to channels, the
    channels it closes, the transactions it shows to its watcher. *)
Inductive Effect :=
  | Wrote (channel : ChannelId) (msg : ServerToClient)
  | Closed (channel : ChannelId)
  | Watched (connection : option ObjectId) (tid : Z) (guid : option Z)
      (sentTo : option (list ObjectId)) (succeeded : bool) (conflict : BadKey) (error : option exn).

(** a [Subscribe] message on the background queue *)
Record SubscribeMsg := {
  sm_schema : string; sm_typename : string; sm_fieldname_and_value : FieldnameAndValue;
  sm_isLazy : bool;
}.

(** a [ServerToClient.Transaction] held for the subscription thread *)
Record TransactionMsg := {
  tm_writes : gmap ObjectFieldId (option bytes);
  tm_set_adds : gmap IndexId (list ObjectId);
  tm_set_removes : gmap IndexId (list ObjectId);
  tm_transaction_id : Z;
}.

Record Server {T : Type} := {
  kvstore : T;
  auth_token : string;
  hasTransactionWatcher : bool;
  gc_interval : Z;
  typeMap : option TypeMap.TypeMap;
  cc_heap : gmap ChannelRef ConnectedChannel;
  clientChannels : gmap ChannelId ChannelRef;
  cur_transaction_num : Z;
  version_numbers : gmap Key Z;
  version_numbers_timestamps : gmap Key Z;
  min_acceptable_version_number : Z;
  field_id_to_channel : gmap FieldId (gset ChannelRef);
  index_to_channel : gmap IndexId (gset ChannelRef);
  id_to_channel : gmap ObjectId (gset ChannelRef);
  fieldTransactionsSinceLastLog : gmap FieldId Z;
  fieldBroadcastsSinceLastLog : gmap FieldId Z;
  transactionsSinceLastLogEvent : Z;
  transactionLagSinceLastLogEvent : Z;
  lastLogEvent : Z;
  subscriptionQueue : list (ChannelRef * SubscribeMsg);
  pendingSubscriptionRecheck : option (list TransactionMsg);
  last_garbage_collect_timestamp : option Z;
  identityProducer : Identity.IdentityProducer;
  clock_reads : nat;
  effects : list Effect;
}.
Arguments Server : clear implicits.

#[export] Instance Server_settable {T} : Settable (Server T) := λ r,
  {| kvstore := kvstore r; auth_token := auth_token r;
     hasTransactionWatcher := hasTransactionWatcher r; gc_interval := gc_interval r;
     typeMap := typeMap r; cc_heap := cc_heap r; clientChannels := clientChannels r;
     cur_transaction_num := cur_transaction_num r; version_numbers := version_numbers r;
     version_numbers_timestamps := version_numbers_timestamps r;
     min_acceptable_version_number := min_acceptable_version_number r;
     field_id_to_channel := field_id_to_channel r; index_to_channel := index_to_channel r;
     id_to_channel := id_to_channel r;
     fieldTransactionsSinceLastLog := fieldTransactionsSinceLastLog r;
     fieldBroadcastsSinceLastLog := fieldBroadcastsSinceLastLog r;
     transactionsSinceLastLogEvent := transactionsSinceLastLogEvent r;
     transactionLagSinceLastLogEvent := transactionLagSinceLastLogEvent r;
     lastLogEvent := lastLogEvent r; subscriptionQueue := subscriptionQueue r;
     pendingSubscriptionRecheck := pendingSubscriptionRecheck r;
     last_garbage_collect_timestamp := last_garbage_collect_timestamp r;
     identityProducer := identityProducer r; clock_reads := clock_reads r; effects := effects r |}.

Definition DEFAULT_GC_INTERVAL : Z := 900.
Definition MAX_NORMAL_TO_SEND_SYNCHRONOUSLY : Z := 1000.
Definition MAX_LAZY_TO_SEND_SYNCHRONOUSLY : Z := 10000.
Definition longTransactionThreshold : Z := 1.
Definition logInterval : Z := 10.

Section server_basics.
Context {T : Type}.
Variable clock : nat → Z.

(** [time.time()] *)
Definition time_time : M (Server T) Z :=
  n ← gets clock_reads;
  modify (λ s, s <| clock_reads ::= S |>);;
  mret (clock n).

Definition emit (e : Effect) : M (Server T) unit :=
  modify (λ s, s <| effects ::= λ es, es ++ [e] |>).

(** the object a reference stands for, and an update of one of its fields *)
Definition the_cc (s : Server T) (c : ChannelRef) : ConnectedChannel :=
  default (new_ConnectedChannel 0 0 0 0) (cc_heap s !! c).

Definition upd_cc (c : ChannelRef) (f : ConnectedChannel → ConnectedChannel) : M (Server T) unit :=
  modify (λ s, s <| cc_heap := <[c := f (the_cc s c)]> (cc_heap s) |>).

(** [connectedChannel.channel.write(msg)] *)
Definition write (c : ChannelRef) (msg : ServerToClient) : M (Server T) unit :=
  cc ← gets (λ s, the_cc s c);
  emit (Wrote (cc_channel cc) msg).

Definition sendTransaction := write.

Definition sendInitializationMessage (c : ChannelRef) : M (Server T) unit :=
  cc ← gets (λ s, the_cc s c);
  write c (Initialize (cc_initial_tid cc) (cc_connectionObject cc) (cc_identityRoot cc)).

Definition sendTransactionSuccess (c : ChannelRef) (guid : Z) (success : bool) (badKey : BadKey)
    (isException : bool) : M (Server T) unit :=
  write c (TransactionResult guid success badKey isException).

(** [self.pendingTransactions.pop(guid)] *)
Definition extractTransactionData (c : ChannelRef) (guid : Z) : M (Server T) PendingTransaction :=
  cc ← gets (λ s, the_cc s c);
  data ← lift_option KeyError (cc_pendingTransactions cc !! guid);
  upd_cc c (λ cc, cc <| cc_pendingTransactions ::= delete guid |>);;
  mret data.

Lemma the_cc_upd s c f c' :
  the_cc (upd_cc c f s).2 c' = if decide (c' = c) then f (the_cc s c) else the_cc s c'.
Proof.
  unfold the_cc, upd_cc; cbn. case_decide as Hc; subst.
  - by rewrite lookup_insert_eq.
  - by rewrite lookup_insert_ne.
Qed.
End server_basics.

(** [None] for a set member that is not an object identity *)
Definition setvalue_id (v : SetValue) : option ObjectId :=
  match v with SInt i => Some i | SBytes _ => None end.
