(* ===== verification/Server.v ===== *)
(** * The server: transactions, connections, subscriptions ([object_database/server.py])

    The methods of [Server], each a computation on the server state.  Methods that
    hold [self._lock] for their whole body are one computation; the subscription
    thread, which releases the lock between batches, is split at those points.  The
    iteration order of a Python set or dictionary is that of [elements] or
    [map_to_list]. *)

From stdpp Require Import options.
From S2P Require Import Prelude Schema Messages Persistence ServerState.

Local Open Scope Z_scope.

Section server.
Context `{Serialization} {T : Type} `{KVStore T}.
Variable clock : nat → Z.
(* [traceback.format_exc()] *)
Variable format_exc : exn → string.

Abbreviation SM A := (M (Server T) A).

(** a store operation, run on [self._kvstore] *)
Definition kv {A} (m : M T A) : SM A := zoom kvstore m.

(** ** Type map *)

Definition _currentTypeMap : SM TypeMap.TypeMap :=
  cur ← gets typeMap;
  match cur with
  | Some tm => mret tm
  | None =>
      serializedTypeMap ← kv (kv_get (KName "types"));
      tm ← (match serializedTypeMap with
            | None =>
                mret ((TypeMap.lookupOrAdd "core" "Connection" " exists";;
                       TypeMap.lookupOrAdd "core" "Connection" "heartbeats_suspended")
                        TypeMap.empty).2
            | Some b => lift_option DeserializeError (deserialize_TypeMap b)
            end);
      modify (λ s, s <| typeMap := Some tm |>);;
      mret tm
  end.

(** [self._currentTypeMap().fieldIdFor(...)] *)
Definition fieldIdFor (schema typename fieldname : string) : SM (option FieldId) :=
  tm ← _currentTypeMap;
  mret (TypeMap.fieldIdFor tm schema typename fieldname).

(** A field id used in a key: [None] is not an [int]. *)
Definition fieldIdFor_int (schema typename fieldname : string) : SM FieldId :=
  i ← fieldIdFor schema typename fieldname;
  lift_option TypeError i.

(** [self._currentTypeMap().lookupOrAdd(...)]; the map is updated in place *)
Definition lookupOrAdd (schema typename fieldname : string) : SM FieldId :=
  tm ← _currentTypeMap;
  match TypeMap.lookupOrAdd schema typename fieldname tm with
  | (r, tm') =>
      modify (λ s, s <| typeMap := Some tm' |>);;
      match r with Ok i => mret i | Raise e => raise e end
  end.

(** [self._currentTypeMap().fieldIdToDef] *)
Definition fieldIdToDef : SM (gmap FieldId FieldDefinition) :=
  tm ← _currentTypeMap;
  mret (TypeMap.fieldIdToDef tm).

(** ** Garbage collection of version numbers *)

(** the body of the loop of [_garbage_collect]; [new_ts] is its accumulator *)
Definition gc_key (threshold : Z) (keyts : Key * Z) (new_ts : gmap Key Z) : SM (gmap Key Z) :=
  let '(key, ts) := keyts in
  if bool_decide (ts < threshold) then
    dead ← (match key with
            | KIdx _ => members ← kv (kv_getSetMembers key); mret (bool_decide (members = ∅))
            | _ => v ← kv (kv_get key); mret (bool_decide (v = None))
            end);
    whenM dead
      (vn ← gets version_numbers;
       v ← lift_option KeyError (vn !! key);
       modify (λ s, s <| min_acceptable_version_number ::= Z.max v |>);;
       modify (λ s, s <| version_numbers ::= delete key |>));;
    mret new_ts
  else mret (<[key := ts]> new_ts).

Definition _garbage_collect (intervalOverride : option Z) : SM unit :=
  dflt ← gets gc_interval;
  (* [intervalOverride or self._gc_interval]: zero is falsy *)
  let interval := match intervalOverride with
                  | Some i => if bool_decide (i = 0) then dflt else i
                  | None => dflt end in
  last ← gets last_garbage_collect_timestamp;
  due ← (match last with
         | None => mret true
         | Some l => now ← time_time clock; mret (bool_decide (now - l > interval))
         end);
  whenM due
    (now ← time_time clock;
     let threshold := now - interval in
     vts ← gets version_numbers_timestamps;
     new_ts ← foldM (map_to_list vts) ∅ (gc_key threshold);
     modify (λ s, s <| version_numbers_timestamps := new_ts |>);;
     now ← time_time clock;
     modify (λ s, s <| last_garbage_collect_timestamp := Some now |>)).

(** ** Committing a transaction *)

Definition nonempty (m : gmap IndexId (gset ObjectId)) : gmap IndexId (gset ObjectId) :=
  filter (λ kv, kv.2 ≠ ∅) m.

Definition indexReverseLookupKvs (adds removes : gmap IndexId (gset ObjectId)) :
    gmap ObjectFieldId (option bytes) :=
  let after_removes :=
    foldl (λ res kv, foldl (λ res ident, <[OFI ident (ixFieldId kv.1) true := None]> res)
                           res (elements kv.2)) ∅ (map_to_list removes) in
  foldl (λ res kv, foldl (λ res ident,
                     <[OFI ident (ixFieldId kv.1) true := Some (indexValue kv.1)]> res)
                   res (elements kv.2)) after_removes (map_to_list adds).

Definition _broadcastSubscriptionIncrease (channel : ChannelRef) (indexKey : IndexId) (tid : Z)
    (newIds : gset ObjectId) : SM unit :=
  defs ← fieldIdToDef;
  fieldDef ← lift_option KeyError (defs !! ixFieldId indexKey);
  write channel (SubscriptionIncrease (fd_schema fieldDef) (fd_typename fieldDef)
                   (fd_fieldname fieldDef, indexValue indexKey) (elements newIds) tid).

(** [channel.definedSchemas.get(schema_name)[typename]] *)
Definition defined_type (channel : ChannelRef) (schema_name typename : string) : SM TypeDefinition :=
  cc ← gets (λ s, the_cc s channel);
  schema ← lift_option TypeError (cc_definedSchemas cc !! schema_name);
  lift_option KeyError (schema !! typename).

Definition _loadValuesForObject (channel : ChannelRef) (schema_name typename : string)
    (identities : list ObjectId) : SM (gmap ObjectFieldId (option bytes)) :=
  typedef ← defined_type channel schema_name typename;
  valsToGet ← mapM (td_fields typedef) (λ field_to_pull,
    mapM identities (λ ident,
      fieldId ← fieldIdFor_int schema_name typename field_to_pull;
      mret (OFI ident fieldId false)));
  let valsToGet := concat valsToGet in
  results ← kv (kv_getSeveral (KObj <$> valsToGet));
  mret (list_to_map (zip valsToGet results)).

(** The dictionaries [key_value] and [set_adds] are updated in place: they are threaded. *)
Definition _increaseBroadcastTransactionToInclude (channel : ChannelRef) (indexKey : IndexId)
    (newIds : gset ObjectId) (key_value : gmap ObjectFieldId (option bytes))
    (set_adds : gmap IndexId (gset ObjectId)) :
    SM (gmap ObjectFieldId (option bytes) * gmap IndexId (gset ObjectId)) :=
  let fieldId := ixFieldId indexKey in
  defs ← fieldIdToDef;
  fieldDef ← lift_option KeyError (defs !! fieldId);
  typedef ← defined_type channel (fd_schema fieldDef) (fd_typename fieldDef);
  loaded ← _loadValuesForObject channel (fd_schema fieldDef) (fd_typename fieldDef) (elements newIds);
  let key_value := loaded ∪ key_value in
  let reverseKeys := td_indices typedef ≫= λ _,
                       (λ ident, OFI ident fieldId true) <$> elements newIds in
  reverseVals ← kv (kv_getSeveral (KObj <$> reverseKeys));
  let reverseKVMap : gmap ObjectFieldId (option bytes) :=
    list_to_map (zip reverseKeys reverseVals) in
  set_adds ← foldM (td_indices typedef) set_adds (λ index_name set_adds,
    fieldId ← fieldIdFor (fd_schema fieldDef) (fd_typename fieldDef) index_name;
    foldM (elements newIds) set_adds (λ ident set_adds,
      fieldId ← lift_option TypeError fieldId;
      mret (match reverseKVMap !! OFI ident fieldId false with
            | Some (Some fieldval) => mm_add (IXI fieldId fieldval) ident set_adds
            | _ => set_adds
            end)));
  mret (key_value, set_adds).

(** A transaction that creates objects of a type to which its connection is not
    subscribed: subscribe the connection to them. *)
Definition subscribe_to_created (source : ChannelRef) (transaction_id : Z)
    (add : IndexId * gset ObjectId) : SM unit :=
  let '(add_index, added_identities) := add in
  let fieldId := ixFieldId add_index in
  defs ← fieldIdToDef;
  fieldDef ← lift_option AttributeError (defs !! fieldId);
  whenM (bool_decide (fd_fieldname fieldDef = " exists"))
    (cc ← gets (λ s, the_cc s source);
     whenM (bool_decide (cc_subscribedFields cc !! fieldId = None))
       (upd_cc source (λ cc, cc <| cc_subscribedIds ::= union added_identities |>);;
        forM (elements added_identities) (λ new_id,
          modify (λ s, s <| id_to_channel ::= mm_add new_id source |>));;
        _broadcastSubscriptionIncrease source add_index transaction_id added_identities)).

(** The keys, sets, fields and objects a transaction writes to. *)
Record WriteSet := {
  ws_keys : gset ObjectFieldId;
  ws_sets : gset IndexId;
  ws_fields : gset FieldId;
  ws_identities : gset ObjectId;
}.

Definition set_ids (m : gmap IndexId (gset ObjectId)) : gset ObjectId :=
  ⋃ ((map_to_list m).*2).

Definition write_set (key_value : gmap ObjectFieldId (option bytes))
    (set_adds set_removes : gmap IndexId (gset ObjectId)) : WriteSet :=
  {| ws_keys := dom key_value;
     ws_sets := dom set_adds ∪ dom set_removes;
     ws_fields := set_map ofiFieldId (dom key_value) ∪
                  set_map ixFieldId (dom set_adds ∪ dom set_removes);
     ws_identities := set_map objId (dom key_value) ∪ set_ids set_adds ∪ set_ids set_removes |}.

(** The first key, in the order of the loops, that changed after [as_of_version]. *)
Definition first_conflict (version_numbers : gmap Key Z) (as_of_version : Z)
    (keys : list ObjectFieldId) (indices : list IndexId) : option Key :=
  head (filter (λ key, as_of_version < default (-1) (version_numbers !! key))
               ((KObj <$> keys) ++ (KIdx <$> indices))).

Definition bad_key (k : Key) : BadKey :=
  match k with KObj k => BadObjectField k | KIdx k => BadIndex k | _ => NoBadKey end.

(** the prerequisites that the store does not satisfy *)
Definition bad_values (priorValues prerequisites : gmap ObjectFieldId (option bytes)) :
    gset ObjectFieldId :=
  dom (filter (λ kv, default None (priorValues !! kv.1) ≠ kv.2) prerequisites).

Definition index_keys (m : gmap IndexId (gset ObjectId)) : gmap Key (gset SetValue) :=
  list_to_map ((λ kv, (KIdx kv.1, set_map SInt kv.2)) <$> map_to_list m).

Definition object_keys (m : gmap ObjectFieldId (option bytes)) : gmap Key (option bytes) :=
  list_to_map ((λ kv, (KObj kv.1, kv.2)) <$> map_to_list m).

(** [{fieldId: {indexValue}}] for the index keys in a set returned by [setSeveral] *)
Definition metadata (sets : gset Key) : gmap Key (gset SetValue) :=
  foldl (λ acc k, match k with
                  | KIdx ix => mm_add (KField (ixFieldId ix)) (SBytes (indexValue ix)) acc
                  | _ => acc end) ∅ (elements sets).

(** One index key that was added to: channels subscribed to it see the new objects.
    [triggered] is [channelsTriggeredForPriors]. *)
Definition grow_index_subscriptions (transaction_id : Z) (add : IndexId * gset ObjectId)
    (acc : gmap ObjectFieldId (option bytes) * gmap IndexId (gset ObjectId) * gset ChannelRef) :
    SM (gmap ObjectFieldId (option bytes) * gmap IndexId (gset ObjectId) * gset ChannelRef) :=
  let '(index_key, adds) := add in
  let '(key_value, set_adds, triggered) := acc in
  itc ← gets index_to_channel;
  match itc !! index_key with
  | None => mret acc
  | Some channels =>
      '(idsToAdd, triggered) ← foldM (elements channels) (∅ : gset ObjectId, triggered)
        (λ channel acc,
          let '(idsToAdd, triggered) := acc in
          cc ← gets (λ s, the_cc s channel);
          let lazy := match cc_subscribedIndexKeys cc !! index_key with
                      | Some tid => bool_decide (0 <= tid) | None => false end in
          let triggered := if lazy then {[channel]} ∪ triggered else triggered in
          let newIds := adds ∖ cc_subscribedIds cc in
          forM (elements newIds) (λ new_id,
            modify (λ s, s <| id_to_channel ::= mm_add new_id channel |>);;
            upd_cc channel (λ cc, cc <| cc_subscribedIds ::= union {[new_id]} |>));;
          _broadcastSubscriptionIncrease channel index_key transaction_id newIds;;
          mret (idsToAdd ∪ newIds, triggered));
      if bool_decide (idsToAdd = ∅) then mret (key_value, set_adds, triggered)
      else
        (* [channel] is still bound to the last one of the loop *)
        channel ← lift_option UnboundLocalError (last (elements channels));
        '(key_value, set_adds) ←
          _increaseBroadcastTransactionToInclude channel index_key idsToAdd key_value set_adds;
        mret (key_value, set_adds, triggered)
  end.

(** One field that was written: its subscribers, and those subscribed lazily. *)
Definition field_subscribers (fieldId : FieldId) (acc : gset ChannelRef * gset ChannelRef) :
    SM (gset ChannelRef * gset ChannelRef) :=
  modify (λ s, s <| fieldTransactionsSinceLastLog ::=
    λ m, <[fieldId := match m !! fieldId with None => 1 | Some n => n + 1 end]> m |>);;
  subs ← gets (λ s, mm_get (field_id_to_channel s) fieldId);
  foldM (elements subs) acc (λ channel acc,
    let '(priors, triggered) := acc in
    cc ← gets (λ s, the_cc s channel);
    tid ← lift_option KeyError (cc_subscribedFields cc !! fieldId);
    mret (if bool_decide (0 <= tid) then {[channel]} ∪ priors else priors,
          {[channel]} ∪ triggered)).

(** [sorted(items, key=lambda p: (-p[1], p[0]))] *)
Definition by_count (p q : FieldId * Z) : Prop := q.2 < p.2 ∨ (p.2 = q.2 ∧ p.1 <= q.1).
#[local] Instance by_count_dec p q : Decision (by_count p q).
Proof. unfold by_count. apply _. Defined.

(** The periodic log message: the counters it names are looked up and all are reset. *)
Definition log_statistics : SM unit :=
  now ← time_time clock;
  last ← gets lastLogEvent;
  whenM (bool_decide (now - last > logInterval))
    (counts ← gets fieldTransactionsSinceLastLog;
     forM (take 20 (merge_sort by_count (map_to_list counts))) (λ fc,
       defs ← fieldIdToDef;
       _ ← lift_option AttributeError (defs !! fc.1);
       mret tt);;
     _ ← time_time clock;
     modify (λ s, s <| fieldTransactionsSinceLastLog := ∅ |>);;
     modify (λ s, s <| fieldBroadcastsSinceLastLog := ∅ |>);;
     modify (λ s, s <| transactionsSinceLastLogEvent := 0 |>);;
     modify (λ s, s <| transactionLagSinceLastLogEvent := 0 |>);;
     now ← time_time clock;
     modify (λ s, s <| lastLogEvent := now |>)).

Definition CommitResult : Type := (bool * BadKey) * Z * list ObjectId.

(** [key_value] is the caller's dictionary, which the commit may enlarge: its final
    value is returned along with the result. *)
Definition _commitAndBroadcastNewTransaction (sourceChannel : option ChannelRef)
    (key_value : gmap ObjectFieldId (option bytes))
    (prerequisites : gmap ObjectFieldId (option bytes))
    (set_adds set_removes : gmap IndexId (gset ObjectId))
    (keys_to_check_versions : list ObjectFieldId) (indices_to_check_versions : list IndexId)
    (as_of_version : Z) (transStartTime : option Z) (transactionGuid : option Z) :
    SM CommitResult :=
  modify (λ s, s <| cur_transaction_num ::= λ n, n + 1 |>);;
  transaction_id ← gets cur_transaction_num;
  assertM (bool_decide (as_of_version < transaction_id));;
  t0 ← time_time clock;
  let set_adds := nonempty set_adds in
  let set_removes := nonempty set_removes in
  (match sourceChannel with
   | Some source => forM (map_to_list set_adds) (subscribe_to_created source transaction_id)
   | None => mret tt
   end);;
  let ws := write_set key_value set_adds set_removes in
  vn ← gets version_numbers;
  match first_conflict vn as_of_version keys_to_check_versions indices_to_check_versions with
  | Some key => mret ((false, bad_key key), transaction_id, [])
  | None =>
      t1 ← time_time clock;
      let keys := (map_to_list key_value).*1 in
      priors ← kv (kv_getSeveral (KObj <$> keys));
      let priorValues := list_to_map (zip keys priors) in
      whenM (bool_decide (bad_values priorValues prerequisites ≠ ∅))
        (raise (UserException "Improper transaction"));;
      forM ((KObj <$> elements (ws_keys ws)) ++ (KIdx <$> elements (ws_sets ws))) (λ key,
        modify (λ s, s <| version_numbers ::= <[key := transaction_id]> |>);;
        modify (λ s, s <| version_numbers_timestamps ::= <[key := t1]> |>));;
      let target_kvs := indexReverseLookupKvs set_adds set_removes ∪ key_value in
      '(new_sets, dropped_sets) ←
        kv (kv_setSeveral (object_keys target_kvs) (index_keys set_adds) (index_keys set_removes));
      kv (kv_setSeveral ∅ (metadata new_sets) (metadata dropped_sets));;
      _ ← time_time clock;
      '(key_value, set_adds, channelsTriggeredForPriors) ←
        foldM (map_to_list set_adds) (key_value, set_adds, ∅)
          (grow_index_subscriptions transaction_id);
      '(channelsTriggeredForPriors, channelsTriggered) ←
        foldM (elements (ws_fields ws)) (channelsTriggeredForPriors, ∅) field_subscribers;
      itc ← gets id_to_channel;
      let channelsTriggered :=
        channelsTriggered ∪ ⋃ ((λ i, mm_get itc i) <$> elements (ws_identities ws)) in
      forM (elements (ws_fields ws)) (λ fieldId,
        modify (λ s, s <| fieldBroadcastsSinceLastLog ::= λ m,
          <[fieldId := default 0 (m !! fieldId) + Z.of_nat (size channelsTriggered)]> m |>));;
      forM (elements channelsTriggeredForPriors) (λ channel,
        sendTransaction channel (LazyTransactionPriors priorValues));;
      let adds := elements <$> set_adds in
      let removes := elements <$> set_removes in
      recheck ← gets pendingSubscriptionRecheck;
      (match recheck with
       | Some msgs =>
           modify (λ s, s <| pendingSubscriptionRecheck :=
             Some (msgs ++ [{| tm_writes := key_value; tm_set_adds := adds;
                               tm_set_removes := removes; tm_transaction_id := transaction_id |}]) |>)
       | None => mret tt
       end);;
      forM (elements channelsTriggered) (λ channel,
        sendTransaction channel (Transaction key_value adds removes transaction_id));;
      _ ← time_time clock;
      modify (λ s, s <| transactionsSinceLastLogEvent ::= λ n, n + 1 |>);;
      (match transStartTime with
       | Some t => now ← time_time clock;
                   modify (λ s, s <| transactionLagSinceLastLogEvent ::= λ l, l + (now - t) |>)
       | None => mret tt
       end);;
      log_statistics;;
      _garbage_collect None;;
      conns ← gets (λ s, (λ c, cc_connectionObject (the_cc s c)) <$> elements channelsTriggered);
      mret ((true, NoBadKey), transaction_id, conns)
  end.

Definition source_identity (sourceChannel : option ChannelRef) : SM (option ObjectId) :=
  match sourceChannel with
  | Some c => gets (λ s, Some (cc_connectionObject (the_cc s c)))
  | None => mret None
  end.

Definition _handleNewTransaction (sourceChannel : option ChannelRef)
    (key_value : gmap ObjectFieldId (option bytes))
    (prerequisites : gmap ObjectFieldId (option bytes))
    (set_adds set_removes : gmap IndexId (gset ObjectId))
    (keys_to_check_versions : list ObjectFieldId) (indices_to_check_versions : list IndexId)
    (as_of_version : Z) (transStartTime : option Z) (no_log : bool) (transaction_guid : option Z) :
    SM (bool * BadKey) :=
  tryM
    ('(result, tid, broadcastConnIds) ←
       _commitAndBroadcastNewTransaction sourceChannel key_value prerequisites set_adds set_removes
         keys_to_check_versions indices_to_check_versions as_of_version transStartTime
         transaction_guid;
     watcher ← gets hasTransactionWatcher;
     whenM (watcher && negb no_log)
       (source ← source_identity sourceChannel;
        emit (Watched source tid transaction_guid (Some broadcastConnIds) result.1 result.2 None));;
     mret result)
    (λ e,
     watcher ← gets hasTransactionWatcher;
     whenM watcher
       (source ← source_identity sourceChannel;
        tid ← gets cur_transaction_num;
        emit (Watched source tid transaction_guid None false (BadText "<EXCEPTION>") (Some e)));;
     raise e).
End server.
