(* ===== verification/ServerConn.v ===== *)
(** * The server: connections, subscriptions and message dispatch

    The rest of [object_database/server.py]: connection entries, the two ways a
    subscription is answered (in the handler, or in batches by the subscription
    thread), schema definition, lazy loading, heartbeats, and the handler of client
    messages. *)

From stdpp Require Import options.
From S2P Require Import Prelude Schema Messages Persistence ServerState Server.

Local Open Scope Z_scope.

Section server.
Context `{Serialization} {T : Type} `{KVStore T}.
Variable clock : nat → Z.
Variable format_exc : exn → string.

Abbreviation SM A := (M (Server T) A).

(** ** Connection entries *)

Definition allocateNewIdentityRoot : SM Z :=
  cur ← kv (kv_get (KName "identityRoot"));
  curIdentityRoot ← (match cur with
                     | None => mret 0
                     | Some b => lift_option DeserializeError (deserialize_int b)
                     end);
  kv (kv_set (KName "identityRoot") (Some (serialize_int (curIdentityRoot + 1))));;
  mret curIdentityRoot.

(** the keys under which a connection object is stored *)
Record ConnectionKeys := {
  ck_exists : ObjectFieldId; ck_heartbeat : ObjectFieldId; ck_index : IndexId;
}.

Definition connection_keys (identity : ObjectId) : SM ConnectionKeys :=
  fieldId ← fieldIdFor_int "core" "Connection" " exists";
  heartbeatFieldId ← fieldIdFor_int "core" "Connection" "heartbeats_suspended";
  mret {| ck_exists := OFI identity fieldId false; ck_heartbeat := OFI identity heartbeatFieldId false;
          ck_index := IXI fieldId (indexValueFor_bool true) |}.

(** Returns the identity of the connection object and its identity root. *)
Definition _createConnectionEntry : SM (ObjectId * Z) :=
  identity ← zoom identityProducer Identity.createIdentity;
  identityRoot ← allocateNewIdentityRoot;
  ck ← connection_keys identity;
  cur ← gets cur_transaction_num;
  _handleNewTransaction clock None
    (<[ck_exists ck := Some (serialize_bool true)]>
      {[ck_heartbeat ck := Some (serialize_bool false)]})
    ∅ {[ck_index ck := {[identity]}]} ∅ [] [] cur None false None;;
  mret (identity, identityRoot).

Definition _dropConnectionEntry (identity : ObjectId) : SM unit :=
  ck ← connection_keys identity;
  cur ← gets cur_transaction_num;
  _handleNewTransaction clock None
    (<[ck_exists ck := None]> {[ck_heartbeat ck := None]})
    ∅ ∅ {[ck_index ck := {[identity]}]} [] [] cur None false None;;
  mret tt.

(** Start-up: connection objects left over from an earlier run. *)
Definition _removeOldDeadConnections : SM unit :=
  existsFieldId ← fieldIdFor_int "core" "Connection" " exists";
  heartbeatFieldId ← fieldIdFor "core" "Connection" "heartbeats_suspended";
  let exists_index := IXI existsFieldId (indexValueFor_bool true) in
  oldIds ← kv (kv_getSetMembers (KIdx exists_index));
  whenM (bool_decide (oldIds ≠ ∅))
    (kvs ← foldM (elements oldIds) (∅ : gmap Key (option bytes)) (λ v kvs,
       identity ← lift_option TypeError (setvalue_id v);
       heartbeatFieldId ← lift_option TypeError heartbeatFieldId;
       mret (<[KObj (OFI identity heartbeatFieldId false) := None]>
              (<[KObj (OFI identity existsFieldId false) := None]> kvs)));
     _ ← kv (kv_setSeveral kvs ∅ {[KIdx exists_index := oldIds]});
     mret tt).

(** [Server.__init__] *)
Definition blank_server (kvs : T) (token : string) (watched : bool) : Server T :=
  {| kvstore := kvs; auth_token := token; hasTransactionWatcher := watched;
     gc_interval := DEFAULT_GC_INTERVAL; typeMap := None; cc_heap := ∅; clientChannels := ∅;
     cur_transaction_num := 0; version_numbers := ∅; version_numbers_timestamps := ∅;
     min_acceptable_version_number := -1; field_id_to_channel := ∅; index_to_channel := ∅;
     id_to_channel := ∅; fieldTransactionsSinceLastLog := ∅; fieldBroadcastsSinceLastLog := ∅;
     transactionsSinceLastLogEvent := 0; transactionLagSinceLastLogEvent := 0;
     lastLogEvent := clock 0; subscriptionQueue := []; pendingSubscriptionRecheck := None;
     last_garbage_collect_timestamp := None; identityProducer := Identity.new 0;
     clock_reads := 1; effects := [] |}.

Definition Server_init : SM unit :=
  root ← allocateNewIdentityRoot;
  modify (λ s, s <| identityProducer := Identity.new root |>);;
  _removeOldDeadConnections.

(** ** Connections *)

Definition dropConnection (channel : ChannelId) : SM unit :=
  chans ← gets clientChannels;
  match chans !! channel with
  | None => mret tt
  | Some connectedChannel =>
      cc ← gets (λ s, the_cc s connectedChannel);
      forM (map_to_list (cc_subscribedFields cc)).*1 (λ fieldId,
        m ← gets field_id_to_channel;
        _ ← lift_option KeyError (m !! fieldId);
        modify (λ s, s <| field_id_to_channel ::= mm_discard fieldId connectedChannel |>));;
      forM (map_to_list (cc_subscribedIndexKeys cc)).*1 (λ index_key,
        m ← gets index_to_channel;
        _ ← lift_option KeyError (m !! index_key);
        modify (λ s, s <| index_to_channel ::= mm_discard_prune index_key connectedChannel |>));;
      forM (elements (cc_subscribedIds cc)) (λ identity,
        m ← gets id_to_channel;
        whenM (bool_decide (is_Some (m !! identity)))
          (modify (λ s, s <| id_to_channel ::= mm_discard_prune identity connectedChannel |>)));;
      modify (λ s, s <| clientChannels ::= delete channel |>);;
      forM (elements (cc_dependentConnections cc)) _dropConnectionEntry
  end.

(** A new [ConnectedChannel] object is put in the heap at a fresh reference. *)
Definition new_cc (cc : ConnectedChannel) : SM ChannelRef :=
  heap ← gets cc_heap;
  let c := fresh (dom heap) in
  modify (λ s, s <| cc_heap ::= <[c := cc]> |>);;
  mret c.

(** An exception is logged and swallowed. *)
Definition addConnection (channel : ChannelId) : SM unit :=
  tryM
    ('(connectionObject, identityRoot) ← _createConnectionEntry;
     cur ← gets cur_transaction_num;
     connectedChannel ← new_cc (new_ConnectedChannel cur channel connectionObject identityRoot);
     modify (λ s, s <| clientChannels ::= <[channel := connectedChannel]> |>);;
     sendInitializationMessage connectedChannel)
    (λ _, mret tt).

Definition _areHeartbeatsSuspended (connIdentity : ObjectId) : SM bool :=
  heartbeatFieldId ← fieldIdFor_int "core" "Connection" "heartbeats_suspended";
  data ← kv (kv_get (KObj (OFI connIdentity heartbeatFieldId false)));
  mret (bool_decide (data = Some (serialize_bool true))).

Definition checkForDeadConnections : SM unit :=
  chans ← gets clientChannels;
  forM (map_to_list chans).*1 (λ c,
    chans ← gets clientChannels;
    r ← lift_option KeyError (chans !! c);
    missed ← gets (λ s, cc_missedHeartbeats (the_cc s r));
    upd_cc r (λ cc, cc <| cc_missedHeartbeats ::= λ n, n + 1 |>);;
    suspended ← (if bool_decide (4 <= missed)
                 then conn ← gets (λ s, cc_connectionObject (the_cc s r));
                      _areHeartbeatsSuspended conn
                 else mret true);
    whenM (bool_decide (4 <= missed) && negb suspended)
      (emit (Closed c);; dropConnection c)).

(** ** Subscriptions *)

Definition _parseSubscriptionMsg (channel : ChannelRef) (msg : SubscribeMsg) :
    SM (TypeDefinition * gset ObjectId) :=
  cc ← gets (λ s, the_cc s channel);
  definition ← lift_option AssertionError (cc_definedSchemas cc !! sm_schema msg);
  typedef ← lift_option AssertionError (definition !! sm_typename msg);
  let '(field, val) := match sm_fieldname_and_value msg with
                       | None => (" exists"%string, indexValueFor_bool true)
                       | Some fv => fv end in
  identities ←
    (if bool_decide (field = "_identity") then
       identity ← lift_option DeserializeError (deserialize_ObjectBase val);
       mret {[identity]}
     else
       fieldId ← lookupOrAdd (sm_schema msg) (sm_typename msg) field;
       vs ← kv (kv_getSetMembers (KIdx (IXI fieldId val)));
       mret (list_to_set (omap setvalue_id (elements vs))));
  mret (typedef, identities).

Definition _buildIndexValueMap (typedef : TypeDefinition) (schema_name typename : string)
    (identities : list ObjectId) : SM (gmap ObjectFieldId (option IndexValue)) :=
  foldM (td_indices typedef) ∅ (λ fieldname index_vals,
    fieldId ← lookupOrAdd schema_name typename fieldname;
    let keys := (λ identity, OFI identity fieldId true) <$> identities in
    vals ← kv (kv_getSeveral (KObj <$> keys));
    mret (list_to_map (zip keys vals) ∪ index_vals)).

Definition _markSubscriptionComplete (schema typename : string)
    (fieldname_and_value : FieldnameAndValue) (identities : gset ObjectId)
    (connectedChannel : ChannelRef) (isLazy : bool) : SM unit :=
  match fieldname_and_value with
  | Some (fieldname, value) =>
      (* an index subscription *)
      forM (elements identities) (λ ident,
        modify (λ s, s <| id_to_channel ::= mm_add ident connectedChannel |>);;
        upd_cc connectedChannel (λ cc, cc <| cc_subscribedIds ::= union {[ident]} |>));;
      if bool_decide (fieldname ≠ "_identity"%string) then
        fieldId ← fieldIdFor_int schema typename fieldname;
        let index_key := IXI fieldId value in
        modify (λ s, s <| index_to_channel ::= mm_add index_key connectedChannel |>);;
        cur ← gets cur_transaction_num;
        upd_cc connectedChannel (λ cc,
          cc <| cc_subscribedIndexKeys ::= <[index_key := if isLazy then cur else -1]> |>)
      else assertM (negb isLazy)
  | None =>
      (* a type subscription; the fields of a defined type always have ids *)
      typedef ← defined_type connectedChannel schema typename;
      forM (td_fields typedef) (λ fieldname,
        fieldId ← fieldIdFor_int schema typename fieldname;
        modify (λ s, s <| field_id_to_channel ::= mm_add fieldId connectedChannel |>);;
        cur ← gets cur_transaction_num;
        upd_cc connectedChannel (λ cc,
          cc <| cc_subscribedFields ::= <[fieldId := if isLazy then cur else -1]> |>))
  end.

(** the last message of every subscription *)
Definition write_SubscriptionComplete (c : ChannelRef) (schema typename : string)
    (fieldname_and_value : FieldnameAndValue) : SM unit :=
  cur ← gets cur_transaction_num;
  write c (SubscriptionComplete schema typename fieldname_and_value cur).

Definition _completeLazySubscription (schema_name typename : string)
    (fieldname_and_value : FieldnameAndValue) (typedef : TypeDefinition)
    (identities : gset ObjectId) (connectedChannel : ChannelRef) : SM unit :=
  index_vals ← _buildIndexValueMap typedef schema_name typename (elements identities);
  write connectedChannel
    (LazySubscriptionData schema_name typename fieldname_and_value (elements identities) index_vals);;
  _markSubscriptionComplete schema_name typename fieldname_and_value identities connectedChannel true;;
  write_SubscriptionComplete connectedChannel schema_name typename fieldname_and_value.

(** One message of [_pendingSubscriptionRecheck]: what it makes necessary to send. *)
Definition recheck (schema_name typename : string) (fieldname_and_value : FieldnameAndValue)
    (identities : gset ObjectId) (transactionMessage : TransactionMsg) (remaining : gset ObjectId) :
    SM (gset ObjectId) :=
  let remaining := remaining ∪ (set_map objId (dom (tm_writes transactionMessage)) ∩ identities) in
  foldM (map_to_list (tm_set_adds transactionMessage)) remaining (λ add remaining,
    let '(add_index_key, add_index_identities) := add in
    defs ← fieldIdToDef;
    fieldDef ← lift_option KeyError (defs !! ixFieldId add_index_key);
    mret (if bool_decide (schema_name = fd_schema fieldDef ∧ typename = fd_typename fieldDef) &&
             match fieldname_and_value with
             | None => bool_decide (fd_fieldname fieldDef = " exists")
             | Some fv => bool_decide (fv = (fd_fieldname fieldDef, indexValue add_index_key))
             end
          then remaining ∪ list_to_set add_index_identities else remaining)).

(** Popping up to [BATCH_SIZE] elements off a set: the popped ones and the rest. *)
Definition pop_batch (BATCH_SIZE : option nat) (remaining : gset ObjectId) :
    list ObjectId * gset ObjectId :=
  let to_send := match BATCH_SIZE with
                 | None => elements remaining | Some n => take n (elements remaining) end in
  (to_send, remaining ∖ list_to_set to_send).

(** Returns what is still left to send: [identities_left_to_send] is updated in place. *)
Definition _sendPartialSubscription (connectedChannel : ChannelRef) (schema_name typename : string)
    (fieldname_and_value : FieldnameAndValue) (typedef : TypeDefinition)
    (identities identities_left_to_send : gset ObjectId)
    (BATCH_SIZE : option nat) (checkPending : bool) : SM (gset ObjectId) :=
  remaining ← (if checkPending then
            pending ← gets pendingSubscriptionRecheck;
            msgs ← lift_option TypeError pending;
            foldM msgs identities_left_to_send
              (recheck schema_name typename fieldname_and_value identities)
          else mret identities_left_to_send);
  let '(to_send, remaining) := pop_batch BATCH_SIZE remaining in
  kvs ← foldM (td_fields typedef) ∅ (λ fieldname kvs,
    fieldId ← fieldIdFor schema_name typename fieldname;
    keys ← mapM to_send (λ identity,
      fieldId ← lift_option TypeError fieldId; mret (OFI identity fieldId false));
    vals ← kv (kv_getSeveral (KObj <$> keys));
    mret (list_to_map (zip keys vals) ∪ kvs));
  index_vals ← _buildIndexValueMap typedef schema_name typename to_send;
  write connectedChannel
    (SubscriptionData schema_name typename fieldname_and_value kvs index_vals
       (match fieldname_and_value with None => None | Some _ => Some to_send end));;
  mret remaining.

Definition _handleSubscriptionInForeground (channel : ChannelRef) (msg : SubscribeMsg) : SM unit :=
  '(typedef, identities) ← _parseSubscriptionMsg channel msg;
  let n := Z.of_nat (size identities) in
  if sm_isLazy msg && bool_decide (n < MAX_LAZY_TO_SEND_SYNCHRONOUSLY)
     || bool_decide (n < MAX_NORMAL_TO_SEND_SYNCHRONOUSLY) then
    if sm_isLazy msg then
      _completeLazySubscription (sm_schema msg) (sm_typename msg) (sm_fieldname_and_value msg)
        typedef identities channel
    else
      _sendPartialSubscription channel (sm_schema msg) (sm_typename msg)
        (sm_fieldname_and_value msg) typedef identities identities None false;;
      _markSubscriptionComplete (sm_schema msg) (sm_typename msg) (sm_fieldname_and_value msg)
        identities channel false;;
      write_SubscriptionComplete channel (sm_schema msg) (sm_typename msg)
        (sm_fieldname_and_value msg)
  else modify (λ s, s <| subscriptionQueue ::= λ q, q ++ [(channel, msg)] |>).

(** ** The subscription thread

    [handleSubscriptionOnBackgroundThread] holds the lock in three places: to parse
    the message, once per batch, and to clean up.  A [BackgroundTask] is what the
    thread remembers between two of them. *)

Record BackgroundTask := {
  bt_channel : ChannelRef; bt_msg : SubscribeMsg; bt_typedef : TypeDefinition;
  bt_identities : gset ObjectId; bt_left : gset ObjectId;
}.

Definition background_start (connectedChannel : ChannelRef) (msg : SubscribeMsg) :
    SM (option BackgroundTask) :=
  '(typedef, identities) ← _parseSubscriptionMsg connectedChannel msg;
  cc ← gets (λ s, the_cc s connectedChannel);
  chans ← gets clientChannels;
  if bool_decide (chans !! cc_channel cc = None) then mret None
  else if sm_isLazy msg then
    whenM (match sm_fieldname_and_value msg with
           | Some (f, _) => bool_decide (f ≠ "_identity"%string) | None => false end)
      (raise (UserException "It makes no sense to lazily subscribe to specific values!"));;
    _completeLazySubscription (sm_schema msg) (sm_typename msg) (sm_fieldname_and_value msg)
      typedef identities connectedChannel;;
    mret None
  else
    modify (λ s, s <| pendingSubscriptionRecheck := Some [] |>);;
    mret (Some {| bt_channel := connectedChannel; bt_msg := msg; bt_typedef := typedef;
                  bt_identities := identities; bt_left := identities |}).

(** One pass of the loop: [None] when the subscription is complete. *)
Definition background_batch (t : BackgroundTask) : SM (option BackgroundTask) :=
  let msg := bt_msg t in
  remaining ← _sendPartialSubscription (bt_channel t) (sm_schema msg) (sm_typename msg)
           (sm_fieldname_and_value msg) (bt_typedef t) (bt_identities t) (bt_left t)
           (Some 100%nat) true;
  modify (λ s, s <| pendingSubscriptionRecheck := Some [] |>);;
  if bool_decide (remaining = ∅) then
    _markSubscriptionComplete (sm_schema msg) (sm_typename msg) (sm_fieldname_and_value msg)
      (bt_identities t) (bt_channel t) false;;
    write_SubscriptionComplete (bt_channel t) (sm_schema msg) (sm_typename msg)
      (sm_fieldname_and_value msg);;
    mret None
  else
    mret (Some {| bt_channel := bt_channel t; bt_msg := msg; bt_typedef := bt_typedef t;
                  bt_identities := bt_identities t; bt_left := remaining |}).

(** the [finally] clause *)
Definition background_finish : SM unit :=
  modify (λ s, s <| pendingSubscriptionRecheck := None |>).

(** ** Schemas and lazy loading *)

Definition _defineSchema (connectedChannel : ChannelRef) (name : string)
    (definition : SchemaDefinition) : SM unit :=
  upd_cc connectedChannel (λ cc, cc <| cc_definedSchemas ::= <[name := definition]> |>);;
  tm ← _currentTypeMap;
  let origSize := TypeMap.len tm in
  result ← foldM (map_to_list definition) (∅ : gmap FieldDefinition FieldId) (λ td result,
    let '(typename, typedef) := td in
    foldM (td_fields typedef ++ td_indices typedef) result (λ fieldname result,
      fieldId ← lookupOrAdd name typename fieldname;
      mret (<[FieldDef name typename fieldname := fieldId]> result)));
  write connectedChannel (SchemaMapping name result);;
  tm ← _currentTypeMap;
  whenM (bool_decide (TypeMap.len tm ≠ origSize))
    (kv (kv_set (KName "types") (Some (serialize_TypeMap tm)))).

Definition _loadLazyObject (channel : ChannelRef) (schema typename : string) (identity : ObjectId) :
    SM unit :=
  values ← _loadValuesForObject channel schema typename [identity];
  write channel (LazyLoadResponse identity values).

(** ** Client messages *)

(** [CompleteTransaction]: an exception is reported to the client. *)
Definition completeTransaction (c : ChannelRef) (as_of_version guid : Z) (no_log : bool) : SM unit :=
  '(isOK, badKey, isException) ←
    tryM
      (transStartTime ← time_time clock;
       data ← extractTransactionData c guid;
       min ← gets min_acceptable_version_number;
       r ← (if bool_decide (as_of_version < min) then
              mret (false, BadText "<TRANSACTION TOO OLD>")
            else
              _handleNewTransaction clock (Some c) (pt_writes data) (pt_prerequisites data)
                (pt_set_adds data) (pt_set_removes data) (elements (pt_key_versions data))
                (elements (pt_index_versions data)) as_of_version (Some transStartTime) no_log
                (Some guid));
       mret (r, false))
      (λ e, mret ((false, BadText (format_exc e)), true));
  sendTransactionSuccess c guid isOK badKey isException.

Definition onClientToServerMessage (c : ChannelRef) (msg : ClientToServer) : SM unit :=
  cc ← gets (λ s, the_cc s c);
  match msg with
  | Authenticate token =>
      tok ← gets auth_token;
      whenM (bool_decide (token = tok)) (upd_cc c authenticate)
  | _ =>
      if cc_needsAuthentication cc then mret tt
      else
        match msg with
        | Authenticate _ => mret tt
        | DropDependentConnectionId connIdentity =>
            whenM (bool_decide (connIdentity ∉ cc_dependentConnections cc)) (raise KeyError);;
            upd_cc c (λ cc, cc <| cc_dependentConnections ::= λ d, d ∖ {[connIdentity]} |>);;
            _dropConnectionEntry connIdentity
        | RequestDependentConnectionId parentId guid =>
            '(connectionObject, identityRoot) ← _createConnectionEntry;
            upd_cc c (λ cc, cc <| cc_dependentConnections ::= union {[connectionObject]} |>);;
            write c (DependentConnectionId guid connectionObject identityRoot)
        | Heartbeat => upd_cc c heartbeat
        | LoadLazyObject schema typename oid => _loadLazyObject c schema typename oid
        | Flush guid => write c (FlushResponse guid)
        | DefineSchema name definition => _defineSchema c name definition
        | SubscribeNone _ _ => mret tt
        | Subscribe schema typename fieldname_and_value isLazy =>
            _handleSubscriptionInForeground c
              {| sm_schema := schema; sm_typename := typename;
                 sm_fieldname_and_value := fieldname_and_value; sm_isLazy := isLazy |}
        | TransactionData w sa sr kvs ivs guid pre =>
            upd_cc c (handleTransactionData w sa sr kvs ivs guid pre)
        | CompleteTransaction as_of_version guid no_log =>
            completeTransaction c as_of_version guid no_log
        end
  end.
End server.
