(* ===== verification/ServerOps.v ===== *)
(** * The server as a transition system

    The entry points of [object_database/server.py] that run under the lock, as the
    steps of one system: a channel connects or is dropped, a client message arrives,
    the heartbeat check runs, the subscription thread takes its next turn at the
    lock.  Each may happen at any time; an exception that leaves one of them is the
    caller's, and the state it left stays. *)

From stdpp Require Import options.
From S2P Require Import Prelude Schema Messages Persistence ServerState Server ServerConn.

Local Open Scope Z_scope.

Section ops.
Context `{Serialization} {T : Type} `{KVStore T}.
Variable clock : nat → Z.
Variable format_exc : exn → string.
#[local] Set Default Proof Using "Type*".

(** The server together with what its subscription thread is in the middle of. *)
Record World := { w_server : Server T; w_task : option BackgroundTask }.
#[export] Instance World_settable : Settable World :=
  λ r, {| w_server := w_server r; w_task := w_task r |}.

(** [serviceSubscriptions]: between two tasks the thread takes the next one from the
    queue; in the middle of one it sends the next batch.  Whenever the task ends, by
    an exception or not, the [finally] clause runs. *)
Definition next_task (start : ChannelRef → SubscribeMsg → M (Server T) (option BackgroundTask)) :
    M (Server T) (option BackgroundTask) :=
  queue ← gets subscriptionQueue;
  match queue with
  | [] => mret None
  | (connectedChannel, msg) :: rest =>
      modify (λ s, s <| subscriptionQueue := rest |>);;
      start connectedChannel msg
  end.

Definition end_task (r : outcome (option BackgroundTask)) : M (Server T) (option BackgroundTask) :=
  match r with
  | Ok (Some t) => mret (Some t)
  | _ => background_finish;; mret None
  end.

(** One turn of the thread; what it raises is logged and swallowed. *)
Definition subscription_turn (task : option BackgroundTask) :
    M (Server T) (option BackgroundTask) := λ s,
  let m := match task with
           | None => next_task background_start
           | Some t => background_batch t
           end in
  match m s with (r, s') => end_task r s' end.

Inductive server_op :=
  | OpMessage (c : ChannelRef) (msg : ClientToServer)
  | OpConnect (ch : ChannelId)
  | OpDrop (ch : ChannelId)
  | OpCheckDead
  | OpGarbageCollect (intervalOverride : option Z)
  | OpSubscriptionTurn.

Definition exec (op : server_op) : M (Server T) unit :=
  match op with
  | OpMessage c msg => onClientToServerMessage clock format_exc c msg
  | OpConnect ch => addConnection clock ch
  | OpDrop ch => dropConnection clock ch
  | OpCheckDead => checkForDeadConnections clock
  | OpGarbageCollect i => _garbage_collect clock i
  | OpSubscriptionTurn => mret tt
  end.

Definition run_op (op : server_op) (w : World) : World :=
  match op with
  | OpSubscriptionTurn =>
      match subscription_turn (w_task w) (w_server w) with
      | (Ok task, s) => {| w_server := s; w_task := task |}
      | (Raise _, s) => {| w_server := s; w_task := None |}
      end
  | _ => w <| w_server := (exec op (w_server w)).2 |>
  end.

Definition run_ops (ops : list server_op) (w : World) : World :=
  foldl (λ w op, run_op op w) w ops.

(** Messages are handled for connections that were made: the handler of a channel is
    installed with the [ConnectedChannel] object of that channel. *)
Definition op_ok (w : World) (op : server_op) : Prop :=
  match op with
  | OpMessage c _ => is_Some (cc_heap (w_server w) !! c)
  | OpConnect ch => clientChannels (w_server w) !! ch = None
  | _ => True
  end.

Definition start_world (kvs : T) (token : string) (watched : bool) : World :=
  {| w_server := (Server_init (blank_server clock kvs token watched)).2; w_task := None |}.

(** The states of a server started on [kvs]. *)
Inductive reachable (kvs : T) (token : string) (watched : bool) : World → Prop :=
  | reach_start : reachable kvs token watched (start_world kvs token watched)
  | reach_step w op :
      reachable kvs token watched w → op_ok w op → reachable kvs token watched (run_op op w).

(** Rule induction, for invariants of the server that every piece of code preserves. *)
Lemma run_op_inv (I : Server T → Prop) op w :
  (∀ op, preserves I (exec op)) →
  (∀ c msg, preserves I (background_start c msg)) → (∀ t, preserves I (background_batch t)) →
  preserves I background_finish →
  (∀ s q, I s → I (s <| subscriptionQueue := q |>)) →
  I (w_server w) → I (w_server (run_op op w)).
Proof.
  intros Hexec Hstart Hbatch Hfin Hq Hw.
  destruct op; try by apply Hexec. cbn. unfold subscription_turn.
  match goal with |- context [match ?m _ with (r, s') => end_task r s' end] => set (turn := m) end.
  assert (preserves I turn) as Hturn.
  { unfold turn. destruct (w_task w); [apply Hbatch|].
    unfold next_task. apply preserves_bind; [apply preserves_gets|intros [|[c msg] rest]].
    - apply preserves_ret.
    - apply preserves_bind; [|intros _; apply Hstart]. apply preserves_modify. auto. }
  specialize (Hturn _ Hw). destruct (turn (w_server w)) as [r s']; cbn in Hturn.
  assert (preserves I (end_task r)) as Hend.
  { destruct r as [[t|]|e]; cbn; [apply preserves_ret| |];
      (apply preserves_bind; [apply Hfin|intros _; apply preserves_ret]). }
  specialize (Hend _ Hturn). by destruct (end_task r s') as [[?|?] ?].
Qed.

Lemma run_ops_inv (I : Server T → Prop) ops w :
  (∀ op, preserves I (exec op)) →
  (∀ c msg, preserves I (background_start c msg)) → (∀ t, preserves I (background_batch t)) →
  preserves I background_finish →
  (∀ s q, I s → I (s <| subscriptionQueue := q |>)) →
  I (w_server w) → I (w_server (run_ops ops w)).
Proof.
  intros Hexec Hstart Hbatch Hfin Hq. revert w.
  induction ops as [|op ops IH]; intros w Hw; [done|]. cbn. apply IH. by apply run_op_inv.
Qed.

Lemma reachable_inv (I : Server T → Prop) kvs token watched w :
  (∀ op, preserves I (exec op)) →
  (∀ c msg, preserves I (background_start c msg)) → (∀ t, preserves I (background_batch t)) →
  preserves I background_finish →
  (∀ s q, I s → I (s <| subscriptionQueue := q |>)) →
  I (start_world kvs token watched).(w_server) →
  reachable kvs token watched w → I (w_server w).
Proof.
  intros Hexec Hstart Hbatch Hfin Hq Hinit. induction 1 as [|w op Hr IH Hok]; [done|].
  by apply run_op_inv.
Qed.
End ops.
