(* ===== verification/ServerSubs.v ===== *)
(** * Subscriptions and connections

    Who is subscribed to what is recorded twice: in each [ConnectedChannel], and in
    the server's dictionaries from fields, index values and objects to channels.
    [bk] says that the two agree, that a connection which has not authenticated has
    no subscription, and that only authenticated connections wait for the
    subscription thread. *)

From stdpp Require Import options.
From S2P Require Import Prelude Schema Messages Persistence ServerState Server ServerConn ServerOps.

Local Open Scope Z_scope.

Definition hcc (heap : gmap ChannelRef ConnectedChannel) (c : ChannelRef) : ConnectedChannel :=
  default (new_ConnectedChannel 0 0 0 0) (heap !! c).

Definition no_subs (cc : ConnectedChannel) : Prop :=
  cc_subscribedFields cc = ∅ ∧ cc_subscribedIndexKeys cc = ∅ ∧ cc_subscribedIds cc = ∅.

(** [c] is in every dictionary its own record names *)
Record listed (fm : gmap FieldId (gset ChannelRef)) (im : gmap IndexId (gset ChannelRef))
    (idm : gmap ObjectId (gset ChannelRef)) (cc : ConnectedChannel) (c : ChannelRef) : Prop := {
  ls_field f : is_Some (cc_subscribedFields cc !! f) → c ∈ mm_get fm f;
  ls_index ix : is_Some (cc_subscribedIndexKeys cc !! ix) → c ∈ mm_get im ix;
  ls_id i : i ∈ cc_subscribedIds cc → c ∈ mm_get idm i;
}.

Record bk_fields (fm : gmap FieldId (gset ChannelRef)) (im : gmap IndexId (gset ChannelRef))
    (idm : gmap ObjectId (gset ChannelRef)) (heap : gmap ChannelRef ConnectedChannel)
    (chans : gmap ChannelId ChannelRef) (queue : list (ChannelRef * SubscribeMsg)) : Prop := {
  bk_field f c : c ∈ mm_get fm f → is_Some (cc_subscribedFields (hcc heap c) !! f);
  bk_index ix c : c ∈ mm_get im ix → is_Some (cc_subscribedIndexKeys (hcc heap c) !! ix);
  bk_id i c : c ∈ mm_get idm i → i ∈ cc_subscribedIds (hcc heap c);
  bk_live ch c : chans !! ch = Some c →
    c ∈ dom heap ∧ cc_channel (hcc heap c) = ch ∧ listed fm im idm (hcc heap c) c;
  bk_unauthenticated c : cc_needsAuthentication (hcc heap c) = true → no_subs (hcc heap c);
  bk_queue c msg : (c, msg) ∈ queue → cc_needsAuthentication (hcc heap c) = false;
}.

Lemma hcc_insert heap c cc c' :
  hcc (<[c := cc]> heap) c' = if decide (c' = c) then cc else hcc heap c'.
Proof. unfold hcc. rewrite lookup_insert. repeat case_decide; naive_solver. Qed.

(** Growing the subscriptions of one connection, in its record and in the dictionaries. *)
Lemma bk_grow fm im idm heap chans queue c cc' fm' im' idm'
    (F : gset FieldId) (I : gset IndexId) (Ids : gset ObjectId) :
  bk_fields fm im idm heap chans queue →
  (∀ f x, x ∈ mm_get fm' f ↔ x ∈ mm_get fm f ∨ (x = c ∧ f ∈ F)) →
  (∀ ix x, x ∈ mm_get im' ix ↔ x ∈ mm_get im ix ∨ (x = c ∧ ix ∈ I)) →
  (∀ i x, x ∈ mm_get idm' i ↔ x ∈ mm_get idm i ∨ (x = c ∧ i ∈ Ids)) →
  (∀ f, is_Some (cc_subscribedFields cc' !! f) ↔ is_Some (cc_subscribedFields (hcc heap c) !! f) ∨ f ∈ F) →
  (∀ ix, is_Some (cc_subscribedIndexKeys cc' !! ix) ↔
     is_Some (cc_subscribedIndexKeys (hcc heap c) !! ix) ∨ ix ∈ I) →
  (∀ i, i ∈ cc_subscribedIds cc' ↔ i ∈ cc_subscribedIds (hcc heap c) ∨ i ∈ Ids) →
  cc_channel cc' = cc_channel (hcc heap c) →
  (cc_needsAuthentication cc' = true → cc_needsAuthentication (hcc heap c) = true ∧
     F = ∅ ∧ I = ∅ ∧ Ids = ∅) →
  bk_fields fm' im' idm' (<[c := cc']> heap) chans queue.
Proof.
  intros [HA HB HC HD HE HQ] Hfm Him Hidm Hf Hi Hids Hch Hauth. split.
  - intros f x. rewrite Hfm, hcc_insert. case_decide; subst; [rewrite Hf|]; naive_solver.
  - intros ix x. rewrite Him, hcc_insert. case_decide; subst; [rewrite Hi|]; naive_solver.
  - intros i x. rewrite Hidm, hcc_insert. case_decide; subst; [rewrite Hids|]; naive_solver.
  - intros ch x Hx. specialize (HD ch x Hx) as (Hdom & Hxch & [Lf Li Lid]).
    rewrite dom_insert_L, hcc_insert. case_decide as Hxc; [subst x|]; (split; [set_solver|]).
    + split; [congruence|]. split.
      * intros f. rewrite Hf, Hfm. naive_solver.
      * intros ix. rewrite Hi, Him. naive_solver.
      * intros i. rewrite Hids, Hidm. naive_solver.
    + split; [done|]. split.
      * intros f Hx'. rewrite Hfm. eauto.
      * intros ix Hx'. rewrite Him. eauto.
      * intros i Hx'. rewrite Hidm. eauto.
  - intros x. rewrite hcc_insert. case_decide; [subst x|apply HE].
    intros Hn. destruct (Hauth Hn) as (Hn' & -> & -> & ->). destruct (HE _ Hn') as (E1 & E2 & E3).
    unfold no_subs. split_and!; [apply map_eq; intros k; apply option_eq; intros v..|].
    + specialize (Hf k). rewrite E1, lookup_empty in Hf. rewrite lookup_empty. split; [|done].
      intros Hv. rewrite Hv in Hf. destruct (proj1 Hf) as [[? ?]|?]; [done|done|set_solver].
    + specialize (Hi k). rewrite E2, lookup_empty in Hi. rewrite lookup_empty. split; [|done].
      intros Hv. rewrite Hv in Hi. destruct (proj1 Hi) as [[? ?]|?]; [done|done|set_solver].
    + apply set_eq. intros i. rewrite Hids, E3. set_solver.
  - intros x msg Hx. rewrite hcc_insert. case_decide; [subst x|by eapply HQ].
    specialize (HQ c msg Hx). destruct (cc_needsAuthentication cc') eqn:Hn; [|done].
    destruct (Hauth eq_refl). congruence.
Qed.

(** Removing a connection from the dictionaries. *)
Section bk.
Context {T : Type}.
#[local] Set Default Proof Using "Type*".

Definition bk (s : Server T) : Prop :=
  bk_fields (field_id_to_channel s) (index_to_channel s) (id_to_channel s) (cc_heap s)
    (clientChannels s) (subscriptionQueue s).

Definition authed (c : ChannelRef) (s : Server T) : Prop :=
  cc_needsAuthentication (hcc (cc_heap s) c) = false.

(** the invariant, for code that acts for the authenticated connections [cs] *)
Definition bk_for (cs : list ChannelRef) (s : Server T) : Prop :=
  bk s ∧ ∀ c, c ∈ cs → authed c s.

(** Updates of a connection that leave its subscriptions alone. *)
Record neutral (f : ConnectedChannel → ConnectedChannel) : Prop := {
  nt_fields cc : cc_subscribedFields (f cc) = cc_subscribedFields cc;
  nt_indices cc : cc_subscribedIndexKeys (f cc) = cc_subscribedIndexKeys cc;
  nt_ids cc : cc_subscribedIds (f cc) = cc_subscribedIds cc;
  nt_channel cc : cc_channel (f cc) = cc_channel cc;
  nt_auth cc : cc_needsAuthentication (f cc) = true → cc_needsAuthentication cc = true;
}.

Lemma bk_for_insert cs s s' c cc :
  (∀ c, c ∈ cs → authed c s) → cc_heap s' = <[c := cc]> (cc_heap s) →
  (cc_needsAuthentication cc = true → cc_needsAuthentication (hcc (cc_heap s) c) = true) →
  bk s' → bk_for cs s'.
Proof.
  intros Ha Hheap Hcc Hbk. split; [done|]. intros x Hx. unfold authed. rewrite Hheap, hcc_insert.
  case_decide; [subst x|by apply Ha]. specialize (Ha c Hx). unfold authed in Ha.
  destruct (cc_needsAuthentication cc); [|done]. rewrite Hcc in Ha by done. done.
Qed.

Lemma upd_cc_bk cs c f : neutral f → preserves (bk_for cs) (upd_cc (T:=T) c f).
Proof.
  intros [Hf Hi Hids Hch Ha]. apply preserves_modify. intros s [Hs Hcs].
  eapply (bk_for_insert cs s _ c); [done|reflexivity|apply Ha|].
  eapply (bk_grow _ _ _ _ _ _ c _ _ _ _ ∅ ∅ ∅ Hs); cbn; intros;
    rewrite ?Hf, ?Hi, ?Hids; [set_solver..|apply Hch|]. split_and!; try done. by apply Ha.
Qed.

(** *** The places where a connection is subscribed *)

Record grows (f : ConnectedChannel → ConnectedChannel) (F : gset FieldId) (I : gset IndexId)
    (Ids : gset ObjectId) : Prop := {
  gr_fields cc k : is_Some (cc_subscribedFields (f cc) !! k) ↔
    is_Some (cc_subscribedFields cc !! k) ∨ k ∈ F;
  gr_indices cc k : is_Some (cc_subscribedIndexKeys (f cc) !! k) ↔
    is_Some (cc_subscribedIndexKeys cc !! k) ∨ k ∈ I;
  gr_ids cc i : i ∈ cc_subscribedIds (f cc) ↔ i ∈ cc_subscribedIds cc ∨ i ∈ Ids;
  gr_channel cc : cc_channel (f cc) = cc_channel cc;
  gr_auth cc : cc_needsAuthentication (f cc) = cc_needsAuthentication cc;
}.

Lemma grow_bk cs s s' c f F I Ids :
  grows f F I Ids → bk_for cs s → c ∈ cs →
  cc_heap s' = <[c := f (the_cc s c)]> (cc_heap s) →
  clientChannels s' = clientChannels s → subscriptionQueue s' = subscriptionQueue s →
  (∀ k x, x ∈ mm_get (field_id_to_channel s') k ↔ x ∈ mm_get (field_id_to_channel s) k ∨ (x = c ∧ k ∈ F)) →
  (∀ k x, x ∈ mm_get (index_to_channel s') k ↔ x ∈ mm_get (index_to_channel s) k ∨ (x = c ∧ k ∈ I)) →
  (∀ k x, x ∈ mm_get (id_to_channel s') k ↔ x ∈ mm_get (id_to_channel s) k ∨ (x = c ∧ k ∈ Ids)) →
  bk_for cs s'.
Proof.
  intros [Hf Hi Hids Hch Ha] [Hs Hcs] Hc Hheap Hchans Hq Hfm Him Hidm.
  pose proof (Hcs c Hc) as Hauth.
  eapply (bk_for_insert cs s _ c); [done|exact Hheap|by rewrite Ha|].
  unfold bk. rewrite Hheap, Hchans, Hq.
  apply (bk_grow _ _ _ _ _ _ c _ _ _ _ F I Ids Hs); [done..|apply Hf|apply Hi|apply Hids|apply Hch|].
  rewrite Ha. unfold authed in Hauth. change (the_cc s c) with (hcc (cc_heap s) c). congruence.
Qed.

Lemma is_Some_insert `{Countable K} {V} (m : gmap K V) i v k :
  is_Some (<[i := v]> m !! k) ↔ is_Some (m !! k) ∨ k ∈ ({[i]} : gset K).
Proof.
  rewrite lookup_insert_is_Some, elem_of_singleton. destruct (decide (i = k)); naive_solver.
Qed.

Lemma grows_field f v :
  grows (λ cc, cc <| cc_subscribedFields ::= <[f := v]> |>) {[f]} ∅ ∅.
Proof. split; intros []; cbn; intros; rewrite ?is_Some_insert; set_solver. Qed.

Lemma grows_index ix v :
  grows (λ cc, cc <| cc_subscribedIndexKeys ::= <[ix := v]> |>) ∅ {[ix]} ∅.
Proof. split; intros []; cbn; intros; rewrite ?is_Some_insert; set_solver. Qed.

Lemma grows_ids ids : grows (λ cc, cc <| cc_subscribedIds ::= union ids |>) ∅ ∅ ids.
Proof. split; intros []; cbn; set_solver. Qed.

Lemma add_id_bk cs c i :
  c ∈ cs →
  preserves (bk_for cs) (modify (λ s : Server T, s <| id_to_channel ::= mm_add i c |>);;
    upd_cc c (λ cc, cc <| cc_subscribedIds ::= union {[i]} |>)).
Proof.
  intros Hc s Hs. rewrite run_bind, run_modify.
  eapply (grow_bk cs s _ c _ ∅ ∅ {[i]}); [|done|done|reflexivity|reflexivity|reflexivity|..]; cbn.
  - apply grows_ids.
  - set_solver.
  - set_solver.
  - intros k x. rewrite elem_of_mm_add. set_solver.
Qed.

Lemma add_field_bk cs c f lazy :
  c ∈ cs →
  preserves (bk_for cs) (modify (λ s : Server T, s <| field_id_to_channel ::= mm_add f c |>);;
    cur ← gets cur_transaction_num;
    upd_cc c (λ cc, cc <| cc_subscribedFields ::= <[f := if lazy : bool then cur else -1]> |>)).
Proof.
  intros Hc s Hs. rewrite run_bind, run_modify, run_bind, run_gets.
  eapply (grow_bk cs s _ c _ {[f]} ∅ ∅); [|done|done|reflexivity|reflexivity|reflexivity|..]; cbn.
  - apply grows_field.
  - intros k x. rewrite elem_of_mm_add. set_solver.
  - set_solver.
  - set_solver.
Qed.

Lemma add_index_bk cs c ix lazy :
  c ∈ cs →
  preserves (bk_for cs) (modify (λ s : Server T, s <| index_to_channel ::= mm_add ix c |>);;
    cur ← gets cur_transaction_num;
    upd_cc c (λ cc, cc <| cc_subscribedIndexKeys ::= <[ix := if lazy : bool then cur else -1]> |>)).
Proof.
  intros Hc s Hs. rewrite run_bind, run_modify, run_bind, run_gets.
  eapply (grow_bk cs s _ c _ ∅ {[ix]} ∅); [|done|done|reflexivity|reflexivity|reflexivity|..]; cbn.
  - apply grows_index.
  - set_solver.
  - intros k x. rewrite elem_of_mm_add. set_solver.
  - set_solver.
Qed.

Lemma forM_modify_run {A} (l : list A) (g : A → Server T → Server T) s :
  forM l (λ x, modify (g x)) s = (Ok tt, foldl (λ s x, g x s) s l).
Proof. revert s. induction l as [|x l IH]; intros s; [done|]. cbn. unfold bind. cbn. apply IH. Qed.

Lemma fold_id_to_channel l c (s1 : Server T) :
  foldl (λ (s : Server T) x, s <| id_to_channel ::= mm_add x c |>) s1 l =
    s1 <| id_to_channel ::= λ m, foldl (λ m x, mm_add x c m) m l |>.
Proof. revert s1. induction l as [|x l IH]; intros s1; [by destruct s1|]. cbn. by rewrite IH. Qed.

Lemma elem_of_fold_add l (m : gmap ObjectId (gset ChannelRef)) c k x :
  x ∈ mm_get (foldl (λ m x, mm_add x c m) m l) k ↔ x ∈ mm_get m k ∨ (x = c ∧ k ∈ l).
Proof.
  revert m. induction l as [|y l IH]; intros m; cbn; [set_solver|].
  rewrite IH, elem_of_mm_add. set_solver.
Qed.

Lemma add_ids_bk cs c (ids : gset ObjectId) :
  c ∈ cs →
  preserves (bk_for cs) (upd_cc (T:=T) c (λ cc, cc <| cc_subscribedIds ::= union ids |>);;
    forM (elements ids) (λ new_id, modify (λ s, s <| id_to_channel ::= mm_add new_id c |>))).
Proof.
  intros Hc s Hs. rewrite run_bind. unfold upd_cc at 1. rewrite run_modify, forM_modify_run.
  rewrite fold_id_to_channel.
  eapply (grow_bk cs s _ c _ ∅ ∅ ids); [|done|done|reflexivity|reflexivity|reflexivity|..]; cbn.
  - apply grows_ids.
  - set_solver.
  - set_solver.
  - intros k x. rewrite elem_of_fold_add. set_solver.
Qed.
End bk.

(** ** The operations of the server *)

Section ops.
Context `{Serialization} {T : Type} `{KVStore T}.
#[local] Set Default Proof Using "Type*".

Ltac bk_frame :=
  idtac; lazymatch goal with
  | |- preserves _ (modify _) => apply preserves_modify; intros ? Hframe; exact Hframe
  | |- preserves _ (kv _) => unfold kv; apply preserves_zoom; intros ? Hframe; exact Hframe
  | |- preserves _ (zoom _ _) => apply preserves_zoom; intros ? Hframe; exact Hframe
  end.
Ltac bk_pres := preserve_with bk_frame.

#[local] Hint Resolve add_id_bk : py.

Lemma subscribe_to_created_bk cs c tid add :
  c ∈ cs → preserves (bk_for (T:=T) cs) (subscribe_to_created c tid add).
Proof.
  intros Hc. unfold subscribe_to_created. destruct add as [ix ids].
  do 2 (apply preserves_bind; [bk_pres|intros ?]). apply preserves_whenM; intros _.
  apply preserves_bind; [bk_pres|intros cc]. apply preserves_whenM; intros _.
  apply preserves_bind2; [by apply add_ids_bk|intros _ _; bk_pres].
Qed.

Lemma gets_index_bk {B} cs ix (k : gmap IndexId (gset ChannelRef) → M (Server T) B) :
  (∀ itc, (∀ channels, itc !! ix = Some channels → preserves (bk_for (cs ++ elements channels)) (k itc)) ∧
          (itc !! ix = None → preserves (bk_for cs) (k itc))) →
  preserves (bk_for cs) (gets index_to_channel ≫= k).
Proof.
  intros Hk s [Hs Hcs]. rewrite run_bind, run_gets. destruct (Hk (index_to_channel s)) as [H1 H2].
  destruct (index_to_channel s !! ix) as [channels|] eqn:Hix; [|by apply H2].
  destruct (H1 channels eq_refl s) as [Hs' Hcs']; [|split; [done|set_solver]].
  split; [done|]. intros c [Hc|Hc]%elem_of_app; [by apply Hcs|].
  apply elem_of_elements in Hc. unfold authed.
  destruct (cc_needsAuthentication (hcc (cc_heap s) c)) eqn:Hn; [|done].
  apply (bk_unauthenticated _ _ _ _ _ _ Hs) in Hn as (_ & Hempty & _).
  assert (c ∈ mm_get (index_to_channel s) ix) as Hin by (unfold mm_get; by rewrite Hix).
  apply (bk_index _ _ _ _ _ _ Hs) in Hin. rewrite Hempty, lookup_empty in Hin. by destruct Hin.
Qed.

Lemma grow_index_subscriptions_bk cs tid add acc :
  preserves (bk_for (T:=T) cs) (grow_index_subscriptions tid add acc).
Proof.
  unfold grow_index_subscriptions. destruct add as [ix ids], acc as [[kvs adds] trig].
  apply (gets_index_bk _ ix). intros itc. split.
  - intros channels Hix. rewrite Hix. apply preserves_bind; [|intros; bk_pres].
    apply preserves_foldM. intros c [new trig'] Hc. apply preserves_bind; [bk_pres|intros cc]. cbv zeta.
    apply preserves_bind; [|intros; bk_pres]. apply preserves_forM. intros i _.
    apply add_id_bk. set_solver.
  - intros ->. bk_pres.
Qed.
#[local] Hint Resolve grow_index_subscriptions_bk : py.

Lemma _markSubscriptionComplete_bk cs schema typename fv ids c lazy :
  c ∈ cs → preserves (bk_for (T:=T) cs) (_markSubscriptionComplete schema typename fv ids c lazy).
Proof.
  intros Hc. unfold _markSubscriptionComplete. destruct fv as [[f v]|].
  - apply preserves_bind; [apply preserves_forM; intros i _; by apply add_id_bk|intros _].
    case_bool_decide; [|bk_pres]. apply preserves_bind; [bk_pres|intros fieldId].
    by apply add_index_bk.
  - apply preserves_bind; [bk_pres|intros typedef]. apply preserves_forM. intros f _.
    apply preserves_bind; [bk_pres|intros fieldId]. by apply add_field_bk.
Qed.
#[local] Hint Extern 1 (preserves _ (_markSubscriptionComplete _ _ _ _ _ _)) =>
  (apply _markSubscriptionComplete_bk; set_solver) : py.

(** *** Dropping a connection *)

Section drop_loop.
Context {K : Type} `{Countable K}.
Variable proj : Server T → gmap K (gset ChannelRef).
Variable put : gmap K (gset ChannelRef) → Server T → Server T.
Hypothesis proj_put : ∀ m s, proj (put m s) = m.
Hypothesis put_put : ∀ m m' s, put m (put m' s) = put m s.
Hypothesis put_proj : ∀ s, put (proj s) s = s.
Variables (c : ChannelRef) (body : K → M (Server T) unit).
Hypothesis body_run : ∀ k s, c ∈ mm_get (proj s) k →
  ∃ m', body k s = (Ok tt, put m' s) ∧
        ∀ k' x, x ∈ mm_get m' k' ↔ x ∈ mm_get (proj s) k' ∧ ¬ (k' = k ∧ x = c).

Lemma drop_loop l s :
  NoDup l → (∀ k, k ∈ l → c ∈ mm_get (proj s) k) →
  ∃ m', forM l body s = (Ok tt, put m' s) ∧
        ∀ k x, x ∈ mm_get m' k ↔ x ∈ mm_get (proj s) k ∧ ¬ (k ∈ l ∧ x = c).
Proof using proj_put put_put put_proj body_run.
  intros Hnd. revert s. induction Hnd as [|k l Hk Hnd IH]; intros s Hl.
  - exists (proj s). cbn. rewrite put_proj. split; [done|]. set_solver.
  - destruct (body_run k s) as (m1 & Hrun1 & Hm1); [apply Hl; set_solver|].
    destruct (IH (put m1 s)) as (m2 & Hrun2 & Hm2).
    { intros k' Hk'. rewrite proj_put, Hm1. split; [apply Hl; set_solver|]. intros [-> _]. done. }
    exists m2. cbn [forM]. unfold bind. rewrite Hrun1, Hrun2, put_put. split; [done|].
    intros k' x. rewrite Hm2, proj_put, Hm1. set_solver.
Qed.
End drop_loop.

(** [c] is in none of the dictionaries of subscribers *)
Definition gone (c : ChannelRef) (s : Server T) : Prop :=
  (∀ f, c ∉ mm_get (field_id_to_channel s) f) ∧ (∀ ix, c ∉ mm_get (index_to_channel s) ix) ∧
  (∀ i, c ∉ mm_get (id_to_channel s) i).

(** the part of [dropConnection] up to the connection entries *)
Definition unlist (channel : ChannelId) (c : ChannelRef) : M (Server T) unit :=
  cc ← gets (λ s, the_cc s c);
  forM (map_to_list (cc_subscribedFields cc)).*1 (λ fieldId,
    m ← gets field_id_to_channel;
    _ ← lift_option KeyError (m !! fieldId);
    modify (λ s, s <| field_id_to_channel ::= mm_discard fieldId c |>));;
  forM (map_to_list (cc_subscribedIndexKeys cc)).*1 (λ index_key,
    m ← gets index_to_channel;
    _ ← lift_option KeyError (m !! index_key);
    modify (λ s, s <| index_to_channel ::= mm_discard_prune index_key c |>));;
  forM (elements (cc_subscribedIds cc)) (λ identity,
    m ← gets id_to_channel;
    whenM (bool_decide (is_Some (m !! identity)))
      (modify (λ s, s <| id_to_channel ::= mm_discard_prune identity c |>)));;
  modify (λ s, s <| clientChannels ::= delete channel |>).

Lemma elem_of_map_keys `{Countable K} {V} (m : gmap K V) k :
  k ∈ (map_to_list m).*1 ↔ is_Some (m !! k).
Proof.
  rewrite list_elem_of_fmap. split.
  - intros ([k' v] & -> & Hin%elem_of_map_to_list). by eexists.
  - intros [v Hv]. exists (k, v). by rewrite elem_of_map_to_list.
Qed.

Lemma mm_get_lookup `{Countable K, Countable V} (m : gmap K (gset V)) k v :
  v ∈ mm_get m k → ∃ vs, m !! k = Some vs.
Proof. unfold mm_get. destruct (m !! k); [by eexists|set_solver]. Qed.

(** Nothing in it can fail, and it leaves the connection in no dictionary. *)
Lemma unlist_run cs ch c s :
  bk_for cs s → clientChannels s !! ch = Some c →
  ∃ s', unlist ch c s = (Ok tt, s') ∧ bk_for cs s' ∧ gone c s' ∧
        clientChannels s' = delete ch (clientChannels s) ∧ cc_heap s' = cc_heap s.
Proof.
  intros [Hs Hcs] Hch. destruct (bk_live _ _ _ _ _ _ Hs ch c Hch) as (Hdom & Hcc & [Lf Li Lid]).
  unfold unlist. rewrite run_bind, run_gets. change (the_cc s c) with (hcc (cc_heap s) c).
  destruct (drop_loop field_id_to_channel (λ m s, s <| field_id_to_channel := m |>)
    ltac:(done) ltac:(done) ltac:(by intros []) c (λ fieldId,
    m ← gets field_id_to_channel;
    _ ← lift_option KeyError (m !! fieldId);
    modify (λ s, s <| field_id_to_channel ::= mm_discard fieldId c |>)))
    with (l := (map_to_list (cc_subscribedFields (hcc (cc_heap s) c))).*1) (s := s)
    as (m1 & Hrun1 & Hm1).
  { intros k s' Hk. destruct (mm_get_lookup _ _ _ Hk) as [vs Hvs].
    eexists. autorewrite with run. rewrite Hvs. autorewrite with run. split; [reflexivity|].
    intros k' x. rewrite elem_of_mm_discard. naive_solver. }
  { apply NoDup_fst_map_to_list. }
  { intros f Hf. by apply Lf, elem_of_map_keys. }
  rewrite run_bind, Hrun1.
  set (s1 := s <| field_id_to_channel := m1 |>).
  destruct (drop_loop index_to_channel (λ m s, s <| index_to_channel := m |>)
    ltac:(done) ltac:(done) ltac:(by intros []) c (λ index_key,
    m ← gets index_to_channel;
    _ ← lift_option KeyError (m !! index_key);
    modify (λ s, s <| index_to_channel ::= mm_discard_prune index_key c |>)))
    with (l := (map_to_list (cc_subscribedIndexKeys (hcc (cc_heap s) c))).*1) (s := s1)
    as (m2 & Hrun2 & Hm2).
  { intros k s' Hk. destruct (mm_get_lookup _ _ _ Hk) as [vs Hvs].
    eexists. autorewrite with run. rewrite Hvs. autorewrite with run. split; [reflexivity|].
    intros k' x. rewrite elem_of_mm_discard_prune. naive_solver. }
  { apply NoDup_fst_map_to_list. }
  { intros f Hf. by apply Li, elem_of_map_keys. }
  rewrite run_bind, Hrun2.
  set (s2 := s1 <| index_to_channel := m2 |>).
  destruct (drop_loop id_to_channel (λ m s, s <| id_to_channel := m |>)
    ltac:(done) ltac:(done) ltac:(by intros []) c (λ identity,
    m ← gets id_to_channel;
    whenM (bool_decide (is_Some (m !! identity)))
      (modify (λ s, s <| id_to_channel ::= mm_discard_prune identity c |>))))
    with (l := elements (cc_subscribedIds (hcc (cc_heap s) c))) (s := s2)
    as (m3 & Hrun3 & Hm3).
  { intros k s' Hk. destruct (mm_get_lookup _ _ _ Hk) as [vs Hvs].
    eexists. autorewrite with run. rewrite bool_decide_true by by eexists. cbn [whenM].
    rewrite run_modify. split; [reflexivity|].
    intros k' x. rewrite elem_of_mm_discard_prune. naive_solver. }
  { apply NoDup_elements. }
  { intros i Hi. by apply Lid, elem_of_elements. }
  rewrite run_bind, Hrun3, run_modify. eexists. split; [reflexivity|].
  cbn in Hm2, Hm3. setoid_rewrite elem_of_map_keys in Hm1. setoid_rewrite elem_of_map_keys in Hm2.
  setoid_rewrite elem_of_elements in Hm3.
  assert (gone c (s2 <| id_to_channel := m3 |> <| clientChannels ::= delete ch |>)) as Hgone.
  { split_and!; cbn; intros k.
    - rewrite Hm1. intros [Hin Hno]. by apply Hno, conj, eq_refl; eapply bk_field in Hin.
    - rewrite Hm2. intros [Hin Hno]. by apply Hno, conj, eq_refl; eapply bk_index in Hin.
    - rewrite Hm3. intros [Hin Hno]. by apply Hno, conj, eq_refl; eapply bk_id in Hin. }
  split_and!; [|done|done|done]. split; [|done].
  destruct Hs as [HA HB HC HD HE HQ]. split; cbn; try done.
  - intros f x. rewrite Hm1. naive_solver.
  - intros f x. rewrite Hm2. naive_solver.
  - intros f x. rewrite Hm3. naive_solver.
  - intros ch' x [Hne Hx]%lookup_delete_Some. destruct (HD ch' x Hx) as (Hxd & Hxc & [Lf' Li' Lid']).
    assert (x ≠ c) by congruence. split_and!; [done..|]. split; intros k Hk.
    + rewrite Hm1. naive_solver.
    + rewrite Hm2. naive_solver.
    + rewrite Hm3. naive_solver.
Qed.

Variable clock : nat → Z.
Variable format_exc : exn → string.

Lemma commit_bk cs source kvs pre adds removes keys idxs as_of start guid :
  (∀ c, source = Some c → c ∈ cs) →
  preserves (bk_for (T:=T) cs)
    (_commitAndBroadcastNewTransaction clock source kvs pre adds removes keys idxs as_of start guid).
Proof.
  intros Hsource. unfold _commitAndBroadcastNewTransaction.
  do 4 (apply preserves_bind; [bk_pres|intros ?]). cbv zeta.
  apply preserves_bind; [|intros _; bk_pres].
  destruct source as [c|]; [|bk_pres]. apply preserves_forM. intros add _.
  by apply subscribe_to_created_bk, Hsource.
Qed.

Lemma _handleNewTransaction_bk cs source kvs pre adds removes keys idxs as_of start nl guid :
  (∀ c, source = Some c → c ∈ cs) →
  preserves (bk_for (T:=T) cs)
    (_handleNewTransaction clock source kvs pre adds removes keys idxs as_of start nl guid).
Proof.
  intros Hsource. unfold _handleNewTransaction. apply preserves_tryM; [|intros e; bk_pres].
  apply preserves_bind; [by apply commit_bk|intros]. bk_pres.
Qed.
#[local] Hint Extern 1 (preserves _ (_handleNewTransaction _ None _ _ _ _ _ _ _ _ _ _)) =>
  (apply _handleNewTransaction_bk; intros ? [=]) : py.



(** *** A dropped connection stays out *)

Lemma gone_add_id c channel i (k : M (Server T) unit) :
  channel ≠ c → preserves (gone c) k →
  preserves (gone c) (modify (λ s : Server T, s <| id_to_channel ::= mm_add i channel |>);; k).
Proof.
  intros Hne Hk. apply preserves_bind; [|intros _; done]. apply preserves_modify.
  intros s (Hf & Hi & Hid). split_and!; [done..|]. intros k'. cbn. rewrite elem_of_mm_add.
  intros [[_ ?]|?]; [congruence|]. by apply (Hid k').
Qed.

Lemma grow_index_subscriptions_gone c tid add acc :
  preserves (gone c) (grow_index_subscriptions tid add acc).
Proof.
  unfold grow_index_subscriptions. destruct add as [ix ids], acc as [[kvs adds] trig].
  apply preserves_gets_J with (J := λ itc s, gone c s ∧ ∀ channels, itc !! ix = Some channels → c ∉ channels).
  - intros s Hs. split; [done|]. intros channels Hix Hin. destruct Hs as (_ & Hi & _).
    apply (Hi ix). unfold mm_get. by rewrite Hix.
  - by intros itc s [].
  - intros itc. destruct (itc !! ix) as [channels|] eqn:Hix; [|bk_pres].
    intros s [Hs Hc]. specialize (Hc _ eq_refl). split; [|by intros ? [= <-]].
    revert s Hs. match goal with |- ∀ s, gone c s → gone c (?m s).2 => change (preserves (gone c) m) end.
    apply preserves_bind; [|intros; bk_pres].
    apply preserves_foldM. intros x [new trig'] Hx. apply preserves_bind; [bk_pres|intros cc]. cbv zeta.
    apply preserves_bind; [|intros; bk_pres]. apply preserves_forM. intros i _.
    apply gone_add_id; [intros ->; by apply elem_of_elements in Hx|bk_pres].
Qed.
#[local] Hint Resolve grow_index_subscriptions_gone : py.

Lemma _handleNewTransaction_gone c kvs pre adds removes keys idxs as_of start nl guid :
  preserves (gone c)
    (_handleNewTransaction clock None kvs pre adds removes keys idxs as_of start nl guid).
Proof. bk_pres. Qed.

Lemma _handleNewTransaction_clients chans kvs pre adds removes keys idxs as_of start nl guid :
  preserves (λ s, clientChannels s = chans)
    (_handleNewTransaction clock None kvs pre adds removes keys idxs as_of start nl guid).
Proof. bk_pres. Qed.
#[local] Hint Resolve _handleNewTransaction_gone _handleNewTransaction_clients : py.

Lemma dropConnection_eq ch c s :
  clientChannels s !! ch = Some c →
  dropConnection clock ch s =
    (unlist ch c;; forM (elements (cc_dependentConnections (the_cc s c))) (_dropConnectionEntry clock)) s.
Proof.
  intros Hch. unfold dropConnection, unlist. rewrite run_bind, run_gets. rewrite Hch.
  rewrite !run_bind, !run_gets, !run_bind.
  repeat (match goal with |- context [forM ?l ?f ?s] => destruct (forM l f s) as [[[]|?] ?] end;
    [|done]; rewrite ?run_bind). rewrite run_modify. done.
Qed.

(** Dropping a registered connection: whatever becomes of its connection objects, the
    channel is no longer registered, the connection is in no dictionary of
    subscribers, and the books of all other connections balance. *)
Lemma dropConnection_drops cs ch c s :
  bk_for cs s → clientChannels s !! ch = Some c →
  let s' := (dropConnection clock ch s).2 in
  bk_for cs s' ∧ gone c s' ∧ clientChannels s' = delete ch (clientChannels s).
Proof.
  intros Hs Hch s'. destruct (unlist_run cs ch c s Hs Hch) as (s1 & Hrun & Hs1 & Hgone & Hchans & _).
  unfold s'. rewrite (dropConnection_eq ch c) by done. rewrite run_bind, Hrun.
  generalize (elements (cc_dependentConnections (the_cc s c))). intros l.
  assert (preserves (bk_for cs) (forM l (_dropConnectionEntry clock))) as H1 by bk_pres.
  assert (preserves (gone c) (forM l (_dropConnectionEntry clock))) as H2 by bk_pres.
  assert (preserves (λ s, clientChannels s = clientChannels s1)
    (forM l (_dropConnectionEntry clock))) as H3 by bk_pres.
  rewrite <-Hchans. split_and!; [by apply H1|by apply H2|by apply H3].
Qed.

Lemma dropConnection_bk cs ch : preserves (bk_for (T:=T) cs) (dropConnection clock ch).
Proof.
  intros s Hs. destruct (clientChannels s !! ch) as [c|] eqn:Hch.
  - by apply (dropConnection_drops cs ch c s).
  - unfold dropConnection. rewrite run_bind, run_gets, Hch. done.
Qed.

Lemma new_cc_bk cs ch c0 root tid :
  preserves (bk_for (T:=T) cs) (c ← new_cc (new_ConnectedChannel tid ch c0 root);
     modify (λ s, s <| clientChannels ::= <[ch := c]> |>)).
Proof.
  intros s [Hs Hcs]. unfold new_cc. autorewrite with run.
  set (c := fresh (dom (cc_heap s))).
  assert (c ∉ dom (cc_heap s)) as Hc by apply is_fresh.
  assert (hcc (cc_heap s) c = new_ConnectedChannel 0 0 0 0) as Hold.
  { unfold hcc. by rewrite (not_elem_of_dom_1 _ _ Hc). }
  set (cc := new_ConnectedChannel tid ch c0 root).
  destruct Hs as [HA HB HC HD HE HQ]. split; [split|]; cbn; try done.
  - intros f x Hx. rewrite hcc_insert. case_decide; [subst x|by apply HA].
    apply HA in Hx. by rewrite Hold in Hx.
  - intros f x Hx. rewrite hcc_insert. case_decide; [subst x|by apply HB].
    apply HB in Hx. by rewrite Hold in Hx.
  - intros f x Hx. rewrite hcc_insert. case_decide; [subst x|by apply HC].
    apply HC in Hx. by rewrite Hold in Hx.
  - intros ch' x Hx. rewrite dom_insert_L, hcc_insert.
    apply lookup_insert_Some in Hx as [[<- <-]|[Hne Hx]].
    + rewrite decide_True by done. split; [apply elem_of_union_l, elem_of_singleton; done|].
      split; [done|]. split; cbn; intros k; rewrite ?lookup_empty; [by intros []..|set_solver].
    + destruct (HD ch' x Hx) as (Hd & Hch & Hl). rewrite decide_False by (intros ->; done).
      split_and!; [by apply elem_of_union_r|done|done].
  - intros x. rewrite hcc_insert. case_decide; [done|apply HE].
  - intros x msg Hx. rewrite hcc_insert. case_decide; [subst x|by eapply HQ].
    apply HQ in Hx. by rewrite Hold in Hx.
  - intros x Hx. specialize (Hcs x Hx). unfold authed. cbn. rewrite hcc_insert. case_decide; [subst x|done].
    unfold authed in Hcs. by rewrite Hold in Hcs.
Qed.

Lemma addConnection_bk cs ch : preserves (bk_for (T:=T) cs) (addConnection clock ch).
Proof.
  unfold addConnection. apply preserves_tryM; [|intros; bk_pres].
  apply preserves_bind; [bk_pres|intros [c0 root]]. apply preserves_bind; [bk_pres|intros cur].
  apply preserves_bind2; [apply new_cc_bk|intros c []; bk_pres].
Qed.
#[local] Hint Resolve dropConnection_bk addConnection_bk : py.

Lemma neutral_intro f :
  (∀ cc, cc_subscribedFields (f cc) = cc_subscribedFields cc ∧
         cc_subscribedIndexKeys (f cc) = cc_subscribedIndexKeys cc ∧
         cc_subscribedIds (f cc) = cc_subscribedIds cc ∧ cc_channel (f cc) = cc_channel cc ∧
         (cc_needsAuthentication (f cc) = true → cc_needsAuthentication cc = true)) → neutral f.
Proof. intros Hf. split; intros cc; apply (Hf cc). Qed.

#[local] Hint Extern 1 (preserves _ (upd_cc _ _)) =>
  (apply upd_cc_bk, neutral_intro; intros []; cbn; done) : py.

Lemma _handleSubscriptionInForeground_bk c cs msg :
  c ∈ cs → preserves (bk_for (T:=T) cs) (_handleSubscriptionInForeground c msg).
Proof.
  intros Hc. unfold _handleSubscriptionInForeground. apply preserves_bind; [bk_pres|].
  intros [typedef ids]. cbv zeta. destruct (_ || _); [bk_pres|].
  apply preserves_modify. intros s [Hs Hcs]. split; [|done].
  destruct Hs as [HA HB HC HD HE HQ]. split; try done.
  intros x m. cbn. intros [Hx|Hx]%elem_of_app; [by eapply HQ|].
  apply list_elem_of_singleton in Hx. injection Hx as -> ->. by apply Hcs.
Qed.

Lemma onClientToServerMessage_bk cs c msg :
  preserves (bk_for (T:=T) cs) (onClientToServerMessage clock format_exc c msg).
Proof.
  intros s Hs. unfold onClientToServerMessage. rewrite run_bind, run_gets.
  assert (∀ cs token, preserves (bk_for (T:=T) cs) (tok ← gets auth_token;
    whenM (bool_decide (token = tok)) (upd_cc c authenticate))) as Hau.
  { intros cs' token. bk_pres. }
  destruct (cc_needsAuthentication (the_cc s c)) eqn:Hauth.
  { destruct msg; try exact Hs. by apply Hau. }
  assert (bk_for (c :: cs) s) as [Hbk Hcs].
  { destruct Hs as [Hs Hcs]. split; [done|]. intros x [->|Hx]%elem_of_cons; [exact Hauth|by apply Hcs]. }
  match goal with |- bk_for cs (?m s).2 => enough (preserves (bk_for (c :: cs)) m) as Hm end.
  { destruct (Hm s (conj Hbk Hcs)) as [Hbk' Hcs']. split; [done|]. intros x Hx. apply Hcs'.
    by apply elem_of_cons; right. }
  destruct msg; try solve [bk_pres].
  - unfold completeTransaction, extractTransactionData.
    apply preserves_bind; [|intros [[] ?]; bk_pres]. apply preserves_tryM; [|intros; bk_pres].
    do 3 (apply preserves_bind; [bk_pres|intros ?]). apply preserves_bind; [|intros; bk_pres].
    case_bool_decide; [bk_pres|]. apply _handleNewTransaction_bk. intros x [= <-].
    by apply elem_of_cons; left.
  - apply _handleSubscriptionInForeground_bk. by apply elem_of_cons; left.
Qed.

Lemma background_start_bk cs c msg :
  c ∈ cs → preserves (bk_for (T:=T) cs) (background_start c msg).
Proof.
  intros Hc. unfold background_start, _completeLazySubscription.
  apply preserves_bind; [bk_pres|intros [typedef ids]].
  do 2 (apply preserves_bind; [bk_pres|intros ?]).
  case_bool_decide; [bk_pres|]. destruct (sm_isLazy msg); [|bk_pres].
  apply preserves_bind; [bk_pres|intros ?]. apply preserves_bind; [|intros; bk_pres].
  do 2 (apply preserves_bind; [bk_pres|intros ?]).
  apply preserves_bind; [by apply _markSubscriptionComplete_bk|intros; bk_pres].
Qed.

Lemma background_batch_bk cs t :
  bt_channel t ∈ cs → preserves (bk_for (T:=T) cs) (background_batch t).
Proof.
  intros Hc. unfold background_batch. do 2 (apply preserves_bind; [bk_pres|intros ?]).
  case_bool_decide; [|bk_pres].
  apply preserves_bind; [by apply _markSubscriptionComplete_bk|intros; bk_pres].
Qed.

(** *** Reachable states *)

Definition task_channel (t : option BackgroundTask) : list ChannelRef :=
  match t with Some t => [bt_channel t] | None => [] end.

Definition bk_world (w : World (T:=T)) : Prop := bk_for (task_channel (w_task w)) (w_server w).

Lemma background_start_task c msg s :
  wp (background_start c msg) (λ t _, ∀ t', t = Some t' → bt_channel t' = c) (λ _ _, True) (s : Server T).
Proof.
  unfold background_start. 
  assert (∀ {A B} (m : M (Server T) A) (f : A → M (Server T) B) Q s,
    (∀ a s', wp (f a) Q (λ _ _, True) s') → wp (m ≫= f) Q (λ _ _, True) s) as Hbind.
  { intros A B m f Q s' Hf. apply wp_bind. unfold wp at 1. destruct (m s') as [[?|?] ?]; auto. }
  apply Hbind. intros [typedef ids] s1. apply Hbind. intros cc s2. apply Hbind. intros chans s3.
  case_bool_decide; [done|]. destruct (sm_isLazy msg).
  - apply Hbind. intros ? s4. apply Hbind. intros ? s5. done.
  - apply Hbind. intros ? s4. apply wp_ret. by intros t' [= <-].
Qed.

Lemma background_batch_task t s :
  wp (background_batch t) (λ t1 _, ∀ t', t1 = Some t' → bt_channel t' = bt_channel t) (λ _ _, True)
    (s : Server T).
Proof.
  unfold background_batch. 
  assert (∀ {A B} (m : M (Server T) A) (f : A → M (Server T) B) Q s,
    (∀ a s', wp (f a) Q (λ _ _, True) s') → wp (m ≫= f) Q (λ _ _, True) s) as Hbind.
  { intros A B m f Q s' Hf. apply wp_bind. unfold wp at 1. destruct (m s') as [[?|?] ?]; auto. }
  cbv zeta. apply Hbind. intros remaining s1. apply Hbind. intros ? s2.
  case_bool_decide.
  - apply Hbind. intros ? s3. apply Hbind. intros ? s4. done.
  - apply wp_ret. by intros t' [= <-].
Qed.

Lemma run_op_bk op w : bk_world w → bk_world (run_op clock format_exc op w).
Proof.
  intros Hw. unfold bk_world in *.
  assert (∀ op, preserves (bk_for (task_channel (w_task w))) (exec clock format_exc op)) as Hexec.
  { intros []; cbn; [apply onClientToServerMessage_bk|bk_pres..]. }
  destruct op; try by apply Hexec. clear Hexec. cbn. unfold subscription_turn.
  destruct (w_task w) as [t|]; cbn in Hw.
  - pose proof (background_batch_bk [bt_channel t] t ltac:(by apply elem_of_cons; left) _ Hw) as Hb.
    pose proof (background_batch_task t (w_server w)) as Ht. unfold wp in Ht.
    destruct (background_batch t (w_server w)) as [[[t'|]|e] s']; cbn in *.
    + by rewrite (Ht t').
    + destruct Hb as [Hb _]. split; [exact Hb|]. by intros ? ?%elem_of_nil.
    + destruct Hb as [Hb _]. split; [exact Hb|]. by intros ? ?%elem_of_nil.
  - unfold next_task. rewrite run_bind, run_gets.
    destruct (subscriptionQueue (w_server w)) as [|[c msg] rest] eqn:Hq.
    { cbn. destruct Hw as [Hw _]. split; [exact Hw|]. by intros ? ?%elem_of_nil. }
    rewrite run_bind, run_modify.
    assert (bk_for [c] (w_server w <| subscriptionQueue := rest |>)) as Hs.
    { destruct Hw as [[HA HB HC HD HE HQ] _]. rewrite Hq in HQ. split.
      - split; try done. intros x m Hx. eapply HQ. apply elem_of_cons. by right.
      - intros x Hx%list_elem_of_singleton. subst x. apply (HQ c msg). apply elem_of_cons. by left. }
    pose proof (background_start_bk [c] c msg ltac:(by apply elem_of_cons; left) _ Hs) as Hb.
    pose proof (background_start_task c msg (w_server w <| subscriptionQueue := rest |>)) as Ht.
    unfold wp in Ht.
    destruct (background_start c msg _) as [[[t'|]|e] s']; cbn in *.
    + by rewrite (Ht t').
    + destruct Hb as [Hb _]. split; [exact Hb|]. by intros ? ?%elem_of_nil.
    + destruct Hb as [Hb _]. split; [exact Hb|]. by intros ? ?%elem_of_nil.
Qed.

Lemma reachable_bk kvs token watched w :
  reachable clock format_exc kvs token watched w → bk_world w.
Proof.
  induction 1 as [|w op Hr IH Hok]; [|by apply run_op_bk].
  unfold bk_world. cbn.
  assert (preserves (bk_for (T:=T) []) Server_init) as Hinit by bk_pres.
  apply Hinit. split; [|by intros ? ?%elem_of_nil]. split; cbn; intros *; try done. by intros ?%elem_of_nil.
Qed.
End ops.
