(* ===== verification/ServerBroadcast.v ===== *)
(** * Who is told of a transaction

    Properties of the subscriptions in reachable states, and of the broadcast of a
    committed transaction: every connection subscribed to a field it writes or to an
    object it mentions is sent it exactly once, and nobody else is. *)

From stdpp Require Import options.
From S2P Require Import Prelude Schema Messages Persistence ServerState Server ServerConn ServerOps ServerSubs.

Local Open Scope Z_scope.

Section broadcast.
Context `{Serialization} {T : Type} `{KVStore T}.
#[local] Set Default Proof Using "Type*".

(** ** The broadcast *)

Definition is_transaction (e : Effect) : bool :=
  match e with Wrote _ (Transaction _ _ _ _) => true | _ => false end.

(** the transactions sent so far, in order, with the channels they went to *)
Definition sent (s : Server T) : list Effect := filter (λ e, is_transaction e = true) (effects s).

(** who is subscribed to what a transaction writes or mentions *)
Definition subscriber (ws : WriteSet) (s : Server T) (c : ChannelRef) : Prop :=
  (∃ f, f ∈ ws_fields ws ∧ c ∈ mm_get (field_id_to_channel s) f) ∨
  (∃ i, i ∈ ws_identities ws ∧ c ∈ mm_get (id_to_channel s) i).

(** the connections and dictionaries are [fm], [idm] and [heap], and [E] was sent *)
Definition books (fm : gmap FieldId (gset ChannelRef)) (idm : gmap ObjectId (gset ChannelRef))
    (heap : gmap ChannelRef ConnectedChannel) (E : list Effect) (s : Server T) : Prop :=
  field_id_to_channel s = fm ∧ id_to_channel s = idm ∧ cc_heap s = heap ∧ sent s = E.

Definition sent_is (E : list Effect) (s : Server T) : Prop := sent s = E.

Ltac frame :=
  idtac; lazymatch goal with
  | |- preserves _ (modify _) => apply preserves_modify; intros ? Hframe; exact Hframe
  | |- preserves _ (kv _) => unfold kv; apply preserves_zoom; intros ? Hframe; exact Hframe
  end.
Ltac books_pres := preserve_with frame.

Lemma sent_snoc s e :
  sent (s <| effects ::= λ es, es ++ [e] |>) = sent s ++ (if is_transaction e then [e] else []).
Proof.
  unfold sent. cbn. rewrite filter_app. f_equal. rewrite filter_cons, filter_nil.
  by destruct (is_transaction e).
Qed.

Lemma write_sent_is E c msg :
  (∀ ch, is_transaction (Wrote ch msg) = false) → preserves (sent_is E) (write c msg).
Proof.
  intros Hmsg. unfold write. apply preserves_bind; [apply preserves_gets|intros cc].
  apply preserves_modify. intros s Hs. unfold sent_is. rewrite sent_snoc, Hmsg, app_nil_r. exact Hs.
Qed.
Lemma write_books fm idm heap E c msg :
  (∀ ch, is_transaction (Wrote ch msg) = false) → preserves (books fm idm heap E) (write c msg).
Proof.
  intros Hmsg. unfold write. apply preserves_bind; [apply preserves_gets|intros cc].
  apply preserves_modify. intros s (Hf & Hi & Hh & Hs). split_and!; [exact Hf|exact Hi|exact Hh|].
  rewrite sent_snoc, Hmsg, app_nil_r. exact Hs.
Qed.
#[local] Hint Extern 1 (preserves (sent_is _) (write _ _)) => (apply write_sent_is; done) : py.
#[local] Hint Extern 1 (preserves (books _ _ _ _) (write _ _)) => (apply write_books; done) : py.

(** Sending one message to a list of connections. *)
Lemma send_all_run (l : list ChannelRef) msg (s : Server T) :
  forM l (λ c, sendTransaction c msg) s =
    (Ok tt, s <| effects ::= λ es, es ++ ((λ c, Wrote (cc_channel (the_cc s c)) msg) <$> l) |>).
Proof.
  revert s. induction l as [|c l IH]; intros s.
  - cbn. rewrite app_nil_r. by destruct s.
  - cbn [forM]. unfold bind, sendTransaction, write, emit. rewrite run_bind, run_gets, run_modify.
    unfold sendTransaction, write, emit in IH. rewrite IH. f_equal. cbn.
    f_equal. by rewrite <-(assoc_L (++)).
Qed.

(** The subscribers of the fields written are collected, and nothing is sent yet. *)
Lemma foldM_collect {A} (J : Server T → Prop) (g : A → gset ChannelRef)
    (f : A → gset ChannelRef * gset ChannelRef → M (Server T) (gset ChannelRef * gset ChannelRef)) l acc s :
  (∀ x acc s, J s → wp (f x acc)
     (λ acc' s', J s' ∧ ∀ c, c ∈ acc'.2 ↔ c ∈ acc.2 ∨ c ∈ g x) (λ _ _, True) s) →
  J s →
  wp (foldM l acc f) (λ acc' s', J s' ∧ ∀ c, c ∈ acc'.2 ↔ c ∈ acc.2 ∨ ∃ x, x ∈ l ∧ c ∈ g x)
     (λ _ _, True) s.
Proof.
  intros Hf. revert acc s. induction l as [|x l IH]; intros acc s Hs; cbn [foldM].
  - split; [done|]. intros c. split; [by left|]. intros [?|(y & Hy & _)]; [done|by apply elem_of_nil in Hy].
  - apply wp_bind. eapply wp_mono; [by apply Hf| |done]. intros acc1 s1 [Hs1 Hacc1].
    eapply wp_mono; [by apply IH| |done]. intros acc2 s2 [Hs2 Hacc2]. split; [done|].
    intros c. rewrite Hacc2, Hacc1. setoid_rewrite elem_of_cons. naive_solver.
Qed.

Lemma field_subscribers_spec fields acc fm idm heap E s :
  books fm idm heap E s →
  wp (foldM fields acc field_subscribers)
    (λ acc' s', books fm idm heap E s' ∧
       ∀ c, c ∈ acc'.2 ↔ c ∈ acc.2 ∨ ∃ f, f ∈ fields ∧ c ∈ mm_get fm f) (λ _ _, True) s.
Proof.
  apply (foldM_collect (books fm idm heap E) (mm_get fm)). clear acc s. intros f acc s Hs. unfold field_subscribers.
  apply wp_bind_preserves with (I := books fm idm heap E); [books_pres|done| |done].
  clear s Hs. intros _ s Hs. apply wp_gets_bind. rewrite (proj1 Hs).
  eapply wp_mono; [apply (foldM_collect (books fm idm heap E) (λ c, {[c]})); [|exact Hs]| |done].
  - clear acc s Hs. intros c [priors trig] s Hs. apply wp_gets_bind. apply wp_bind.
    unfold wp. rewrite run_lift_option. destruct (_ !! f); [|done]. split; [done|].
    intros x. cbn. rewrite elem_of_union. naive_solver.
  - intros acc' s' [Hs' Hacc']. split; [done|]. intros c. rewrite Hacc'.
    setoid_rewrite elem_of_singleton. setoid_rewrite elem_of_elements. naive_solver.
Qed.

Lemma yields_books (m : M (Server T) CommitResult) (Q : CommitResult → Server T → Prop) E :
  (∀ fm idm heap, yields (books fm idm heap E) m Q) → yields (sent_is E) m Q.
Proof. intros Hm s Hs. by apply (Hm (field_id_to_channel s) (id_to_channel s) (cc_heap s)). Qed.

Lemma elem_of_union_list_fmap (idm : gmap ObjectId (gset ChannelRef)) (ids : list ObjectId) c :
  c ∈ ⋃ ((λ i, mm_get idm i) <$> ids) ↔ ∃ i, i ∈ ids ∧ c ∈ mm_get idm i.
Proof.
  rewrite elem_of_union_list. setoid_rewrite list_elem_of_fmap. naive_solver.
Qed.

Variable clock : nat → Z.

Ltac yield_step :=
  lazymatch goal with
  | |- yields _ (mbind _ (foldM (elements (ws_fields _)) _ _)) _ => fail
  | |- yields _ (mbind _ _) _ =>
      eapply yields_bind; [apply yields_preserves; solve [books_pres]|intros ?]
  | |- yields _ (match ?x with _ => _ end) _ => destruct x eqn:?
  | |- yields _ (let _ := _ in _) _ => cbv zeta
  end.

Lemma commit_yields_sent E source key_value pre adds removes keys idxs as_of start guid :
  let ws := write_set key_value (nonempty adds) (nonempty removes) in
  yields (sent_is E)
    (_commitAndBroadcastNewTransaction clock source key_value pre adds removes keys idxs as_of
       start guid)
    (λ r s', r.1.1.1 = true → ∃ (X : gset ChannelRef) kvs' adds',
       sent s' = E ++ ((λ c, Wrote (cc_channel (the_cc s' c))
          (Transaction kvs' adds' (elements <$> nonempty removes) r.1.2)) <$> elements X) ∧
       ∀ c, c ∈ X ↔ subscriber ws s' c).
Proof.
  intros ws. unfold _commitAndBroadcastNewTransaction. repeat yield_step.
  - by intros s Hs.
  - intros s0 Hs0.
    set (fm := field_id_to_channel s0). set (idm := id_to_channel s0). set (heap := cc_heap s0).
    assert (books fm idm heap E s0) as Hs by done. clearbody fm idm heap.
    apply wp_bind. eapply wp_mono; [by apply field_subscribers_spec| |done].
    intros [priors trig] s [Hb Htrig]. cbn in Htrig. clear s0 Hs0 Hs.
    apply wp_gets_bind. cbv zeta. rewrite (proj1 (proj2 Hb)).
    set (X := trig ∪ _).
    do 4 (apply wp_bind_preserves with (I := books fm idm heap E);
      [books_pres|exact Hb|clear s Hb; intros ? s Hb|done]; cbv zeta).
    eapply wp_bind_ok; [apply send_all_run|].
    set (new := (λ c, Wrote (cc_channel (the_cc s c)) _) <$> elements X).
    assert (books fm idm heap (E ++ new) (s <| effects ::= λ es, es ++ new |>)) as Hb'.
    { destruct Hb as (Hf & Hi & Hh & Hsent). split_and!; [exact Hf|exact Hi|exact Hh|].
      unfold sent. cbn. rewrite filter_app. f_equal; [exact Hsent|].
      unfold new. generalize (elements X). intros l. induction l as [|c l IH]; [done|].
      rewrite fmap_cons, filter_cons_True by done. by f_equal. }
    assert (new = (λ c, Wrote (cc_channel (hcc heap c))
       (Transaction g2 (elements <$> g3) (elements <$> nonempty removes) a0)) <$> elements X) as Hnew.
    { unfold new. destruct Hb as (_ & _ & <- & _). done. }
    clearbody new. revert Hb'. generalize (s <| effects ::= λ es, es ++ new |>). clear s Hb. intros s Hb.
    do 5 (apply wp_bind_preserves with (I := books fm idm heap (E ++ new));
      [books_pres|exact Hb|clear s Hb; intros ? s Hb|done]).
    apply wp_gets_bind, wp_ret. intros _.
    destruct Hb as (Hf & Hi & Hh & Hsent).
    exists X, g2, (elements <$> g3). split.
    + cbn. rewrite Hsent, Hnew. unfold the_cc. rewrite Hh. done.
    + intros c. unfold X, subscriber. rewrite Hf, Hi, elem_of_union, Htrig, elem_of_union_list_fmap.
      setoid_rewrite elem_of_elements. fold ws. split.
      * intros [[?%elem_of_empty|?]|?]; [done|by left|by right].
      * intros [?|?]; [by left; right|by right].
Qed.

(** C3. A committed transaction is sent, under its number and with its removals, exactly
    once to each connection that is subscribed to a field it writes or to an object it
    mentions, and to no other. *)
Theorem broadcast_reaches_subscribers s source key_value pre adds removes keys idxs as_of start guid
    bk tid conns s1 :
  _commitAndBroadcastNewTransaction clock source key_value pre adds removes keys idxs as_of start guid s
    = (Ok ((true, bk), tid, conns), s1) →
  ∃ (X : gset ChannelRef) kvs' adds',
    sent s1 = sent s ++ ((λ c, Wrote (cc_channel (the_cc s1 c))
       (Transaction kvs' adds' (elements <$> nonempty removes) tid)) <$> elements X) ∧
    ∀ c, c ∈ X ↔ subscriber (write_set key_value (nonempty adds) (nonempty removes)) s1 c.
Proof.
  intros Hcommit.
  pose proof (commit_yields_sent (sent s) source key_value pre adds removes keys idxs as_of start guid
    s eq_refl) as Hwp.
  unfold wp in Hwp. rewrite Hcommit in Hwp. by apply Hwp.
Qed.

(** ** What a growing subscription adds to a transaction *)

Lemma zip_keys_lookup (keys : list ObjectFieldId) (vals : list (option bytes)) o :
  o ∉ keys → (list_to_map (zip keys vals) : gmap ObjectFieldId (option bytes)) !! o = None.
Proof.
  intros Ho. apply not_elem_of_list_to_map_1. intros ([o' v] & -> & Hin)%list_elem_of_fmap.
  by apply Ho; apply elem_of_zip_l in Hin.
Qed.

Lemma wp_bind_any {A B} (m : M (Server T) A) (f : A → M (Server T) B) Q s :
  (∀ a s', wp (f a) Q (λ _ _, True) s') → wp (m ≫= f) Q (λ _ _, True) s.
Proof. intros Hf. apply wp_bind. unfold wp at 1. destruct (m s) as [[?|?] ?]; auto. Qed.

(** When a transaction makes an index subscription grow, the values of the new objects
    are added to it, but never the index entries of those objects: the reverse entries
    are read under keys that mark an index value, and looked up under keys that do
    not. *)
Theorem increase_adds_no_index_entries s channel indexKey newIds key_value set_adds kvs' adds' s' :
  _increaseBroadcastTransactionToInclude channel indexKey newIds key_value set_adds s
    = (Ok (kvs', adds'), s') →
  adds' = set_adds.
Proof.
  intros Hrun.
  enough (wp (_increaseBroadcastTransactionToInclude channel indexKey newIds key_value set_adds)
    (λ r _, r.2 = set_adds) (λ _ _, True) s) as Hwp.
  { unfold wp in Hwp. by rewrite Hrun in Hwp. }
  clear Hrun. unfold _increaseBroadcastTransactionToInclude. cbv zeta.
  do 5 (apply wp_bind_any; intros ? ?).
  apply wp_bind. eapply wp_mono; [apply (wp_foldM _ _ _ (λ acc _, acc = set_adds) (λ _ _, True))| |done].
  - done.
  - intros index_name acc s1 _ ->. apply wp_bind_any. intros fieldId s2.
    apply (wp_foldM _ _ _ (λ acc _, acc = set_adds) (λ _ _, True)); [done|].
    intros ident acc s3 _ ->. apply wp_bind_any. intros fid s4. apply wp_ret.
    rewrite zip_keys_lookup; [done|].
    intros (? & (j & [=] & _)%list_elem_of_fmap & _)%list_elem_of_bind.
  - intros acc s1 ->. done.
Qed.

(** ** The books, in reachable states *)

Variable format_exc : exn → string.

(** C4. In every reachable state the dictionaries name a registered connection under
    exactly the fields, index values and objects that its own record names. *)
Theorem subscription_books_balance kvs token watched w ch c :
  reachable clock format_exc kvs token watched w →
  let s := w_server w in
  clientChannels s !! ch = Some c →
  cc_channel (the_cc s c) = ch ∧
  (∀ f, c ∈ mm_get (field_id_to_channel s) f ↔ is_Some (cc_subscribedFields (the_cc s c) !! f)) ∧
  (∀ ix, c ∈ mm_get (index_to_channel s) ix ↔ is_Some (cc_subscribedIndexKeys (the_cc s c) !! ix)) ∧
  (∀ i, c ∈ mm_get (id_to_channel s) i ↔ i ∈ cc_subscribedIds (the_cc s c)).
Proof.
  intros Hr s Hch. destruct (reachable_bk _ _ _ _ _ _ Hr) as [[HA HB HC HD HE HQ] _].
  destruct (HD ch c Hch) as (_ & Hcc & [Lf Li Lid]).
  split_and!; [done|intros k; split..]; auto; [apply HA|apply HB|apply HC].
Qed.

(** Dropping a registered connection never fails half-way through the dictionaries:
    afterwards the channel is not registered and the connection is subscribed to
    nothing, whatever happens to the connection objects it leaves behind. *)
Theorem dropped_connection_is_gone kvs token watched w ch c :
  reachable clock format_exc kvs token watched w →
  clientChannels (w_server w) !! ch = Some c →
  let s' := w_server (run_op clock format_exc (OpDrop ch) w) in
  gone c s' ∧ clientChannels s' = delete ch (clientChannels (w_server w)).
Proof.
  intros Hr Hch s'. pose proof (reachable_bk _ _ _ _ _ _ Hr) as Hbk.
  by destruct (dropConnection_drops clock _ ch c (w_server w) Hbk Hch) as (_ & ? & ?).
Qed.

(** C5. Until it has presented the server's token a connection is subscribed to nothing, and
    its messages neither change the state of the server nor make it write anything. *)
Theorem unauthenticated_is_inert kvs token watched w c msg :
  reachable clock format_exc kvs token watched w →
  let s := w_server w in
  cc_needsAuthentication (the_cc s c) = true →
  (∀ t, msg = Authenticate t → t ≠ auth_token s) →
  gone c s ∧ onClientToServerMessage clock format_exc c msg s = (Ok tt, s).
Proof.
  intros Hr s Hauth Hmsg. destruct (reachable_bk _ _ _ _ _ _ Hr) as [[HA HB HC HD HE HQ] _]. split.
  - destruct (HE c Hauth) as (Ef & Ei & Eid). split_and!; intros k Hk.
    + apply HA in Hk. rewrite Ef in Hk. by destruct Hk.
    + apply HB in Hk. rewrite Ei in Hk. by destruct Hk.
    + apply HC in Hk. rewrite Eid in Hk. by apply elem_of_empty in Hk.
  - unfold onClientToServerMessage. rewrite run_bind, run_gets. fold s. rewrite Hauth.
    destruct msg; try done. rewrite run_bind, run_gets.
    rewrite bool_decide_false by by apply Hmsg. done.
Qed.
End broadcast.

(** ** A run in which the hypotheses hold *)
Import Codec.
Module BroadcastScenario.
Definition clock : nat → Z := Z.of_nat.
Definition format_exc : exn → string := λ _, "Traceback"%string.
Definition key : ObjectFieldId := OFI 7 2 false.

(** three connections: 0 is subscribed to a type, 1 has authenticated, 2 has not *)
Definition ops : list server_op :=
  [OpConnect 0; OpMessage 0 (Authenticate "secret");
   OpMessage 0 (DefineSchema "app" {["Counter" := TypeDef ["k"] [" exists"]]});
   OpMessage 0 (Subscribe "app" "Counter" None false);
   OpConnect 1; OpMessage 1 (Authenticate "secret"); OpConnect 2]%string.
Abbreviation start := (start_world (T:=InMemoryPersistence) clock new_store "secret" false).
Definition w : World (T:=InMemoryPersistence) := run_ops clock format_exc ops start.

Lemma w_reachable : reachable clock format_exc new_store "secret" false w.
Proof.
  do 7 (apply (reach_step clock format_exc); [|by (vm_compute; eauto)]). apply reach_start.
Qed.

Lemma registered : clientChannels (w_server w) !! 0%nat = Some 0%nat.
Proof. vm_compute. reflexivity. Qed.

Abbreviation commit :=
  (_commitAndBroadcastNewTransaction clock None {[key := Some [Byte.x42]]} ∅ ∅ ∅ [] [] 3 None None
    (w_server w)).
Lemma commit_eq : ∃ bk tid conns, commit = (Ok ((true, bk), tid, conns), commit.2).
Proof. do 3 eexists. apply outcome_eta. vm_compute. reflexivity. Qed.

Abbreviation increase :=
  (_increaseBroadcastTransactionToInclude 0 (IXI 3 [Byte.x01]) {[7]} ∅ ∅ (w_server w)).
Lemma increase_eq : ∃ kvs' adds', increase = (Ok (kvs', adds'), increase.2).
Proof.
  destruct (ok_eta increase) as [[kvs' adds'] Hrun]; [vm_compute; reflexivity|].
  by exists kvs', adds'.
Qed.
End BroadcastScenario.

Lemma broadcast_reaches_subscribers_witness : ∃ tid (X : gset ChannelRef) kvs' adds',
  sent (BroadcastScenario.commit.2) = sent (w_server BroadcastScenario.w) ++
    ((λ c, Wrote (cc_channel (the_cc (BroadcastScenario.commit.2) c))
       (Transaction kvs' adds' (elements <$> nonempty ∅) tid)) <$> elements X) ∧
  ∀ c, c ∈ X ↔ subscriber (write_set {[BroadcastScenario.key := Some [Byte.x42]]} (nonempty ∅) (nonempty ∅))
                 (BroadcastScenario.commit.2) c.
Proof.
  destruct BroadcastScenario.commit_eq as (bk & tid & conns & Hcommit). exists tid.
  exact (broadcast_reaches_subscribers BroadcastScenario.clock _ _ _ _ _ _ _ _ _ _ _ bk tid conns _ Hcommit).
Defined.

Lemma subscription_books_balance_witness :
  0%nat ∈ mm_get (field_id_to_channel (w_server BroadcastScenario.w)) 0 ↔
  is_Some (cc_subscribedFields (the_cc (w_server BroadcastScenario.w) 0%nat) !! 0).
Proof.
  exact (proj1 (proj2 (subscription_books_balance BroadcastScenario.clock BroadcastScenario.format_exc
    _ _ _ _ 0%nat 0%nat BroadcastScenario.w_reachable BroadcastScenario.registered)) 0).
Defined.

Lemma dropped_connection_is_gone_witness :
  gone 0%nat (w_server (run_op BroadcastScenario.clock BroadcastScenario.format_exc (OpDrop 0%nat)
    BroadcastScenario.w)).
Proof.
  exact (proj1 (dropped_connection_is_gone BroadcastScenario.clock BroadcastScenario.format_exc
    _ _ _ _ 0%nat 0%nat BroadcastScenario.w_reachable BroadcastScenario.registered)).
Defined.

Lemma unauthenticated_is_inert_witness :
  onClientToServerMessage BroadcastScenario.clock BroadcastScenario.format_exc 2%nat
    (Subscribe "app" "Counter" None false) (w_server BroadcastScenario.w)
  = (Ok tt, w_server BroadcastScenario.w).
Proof.
  apply (unauthenticated_is_inert BroadcastScenario.clock BroadcastScenario.format_exc
    new_store "secret" false BroadcastScenario.w 2%nat (Subscribe "app" "Counter" None false)).
  - apply BroadcastScenario.w_reachable.
  - vm_compute. reflexivity.
  - intros t [=].
Defined.

Lemma increase_adds_no_index_entries_witness : ∃ kvs' adds',
  BroadcastScenario.increase = (Ok (kvs', adds'), BroadcastScenario.increase.2) ∧ adds' = ∅.
Proof.
  destruct BroadcastScenario.increase_eq as (kvs' & adds' & Hrun). exists kvs', adds'.
  exact (conj Hrun (increase_adds_no_index_entries _ _ _ _ _ _ kvs' adds' _ Hrun)).
Defined.
