(* ===== verification/ServerOrder.v ===== *)
(** * The order in which clients hear of transactions

    Every message that carries a transaction number (a transaction, the growth or the
    completion of a subscription, the first message of a connection) carries the
    number of the moment at which it is written.  The numbers written, over all
    channels, therefore never decrease. *)

From stdpp Require Import options.
From S2P Require Import Prelude Schema Messages Persistence ServerState Server ServerConn ServerOps.

Local Open Scope Z_scope.

Definition number (e : Effect) : option Z :=
  match e with
  | Wrote _ (Transaction _ _ _ tid) | Wrote _ (SubscriptionIncrease _ _ _ _ tid)
  | Wrote _ (SubscriptionComplete _ _ _ tid) | Wrote _ (Initialize tid _ _) => Some tid
  | _ => None
  end.

Definition numbers (es : list Effect) : list Z := omap number es.

Record in_order (es : list Effect) (cur : Z) : Prop := {
  io_sorted : StronglySorted Z.le (numbers es);
  io_bound : Forall (λ n, n <= cur) (numbers es);
}.

Lemma in_order_snoc es cur e :
  in_order es cur → (∀ n, number e = Some n → n = cur) → in_order (es ++ [e]) cur.
Proof.
  intros [Hs Hb] He. unfold numbers in *. split; unfold numbers; rewrite omap_app; cbn;
    destruct (number e) as [n|]; rewrite ?app_nil_r; try done.
  - rewrite (He n) by done. clear He. induction (omap number es) as [|x l IH]; cbn.
    + by repeat constructor.
    + apply StronglySorted_inv in Hs as [Hs Hx]. apply Forall_cons in Hb as [Hbx Hb].
      constructor; [by apply IH|]. apply Forall_app. split; [done|by repeat constructor].
  - apply Forall_app. split; [done|]. rewrite (He n) by done. by repeat constructor.
Qed.

Lemma in_order_mono es cur cur' : in_order es cur → cur <= cur' → in_order es cur'.
Proof.
  intros [Hs Hb] Hle. split; [done|]. eapply Forall_impl; [exact Hb|]. cbn. lia.
Qed.

Section order.
Context `{Serialization} {T : Type} `{KVStore T}.
#[local] Set Default Proof Using "Type*".

Definition ordered (s : Server T) : Prop := in_order (effects s) (cur_transaction_num s).
Definition ordered_at (n : Z) (s : Server T) : Prop := ordered s ∧ cur_transaction_num s = n.

Lemma emit_ordered e : number e = None → preserves ordered (emit e).
Proof.
  intros He. apply preserves_modify. intros s Hs. apply in_order_snoc; [exact Hs|].
  intros m Hm. by rewrite He in Hm.
Qed.
Lemma emit_ordered_at n e : (∀ m, number e = Some m → m = n) → preserves (ordered_at n) (emit e).
Proof.
  intros He. apply preserves_modify. intros s [Hs Hn]. split; [|exact Hn].
  apply in_order_snoc; [exact Hs|]. intros m Hm. rewrite (He m Hm). symmetry. exact Hn.
Qed.
Lemma write_ordered c msg : (∀ ch, number (Wrote ch msg) = None) → preserves ordered (write c msg).
Proof. intros Hmsg. apply preserves_bind; [apply preserves_gets|intros cc]. by apply emit_ordered. Qed.
Lemma write_ordered_at n c msg :
  (∀ ch m, number (Wrote ch msg) = Some m → m = n) → preserves (ordered_at n) (write c msg).
Proof.
  intros Hmsg. apply preserves_bind; [apply preserves_gets|intros cc]. apply emit_ordered_at, Hmsg.
Qed.

Ltac frame :=
  idtac; lazymatch goal with
  | |- preserves _ (modify _) => apply preserves_modify; intros ? Hframe; exact Hframe
  | |- preserves _ (kv _) => unfold kv; apply preserves_zoom; intros ? Hframe; exact Hframe
  | |- preserves _ (zoom _ _) => apply preserves_zoom; intros ? Hframe; exact Hframe
  end.
Ltac order_pres := preserve_with frame.

#[local] Hint Extern 1 (preserves ordered (write _ _)) => (apply write_ordered; done) : py.
#[local] Hint Extern 1 (preserves ordered (emit _)) => (apply emit_ordered; done) : py.
#[local] Hint Extern 1 (preserves (ordered_at _) (write _ _)) =>
  (apply write_ordered_at; intros ? ?; first [discriminate | by intros [= <-]]) : py.
#[local] Hint Extern 1 (preserves (ordered_at _) (emit _)) =>
  (apply emit_ordered_at; intros ?; discriminate) : py.

Variable clock : nat → Z.
Variable format_exc : exn → string.

Lemma commit_ordered source kvs pre adds removes keys idxs as_of start guid :
  preserves ordered
    (_commitAndBroadcastNewTransaction clock source kvs pre adds removes keys idxs as_of start guid).
Proof.
  unfold _commitAndBroadcastNewTransaction. apply preserves_bind.
  { apply preserves_modify. intros s Hs. eapply in_order_mono; [exact Hs|]. cbn. lia. }
  intros _. apply preserves_gets_bind. intros n.
  change (λ s, ordered s ∧ cur_transaction_num s = n) with (ordered_at n). order_pres.
Qed.
#[local] Hint Resolve commit_ordered : py.

Lemma write_SubscriptionComplete_ordered c schema typename fv :
  preserves ordered (write_SubscriptionComplete (T:=T) c schema typename fv).
Proof.
  apply preserves_gets_bind. intros n.
  change (λ s, ordered s ∧ cur_transaction_num s = n) with (ordered_at n). order_pres.
Qed.
#[local] Hint Resolve write_SubscriptionComplete_ordered : py.

(** a new connection is told the number at which it was made *)
Lemma addConnection_ordered ch : preserves ordered (addConnection clock ch).
Proof.
  unfold addConnection. apply preserves_tryM; [|intros; order_pres].
  apply preserves_bind; [order_pres|intros [c0 root]]. apply preserves_gets_bind. intros n.
  intros s [Hs Hn]. unfold new_cc, sendInitializationMessage, write, emit. autorewrite with run.
  split; [|exact Hn]. apply (in_order_snoc _ _ _ Hs). intros m. unfold the_cc. cbn.
  rewrite lookup_insert_eq. cbn. intros [= <-]. symmetry. exact Hn.
Qed.
#[local] Hint Resolve addConnection_ordered : py.

Lemma exec_ordered op : preserves ordered (exec clock format_exc op).
Proof. destruct op; simpl; order_pres. Qed.
Lemma background_start_ordered c msg : preserves ordered (background_start c msg).
Proof. order_pres. Qed.
Lemma background_batch_ordered task : preserves ordered (background_batch task).
Proof. order_pres. Qed.

(** C6. The transaction numbers in the messages a server writes, in the order it writes
    them and over all its channels, never decrease and never exceed the number of its
    last transaction. *)
Theorem transaction_numbers_in_order kvs token watched w :
  reachable clock format_exc kvs token watched w →
  StronglySorted Z.le (numbers (effects (w_server w))) ∧
  Forall (λ n, n <= cur_transaction_num (w_server w)) (numbers (effects (w_server w))).
Proof.
  intros Hr. enough (ordered (w_server w)) as [? ?] by done. revert Hr.
  apply reachable_inv; auto using exec_ordered, background_start_ordered, background_batch_ordered.
  - order_pres.
  - assert (preserves ordered (Server_init (T:=T))) as Hinit by order_pres.
    apply Hinit. split; constructor.
Qed.
End order.

Import Codec.
Lemma transaction_numbers_in_order_witness :
  StronglySorted Z.le (numbers (effects (w_server (run_op Z.of_nat (λ _, ""%string) (OpConnect 0)
    (start_world (T:=InMemoryPersistence) Z.of_nat new_store "secret" false))))).
Proof.
  apply (transaction_numbers_in_order Z.of_nat (λ _, ""%string) new_store "secret" false).
  apply reach_step; [apply reach_start|]. vm_compute. reflexivity.
Defined.
