(* ===== verification/ServerTypes.v ===== *)
(** * Field ids

    Numeric field ids are what is stored and sent, so an id must never change its
    meaning.  Within one run of a server this holds: every operation keeps the type
    map well formed and keeps the ids it has handed out.  Across a restart it can
    fail, because a subscription to an unknown field adds an id that is not stored. *)

From stdpp Require Import options.
From S2P Require Import Prelude Schema Messages Persistence ServerState Server ServerConn ServerOps.

Local Open Scope Z_scope.

Section types.
Context `{Serialization} {T : Type} `{KVStore T}.
#[local] Set Default Proof Using "Type*".

(** the loaded type map is well formed and extends [tm0] *)
Definition extends (tm0 : TypeMap.TypeMap) (s : Server T) : Prop :=
  ∃ tm, typeMap s = Some tm ∧ TypeMap.wf tm ∧
        TypeMap.fieldDefToId tm0 ⊆ TypeMap.fieldDefToId tm.

Lemma _currentTypeMap_extends tm0 : preserves (extends tm0) _currentTypeMap.
Proof.
  intros s Hs. unfold _currentTypeMap. rewrite run_bind, run_gets.
  pose proof Hs as (tm & Htm & _). by rewrite Htm.
Qed.

Lemma lookupOrAdd_extends tm0 schema typename fieldname :
  preserves (extends tm0) (lookupOrAdd schema typename fieldname).
Proof.
  intros s (tm & Htm & Hwf & Hsub). unfold lookupOrAdd, _currentTypeMap.
  rewrite !run_bind, run_gets, Htm, run_mret.
  pose proof (TypeMap.lookupOrAdd_wf schema typename fieldname tm Hwf) as Hwf'.
  pose proof (λ d i, TypeMap.lookupOrAdd_stable schema typename fieldname tm d i Hwf) as Hst.
  destruct (TypeMap.lookupOrAdd schema typename fieldname tm) as [r tm']; cbn in Hwf', Hst.
  rewrite run_bind, run_modify.
  assert (extends tm0 (s <| typeMap := Some tm' |>)) as Hs'.
  { exists tm'. split_and!; [done..|]. apply map_subseteq_spec. intros d i Hd.
    apply Hst. by eapply lookup_weaken. }
  destruct r; exact Hs'.
Qed.
#[local] Hint Resolve _currentTypeMap_extends lookupOrAdd_extends : py.

Ltac frame :=
  idtac; lazymatch goal with
  | |- preserves _ (modify _) => apply preserves_modify; intros ? Hframe; exact Hframe
  | |- preserves _ (kv _) => unfold kv; apply preserves_zoom; intros ? Hframe; exact Hframe
  | |- preserves _ (zoom _ _) => apply preserves_zoom; intros ? Hframe; exact Hframe
  end.
Ltac types_pres := preserve_with frame.

Variable clock : nat → Z.
Variable format_exc : exn → string.

Lemma exec_extends tm0 op : preserves (extends tm0) (exec clock format_exc op).
Proof. destruct op; simpl; types_pres. Qed.
Lemma background_start_extends tm0 c msg : preserves (extends tm0) (background_start c msg).
Proof. types_pres. Qed.
Lemma background_batch_extends tm0 task : preserves (extends tm0) (background_batch task).
Proof. types_pres. Qed.

(** Whatever a server does, ids are assigned to fields one to one, without gaps, and a
    field that has an id keeps it. *)
Theorem field_ids_are_stable ops w tm :
  typeMap (w_server w) = Some tm → TypeMap.wf tm →
  ∃ tm', typeMap (w_server (run_ops clock format_exc ops w)) = Some tm' ∧ TypeMap.wf tm' ∧
    ∀ schema typename fieldname i,
      TypeMap.fieldIdFor tm schema typename fieldname = Some i →
      TypeMap.fieldIdFor tm' schema typename fieldname = Some i.
Proof.
  intros Htm Hwf.
  enough (extends tm (w_server (run_ops clock format_exc ops w))) as (tm' & Htm' & Hwf' & Hsub).
  { exists tm'. split_and!; [done..|]. intros. by eapply lookup_weaken. }
  apply run_ops_inv; auto using exec_extends, background_start_extends, background_batch_extends.
  - types_pres.
  - by exists tm.
Qed.
End types.

Import Codec.
Module TypesScenario.
Definition clock : nat → Z := Z.of_nat.
Definition format_exc : exn → string := λ _, "Traceback"%string.
Definition start : World (T:=InMemoryPersistence) := start_world clock new_store "secret" false.

Lemma start_wf : ∃ tm, typeMap (w_server start) = Some tm ∧ TypeMap.wf tm.
Proof.
  exists ((TypeMap.lookupOrAdd "core" "Connection" " exists";;
     TypeMap.lookupOrAdd "core" "Connection" "heartbeats_suspended") TypeMap.empty).2.
  split; [vm_compute; reflexivity|].
  assert (preserves TypeMap.wf (TypeMap.lookupOrAdd "core" "Connection" " exists";;
     TypeMap.lookupOrAdd "core" "Connection" "heartbeats_suspended")) as Hp.
  { apply preserves_bind; [apply TypeMap.lookupOrAdd_wf|intros _; apply TypeMap.lookupOrAdd_wf]. }
  apply Hp, TypeMap.wf_empty.
Qed.

(** one client defines the schema [app] with a type [T] of the given fields *)
Definition define (c : ChannelRef) (fields : list string) : server_op :=
  OpMessage c (DefineSchema "app" {["T" := TypeDef fields [" exists"]]})%string.

(** a first run, in which field [b] is subscribed to before it is defined *)
Definition run1 : World :=
  run_ops clock format_exc
    [OpConnect 0; OpMessage 0 (Authenticate "secret"); define 0 ["a"];
     OpMessage 0 (Subscribe "app" "T" (Some ("b", [Byte.x01])) false); define 0 ["a"; "b"]]%string start.

(** a second run on the same store, in which the type has fields [a] and [c] *)
Definition run2 : World :=
  run_ops clock format_exc
    [OpConnect 0; OpConnect 1; OpMessage 0 (Authenticate "secret"); define 0 ["a"; "c"]]%string
    (start_world clock (kvstore (w_server run1)) "secret" false).

Definition id_of (w : World (T:=InMemoryPersistence)) (fieldname : string) : option FieldId :=
  typeMap (w_server w) ≫= λ tm, TypeMap.fieldIdFor tm "app" "T" fieldname.

(** An id that was handed out in one run can come to mean another field in the next:
    the id added for a subscription is not stored, and the later definition of the
    field finds the map unchanged and does not store it either. *)
Theorem field_id_reused_after_restart :
  ∃ i, id_of run1 "b" = Some i ∧ id_of run2 "c" = Some i ∧ id_of run2 "b" = None ∧
       ∃ m, Wrote 0 (SchemaMapping "app" m) ∈ effects (w_server run1) ∧
            m !! FieldDef "app" "T" "b" = Some i.
Proof.
  exists 4. split; [vm_compute; reflexivity|]. split; [vm_compute; reflexivity|].
  split; [vm_compute; reflexivity|].
  exists (list_to_map [(FieldDef "app" "T" "a", 2); (FieldDef "app" "T" "b", 4);
                       (FieldDef "app" "T" " exists", 3)]).
  split; [|reflexivity].
  assert (last (effects (w_server run1)) = Some (Wrote 0 (SchemaMapping "app"
    (list_to_map [(FieldDef "app" "T" "a", 2); (FieldDef "app" "T" "b", 4);
                       (FieldDef "app" "T" " exists", 3)])))) as Hl by (vm_compute; reflexivity).
  apply last_Some in Hl as [l ->]. apply elem_of_app. right. by apply list_elem_of_singleton.
Qed.
End TypesScenario.

Lemma field_ids_are_stable_witness :
  ∃ tm', typeMap (w_server TypesScenario.run1) = Some tm' ∧ TypeMap.wf tm'.
Proof.
  destruct TypesScenario.start_wf as (tm & Htm & Hwf).
  destruct (field_ids_are_stable TypesScenario.clock TypesScenario.format_exc
    [OpConnect 0; OpMessage 0 (Authenticate "secret"); TypesScenario.define 0 ["a"];
     OpMessage 0 (Subscribe "app" "T" (Some ("b", [Byte.x01])) false);
     TypesScenario.define 0 ["a"; "b"]]%string TypesScenario.start tm Htm Hwf) as (tm' & Htm' & Hwf' & _).
  exists tm'. exact (conj Htm' Hwf').
Defined.
