(* ===== verification/ServerStore.v ===== *)
(** * What a commit stores

    The store holds, besides the values of fields and the sets of index members, two
    derived structures: the reverse index, from an object and an index field to the
    value it is filed under, and the metadata index, from a field to the values that
    have members.  [store_ok] says both are exact.  A commit of an admissible
    transaction is shown to refine its abstract effect, [committed_store]: fields
    overwritten, members added and removed, both derived structures exact again. *)

From stdpp Require Import options.
From S2P Require Import Prelude Schema Messages Persistence ServerState Server ServerConn ServerOps.

Local Open Scope Z_scope.

(** ** Folds of insertions *)

Section insert_all.
Context {K V : Type} `{Countable K}.
Definition insert_all (l : list (K * V)) (m : gmap K V) : gmap K V :=
  foldl (λ m p, <[p.1 := p.2]> m) m l.

Lemma insert_all_app l1 l2 m : insert_all (l1 ++ l2) m = insert_all l2 (insert_all l1 m).
Proof. apply foldl_app. Qed.

Lemma insert_all_not_in l m k : k ∉ l.*1 → insert_all l m !! k = m !! k.
Proof.
  revert m. induction l as [|[k' v'] l IH]; intros m Hk; [done|]. cbn.
  rewrite fmap_cons, not_elem_of_cons in Hk. destruct Hk as [Hne Hk].
  fold (insert_all l (<[k' := v']> m)). rewrite IH by done. by rewrite lookup_insert_ne.
Qed.

Lemma insert_all_in l m k v :
  (k, v) ∈ l → (∀ v', (k, v') ∈ l → v' = v) → insert_all l m !! k = Some v.
Proof.
  revert m. induction l as [|[k' v'] l IH]; intros m Hin Hall; [set_solver|]. cbn.
  fold (insert_all l (<[k' := v']> m)).
  destruct (decide (k ∈ l.*1)) as [Hk|Hk].
  - apply IH; [|intros; apply Hall; set_solver].
    apply list_elem_of_fmap in Hk as ([k2 v2] & Heq & Hk2). cbn in Heq; subst k2.
    rewrite <-(Hall v2); [done|set_solver].
  - rewrite insert_all_not_in by done. apply elem_of_cons in Hin as [[= <- <-]|Hin].
    + by rewrite lookup_insert_eq.
    + exfalso. apply Hk, list_elem_of_fmap. by exists (k, v).
Qed.
End insert_all.

(** the reverse-index entries for the members of index sets *)
Definition reverse_entries (g : IndexId → option bytes) (m : gmap IndexId (gset ObjectId)) :
    list (ObjectFieldId * option bytes) :=
  map_to_list m ≫= λ kv, (λ ident, (OFI ident (ixFieldId kv.1) true, g kv.1)) <$> elements kv.2.

Lemma indexReverseLookupKvs_eq adds removes :
  indexReverseLookupKvs adds removes =
    insert_all (reverse_entries (λ ix, Some (indexValue ix)) adds)
      (insert_all (reverse_entries (λ _, None) removes) ∅).
Proof.
  assert (∀ g (m : gmap IndexId (gset ObjectId)) acc,
    foldl (λ res kv, foldl (λ res ident, <[OFI ident (ixFieldId kv.1) true := g kv.1]> res)
             res (elements kv.2)) acc (map_to_list m) = insert_all (reverse_entries g m) acc) as Hgen.
  { intros g m. unfold reverse_entries. induction (map_to_list m) as [|kv l IH]; intros acc; [done|].
    rewrite bind_cons, insert_all_app, <-IH. cbn [foldl]. f_equal.
    generalize acc. induction (elements kv.2) as [|i ids IHi]; intros acc'; [done|]. cbn. apply IHi. }
  unfold indexReverseLookupKvs. by rewrite <-!Hgen.
Qed.

Lemma elem_of_reverse_entries g m o b :
  (o, b) ∈ reverse_entries g m ↔
    ∃ ix, objId o ∈ mm_get m ix ∧ o = OFI (objId o) (ixFieldId ix) true ∧ b = g ix.
Proof.
  unfold reverse_entries. rewrite list_elem_of_bind. split.
  - intros ([ix vs] & (i & Heq & Hi)%list_elem_of_fmap & Hm%elem_of_map_to_list).
    cbn in *. simplify_eq. exists ix. cbn. unfold mm_get. rewrite Hm.
    apply elem_of_elements in Hi. done.
  - intros (ix & Hi & Ho & ->). unfold mm_get in Hi.
    destruct (m !! ix) as [vs|] eqn:Hm; [|set_solver]. cbn in Hi.
    exists (ix, vs). rewrite elem_of_map_to_list. split; [|done].
    apply list_elem_of_fmap. exists (objId o). cbn. rewrite elem_of_elements.
    split; [by rewrite <-Ho|done].
Qed.

Lemma mm_get_nonempty m ix : mm_get (nonempty m) ix = mm_get m ix.
Proof.
  unfold nonempty, mm_get. destruct (m !! ix) as [vs|] eqn:Hm.
  - destruct (decide (vs = ∅)) as [->|Hne].
    + rewrite map_lookup_filter_None_2; [done|]. right. intros x Hx. rewrite Hm in Hx.
      injection Hx as <-. cbn. intros Hf. by apply Hf.
    + by erewrite map_lookup_filter_Some_2.
  - rewrite map_lookup_filter_None_2; [done|by left].
Qed.

Lemma lookup_map_keys `{Countable K1, Countable K2} {A B} (f : K1 → K2) `{!Inj (=) (=) f}
    (g : A → B) (m : gmap K1 A) k :
  (list_to_map ((λ kv, (f kv.1, g kv.2)) <$> map_to_list m) : gmap K2 B) !! f k = g <$> m !! k.
Proof.
  destruct (m !! k) as [a|] eqn:Hm; cbn.
  - apply elem_of_list_to_map_1'.
    + intros y ([k' a'] & [= Hf ->] & Hin%elem_of_map_to_list)%list_elem_of_fmap.
      apply (inj f) in Hf. by simplify_eq.
    + apply list_elem_of_fmap. exists (k, a). by rewrite elem_of_map_to_list.
  - apply not_elem_of_list_to_map_1. rewrite <-list_fmap_compose.
    intros ([k' a'] & Hf & Hin%elem_of_map_to_list)%list_elem_of_fmap.
    cbn in Hf. apply (inj f) in Hf. by simplify_eq.
Qed.

#[export] Instance KIdx_inj : Inj (=) (=) KIdx.
Proof. by intros ?? [= ->]. Qed.
#[export] Instance KObj_inj : Inj (=) (=) KObj.
Proof. by intros ?? [= ->]. Qed.

Lemma lookup_index_keys m ix : index_keys m !! KIdx ix = set_map SInt <$> m !! ix.
Proof. apply (lookup_map_keys KIdx). Qed.

Lemma index_keys_only m k vs :
  index_keys m !! k = Some vs → ∃ ix ids, k = KIdx ix ∧ m !! ix = Some ids ∧ vs = set_map SInt ids.
Proof.
  unfold index_keys. intros Hk%elem_of_list_to_map_2.
  apply list_elem_of_fmap in Hk as ([ix ids] & Heq & Hin%elem_of_map_to_list).
  cbn in *. simplify_eq. eauto.
Qed.

Lemma mm_get_index_keys m ix : mm_get (index_keys m) (KIdx ix) = set_map SInt (mm_get m ix).
Proof. unfold mm_get. rewrite lookup_index_keys. destruct (m !! ix); [done|]. cbn. set_solver. Qed.

Lemma mm_get_index_keys_other m k :
  (∀ ix, k ≠ KIdx ix) → mm_get (index_keys m) k = ∅.
Proof.
  intros Hk. unfold mm_get. destruct (index_keys m !! k) eqn:Hm; [|done].
  apply index_keys_only in Hm as (ix & ? & -> & _). by destruct (Hk ix).
Qed.

Lemma lookup_object_keys m o : object_keys m !! KObj o = m !! o.
Proof.
  unfold object_keys. rewrite (lookup_map_keys KObj (λ v, v)). by destruct (m !! o).
Qed.

Lemma object_keys_only m k v : object_keys m !! k = Some v → ∃ o, k = KObj o.
Proof.
  unfold object_keys. intros Hk%elem_of_list_to_map_2.
  apply list_elem_of_fmap in Hk as ([o v'] & Heq & Hin). cbn in *. simplify_eq. eauto.
Qed.

(** the index values recorded for a field by [metadata] *)
Lemma elem_of_metadata sets k m :
  m ∈ mm_get (metadata sets) k ↔
    ∃ ix, KIdx ix ∈ sets ∧ k = KField (ixFieldId ix) ∧ m = SBytes (indexValue ix).
Proof.
  unfold metadata.
  assert (∀ l acc, m ∈ mm_get (foldl (λ acc k, match k with
            | KIdx ix => mm_add (KField (ixFieldId ix)) (SBytes (indexValue ix)) acc
            | _ => acc end) acc l) k ↔
          m ∈ mm_get acc k ∨
          ∃ ix, KIdx ix ∈ l ∧ k = KField (ixFieldId ix) ∧ m = SBytes (indexValue ix)) as Hgen.
  { induction l as [|k' l IH]; intros acc; cbn; [set_solver|]. rewrite IH.
    setoid_rewrite elem_of_cons.
    destruct k' as [|ix'| |]; rewrite ?elem_of_mm_add; clear IH; naive_solver. }
  rewrite Hgen, mm_get_empty. setoid_rewrite elem_of_elements. set_solver.
Qed.

Lemma metadata_only sets k vs : metadata sets !! k = Some vs → (∃ f, k = KField f) ∧ vs ≠ ∅.
Proof.
  unfold metadata.
  assert (∀ l acc, map_Forall (λ k vs, (∃ f, k = KField f) ∧ vs ≠ ∅) acc →
    map_Forall (λ k vs, (∃ f, k = KField f) ∧ vs ≠ ∅) (foldl (λ acc k, match k with
            | KIdx ix => mm_add (KField (ixFieldId ix)) (SBytes (indexValue ix)) acc
            | _ => acc end) acc l)) as Hgen.
  { induction l as [|k' l IH]; intros acc Hacc; [done|]. cbn. apply IH.
    destruct k' as [|ix'| |]; try done. apply map_Forall_insert_2; [|done].
    split; [by eexists|set_solver]. }
  intros Hk. by apply (Hgen (elements sets) ∅ (map_Forall_empty _)) in Hk.
Qed.

(** What [indexReverseLookupKvs] says of an object and an index field. *)
Lemma reverse_kvs_added adds removes i f v :
  i ∈ mm_get adds (IXI f v) →
  (∀ v', i ∈ mm_get adds (IXI f v') → v' = v) →
  indexReverseLookupKvs adds removes !! OFI i f true = Some (Some v).
Proof.
  intros Hi Hsingle. rewrite indexReverseLookupKvs_eq. apply insert_all_in.
  - apply elem_of_reverse_entries. exists (IXI f v). done.
  - intros b ([f' v'] & Hi' & [= ->] & ->)%elem_of_reverse_entries. cbn in *.
    by rewrite (Hsingle v').
Qed.

Lemma not_in_reverse_entries g m i f :
  (∀ v, i ∉ mm_get m (IXI f v)) → OFI i f true ∉ (reverse_entries g m).*1.
Proof.
  intros Hno ([o b] & Heq & Hin)%list_elem_of_fmap. cbn in Heq. subst o.
  apply elem_of_reverse_entries in Hin as ([f' v'] & Hi & Ho & _). cbn in *. simplify_eq.
  by apply (Hno v').
Qed.

Lemma reverse_kvs_removed adds removes i f v :
  (∀ v', i ∉ mm_get adds (IXI f v')) → i ∈ mm_get removes (IXI f v) →
  indexReverseLookupKvs adds removes !! OFI i f true = Some None.
Proof.
  intros Hno Hi. rewrite indexReverseLookupKvs_eq.
  rewrite insert_all_not_in by by apply not_in_reverse_entries.
  apply insert_all_in.
  - apply elem_of_reverse_entries. by exists (IXI f v).
  - by intros b (ix & _ & _ & ->)%elem_of_reverse_entries.
Qed.

Lemma reverse_kvs_untouched adds removes i f :
  (∀ v, i ∉ mm_get adds (IXI f v)) → (∀ v, i ∉ mm_get removes (IXI f v)) →
  indexReverseLookupKvs adds removes !! OFI i f true = None.
Proof.
  intros Ha Hr. rewrite indexReverseLookupKvs_eq.
  rewrite !insert_all_not_in by by apply not_in_reverse_entries. apply lookup_empty.
Qed.

Lemma reverse_kvs_plain adds removes o :
  isIndexValue o = false → indexReverseLookupKvs adds removes !! o = None.
Proof.
  intros Ho. rewrite indexReverseLookupKvs_eq.
  assert (∀ g m, o ∉ (reverse_entries g m).*1) as Hno.
  { intros g m ([o' b] & Heq' & Hin)%list_elem_of_fmap. cbn in Heq'. subst o'.
    apply elem_of_reverse_entries in Hin as (ix & _ & Heq & _). by rewrite Heq in Ho. }
  rewrite !insert_all_not_in by apply Hno. apply lookup_empty.
Qed.

Lemma filed_or_not (m : gmap IndexId (gset ObjectId)) i f :
  (∃ v, i ∈ mm_get m (IXI f v)) ∨ (∀ v, i ∉ mm_get m (IXI f v)).
Proof.
  destruct (map_choose_or_empty (filter (λ kv, ixFieldId kv.1 = f ∧ i ∈ kv.2) m))
    as [([f' v] & vs & Hm)|Hno].
  - apply map_lookup_filter_Some in Hm as [Hm [<- Hi]]. left. exists v. unfold mm_get. cbn.
    by rewrite Hm.
  - right. intros v Hi. unfold mm_get in Hi. destruct (m !! IXI f v) as [vs|] eqn:Hm; [|set_solver].
    apply (map_filter_empty_not_lookup (M:=gmap IndexId) _ _ (IXI f v) vs Hno); [by split|done].
Qed.

Lemma nonempty_lookup (m : gmap IndexId (gset ObjectId)) ix vs :
  nonempty m !! ix = Some vs → vs ≠ ∅ ∧ vs = mm_get m ix.
Proof.
  intros Hm. apply map_lookup_filter_Some in Hm as [Hm Hne]. unfold mm_get. by rewrite Hm.
Qed.

Lemma elem_of_index_keys m ix x :
  x ∈ mm_get (index_keys (nonempty m)) (KIdx ix) ↔ ∃ i, x = SInt i ∧ i ∈ mm_get m ix.
Proof. rewrite mm_get_index_keys, mm_get_nonempty. set_solver. Qed.

Lemma dom_index_keys m ix : KIdx ix ∈ dom (index_keys (nonempty m)) ↔ mm_get m ix ≠ ∅.
Proof.
  rewrite elem_of_dom, lookup_index_keys, fmap_is_Some. split.
  - intros [vs Hvs]. apply nonempty_lookup in Hvs as [Hne ->]. done.
  - rewrite <-(mm_get_nonempty m ix). unfold mm_get at 1. intros Hne.
    destruct (nonempty m !! ix); [by eexists|done].
Qed.

(** ** The contents of a store *)

Section store.
Context `{SerializationLaws} {T : Type} `{KVStoreLaws T}.
Variable clock : nat → Z.
Variable format_exc : exn → string.
#[local] Set Default Proof Using "Type*".

(** the store holds the strings [F] and the sets [G] *)
Record view_is (F : Key → option bytes) (G : Key → gset SetValue) (t : T) : Prop := {
  vw_wf : kv_wf t;
  vw_str k : is_set_key k = false → kv_str t k = F k;
  vw_members k : is_set_key k = true → kv_members t k = G k;
}.

Lemma view_of t : kv_wf t → view_is (kv_str t) (kv_members t) t.
Proof. by split. Qed.

Lemma view_is_updated F G t t' : kv_wf t' → updated t t' ∅ ∅ ∅ → view_is F G t → view_is F G t'.
Proof.
  intros Hwf' [Hs Hm] [Hwf HF HG]. split; [done| |]; intros k Hk.
  - rewrite Hs by done. rewrite lookup_empty. by apply HF.
  - by rewrite Hm, !mm_get_empty, HG, union_empty_r_L, difference_empty_L by done.
Qed.

(** Versions are kept for object and index keys. *)
Definition versioned (k : Key) : Prop :=
  match k with KObj _ | KIdx _ => True | KField _ | KName _ => False end.
Definition versioned_keys (s : Server T) : Prop :=
  map_Forall (λ k _, versioned k) (version_numbers_timestamps s).

(** [J] is kept by the operations that only read *)
Record reads_keep (J : T → Prop) : Prop := {
  rk_get k t : is_set_key k = false → J t → J (kv_get k t).2;
  rk_getSetMembers k t : is_set_key k = true → J t → J (kv_getSetMembers k t).2;
  rk_getSeveral l t : J t → J (kv_getSeveral (KObj <$> l) t).2;
}.

Lemma reads_keep_view F G : reads_keep (view_is F G).
Proof.
  split.
  - intros k t Hk Ht. destruct (kv_get_ok t k (vw_wf _ _ _ Ht) Hk) as (t' & -> & Hwf & Hu).
    by eapply view_is_updated.
  - intros k t Hk Ht. destruct (kv_getSetMembers_ok t k (vw_wf _ _ _ Ht) Hk) as (t' & -> & Hwf & Hu).
    by eapply view_is_updated.
  - intros l t Ht. destruct (kv_getSeveral_ok t (KObj <$> l) (vw_wf _ _ _ Ht)) as (t' & -> & Hwf & Hu).
    { by apply Forall_fmap, Forall_true. }
    by eapply view_is_updated.
Qed.

Definition stored (J : T → Prop) (s : Server T) : Prop := J (kvstore s) ∧ versioned_keys s.

Ltac stored_frame :=
  idtac; lazymatch goal with
  | |- preserves _ (modify _) => apply preserves_modify; intros ? Hframe; exact Hframe
  | |- preserves _ (zoom identityProducer _) => apply preserves_zoom; intros ? Hframe; exact Hframe
  end.
Ltac stored_pres := preserve_with stored_frame.

Section reads.
Variable J : T → Prop.
Hypothesis HJ : reads_keep J.

Lemma kv_get_stored k : is_set_key k = false → preserves (stored J) (kv (kv_get k)).
Proof.
  intros Hk. apply preserves_zoom. intros s [Hv Hvs]. split; [by apply (rk_get _ HJ)|done].
Qed.
Lemma kv_getSetMembers_stored k :
  is_set_key k = true → preserves (stored J) (kv (kv_getSetMembers k)).
Proof.
  intros Hk. apply preserves_zoom. intros s [Hv Hvs]. split; [by apply (rk_getSetMembers _ HJ)|done].
Qed.
Lemma kv_getSeveral_stored l : preserves (stored J) (kv (kv_getSeveral (KObj <$> l))).
Proof.
  apply preserves_zoom. intros s [Hv Hvs]. split; [by apply (rk_getSeveral _ HJ)|done].
Qed.
#[local] Hint Extern 1 (preserves _ (kv (kv_get _))) => (apply kv_get_stored; reflexivity) : py.
#[local] Hint Extern 1 (preserves _ (kv (kv_getSetMembers _))) =>
  (apply kv_getSetMembers_stored; reflexivity) : py.
#[local] Hint Resolve kv_getSeveral_stored : py.

Lemma gc_key_stored threshold kt acc :
  versioned kt.1 → map_Forall (λ k _, versioned k) acc →
  ∀ s, stored J s → wp (gc_key threshold kt acc)
    (λ acc' s', map_Forall (λ k _, versioned k) acc' ∧ stored J s') (λ _, stored J) s.
Proof.
  intros Hk Hacc s Hs. unfold gc_key. destruct kt as [key ts]. cbn in Hk.
  case_bool_decide; [|split; [by apply map_Forall_insert_2|done]].
  apply wp_bind_preserves with (I := stored J); [|done| |done].
  { destruct key; try done; stored_pres. }
  intros dead s1 Hs1. apply wp_bind_preserves with (I := stored J); [|done|done|done].
  stored_pres.
Qed.

Lemma _garbage_collect_stored i : preserves (stored J) (_garbage_collect clock i).
Proof.
  unfold _garbage_collect. do 3 (apply preserves_bind; [stored_pres|intros ?]).
  apply preserves_whenM; intros _. apply preserves_bind; [stored_pres|intros now]. cbv zeta.
  apply preserves_of_wp. intros s Hs. apply wp_gets_bind, wp_bind.
  eapply wp_mono; [apply (wp_foldM _ _ _ (λ acc s', map_Forall (λ k _, versioned k) acc ∧ stored J s')
    (λ _, stored J))| |done].
  - split; [apply map_Forall_empty|done].
  - intros [key ts] acc s1 Hin [Hacc Hs1]. apply gc_key_stored; [|done..].
    apply elem_of_map_to_list in Hin. by apply (proj2 Hs) in Hin.
  - intros new_ts s1 [Hts [Hs1 _]]. cbn. apply wp_bind. split; done.
Qed.

Lemma _currentTypeMap_stored : preserves (stored J) _currentTypeMap.
Proof. stored_pres. Qed.

Lemma write_versions_stored n t1 (keys : list Key) :
  Forall versioned keys →
  preserves (stored J) (forM keys (λ key,
    modify (λ s : Server T, s <| version_numbers ::= <[key := n]> |>);;
    modify (λ s, s <| version_numbers_timestamps ::= <[key := t1]> |>))).
Proof.
  rewrite Forall_forall. intros Hkeys. apply preserves_forM. intros key Hkey.
  apply preserves_bind; [stored_pres|intros _]. apply preserves_modify. intros s [Hs Hv].
  split; [done|]. apply map_Forall_insert_2; [by apply Hkeys|done].
Qed.
End reads.

Lemma written_versioned (os : list ObjectFieldId) (ixs : list IndexId) :
  Forall versioned ((KObj <$> os) ++ (KIdx <$> ixs)).
Proof. apply Forall_app. split; by apply Forall_fmap, Forall_true. Qed.
#[local] Hint Extern 1 (preserves _ (_garbage_collect _ _)) => (apply _garbage_collect_stored; done) : py.
#[local] Hint Extern 1 (preserves _ _currentTypeMap) => (apply _currentTypeMap_stored; done) : py.
#[local] Hint Extern 1 (preserves _ (forM (_ ++ _) _)) =>
  (apply write_versions_stored; [done|apply written_versioned]) : py.
#[local] Hint Extern 1 (preserves _ (kv (kv_get _))) => (apply kv_get_stored; [done|reflexivity]) : py.
#[local] Hint Extern 1 (preserves _ (kv (kv_getSetMembers _))) =>
  (apply kv_getSetMembers_stored; [done|reflexivity]) : py.
#[local] Hint Extern 1 (preserves _ (kv (kv_getSeveral (KObj <$> _)))) =>
  (apply kv_getSeveral_stored; done) : py.

(** *** Versions are kept for these keys in every reachable state *)

Lemma reads_keep_True : reads_keep (λ _, True).
Proof. by split. Qed.

Lemma kv_True {A} (m : M T A) : preserves (stored (λ _, True)) (kv m).
Proof. apply preserves_zoom. by intros s []. Qed.
#[local] Hint Resolve kv_True : py.

Lemma commit_versioned source kvs pre adds removes keys idxs as_of start guid :
  preserves (stored (λ _, True))
    (_commitAndBroadcastNewTransaction clock source kvs pre adds removes keys idxs as_of start guid).
Proof.
  pose proof reads_keep_True as Hreads. stored_pres.
Qed.
#[local] Hint Resolve commit_versioned : py.

Lemma reachable_versioned kvs token watched w :
  reachable clock format_exc kvs token watched w → versioned_keys (w_server w).
Proof.
  pose proof reads_keep_True as Hreads. intros Hr.
  enough (stored (λ _, True) (w_server w)) as [_ ?] by done.
  revert Hr. apply reachable_inv.
  - intros []; simpl; stored_pres.
  - intros c msg. stored_pres.
  - intros task. stored_pres.
  - stored_pres.
  - done.
  - assert (preserves (stored (λ _, True)) Server_init) as Hinit by stored_pres.
    apply Hinit. split; [done|]. apply map_Forall_empty.
Qed.

(** ** The abstract effect of a commit *)

(** the metadata index lists exactly the index values that have members *)
Definition metadata_ok (t : T) : Prop :=
  ∀ f m, m ∈ kv_members t (KField f) ↔
    ∃ v, m = SBytes v ∧ kv_members t (KIdx (IXI f v)) ≠ ∅.

(** the reverse index names exactly the value an object is filed under *)
Definition reverse_ok (t : T) : Prop :=
  ∀ i f v, kv_str t (KObj (OFI i f true)) = Some v ↔ SInt i ∈ kv_members t (KIdx (IXI f v)).

Record store_ok (t : T) : Prop := {
  so_wf : kv_wf t;
  so_metadata : metadata_ok t;
  so_reverse : reverse_ok t;
}.

(** The transactions a client builds: field values under field keys; additions of
    absent and removals of present members; an object enters one value of an index
    field, and leaves the one it was in. *)
Record tx_ok (t : T) (key_value : gmap ObjectFieldId (option bytes))
    (adds removes : gmap IndexId (gset ObjectId)) : Prop := {
  tx_plain : map_Forall (λ o _, isIndexValue o = false) key_value;
  tx_adds ix i : i ∈ mm_get adds ix → SInt i ∉ kv_members t (KIdx ix);
  tx_removes ix i : i ∈ mm_get removes ix → SInt i ∈ kv_members t (KIdx ix);
  tx_single i f v v' : i ∈ mm_get adds (IXI f v) → i ∈ mm_get adds (IXI f v') → v = v';
  tx_moved i f v v' : i ∈ mm_get adds (IXI f v) → SInt i ∈ kv_members t (KIdx (IXI f v')) →
    i ∈ mm_get removes (IXI f v');
}.

Record committed_store (t : T) (key_value : gmap ObjectFieldId (option bytes))
    (adds removes : gmap IndexId (gset ObjectId)) (t' : T) : Prop := {
  cs_ok : store_ok t';
  cs_fields o : isIndexValue o = false →
    kv_str t' (KObj o) = default (kv_str t (KObj o)) (key_value !! o);
  cs_names n : kv_str t' (KName n) = kv_str t (KName n);
  cs_members ix m : m ∈ kv_members t' (KIdx ix) ↔
    (m ∈ kv_members t (KIdx ix) ∨ ∃ i, m = SInt i ∧ i ∈ mm_get adds ix) ∧
    ¬ ∃ i, m = SInt i ∧ i ∈ mm_get removes ix;
}.

(** Both requests of a commit are admissible, and their effect is the abstract one. *)
Section writes.
Variables (t : T) (key_value : gmap ObjectFieldId (option bytes)).
Variables (set_adds set_removes : gmap IndexId (gset ObjectId)).
Hypothesis Hok : store_ok t.
Hypothesis Htx : tx_ok t key_value set_adds set_removes.
Let adds := nonempty set_adds.
Let removes := nonempty set_removes.

Lemma first_request_wf :
  request_wf t (object_keys (indexReverseLookupKvs adds removes ∪ key_value))
    (index_keys adds) (index_keys removes).
Proof.
  split.
  - intros k v Hk. by apply object_keys_only in Hk as [o ->].
  - intros k vs Hk. apply index_keys_only in Hk as (ix & ids & -> & Hids & ->).
    apply nonempty_lookup in Hids as [Hne ->]. split; [done|]. pose proof (tx_adds _ _ _ _ Htx ix) as Ha.
    clear -Hne Ha. set_solver.
  - intros k vs Hk. apply index_keys_only in Hk as (ix & ids & -> & Hids & ->).
    apply nonempty_lookup in Hids as [Hne ->]. split; [done|].
    pose proof (tx_removes _ _ _ _ Htx ix) as Hr. clear -Hne Hr. set_solver.
Qed.

Variables (t1 : T) (new_sets dropped_sets : gset Key).
Hypothesis Hup : updated t t1 (object_keys (indexReverseLookupKvs adds removes ∪ key_value))
    (index_keys adds) (index_keys removes).
Hypothesis Hnew : ∀ k, k ∈ new_sets ↔ k ∈ dom (index_keys adds) ∧ kv_members t k = ∅.
Hypothesis Hdropped : ∀ k, k ∈ dropped_sets ↔ k ∈ dom (index_keys removes) ∧ kv_members t1 k = ∅.

Lemma first_members ix x :
  x ∈ kv_members t1 (KIdx ix) ↔
    (x ∈ kv_members t (KIdx ix) ∨ ∃ i, x = SInt i ∧ i ∈ mm_get set_adds ix) ∧
    ¬ ∃ i, x = SInt i ∧ i ∈ mm_get set_removes ix.
Proof.
  rewrite (up_members _ _ _ _ _ Hup) by done.
  unfold adds, removes. by rewrite elem_of_difference, elem_of_union, !elem_of_index_keys.
Qed.

Lemma first_field_members f : kv_members t1 (KField f) = kv_members t (KField f).
Proof.
  rewrite (up_members _ _ _ _ _ Hup) by done. rewrite !mm_get_index_keys_other by done. clear. set_solver.
Qed.

Lemma elem_of_new ix : KIdx ix ∈ new_sets ↔ mm_get set_adds ix ≠ ∅ ∧ kv_members t (KIdx ix) = ∅.
Proof. rewrite Hnew. unfold adds. by rewrite dom_index_keys. Qed.
Lemma elem_of_dropped ix :
  KIdx ix ∈ dropped_sets ↔ mm_get set_removes ix ≠ ∅ ∧ kv_members t1 (KIdx ix) = ∅.
Proof. rewrite Hdropped. unfold removes. by rewrite dom_index_keys. Qed.

Lemma removed_nonempty ix : mm_get set_removes ix ≠ ∅ → kv_members t (KIdx ix) ≠ ∅.
Proof.
  intros [i Hi]%set_choose_L. pose proof (tx_removes _ _ _ _ Htx ix i Hi) as Hin. clear -Hin. set_solver.
Qed.

Lemma added_nonempty ix :
  mm_get set_adds ix ≠ ∅ → kv_members t (KIdx ix) = ∅ → kv_members t1 (KIdx ix) ≠ ∅.
Proof.
  intros [i Hi]%set_choose_L He.
  assert (SInt i ∈ kv_members t1 (KIdx ix)) as Hin; [|clear -Hin; set_solver].
  apply first_members. split; [by right; exists i|]. intros (j & [= <-] & Hj).
  pose proof (tx_removes _ _ _ _ Htx ix i Hj) as Hin. rewrite He in Hin. clear -Hin. set_solver.
Qed.

Lemma second_request_wf : request_wf t1 ∅ (metadata new_sets) (metadata dropped_sets).
Proof.
  split.
  - apply map_Forall_empty.
  - intros k vs Hk. pose proof (metadata_only _ _ _ Hk) as [[f ->] Hne]. split_and!; [done..|].
    apply elem_of_disjoint. intros x Hx. rewrite first_field_members.
    assert (x ∈ mm_get (metadata new_sets) (KField f)) as Hx' by (unfold mm_get; by rewrite Hk).
    apply elem_of_metadata in Hx' as ([f' v] & Hin & [= ->] & ->). cbn in *.
    rewrite (so_metadata _ Hok f'). intros (v' & [= <-] & Hmem).
    apply elem_of_new in Hin as [_ ?]. done.
  - intros k vs Hk. pose proof (metadata_only _ _ _ Hk) as [[f ->] Hne]. split_and!; [done..|].
    intros x Hx. apply elem_of_union_l. rewrite first_field_members.
    assert (x ∈ mm_get (metadata dropped_sets) (KField f)) as Hx' by (unfold mm_get; by rewrite Hk).
    apply elem_of_metadata in Hx' as ([f' v] & Hin & [= ->] & ->). cbn in *.
    apply (so_metadata _ Hok). exists v. split; [done|].
    apply elem_of_dropped in Hin as [Hrem _]. by apply removed_nonempty.
Qed.

Variable t2 : T.
Hypothesis Hwf2 : kv_wf t2.
Hypothesis Hup2 : updated t1 t2 ∅ (metadata new_sets) (metadata dropped_sets).

Lemma second_index_members ix : kv_members t2 (KIdx ix) = kv_members t1 (KIdx ix).
Proof.
  rewrite (up_members _ _ _ _ _ Hup2) by done.
  assert (∀ sets, mm_get (metadata sets) (KIdx ix) = ∅) as He.
  { intros sets. apply set_eq. intros x. rewrite elem_of_metadata. split; [|by rewrite elem_of_empty].
    by intros (? & _ & ? & _). }
  rewrite !He. clear. set_solver.
Qed.

Lemma second_str k : is_set_key k = false → kv_str t2 k =
  default (kv_str t k) (object_keys (indexReverseLookupKvs adds removes ∪ key_value) !! k).
Proof.
  intros Hk. rewrite (up_str _ _ _ _ _ Hup2) by done. rewrite lookup_empty. cbn.
  by apply (up_str _ _ _ _ _ Hup).
Qed.

Lemma committed_metadata : metadata_ok t2.
Proof.
  intros f x. rewrite (up_members _ _ _ _ _ Hup2), elem_of_difference, elem_of_union by done.
  rewrite first_field_members, (so_metadata _ Hok f), !elem_of_metadata.
  setoid_rewrite second_index_members. split.
  - intros [[(v & -> & Hne)|([f' v] & Hin & [= ->] & ->)] Hnd].
    + exists v. split; [done|]. intros He. apply Hnd. exists (IXI f v). split_and!; [|done..].
      apply elem_of_dropped. split; [|done].
      intros Hnor. apply set_choose_L in Hne as [y Hy].
      assert (y ∈ kv_members t1 (KIdx (IXI f v))) as Hy1; [|rewrite He in Hy1; clear -Hy1; set_solver].
      apply first_members. split; [by left|]. intros (j & _ & Hj). rewrite Hnor in Hj. clear -Hj. set_solver.
    + exists v. split; [done|]. apply elem_of_new in Hin as [? ?]. by apply added_nonempty.
  - intros (v & -> & Hne). split.
    + destruct (decide (kv_members t (KIdx (IXI f v)) = ∅)) as [He|Hne'].
      * right. exists (IXI f v). split_and!; [|done..]. apply elem_of_new. split; [|done].
        intros Hnoa. apply set_choose_L in Hne as [y Hy]. apply first_members in Hy as [[Hy|(j & _ & Hj)] _].
        -- rewrite He in Hy. clear -Hy. set_solver.
        -- rewrite Hnoa in Hj. clear -Hj. set_solver.
      * left. by exists v.
    + intros ([f' v'] & Hin & [= ->] & [= ->]). apply elem_of_dropped in Hin as [_ ?]. done.
Qed.

Lemma committed_reverse : reverse_ok t2.
Proof.
  intros i f v. rewrite second_index_members, first_members, second_str by done.
  rewrite lookup_object_keys.
  assert (key_value !! OFI i f true = None) as Hkv.
  { destruct (key_value !! OFI i f true) eqn:Hk; [|done]. by apply (tx_plain _ _ _ _ Htx) in Hk. }
  rewrite lookup_union_l by done.
  pose proof (so_reverse _ Hok i f) as Hrev. pose proof Htx as [_ Ha Hr Hs Hm].
  destruct (filed_or_not set_adds i f) as [[v0 Hv0]|Hnoa].
  - rewrite (reverse_kvs_added _ _ i f v0).
    2: { unfold adds. by rewrite mm_get_nonempty. }
    2: { intros v'. unfold adds. rewrite mm_get_nonempty. eauto. }
    cbn. split.
    + intros [= <-]. split; [by right; exists i|]. intros (j & [= <-] & Hj). by apply (Ha (IXI f v0) i Hv0), Hr.
    + intros [[Hin|(j & [= <-] & Hj)] Hnr]; [|f_equal; eauto].
      exfalso. apply Hnr. exists i. split; [done|]. by apply (Hm i f v0).
  - assert (∀ v', i ∉ mm_get adds (IXI f v')) as Hnoa'.
    { intros v'. unfold adds. by rewrite mm_get_nonempty. }
    destruct (filed_or_not set_removes i f) as [[v0 Hv0]|Hnor].
    + rewrite (reverse_kvs_removed _ _ i f v0); [|done|by unfold removes; rewrite mm_get_nonempty].
      cbn. split; [done|]. intros [[Hin|(j & [= <-] & Hj)] Hnr]; [|by apply Hnoa in Hj].
      pose proof (Hr _ _ Hv0) as Hin0. apply Hrev in Hin, Hin0. rewrite Hin in Hin0. injection Hin0 as ->.
      destruct Hnr. by exists i.
    + rewrite reverse_kvs_untouched; [|done|intros v'; unfold removes; by rewrite mm_get_nonempty].
      cbn. rewrite Hrev. split.
      * intros Hin. split; [by left|]. intros (j & [= <-] & Hj). by apply Hnor in Hj.
      * intros [[Hin|(j & [= <-] & Hj)] _]; [done|by apply Hnoa in Hj].
Qed.

Lemma committed : committed_store t key_value set_adds set_removes t2.
Proof.
  split.
  - split; [done|apply committed_metadata|apply committed_reverse].
  - intros o Ho. rewrite second_str by done. rewrite lookup_object_keys.
    rewrite lookup_union_r by by apply reverse_kvs_plain. done.
  - intros n. rewrite second_str by done.
    destruct (object_keys _ !! KName n) eqn:Hn; [|done]. by apply object_keys_only in Hn as [? ?].
  - intros ix x. rewrite second_index_members. apply first_members.
Qed.
End writes.

(** ** The commit *)

Lemma view_updated t u u' kvs adds removes :
  view_is (kv_str t) (kv_members t) u → updated u u' kvs adds removes → updated t u' kvs adds removes.
Proof.
  intros [_ Hstr Hmem] [Hs Hm]. split; intros k Hk; [by rewrite Hs, Hstr|by rewrite Hm, Hmem].
Qed.

Lemma view_request_wf t u kvs adds removes :
  view_is (kv_str t) (kv_members t) u → request_wf t kvs adds removes → request_wf u kvs adds removes.
Proof.
  intros [_ _ Hmem] [Hk Ha Hr]. split; [done| |]; intros k vs Hvs.
  - destruct (Ha k vs Hvs) as (Hkey & Hne & ?). by rewrite Hmem.
  - destruct (Hr k vs Hvs) as (Hkey & Hne & ?). by rewrite Hmem.
Qed.

Lemma view_committed t kvs adds removes t2 u :
  committed_store t kvs adds removes t2 → view_is (kv_str t2) (kv_members t2) u →
  committed_store t kvs adds removes u.
Proof.
  intros [[Hwf Hmeta Hrev] Hf Hn Hm] [Hwf' Hstr Hmem]. split.
  - split; [done| |].
    + intros f m. rewrite Hmem, (Hmeta f m) by done.
      by split; intros (v & -> & Hne); exists v; [rewrite Hmem by done|rewrite Hmem in Hne by done].
    + intros i f v. rewrite Hmem, Hstr by done. apply Hrev.
  - intros o Ho. rewrite Hstr by done. by apply Hf.
  - intros n. rewrite Hstr by done. apply Hn.
  - intros ix m. rewrite Hmem by done. apply Hm.
Qed.

Lemma reads_keep_committed t kvs adds removes : reads_keep (committed_store t kvs adds removes).
Proof.
  assert (∀ u, committed_store t kvs adds removes u → kv_wf u) as Hwf by (by intros u [[? _ _] _ _ _]).
  split.
  - intros k u Hk Hu. apply (view_committed _ _ _ _ u); [done|].
    apply (rk_get _ (reads_keep_view _ _)); [done|]. by apply view_of, Hwf.
  - intros k u Hk Hu. apply (view_committed _ _ _ _ u); [done|].
    apply (rk_getSetMembers _ (reads_keep_view _ _)); [done|]. by apply view_of, Hwf.
  - intros l u Hu. apply (view_committed _ _ _ _ u); [done|].
    apply (rk_getSeveral _ (reads_keep_view _ _)). by apply view_of, Hwf.
Qed.

(** the two writes of a commit, from the store [t], followed by [k] *)
Lemma yields_writes {A} t key_value set_adds set_removes (k : M (Server T) A) Q :
  store_ok t → tx_ok t key_value set_adds set_removes →
  let adds := nonempty set_adds in let removes := nonempty set_removes in
  yields (stored (committed_store t key_value set_adds set_removes)) k Q →
  yields (stored (view_is (kv_str t) (kv_members t)))
    ('(new_sets, dropped_sets) ←
       kv (kv_setSeveral (object_keys (indexReverseLookupKvs adds removes ∪ key_value))
             (index_keys adds) (index_keys removes));
     kv (kv_setSeveral ∅ (metadata new_sets) (metadata dropped_sets));; k) Q.
Proof.
  intros Hok Htx adds removes Hk s [Hview Hvers].
  destruct (kv_setSeveral_ok (kvstore s) _ _ _ (vw_wf _ _ _ Hview)
    (view_request_wf _ _ _ _ _ Hview (first_request_wf t key_value set_adds set_removes Hok Htx)))
    as (t1 & ns & ds & Hrun & Hwf1 & Hup & Hnew & Hdropped).
  pose proof (view_updated _ _ _ _ _ _ Hview Hup) as Hup'.
  assert (∀ k, k ∈ ns ↔ k ∈ dom (index_keys adds) ∧ kv_members t k = ∅) as Hnew'.
  { intros k'. rewrite Hnew. split; intros [Hk' He]; (split; [done|]);
      apply elem_of_dom in Hk' as [vs Hvs]; apply index_keys_only in Hvs as (ix & ? & -> & _);
      by rewrite (vw_members _ _ _ Hview) in *. }
  pose proof (second_request_wf t key_value set_adds set_removes Hok Htx t1 ns ds Hup' Hnew' Hdropped)
    as Hwf2.
  destruct (kv_setSeveral_ok t1 _ _ _ Hwf1 Hwf2) as (t2 & ns2 & ds2 & Hrun2 & Hkwf2 & Hup2 & _ & _).
  pose proof (committed t key_value set_adds set_removes Hok Htx t1 ns ds Hup' Hnew' Hdropped t2 Hkwf2 Hup2)
    as Hdone.
  assert (∀ {B} (m : M T B) s b t', m (kvstore s) = (Ok b, t') → kv m s = (Ok b, s <| kvstore := t' |>))
    as Hkv by (intros B m s' b t' Hm; unfold kv, zoom; by rewrite Hm).
  eapply wp_bind_ok; [by apply Hkv|]. cbv beta iota.
  eapply wp_bind_ok; [by apply Hkv|]. by apply Hk.
Qed.

Ltac yield_step :=
  lazymatch goal with
  | |- yields _ (mbind (λ _, _) (kv (kv_setSeveral _ _ _))) _ => apply yields_writes; [done|done|]
  | |- yields _ (mbind _ _) _ =>
      eapply yields_bind; [apply yields_preserves; solve [stored_pres]|intros ?]
  | |- yields _ (match ?x with _ => _ end) _ => destruct x eqn:?
  | |- yields _ (let _ := _ in _) _ => cbv zeta
  end.

Lemma commit_yields_store t source key_value pre adds removes keys idxs as_of start guid :
  store_ok t → tx_ok t key_value adds removes →
  yields (stored (view_is (kv_str t) (kv_members t)))
    (_commitAndBroadcastNewTransaction clock source key_value pre adds removes keys idxs as_of
       start guid)
    (λ r s', r.1.1.1 = true → committed_store t key_value adds removes (kvstore s')).
Proof.
  intros Hok Htx. pose proof (reads_keep_view (kv_str t) (kv_members t)) as Hreads.
  pose proof (reads_keep_committed t key_value adds removes) as Hreads'.
  unfold _commitAndBroadcastNewTransaction. repeat yield_step.
  - by intros s Hs.
  - by intros s [Hs _] _.
Qed.

(** C2. A committed transaction of the kind that clients build takes the store from one exact
    state to the next: fields are overwritten, index members added and removed, and the reverse
    index and the metadata index describe the result.  Nothing the commit does afterwards, the
    broadcast or the collection of old versions, changes what is stored.  The transaction is
    assumed (tx_ok) to name no derived key among its fields, to add only objects that are not yet
    under the index value and remove only objects that are, to add an object to at most one value
    of an index field, and to remove it from the value it was under before; and the store to be
    exact (store_ok) in a reachable state.  The server itself checks none of this. *)
Theorem commit_refines_store kvs token watched w source key_value pre adds removes keys idxs as_of
    start guid bk tid conns s1 :
  reachable clock format_exc kvs token watched w →
  store_ok (kvstore (w_server w)) →
  tx_ok (kvstore (w_server w)) key_value adds removes →
  _commitAndBroadcastNewTransaction clock source key_value pre adds removes keys idxs as_of
    start guid (w_server w) = (Ok ((true, bk), tid, conns), s1) →
  committed_store (kvstore (w_server w)) key_value adds removes (kvstore s1).
Proof.
  intros Hreach Hok Htx Hcommit.
  assert (stored (view_is (kv_str (kvstore (w_server w))) (kv_members (kvstore (w_server w))))
    (w_server w)) as Hs.
  { split; [apply view_of, Hok|]. by eapply reachable_versioned. }
  pose proof (commit_yields_store _ source key_value pre adds removes keys idxs as_of start guid Hok Htx
    _ Hs) as Hwp.
  unfold wp in Hwp. rewrite Hcommit in Hwp. by apply Hwp.
Qed.

(** ** Transactions that depend on other values *)

(** the stored strings and sets and the versions are those of [s0] *)
Definition unchanged (s0 s : Server T) : Prop :=
  stored (view_is (kv_str (kvstore s0)) (kv_members (kvstore s0))) s ∧
  version_numbers s = version_numbers s0.

Ltac versions_frame :=
  idtac; lazymatch goal with
  | |- preserves _ (modify _) => apply preserves_modify; intros ? Hframe; exact Hframe
  | |- preserves _ (kv _) => unfold kv; apply preserves_zoom; intros ? Hframe; exact Hframe
  end.
Ltac unchanged_step :=
  apply preserves_and; [stored_pres|preserve_with versions_frame].

Lemma bad_values_spec (pre kvs : gmap ObjectFieldId (option bytes)) (t : T) o b :
  pre !! o = Some b →
  (if decide (o ∈ dom kvs) then kv_str t (KObj o) else None) ≠ b →
  bad_values (list_to_map (zip (map_to_list kvs).*1
                (kv_str t <$> (KObj <$> (map_to_list kvs).*1)))) pre ≠ ∅.
Proof.
  intros Hpre Hne. unfold bad_values.
  assert (o ∈ dom (filter (λ kv : ObjectFieldId * option bytes, default None
    ((list_to_map (zip (map_to_list kvs).*1 (kv_str t <$> (KObj <$> (map_to_list kvs).*1)))
        : gmap ObjectFieldId (option bytes)) !! kv.1) ≠ kv.2) pre)) as Hin; [|clear -Hin; set_solver].
  apply elem_of_dom. exists b. apply map_lookup_filter_Some. split; [done|]. cbn.
  rewrite <-list_fmap_compose, lookup_zip_fmap. intros Heq. apply Hne. rewrite <-Heq.
  assert (o ∈ (map_to_list kvs).*1 ↔ o ∈ dom kvs) as Hdom.
  { rewrite list_elem_of_fmap, elem_of_dom. split.
    - intros ([o' v] & -> & Hin%elem_of_map_to_list). by eexists.
    - intros [v Hv]. exists (o, v). by rewrite elem_of_map_to_list. }
  repeat case_decide; naive_solver.
Qed.

(** A transaction whose prerequisites name another value than the stored one is not
    committed: it reports a conflict or raises, and what is stored and the versions of
    all keys are as before.  A prerequisite on a key the transaction does not write is
    compared with no value at all. *)
Theorem improper_transaction_rejected s source kvs pre adds removes keys idxs as_of start guid o b :
  kv_wf (kvstore s) → versioned_keys s → pre !! o = Some b →
  (if decide (o ∈ dom kvs) then kv_str (kvstore s) (KObj o) else None) ≠ b →
  wp (_commitAndBroadcastNewTransaction clock source kvs pre adds removes keys idxs as_of start guid)
    (λ r s', r.1.1.1 = false ∧ unchanged s s') (λ _, unchanged s) s.
Proof.
  intros Hwf Hvers Hpre Hne.
  pose proof (reads_keep_view (kv_str (kvstore s)) (kv_members (kvstore s))) as Hreads.
  assert (unchanged s s) as Hs by (split; [split; [by apply view_of|done]|done]).
  unfold _commitAndBroadcastNewTransaction. revert Hs. generalize s at 2 5. intros s1 Hs.
  do 4 (apply wp_bind_preserves with (I := unchanged s);
    [unchanged_step|done|clear s1 Hs; intros ? s1 Hs|done]).
  cbv zeta. apply wp_bind_preserves with (I := unchanged s);
    [unchanged_step|done|clear s1 Hs; intros ? s1 Hs|done].
  apply wp_gets_bind. destruct (first_conflict _ _ _ _); [by split|].
  apply wp_bind_preserves with (I := unchanged s);
    [unchanged_step|done|clear s1 Hs; intros ? s1 Hs|done].
  destruct Hs as [[Hview Hvs] Hvn].
  destruct (kv_getSeveral_ok (kvstore s1) (KObj <$> (map_to_list kvs).*1) (vw_wf _ _ _ Hview))
    as (t' & Hrun & Hwf' & Hup); [by apply Forall_fmap, Forall_true|].
  eapply wp_bind_ok; [unfold kv, zoom; rewrite Hrun; reflexivity|]. cbv zeta.
  rewrite bool_decide_true; [|apply (bad_values_spec _ _ _ o b); [done|]].
  2: { by rewrite (vw_str _ _ _ Hview) by done. }
  apply wp_bind. unfold whenM, raise, wp. split; [split; [|done]|done].
  by eapply view_is_updated.
Qed.
End store.

(** ** A run in which the hypotheses hold *)
Import Codec.
Module StoreScenario.

Definition clock : nat → Z := Z.of_nat.
Definition format_exc : exn → string := λ _, "Traceback"%string.
Definition start : World (T:=InMemoryPersistence) := start_world clock new_store "secret" false.
Definition key_value : gmap ObjectFieldId (option bytes) := {[OFI 7 0 false := Some [Byte.x41]]}.
Definition adds : gmap IndexId (gset ObjectId) := {[IXI 0 [Byte.x01] := {[7]}]}.

Definition commit : outcome CommitResult * Server InMemoryPersistence :=
  _commitAndBroadcastNewTransaction clock None key_value ∅ adds ∅ [] [] 0 None None (w_server start).

Lemma start_store : kvstore (w_server start) = {| values := {[KName "identityRoot" := VBytes (serialize_int 1)]} |}.
Proof. vm_compute. reflexivity. Qed.

Lemma names_store_ok n b : store_ok {| values := {[KName n := VBytes b]} |}.
Proof.
  assert (∀ k, is_set_key k = true → members {| values := {[KName n := VBytes b]} |} k = ∅) as Hm.
  { intros k Hk. unfold members. cbn. rewrite lookup_singleton_ne; [done|]. by intros <-. }
  split.
  - apply map_Forall_insert_2; [by split|apply map_Forall_empty].
  - intros f m. cbn -[members]. rewrite Hm by done. split; [set_solver|].
    intros (v & _ & Hne). by rewrite Hm in Hne.
  - intros i f v. cbn -[members]. rewrite Hm by done. unfold str_value. cbn.
    rewrite lookup_singleton_ne by done. split; [done|set_solver].
Qed.

Lemma start_tx_ok : tx_ok (kvstore (w_server start)) key_value adds ∅.
Proof.
  rewrite start_store.
  assert (∀ k, is_set_key k = true →
    members {| values := {[KName "identityRoot" := VBytes (serialize_int 1)]} |} k = ∅) as Hm.
  { intros k Hk. unfold members. cbn. rewrite lookup_singleton_ne; [done|]. by intros <-. }
  assert (∀ ix, mm_get adds ix = if decide (ix = IXI 0 [Byte.x01]) then {[7]} else ∅) as Ha.
  { intros ix. unfold mm_get, adds. rewrite lookup_singleton. repeat case_decide; naive_solver. }
  split; cbn -[members].
  - by apply map_Forall_singleton.
  - intros ix i _. rewrite Hm by done. set_solver.
  - intros ix i. rewrite mm_get_empty. set_solver.
  - intros i f v v'. rewrite !Ha. repeat case_decide; simplify_eq; set_solver.
  - intros i f v v' _. rewrite Hm by done. set_solver.
Qed.
End StoreScenario.

Lemma commit_refines_store_witness :
  committed_store (kvstore (w_server StoreScenario.start)) StoreScenario.key_value StoreScenario.adds ∅
    (kvstore (StoreScenario.commit.2)).
Proof.
  eapply (commit_refines_store StoreScenario.clock StoreScenario.format_exc new_store "secret" false
    StoreScenario.start None StoreScenario.key_value ∅ StoreScenario.adds ∅ [] [] 0 None None NoBadKey 1 []).
  - apply reach_start.
  - rewrite StoreScenario.start_store. apply StoreScenario.names_store_ok.
  - apply StoreScenario.start_tx_ok.
  - apply outcome_eta. vm_compute. reflexivity.
Defined.

Lemma improper_transaction_rejected_witness :
  wp (_commitAndBroadcastNewTransaction StoreScenario.clock None {[OFI 7 0 false := Some [Byte.x41]]}
        {[OFI 7 0 false := Some [Byte.x42]]} ∅ ∅ [] [] 0 None None)
    (λ r s', r.1.1.1 = false ∧ unchanged (w_server StoreScenario.start) s')
    (λ _, unchanged (w_server StoreScenario.start)) (w_server StoreScenario.start).
Proof.
  apply (improper_transaction_rejected StoreScenario.clock (w_server StoreScenario.start) None
    {[OFI 7 0 false := Some [Byte.x41]]} {[OFI 7 0 false := Some [Byte.x42]]} ∅ ∅ [] [] 0 None None
    (OFI 7 0 false) (Some [Byte.x42])).
  - rewrite StoreScenario.start_store. apply StoreScenario.names_store_ok.
  - apply map_Forall_empty.
  - reflexivity.
  - rewrite StoreScenario.start_store. vm_compute. discriminate.
Defined.

(** ** Restarting a server

    [Server.__init__] deletes the connection objects of an earlier run but ignores the
    sets that [setSeveral] reports as dropped, so the metadata index still lists the
    emptied index. *)
Module Restart.
Abbreviation clock := StoreScenario.clock.
Abbreviation format_exc := StoreScenario.format_exc.

(** a server that had one connection when it stopped *)
Definition first_run : World (T:=InMemoryPersistence) :=
  run_ops clock format_exc [OpConnect 0%nat] StoreScenario.start.
(** the next server on the same store *)
Definition second_run : World (T:=InMemoryPersistence) :=
  start_world clock (kvstore (w_server first_run)) "secret" false.

(** After a restart over a store in which a connection was left, the first channel that
    connects is lost: creating its entry fails on an assertion of the store, the
    exception is swallowed, and no message is sent to it.  The second channel gets
    through. *)
Theorem restart_loses_first_connection :
  (_createConnectionEntry clock (w_server second_run)).1 = Raise AssertionError ∧
  effects (w_server (run_ops clock format_exc [OpConnect 0%nat] second_run)) = [] ∧
  effects (w_server (run_ops clock format_exc [OpConnect 0%nat; OpConnect 1%nat] second_run)) =
    [Wrote 1 (Initialize 2 200000001 4)].
Proof. vm_compute. done. Qed.
End Restart.
