(* ===== verification/ServerVersions.v ===== *)
(** * Optimistic concurrency control

    A transaction names the keys it read and the version it read them at.  The
    server keeps the version at which each key was last written, forgets versions
    of deleted keys that are old, and remembers instead the newest version it
    forgot.  The invariant [vinv k t] says that a write to [k] at version [t] is
    still visible in one of the two; every operation of the server preserves it,
    so no later transaction that read [k] before [t] can commit. *)

From stdpp Require Import options.
From S2P Require Import Prelude Schema Messages Persistence ServerState Server ServerConn ServerOps.

Local Open Scope Z_scope.

Section versions.
Context `{Serialization} {T : Type} `{KVStore T}.
Variable clock : nat → Z.
Variable format_exc : exn → string.
#[local] Set Default Proof Using "Type*".

Definition version_bound (vn : gmap Key Z) (min_acceptable : Z) (k : Key) : Z :=
  Z.max (default (-1) (vn !! k)) min_acceptable.

Record vinv_fields (k : Key) (t : Z) (vn : gmap Key Z) (min_acceptable cur : Z) : Prop := {
  vi_versions : map_Forall (λ _ v, v <= cur) vn;
  vi_min : min_acceptable <= cur;
  vi_cur : -1 <= cur;
  vi_bound : t <= version_bound vn min_acceptable k;
}.

Definition vinv (k : Key) (t : Z) (s : Server T) : Prop :=
  vinv_fields k t (version_numbers s) (min_acceptable_version_number s) (cur_transaction_num s).

(** the invariant, at a known transaction number *)
Definition vinv_at (k : Key) (t n : Z) (s : Server T) : Prop :=
  vinv k t s ∧ cur_transaction_num s = n.

Lemma vinv_bound_cur k t s : vinv k t s → t <= cur_transaction_num s.
Proof.
  intros [Hv Hm Hc Hb]. unfold version_bound in Hb.
  destruct (version_numbers s !! k) as [v|] eqn:Hk; simpl in Hb; [specialize (Hv _ _ Hk); simpl in Hv|]; lia.
Qed.

(** what a commit does to the version of a key it writes *)
Lemma vinv_write k t n key s :
  vinv_at k t n s → vinv_at k t n (s <| version_numbers ::= <[key := n]> |>).
Proof.
  intros [Hv Hn]. pose proof (vinv_bound_cur _ _ _ Hv) as Ht. destruct Hv as [Hv Hm Hc Hb].
  split; [split|]; try done; cbn.
  - apply map_Forall_insert_2; [lia|done].
  - unfold version_bound in *; cbn. rewrite lookup_insert. case_decide; simpl; lia.
Qed.

(** what the garbage collector does to the version of a key it forgets *)
Lemma vinv_forget k t n key v s :
  version_numbers s !! key = Some v → vinv_at k t n s →
  vinv_at k t n (s <| min_acceptable_version_number ::= Z.max v |>
                   <| version_numbers ::= delete key |>).
Proof.
  intros Hkey [[Hv Hm Hc Hb] Hn]. pose proof (Hv _ _ Hkey) as Hle; simpl in Hle.
  split; [split|]; try done; cbn.
  - by apply map_Forall_delete.
  - lia.
  - unfold version_bound in *; cbn. rewrite lookup_delete. case_decide; subst; simpl;
      [rewrite Hkey in Hb; simpl in Hb|]; lia.
Qed.

(** Any other update leaves the fields of the invariant as they are. *)
Ltac frame :=
  idtac; lazymatch goal with
  | |- preserves _ (modify _) => apply preserves_modify; intros ? Hframe; exact Hframe
  | |- preserves _ (kv _) => unfold kv; apply preserves_zoom; intros ? Hframe; exact Hframe
  | |- preserves _ (zoom _ _) => apply preserves_zoom; intros ? Hframe; exact Hframe
  end.
Ltac server_pres := preserve_with frame.

Lemma gc_key_at k t n threshold kt acc : preserves (vinv_at k t n) (gc_key threshold kt acc).
Proof.
  unfold gc_key. destruct kt as [key ts]. case_bool_decide; [|server_pres].
  apply preserves_bind; [server_pres|intros dead].
  apply preserves_bind; [|intros _; server_pres].
  apply preserves_whenM; intros _. intros s Hs.
  rewrite run_bind, run_gets, run_bind, run_lift_option.
  destruct (version_numbers s !! key) as [v|] eqn:Hkey; [|done].
  rewrite run_bind, !run_modify. by apply vinv_forget.
Qed.
#[local] Hint Resolve gc_key_at : py.

Lemma _garbage_collect_at k t n i : preserves (vinv_at k t n) (_garbage_collect clock i).
Proof. server_pres. Qed.
#[local] Hint Resolve _garbage_collect_at : py.

Lemma write_versions_at k t n t1 keys :
  preserves (vinv_at k t n) (forM keys (λ key,
    modify (λ s : Server T, s <| version_numbers ::= <[key := n]> |>);;
    modify (λ s, s <| version_numbers_timestamps ::= <[key := t1]> |>))).
Proof.
  apply preserves_forM. intros key _. apply preserves_bind; [|intros _; server_pres].
  apply preserves_modify. intros s. apply vinv_write.
Qed.
#[local] Hint Resolve write_versions_at : py.

(** the keys a transaction writes, as the commit computes them *)
Definition written_keys (key_value : gmap ObjectFieldId (option bytes))
    (set_adds set_removes : gmap IndexId (gset ObjectId)) : list Key :=
  let ws := write_set key_value (nonempty set_adds) (nonempty set_removes) in
  (KObj <$> elements (ws_keys ws)) ++ (KIdx <$> elements (ws_sets ws)).

(** After the loop over the written keys, each of them is at the new version. *)
Lemma write_versions_established k n t1 keys :
  k ∈ keys →
  yields (vinv_at k (-1) n) (forM keys (λ key,
    modify (λ s : Server T, s <| version_numbers ::= <[key := n]> |>);;
    modify (λ s, s <| version_numbers_timestamps ::= <[key := t1]> |>)))
    (λ _, vinv_at k n n).
Proof.
  intros Hk s Hs.
  eapply wp_mono; [apply (wp_forM keys _ (λ pre s', vinv_at k (-1) n s' ∧
    (k ∈ pre → version_numbers s' !! k = Some n)) (λ _ _, True))| |done].
  - split; [done|set_solver].
  - intros pre x post s' _ [Hs' Hpre]. unfold wp. rewrite run_bind, !run_modify.
    split; [by apply (vinv_write _ _ _ x) in Hs'|].
    intros Hin%elem_of_app. cbn. rewrite lookup_insert. case_decide; [done|].
    apply Hpre. destruct Hin; set_solver.
  - intros _ s' [[Hs' Hn] Hv]. specialize (Hv Hk). destruct Hs'.
    split; [split|]; try done. unfold version_bound. rewrite Hv. simpl. lia.
Qed.

Lemma commit_at k t source kvs pre adds removes keys idxs as_of start guid :
  preserves (vinv k t)
    (_commitAndBroadcastNewTransaction clock source kvs pre adds removes keys idxs as_of start guid).
Proof.
  unfold _commitAndBroadcastNewTransaction. apply preserves_bind.
  { apply preserves_modify. intros s [Hv Hm Hc Hb]. split; cbn; try lia.
    intros k' v' Hk'. specialize (Hv _ _ Hk'). simpl in *. lia. }
  intros _. apply preserves_gets_bind. intros n.
  change (λ s, vinv k t s ∧ cur_transaction_num s = n) with (vinv_at k t n).
  server_pres.
Qed.
#[local] Hint Resolve commit_at : py.

Ltac yield_step :=
  lazymatch goal with
  | |- yields (vinv_at _ (-1) _) (mbind (λ _, _) (forM (_ ++ _) _)) _ =>
      eapply yields_bind; [by apply write_versions_established|intros _]
  | |- yields _ (mbind _ _) _ =>
      eapply yields_bind; [apply yields_preserves; solve [server_pres]|intros ?]
  | |- yields _ (match ?x with _ => _ end) _ => destruct x eqn:?
  | |- yields _ (let _ := _ in _) _ => cbv zeta
  end.

Lemma commit_establishes k source kvs pre adds removes keys idxs as_of start guid :
  k ∈ written_keys kvs adds removes →
  yields (vinv k (-1))
    (_commitAndBroadcastNewTransaction clock source kvs pre adds removes keys idxs as_of start guid)
    (λ r s, r.1.1.1 = true → vinv k r.1.2 s).
Proof.
  intros Hk. unfold _commitAndBroadcastNewTransaction.
  eapply (yields_bind _ (vinv k (-1))).
  { apply yields_preserves, preserves_modify. intros s [Hv Hm Hc Hb]. split; cbn; try lia.
    intros k' v' Hk'. specialize (Hv _ _ Hk'). simpl in *. lia. }
  intros _. apply yields_gets_bind. intros n.
  change (λ s, vinv k (-1) s ∧ cur_transaction_num s = n) with (vinv_at k (-1) n).
  repeat yield_step; intros s Hs; [done|]. intros _. by destruct Hs.
Qed.

Lemma _handleNewTransaction_vinv k t source kvs pre adds removes keys idxs as_of start nl guid :
  preserves (vinv k t)
    (_handleNewTransaction clock source kvs pre adds removes keys idxs as_of start nl guid).
Proof. server_pres. Qed.
#[local] Hint Resolve _handleNewTransaction_vinv : py.

Lemma _garbage_collect_vinv k t i : preserves (vinv k t) (_garbage_collect clock i).
Proof. intros s Hs. apply (_garbage_collect_at k t (cur_transaction_num s)). by split. Qed.
#[local] Hint Resolve _garbage_collect_vinv : py.

Lemma exec_vinv k t op : preserves (vinv k t) (exec clock format_exc op).
Proof. destruct op; simpl; server_pres. Qed.
Lemma background_start_vinv k t c msg : preserves (vinv k t) (background_start c msg).
Proof. server_pres. Qed.
Lemma background_batch_vinv k t task : preserves (vinv k t) (background_batch task).
Proof. server_pres. Qed.

Lemma run_ops_vinv k t ops w :
  vinv k t (w_server w) → vinv k t (w_server (run_ops clock format_exc ops w)).
Proof.
  apply run_ops_inv; auto using exec_vinv, background_start_vinv, background_batch_vinv.
  server_pres.
Qed.

Lemma reachable_vinv kvs token watched k w :
  reachable clock format_exc kvs token watched w → vinv k (-1) (w_server w).
Proof.
  apply reachable_inv; auto using exec_vinv, background_start_vinv, background_batch_vinv.
  - server_pres.
  - assert (preserves (vinv k (-1)) Server_init) as Hinit by server_pres.
    apply Hinit. split; cbn; try done; unfold version_bound; simpl; lia.
Qed.

(** ** What a refused transaction leaves alone *)

(** the effects by which a client learns of a committed transaction *)
Definition announces (e : Effect) : Prop :=
  match e with
  | Wrote _ (Transaction _ _ _ _) | Wrote _ (LazyTransactionPriors _)
  | Wrote _ (TransactionResult _ true _ _) => True
  | _ => False
  end.

Definition sent_quietly (es0 es : list Effect) : Prop :=
  ∃ new, es = es0 ++ new ∧ Forall (λ e, ¬ announces e) new.

(** From [s0] to [s] the stored data and the versions are the same and nothing was
    announced. *)
Definition quiet (s0 s : Server T) : Prop :=
  version_numbers s = version_numbers s0 ∧
  min_acceptable_version_number s = min_acceptable_version_number s0 ∧
  kvstore s = kvstore s0 ∧ is_Some (typeMap s) ∧ sent_quietly (effects s0) (effects s).

Lemma quiet_refl s : is_Some (typeMap s) → quiet s s.
Proof.
  intros Htm. split_and!; try done. exists []. by rewrite app_nil_r.
Qed.

Lemma sent_quietly_snoc es0 es e :
  sent_quietly es0 es → ¬ announces e → sent_quietly es0 (es ++ [e]).
Proof.
  intros (new & -> & Hnew) He. exists (new ++ [e]). rewrite (assoc_L (++)).
  split; [done|]. apply Forall_app. auto.
Qed.

Lemma emit_quiet s0 e : ¬ announces e → preserves (quiet s0) (emit e).
Proof.
  intros He. apply preserves_modify. intros s (?&?&?&?&?).
  split_and!; try done. by apply sent_quietly_snoc.
Qed.
Lemma write_quiet s0 c msg :
  (∀ ch, ¬ announces (Wrote ch msg)) → preserves (quiet s0) (write c msg).
Proof.
  intros Hmsg. unfold write. apply preserves_bind; [apply preserves_gets|]. intros cc.
  by apply emit_quiet.
Qed.
Lemma _currentTypeMap_quiet s0 : preserves (quiet s0) _currentTypeMap.
Proof.
  intros s Hs. unfold _currentTypeMap. autorewrite with run.
  pose proof Hs as (_&_&_&[tm Htm]&_). by rewrite Htm.
Qed.
#[local] Hint Resolve _currentTypeMap_quiet : py.
#[local] Hint Extern 1 (preserves _ (write _ _)) =>
  (apply write_quiet; intros ?; exact (λ x, x)) : py.
#[local] Hint Extern 1 (preserves _ (emit _)) => (apply emit_quiet; exact (λ x, x)) : py.

Lemma subscribe_to_created_quiet s0 c tid add :
  preserves (quiet s0) (subscribe_to_created c tid add).
Proof. server_pres. Qed.
#[local] Hint Resolve subscribe_to_created_quiet : py.

Lemma first_conflict_stale vn as_of keys idxs k :
  k ∈ (KObj <$> keys) ++ (KIdx <$> idxs) → as_of < default (-1) (vn !! k) →
  ∃ k', first_conflict vn as_of keys idxs = Some k'.
Proof.
  intros Hk Hlt. unfold first_conflict.
  assert (k ∈ filter (λ key, as_of < default (-1) (vn !! key)) ((KObj <$> keys) ++ (KIdx <$> idxs)))
    as Hin by (apply list_elem_of_filter; done).
  destruct (filter _ _) as [|k' ?]; [set_solver|]. by exists k'.
Qed.

(** A commit that read a key before its current version changes nothing it must not. *)
Lemma commit_conflict k s0 source kvs pre adds removes keys idxs as_of start guid :
  k ∈ (KObj <$> keys) ++ (KIdx <$> idxs) → as_of < default (-1) (version_numbers s0 !! k) →
  ∀ s, quiet s0 s →
  wp (_commitAndBroadcastNewTransaction clock source kvs pre adds removes keys idxs as_of start guid)
     (λ r s', quiet s0 s' ∧ r.1.1.1 = false) (λ _, quiet s0) s.
Proof.
  intros Hk Hlt s Hs. unfold _commitAndBroadcastNewTransaction.
  do 4 (apply wp_bind_preserves with (I := quiet s0);
    [server_pres|done|clear s Hs; intros ? s Hs|done]).
  cbv zeta. apply wp_bind_preserves with (I := quiet s0);
    [server_pres|done|clear s Hs; intros ? s Hs|done].
  apply wp_gets_bind. pose proof Hs as (Hvn&_). rewrite Hvn.
  destruct (first_conflict_stale (version_numbers s0) as_of keys idxs k) as [k' ->]; done.
Qed.

Definition read_keys (t : PendingTransaction) : list Key :=
  (KObj <$> elements (pt_key_versions t)) ++ (KIdx <$> elements (pt_index_versions t)).

(** The answer to a client: one refusal, after nothing but quiet messages. *)
Definition refused (c : ChannelRef) (guid : Z) (s0 : Server T) (r : outcome unit * Server T) : Prop :=
  r.1 = Ok tt ∧ version_numbers r.2 = version_numbers s0 ∧ kvstore r.2 = kvstore s0 ∧
  ∃ es ch badKey isException,
    effects r.2 = effects s0 ++ es ++ [Wrote ch (TransactionResult guid false badKey isException)] ∧
    Forall (λ e, ¬ announces e) es.

Lemma sendTransactionSuccess_refused c guid badKey isException s0 s :
  quiet s0 s → refused c guid s0 (sendTransactionSuccess c guid false badKey isException s).
Proof.
  intros (Hvn & _ & Hkv & _ & es & Hes & Hq). unfold refused. cbn.
  split_and!; try done. exists es, (cc_channel (the_cc s c)), badKey, isException.
  split; [|done]. change (effects s ++ [Wrote (cc_channel (the_cc s c)) (TransactionResult guid false badKey isException)] = effects s0 ++ es ++ [Wrote (cc_channel (the_cc s c)) (TransactionResult guid false badKey isException)]). by rewrite Hes, (assoc_L (++)).
Qed.

Lemma wp_tryM {A} (m : M (Server T) A) h Q E s :
  wp m Q (λ e s', wp (h e) Q E s') s → wp (tryM m h) Q E s.
Proof. unfold wp, tryM. destruct (m s) as [[a|e] s']; done. Qed.

Lemma handle_conflict k s0 source kvs pre adds removes keys idxs as_of start nl guid s :
  k ∈ (KObj <$> keys) ++ (KIdx <$> idxs) → as_of < default (-1) (version_numbers s0 !! k) →
  quiet s0 s →
  wp (_handleNewTransaction clock source kvs pre adds removes keys idxs as_of start nl guid)
     (λ r s', quiet s0 s' ∧ r.1 = false) (λ _, quiet s0) s.
Proof.
  intros Hk Hlt Hs. unfold _handleNewTransaction.
  match goal with |- wp (tryM _ ?h) ?Q _ _ =>
    assert (∀ e s', quiet s0 s' → wp (h e) Q (λ _, quiet s0) s') as Hh end.
  { intros e s' Hs'. do 2 (apply wp_bind_preserves with (I := quiet s0);
      [server_pres|done|clear s' Hs'; intros ? s' Hs'|done]). done. }
  apply wp_tryM, wp_bind. eapply wp_mono; [by eapply commit_conflict| |apply Hh].
  intros [[[ok bk] tid] conns] s' [Hs' Hok]. cbn in Hok. subst ok. clear s Hs.
  do 2 (apply wp_bind_preserves with (I := quiet s0);
    [server_pres|done|clear s' Hs'; intros ? s' Hs'|apply Hh]). done.
Qed.

Lemma completeTransaction_refused k t s c as_of guid no_log data :
  vinv k t s → is_Some (typeMap s) → cc_pendingTransactions (the_cc s c) !! guid = Some data →
  k ∈ read_keys data → as_of < t →
  refused c guid s (completeTransaction clock format_exc c as_of guid no_log s).
Proof.
  intros Hv Htm Hdata Hk Hlt. unfold completeTransaction.
  match goal with |- context [tryM ?m ?h] =>
    assert (wp (tryM m h) (λ r s', quiet s s' ∧ r.1.1 = false) (λ _ _, False) s) as Hwp end.
  { apply wp_tryM. eapply wp_mono with (E := λ _, quiet s); [|by intros a s'; exact (λ x, x)|by split].
    pose proof (quiet_refl s Htm) as Hs.
    apply wp_bind_preserves with (I := λ s', quiet s s' ∧ cc_heap s' = cc_heap s);
      [server_pres|done| |naive_solver].
    intros start s1 [Hs1 Hheap]. unfold extractTransactionData.
    assert (the_cc s1 c = the_cc s c) as Hcc by (unfold the_cc; by rewrite Hheap).
    apply wp_bind, wp_gets_bind. rewrite Hcc, Hdata. apply wp_bind, wp_ret.
    apply wp_bind_preserves with (I := quiet s); [server_pres|done|clear s1 Hs1 Hheap Hcc|done].
    intros _ s1 Hs1. apply wp_ret, wp_gets_bind.
    pose proof Hs1 as (_ & Hmin & _). rewrite Hmin.
    case_bool_decide as Hold; [done|].
    apply wp_bind. eapply wp_mono; [eapply handle_conflict; [exact Hk| |exact Hs1]|done|done].
    destruct Hv as [_ _ _ Hb]. unfold version_bound in Hb. lia. }
  unfold wp in Hwp. rewrite run_bind.
  destruct (tryM _ _ s) as [[[[ok bk] exc]|e] s'] eqn:Hrun; [|done].
  destruct Hwp as [Hq Hok]. cbn in Hok. subst ok.
  by apply sendTransactionSuccess_refused.
Qed.

(** ** The type map, once loaded, stays loaded *)

Definition has_typeMap (s : Server T) : Prop := is_Some (typeMap s).

Ltac typeMap_frame :=
  idtac; first [frame | apply preserves_modify; intros ? _; eexists; reflexivity].

Lemma commit_typeMap source kvs pre adds removes keys idxs as_of start guid :
  preserves has_typeMap
    (_commitAndBroadcastNewTransaction clock source kvs pre adds removes keys idxs as_of start guid).
Proof. preserve_with typeMap_frame. Qed.
#[local] Hint Resolve commit_typeMap : py.

Lemma run_ops_typeMap ops w :
  has_typeMap (w_server w) → has_typeMap (w_server (run_ops clock format_exc ops w)).
Proof.
  apply run_ops_inv; [intros []; simpl|intros ? ?|intros ?|..]; try preserve_with typeMap_frame; done.
Qed.

(** ** No lost updates *)

(** C1. Once a transaction that writes [k] has been committed as number [tid], a client
    transaction that read [k] as of an earlier version is refused, whatever happened
    in between: messages, connections, garbage collections, turns of the
    subscription thread.  The refusal leaves the stored data and the versions as they
    are and announces no transaction to anybody. *)
Theorem stale_transaction_refused kvs token watched w source key_value pre adds removes keys idxs
    as_of0 start guid0 bk tid conns s1 k ops c as_of guid no_log data :
  reachable clock format_exc kvs token watched w → has_typeMap (w_server w) →
  _commitAndBroadcastNewTransaction clock source key_value pre adds removes keys idxs as_of0
    start guid0 (w_server w) = (Ok ((true, bk), tid, conns), s1) →
  k ∈ written_keys key_value adds removes →
  let s2 := w_server (run_ops clock format_exc ops (w <| w_server := s1 |>)) in
  cc_needsAuthentication (the_cc s2 c) = false →
  cc_pendingTransactions (the_cc s2 c) !! guid = Some data →
  k ∈ read_keys data → as_of < tid →
  refused c guid s2
    (onClientToServerMessage clock format_exc c (CompleteTransaction as_of guid no_log) s2).
Proof.
  intros Hreach Htm Hcommit Hwrites s2 Hauth Hdata Hreads Hold.
  assert (vinv k tid s1) as Hv1.
  { pose proof (commit_establishes k source key_value pre adds removes keys idxs as_of0 start guid0
      Hwrites (w_server w) (reachable_vinv _ _ _ k w Hreach)) as Hc.
    unfold wp in Hc. rewrite Hcommit in Hc. by apply Hc. }
  assert (has_typeMap s1) as Htm1.
  { pose proof (commit_typeMap source key_value pre adds removes keys idxs as_of0 start guid0
      (w_server w) Htm) as Hc. by rewrite Hcommit in Hc. }
  assert (onClientToServerMessage clock format_exc c (CompleteTransaction as_of guid no_log) s2
          = completeTransaction clock format_exc c as_of guid no_log s2) as ->.
  { unfold onClientToServerMessage. rewrite run_bind, run_gets. by rewrite Hauth. }
  eapply completeTransaction_refused; [|by apply run_ops_typeMap|exact Hdata|exact Hreads|exact Hold].
  by apply run_ops_vinv.
Qed.
End versions.

(** ** A run in which the hypotheses hold

    Two keys of one field; connection 0 read the first at version 1 and has its
    transaction pending when another one commits a write to that key. *)
Import Codec.
Module Scenario.

Definition clock : nat → Z := Z.of_nat.
Definition format_exc : exn → string := λ _, "Traceback"%string.
Definition key : ObjectFieldId := OFI 7 2 false.

Definition schema_ops : list server_op :=
  [OpConnect 0; OpMessage 0 (Authenticate "secret");
   OpMessage 0 (DefineSchema "app" {["Counter" := TypeDef ["k"] [" exists"]]});
   OpMessage 0 (TransactionData {[key := Some [Byte.x41]]} ∅ ∅ [key] [] 5 ∅)]%string.

Definition start : World (T:=InMemoryPersistence) := start_world clock new_store "secret" false.
Definition before : World := run_ops clock format_exc schema_ops start.

Abbreviation commit :=
  (_commitAndBroadcastNewTransaction clock None {[key := Some [Byte.x42]]} ∅ ∅ ∅ [] [] 1 None None
    (w_server before)).

Definition later_ops : list server_op :=
  [OpConnect 1; OpMessage 0 Heartbeat; OpGarbageCollect (Some 1); OpSubscriptionTurn].
Abbreviation after := (run_ops clock format_exc later_ops (before <| w_server := commit.2 |>)).

Lemma before_reachable : reachable clock format_exc new_store "secret" false before.
Proof.
  do 4 (apply (reach_step clock format_exc); [|by (vm_compute; eauto)]). apply reach_start.
Qed.

Lemma versions_commit_eq : commit = (Ok ((true, NoBadKey), 2, []), commit.2).
Proof. apply outcome_eta. vm_compute. reflexivity. Qed.

Lemma before_typeMap : has_typeMap (w_server before).
Proof.
  enough (bool_decide (is_Some (typeMap (w_server before))) = true) as Hb
    by by apply bool_decide_eq_true in Hb.
  vm_compute. reflexivity.
Qed.

Lemma after_pending : ∃ data,
  cc_needsAuthentication (the_cc (w_server after) 0) = false ∧
  cc_pendingTransactions (the_cc (w_server after) 0) !! 5 = Some data ∧ KObj key ∈ read_keys data.
Proof. eexists. split_and!; vm_compute; repeat constructor. Qed.
End Scenario.

Lemma stale_transaction_refused_witness :
  refused 0 5 (w_server Scenario.after)
    (onClientToServerMessage Scenario.clock Scenario.format_exc 0 (CompleteTransaction 1 5 false)
       (w_server Scenario.after)).
Proof.
  destruct Scenario.after_pending as (data & Hauth & Hdata & Hreads).
  exact (stale_transaction_refused Scenario.clock Scenario.format_exc new_store "secret" false
    Scenario.before None {[Scenario.key := Some [Byte.x42]]} ∅ ∅ ∅ [] [] 1 None None NoBadKey 2 []
    (Scenario.commit.2) (KObj Scenario.key) Scenario.later_ops 0 1 5 false data
    Scenario.before_reachable Scenario.before_typeMap Scenario.versions_commit_eq
    ltac:(vm_compute; repeat constructor) Hauth Hdata Hreads eq_refl).
Defined.
