(* ===== verification/MessageBuffer.v ===== *)
(** * Framing messages on a stream ([MessageBuffer] in [object_database/message_bus.py])

    A message is sent as its length in four bytes, its bytes, and, with the extra
    check, its length again.  The reader gets the stream in arbitrary pieces. *)

From Stdlib Require Import Lia.
From stdpp Require Import options.
From S2P Require Import Prelude.

Local Open Scope Z_scope.

(** ** [struct.pack("i", n)] and [struct.unpack("i", b)] on a little-endian machine *)

Definition byte_of (z : Z) : byte := default Byte.x00 (Byte.of_N (Z.to_N (z mod 256))).
Definition z_of_byte (b : byte) : Z := Z.of_N (Byte.to_N b).

Definition pack_bytes (u : Z) : bytes :=
  [byte_of u; byte_of (u / 256); byte_of (u / 65536); byte_of (u / 16777216)].

Definition pack (n : Z) : option bytes :=
  if bool_decide (-2147483648 <= n <= 2147483647) then Some (pack_bytes (n mod 4294967296)) else None.

Definition unpack (b : bytes) : option Z :=
  match b with
  | [b0; b1; b2; b3] =>
      let u := z_of_byte b0 + 256 * z_of_byte b1 + 65536 * z_of_byte b2 + 16777216 * z_of_byte b3 in
      Some (if bool_decide (2147483648 <= u) then u - 4294967296 else u)
  | _ => None
  end.

Lemma z_of_byte_of z : z_of_byte (byte_of z) = z mod 256.
Proof.
  unfold z_of_byte, byte_of. pose proof (Z.mod_pos_bound z 256 ltac:(lia)) as Hb.
  destruct (Byte.of_N (Z.to_N (z mod 256))) as [b|] eqn:Hof; cbn.
  - apply Byte.to_of_N in Hof. rewrite Hof. lia.
  - apply Byte.of_N_None_iff in Hof. lia.
Qed.

Lemma unpack_pack_bytes u :
  0 <= u < 4294967296 →
  unpack (pack_bytes u) = Some (if bool_decide (2147483648 <= u) then u - 4294967296 else u).
Proof.
  intros Hu. unfold unpack, pack_bytes. rewrite !z_of_byte_of.
  assert (u mod 256 + 256 * ((u / 256) mod 256) + 65536 * ((u / 65536) mod 256)
    + 16777216 * ((u / 16777216) mod 256) = u) as ->; [|done].
  replace 65536 with (256 * 256) at 2 by lia. replace 16777216 with (256 * 256 * 256) at 2 by lia.
  rewrite <-!Z.div_div by lia.
  pose proof (Z.div_mod u 256 ltac:(lia)). pose proof (Z.div_mod (u / 256) 256 ltac:(lia)).
  pose proof (Z.div_mod (u / 256 / 256) 256 ltac:(lia)).
  pose proof (Z.div_mod (u / 256 / 256 / 256) 256 ltac:(lia)).
  assert (u / 256 / 256 / 256 / 256 = 0); [|lia].
  rewrite !Z.div_div by lia. apply Z.div_small. lia.
Qed.

Lemma unpack_pack n b : pack n = Some b → unpack b = Some n.
Proof.
  unfold pack. case_bool_decide as Hn; [|done]. intros [= <-].
  rewrite unpack_pack_bytes by (apply Z.mod_pos_bound; lia). f_equal.
  destruct (decide (0 <= n)).
  - rewrite Z.mod_small by lia. rewrite bool_decide_false by lia. done.
  - rewrite <-(Z.mod_add n 1 4294967296), Z.mod_small by lia. rewrite bool_decide_true by lia. lia.
Qed.

Lemma z_of_byte_range b : 0 <= z_of_byte b < 256.
Proof. unfold z_of_byte. pose proof (Byte.to_N_bounded b). lia. Qed.

Lemma byte_of_eq z b : z mod 256 = z_of_byte b → byte_of z = b.
Proof.
  intros Hz. unfold byte_of. rewrite Hz. unfold z_of_byte. by rewrite N2Z.id, Byte.of_to_N.
Qed.

Lemma pack_unpack b n : unpack b = Some n → pack n = Some b.
Proof.
  destruct b as [|b0 [|b1 [|b2 [|b3 []]]]]; try done. unfold unpack.
  pose proof (z_of_byte_range b0). pose proof (z_of_byte_range b1).
  pose proof (z_of_byte_range b2). pose proof (z_of_byte_range b3).
  set (u := z_of_byte b0 + _ + _ + _). intros [= <-].
  assert (0 <= u < 4294967296) as Hu by (unfold u; lia).
  assert ((if bool_decide (2147483648 <= u) then u - 4294967296 else u) mod 4294967296 = u) as Hmod.
  { case_bool_decide; [|by apply Z.mod_small].
    rewrite <-(Z.mod_add (u - 4294967296) 1) by lia. rewrite Z.mod_small; lia. }
  unfold pack. rewrite Hmod, bool_decide_true by (case_bool_decide; lia).
  unfold pack_bytes. f_equal. repeat f_equal; apply byte_of_eq; clear Hmod Hu.
  - symmetry. unfold u. apply (Z.mod_unique _ _ (z_of_byte b1 + 256 * z_of_byte b2 + 65536 * z_of_byte b3)); lia.
  - rewrite <-(Z.div_unique u 256 (z_of_byte b1 + 256 * z_of_byte b2 + 65536 * z_of_byte b3) (z_of_byte b0));
      [|lia|unfold u; lia].
    symmetry. apply (Z.mod_unique _ _ (z_of_byte b2 + 256 * z_of_byte b3)); lia.
  - rewrite <-(Z.div_unique u 65536 (z_of_byte b2 + 256 * z_of_byte b3) (z_of_byte b0 + 256 * z_of_byte b1));
      [|lia|unfold u; lia].
    symmetry. apply (Z.mod_unique _ _ (z_of_byte b3)); lia.
  - rewrite <-(Z.div_unique u 16777216 (z_of_byte b3)
      (z_of_byte b0 + 256 * z_of_byte b1 + 65536 * z_of_byte b2)); [|lia|unfold u; lia].
    apply Z.mod_small. lia.
Qed.

Lemma length_pack n b : pack n = Some b → length b = 4%nat.
Proof. unfold pack. case_bool_decide; [|done]. by intros [= <-]. Qed.

(** ** The buffer *)

Definition MESSAGE_LEN_BYTES : Z := 4.

Record MessageBuffer := {
  buffer : bytes;
  messagesEver : Z;
  extraMessageSizeCheck : bool;
  curMessageLen : option Z;
}.
#[export] Instance MessageBuffer_settable : Settable MessageBuffer := λ r,
  {| buffer := buffer r; messagesEver := messagesEver r;
     extraMessageSizeCheck := extraMessageSizeCheck r; curMessageLen := curMessageLen r |}.

(** [MessageBuffer.__init__] *)
Definition new_MessageBuffer (extra : bool) : MessageBuffer :=
  {| buffer := []; messagesEver := 0; extraMessageSizeCheck := extra; curMessageLen := None |}.

Definition pendingBytecount (b : MessageBuffer) : Z := Z.of_nat (length (buffer b)).

(** [struct.error] when the length does not fit *)
Definition encode (msg : bytes) (extra : bool) : outcome bytes :=
  match pack (Z.of_nat (length msg)) with
  | Some n => Ok (n ++ msg ++ (if extra then n else []))
  | None => Raise StructError
  end.

(** One pass of the loop of [write]: [None] when it returns, [Some messages] when it
    goes round again with the messages completed. *)
Definition write_pass (messages : list bytes) : M MessageBuffer (option (list bytes)) :=
  cur ← gets curMessageLen;
  buf ← gets buffer;
  (if bool_decide (cur = None) && bool_decide (MESSAGE_LEN_BYTES <= Z.of_nat (length buf)) then
     n ← lift_option StructError (unpack (slice_to MESSAGE_LEN_BYTES buf));
     modify (λ b, b <| curMessageLen := Some n |>);;
     modify (λ b, b <| buffer ::= del_to MESSAGE_LEN_BYTES |>)
   else mret tt);;
  cur ← gets curMessageLen;
  buf ← gets buffer;
  extra ← gets extraMessageSizeCheck;
  match cur with
  | None => mret None
  | Some msgLen =>
      if extra : bool then
        if bool_decide (msgLen + MESSAGE_LEN_BYTES <= Z.of_nat (length buf)) then
          let messages := messages ++ [slice_to msgLen buf] in
          modify (λ b, b <| messagesEver ::= λ n, n + 1 |>);;
          sizeCheck ← lift_option StructError
            (unpack (slice msgLen (msgLen + MESSAGE_LEN_BYTES) buf));
          modify (λ b, b <| buffer ::= del_to (msgLen + MESSAGE_LEN_BYTES) |>);;
          modify (λ b, b <| curMessageLen := None |>);;
          whenM (bool_decide (sizeCheck ≠ msgLen)) (raise CorruptMessageStream);;
          mret (Some messages)
        else mret None
      else if bool_decide (msgLen <= Z.of_nat (length buf)) then
        let messages := messages ++ [slice_to msgLen buf] in
        modify (λ b, b <| messagesEver ::= λ n, n + 1 |>);;
        modify (λ b, b <| buffer ::= del_to msgLen |>);;
        modify (λ b, b <| curMessageLen := None |>);;
        mret (Some messages)
      else mret None
  end.

(** the loop, for at most [fuel] passes; [None] if it is not finished by then *)
Fixpoint write_loop (fuel : nat) (messages : list bytes) : M MessageBuffer (option (list bytes)) :=
  match fuel with
  | O => mret None
  | S fuel =>
      next ← write_pass messages;
      match next with
      | None => mret (Some messages)
      | Some messages => write_loop fuel messages
      end
  end.

(** The passes that [write] can need: all but the first begin by taking four bytes. *)
Definition write_fuel (b : MessageBuffer) : nat := S (S (length (buffer b))).

Definition write (bytesToWrite : bytes) : M MessageBuffer (list bytes) :=
  modify (λ b, b <| buffer ::= λ buf, buf ++ bytesToWrite |>);;
  fuel ← gets write_fuel;
  messages ← write_loop fuel [];
  lift_option (UserException "write does not return") messages.

(** ** The loop of [write] ends *)

(** passes that can still be made from a state *)
Definition passes (b : MessageBuffer) : nat :=
  length (buffer b) + match curMessageLen b with Some _ => 1 | None => 0 end.

Lemma length_del_to hi (b : bytes) : (length (del_to hi b) ≤ length b)%nat.
Proof. unfold del_to. rewrite length_drop. lia. Qed.

Lemma length_del_to_header (b : bytes) :
  4 <= Z.of_nat (length b) → (length (del_to MESSAGE_LEN_BYTES b) + 4 = length b)%nat.
Proof.
  intros Hb. unfold del_to, MESSAGE_LEN_BYTES. rewrite slice_index_nonneg, length_drop by lia. lia.
Qed.

(** The body of a message, once its length is known. *)
Lemma write_pass_known messages b msgLen :
  curMessageLen b = Some msgLen →
  write_pass messages b =
    (if extraMessageSizeCheck b then
       if bool_decide (msgLen + 4 <= Z.of_nat (length (buffer b))) then
         match unpack (slice msgLen (msgLen + 4) (buffer b)) with
         | None => (Raise StructError, b <| messagesEver ::= λ n, n + 1 |>)
         | Some sizeCheck =>
             (if bool_decide (sizeCheck ≠ msgLen) then Raise CorruptMessageStream
              else Ok (Some (messages ++ [slice_to msgLen (buffer b)])),
              b <| messagesEver ::= λ n, n + 1 |> <| buffer ::= del_to (msgLen + 4) |>
                <| curMessageLen := None |>)
         end
       else (Ok None, b)
     else if bool_decide (msgLen <= Z.of_nat (length (buffer b))) then
       (Ok (Some (messages ++ [slice_to msgLen (buffer b)])),
        b <| messagesEver ::= λ n, n + 1 |> <| buffer ::= del_to msgLen |> <| curMessageLen := None |>)
     else (Ok None, b)).
Proof.
  intros Hcur. destruct b as [buf ever extra cur]; cbn in Hcur; subst cur.
  unfold write_pass, MESSAGE_LEN_BYTES, mbind, M_bind, bind, gets, modify, mret, M_ret, ret; cbn.
  destruct extra; case_bool_decide; cbn; try reflexivity.
  destruct (unpack _); cbn; [|reflexivity]. case_bool_decide; reflexivity.
Qed.

(** The four bytes of a length are taken off first. *)
Lemma write_pass_header messages b n :
  curMessageLen b = None → 4 <= Z.of_nat (length (buffer b)) →
  unpack (slice_to 4 (buffer b)) = Some n →
  write_pass messages b =
    write_pass messages (b <| curMessageLen := Some n |> <| buffer ::= del_to 4 |>).
Proof.
  intros Hcur Hlen Hn. destruct b as [buf ever extra cur]; cbn in *; subst cur.
  unfold write_pass, MESSAGE_LEN_BYTES, mbind, M_bind, bind, gets, modify, mret, M_ret, ret.
  cbn -[slice_to del_to slice]. rewrite (bool_decide_true (4 <= _)) by lia.
  cbn -[slice_to del_to slice]. rewrite Hn. reflexivity.
Qed.

Lemma write_pass_short messages b :
  curMessageLen b = None → Z.of_nat (length (buffer b)) < 4 → write_pass messages b = (Ok None, b).
Proof.
  intros Hcur Hlen. destruct b as [buf ever extra cur]; cbn in *; subst cur.
  unfold write_pass, MESSAGE_LEN_BYTES, mbind, M_bind, bind, gets, modify, mret, M_ret, ret.
  cbn -[slice_to del_to slice]. by rewrite (bool_decide_false (4 <= _)) by lia.
Qed.

Lemma write_pass_progress messages b next b' :
  write_pass messages b = (Ok (Some next), b') → (passes b' < passes b)%nat.
Proof.
  assert (∀ b n, curMessageLen b = Some n → ∀ next b', write_pass messages b = (Ok (Some next), b') →
    (passes b' ≤ length (buffer b))%nat) as Hknown.
  { clear. intros b n Hcur next b'. rewrite (write_pass_known _ _ n) by done.
    pose proof (length_del_to (n + 4) (buffer b)). pose proof (length_del_to n (buffer b)).
    destruct (extraMessageSizeCheck b); case_bool_decide; try done.
    - destruct (unpack _); [|done]. case_bool_decide; [done|].
      intros [= _ <-]. unfold passes; cbn. lia.
    - intros [= _ <-]. unfold passes; cbn. lia. }
  intros Hrun. destruct (curMessageLen b) as [n|] eqn:Hcur.
  - pose proof (Hknown b n Hcur _ _ Hrun). unfold passes at 2. rewrite Hcur. lia.
  - destruct (decide (Z.of_nat (length (buffer b)) < 4)) as [Hlt|Hge].
    { rewrite write_pass_short in Hrun by done. done. }
    pose proof (length_del_to_header (buffer b) ltac:(lia)) as Hlen.
    assert (∃ n, unpack (slice_to 4 (buffer b)) = Some n) as [n Hn].
    { unfold slice_to. rewrite slice_index_nonneg by lia.
      destruct (buffer b) as [|? [|? [|? [|? ?]]]]; cbn in *; try lia. by eexists. }
    rewrite (write_pass_header _ _ n) in Hrun by (done || lia).
    apply (Hknown _ n) in Hrun; [|done]. unfold passes at 2. rewrite Hcur. cbn in *.
    unfold MESSAGE_LEN_BYTES in Hlen. lia.
Qed.

Lemma write_loop_ends fuel messages b :
  (passes b < fuel)%nat → ∀ b', write_loop fuel messages b ≠ (Ok None, b').
Proof.
  revert messages b. induction fuel as [|fuel IH]; intros messages b Hfuel b'; [lia|].
  cbn [write_loop]. rewrite run_bind.
  destruct (write_pass messages b) as [[[next|]|e] b1] eqn:Hrun; try done.
  apply write_pass_progress in Hrun. apply IH. lia.
Qed.

Lemma write_pass_errors messages b e b' :
  write_pass messages b = (Raise e, b') → e = StructError ∨ e = CorruptMessageStream.
Proof.
  assert (∀ b n, curMessageLen b = Some n → ∀ e b', write_pass messages b = (Raise e, b') →
    e = StructError ∨ e = CorruptMessageStream) as Hknown.
  { clear. intros b n Hcur e b'. rewrite (write_pass_known _ _ n) by done.
    destruct (extraMessageSizeCheck b); case_bool_decide; try done.
    destruct (unpack _); [case_bool_decide; [|done]|]; intros [= <- _]; auto. }
  intros Hrun. destruct (curMessageLen b) as [n|] eqn:Hcur; [by eapply Hknown|].
  destruct (decide (Z.of_nat (length (buffer b)) < 4)) as [Hlt|Hge].
  { rewrite write_pass_short in Hrun by done. done. }
  assert (∃ n, unpack (slice_to 4 (buffer b)) = Some n) as [n Hn].
  { unfold slice_to. rewrite slice_index_nonneg by lia.
    destruct (buffer b) as [|? [|? [|? [|? ?]]]]; cbn in *; try lia. by eexists. }
  rewrite (write_pass_header _ _ n) in Hrun by (done || lia). by apply (Hknown _ n) in Hrun.
Qed.

Lemma write_loop_errors fuel messages b e b' :
  write_loop fuel messages b = (Raise e, b') → e = StructError ∨ e = CorruptMessageStream.
Proof.
  revert messages b. induction fuel as [|fuel IH]; intros messages b; cbn [write_loop]; [done|].
  rewrite run_bind. destruct (write_pass messages b) as [[[next|]|e'] b1] eqn:Hpass; [apply IH|done|].
  intros [= -> _]. by eapply write_pass_errors.
Qed.

Lemma write_raises bytesToWrite b e :
  (write bytesToWrite b).1 = Raise e → e = StructError ∨ e = CorruptMessageStream.
Proof.
  unfold write. rewrite run_bind, run_modify, run_bind, run_gets, run_bind.
  set (b0 := b <| buffer ::= _ |>).
  assert (passes b0 < write_fuel b0)%nat as Hfuel.
  { unfold passes, write_fuel. destruct (curMessageLen b0); lia. }
  pose proof (write_loop_ends _ [] b0 Hfuel) as Hends.
  destruct (write_loop (write_fuel b0) [] b0) as [[[ms|]|e'] b'] eqn:Hrun; cbn; [done| |].
  - by destruct (Hends b').
  - intros [= ->]. by eapply write_loop_errors.
Qed.

(** [write] always ends, whatever lengths, negative ones included, the stream claims: it
    returns the completed messages or raises one of its two errors. *)
Theorem write_ends bytesToWrite b e :
  (write bytesToWrite b).1 = Raise e → e = StructError ∨ e = CorruptMessageStream.
Proof. apply write_raises. Qed.

(** ** Reading a stream that was written *)

(** the bytes of a message on the wire *)
Definition frame (extra : bool) (msg : bytes) : bytes :=
  let n := pack_bytes (Z.of_nat (length msg)) in n ++ msg ++ (if extra then n else []).

Definition fits (msg : bytes) : Prop := Z.of_nat (length msg) <= 2147483647.

Lemma encode_fits msg extra : fits msg → encode msg extra = Ok (frame extra msg).
Proof.
  intros Hfit. unfold encode, frame, pack, fits in *. rewrite bool_decide_true by lia.
  by rewrite Z.mod_small by lia.
Qed.

Lemma encode_ok msg extra f : encode msg extra = Ok f → fits msg ∧ f = frame extra msg.
Proof.
  unfold encode, pack, fits. case_bool_decide; [|done]. intros [= <-]. split; [lia|].
  unfold frame. by rewrite Z.mod_small by lia.
Qed.

Lemma unpack_frame_length msg :
  fits msg → unpack (pack_bytes (Z.of_nat (length msg))) = Some (Z.of_nat (length msg)).
Proof.
  unfold fits. intros Hfit. rewrite unpack_pack_bytes by lia. rewrite bool_decide_false by lia. done.
Qed.

Definition trailer (extra : bool) (msg : bytes) : bytes :=
  if extra then pack_bytes (Z.of_nat (length msg)) else [].

Lemma stream_cons extra m ms :
  concat (frame extra <$> m :: ms) =
    pack_bytes (Z.of_nat (length m)) ++ m ++ trailer extra m ++ concat (frame extra <$> ms).
Proof. rewrite fmap_cons. cbn [concat]. unfold frame at 1. by rewrite <-!(assoc_L (++)). Qed.

(** Between two calls the buffer holds the beginning of what is still to be read: [q]
    is not yet received, and the messages [ms] are not yet completed. *)
Definition awaits (b : MessageBuffer) (q : bytes) (ms : list bytes) : Prop :=
  let extra := extraMessageSizeCheck b in
  match curMessageLen b with
  | None => buffer b ++ q = concat (frame extra <$> ms)
  | Some n => ∃ m ms', ms = m :: ms' ∧ n = Z.of_nat (length m) ∧
      buffer b ++ q = m ++ trailer extra m ++ concat (frame extra <$> ms')
  end.

Lemma awaits_between b buf q ms :
  curMessageLen b = None → buffer b = buf →
  buf ++ q = concat (frame (extraMessageSizeCheck b) <$> ms) → awaits b q ms.
Proof. intros Hcur <-. unfold awaits. by rewrite Hcur. Qed.

(** What a pass does to a buffer that awaits [q]: it completes the next message, or it
    waits for more, and then [q] is not empty unless everything was read. *)
Definition same_reader (b b' : MessageBuffer) (read : nat) : Prop :=
  extraMessageSizeCheck b' = extraMessageSizeCheck b ∧
  messagesEver b' = messagesEver b + Z.of_nat read.

Definition pass_result (acc : list bytes) (b : MessageBuffer) (q : bytes) (ms : list bytes)
    (r : outcome (option (list bytes)) * MessageBuffer) : Prop :=
  (∃ m ms' b', ms = m :: ms' ∧ r = (Ok (Some (acc ++ [m])), b') ∧ awaits b' q ms' ∧
     same_reader b b' 1) ∨
  (∃ b', r = (Ok None, b') ∧ awaits b' q ms ∧ same_reader b b' 0 ∧
     (q = [] → ms = [] ∧ buffer b' = [] ∧ curMessageLen b' = None)).

Lemma pass_awaits_known acc b q ms n :
  Forall fits ms → curMessageLen b = Some n → awaits b q ms →
  pass_result acc b q ms (write_pass acc b).
Proof.
  intros Hfits Hcur Haw. unfold awaits in Haw. rewrite Hcur in Haw.
  destruct Haw as (m & ms' & -> & -> & Hbuf). apply Forall_cons in Hfits as [Hm Hms'].
  rewrite (write_pass_known _ _ (Z.of_nat (length m))) by done.
  assert (length (pack_bytes (Z.of_nat (length m))) = 4%nat) as Hpack by done.
  assert (Hwait : ∀ k : nat, Z.of_nat (length (buffer b)) < Z.of_nat k →
    k = length (m ++ trailer (extraMessageSizeCheck b) m) →
    pass_result acc b q (m :: ms') (Ok None, b)).
  { intros k Hk ->. right. exists b. split_and!; [done| |by split; [done|lia]|].
    - unfold awaits. rewrite Hcur. by exists m, ms'.
    - intros ->. rewrite app_nil_r in Hbuf. rewrite Hbuf, !length_app in Hk. lia. }
  destruct (extraMessageSizeCheck b) eqn:Hextra; unfold trailer in *; case_bool_decide as Hlen.
  - rewrite (assoc_L (++)) in Hbuf. destruct (app_split_long _ _ _ _ Hbuf) as (x' & Hx & Hq).
    { rewrite length_app, Hpack. lia. }
    rewrite <-(assoc_L (++)) in Hx. rewrite Hx.
    rewrite (slice_app m (pack_bytes (Z.of_nat (length m)))) by (rewrite ?Hpack; lia).
    rewrite unpack_frame_length by done. rewrite bool_decide_false by naive_solver.
    rewrite slice_to_app. left. eexists m, ms', _. split_and!; [done|reflexivity| |].
    + apply (awaits_between _ (del_to (Z.of_nat (length m) + 4) (buffer b))); [done|done|].
      rewrite Hx, (assoc_L (++)), del_to_app by (rewrite length_app, Hpack; lia).
      by rewrite <-Hextra in Hq.
    + split; [done|cbn; lia].
  - apply (Hwait (length m + 4)%nat); [lia|]. rewrite length_app, Hpack. done.
  - cbn in Hbuf. destruct (app_split_long _ _ _ _ Hbuf) as (x' & Hx & Hq); [lia|].
    rewrite Hx, slice_to_app. left. eexists m, ms', _. split_and!; [done|reflexivity| |].
    + apply (awaits_between _ (del_to (Z.of_nat (length m)) (buffer b))); [done|done|].
      rewrite Hx, del_to_app by done. by rewrite <-Hextra in Hq.
    + split; [done|cbn; lia].
  - apply (Hwait (length m)); [lia|]. by rewrite app_nil_r.
Qed.

Lemma pass_awaits acc b q ms :
  Forall fits ms → awaits b q ms → pass_result acc b q ms (write_pass acc b).
Proof.
  intros Hfits Haw. destruct (curMessageLen b) as [n|] eqn:Hcur; [by eapply pass_awaits_known|].
  pose proof Haw as Hbuf. unfold awaits in Hbuf. rewrite Hcur in Hbuf.
  destruct (decide (Z.of_nat (length (buffer b)) < 4)) as [Hlt|Hge].
  - rewrite write_pass_short by done. right. exists b. split_and!; [done|done|by split; [done|lia]|].
    intros ->. rewrite app_nil_r in Hbuf. destruct ms as [|m ms]; [done|].
    rewrite Hbuf in Hlt. cbn in Hlt. lia.
  - destruct ms as [|m ms].
    { destruct (buffer b); cbn in *; [lia|done]. }
    pose proof Hfits as [Hm _]%Forall_cons. rewrite stream_cons in Hbuf.
    destruct (app_split_long _ _ _ _ Hbuf) as (x' & Hx & Hq); [cbn; lia|].
    rewrite (write_pass_header _ _ (Z.of_nat (length m))); [|done|lia|].
    2: { rewrite Hx. change 4 with (Z.of_nat (length (pack_bytes (Z.of_nat (length m))))).
         rewrite slice_to_app. by apply unpack_frame_length. }
    set (b1 := b <| curMessageLen := _ |> <| buffer ::= _ |>).
    assert (awaits b1 q (m :: ms)) as Haw1.
    { unfold awaits, b1. cbn. exists m, ms. split_and!; [done..|].
      by rewrite Hx, del_to_app. }
    pose proof (pass_awaits_known acc b1 q (m :: ms) _ Hfits eq_refl Haw1) as Hres.
    exact Hres.
Qed.

Lemma loop_awaits fuel acc b q ms :
  (passes b < fuel)%nat → Forall fits ms → awaits b q ms →
  ∃ k b', write_loop fuel acc b = (Ok (Some (acc ++ take k ms)), b') ∧
    awaits b' q (drop k ms) ∧ same_reader b b' (length (take k ms)) ∧
    (q = [] → drop k ms = [] ∧ buffer b' = [] ∧ curMessageLen b' = None).
Proof.
  revert acc b ms. induction fuel as [|fuel IH]; intros acc b ms Hfuel Hfits Haw; [lia|].
  cbn [write_loop]. rewrite run_bind.
  destruct (pass_awaits acc b q ms Hfits Haw)
    as [(m & ms' & b' & -> & Hrun & Haw' & Hsame)|(b' & Hrun & Haw' & Hsame & Hend)]; rewrite Hrun.
  - pose proof (write_pass_progress _ _ _ _ Hrun). apply Forall_cons in Hfits as [_ Hfits].
    destruct (IH (acc ++ [m]) b' ms') as (k & b'' & Hrun' & Haw'' & Hsame' & Hend); [lia|done..|].
    exists (S k), b''. cbn [take drop]. rewrite Hrun', <-(assoc_L (++)). split_and!; [done..| |done].
    destruct Hsame as [E1 M1], Hsame' as [E2 M2]. split; [congruence|]. rewrite M2, M1. cbn. lia.
  - exists 0%nat, b'. cbn. rewrite app_nil_r. done.
Qed.

(** One call of [write] delivers the next messages and keeps awaiting the rest. *)
Lemma write_awaits b c q ms :
  Forall fits ms → awaits b (c ++ q) ms →
  ∃ k b', write c b = (Ok (take k ms), b') ∧ awaits b' q (drop k ms) ∧
    same_reader b b' (length (take k ms)) ∧
    (q = [] → drop k ms = [] ∧ buffer b' = [] ∧ curMessageLen b' = None).
Proof.
  intros Hfits Haw. unfold write. rewrite run_bind, run_modify, run_bind, run_gets, run_bind.
  set (b0 := b <| buffer ::= _ |>).
  assert (passes b0 < write_fuel b0)%nat as Hfuel.
  { unfold passes, write_fuel. destruct (curMessageLen b0); lia. }
  assert (awaits b0 q ms) as Haw0.
  { unfold awaits, b0 in *. cbn. by rewrite <-(assoc_L (++)). }
  destruct (loop_awaits _ [] b0 q ms Hfuel Hfits Haw0) as (k & b' & Hrun & Haw' & Hsame & Hend).
  rewrite Hrun, run_lift_option. by exists k, b'.
Qed.

(** The messages delivered for a stream that arrives in the pieces [chunks]. *)
Fixpoint feed (chunks : list bytes) : M MessageBuffer (list bytes) :=
  match chunks with
  | [] => mret []
  | c :: chunks => ms ← write c; rest ← feed chunks; mret (ms ++ rest)
  end.

Lemma feed_awaits chunks b q ms :
  Forall fits ms → awaits b (concat chunks ++ q) ms →
  ∃ k b', feed chunks b = (Ok (take k ms), b') ∧ awaits b' q (drop k ms) ∧
    same_reader b b' (length (take k ms)) ∧
    (chunks ≠ [] → q = [] → drop k ms = [] ∧ buffer b' = [] ∧ curMessageLen b' = None).
Proof.
  revert b ms. induction chunks as [|c chunks IH]; intros b ms Hfits Haw.
  { exists 0%nat, b. split_and!; [done|exact Haw| |done]. split; [done|]. rewrite take_0. cbn [length]. lia. }
  cbn [feed concat] in *. rewrite <-app_assoc in Haw.
  destruct (write_awaits b c (concat chunks ++ q) ms Hfits Haw) as (k & b1 & Hrun & Haw1 & [E1 M1] & Hend).
  destruct (IH b1 (drop k ms)) as (k' & b2 & Hrun' & Haw2 & [E2 M2] & Hend').
  { by apply Forall_drop. } { done. }
  exists (k + k')%nat, b2. rewrite run_bind, Hrun, run_bind, Hrun', run_mret.
  pose proof (take_take_drop ms k k') as Htake.
  rewrite Htake, <-drop_drop. split_and!; [done|done| |].
  - split; [congruence|]. rewrite M2, M1, <-Htake, length_app. lia.
  - intros _ ->. destruct (decide (chunks = [])) as [->|Hne]; [|by apply Hend'].
    destruct (Hend eq_refl) as (Hd & Hb & Hc). cbn in Hrun'. injection Hrun' as Hk' <-.
    rewrite Hd, drop_nil. done.
Qed.

(** A reader that has seen the beginning of a stream of frames has the first messages, and
    all of them once it has seen the whole. *)
Lemma feed_prefix extra chunks q ms :
  Forall fits ms → concat chunks ++ q = concat (frame extra <$> ms) →
  ∃ k b', feed chunks (new_MessageBuffer extra) = (Ok (take k ms), b') ∧ (q = [] → take k ms = ms).
Proof.
  intros Hfits Hcat. destruct (feed_awaits chunks (new_MessageBuffer extra) q ms Hfits)
    as (k & b' & Hrun & _ & _ & Hend); [unfold awaits; cbn; done|].
  exists k, b'. split; [done|]. intros ->. destruct chunks as [|c chunks].
  - cbn in Hrun. injection Hrun as Hk _. destruct ms as [|m ms]; [by rewrite take_nil|]. exfalso.
    by rewrite stream_cons in Hcat.
  - destruct Hend as (Hd & _ & _); [done|done|]. rewrite <-(take_drop k ms) at 2. by rewrite Hd, app_nil_r.
Qed.

(** C11. Messages written one after the other with [encode] and read in any pieces come out
    unchanged, in order, each once, and nothing is left in the buffer. *)
Theorem framing_roundtrip extra ms fs chunks :
  Forall2 (λ m f, encode m extra = Ok f) ms fs → concat chunks = concat fs → chunks ≠ [] →
  feed chunks (new_MessageBuffer extra) =
    (Ok ms, {| buffer := []; messagesEver := Z.of_nat (length ms);
               extraMessageSizeCheck := extra; curMessageLen := None |}).
Proof.
  intros Henc Hcat Hne.
  assert (Forall fits ms ∧ fs = frame extra <$> ms) as [Hfits ->].
  { clear -Henc. induction Henc as [|m f ms fs Hf _ [IH1 ->]]; [by split|].
    apply encode_ok in Hf as [Hm ->]. split; [by constructor|done]. }
  destruct (feed_awaits chunks (new_MessageBuffer extra) [] ms Hfits) as (k & b' & Hrun & _ & [E M] & Hend).
  { unfold awaits. cbn. by rewrite app_nil_r. }
  destruct (Hend Hne eq_refl) as (Hd & Hb & Hc).
  assert (take k ms = ms) as Ht by (rewrite <-(take_drop k ms) at 2; by rewrite Hd, app_nil_r).
  rewrite Hrun, Ht. f_equal. destruct b' as [buf ever ex cur]; cbn in *. subst. rewrite Ht. f_equal. 
Qed.

(** A frame whose two lengths differ is never delivered: the reader raises. *)
Theorem corrupt_frame_detected ever body n size rest :
  pack (Z.of_nat (length body)) = Some n → length size = 4%nat → size ≠ n →
  (write (n ++ body ++ size ++ rest)
     {| buffer := []; messagesEver := ever; extraMessageSizeCheck := true; curMessageLen := None |}).1
    = Raise CorruptMessageStream.
Proof.
  intros Hn Hsize Hne. unfold write. rewrite run_bind, run_modify, run_bind, run_gets, run_bind.
  unfold pack in Hn. case_bool_decide as Hfit; [|done]. injection Hn as <-.
  rewrite Z.mod_small in * by lia.
  set (hdr := pack_bytes (Z.of_nat (length body))) in *.
  set (b := _ <| buffer ::= _ |>).
  assert (buffer b = hdr ++ body ++ size ++ rest) as Hbuf by done. 
  assert (length hdr = 4%nat) as Hhdr by done.
  unfold write_fuel. cbn [write_loop]. rewrite run_bind.
  rewrite (write_pass_header _ _ (Z.of_nat (length body))); [|done| |].
  2: { rewrite Hbuf, length_app, Hhdr. lia. }
  2: { rewrite Hbuf. change 4 with (Z.of_nat (length hdr)). rewrite slice_to_app.
       apply unpack_frame_length. unfold fits. lia. }
  rewrite (write_pass_known _ _ (Z.of_nat (length body))) by done. cbn [extraMessageSizeCheck].
  set (b1 := b <| curMessageLen := _ |> <| buffer ::= _ |>).
  assert (extraMessageSizeCheck b1 = true) as -> by done.
  assert (buffer b1 = body ++ size ++ rest) as ->.
  { change (buffer b1) with (del_to 4 (buffer b)). by rewrite Hbuf, del_to_app. }
  rewrite bool_decide_true by (rewrite !length_app, Hsize; lia).
  rewrite slice_app by (rewrite ?Hsize; lia).
  assert (∃ sz, unpack size = Some sz) as [sz Hsz].
  { destruct size as [|? [|? [|? [|? []]]]]; try done. by eexists. }
  rewrite Hsz, bool_decide_true; [done|].
  intros ->. apply pack_unpack in Hsz. unfold pack in Hsz. rewrite bool_decide_true in Hsz by done.
  apply (inj Some) in Hsz. rewrite Z.mod_small in Hsz by lia. by apply Hne.
Qed.

(** Both packings: what [unpack] reads is what [pack] wrote, on the whole range of a
    32-bit integer and on every four bytes. *)
Theorem pack_unpack_inverse :
  (∀ n, is_Some (pack n) ↔ -2147483648 <= n <= 2147483647) ∧
  (∀ n b, pack n = Some b ↔ unpack b = Some n).
Proof.
  split.
  - intros n. unfold pack. case_bool_decide as Hn; [by split; [|by eexists]|].
    split; [by intros []|done].
  - intros n b. split; [apply unpack_pack|apply pack_unpack].
Qed.

(** ** Runs in which the hypotheses hold *)

Lemma framing_roundtrip_witness :
  feed [[Byte.x02; Byte.x00]; [Byte.x00; Byte.x00; Byte.x41; Byte.x42; Byte.x02]; [Byte.x00; Byte.x00; Byte.x00]]
    (new_MessageBuffer true) =
    (Ok [[Byte.x41; Byte.x42]], {| buffer := []; messagesEver := 1; extraMessageSizeCheck := true;
                                   curMessageLen := None |}).
Proof.
  exact (framing_roundtrip true [[Byte.x41; Byte.x42]]
    [[Byte.x02; Byte.x00; Byte.x00; Byte.x00; Byte.x41; Byte.x42; Byte.x02; Byte.x00; Byte.x00; Byte.x00]]
    [[Byte.x02; Byte.x00]; [Byte.x00; Byte.x00; Byte.x41; Byte.x42; Byte.x02]; [Byte.x00; Byte.x00; Byte.x00]]
    ltac:(repeat constructor) eq_refl ltac:(discriminate)).
Defined.

Lemma corrupt_frame_detected_witness :
  (write ([Byte.x01; Byte.x00; Byte.x00; Byte.x00] ++ [Byte.x41] ++ [Byte.x03; Byte.x00; Byte.x00; Byte.x00] ++ [])
     {| buffer := []; messagesEver := 0; extraMessageSizeCheck := true; curMessageLen := None |}).1
    = Raise CorruptMessageStream.
Proof.
  apply (corrupt_frame_detected 0 [Byte.x41] [Byte.x01; Byte.x00; Byte.x00; Byte.x00]
    [Byte.x03; Byte.x00; Byte.x00; Byte.x00] []); [reflexivity|reflexivity|discriminate].
Defined.

Lemma write_ends_witness : StructError = StructError ∨ StructError = CorruptMessageStream.
Proof.
  apply (write_ends [Byte.xff; Byte.xff; Byte.xff; Byte.xff; Byte.x41; Byte.x42; Byte.x43] (new_MessageBuffer true)).
  vm_compute. reflexivity.
Defined.
