(* ===== verification/SocketWatcher.v ===== *)
(** * Watching sockets ([object_database/socket_watcher.py])

    [SocketWatcher] keeps, per watched socket, the file descriptor it was registered
    under and whether it is watched for reading and for writing, and the way back from
    descriptors to sockets.  The kernel's epoll set is part of the state, with the
    errors [register], [modify] and [unregister] document.  [fileno] gives the present
    descriptor of a socket, negative once it is closed. *)

From stdpp Require Import options.
From S2P Require Import Prelude.

Local Open Scope Z_scope.

Inductive SockOrFd :=
  | AnFd (fd : Z)
  | ASocket (id : Z).

#[export] Instance SockOrFd_eq_dec : EqDecision SockOrFd.
Proof. solve_decision. Defined.
#[export] Instance SockOrFd_countable : Countable SockOrFd.
Proof.
  refine (inj_countable' (λ k, match k with AnFd fd => inl fd | ASocket i => inr i end)
            (λ x, match x with inl fd => AnFd fd | inr i => ASocket i end) _). by intros [].
Defined.

Record SocketWatcher := {
  closed : bool;               (* the epoll object was closed *)
  epoll : gmap Z (bool * bool);
  sockets : gmap SockOrFd (Z * bool * bool);
  fdToSocketObj : gmap Z SockOrFd;
}.
#[export] Instance SocketWatcher_settable : Settable SocketWatcher :=
  λ r, {| closed := closed r; epoll := epoll r; sockets := sockets r; fdToSocketObj := fdToSocketObj r |}.

Definition new_SocketWatcher : SocketWatcher := {| closed := false; epoll := ∅; sockets := ∅; fdToSocketObj := ∅ |}.

Section watcher.
Variable fileno : Z → Z.

Definition fdForSockOrFd (s : SockOrFd) : Z :=
  match s with AnFd fd => fd | ASocket i => fileno i end.

Definition canRead (s : SockOrFd) (w : SocketWatcher) : bool :=
  match sockets w !! s with Some (_, r, _) => r | None => false end.
Definition canWrite (s : SockOrFd) (w : SocketWatcher) : bool :=
  match sockets w !! s with Some (_, _, wr) => wr | None => false end.
Definition contains (s : SockOrFd) (w : SocketWatcher) : bool :=
  bool_decide (is_Some (sockets w !! s)).

(** epoll.  The mask of a registered descriptor is the pair (readable, writable).  An epoll
    object that was closed refuses every call. *)
Definition with_epoll (k : gmap Z (bool * bool) → M SocketWatcher unit) : M SocketWatcher unit :=
  c ← gets closed; if c : bool then raise ValueError else e ← gets epoll; k e.
Definition epoll_register (fd : Z) (mask : bool * bool) : M SocketWatcher unit :=
  with_epoll (λ e,
  match e !! fd with
  | Some _ => raise OSError
  | None => modify (λ w, w <| epoll ::= <[fd := mask]> |>)
  end).
Definition epoll_modify (fd : Z) (mask : bool * bool) : M SocketWatcher unit :=
  with_epoll (λ e,
  match e !! fd with
  | None => raise OSError
  | Some _ => modify (λ w, w <| epoll ::= <[fd := mask]> |>)
  end).
Definition epoll_unregister (fd : Z) : M SocketWatcher unit :=
  with_epoll (λ e,
  match e !! fd with
  | None => raise OSError
  | Some _ => modify (λ w, w <| epoll ::= delete fd |>)
  end).

(** Returns [None] where the code falls off the end of the function. *)
Definition discard (s : SockOrFd) (discardRead discardWrite : bool) : M SocketWatcher (option bool) :=
  ss ← gets sockets;
  match ss !! s with
  | None => mret (Some false)
  | Some (curFd, currRead, currWrite) =>
      let forRead := if discardRead then false else currRead in
      let forWrite := if discardWrite then false else currWrite in
      let fd := fdForSockOrFd s in
      if bool_decide (fd < 0) || (negb forRead && negb forWrite) then
        modify (λ w, w <| sockets ::= delete s |>);;
        back ← gets fdToSocketObj;
        _ ← lift_option KeyError (back !! curFd);
        modify (λ w, w <| fdToSocketObj ::= delete curFd |>);;
        tryM (epoll_unregister curFd) (λ _, mret tt);;
        mret (Some true)
      else if negb (eqb forRead currRead) || negb (eqb forWrite currWrite) then
        modify (λ w, w <| sockets ::= <[s := (curFd, forRead, forWrite)]> |>);;
        tryM (epoll_modify curFd (forRead, forWrite);; mret (Some true)) (λ _, mret None)
      else mret None
  end.

(** the first branch of [add]: a socket that is not watched *)
Definition add_new (s : SockOrFd) (addRead addWrite : bool) : M SocketWatcher (option bool) :=
  let fd := fdForSockOrFd s in
  tryM
    (epoll_register fd (addRead, addWrite);;
     modify (λ w, w <| sockets ::= <[s := (fd, addRead, addWrite)]> |>);;
     modify (λ w, w <| fdToSocketObj ::= <[fd := s]> |>);;
     mret (Some true))
    (λ _, mret (Some false)).

Definition add (s : SockOrFd) (addRead addWrite : bool) : M SocketWatcher (option bool) :=
  let fd := fdForSockOrFd s in
  ss ← gets sockets;
  if bool_decide (fd < 0) then
    whenM (bool_decide (is_Some (ss !! s))) (discard s true true;; mret tt);;
    mret (Some false)
  else
    match ss !! s with
    | None => add_new s addRead addWrite
    | Some (currFd, currRead, currWrite) =>
        if bool_decide (fd ≠ currFd) then
          (* the socket is no longer watched when [add] calls itself *)
          discard s true true;; add_new s addRead addWrite
        else
          let forRead := addRead || currRead in
          let forWrite := addWrite || currWrite in
          if negb (eqb forRead currRead) || negb (eqb forWrite currWrite) then
            tryM
              (epoll_modify fd (forRead, forWrite);;
               modify (λ w, w <| sockets ::= <[s := (fd, forRead, forWrite)]> |>);;
               mret (Some true))
              (λ _, mret (Some false))
          else mret None
    end.

Definition addForRead (s : SockOrFd) : M SocketWatcher (option bool) := add s true false.
Definition addForWrite (s : SockOrFd) : M SocketWatcher (option bool) := add s false true.
Definition discardForRead (s : SockOrFd) : M SocketWatcher (option bool) := discard s true false.
Definition discardForWrite (s : SockOrFd) : M SocketWatcher (option bool) := discard s false true.

(** Removes the sockets that were closed, and returns them. *)
Definition gc : M SocketWatcher (list SockOrFd) :=
  ss ← gets sockets;
  foldM (map_to_list ss).*1 [] (λ s acc,
    if bool_decide (fdForSockOrFd s < 0) then discard s true true;; mret (acc ++ [s])
    else mret acc).

(** what [epoll] reports, as sets of sockets; a descriptor without a socket is a [KeyError] *)
Definition poll (events : list (Z * bool * bool)) :
    M SocketWatcher (gset SockOrFd * gset SockOrFd) :=
  with_epoll (λ _, mret tt);;
  foldM events (∅, ∅) (λ ev acc,
    let '(fd, r, wr) := ev in
    back ← gets fdToSocketObj;
    s ← (if (r || wr) : bool then lift_option KeyError (back !! fd) else mret (AnFd fd));
    mret (if r : bool then {[s]} ∪ acc.1 else acc.1, if wr : bool then {[s]} ∪ acc.2 else acc.2)).

Definition teardown : M SocketWatcher unit :=
  modify (λ w, w <| closed := true |>);;
  modify (λ w, w <| sockets := ∅ |>);;
  modify (λ w, w <| fdToSocketObj := ∅ |>).

(** ** The tables agree *)

(** Every watched socket can be found from its descriptor, every descriptor that epoll
    knows leads back to a watched socket, and epoll has that socket's mask.  (The kernel
    forgets a descriptor when it is closed.)  After [teardown] nothing is watched. *)
Record watch_ok (w : SocketWatcher) : Prop := {
  wk_back s fd r wr : sockets w !! s = Some (fd, r, wr) → fdToSocketObj w !! fd = Some s;
  wk_mask s fd r wr m : sockets w !! s = Some (fd, r, wr) → epoll w !! fd = Some m → m = (r, wr);
  wk_closed : closed w = true → sockets w = ∅;
  wk_epoll fd m : closed w = false → epoll w !! fd = Some m → is_Some (fdToSocketObj w !! fd);
  wk_sockets fd s : fdToSocketObj w !! fd = Some s → ∃ r wr, sockets w !! s = Some (fd, r, wr);
}.

Lemma watch_ok_new : watch_ok new_SocketWatcher.
Proof. split; cbn; intros *; rewrite ?lookup_empty; done. Qed.

Lemma watched_open w s x : watch_ok w → sockets w !! s = Some x → closed w = false.
Proof. intros Hw Hs. destruct (closed w) eqn:Hc; [|done]. by rewrite (wk_closed _ Hw Hc), lookup_empty in Hs. Qed.

Lemma watch_ok_forget w fd : watch_ok w → watch_ok (w <| epoll ::= delete fd |>).
Proof.
  intros [Hb Hm Hc He Hs]. split; cbn; try done.
  - intros s fd1 r wr m Hs1 [_ ?]%lookup_delete_Some. eauto.
  - intros fd1 m Hc' [_ ?]%lookup_delete_Some. eauto.
Qed.

Lemma watch_ok_teardown w : watch_ok w → watch_ok (teardown w).2.
Proof. intros _. split; cbn; intros *; rewrite ?lookup_empty; try done. Qed.

Lemma watch_ok_remove w s fd r wr :
  watch_ok w → sockets w !! s = Some (fd, r, wr) →
  watch_ok (w <| sockets ::= delete s |> <| fdToSocketObj ::= delete fd |> <| epoll ::= delete fd |>).
Proof.
  intros Hw Hsock. pose proof (watched_open _ _ _ Hw Hsock) as Hopen.
  destruct Hw as [Hb Hm Hc He Hs]. pose proof (Hb _ _ _ _ Hsock) as Hback. split; cbn.
  - intros s' fd' r' wr' [Hne Hs']%lookup_delete_Some. rewrite lookup_delete_ne; [by eapply Hb|].
    intros ->. apply Hb in Hs'. congruence.
  - intros s' fd' r' wr' m [Hne Hs']%lookup_delete_Some [_ Hm']%lookup_delete_Some. eauto.
  - congruence.
  - intros fd' m _ [Hne Hm']%lookup_delete_Some. rewrite lookup_delete_ne by done. by eapply He.
  - intros fd' s' [Hne Hs']%lookup_delete_Some. destruct (Hs _ _ Hs') as (r' & wr' & Hs'').
    exists r', wr'. rewrite lookup_delete_ne; [done|]. intros ->. congruence.
Qed.

Lemma watch_ok_remask w s fd r wr r' wr' :
  watch_ok w → sockets w !! s = Some (fd, r, wr) →
  watch_ok (w <| sockets ::= <[s := (fd, r', wr')]> |> <| epoll ::= alter (λ _, (r', wr')) fd |>).
Proof.
  intros Hw Hsock. pose proof (watched_open _ _ _ Hw Hsock) as Hopen.
  destruct Hw as [Hb Hm Hc He Hs]. pose proof (Hb _ _ _ _ Hsock) as Hback. split; cbn.
  - intros s1 fd1 r1 wr1. rewrite lookup_insert. case_decide; subst; [by intros [= <- _ _]|eauto].
  - intros s1 fd1 r1 wr1 m. rewrite lookup_insert, lookup_alter. case_decide as Hd; subst.
    + intros [= <- <- <-]. rewrite decide_True by done. by destruct (epoll w !! fd) as [?|]; intros [= <-].
    + intros Hs1. rewrite decide_False; [by eapply Hm|]. intros ->. apply Hb in Hs1. congruence.
  - congruence.
  - intros fd1 m _. rewrite lookup_alter. case_decide; subst; [intros _; by eexists|eauto].
  - intros fd1 s1 Hf. destruct (Hs _ _ Hf) as (r1 & wr1 & Hs1). rewrite lookup_insert.
    case_decide; subst; [|by exists r1, wr1]. exists r', wr'. congruence.
Qed.

(** epoll after an attempt to change or to drop a mask *)
Lemma alter_absent fd m (e : gmap Z (bool * bool)) : e !! fd = None → alter (λ _, m) fd e = e.
Proof.
  intros Hm. apply map_eq. intros i. rewrite lookup_alter. case_decide; subst; by rewrite ?Hm.
Qed.

Lemma try_modify_run {A} fd m (k : M SocketWatcher A) h w :
  closed w = false →
  tryM (epoll_modify fd m;; k) h w =
    match epoll w !! fd with
    | Some _ => tryM k h (w <| epoll ::= alter (λ _, m) fd |>)
    | None => h OSError w
    end.
Proof.
  intros Hc. unfold tryM, epoll_modify, with_epoll. rewrite run_bind, run_bind, run_gets, Hc, run_bind, run_gets.
  destruct (epoll w !! fd) as [m'|] eqn:Hm; [|done]. rewrite run_modify.
  assert (<[fd := m]> (epoll w) = alter (λ _, m) fd (epoll w)) as Heq.
  { apply map_eq. intros i. rewrite lookup_insert, lookup_alter. case_decide; subst; [by rewrite Hm|done]. }
  destruct w; cbn in *. by rewrite Heq.
Qed.

Lemma try_unregister_run fd w :
  closed w = false →
  tryM (epoll_unregister fd) (λ _, mret tt) w = (Ok tt, w <| epoll ::= delete fd |>).
Proof.
  intros Hc. unfold tryM, epoll_unregister, with_epoll. rewrite run_bind, run_gets, Hc, run_bind, run_gets.
  destruct (epoll w !! fd) as [m'|] eqn:Hm; [done|]. destruct w; cbn in *.
  by rewrite delete_id by done.
Qed.

Lemma discard_ok s dr dw w :
  watch_ok w → wp (discard s dr dw) (λ _ w', watch_ok w' ∧
    (∀ fd r wr, sockets w !! s = Some (fd, r, wr) → dr = true → dw = true →
       sockets w' !! s = None ∧ fdToSocketObj w' = delete fd (fdToSocketObj w) ∧
       epoll w' = delete fd (epoll w)))
    (λ _ _, False) w.
Proof.
  intros Hw. unfold discard. apply wp_gets_bind.
  destruct (sockets w !! s) as [[[fd r] wr]|] eqn:Hsock; [|by split].
  pose proof (wk_back _ Hw _ _ _ _ Hsock) as Hback. pose proof (watched_open _ _ _ Hw Hsock) as Hopen.
  destruct (bool_decide (fdForSockOrFd s < 0) || _) eqn:Hrem.
  - unfold wp. autorewrite with run. cbn. rewrite Hback. autorewrite with run.
    rewrite try_unregister_run by done. cbn.
    split; [by eapply (watch_ok_remove w)|].
    intros ? ? ? [= <- <- <-] _ _. by rewrite lookup_delete_eq.
  - assert (dr = true → dw = true → False) as Hnot.
    { intros -> ->. cbn in Hrem. by rewrite orb_true_r in Hrem. }
    destruct (negb (eqb (if dr then false else r) r) || negb (eqb (if dw then false else wr) wr)).
    2: { cbn. split; [exact Hw|]. intros; by destruct Hnot. }
    unfold wp. rewrite run_bind, run_modify, try_modify_run by done. cbn.
    pose proof (watch_ok_remask w s fd r wr (if dr then false else r) (if dw then false else wr) Hw Hsock)
      as Hre.
    destruct (epoll w !! fd) as [m|] eqn:Hm; cbn; (split; [|intros; by destruct Hnot]); [exact Hre|].
    destruct w; cbn in *. by rewrite alter_absent in Hre.
Qed.

Lemma add_new_ok s ar aw w :
  watch_ok w → sockets w !! s = None → fdToSocketObj w !! fdForSockOrFd s = None →
  wp (add_new s ar aw) (λ _ w', watch_ok w') (λ _ _, False) w.
Proof.
  intros Hw Hsock Hfree. unfold wp, add_new, tryM, epoll_register, with_epoll.
  rewrite !run_bind, run_gets. destruct (closed w) eqn:Hopen; [done|].
  rewrite run_bind, run_gets.
  destruct (epoll w !! fdForSockOrFd s) as [m|] eqn:Hreg; [done|]. autorewrite with run.
  destruct Hw as [Hb Hm Hc He Hs]. split; cbn.
  - intros s1 fd1 r1 wr1. rewrite !lookup_insert. case_decide as Hd; subst.
    + intros [= <- _ _]. by rewrite decide_True.
    + intros Hs1. rewrite decide_False; [eauto|]. intros <-. apply Hb in Hs1. congruence.
  - intros s1 fd1 r1 wr1 m. rewrite !lookup_insert. case_decide as Hd; subst.
    + intros [= <- <- <-]. rewrite decide_True by done. by intros [= <-].
    + intros Hs1. rewrite decide_False; [eauto|]. intros <-. apply Hb in Hs1. congruence.
  - congruence.
  - intros fd1 m _. rewrite !lookup_insert. case_decide; [by eexists|eauto].
  - intros fd1 s1. rewrite !lookup_insert. case_decide as Hd; subst.
    + intros [= <-]. exists ar, aw. by rewrite decide_True.
    + intros Hf. destruct (Hs _ _ Hf) as (r1 & wr1 & Hs1). exists r1, wr1.
      rewrite decide_False; [done|]. intros <-. congruence.
Qed.

(** The descriptor of a socket is not the one another watched socket is known by. *)
Definition own_fd (s : SockOrFd) (w : SocketWatcher) : Prop :=
  ∀ s', fdToSocketObj w !! fdForSockOrFd s = Some s' → s' = s.

Lemma own_fd_free s w :
  watch_ok w → own_fd s w → sockets w !! s = None → fdToSocketObj w !! fdForSockOrFd s = None.
Proof.
  intros Hw Hown Hsock. destruct (fdToSocketObj w !! fdForSockOrFd s) as [s'|] eqn:Hf; [|done].
  pose proof (Hown s' Hf) as ->. destruct (wk_sockets _ Hw _ _ Hf) as (? & ? & ?). congruence.
Qed.

Lemma add_ok s ar aw w :
  watch_ok w → own_fd s w → wp (add s ar aw) (λ _ w', watch_ok w') (λ _ _, False) w.
Proof.
  intros Hw Hown. unfold add. apply wp_gets_bind. case_bool_decide as Hneg.
  { apply wp_bind. eapply wp_mono with (Q := λ _ w', watch_ok w') (E := λ _ _, False); [|done|done].
    case_bool_decide; cbn [whenM]; [|exact Hw]. apply wp_bind.
    eapply wp_mono; [by apply discard_ok|by intros ? ? [? _]|done]. }
  destruct (sockets w !! s) as [[[fd r] wr]|] eqn:Hsock.
  2: { apply add_new_ok; [done|done|]. by apply own_fd_free. }
  pose proof (wk_back _ Hw _ _ _ _ Hsock) as Hback. pose proof (watched_open _ _ _ Hw Hsock) as Hopen.
  case_bool_decide as Hfd.
  - apply wp_bind. eapply wp_mono; [by apply discard_ok| |done].
    intros _ w' [Hw' Hgone]. destruct (Hgone _ _ _ Hsock eq_refl eq_refl) as (Hnone & Hf' & _).
    apply add_new_ok; [done|done|]. apply own_fd_free; [done| |done].
    intros s' Hs'. rewrite Hf' in Hs'. apply lookup_delete_Some in Hs' as [_ Hs']. by apply Hown.
  - assert (fdForSockOrFd s = fd) as Heq by (destruct (decide (fdForSockOrFd s = fd)); tauto).
    destruct (negb (eqb (ar || r) r) || negb (eqb (aw || wr) wr)); [|exact Hw].
    unfold wp. rewrite try_modify_run, Heq by done.
    destruct (epoll w !! fd) as [m|] eqn:Hm; [|exact Hw]. unfold tryM. rewrite run_bind, run_modify.
    exact (watch_ok_remask w s fd r wr (ar || r) (aw || wr) Hw Hsock).
Qed.

(** What [add] and [discard] do to the table: nothing to other sockets, and this one is
    only ever watched under its descriptor or the one it had. *)
Definition only_changes (s : SockOrFd) (w w' : SocketWatcher) : Prop :=
  closed w' = closed w ∧
  (∀ k, k ≠ s → sockets w' !! k = sockets w !! k) ∧
  (∀ fd r wr, sockets w' !! s = Some (fd, r, wr) →
     fd = fdForSockOrFd s ∧ 0 <= fd ∨ ∃ r' wr', sockets w !! s = Some (fd, r', wr')).

Lemma only_changes_refl s w : only_changes s w w.
Proof. split_and!; [done|done|]. intros fd r wr Hs. right. by exists r, wr. Qed.

Lemma only_changes_trans s w1 w2 w3 : only_changes s w1 w2 → only_changes s w2 w3 → only_changes s w1 w3.
Proof.
  intros (Hc1 & Hk1 & Hs1) (Hc2 & Hk2 & Hs2). split_and!; [congruence| |].
  - intros k Hk. by rewrite Hk2, Hk1.
  - intros fd r wr Hs. destruct (Hs2 _ _ _ Hs) as [?|(r' & wr' & Hs')]; [by left|]. by eapply Hs1.
Qed.

Lemma only_changes_delete s w w' :
  sockets w' = delete s (sockets w) → closed w' = closed w → only_changes s w w'.
Proof.
  intros Hs Hc. split_and!; [done| |].
  - intros k Hk. by rewrite Hs, lookup_delete_ne.
  - intros fd r wr. by rewrite Hs, lookup_delete_eq.
Qed.

Lemma only_changes_insert s w w' fd r wr :
  sockets w' = <[s := (fd, r, wr)]> (sockets w) → closed w' = closed w →
  (fd = fdForSockOrFd s ∧ 0 <= fd ∨ ∃ r' wr', sockets w !! s = Some (fd, r', wr')) →
  only_changes s w w'.
Proof.
  intros Hs Hc Hfd. split_and!; [done| |].
  - intros k Hk. by rewrite Hs, lookup_insert_ne.
  - intros fd' r' wr'. rewrite Hs, lookup_insert_eq. by intros [= <- _ _].
Qed.

Lemma discard_changes s dr dw w : watch_ok w → only_changes s w (discard s dr dw w).2.
Proof.
  intros Hw. unfold discard. rewrite run_bind, run_gets.
  destruct (sockets w !! s) as [[[fd r] wr]|] eqn:Hsock; [|apply only_changes_refl].
  pose proof (wk_back _ Hw _ _ _ _ Hsock) as Hback. pose proof (watched_open _ _ _ Hw Hsock) as Hopen.
  destruct (bool_decide (fdForSockOrFd s < 0) || _).
  - autorewrite with run. cbn. rewrite Hback. autorewrite with run. rewrite try_unregister_run by done.
    by apply only_changes_delete.
  - destruct (negb _ || negb _); [|apply only_changes_refl].
    rewrite run_bind, run_modify, try_modify_run by done. cbn.
    assert (∀ e, only_changes s w (w <| sockets ::= <[s := (fd, if dr then false else r,
        if dw then false else wr)]> |> <| epoll ::= e |>)) as Hch.
    { intros e. eapply only_changes_insert; [done|done|right; by exists r, wr]. }
    destruct (epoll w !! fd); [apply Hch|apply (Hch (λ e, e))].
Qed.

Lemma add_new_changes s ar aw w : 0 <= fdForSockOrFd s → only_changes s w (add_new s ar aw w).2.
Proof.
  intros Hfd. unfold add_new, tryM, epoll_register, with_epoll. rewrite !run_bind, run_gets.
  destruct (closed w) eqn:Hc; [apply only_changes_refl|]. rewrite run_bind, run_gets.
  destruct (epoll w !! fdForSockOrFd s); [apply only_changes_refl|].
  eapply only_changes_insert; [done|done|by left].
Qed.

Lemma add_changes s ar aw w : watch_ok w → only_changes s w (add s ar aw w).2.
Proof.
  intros Hw. unfold add. rewrite run_bind, run_gets.
  pose proof (discard_changes s true true w Hw) as Hd. pose proof (discard_ok s true true w Hw) as Hdo.
  unfold wp in Hdo. case_bool_decide as Hneg.
  { rewrite run_bind. unfold whenM. case_bool_decide; [|apply only_changes_refl].
    rewrite run_bind. by destruct (discard s true true w) as [[?|?] w']. }
  destruct (sockets w !! s) as [[[fd r] wr]|] eqn:Hsock; [|apply add_new_changes; lia].
  pose proof (watched_open _ _ _ Hw Hsock) as Hopen. case_bool_decide.
  - rewrite run_bind. destruct (discard s true true w) as [[?|?] w']; [|done].
    eapply only_changes_trans; [exact Hd|apply add_new_changes; lia].
  - destruct (negb _ || negb _); [|apply only_changes_refl]. rewrite try_modify_run by done.
    destruct (epoll w !! fdForSockOrFd s); [|apply only_changes_refl].
    eapply only_changes_insert; [done|done|right].
    exists r, wr. rewrite Hsock. repeat f_equal. destruct (decide (fdForSockOrFd s = fd)); [done|tauto].
Qed.

Lemma discard_closed s dr dw w :
  watch_ok w → fdForSockOrFd s < 0 → sockets (discard s dr dw w).2 !! s = None.
Proof.
  intros Hw Hneg. pose proof (discard_ok s dr dw w Hw) as Hd. revert Hd. unfold wp, discard.
  rewrite run_bind, run_gets. destruct (sockets w !! s) as [[[fd r] wr]|] eqn:Hsock; [|done].
  pose proof (wk_back _ Hw _ _ _ _ Hsock) as Hback. pose proof (watched_open _ _ _ Hw Hsock) as Hopen.
  rewrite (bool_decide_true (fdForSockOrFd s < 0)) by done. cbn [orb].
  autorewrite with run. cbn. rewrite Hback. autorewrite with run. rewrite try_unregister_run by done.
  intros _. cbn. by rewrite lookup_delete_eq.
Qed.

(** When every watched socket is open there is nothing to collect. *)
Lemma gc_nothing w : (∀ s, is_Some (sockets w !! s) → 0 <= fdForSockOrFd s) → gc w = (Ok [], w).
Proof.
  intros Hopen. unfold gc. rewrite run_bind, run_gets.
  assert (∀ s, s ∈ (map_to_list (sockets w)).*1 → 0 <= fdForSockOrFd s) as Hall.
  { intros s ([s' x] & -> & Hx)%list_elem_of_fmap. apply elem_of_map_to_list in Hx. apply Hopen. by exists x. }
  induction (map_to_list (sockets w)).*1 as [|s l IH]; [done|]. cbn [foldM]. unfold bind.
  rewrite bool_decide_false by (pose proof (Hall s ltac:(left)); lia). rewrite run_mret. apply IH.
  intros s' Hs'. apply Hall. by right.
Qed.

(** What is reported for registered descriptors are watched sockets. *)
Lemma poll_ok events w :
  watch_ok w → closed w = false → (∀ ev, ev ∈ events → is_Some (epoll w !! ev.1.1)) →
  ∃ r, poll events w = (Ok r, w) ∧ ∀ s, s ∈ r.1 ∪ r.2 → is_Some (sockets w !! s).
Proof.
  clear fileno. intros Hw Hopen Hev. unfold poll, with_epoll. rewrite !run_bind, run_gets, Hopen, run_bind, run_gets, run_mret.
  assert (∀ l (acc : gset SockOrFd * gset SockOrFd), (∀ ev, ev ∈ l → is_Some (epoll w !! ev.1.1)) →
    (∀ s, s ∈ acc.1 ∪ acc.2 → is_Some (sockets w !! s)) →
    wp (foldM l acc (λ ev acc,
      let '(fd, r, wr) := ev in
      back ← gets fdToSocketObj;
      s ← (if (r || wr) : bool then lift_option KeyError (back !! fd) else mret (AnFd fd));
      mret (if r : bool then {[s]} ∪ acc.1 else acc.1, if wr : bool then {[s]} ∪ acc.2 else acc.2)))
      (λ (r : gset SockOrFd * gset SockOrFd) w', w' = w ∧ ∀ s, s ∈ r.1 ∪ r.2 → is_Some (sockets w !! s)) (λ _ _, False) w) as Hgen.
  { clear Hev events. induction l as [|[[fd r] wr] l IH]; intros acc Hev Hacc; [done|]. cbn [foldM].
    destruct (Hev (fd, r, wr) ltac:(left)) as [m Hm]. destruct (wk_epoll _ Hw fd m Hopen Hm) as [s Hs].
    apply wp_bind, wp_gets_bind, wp_bind.
    assert (is_Some (sockets w !! s)) as Hsock by (destruct (wk_sockets _ Hw _ _ Hs) as (?&?&?); by eexists).
    assert (∀ acc' : gset SockOrFd * gset SockOrFd, (∀ s', s' ∈ acc'.1 ∪ acc'.2 → s' = s ∨ s' ∈ acc.1 ∪ acc.2) →
      ∀ s', s' ∈ acc'.1 ∪ acc'.2 → is_Some (sockets w !! s')) as Hacc'.
    { intros acc' Hin s' Hs'. destruct (Hin s' Hs') as [->|?]; auto. }
    rewrite Hs. cbn [lift_option]. destruct (r || wr) eqn:Hrw.
    - unfold wp at 1. apply IH; [intros ev Hin; apply Hev; by right|].
      apply Hacc'. cbn. destruct r, wr; set_solver.
    - apply orb_false_iff in Hrw as [-> ->]. unfold wp at 1.
      apply IH; [intros ev Hin; apply Hev; by right|]. done. }
  specialize (Hgen events (∅, ∅) Hev ltac:(set_solver)). unfold wp in Hgen.
  destruct (foldM _ _ _ w) as [[r|e] w'] eqn:Hrun; [|done]. destruct Hgen as [-> Hr]. exists r. done.
Qed.
End watcher.

(** ** Any use of a watcher *)

(** What can happen: the calls of the program, each with the descriptors the sockets have
    at that moment, and the kernel forgetting a closed descriptor. *)
Inductive watch_op :=
  | WAdd (fileno : Z → Z) (s : SockOrFd) (addRead addWrite : bool)
  | WDiscard (fileno : Z → Z) (s : SockOrFd) (discardRead discardWrite : bool)
  | WGc (fileno : Z → Z)
  | WClosed (fd : Z)
  | WTeardown.

Definition run_watch (op : watch_op) : M SocketWatcher unit :=
  match op with
  | WAdd fileno s r w => add fileno s r w;; mret tt
  | WDiscard fileno s r w => discard fileno s r w;; mret tt
  | WGc fileno => gc fileno;; mret tt
  | WClosed fd => modify (λ w, w <| epoll ::= delete fd |>)
  | WTeardown => teardown
  end.

Definition watch_op_ok (w : SocketWatcher) (op : watch_op) : Prop :=
  match op with WAdd fileno s _ _ => own_fd fileno s w | _ => True end.

Inductive watched : SocketWatcher → Prop :=
  | watched_new : watched new_SocketWatcher
  | watched_op w op : watched w → watch_op_ok w op → watched (run_watch op w).2.

Lemma gc_ok fileno w : watch_ok w → wp (gc fileno) (λ _ w', watch_ok w') (λ _ _, False) w.
Proof.
  intros Hw. unfold gc. apply wp_gets_bind. apply (wp_foldM _ _ _ (λ _ w', watch_ok w')); [done|].
  intros s acc w' _ Hw'. case_bool_decide; [|done]. apply wp_bind.
  eapply wp_mono; [by apply discard_ok|by intros ? ? [? _]|done].
Qed.

Lemma run_watch_ok op w :
  watch_ok w → watch_op_ok w op → wp (run_watch op) (λ _ w', watch_ok w') (λ _ _, False) w.
Proof.
  intros Hw Hop. destruct op as [fileno s r wr|fileno s r wr|fileno|fd|]; cbn [run_watch].
  - apply wp_bind. eapply wp_mono; [by apply add_ok|done|done].
  - apply wp_bind. eapply wp_mono; [by apply discard_ok|by intros ? ? [? _]|done].
  - apply wp_bind. eapply wp_mono; [by apply gc_ok|done|done].
  - by apply (watch_ok_forget w).
  - by apply (watch_ok_teardown w).
Qed.

(** However sockets are watched, unwatched, closed and collected, the tables of the
    watcher agree with each other and with epoll, and no call raises, as long as a
    socket is never watched under the descriptor of another one that is still known. *)
Theorem watcher_tables_agree w :
  watched w → watch_ok w ∧ ∀ op, watch_op_ok w op → ∃ w', run_watch op w = (Ok tt, w').
Proof.
  intros Hw. assert (watch_ok w) as Hok.
  { induction Hw as [|w op Hw IH Hop]; [apply watch_ok_new|].
    pose proof (run_watch_ok op w IH Hop) as Hwp. unfold wp in Hwp.
    by destruct (run_watch op w) as [[?|?] ?]. }
  split; [done|]. intros op Hop. pose proof (run_watch_ok op w Hok Hop) as Hwp. unfold wp in Hwp.
  destruct (run_watch op w) as [[[]|e] w']; [by exists w'|done].
Qed.

Lemma watcher_tables_agree_witness :
  watch_ok (run_watch (WAdd (λ i, i + 3) (ASocket 1) true false) new_SocketWatcher).2 ∧
  canRead (ASocket 1) (run_watch (WAdd (λ i, i + 3) (ASocket 1) true false) new_SocketWatcher).2 = true.
Proof.
  split; [|vm_compute; reflexivity].
  apply watcher_tables_agree. apply watched_op; [apply watched_new|]. intros s'. vm_compute. discriminate.
Defined.
