(* ===== verification/ByteQueue.v ===== *)
(** * A queue limited by bytes ([object_database/bytecount_limited_queue.py])

    The queue with its byte count, and the system of threads around it: the threads that
    wait on the condition inside [put], and the calls of [setMaxBytes] that have stored
    the limit and not yet notified. *)

From Stdlib Require Import Lia.
From stdpp Require Import options.
From S2P Require Import Prelude.

Local Open Scope Z_scope.

Record BytecountLimitedQueue {A : Type} := {
  underlyingQueue : list A;
  totalBytes : Z;
  maxBytes : option Z;
}.
Arguments BytecountLimitedQueue A : clear implicits.
#[export] Instance BytecountLimitedQueue_settable {A} : Settable (BytecountLimitedQueue A) := λ r,
  {| underlyingQueue := underlyingQueue r; totalBytes := totalBytes r; maxBytes := maxBytes r |}.

Section queue.
Context {A : Type} (bytecountFunction : A → Z).

(** [__init__]: the argument [maxBytes] is not used. *)
Definition new_BytecountLimitedQueue (_maxBytes : option Z) : BytecountLimitedQueue A :=
  {| underlyingQueue := []; totalBytes := 0; maxBytes := None |}.

Definition pendingCount (q : BytecountLimitedQueue A) : Z := Z.of_nat (length (underlyingQueue q)).

Definition isBlocked (q : BytecountLimitedQueue A) : bool :=
  match maxBytes q with Some m => bool_decide (m <= totalBytes q) | None => false end.

(** The two halves of [setMaxBytes]: the limit is stored before the lock is taken. *)
Definition setMaxBytes_store (bytecount : option Z) : M (BytecountLimitedQueue A) unit :=
  modify (λ q, q <| maxBytes := bytecount |>).

(** the end of [put], under the lock *)
Definition enqueue (msg : A) : M (BytecountLimitedQueue A) unit :=
  modify (λ q, q <| totalBytes ::= λ n, n + bytecountFunction msg |>);;
  modify (λ q, q <| underlyingQueue ::= λ l, l ++ [msg] |>).

(** One attempt of [put]; [false] when the thread waits for the condition. *)
Definition put (msg : A) (block allowWriteWhileOverLimit : bool) : M (BytecountLimitedQueue A) bool :=
  blocked ← gets isBlocked;
  if negb allowWriteWhileOverLimit && blocked then
    if block then mret false else raise QueueFull
  else enqueue msg;; mret true.

(** [get] on a queue with something in it, and the notification it sends *)
Definition get : M (BytecountLimitedQueue A) (A * bool) :=
  l ← gets underlyingQueue;
  match l with
  | [] => raise QueueEmpty
  | msg :: rest =>
      modify (λ q, q <| underlyingQueue := rest |>);;
      blocked ← gets isBlocked;
      modify (λ q, q <| totalBytes ::= λ n, n - bytecountFunction msg |>);;
      blocked' ← gets isBlocked;
      mret (msg, negb (eqb blocked blocked'))
  end.

Definition sum_bytes (l : list A) : Z := foldr (λ m n, bytecountFunction m + n) 0 l.

Lemma sum_bytes_app l k : sum_bytes (l ++ k) = sum_bytes l + sum_bytes k.
Proof. unfold sum_bytes. induction l as [|x l IH]; cbn; [done|]. rewrite IH. lia. Qed.

Lemma put_run msg block allow q :
  put msg block allow q =
    if negb allow && isBlocked q then (if block then Ok false else Raise QueueFull, q)
    else (Ok true, q <| totalBytes ::= λ n, n + bytecountFunction msg |>
                     <| underlyingQueue ::= λ l, l ++ [msg] |>).
Proof.
  unfold put. rewrite run_bind, run_gets. destruct (negb allow && isBlocked q); [by destruct block|done].
Qed.

Lemma queue_get_run q :
  get q = match underlyingQueue q with
          | [] => (Raise QueueEmpty, q)
          | msg :: rest =>
              let q' := q <| underlyingQueue := rest |> <| totalBytes ::= λ n, n - bytecountFunction msg |> in
              (Ok (msg, negb (eqb (isBlocked q) (isBlocked q'))), q')
          end.
Proof. unfold get. rewrite run_bind, run_gets. by destruct (underlyingQueue q). Qed.

(** ** Threads around the queue *)

(** [done_puts] and [done_gets] are the history: what was enqueued and what [get] returned. *)
Record QueueSystem := {
  q_queue : BytecountLimitedQueue A;
  q_waiting : list A;           (* what the threads inside [wait] want to put *)
  q_woken : list A;             (* notified, and about to look again *)
  q_storing : nat;              (* calls of [setMaxBytes] between its two halves *)
  done_puts : list A;
  done_gets : list A;
}.
#[export] Instance QueueSystem_settable : Settable QueueSystem := λ r,
  {| q_queue := q_queue r; q_waiting := q_waiting r; q_woken := q_woken r;
     q_storing := q_storing r; done_puts := done_puts r; done_gets := done_gets r |}.

Definition new_QueueSystem (m : option Z) : QueueSystem :=
  {| q_queue := new_BytecountLimitedQueue m; q_waiting := []; q_woken := [];
     q_storing := 0; done_puts := []; done_gets := [] |}.

Definition notify_all (s : QueueSystem) : QueueSystem :=
  s <| q_woken := q_woken s ++ q_waiting s |> <| q_waiting := [] |>.

(** a thread that has looked at the limit *)
Definition attempt (msg : A) (block allow : bool) (s : QueueSystem) : QueueSystem :=
  match put msg block allow (q_queue s) with
  | (Ok true, q) => s <| q_queue := q |> <| done_puts ::= λ l, l ++ [msg] |>
  | (Ok false, q) => s <| q_queue := q |> <| q_waiting ::= λ l, l ++ [msg] |>
  | (Raise _, q) => s <| q_queue := q |>
  end.

Inductive queue_step : QueueSystem → QueueSystem → Prop :=
  | QPut msg block allow s : queue_step s (attempt msg block allow s)
  | QRetry msg pre post s :
      q_woken s = pre ++ msg :: post →
      queue_step s (attempt msg true false (s <| q_woken := pre ++ post |>))
  | QGet msg notify q s :
      get (q_queue s) = (Ok (msg, notify), q) →
      queue_step s
        (let s := s <| q_queue := q |> <| done_gets ::= λ l, l ++ [msg] |> in
         if notify : bool then notify_all s else s)
  | QStore m s :
      queue_step s (s <| q_queue := (setMaxBytes_store m (q_queue s)).2 |> <| q_storing ::= S |>)
  | QNotify n s :
      q_storing s = S n → queue_step s (notify_all (s <| q_storing := n |>)).

Inductive queue_reachable : QueueSystem → Prop :=
  | queue_start m : queue_reachable (new_QueueSystem m)
  | queue_next s s' : queue_reachable s → queue_step s s' → queue_reachable s'.

(** The count is that of the messages in the queue, and they leave in the order they came. *)
Definition queue_ok (s : QueueSystem) : Prop :=
  totalBytes (q_queue s) = sum_bytes (underlyingQueue (q_queue s)) ∧
  done_puts s = done_gets s ++ underlyingQueue (q_queue s).

Lemma attempt_ok msg block allow s : queue_ok s → queue_ok (attempt msg block allow s).
Proof.
  intros [Ht Hh]. unfold attempt. rewrite put_run. destruct (negb allow && isBlocked (q_queue s)).
  - by destruct block.
  - split; cbn; [rewrite sum_bytes_app, Ht; cbn; lia|by rewrite Hh, (assoc_L (++))].
Qed.

Lemma queue_step_ok s s' : queue_step s s' → queue_ok s → queue_ok s'.
Proof.
  intros Hstep Hs. destruct Hstep as [msg block allow s|msg pre post s|msg notify q s Hget|m s|n s].
  - by apply attempt_ok.
  - by apply attempt_ok.
  - rewrite queue_get_run in Hget. destruct Hs as [Ht Hh].
    destruct (underlyingQueue (q_queue s)) as [|msg' rest] eqn:Hl; [done|]. injection Hget as <- <- <-.
    assert (sum_bytes (msg' :: rest) = bytecountFunction msg' + sum_bytes rest) as Hsum by done.
    assert (queue_ok (s <| q_queue := q_queue s <| underlyingQueue := rest |>
        <| totalBytes ::= λ n, n - bytecountFunction msg' |> |> <| done_gets ::= λ l, l ++ [msg'] |>)) as Hok.
    { split; cbn -[sum_bytes]; [lia|by rewrite Hh, <-(assoc_L (++))]. }
    cbv zeta. case_match; exact Hok.
  - exact Hs.
  - exact Hs.
Qed.

(** A thread waits only for a reason: the queue is over its limit, or a notification
    is on its way. *)
Definition awaited (s : QueueSystem) : Prop :=
  q_waiting s = [] ∨ isBlocked (q_queue s) = true ∨ (0 < q_storing s)%nat.

Context (Hpos : ∀ msg, 0 <= bytecountFunction msg).

Lemma isBlocked_grow q n msg :
  0 <= n → isBlocked q = true →
  isBlocked (q <| totalBytes ::= λ t, t + n |> <| underlyingQueue ::= λ l, l ++ [msg] |>) = true.
Proof using Type.
  unfold isBlocked. cbn. destruct (maxBytes q); [|done]. intros ?. do 2 case_bool_decide; try done. lia.
Qed.

Lemma attempt_awaited msg block allow s : awaited s → awaited (attempt msg block allow s).
Proof using Hpos.
  intros Hw. unfold attempt. rewrite put_run. destruct (isBlocked (q_queue s)) eqn:Hb.
  - destruct allow; cbn [negb andb]; [right; left; by apply isBlocked_grow|].
    destruct block; [right; by left|exact Hw].
  - rewrite andb_false_r. destruct Hw as [Hw|[Hw|Hw]]; [by left|congruence|by right; right].
Qed.

Lemma queue_step_awaited s s' : queue_step s s' → awaited s → awaited s'.
Proof using Hpos.
  intros Hstep Hw. destruct Hstep as [msg block allow s|msg pre post s|msg notify q s Hget|m s|n s].
  - by apply attempt_awaited.
  - by apply attempt_awaited.
  - rewrite queue_get_run in Hget. destruct (underlyingQueue (q_queue s)) as [|msg' rest]; [done|].
    injection Hget as <- <- <-. cbv zeta. case_match eqn:Hn; [by left|].
    apply negb_false_iff, eqb_prop in Hn. destruct Hw as [Hw|[Hw|Hw]]; [by left| |by right; right].
    right; left. exact (eq_trans (eq_sym Hn) Hw).
  - right; right. cbn. lia.
  - by left.
Qed.
End queue.

(** However threads put, wait, get and change the limit: the count is the number of bytes
    in the queue, and messages come out in the order in which they went in. *)
Theorem queue_counts_and_keeps_order {A} (bytecountFunction : A → Z) s :
  queue_reachable bytecountFunction s →
  totalBytes (q_queue s) = sum_bytes bytecountFunction (underlyingQueue (q_queue s)) ∧
  done_puts s = done_gets s ++ underlyingQueue (q_queue s).
Proof.
  intros Hs. change (queue_ok bytecountFunction s). induction Hs as [m|s s' _ IH Hstep]; [done|].
  by eapply queue_step_ok.
Qed.

(** C12. No wake-up is lost: a thread is left waiting in [put] only while the queue is over its
    limit, or while a call of [setMaxBytes] has yet to notify. *)
Theorem no_lost_wakeup {A} (bytecountFunction : A → Z) s :
  (∀ msg, 0 <= bytecountFunction msg) → queue_reachable bytecountFunction s →
  q_waiting s ≠ [] → q_storing s = 0%nat → isBlocked (q_queue s) = true.
Proof.
  intros Hpos Hs Hw Hn. assert (awaited s) as [?|[?|?]]; [|done|done|lia].
  clear Hw Hn. induction Hs as [m|s s' _ IH Hstep]; [by left|]. by eapply queue_step_awaited.
Qed.

(** The limit given to the constructor is ignored: [put] neither waits nor raises until
    [setMaxBytes] is called. *)
Theorem constructor_limit_is_ignored {A} (bytecountFunction : A → Z) m msgs :
  ∃ q, foldM msgs true (λ msg _, put bytecountFunction msg false false) (new_BytecountLimitedQueue m)
    = (Ok true, q) ∧ underlyingQueue q = msgs.
Proof.
  assert (∀ l q, maxBytes q = None → ∃ q', maxBytes q' = None ∧
    foldM l true (λ msg _, put bytecountFunction msg false false) q = (Ok true, q') ∧
    underlyingQueue q' = underlyingQueue q ++ l) as Hgen.
  { induction l as [|msg l IH]; intros q Hq; [exists q; by rewrite app_nil_r|].
    cbn [foldM]. assert (isBlocked q = false) as Hb by (unfold isBlocked; by rewrite Hq).
    set (q1 := q <| totalBytes ::= λ n, n + bytecountFunction msg |>
                 <| underlyingQueue ::= λ l, l ++ [msg] |>).
    destruct (IH q1 Hq) as (q' & Hq' & Hrun & Hl).
    exists q'. split; [done|]. split.
    - unfold bind. rewrite put_run, Hb. cbn [negb andb]. exact Hrun.
    - rewrite Hl. cbn. by rewrite <-(assoc_L (++)). }
  destruct (Hgen msgs (new_BytecountLimitedQueue m) eq_refl) as (q & _ & Hrun & Hl). by exists q.
Qed.

(** ** A queue of strings with the limit 3, and a thread that has to wait *)
Module QueueScenario.
Definition size (s : string) : Z := Z.of_nat (String.length s).
Definition put_ (s : string) := attempt size s true false.

Definition full : QueueSystem (A:=string) :=
  put_ "e" (put_ "abcd" ((new_QueueSystem None) <| q_queue ::= λ q, q <| maxBytes := Some 3 |> |>
                     <| q_storing := 1%nat |>)).

Lemma full_reachable : queue_reachable size (notify_all (full <| q_storing := 0%nat |>)).
Proof.
  eapply queue_next; [|by apply QNotify]. eapply queue_next; [|apply QPut].
  eapply queue_next; [|apply QPut]. eapply queue_next; [apply (queue_start size None)|].
  apply (QStore size (Some 3)).
Qed.

Definition waiting : QueueSystem (A:=string) :=
  attempt size "e" true false ((notify_all (full <| q_storing := 0%nat |>)) <| q_woken := [] |>).

Lemma waiting_reachable : queue_reachable size waiting.
Proof.
  eapply queue_next; [apply full_reachable|]. by apply (QRetry size "e"%string [] []).
Qed.
End QueueScenario.

Lemma queue_counts_and_keeps_order_witness :
  totalBytes (q_queue QueueScenario.waiting) =
    sum_bytes QueueScenario.size (underlyingQueue (q_queue QueueScenario.waiting)).
Proof. exact (proj1 (queue_counts_and_keeps_order _ _ QueueScenario.waiting_reachable)). Defined.

Lemma no_lost_wakeup_witness : isBlocked (q_queue QueueScenario.waiting) = true.
Proof.
  apply (no_lost_wakeup QueueScenario.size); [|exact QueueScenario.waiting_reachable|discriminate|reflexivity].
  intros msg. unfold QueueScenario.size. lia.
Defined.
