(* ===== verification/MessageBus.v ===== *)
(** * The message bus ([MessageBus] in [object_database/message_bus.py])

    The bus owns two threads.  The socket thread runs [_socketThreadLoop]: it polls the
    sockets, takes messages from the send queue, reads and writes, and is the only one to
    close a connection.  The event thread calls [onEvent] and the callbacks, one of which,
    [_connectTo], forms an outgoing connection.  User threads call [connect],
    [sendMessage], [closeConnection] and [scheduleCallback].

    Every method is a computation on the state of the bus.  What the outside world
    answers (the bytes a [recv] returns, how many bytes a [send] takes, whether a
    connection is made) is an argument.  The fields [sockFd], [sent] and [sendFailed] are
    that world's side: the descriptor of each socket (-1 once it is closed), the bytes
    the kernel has taken from us, and the sockets on which a [send] has failed.
    [itemsTaken] is history: the items of the send queue that the socket thread handled;
    so is [lost]: the connections for which a message was kept too late to be sent.

    The socket thread reads the tables without the lock, so what the others do can fall
    between its steps.  Its handlers take a computation [meanwhile], which they run between
    two of their steps: before every trigger, every ready socket, every message and every
    [send], at each step of the loop over the sockets to write, and between the look-up and
    the update in [_scheduleBytesForWrite].  In a pass it is [interrupt], which runs any
    operations of the other threads.  An operation of another thread (one critical section,
    with the queue operation that may come with it) is one step. *)

From Stdlib Require Import Lia.
From stdpp Require Import options.
From S2P Require Import Prelude MessageBuffer ByteQueue SocketWatcher.

Local Open Scope Z_scope.

Definition Endpoint : Type := string * Z.

Inductive MessageBusEvent {InMsg : Type} :=
  | Stopped
  | NewIncomingConnection (source : Endpoint) (connectionId : Z)
  | IncomingConnectionClosed (connectionId : Z)
  | IncomingMessage (connectionId : Z) (message : InMsg)
  | OutgoingConnectionEstablished (connectionId : Z)
  | OutgoingConnectionFailed (connectionId : Z)
  | OutgoingConnectionClosed (connectionId : Z).
Arguments MessageBusEvent InMsg : clear implicits.

(** what is put on [_messagesToSendQueue] *)
Inductive ToSend :=
  | SDisconnected
  | STriggerConnect (connId : Z)
  | SMessage (connId : Z) (msg : bytes).

(** what is put on [_eventsToFireQueue] *)
Inductive ToFire {InMsg : Type} :=
  | FEvent (e : MessageBusEvent InMsg)
  | FTriggerDisconnect (connId : Z).
Arguments ToFire InMsg : clear implicits.

Inductive Callback {InMsg : Type} :=
  | CbConnectTo (connId : Z)
  | CbScheduleEvent (f : ToFire InMsg)
  | CbUser (k : nat).
Arguments Callback InMsg : clear implicits.

(** what is put on [_eventQueue] *)
Inductive EventItem {InMsg : Type} :=
  | EEvent (e : MessageBusEvent InMsg)
  | ECallback (cb : Callback InMsg)
  | ENone.
Arguments EventItem InMsg : clear implicits.

(** [sortedcontainers.SortedSet] with the timestamp as key: its [add], and what is known
    about it. *)
Class SortedSet (A : Type) := {
  ss_add : Z * A → list (Z * A) → list (Z * A);
  ss_add_spec x l : ss_add x l ≡ₚ x :: l ∨ x ∈ l ∧ ss_add x l = l;
}.

Definition _bytesPerMsg (item : ToSend) : Z :=
  match item with SMessage _ m => Z.of_nat (length m) | _ => 0 end.

Record MessageBus {InMsg : Type} := {
  started : bool;
  connIdToIncomingSocket : gmap Z Z;
  connIdToOutgoingSocket : gmap Z Z;
  socketToIncomingConnId : gmap Z Z;
  socketToOutgoingConnId : gmap Z Z;
  unauthenticatedConnections : gset Z;
  connIdToIncomingEndpoint : gmap Z Endpoint;
  connIdToOutgoingEndpoint : gmap Z Endpoint;
  connIdPendingOutgoingConnection : gset Z;
  messagesForUnconnectedOutgoingConnection : gmap Z (list bytes);
  totalBytesPendingInOutputLoop : Z;
  totalBytesWritten : Z;
  totalBytesPendingInInputLoop : Z;
  totalBytesPendingInInputLoopHighWatermark : Z;
  totalBytesRead : Z;
  connectionIdCounter : Z;
  messagesToSendQueue : BytecountLimitedQueue ToSend;
  waitingPuts : list ToSend;             (* threads inside [put], waiting *)
  messageToSendWakePipe : nat;           (* bytes in the pipe *)
  eventsToFireQueue : list (ToFire InMsg);
  eventToFireWakePipe : nat;
  generalWakePipe : nat;
  eventQueue : list (EventItem InMsg);   (* everything ever put there *)
  eventsTaken : nat;                     (* how many the event thread has taken *)
  pendingTimedCallbacks : list (Z * Callback InMsg);
  socketToBytesNeedingWrite : gmap Z bytes;
  socketsWithSslWantWrite : gset Z;
  allSockets : SocketWatcher;
  incomingSocketBuffers : gmap Z MessageBuffer;
  sockFd : gmap Z Z;
  sent : gmap Z bytes;
  sendFailed : gset Z;
  itemsTaken : list ToSend;
  lost : gset Z;
  moment : nat;                          (* how often the socket thread was interrupted *)
}.
Arguments MessageBus InMsg : clear implicits.
#[export] Instance MessageBus_settable {InMsg} : Settable (MessageBus InMsg) := λ r,
  {| started := started r; connIdToIncomingSocket := connIdToIncomingSocket r;
     connIdToOutgoingSocket := connIdToOutgoingSocket r;
     socketToIncomingConnId := socketToIncomingConnId r;
     socketToOutgoingConnId := socketToOutgoingConnId r;
     unauthenticatedConnections := unauthenticatedConnections r;
     connIdToIncomingEndpoint := connIdToIncomingEndpoint r;
     connIdToOutgoingEndpoint := connIdToOutgoingEndpoint r;
     connIdPendingOutgoingConnection := connIdPendingOutgoingConnection r;
     messagesForUnconnectedOutgoingConnection := messagesForUnconnectedOutgoingConnection r;
     totalBytesPendingInOutputLoop := totalBytesPendingInOutputLoop r;
     totalBytesWritten := totalBytesWritten r;
     totalBytesPendingInInputLoop := totalBytesPendingInInputLoop r;
     totalBytesPendingInInputLoopHighWatermark := totalBytesPendingInInputLoopHighWatermark r;
     totalBytesRead := totalBytesRead r; connectionIdCounter := connectionIdCounter r;
     messagesToSendQueue := messagesToSendQueue r; waitingPuts := waitingPuts r;
     messageToSendWakePipe := messageToSendWakePipe r; eventsToFireQueue := eventsToFireQueue r;
     eventToFireWakePipe := eventToFireWakePipe r; generalWakePipe := generalWakePipe r;
     eventQueue := eventQueue r; eventsTaken := eventsTaken r;
     pendingTimedCallbacks := pendingTimedCallbacks r;
     socketToBytesNeedingWrite := socketToBytesNeedingWrite r;
     socketsWithSslWantWrite := socketsWithSslWantWrite r; allSockets := allSockets r;
     incomingSocketBuffers := incomingSocketBuffers r; sockFd := sockFd r; sent := sent r;
     sendFailed := sendFailed r; itemsTaken := itemsTaken r; lost := lost r; moment := moment r |}.

(** Results of the operating system: [SendBytes n] is room for [n] bytes. *)
Inductive AcceptResult := AcceptOk (sock fd : Z) (source : Endpoint) | AcceptOSError.
Inductive RecvResult := RecvBytes (b : bytes) | RecvWantRead | RecvWantWrite | RecvReset | RecvError.
Inductive SendResult := SendBytes (n : Z) | SendWantRead | SendWantWrite | SendOSError | SendError.
Inductive ConnectResult := ConnectOk (sock fd : Z) | ConnectFailed.

(** the class of the exception that ends the socket thread *)
Definition MessageBusLoopExit : exn := UserException "MessageBusLoopExit".

Definition MSG_BUF_SIZE : nat := Z.to_nat 131072.
Definition EPOLL_TIMEOUT : Z := 5000000.   (* times are in microseconds *)

(** The arguments of the constructor that the methods use, and the read ends of the three
    pipes.  The token is given by its UTF-8 encoding, to which a message is compared:
    [m.decode("utf8") == token] holds for the encoding of the token and nothing else. *)
Record BusConfig {InMsg OutMsg : Type} := {
  authToken : option bytes;
  extraCheck : bool;
  acceptSocket : option Z;
  sendWakeFd : Z;
  fireWakeFd : Z;
  generalWakeFd : Z;
  serialize : OutMsg → outcome bytes;
  deserialize : bytes → outcome InMsg;
}.
Arguments BusConfig InMsg OutMsg : clear implicits.

Section bus.
Context {InMsg OutMsg : Type} `{SortedSet (Callback InMsg)} (cfg : BusConfig InMsg OutMsg).
Implicit Types (c s : Z).
Abbreviation Bus := (MessageBus InMsg).

(** [del d[k]], and a computation on the watcher *)
Definition del_key {V} (proj : Bus → gmap Z V) `{!Setter proj} (k : Z) : M Bus unit :=
  d ← gets proj;
  _ ← lift_option KeyError (d !! k);
  modify (λ b, b <| proj ::= delete k |>).

Definition fileno_of (b : Bus) (s : Z) : Z := default (-1) (sockFd b !! s).
(** What the kernel can hand out: a new socket object, and a descriptor that is not in use.
    Any other result counts as a failure. *)
Definition wake_fds : list Z := [sendWakeFd cfg; fireWakeFd cfg; generalWakeFd cfg].
Definition fresh_socket (s fd : Z) (b : Bus) : bool :=
  bool_decide (sockFd b !! s = None) && bool_decide (0 <= fd) && bool_decide (fd ∉ wake_fds) &&
  bool_decide (map_Forall (λ _ fd', fd' ≠ fd) (sockFd b)).

Definition watcher {A} (m : (Z → Z) → M SocketWatcher A) : M Bus A :=
  fileno ← gets fileno_of; zoom allSockets (m fileno).

(** [__init__] *)
Definition new_MessageBus : Bus :=
  {| started := false; connIdToIncomingSocket := ∅; connIdToOutgoingSocket := ∅;
     socketToIncomingConnId := ∅; socketToOutgoingConnId := ∅; unauthenticatedConnections := ∅;
     connIdToIncomingEndpoint := ∅; connIdToOutgoingEndpoint := ∅;
     connIdPendingOutgoingConnection := ∅; messagesForUnconnectedOutgoingConnection := ∅;
     totalBytesPendingInOutputLoop := 0; totalBytesWritten := 0;
     totalBytesPendingInInputLoop := 0; totalBytesPendingInInputLoopHighWatermark := 0;
     totalBytesRead := 0; connectionIdCounter := 0;
     messagesToSendQueue := new_BytecountLimitedQueue None; waitingPuts := [];
     messageToSendWakePipe := 0; eventsToFireQueue := []; eventToFireWakePipe := 0;
     generalWakePipe := 0; eventQueue := []; eventsTaken := 0; pendingTimedCallbacks := [];
     socketToBytesNeedingWrite := ∅; socketsWithSslWantWrite := ∅;
     allSockets := new_SocketWatcher; incomingSocketBuffers := ∅; sockFd := ∅; sent := ∅;
     sendFailed := ∅; itemsTaken := []; lost := ∅; moment := 0 |}.

(** [start]; [listening] is the descriptor of the accept socket, if it could be bound. *)
Definition start (listening : option Z) : M Bus unit :=
  st ← gets started;
  assertM (negb st);;
  match acceptSocket cfg, listening with
  | Some s, Some fd => modify (λ b, b <| sockFd ::= <[s := fd]> |>)
  | Some s, None => raise (UserException "FailedToStart")
  | None, _ => mret tt
  end;;
  modify (λ b, b <| allSockets := new_SocketWatcher |>);;
  watcher (λ f, addForRead f (AnFd (generalWakeFd cfg)));;
  watcher (λ f, addForRead f (AnFd (fireWakeFd cfg)));;
  match acceptSocket cfg with
  | Some s => watcher (λ f, addForRead f (ASocket s));; mret tt
  | None => mret tt
  end;;
  modify (λ b, b <| started := true |>).

Definition setMaxWriteQueueSize (n : option Z) : M Bus unit :=
  zoom messagesToSendQueue (setMaxBytes_store n).
Definition isWriteQueueBlocked (b : Bus) : bool := isBlocked (messagesToSendQueue b).

(** ** Queues and wake pipes *)

(** a [put] on the send queue; a thread that has to wait is remembered with its item *)
Definition put_item (item : ToSend) : M Bus bool :=
  done ← zoom messagesToSendQueue (put _bytesPerMsg item true false);
  (if done : bool then mret tt else modify (λ b, b <| waitingPuts ::= λ l, l ++ [item] |>));;
  mret done.

Definition _putOnSendQueue (item : ToSend) : M Bus unit :=
  done ← put_item item;
  whenM done (modify (λ b, b <| messageToSendWakePipe ::= S |>)).

Definition _scheduleEvent (f : ToFire InMsg) : M Bus unit :=
  modify (λ b, b <| eventsToFireQueue ::= λ l, l ++ [f] |>);;
  modify (λ b, b <| eventToFireWakePipe ::= S |>).

(** the part of [stop] that puts [Disconnected], without waking the loop *)
Definition put_disconnected : M Bus unit :=
  done ← put_item SDisconnected;
  whenM done (_scheduleEvent (FEvent Stopped)).

(** A waiting thread looks again. *)
Definition resume_put (i : nat) : M Bus unit :=
  l ← gets waitingPuts;
  match l !! i with
  | None => mret tt
  | Some item =>
      modify (λ b, b <| waitingPuts := take i l ++ drop (S i) l |>);;
      match item with
      | SDisconnected => put_disconnected
      | _ => _putOnSendQueue item
      end
  end.

Definition _fireEvent (e : MessageBusEvent InMsg) : M Bus unit :=
  modify (λ b, b <| eventQueue ::= λ l, l ++ [EEvent e] |>).

Definition scheduleCallback (now : Z) (callback : option (Callback InMsg)) (atTimestamp delay : option Z) :
    M Bus unit :=
  match callback with
  | None => mret tt
  | Some cb =>
      whenM (bool_decide (is_Some atTimestamp) && bool_decide (is_Some delay)) (raise ValueError);;
      let ts := match atTimestamp with Some t => t | None => now + default 0 delay end in
      modify (λ b, b <| pendingTimedCallbacks ::= ss_add (ts, cb) |>);;
      l ← gets pendingTimedCallbacks;
      whenM (bool_decide (fst <$> head l = Some ts))
        (modify (λ b, b <| generalWakePipe ::= S |>))
  end.

(** ** What users call *)

Definition _newConnectionId : M Bus Z :=
  modify (λ b, b <| connectionIdCounter ::= λ n, n + 1 |>);;
  gets connectionIdCounter.

Definition check_started : M Bus unit :=
  st ← gets started;
  if st : bool then mret tt else raise (UserException "Bus is not active").

Definition connect (endpoint : Endpoint) : M Bus Z :=
  check_started;;
  connId ← _newConnectionId;
  modify (λ b, b <| connIdToOutgoingEndpoint ::= <[connId := endpoint]> |>);;
  modify (λ b, b <| connIdPendingOutgoingConnection ::= λ p, {[connId]} ∪ p |>);;
  _putOnSendQueue (STriggerConnect connId);;
  mret connId.

Definition _isDefinitelyDead (c : Z) (b : Bus) : bool :=
  bool_decide (connIdToOutgoingEndpoint b !! c = None) &&
  bool_decide (connIdToIncomingEndpoint b !! c = None).

Definition closeConnection (c : Z) : M Bus unit :=
  dead ← gets (_isDefinitelyDead c);
  if dead : bool then mret tt else _scheduleEvent (FTriggerDisconnect c).

Definition sendMessage (c : Z) (message : OutMsg) : M Bus bool :=
  check_started;;
  match serialize cfg message with
  | Raise e => raise e
  | Ok serializedMessage =>
      dead ← gets (_isDefinitelyDead c);
      if dead : bool then mret false
      else _putOnSendQueue (SMessage c serializedMessage);; mret true
  end.

(** [stop] up to the wait for the socket thread *)
Definition stop_request : M Bus unit :=
  st ← gets started;
  whenM st (
    modify (λ b, b <| started := false |>);;
    put_disconnected).

(** ** Writing *)

Inductive Target := TSocket (s : Z) | TPending | TNone.

(** The two halves of [_scheduleBytesForWrite]: where the bytes go, looked up without the
    lock, and the update under the lock.  Between them the connection may be made: what is
    kept for it then is never sent. *)
Definition write_target (c : Z) (b : Bus) : Target :=
  match connIdToOutgoingSocket b !! c with
  | Some s => TSocket s
  | None =>
      match connIdToIncomingSocket b !! c with
      | Some s => TSocket s
      | None => if decide (c ∈ connIdPendingOutgoingConnection b) then TPending else TNone
      end
  end.

Definition store_bytes (c : Z) (msg : bytes) (t : Target) : M Bus unit :=
  match t with
  | TNone => mret tt
  | TPending =>
      modify (λ b, b <| messagesForUnconnectedOutgoingConnection ::=
                          λ d, <[c := default [] (d !! c) ++ [msg]]> d |>);;
      modify (λ b, b <| lost ::= λ l, if decide (c ∈ connIdPendingOutgoingConnection b) then l
                                      else {[c]} ∪ l |>)
  | TSocket s =>
      match encode msg (extraCheck cfg) with
      | Raise e => raise e
      | Ok msgBytes =>
          modify (λ b, b <| totalBytesPendingInOutputLoop ::= λ n, n + Z.of_nat (length msgBytes) |>);;
          modify (λ b, b <| socketToBytesNeedingWrite ::=
                              λ d, <[s := default [] (d !! s) ++ msgBytes]> d |>)
      end
  end.

Definition _scheduleBytesForWrite (meanwhile : M Bus unit) (c : Z) (msg : bytes) : M Bus unit :=
  if bool_decide (msg = []) then mret tt
  else t ← gets (write_target c); meanwhile;; store_bytes c msg t.

(** how many bytes of [buf] the kernel takes *)
Definition takes (n : Z) (buf : bytes) : Z := Z.max 0 (Z.min n (Z.of_nat (length buf))).

(** The kernel takes some bytes, or the send fails (to take none is a failure too). *)
Definition record_send (s : Z) (buf : bytes) (r : SendResult) : M Bus unit :=
  match r with
  | SendBytes n =>
      whenM (bool_decide (takes n buf = 0)) (modify (λ b, b <| sendFailed ::= λ f, {[s]} ∪ f |>));;
      modify (λ b, b <| sent ::= λ d, <[s := default [] (d !! s) ++ slice_to (takes n buf) buf]> d |>)
  | SendOSError | SendError => modify (λ b, b <| sendFailed ::= λ f, {[s]} ∪ f |>)
  | _ => mret tt
  end.

(** [None] where the code returns nothing.  [send] and the update of the buffer can be
    taken together: nobody else touches the bytes of a socket of the bus. *)
Definition _handleWriteReadySocket (meanwhile : M Bus unit) (s : Z) (r : SendResult) : M Bus (option bool) :=
  needing ← gets socketToBytesNeedingWrite;
  match needing !! s with
  | None => mret None
  | Some buf =>
      meanwhile;;
      record_send s buf r;;
      bytesWritten ←
        match r with
        | SendBytes n => mret (takes n buf)
        | SendWantRead => mret (-1)
        | SendWantWrite =>
            modify (λ b, b <| socketsWithSslWantWrite ::= λ w, {[s]} ∪ w |>);; mret (-1)
        | SendOSError | SendError => mret 0
        end;
      if bool_decide (bytesWritten = 0) then
        watcher (λ f, discardForWrite f (ASocket s));;
        del_key socketToBytesNeedingWrite s;;
        mret (Some true)
      else if bool_decide (bytesWritten = -1) then mret (Some false)
      else if bool_decide (0 < bytesWritten) then
        modify (λ b, b <| totalBytesPendingInOutputLoop ::= λ n, n - bytesWritten |>);;
        modify (λ b, b <| totalBytesWritten ::= λ n, n + bytesWritten |>);;
        modify (λ b, b <| socketToBytesNeedingWrite ::= alter (del_to bytesWritten) s |>);;
        needing ← gets socketToBytesNeedingWrite;
        whenM (bool_decide (needing !! s = Some []))
          (watcher (λ f, discardForWrite f (ASocket s));;
           del_key socketToBytesNeedingWrite s);;
        mret (Some true)
      else mret (Some false)
  end.

(** ** Closing *)

(** [sock.close()]; the kernel also forgets the descriptor in epoll *)
Definition _ensureSocketClosed (s : Z) : M Bus unit :=
  fd ← gets (λ b, fileno_of b s);
  modify (λ b, b <| allSockets ::= λ w, w <| epoll ::= delete fd |> |>);;
  modify (λ b, b <| sockFd ::= <[s := -1]> |>).

Definition drop_pending_bytes (s : Z) : M Bus unit :=
  modify (λ b, b <| socketToBytesNeedingWrite ::= delete s |>).

Definition _markSocketClosed (s : Z) : M Bus unit :=
  s2in ← gets socketToIncomingConnId;
  s2out ← gets socketToOutgoingConnId;
  toFire ←
    match s2in !! s, s2out !! s with
    | Some c, _ =>
        modify (λ b, b <| unauthenticatedConnections ::= λ u, u ∖ {[c]} |>);;
        del_key connIdToIncomingSocket c;;
        del_key socketToIncomingConnId s;;
        del_key connIdToIncomingEndpoint c;;
        del_key incomingSocketBuffers s;;
        drop_pending_bytes s;;
        mret [IncomingConnectionClosed c]
    | None, Some c =>
        del_key connIdToOutgoingEndpoint c;;
        del_key socketToOutgoingConnId s;;
        del_key connIdToOutgoingSocket c;;
        del_key incomingSocketBuffers s;;
        drop_pending_bytes s;;
        mret [OutgoingConnectionClosed c]
    | None, None => mret []
    end;
  _ensureSocketClosed s;;
  watcher (λ f, discard f (ASocket s) true true);;
  forM toFire _fireEvent.

(** ** Reading *)

Definition _getConnectionIdFromSocket (s : Z) (b : Bus) : option Z :=
  match socketToIncomingConnId b !! s with
  | Some c => Some c
  | None => socketToOutgoingConnId b !! s
  end.

Definition _handleIncomingMessage (serializedMessage : bytes) (s : Z) : M Bus bool :=
  conn ← gets (_getConnectionIdFromSocket s);
  match conn with
  | None => mret false
  | Some c =>
      unauth ← gets unauthenticatedConnections;
      if decide (c ∈ unauth) then
        if decide (authToken cfg = Some serializedMessage) then
          modify (λ b, b <| unauthenticatedConnections ::= λ u, u ∖ {[c]} |>);; mret true
        else mret false
      else
        match deserialize cfg serializedMessage with
        | Raise _ => mret false
        | Ok message => _fireEvent (IncomingMessage c message);; mret true
        end
  end.

(** [for m in newMessages], until a message is refused *)
Fixpoint handle_messages (meanwhile : M Bus unit) (s : Z) (newMessages : list bytes) : M Bus unit :=
  match newMessages with
  | [] => mret tt
  | m :: rest =>
      meanwhile;;
      ok ← _handleIncomingMessage m s;
      if ok : bool then handle_messages meanwhile s rest else _markSocketClosed s
  end.

(** a computation on the buffer of a socket *)
Definition on_buffer {A} (s : Z) (m : M MessageBuffer A) : M Bus A := λ b,
  match incomingSocketBuffers b !! s with
  | None => (Raise KeyError, b)
  | Some buf => let (r, buf') := m buf in (r, b <| incomingSocketBuffers ::= <[s := buf']> |>)
  end.

(** the branch of [_handleReadReadySocket] for the accept socket *)
Definition accept_new (newSocket fd : Z) (source : Endpoint) : M Bus (option bool) :=
  modify (λ b, b <| sockFd ::= <[newSocket := fd]> |>);;
  connId ← _newConnectionId;
  whenM (bool_decide (is_Some (authToken cfg)))
    (modify (λ b, b <| unauthenticatedConnections ::= λ u, {[connId]} ∪ u |>));;
  modify (λ b, b <| connIdToIncomingSocket ::= <[connId := newSocket]> |>);;
  modify (λ b, b <| socketToIncomingConnId ::= <[newSocket := connId]> |>);;
  modify (λ b, b <| connIdToIncomingEndpoint ::= <[connId := source]> |>);;
  modify (λ b, b <| incomingSocketBuffers ::=
                      <[newSocket := new_MessageBuffer (extraCheck cfg)]> |>);;
  watcher (λ f, addForRead f (ASocket newSocket));;
  _fireEvent (NewIncomingConnection source connId);;
  mret (Some true).

Definition accept_ready (r : AcceptResult) : M Bus (option bool) :=
  match r with
  | AcceptOSError => mret (Some false)
  | AcceptOk newSocket fd source =>
      fresh ← gets (fresh_socket newSocket fd);
      if fresh : bool then accept_new newSocket fd source else mret (Some false)
  end.

(** its branch for bytes that were received *)
Definition bytes_received (meanwhile : M Bus unit) (s : Z) (bytesReceived : bytes) : M Bus (option bool) :=
  modify (λ b, b <| totalBytesRead ::= λ n, n + Z.of_nat (length bytesReceived) |>);;
  oldBytecount ← on_buffer s (gets pendingBytecount);
  newMessages ←
    tryM (messages ← on_buffer s (write bytesReceived); mret (Some messages))
         (λ e, if decide (e = CorruptMessageStream) then _markSocketClosed s;; mret None else raise e);
  match newMessages with
  | None => mret (Some true)
  | Some newMessages =>
      newBytecount ← on_buffer s (gets pendingBytecount);
      modify (λ b, b <| totalBytesPendingInInputLoop ::= λ n, n + (newBytecount - oldBytecount) |>);;
      modify (λ b, b <| totalBytesPendingInInputLoopHighWatermark ::=
                          Z.max (totalBytesPendingInInputLoop b) |>);;
      handle_messages meanwhile s newMessages;;
      mret (Some true)
  end.

(** its branch for the other watched sockets.  After an [SSLWantWriteError] the local
    [bytesReceived] has no value. *)
Definition recv_ready (meanwhile : M Bus unit) (s : Z) (r : RecvResult) : M Bus (option bool) :=
  match r with
  | RecvWantRead => mret None
  | RecvWantWrite =>
      modify (λ b, b <| socketsWithSslWantWrite ::= λ w, {[s]} ∪ w |>);; raise UnboundLocalError
  | RecvBytes [] | RecvReset | RecvError => _markSocketClosed s;; mret (Some true)
  | RecvBytes bytesReceived => bytes_received meanwhile s bytesReceived
  end.

Definition _handleReadReadySocket (meanwhile : M Bus unit) (accepted : AcceptResult)
    (received : Z → RecvResult) (s : SockOrFd) : M Bus (option bool) :=
  w ← gets allSockets;
  if decide (ASocket <$> acceptSocket cfg = Some s) then accept_ready accepted
  else if contains s w then
    match s with
    | ASocket i => recv_ready meanwhile i (received i)
    | AnFd _ => raise AttributeError
    end
  else mret None.

(** ** The wake pipes *)

(** [os.read(pipe, MSG_BUF_SIZE)]: one byte per trigger *)
Definition read_pipe (proj : Bus → nat) `{!Setter proj} : M Bus nat :=
  n ← gets proj;
  modify (λ b, b <| proj := (n - MSG_BUF_SIZE)%nat |>);;
  mret (min n MSG_BUF_SIZE).

(** [for receivedMsgTrigger in …] *)
Fixpoint repeatM (n : nat) (m : M Bus unit) : M Bus unit :=
  match n with O => mret tt | S n => m;; repeatM n m end.

Definition _handleMessageToSend (meanwhile : M Bus unit) (now : Z) : M Bus unit :=
  got ← zoom messagesToSendQueue (get _bytesPerMsg);
  match got.1 with
  | SDisconnected => mret tt
  | STriggerConnect c =>
      match authToken cfg with
      | Some token => _scheduleBytesForWrite meanwhile c token
      | None => mret tt
      end;;
      modify (λ b, b <| itemsTaken ::= λ l, l ++ [got.1] |>);;
      scheduleCallback now (Some (CbConnectTo c)) None None
  | SMessage c msg =>
      _scheduleBytesForWrite meanwhile c msg;;
      modify (λ b, b <| itemsTaken ::= λ l, l ++ [got.1] |>)
  end.

Definition _handleEventToFire (now : Z) : M Bus unit :=
  l ← gets eventsToFireQueue;
  match l with
  | [] => raise QueueEmpty
  | readMessage :: rest =>
      modify (λ b, b <| eventsToFireQueue := rest |>);;
      match readMessage with
      | FTriggerDisconnect c =>
          pending ← gets connIdPendingOutgoingConnection;
          if decide (c ∈ pending) then
            scheduleCallback now (Some (CbScheduleEvent readMessage)) None (Some 100000)
          else
            out ← gets connIdToOutgoingSocket;
            inc ← gets connIdToIncomingSocket;
            match out !! c, inc !! c with
            | Some s, _ => _markSocketClosed s
            | None, Some s => _markSocketClosed s
            | None, None => mret tt
            end
      | FEvent (OutgoingConnectionEstablished c as e) =>
          out ← gets connIdToOutgoingSocket;
          match out !! c with
          | Some s => watcher (λ f, addForRead f (ASocket s));; mret tt
          | None => mret tt
          end;;
          _fireEvent e
      | FEvent Stopped => _fireEvent Stopped;; raise MessageBusLoopExit
      | FEvent e => _fireEvent e
      end
  end.

Definition _handleMessageToSendWakePipe (meanwhile : M Bus unit) (now : Z) : M Bus unit :=
  n ← read_pipe messageToSendWakePipe; repeatM n (meanwhile;; _handleMessageToSend meanwhile now).
Definition _handleEventToFireWakePipe (meanwhile : M Bus unit) (now : Z) : M Bus unit :=
  n ← read_pipe eventToFireWakePipe; repeatM n (meanwhile;; _handleEventToFire now).
Definition _handleGeneralWakePipe : M Bus unit := read_pipe generalWakePipe;; mret tt.

(** ** The event thread *)

(** the [except] branch of [_connectTo] *)
Definition connect_failed (c : Z) : M Bus bool :=
  modify (λ b, b <| connIdToOutgoingEndpoint ::= delete c |>);;
  modify (λ b, b <| connIdPendingOutgoingConnection ::= λ p, p ∖ {[c]} |>);;
  modify (λ b, b <| messagesForUnconnectedOutgoingConnection ::= delete c |>);;
  out ← gets connIdToOutgoingSocket;
  match out !! c with
  | Some sock =>
      del_key connIdToOutgoingSocket c;;
      del_key socketToOutgoingConnId sock;;
      del_key connIdToOutgoingSocket c;;
      del_key incomingSocketBuffers sock;;
      drop_pending_bytes sock
  | None => mret tt
  end;;
  _scheduleEvent (FEvent (OutgoingConnectionFailed c));;
  mret false.

(** its [try] branch once there is a socket *)
Definition connected (c sock : Z) : M Bus unit :=
  modify (λ b, b <| socketToOutgoingConnId ::= <[sock := c]> |>);;
  modify (λ b, b <| connIdToOutgoingSocket ::= <[c := sock]> |>);;
  modify (λ b, b <| incomingSocketBuffers ::= <[sock := new_MessageBuffer (extraCheck cfg)]> |>);;
  waiting ← gets messagesForUnconnectedOutgoingConnection;
  match waiting !! c with
  | Some messages =>
      modify (λ b, b <| messagesForUnconnectedOutgoingConnection ::= delete c |>);;
      forM messages (_scheduleBytesForWrite (mret tt) c)   (* under the lock *)
  | None => mret tt
  end;;
  modify (λ b, b <| connIdPendingOutgoingConnection ::= λ p, p ∖ {[c]} |>).

(** When the endpoint is missing, the [except] branch trips over the unset [endpoint]. *)
Definition _connectTo (c : Z) (r : ConnectResult) : M Bus bool :=
  eps ← gets connIdToOutgoingEndpoint;
  match eps !! c with
  | None => raise UnboundLocalError
  | Some endpoint =>
      match r with
      | ConnectFailed => connect_failed c
      | ConnectOk sock fd =>
          fresh ← gets (fresh_socket sock fd);
          if fresh : bool then
            modify (λ b, b <| sockFd ::= <[sock := fd]> |>);;
            tryM (connected c sock;;
                  _scheduleEvent (FEvent (OutgoingConnectionEstablished c));;
                  mret true)
                 (λ _, connect_failed c)
          else connect_failed c
      end
  end.

(** One pass of [_eventThreadLoop]: the item that was taken, if there was one.  What
    [onEvent] and the users' callbacks do is theirs; what they raise is logged. *)
Definition event_thread_step (r : ConnectResult) : M Bus (option (EventItem InMsg)) :=
  q ← gets eventQueue;
  n ← gets eventsTaken;
  match q !! n with
  | None => mret None
  | Some item =>
      modify (λ b, b <| eventsTaken ::= S |>);;
      match item with
      | ECallback (CbConnectTo c) => tryM (_connectTo c r;; mret tt) (λ _, mret tt)
      | ECallback (CbScheduleEvent f) => _scheduleEvent f
      | _ => mret tt
      end;;
      mret (Some item)
  end.

(** [_consumeCallbacksOnOutputThread]; [times i] is what the [i]-th call of [time.time]
    returns.  A pass takes a callback or returns, so the length of the list is enough. *)
Fixpoint consume_callbacks (fuel : nat) (times : nat → Z) : M Bus (option Z) :=
  l ← gets pendingTimedCallbacks;
  match l, fuel with
  | [], _ => mret None
  | (ts, callback) :: rest, S fuel =>
      if bool_decide (ts <= times O) then
        modify (λ b, b <| pendingTimedCallbacks := rest |>);;
        modify (λ b, b <| eventQueue ::= λ q, q ++ [ECallback callback] |>);;
        consume_callbacks fuel (λ i, times (S i))
      else mret (Some (Z.max (ts - times O) 0))
  | (ts, _) :: _, O => mret (Some (Z.max (ts - times O) 0))
  end.

Definition _consumeCallbacksOnOutputThread (times : nat → Z) : M Bus (option Z) :=
  l ← gets pendingTimedCallbacks; consume_callbacks (S (length l)) times.

(** ** What the other threads do *)

(** A call of a user thread, a thread waiting in [put] that looks again, or the event thread. *)
Inductive thread_op :=
  | OConnect (endpoint : Endpoint)
  | OClose (c : Z)
  | OSend (c : Z) (message : OutMsg)
  | OCallback (now : Z) (k : nat) (atTimestamp delay : option Z)
  | OSetMax (n : option Z)
  | OStop
  | OResume (i : nat)
  | OEvent (r : ConnectResult).

Definition run_thread (op : thread_op) : M Bus unit :=
  match op with
  | OConnect endpoint => connect endpoint;; mret tt
  | OClose c => closeConnection c
  | OSend c message => sendMessage c message;; mret tt
  | OCallback now k at_ delay => scheduleCallback now (Some (CbUser k)) at_ delay
  | OSetMax n => setMaxWriteQueueSize n
  | OStop => stop_request
  | OResume i => resume_put i
  | OEvent r => event_thread_step r;; mret tt
  end.

(** ** The socket thread *)

(** What happens during one pass of [_socketThreadLoop]: the readings of the clock, what
    epoll reports ([None] when [poll] raises [ValueError]), the results of the calls, and
    what the other threads do each time the thread is interrupted. *)
Record Pass := {
  p_now : Z;
  p_times : nat → Z;
  p_poll : option (list (Z * bool * bool));
  p_accept : AcceptResult;
  p_recv : Z → RecvResult;
  p_send : Z → SendResult;
  p_others : nat → list thread_op;
}.

(** What the others raise is theirs. *)
Definition interrupt (p : Pass) : M Bus unit :=
  n ← gets moment;
  modify (λ b, b <| moment ::= S |>);;
  forM (p_others p n) (λ op, tryM (run_thread op) (λ _, mret tt)).

Definition canRead (b : Bus) : bool :=
  match maxBytes (messagesToSendQueue b) with
  | None => true
  | Some m => bool_decide (totalBytesPendingInOutputLoop b < m)
  end.

(** what the loop watches before it sleeps *)
Definition arm_wake_pipe (cr : bool) : M Bus unit :=
  (if cr then watcher (λ f, addForRead f (AnFd (sendWakeFd cfg)))
   else watcher (λ f, discardForRead f (AnFd (sendWakeFd cfg))));; mret tt.

(** The loop over [_socketToBytesNeedingWrite]: the step of the iterator fails when the
    size of the dictionary is not the one it had at the start. *)
Fixpoint arm_each (p : Pass) (selectsWithNoUpdate : Z) (started_with : nat) (socks : list Z) : M Bus unit :=
  interrupt p;;
  needing ← gets socketToBytesNeedingWrite;
  whenM (bool_decide (size needing ≠ started_with)) (raise RuntimeError);;
  match socks with
  | [] => mret tt
  | s :: rest =>
      (if bool_decide (selectsWithNoUpdate < 10) then watcher (λ f, addForWrite f (ASocket s))
       else watcher (λ f, discardForWrite f (ASocket s)));;
      arm_each p selectsWithNoUpdate started_with rest
  end.

Definition arm_writes (p : Pass) (selectsWithNoUpdate : Z) : M Bus unit :=
  needing ← gets socketToBytesNeedingWrite;
  arm_each p selectsWithNoUpdate (size needing) (map_to_list needing).*1.

(** the handler of [ValueError] *)
Definition poll_failed : M Bus unit :=
  failedSockets ← watcher gc;
  whenM (bool_decide (failedSockets = [])) (raise ValueError);;
  forM failedSockets (λ x, match x with ASocket i => drop_pending_bytes i | AnFd _ => mret tt end).

(** one socket that is ready to be read; the result says whether something was done *)
Definition dispatch_read (p : Pass) (cr : bool) (s : SockOrFd) : M Bus bool :=
  if decide (s = AnFd (sendWakeFd cfg)) then
    if cr then _handleMessageToSendWakePipe (interrupt p) (p_now p);; mret true else mret false
  else if decide (s = AnFd (fireWakeFd cfg)) then _handleEventToFireWakePipe (interrupt p) (p_now p);; mret true
  else if decide (s = AnFd (generalWakeFd cfg)) then _handleGeneralWakePipe;; mret true
  else
    r ← _handleReadReadySocket (interrupt p) (p_accept p) (p_recv p) s;
    mret (bool_decide (r = Some true)).

Definition dispatch_write (p : Pass) (s : SockOrFd) : M Bus bool :=
  match s with
  | ASocket i => r ← _handleWriteReadySocket (interrupt p) i (p_send p i); mret (bool_decide (r = Some true))
  | AnFd _ => mret false
  end.

(** The kernel reports descriptors that are registered, in the directions asked for. *)
Definition kernel_events (events : list (Z * bool * bool)) (w : SocketWatcher) : list (Z * bool * bool) :=
  omap (λ ev, (λ m : bool * bool, (ev.1.1, ev.1.2 && m.1, ev.2 && m.2)) <$> epoll w !! ev.1.1) events.

(** [for … in …: if f(…): didSomething = True] *)
Definition any_of {A} (l : list A) (acc : bool) (f : A → M Bus bool) : M Bus bool :=
  foldM l acc (λ x acc, r ← f x; mret (acc || r)).

(** The sockets of which a write wanted to write: the local variable is the set itself,
    so it is empty by the time it is read. *)
Definition ssl_want_write_sockets (p : Pass) (acc : bool) : M Bus bool :=
  modify (λ b, b <| socketsWithSslWantWrite := ∅ |>);;
  socketsWithSslWantWrite ← gets socketsWithSslWantWrite;
  any_of (elements socketsWithSslWantWrite) acc (λ i,
    watcher (λ f, discardForWrite f (ASocket i));; dispatch_write p (ASocket i)).

(** One pass, without the outer [try].  Returns the new [selectsWithNoUpdate]. *)
Definition socket_pass (p : Pass) (selectsWithNoUpdate : Z) : M Bus Z :=
  cr ← gets canRead;
  interrupt p;;
  (if cr : bool then _consumeCallbacksOnOutputThread (p_times p);; mret tt else mret tt);;
  arm_wake_pipe cr;;
  arm_writes p selectsWithNoUpdate;;
  interrupt p;;
  match p_poll p with
  | None => poll_failed;; mret selectsWithNoUpdate
  | Some events =>
      ready ← watcher (λ _, w ← get_state; poll (kernel_events events w));
      did ← any_of (elements ready.1) false (λ k, interrupt p;; dispatch_read p cr k);
      did ← ssl_want_write_sockets p did;
      did ← (if bool_decide (selectsWithNoUpdate < 10)
             then any_of (elements ready.2) did (λ k, interrupt p;; dispatch_write p k) else mret did);
      mret (if did : bool then 0 else selectsWithNoUpdate + 1)
  end.

(** The pass of the loop: [None] when the thread exits.  Other exceptions are logged. *)
Definition socket_loop_pass (p : Pass) (selectsWithNoUpdate : Z) : M Bus (option Z) :=
  tryM (n ← socket_pass p selectsWithNoUpdate; mret (Some n))
       (λ e, if decide (e = MessageBusLoopExit) then mret None else mret (Some selectsWithNoUpdate)).

(** the end of [stop], once both threads are gone *)
Definition stop_finish : M Bus unit :=
  match acceptSocket cfg with Some s => _ensureSocketClosed s | None => mret tt end;;
  inc ← gets connIdToIncomingSocket;
  forM (map_to_list inc).*2 _ensureSocketClosed;;
  out ← gets connIdToOutgoingSocket;
  forM (map_to_list out).*2 _ensureSocketClosed;;
  watcher (λ _, teardown).
End bus.
