(* ===== verification/BusInvariant.v ===== *)
(** * The invariant of the message bus

    Four groups of facts, each stated on the fields it is about: the connection tables
    agree ([tables]), the watched sockets are open ones the bus has a buffer for
    ([watching]), every pending connection has exactly one attempt outstanding ([tasks]),
    and there is something in a queue for every byte in its wake pipe ([pipes]). *)

From Stdlib Require Import Lia.
From stdpp Require Import options.
From S2P Require Import Prelude MessageBuffer ByteQueue SocketWatcher MessageBus.

Local Open Scope Z_scope.

Record tables (cnt : Z) (inc out s2in s2out : gmap Z Z) (unauth pend : gset Z)
    (inEp outEp : gmap Z Endpoint) (bufs : gset Z) : Prop := {
  tb_in c s : inc !! c = Some s ↔ s2in !! s = Some c;
  tb_out c s : out !! c = Some s ↔ s2out !! s = Some c;
  tb_in_ep c : is_Some (inc !! c) ↔ is_Some (inEp !! c);
  tb_out_ep c : is_Some (out !! c) → is_Some (outEp !! c);
  tb_pend c : c ∈ pend → is_Some (outEp !! c) ∧ out !! c = None;
  tb_unauth c : c ∈ unauth → is_Some (inc !! c);
  tb_cnt_in c : is_Some (inEp !! c) → c <= cnt;
  tb_cnt_out c : is_Some (outEp !! c) → c <= cnt;
  tb_sep c : is_Some (inEp !! c) → outEp !! c = None;
  tb_sock_in s c : s2in !! s = Some c → s ∈ bufs;
  tb_sock_out s c : s2out !! s = Some c → s ∈ bufs;
  tb_sock_sep s c : s2in !! s = Some c → s2out !! s = None;
}.

(** [wakes]: the read ends of the pipes; [accept]: the listening socket; [bufs]: open
    sockets that have a buffer; [need]: sockets with bytes to write. *)
Record watching (wakes : list Z) (accept : option Z) (w : SocketWatcher) (fds : gmap Z Z)
    (bufs need : gset Z) : Prop := {
  wa_ok : watch_ok w;
  wa_open : closed w = false;
  wa_sock s fd r wr : sockets w !! ASocket s = Some (fd, r, wr) → fds !! s = Some fd ∧ 0 <= fd;
  wa_buf s : is_Some (sockets w !! ASocket s) → s ∈ bufs ∨ accept = Some s;
  wa_fd i fd r wr : sockets w !! AnFd i = Some (fd, r, wr) → fd = i ∧ i ∈ wakes;
  wa_inj s s' fd : fds !! s = Some fd → fds !! s' = Some fd → 0 <= fd → s = s';
  wa_wake s fd : fds !! s = Some fd → fd ∉ wakes;
  wa_bufs s : s ∈ bufs → ∃ fd, fds !! s = Some fd ∧ 0 <= fd;
  wa_accept s : accept = Some s → (s ∉ bufs) ∧ ∃ fd, fds !! s = Some fd ∧ 0 <= fd;
  wa_need s : s ∈ need → s ∈ bufs ∨ fds !! s = Some (-1);
}.

Definition tasks (pend : gset Z) (l : list Z) : Prop := NoDup l ∧ ∀ c, c ∈ l ↔ c ∈ pend.

#[export] Instance tasks_proper pend : Proper ((≡ₚ) ==> iff) (tasks pend).
Proof. intros l l' Hl. unfold tasks. rewrite Hl. by setoid_rewrite Hl. Qed.

(** ** What the updates do to the groups *)

Section tables.
Context {cnt : Z} {inc out s2in s2out : gmap Z Z} {unauth pend : gset Z}
  {inEp outEp : gmap Z Endpoint} {bufs : gset Z}.
Abbreviation T := (tables cnt inc out s2in s2out unauth pend inEp outEp bufs).

Lemma tables_new_id c :
  T → cnt < c → inc !! c = None ∧ out !! c = None ∧ inEp !! c = None ∧ outEp !! c = None ∧ c ∉ pend.
Proof.
  intros HT Hc.
  assert (inEp !! c = None) as Hi.
  { apply eq_None_not_Some. intros Hs. pose proof (tb_cnt_in _ _ _ _ _ _ _ _ _ _ HT c Hs). lia. }
  assert (outEp !! c = None) as Ho.
  { apply eq_None_not_Some. intros Hs. pose proof (tb_cnt_out _ _ _ _ _ _ _ _ _ _ HT c Hs). lia. }
  split_and!; try done.
  - apply eq_None_not_Some. rewrite (tb_in_ep _ _ _ _ _ _ _ _ _ _ HT), Hi. by intros [? ?].
  - apply eq_None_not_Some. intros Hs%(tb_out_ep _ _ _ _ _ _ _ _ _ _ HT). rewrite Ho in Hs. by destruct Hs.
  - intros Hp%(tb_pend _ _ _ _ _ _ _ _ _ _ HT). rewrite Ho in Hp. by destruct Hp as [[??] _].
Qed.

(** a new outgoing connection *)
Lemma tables_connect ep :
  T → tables (cnt + 1) inc out s2in s2out unauth ({[cnt + 1]} ∪ pend) inEp (<[cnt + 1 := ep]> outEp) bufs.
Proof.
  intros HT. destruct (tables_new_id (cnt + 1) HT) as (Hi & Ho & Hie & Hoe & Hp); [lia|].
  destruct HT. split; try done.
  - intros c Hc. rewrite lookup_insert. case_decide; [by eexists|auto].
  - intros c. rewrite elem_of_union, elem_of_singleton, lookup_insert.
    intros [->|Hc]; [by rewrite decide_True|]. case_decide; subst; [done|auto].
  - intros c Hc. specialize (tb_cnt_in0 c Hc). lia.
  - intros c. rewrite lookup_insert. case_decide; [lia|]. intros Hc. specialize (tb_cnt_out0 c Hc). lia.
  - intros c Hc. rewrite lookup_insert. case_decide as Hd; [|auto]. subst. rewrite Hie in Hc. by destruct Hc.
Qed.

(** a new incoming connection *)
Lemma tables_accept sock ep authenticate :
  T → sock ∉ bufs →
  tables (cnt + 1) (<[cnt + 1 := sock]> inc) out (<[sock := cnt + 1]> s2in) s2out
    (if authenticate : bool then {[cnt + 1]} ∪ unauth else unauth) pend (<[cnt + 1 := ep]> inEp) outEp
    ({[sock]} ∪ bufs).
Proof.
  intros HT Hs. destruct (tables_new_id (cnt + 1) HT) as (Hi & Ho & Hie & Hoe & Hp); [lia|].
  destruct HT. assert (s2in !! sock = None) as Hsi.
  { apply eq_None_not_Some. intros [c Hc]. by apply tb_sock_in0 in Hc. }
  split; try done.
  - intros c s. rewrite !lookup_insert. do 2 case_decide; subst; try naive_solver congruence.
  - intros c. rewrite !lookup_insert. case_decide; [split; by eexists|auto].
  - intros c Hc. rewrite lookup_insert. case_decide; [by eexists|]. apply tb_unauth0. destruct authenticate; set_solver.
  - intros c. rewrite lookup_insert. case_decide; [lia|]. intros Hc. specialize (tb_cnt_in0 c Hc). lia.
  - intros c Hc. specialize (tb_cnt_out0 c Hc). lia.
  - intros c. rewrite lookup_insert. case_decide; [by subst|auto].
  - intros s c. rewrite lookup_insert. case_decide; set_solver.
  - intros s c ?%tb_sock_out0. set_solver.
  - intros s c. rewrite lookup_insert. case_decide; [|eauto]. subst. intros _.
    apply eq_None_not_Some. intros [c' Hc']. by apply tb_sock_out0 in Hc'.
Qed.

(** an incoming, and an outgoing connection is closed *)
Lemma tables_close_in s c :
  T → s2in !! s = Some c →
  tables cnt (delete c inc) out (delete s s2in) s2out (unauth ∖ {[c]}) pend (delete c inEp) outEp (bufs ∖ {[s]}).
Proof.
  intros HT Hs. destruct HT. pose proof (proj2 (tb_in0 c s) Hs) as Hc. split; try done.
  - intros c' s'. rewrite !lookup_delete. do 2 case_decide; subst; naive_solver congruence.
  - intros c'. rewrite !lookup_delete. by case_decide.
  - intros c'. rewrite elem_of_difference, elem_of_singleton, lookup_delete.
    intros [Hu Hne]. rewrite decide_False; [auto|congruence].
  - intros c'. rewrite lookup_delete. case_decide; [by intros [??]|auto].
  - intros c'. rewrite lookup_delete. case_decide; [by intros [??]|auto].
  - intros s' c'. rewrite lookup_delete. case_decide; [done|]. intros ?%tb_sock_in0. set_solver.
  - intros s' c' Hs'. pose proof (tb_sock_out0 _ _ Hs').
    apply elem_of_difference. split; [done|]. intros ->%elem_of_singleton.
    rewrite (tb_sock_sep0 _ _ Hs) in Hs'. done.
  - intros s' c'. rewrite lookup_delete. case_decide; [done|eauto].
Qed.

Lemma tables_close_out s c :
  T → s2in !! s = None → s2out !! s = Some c →
  tables cnt inc (delete c out) s2in (delete s s2out) unauth pend inEp (delete c outEp) (bufs ∖ {[s]}).
Proof.
  intros HT Hin Hs. destruct HT. pose proof (proj2 (tb_out0 c s) Hs) as Hc. split; try done.
  - intros c' s'. rewrite !lookup_delete. do 2 case_decide; subst; naive_solver congruence.
  - intros c'. rewrite !lookup_delete. case_decide; [by intros [??]|auto].
  - intros c' Hp. destruct (tb_pend0 c' Hp) as [He Ho]. rewrite !lookup_delete.
    rewrite !decide_False by congruence. done.
  - intros c'. rewrite lookup_delete. case_decide; [by intros [??]|auto].
  - intros c' He. rewrite lookup_delete. case_decide; auto.
  - intros s' c' Hs'. pose proof (tb_sock_in0 _ _ Hs'). apply elem_of_difference. split; [done|].
    intros ->%elem_of_singleton. congruence.
  - intros s' c'. rewrite lookup_delete. case_decide; [done|]. intros ?%tb_sock_out0. set_solver.
  - intros s' c' Hs'. rewrite lookup_delete. case_decide; [done|eauto].
Qed.

(** an attempt to connect ends *)
Lemma tables_connected c sock :
  T → c ∈ pend → sock ∉ bufs →
  tables cnt inc (<[c := sock]> out) s2in (<[sock := c]> s2out) unauth (pend ∖ {[c]}) inEp outEp ({[sock]} ∪ bufs).
Proof.
  intros HT Hp Hs. destruct HT. destruct (tb_pend0 c Hp) as [He Ho].
  assert (s2out !! sock = None) as Hso.
  { apply eq_None_not_Some. intros [c' Hc']. by apply tb_sock_out0 in Hc'. }
  split; try done.
  - intros c' s'. rewrite !lookup_insert. do 2 case_decide; subst; naive_solver congruence.
  - intros c'. rewrite lookup_insert. case_decide; [by subst|auto].
  - intros c'. rewrite elem_of_difference, elem_of_singleton, lookup_insert. intros [Hp' Hne].
    rewrite decide_False by congruence. auto.
  - intros s' c' ?%tb_sock_in0. set_solver.
  - intros s' c'. rewrite lookup_insert. case_decide; [set_solver|]. intros ?%tb_sock_out0. set_solver.
  - intros s' c' Hs'. rewrite lookup_insert. case_decide; [|eauto]. subst. by apply tb_sock_in0 in Hs'.
Qed.

Lemma tables_connect_failed c :
  T → c ∈ pend → tables cnt inc out s2in s2out unauth (pend ∖ {[c]}) inEp (delete c outEp) bufs.
Proof.
  intros HT Hp. destruct HT. destruct (tb_pend0 c Hp) as [He Ho]. split; try done.
  - intros c' Hc'. rewrite lookup_delete. case_decide; [|auto]. subst. rewrite Ho in Hc'. by destruct Hc'.
  - intros c'. rewrite elem_of_difference, elem_of_singleton, lookup_delete. intros [Hp' Hne].
    rewrite decide_False by congruence. auto.
  - intros c'. rewrite lookup_delete. case_decide; [by intros [??]|auto].
  - intros c' Hc'. rewrite lookup_delete. case_decide; auto.
Qed.

Lemma tables_unauth c : T → tables cnt inc out s2in s2out (unauth ∖ {[c]}) pend inEp outEp bufs.
Proof. intros []. split; try done. intros c' Hc. apply tb_unauth0. set_solver. Qed.
Lemma tables_bufs bufs' :
  T → bufs ⊆ bufs' → tables cnt inc out s2in s2out unauth pend inEp outEp bufs'.
Proof.
  intros [] Hsub. split; try done; [intros s c Hs; apply Hsub; eauto..].
Qed.
Lemma tables_forget_sock s :
  T → s2in !! s = None → s2out !! s = None →
  tables cnt inc out s2in s2out unauth pend inEp outEp (bufs ∖ {[s]}).
Proof.
  intros [] Hi Ho. split; try done.
  - intros s' c Hs'. apply elem_of_difference. split; [eauto|]. intros ->%elem_of_singleton. congruence.
  - intros s' c Hs'. apply elem_of_difference. split; [eauto|]. intros ->%elem_of_singleton. congruence.
Qed.
End tables.

Section watching.
Context {wakes : list Z} {accept : option Z} {fds : gmap Z Z} {bufs need : gset Z}.
Implicit Types (w : SocketWatcher) (k : SockOrFd).
Abbreviation W w := (watching wakes accept w fds bufs need).
Let fileno (s : Z) : Z := default (-1) (fds !! s).

(** what the bus may watch; a closed socket is refused by the watcher *)
Definition watchable k : Prop :=
  match k with
  | ASocket s => (s ∈ bufs ∨ accept = Some s) ∨ fds !! s = Some (-1)
  | AnFd i => i ∈ wakes
  end.

Lemma watchable_fd w k i :
  W w → watchable k → k = ASocket i →
  fds !! i = Some (fdForSockOrFd fileno k) ∧
  (0 <= fdForSockOrFd fileno k → i ∈ bufs ∨ accept = Some i).
Proof.
  intros HW Hk ->. cbn in *. destruct Hk as [Hk|Hk].
  - assert (∃ fd, fds !! i = Some fd ∧ 0 <= fd) as (fd & Hfd & Hpos).
    { destruct Hk as [Hk|Hk]; [by apply (wa_bufs _ _ _ _ _ _ HW)|by apply (wa_accept _ _ _ _ _ _ HW)]. }
    unfold fileno. rewrite Hfd. by split.
  - unfold fileno. rewrite Hk. split; [done|]. cbn. lia.
Qed.

Lemma watching_own_fd w k : W w → watchable k → own_fd fileno k w.
Proof.
  intros HW Hk s' Hs'. pose proof (λ i, watchable_fd w k i HW Hk) as Hfd.
  destruct (wk_sockets _ (wa_ok _ _ _ _ _ _ HW) _ _ Hs') as (r & wr & Hsock).
  destruct s' as [j|j], k as [i|i]; cbn in *.
  - by destruct (wa_fd _ _ _ _ _ _ HW _ _ _ _ Hsock) as [-> _].
  - destruct (wa_fd _ _ _ _ _ _ HW _ _ _ _ Hsock) as [Hij Hj]. destruct (Hfd i eq_refl) as [Hi _].
    rewrite <-Hij in Hj. by destruct (wa_wake _ _ _ _ _ _ HW _ _ Hi).
  - destruct (wa_sock _ _ _ _ _ _ HW _ _ _ _ Hsock) as [Hj _]. by destruct (wa_wake _ _ _ _ _ _ HW _ _ Hj).
  - destruct (wa_sock _ _ _ _ _ _ HW _ _ _ _ Hsock) as [Hj ?]. destruct (Hfd i eq_refl) as [Hi _].
    f_equal. by eapply (wa_inj _ _ _ _ _ _ HW).
Qed.

Lemma watching_changes w w' k :
  W w → watchable k ∨ sockets w !! k ≠ None → watch_ok w' → only_changes fileno k w w' → W w'.
Proof.
  intros HW Hk Hok (Hc & Hother & Hself).
  assert (∀ j fd r wr, sockets w' !! ASocket j = Some (fd, r, wr) →
    (fds !! j = Some fd ∧ 0 <= fd) ∧ (j ∈ bufs ∨ accept = Some j)) as Hj.
  { intros j fd r wr Hs.
    assert (∀ r' wr', sockets w !! ASocket j = Some (fd, r', wr') →
      (fds !! j = Some fd ∧ 0 <= fd) ∧ (j ∈ bufs ∨ accept = Some j)) as Hold.
    { intros r' wr' Hs'. split; [by eapply wa_sock|]. apply (wa_buf _ _ _ _ _ _ HW). by eexists. }
    destruct (decide (k = ASocket j)) as [->|Hne].
    2: { rewrite Hother in Hs by congruence. by eapply Hold. }
    destruct (Hself _ _ _ Hs) as [[-> Hpos]|(r' & wr' & Hs')]; [|by eapply Hold].
    destruct Hk as [Hk|Hk].
    - destruct (watchable_fd w (ASocket j) j HW Hk eq_refl) as [Hfd Hb]. split; [done|]. by apply Hb.
    - destruct (sockets w !! ASocket j) as [[[fd ?] ?]|] eqn:Hw; [|done].
      pose proof (wa_sock _ _ _ _ _ _ HW _ _ _ _ Hw) as [Hfd _].
      split; [|apply (wa_buf _ _ _ _ _ _ HW); by eexists].
      split; [|done]. cbn. unfold fileno. by rewrite Hfd. }
  destruct HW as [HWok HWo HWs HWb HWf HWi HWw HWbu HWa HWn]. split; try done.
  - congruence.
  - intros j fd r wr Hs. by apply (Hj j fd r wr).
  - intros j [[[fd r] wr] Hs]. by eapply Hj.
  - intros i fd r wr Hs. destruct (decide (k = AnFd i)) as [->|Hne].
    2: { rewrite Hother in Hs by congruence. by eapply HWf. }
    destruct (Hself _ _ _ Hs) as [[-> _]|(r' & wr' & Hs')]; [|by eapply HWf]. cbn. split; [done|].
    destruct Hk as [Hk|Hk]; [done|]. destruct (sockets w !! AnFd i) as [[[fd' ?] ?]|] eqn:Hk'; [|done]. by eapply HWf.
Qed.

Lemma watching_add w k ar aw : W w → watchable k → wp (add fileno k ar aw) (λ _ w', W w') (λ _ _, False) w.
Proof.
  intros HW Hk. pose proof (add_changes fileno k ar aw w (wa_ok _ _ _ _ _ _ HW)) as Hch.
  pose proof (add_ok fileno k ar aw w (wa_ok _ _ _ _ _ _ HW) (watching_own_fd w k HW Hk)) as Hok.
  unfold wp in *. destruct (add fileno k ar aw w) as [[?|?] w']; [|done].
  eapply watching_changes; [done|by left|done|done].
Qed.

Lemma watching_discard w k dr dw : W w → wp (discard fileno k dr dw) (λ _ w', W w') (λ _ _, False) w.
Proof.
  intros HW. destruct (sockets w !! k) as [x|] eqn:Hk.
  2: { unfold wp, discard. rewrite run_bind, run_gets, Hk. exact HW. }
  pose proof (discard_changes fileno k dr dw w (wa_ok _ _ _ _ _ _ HW)) as Hch.
  pose proof (discard_ok fileno k dr dw w (wa_ok _ _ _ _ _ _ HW)) as Hok.
  unfold wp in *. destruct (discard fileno k dr dw w) as [[?|?] w']; [|done].
  eapply watching_changes; [done|right; by rewrite Hk|tauto|done].
Qed.
End watching.

Section watching_updates.
Context {wakes : list Z} {accept : option Z} {w : SocketWatcher} {fds : gmap Z Z} {bufs need : gset Z}.
Abbreviation W := (watching wakes accept w fds bufs need).

Lemma watching_need need' : W → (∀ s, s ∈ need' → s ∈ need ∨ s ∈ bufs) → watching wakes accept w fds bufs need'.
Proof. intros [] Hn. split; try done. intros s Hs. destruct (Hn s Hs); auto. Qed.

Lemma watching_new_socket s fd :
  W → fds !! s = None → 0 <= fd → fd ∉ wakes → map_Forall (λ _ fd', fd' ≠ fd) fds →
  watching wakes accept w (<[s := fd]> fds) bufs need.
Proof.
  intros HW Hs Hfd Hwk Hfresh. destruct HW.
  assert (∀ s' fd', fds !! s' = Some fd' → fd' ≠ fd) as Hne by exact Hfresh.
  split; try done.
  - intros s' fd' r wr Hs'. destruct (wa_sock0 _ _ _ _ Hs'). rewrite lookup_insert_ne; [done|]. congruence.
  - intros s1 s2 fd'. rewrite !lookup_insert. do 2 case_decide; subst; try naive_solver.
  - intros s' fd'. rewrite lookup_insert. case_decide; [by intros [= <-]|eauto].
  - intros s' Hb. destruct (wa_bufs0 s' Hb) as (fd' & ? & ?). exists fd'. rewrite lookup_insert_ne; [done|congruence].
  - intros s' Hb. destruct (wa_accept0 s' Hb) as (? & fd' & ? & ?). split; [done|].
    exists fd'. rewrite lookup_insert_ne; [done|congruence].
  - intros s' Hn. destruct (wa_need0 s' Hn) as [?|Hcl]; [by left|right].
    rewrite lookup_insert_ne; [done|congruence].
Qed.

Lemma watching_buf s fd :
  W → fds !! s = Some fd → 0 <= fd → accept ≠ Some s → watching wakes accept w fds ({[s]} ∪ bufs) need.
Proof.
  intros [] Hs Hfd Ha. split; try done.
  - intros s' Hs'. destruct (wa_buf0 s' Hs'); [left; set_solver|by right].
  - intros s' [->%elem_of_singleton|Hs']%elem_of_union; [by exists fd|auto].
  - intros s' Hs'. destruct (wa_accept0 s' Hs') as [? ?]. split; [|done]. set_solver.
  - intros s' Hs'. destruct (wa_need0 s' Hs'); [left; set_solver|by right].
Qed.

Context (Hwakes : ∀ i, i ∈ wakes → 0 <= i).

(** a socket is closed: the descriptor, the buffers and the watch go together *)
Lemma watching_close s :
  W → accept ≠ Some s →
  let w1 := w <| epoll ::= delete (default (-1) (fds !! s)) |> in
  let fds' := <[s := -1]> fds in
  wp (discard (λ i, default (-1) (fds' !! i)) (ASocket s) true true)
     (λ _ w', watching wakes accept w' fds' (bufs ∖ {[s]}) need) (λ _ _, False) w1.
Proof using Hwakes.
  intros HW Ha w1 fds'. set (fileno i := default (-1) (fds' !! i)).
  pose proof (watch_ok_forget w (default (-1) (fds !! s)) (wa_ok _ _ _ _ _ _ HW)) as Hok1.
  pose proof (discard_ok fileno (ASocket s) true true w1 Hok1) as Hok.
  pose proof (discard_changes fileno (ASocket s) true true w1 Hok1) as (Hc & Hother & _).
  assert (sockets (discard fileno (ASocket s) true true w1).2 !! ASocket s = None) as Hgone.
  { apply discard_closed; [done|]. cbn. unfold fileno, fds'. rewrite lookup_insert_eq. cbn. lia. }
  unfold wp in *. destruct (discard fileno (ASocket s) true true w1) as [[?|?] w']; [|done].
  destruct Hok as [Hok _]. cbn in Hc, Hother, Hgone.
  destruct HW as [HWok HWo HWs HWb HWf HWi HWw HWbu HWa HWn].
  assert (∀ j, j ≠ s → fds' !! j = fds !! j) as Hfds by (intros j Hj; by apply lookup_insert_ne).
  assert (∀ j fd, fds' !! j = Some fd → j = s ∧ fd = -1 ∨ j ≠ s ∧ fds !! j = Some fd) as Hfds'.
  { intros j fd. unfold fds'. rewrite lookup_insert. case_decide; subst; [intros [= <-]; by left|by right]. }
  assert (∀ j x, sockets w' !! ASocket j = Some x → j ≠ s ∧ sockets w !! ASocket j = Some x) as Hs'.
  { intros j x Hj. assert (j ≠ s) as Hne by (intros ->; congruence). split; [done|].
    rewrite <-Hj. symmetry. apply (Hother (ASocket j)). congruence. }
  split; try done.
  - congruence.
  - intros j fd r wr Hj. destruct (Hs' _ _ Hj) as [Hne Hj']. rewrite Hfds by done. eauto.
  - intros j [x Hj]. destruct (Hs' _ _ Hj) as [Hne Hj']. destruct (HWb j) as [?|?]; [by eexists|left; set_solver|by right].
  - intros i fd r wr Hi. apply (HWf i fd r wr). rewrite <-Hi. symmetry. by apply (Hother (AnFd i)).
  - intros j j' fd Hj Hj' Hpos. destruct (Hfds' _ _ Hj) as [[-> ->]|[? ?]]; [lia|].
    destruct (Hfds' _ _ Hj') as [[-> ->]|[? ?]]; [lia|eauto].
  - intros j fd Hj. destruct (Hfds' _ _ Hj) as [[-> ->]|[? ?]]; [|eauto]. intros Hin%Hwakes. lia.
  - intros j Hj. rewrite Hfds by set_solver. apply HWbu. set_solver.
  - intros j Hj. destruct (HWa j Hj) as [Hb Hfd]. split; [set_solver|]. rewrite Hfds; [done|]. congruence.
  - intros j Hj. destruct (decide (j = s)) as [->|Hne]; [right; apply lookup_insert_eq|].
    destruct (HWn j Hj); [left; set_solver|right]. by rewrite Hfds.
Qed.
End watching_updates.

(** ** Attempts to connect *)

Section tasks.
Context {InMsg : Type} `{SortedSet (Callback InMsg)}.

Definition send_task (item : ToSend) : option Z :=
  match item with STriggerConnect c => Some c | _ => None end.
Definition cb_task (cb : Callback InMsg) : option Z :=
  match cb with CbConnectTo c => Some c | _ => None end.
Definition ev_task (item : EventItem InMsg) : option Z :=
  match item with ECallback cb => cb_task cb | _ => None end.

(** the connections that something in the queues will try to make *)
Definition task_list (queue waiting : list ToSend) (cbs : list (Z * Callback InMsg))
    (events : list (EventItem InMsg)) : list Z :=
  omap send_task queue ++ omap send_task waiting ++ omap (λ x, cb_task x.2) cbs ++ omap ev_task events.

Lemma tasks_add pend l c : tasks pend l → c ∉ pend → tasks ({[c]} ∪ pend) (c :: l).
Proof.
  intros [Hnd Hin] Hc. split; [constructor; [by rewrite Hin|done]|].
  intros c'. rewrite elem_of_cons, Hin. set_solver.
Qed.

Lemma tasks_remove pend l c : tasks pend (c :: l) → tasks (pend ∖ {[c]}) l.
Proof.
  intros [Hnd Hin]. apply NoDup_cons in Hnd as [Hc Hnd]. split; [done|]. intros c'.
  specialize (Hin c'). rewrite elem_of_cons in Hin. split.
  - intros Hc'. apply elem_of_difference. split; [apply Hin; by right|]. intros ->%elem_of_singleton. done.
  - intros [Hp Hne]%elem_of_difference. apply Hin in Hp as [->|?]; [|done]. set_solver.
Qed.

Lemma ss_add_other x (l : list (Z * Callback InMsg)) :
  cb_task x.2 = None → omap (λ x, cb_task x.2) (ss_add x l) ≡ₚ omap (λ x, cb_task x.2) l.
Proof.
  intros Hx. destruct (ss_add_spec x l) as [Hl|[_ ->]]; [|done]. rewrite Hl. cbn. by rewrite Hx.
Qed.

Lemma ss_add_task ts c (l : list (Z * Callback InMsg)) :
  c ∉ omap (λ x, cb_task x.2) l →
  omap (λ x, cb_task x.2) (ss_add (ts, CbConnectTo c) l) ≡ₚ c :: omap (λ x, cb_task x.2) l.
Proof.
  intros Hc. destruct (ss_add_spec (ts, CbConnectTo c) l) as [Hl|[Hin _]]; [by rewrite Hl|].
  destruct Hc. apply list_elem_of_omap. by exists (ts, CbConnectTo c).
Qed.
End tasks.
