(* ===== verification/BusContract.v ===== *)
(** * What the message bus promises: the order of its events and the bytes it sends

    Two more groups of the invariant of the bus: the events of a connection come in the
    order opened, messages, closed ([events]), and what was written to a socket together
    with what is still to be written is the messages of its connection, framed, in the
    order in which they were taken from the send queue ([streams]). *)

From Stdlib Require Import Lia.
From stdpp Require Import options.
From S2P Require Import Prelude MessageBuffer MessageBus.

Local Open Scope Z_scope.

(** a list with the element that will be added to it, if there is one *)
Definition after {A} (o : option A) (l : list A) : list A :=
  match o with None => l | Some x => l ++ [x] end.

(** ** Events of incoming connections *)

Inductive tag := TNew | TMessage | TClosed.

Section events.
Context {InMsg : Type}.
Implicit Types (q : list (EventItem InMsg)) (c : Z).

(** what an item for the event thread says of a connection *)
Definition about c (item : EventItem InMsg) : option tag :=
  match item with
  | EEvent (NewIncomingConnection _ c') => if decide (c' = c) then Some TNew else None
  | EEvent (IncomingMessage c' _) => if decide (c' = c) then Some TMessage else None
  | EEvent (IncomingConnectionClosed c') => if decide (c' = c) then Some TClosed else None
  | _ => None
  end.
Definition tags c q : list tag := omap (about c) q.
Definition quiet (item : EventItem InMsg) : Prop := ∀ c, about c item = None.

Lemma tags_snoc c q item : tags c (q ++ [item]) = tags c q ++ option_list (about c item).
Proof. unfold tags. rewrite omap_app. cbn. by destruct (about c item). Qed.
Lemma tags_quiet c q item : quiet item → tags c (q ++ [item]) = tags c q.
Proof. intros Hq. by rewrite tags_snoc, Hq, app_nil_r. Qed.

(** An open connection has been announced, and has had no message if it is not
    authenticated; any other is unannounced, or was closed after its last message. *)
Record events (cnt : Z) (inc : gmap Z Z) (outEp : gmap Z Endpoint) (unauth : gset Z) q : Prop := {
  ev_open c : is_Some (inc !! c) →
    ∃ n, tags c q = TNew :: replicate n TMessage ∧ (c ∈ unauth → n = O);
  ev_else c : inc !! c = None →
    (∃ n, tags c q = replicate n TMessage) ∨
    (∃ n, tags c q = TNew :: replicate n TMessage ++ [TClosed]) ∧ outEp !! c = None;
  ev_new c : cnt < c → tags c q = [];
}.

Context {cnt : Z} {inc : gmap Z Z} {outEp : gmap Z Endpoint} {unauth : gset Z} {q : list (EventItem InMsg)}.
Abbreviation Ev := (events cnt inc outEp unauth q).

Lemma events_same q' : Ev → (∀ c, tags c q' = tags c q) → events cnt inc outEp unauth q'.
Proof. intros [] Heq. split; intros c; rewrite Heq; auto. Qed.

Lemma events_quiet item : Ev → quiet item → events cnt inc outEp unauth (q ++ [item]).
Proof. intros HE Hq. eapply events_same; [exact HE|]. intros c. by apply tags_quiet. Qed.

Lemma events_fewer outEp' unauth' :
  Ev → (∀ c, outEp !! c = None → outEp' !! c = None) → unauth' ⊆ unauth → events cnt inc outEp' unauth' q.
Proof.
  intros [] Ho Hu. split; [| |done].
  - intros c Hc. destruct (ev_open0 c Hc) as (n & Ht & Hn). exists n. split; [done|]. auto.
  - intros c Hc. destruct (ev_else0 c Hc) as [?|[? ?]]; [by left|right; auto].
Qed.

Lemma events_connect ep :
  Ev → inc !! (cnt + 1) = None → events (cnt + 1) inc (<[cnt + 1 := ep]> outEp) unauth q.
Proof.
  intros [] Hi. split; [done| |intros c Hc; apply ev_new0; lia].
  intros c Hc. destruct (decide (c = cnt + 1)) as [->|Hne].
  - left. exists O. apply ev_new0. lia.
  - destruct (ev_else0 c Hc) as [?|[? ?]]; [by left|right]. by rewrite lookup_insert_ne.
Qed.

Lemma events_accept sock source (authenticate : bool) :
  Ev → inc !! (cnt + 1) = None →
  events (cnt + 1) (<[cnt + 1 := sock]> inc) outEp (if authenticate then {[cnt + 1]} ∪ unauth else unauth)
    (q ++ [EEvent (NewIncomingConnection source (cnt + 1))]).
Proof.
  intros [] Hi.
  assert (∀ c, c ≠ cnt + 1 → tags c (q ++ [EEvent (NewIncomingConnection source (cnt + 1))]) = tags c q) as Hother.
  { intros c Hne. rewrite tags_snoc. cbn. rewrite decide_False by congruence. by rewrite app_nil_r. }
  split.
  - intros c. rewrite lookup_insert. case_decide as Hd.
    + intros _. subst c. exists O. rewrite tags_snoc, (ev_new0 (cnt + 1)) by lia. cbn. by rewrite decide_True.
    + intros Hc. rewrite Hother by congruence. destruct (ev_open0 c Hc) as (n & Ht & Hn). exists n. split; [done|].
      intros Hu. apply Hn. destruct authenticate; set_solver.
  - intros c. rewrite lookup_insert. case_decide; [done|]. rewrite Hother by congruence. auto.
  - intros c Hc. rewrite Hother by lia. apply ev_new0. lia.
Qed.

Lemma events_message c m :
  Ev → is_Some (inc !! c) ∨ is_Some (outEp !! c) → c ∉ unauth → c <= cnt →
  events cnt inc outEp unauth (q ++ [EEvent (IncomingMessage c m)]).
Proof.
  intros [] Hk Hu Hc.
  assert (∀ c', c' ≠ c → tags c' (q ++ [EEvent (IncomingMessage c m)]) = tags c' q) as Hother.
  { intros c' Hne. rewrite tags_snoc. cbn. rewrite decide_False by congruence. by rewrite app_nil_r. }
  assert (tags c (q ++ [EEvent (IncomingMessage c m)]) = tags c q ++ [TMessage]) as Hself.
  { rewrite tags_snoc. cbn. by rewrite decide_True. }
  split.
  - intros c' Hc'. destruct (decide (c' = c)) as [->|Hne]; [|rewrite Hother by done; auto].
    destruct (ev_open0 c Hc') as (n & Ht & _). exists (S n). rewrite Hself, Ht. split; [|done].
    by rewrite replicate_S_end.
  - intros c' Hc'. destruct (decide (c' = c)) as [->|Hne]; [|rewrite Hother by done; auto].
    left. destruct (ev_else0 c Hc') as [[n Ht]|[_ Ho]].
    + exists (S n). by rewrite Hself, Ht, replicate_S_end.
    + destruct Hk as [[??]|[??]]; congruence.
  - intros c' Hc'. rewrite Hother by lia. auto.
Qed.

Lemma events_close c :
  Ev → is_Some (inc !! c) → outEp !! c = None →
  events cnt (delete c inc) outEp (unauth ∖ {[c]}) (q ++ [EEvent (IncomingConnectionClosed c)]).
Proof.
  intros [] Hk Ho.
  assert (∀ c', c' ≠ c → tags c' (q ++ [EEvent (IncomingConnectionClosed c)]) = tags c' q) as Hother.
  { intros c' Hne. rewrite tags_snoc. cbn. rewrite decide_False by congruence. by rewrite app_nil_r. }
  split.
  - intros c'. rewrite lookup_delete. case_decide; [by intros [??]|]. intros Hc'. rewrite Hother by congruence.
    destruct (ev_open0 c' Hc') as (n & Ht & Hn). exists n. split; [done|]. intros ?. apply Hn. set_solver.
  - intros c'. rewrite lookup_delete. case_decide as Hd; [|rewrite Hother by congruence; auto]. subst c'. intros _.
    right. split; [|done]. destruct (ev_open0 c Hk) as (n & Ht & _). exists n. rewrite tags_snoc, Ht. cbn.
    by rewrite decide_True.
  - intros c' Hc'. destruct (decide (c' = c)) as [->|Hne]; [|rewrite Hother by done; auto].
    destruct (ev_open0 c Hk) as (n & Ht & _). by rewrite ev_new0 in Ht.
Qed.
End events.

(** ** The bytes written to a connection *)

Section handed.
Context (token : option bytes).

(** an empty message is dropped *)
Definition nonempty_msg (m : bytes) : option bytes := if decide (m = []) then None else Some m.

(** what an item of the send queue asks to write to connection [c] *)
Definition item_msg (c : Z) (item : ToSend) : option bytes :=
  match item with
  | STriggerConnect c' => if decide (c' = c) then token ≫= nonempty_msg else None
  | SMessage c' m => if decide (c' = c) then nonempty_msg m else None
  | SDisconnected => None
  end.
Definition item_conn (item : ToSend) : option Z :=
  match item with STriggerConnect c | SMessage c _ => Some c | SDisconnected => None end.

(** the messages for [c] among the items that were handled *)
Definition handed (items : list ToSend) (c : Z) : list bytes := omap (item_msg c) items.

Lemma handed_snoc items item c : handed (items ++ [item]) c = handed items c ++ option_list (item_msg c item).
Proof. unfold handed. rewrite omap_app. cbn. by destruct (item_msg c item). Qed.

Lemma handed_nonempty items c m : m ∈ handed items c → m ≠ [].
Proof.
  intros (item & _ & Hm)%list_elem_of_omap. unfold item_msg, nonempty_msg in Hm.
  destruct item as [|c'|c' m']; [done| |].
  - case_decide; [|done]. destruct token; cbn in Hm; [|done]. case_decide; naive_solver.
  - case_decide; [|done]. case_decide; naive_solver.
Qed.

(** the connections of the items are known *)
Definition items_known (cnt : Z) (items : list ToSend) : Prop :=
  ∀ item c, item ∈ items → item_conn item = Some c → c <= cnt.

Lemma handed_new cnt items c : items_known cnt items → cnt < c → handed items c = [].
Proof.
  intros Hk Hc. unfold handed. induction items as [|item items IH]; [done|]. cbn.
  assert (item_msg c item = None) as ->.
  { destruct item as [|c'|c' m']; [done| |]; cbn; (case_decide; [|done]); subst;
      specialize (Hk _ c ltac:(left) eq_refl); lia. }
  apply IH. intros item' c' Hin. apply Hk. by right.
Qed.
End handed.

Section streams.
Context (extra : bool).

(** [f c]: the messages handed to [c].  A pending connection keeps them; on an open one,
    what was sent and what is still to be written are their frames, unless a message for
    it was kept too late ([lost]). *)
Record streams (inc out : gmap Z Z) (pend : gset Z) (unc : gmap Z (list bytes))
    (need sent : gmap Z bytes) (failed lost : gset Z) (fds : gmap Z Z) (f : Z → list bytes) : Prop := {
  st_pend c : c ∈ pend → default [] (unc !! c) = f c;
  st_unc c : is_Some (unc !! c) → c ∈ pend ∨ c ∈ lost;
  st_lost c : c ∈ lost → (c ∉ pend) ∧ f c ≠ [];
  st_conn c s : inc !! c = Some s ∨ out !! c = Some s → s ∉ failed → c ∉ lost →
    default [] (sent !! s) ++ default [] (need !! s) = concat (frame extra <$> f c);
  st_old s : is_Some (sent !! s) ∨ is_Some (need !! s) ∨ s ∈ failed → is_Some (fds !! s);
}.

Context {inc out : gmap Z Z} {pend : gset Z} {unc : gmap Z (list bytes)}
  {need sent : gmap Z bytes} {failed lost : gset Z} {fds : gmap Z Z} {f : Z → list bytes}.
Abbreviation St := (streams inc out pend unc need sent failed lost fds f).

(** a message more for [c], in each of the places where it can go *)
Definition with_msg (c : Z) (m : bytes) : Z → list bytes := λ c', if decide (c' = c) then f c ++ [m] else f c'.

Lemma with_msg_nonempty c m c' : f c' ≠ [] → with_msg c m c' ≠ [].
Proof. intros Hf. unfold with_msg. case_decide; [|done]. by destruct (f c). Qed.

Lemma streams_ext f' : St → (∀ c, f' c = f c) → streams inc out pend unc need sent failed lost fds f'.
Proof. intros [] Heq. split; intros *; rewrite ?Heq; auto. Qed.

(** What is said of the lost connections still holds. *)
Lemma lost_msg c m : St → ∀ c', c' ∈ lost → (c' ∉ pend) ∧ with_msg c m c' ≠ [].
Proof. intros [] c' Hc'. destruct (st_lost0 c' Hc'). split; [done|]. by apply with_msg_nonempty. Qed.

Lemma streams_keep c m :
  St → c ∈ pend → inc !! c = None → out !! c = None →
  streams inc out pend (<[c := default [] (unc !! c) ++ [m]]> unc) need sent failed lost fds (with_msg c m).
Proof.
  intros HSt Hc Hi Ho. pose proof (lost_msg c m HSt) as Hlost. destruct HSt. unfold with_msg in *.
  split; [| |done| |done].
  - intros c' Hc'. rewrite lookup_insert. case_decide as Hd.
    + subst. rewrite decide_True by done. cbn. by rewrite st_pend0.
    + rewrite decide_False by congruence. auto.
  - intros c'. rewrite lookup_insert. case_decide; [subst; by left|auto].
  - intros c' s Hc'. rewrite decide_False; [auto|]. intros ->. destruct Hc'; congruence.
Qed.

(** the connection is no longer pending when the message is kept *)
Lemma streams_lose c m :
  St → c ∉ pend →
  streams inc out pend (<[c := default [] (unc !! c) ++ [m]]> unc) need sent failed ({[c]} ∪ lost) fds (with_msg c m).
Proof.
  intros HSt Hc. pose proof (lost_msg c m HSt) as Hlost. destruct HSt. split; [| | | |done].
  - intros c' Hc'. rewrite lookup_insert_ne by congruence. unfold with_msg. rewrite decide_False by congruence. auto.
  - intros c'. rewrite lookup_insert. case_decide as Hd; [right; set_solver|]. intros Hu. destruct (st_unc0 c' Hu); set_solver.
  - intros c' [->%elem_of_singleton|Hc']%elem_of_union; [|auto]. split; [done|]. unfold with_msg.
    rewrite decide_True by done. by destruct (f c).
  - intros c' s Hc' Hf Hl. unfold with_msg. rewrite decide_False by set_solver. apply st_conn0; [done|done|set_solver].
Qed.

Definition has_socket (c s : Z) : Prop := inc !! c = Some s ∨ out !! c = Some s.
(** A connection has one socket, and a socket one connection. *)
Definition one_socket : Prop :=
  (∀ c s s', has_socket c s → has_socket c s' → s = s') ∧
  (∀ c c' s, has_socket c s → has_socket c' s → c = c').

Lemma streams_write c m s :
  St → one_socket → c ∉ pend → has_socket c s → is_Some (fds !! s) →
  streams inc out pend unc (<[s := default [] (need !! s) ++ frame extra m]> need) sent failed lost fds (with_msg c m).
Proof.
  intros HSt [Hs Huniq] Hp Hc Hfd. pose proof (lost_msg c m HSt) as Hlost. destruct HSt. unfold with_msg in *.
  split; [|done|done| |].
  - intros c' Hc'. rewrite decide_False by congruence. auto.
  - intros c' s' Hc' Hf Hl. rewrite lookup_insert. case_decide as Hd.
    + subst s'. assert (c' = c) as -> by (by eapply Huniq). rewrite decide_True by done. cbn.
      rewrite (assoc_L (++)), (st_conn0 c s) by done. rewrite fmap_app, concat_app. cbn. by rewrite app_nil_r.
    + rewrite decide_False; [auto|]. intros ->. destruct Hd. by eapply Hs.
  - intros s'. rewrite lookup_insert. case_decide; [by subst|auto].
Qed.

(** nothing is kept for a connection that is gone *)
Lemma streams_drop c m :
  St → c ∉ pend → inc !! c = None → out !! c = None →
  streams inc out pend unc need sent failed lost fds (with_msg c m).
Proof.
  intros HSt Hp Hi Ho. pose proof (lost_msg c m HSt) as Hlost. destruct HSt. unfold with_msg in *.
  split; [|done|done| |done].
  - intros c' Hc'. rewrite decide_False by congruence. auto.
  - intros c' s' Hc'. rewrite decide_False; [auto|]. intros ->. destruct Hc'; congruence.
Qed.

(** the kernel takes the beginning of the bytes of [s] *)
Lemma streams_send s buf x y need' :
  St → need !! s = Some buf → buf = x ++ y → (∀ s', s' ≠ s → need' !! s' = need !! s') →
  default [] (need' !! s) = y →
  streams inc out pend unc need' (<[s := default [] (sent !! s) ++ x]> sent) failed lost fds f.
Proof.
  intros [] Hb -> Hother Hself. split; [done|done|done| |].
  - intros c s' Hc Hf Hl. rewrite lookup_insert. case_decide as Hd.
    + subst s'. rewrite Hself. cbn. rewrite <-(assoc_L (++)), <-(st_conn0 c s) by done. by rewrite Hb.
    + rewrite Hother by congruence. auto.
  - intros s'. rewrite lookup_insert. case_decide; [subst; intros _; apply st_old0; right; left; by eexists|].
    rewrite Hother by congruence. auto.
Qed.

(** a send fails, and the bytes of the socket are given up *)
Lemma streams_fail s :
  St → is_Some (fds !! s) → streams inc out pend unc need sent ({[s]} ∪ failed) lost fds f.
Proof.
  intros [] Hfd. split; [done|done|done| |].
  - intros c s' Hc Hf. apply st_conn0; [done|set_solver].
  - intros s'. rewrite elem_of_union, elem_of_singleton. intros [?|[?|[->|?]]]; auto.
Qed.

Lemma streams_give_up s :
  St → (s ∈ failed ∨ need !! s = Some [] ∨ ∀ c, ¬ has_socket c s) →
  streams inc out pend unc (delete s need) sent failed lost fds f.
Proof.
  intros [] Hs. split; [done|done|done| |].
  - intros c s' Hc Hf Hl. rewrite lookup_delete. case_decide; [|auto]. subst s'. cbn. rewrite app_nil_r.
    destruct Hs as [?|[Hs|Hs]]; [done| |by destruct (Hs c)]. rewrite <-(st_conn0 c s) by done.
    rewrite Hs. cbn. by rewrite app_nil_r.
  - intros s'. rewrite lookup_delete. case_decide; [|auto]. intros [?|[[??]|?]]; [auto|done|auto].
Qed.

(** a new connection to make, an incoming one, and one that could be made *)
Lemma streams_connect c :
  St → unc !! c = None → f c = [] →
  streams inc out ({[c]} ∪ pend) unc need sent failed lost fds f.
Proof.
  intros [] Hu Hf. split; [| | |done|done].
  - intros c' [->%elem_of_singleton|Hc']%elem_of_union; [by rewrite Hu, Hf|auto].
  - intros c' Hc'. destruct (st_unc0 c' Hc'); [left; set_solver|by right].
  - intros c' Hc'. destruct (st_lost0 c' Hc') as [? Hne]. split; [|done].
    intros [->%elem_of_singleton|?]%elem_of_union; [by destruct Hne|done].
Qed.

Lemma streams_fds s fd : St → streams inc out pend unc need sent failed lost (<[s := fd]> fds) f.
Proof.
  intros []. split; [done..|]. intros s' Hs'. rewrite lookup_insert. case_decide; [by eexists|auto].
Qed.

Lemma streams_unused s : St → fds !! s = None → sent !! s = None ∧ need !! s = None ∧ s ∉ failed.
Proof.
  intros [] Hs. split_and!.
  - apply eq_None_not_Some. intros ?. destruct (st_old0 s) as [??]; [by left|congruence].
  - apply eq_None_not_Some. intros ?. destruct (st_old0 s) as [??]; [by right; left|congruence].
  - intros ?. destruct (st_old0 s) as [??]; [by right; right|congruence].
Qed.

Lemma streams_accept c s :
  St → sent !! s = None → need !! s = None → f c = [] → out !! c = None →
  streams (<[c := s]> inc) out pend unc need sent failed lost fds f.
Proof.
  intros [] Hsent Hneed Hf Ho. split; [done|done|done| |done].
  intros c' s'. rewrite lookup_insert. case_decide as Hd; [|auto]. subst c'. intros [[= <-]|?]; [|congruence].
  intros _ _. by rewrite Hsent, Hneed, Hf.
Qed.

Lemma streams_connected c s need' :
  St → c ∈ pend → inc !! c = None → sent !! s = None →
  (∀ c', ¬ has_socket c' s) → (∀ s', s' ≠ s → need' !! s' = need !! s') →
  default [] (need' !! s) = concat (frame extra <$> default [] (unc !! c)) → is_Some (fds !! s) →
  streams inc (<[c := s]> out) (pend ∖ {[c]}) (delete c unc) need' sent failed lost fds f.
Proof.
  intros [] Hc Hi Hsent Hno Hother Hself Hfd. split.
  - intros c' [Hc' Hne]%elem_of_difference. rewrite lookup_delete_ne by set_solver. auto.
  - intros c'. rewrite lookup_delete. case_decide; [by intros [??]|].
    intros Hu. destruct (st_unc0 c' Hu); [left; set_solver|by right].
  - intros c' Hc'. destruct (st_lost0 c' Hc'). split; [set_solver|done].
  - intros c' s'. rewrite lookup_insert. case_decide as Hd.
    + subst c'. intros [?|[= <-]] _ _; [congruence|]. rewrite Hsent, Hself. cbn. by rewrite st_pend0.
    + intros Hs' Hf'. rewrite Hother; [auto|]. intros ->. by destruct (Hno c').
  - intros s' [?|[Hs'|?]]; [auto| |auto]. destruct (decide (s' = s)) as [->|Hne]; [done|].
    rewrite Hother in Hs' by done. auto.
Qed.

(** bytes for a socket without a connection *)
Lemma streams_stray s need' :
  St → (∀ c', ¬ has_socket c' s) → (∀ s', s' ≠ s → need' !! s' = need !! s') → is_Some (fds !! s) →
  streams inc out pend unc need' sent failed lost fds f.
Proof.
  intros [] Hno Hother Hfd. split; [done|done|done| |].
  - intros c s' Hc Hf. rewrite Hother; [auto|]. intros ->. by destruct (Hno c).
  - intros s' Hs'. destruct (decide (s' = s)) as [->|Hne]; [done|]. rewrite Hother in Hs' by done. auto.
Qed.

(** connections end *)
Lemma streams_fewer inc' out' pend' unc' :
  St → (∀ c s, inc' !! c = Some s ∨ out' !! c = Some s → has_socket c s) →
  (∀ c, c ∈ pend' → c ∈ pend ∧ unc' !! c = unc !! c) →
  (∀ c, is_Some (unc' !! c) → is_Some (unc !! c) ∧ (c ∈ pend → c ∈ pend')) →
  streams inc' out' pend' unc' need sent failed lost fds f.
Proof.
  intros [] Hs Hp Hu. split; [| | | |done].
  - intros c Hc. destruct (Hp c Hc) as [? ->]. auto.
  - intros c Hc. destruct (Hu c Hc) as [Hc' ?]. destruct (st_unc0 c Hc'); [left; auto|by right].
  - intros c Hc. destruct (st_lost0 c Hc). split; [|done]. intros ?%Hp. naive_solver.
  - intros c s Hc Hf. apply st_conn0; [by apply Hs|done].
Qed.
End streams.
