(* ===== verification/BusSteps.v ===== *)
(** * The invariant of the message bus, and the steps of the other threads

    [bus_ok] puts the groups of [BusInvariant] and [BusContract] together.  Whatever a user
    thread or the event thread does keeps it, raises only the exceptions stated for it, and
    takes nothing away that the socket thread relies on ([drift]); so the socket thread can
    be interrupted ([wp_interrupt]). *)

From Stdlib Require Import Lia.
From stdpp Require Import options.
From S2P Require Import Prelude MessageBuffer ByteQueue SocketWatcher MessageBus BusInvariant BusContract.

Local Open Scope Z_scope.

Ltac open_ok Hb := destruct Hb as [live Hbufs Htab Hwat Htas Hpip Hev Hst Hit Hfi].

Section steps.
Context {InMsg OutMsg : Type} `{SortedSet (Callback InMsg)} (cfg : BusConfig InMsg OutMsg).
Implicit Types (b : MessageBus InMsg) (s c : Z).
Abbreviation Bus := (MessageBus InMsg).

(** [live]: the open sockets that have a buffer *)
Definition ok_tables (live : gset Z) b : Prop :=
  tables (connectionIdCounter b) (connIdToIncomingSocket b) (connIdToOutgoingSocket b)
    (socketToIncomingConnId b) (socketToOutgoingConnId b) (unauthenticatedConnections b)
    (connIdPendingOutgoingConnection b) (connIdToIncomingEndpoint b) (connIdToOutgoingEndpoint b) live.
Definition ok_watching (live : gset Z) b : Prop :=
  watching (wake_fds cfg) (acceptSocket cfg) (allSockets b) (sockFd b) live
    (dom (socketToBytesNeedingWrite b)).
(** [extra]: an attempt that has left its queue and is not in the next one yet *)
Definition ok_tasks (extra : list Z) b : Prop :=
  tasks (connIdPendingOutgoingConnection b)
    (extra ++ task_list (underlyingQueue (messagesToSendQueue b)) (waitingPuts b) (pendingTimedCallbacks b)
       (drop (eventsTaken b) (eventQueue b))).
Definition ok_pipes b : Prop :=
  (messageToSendWakePipe b <= length (underlyingQueue (messagesToSendQueue b)))%nat ∧
  (eventToFireWakePipe b <= length (eventsToFireQueue b))%nat ∧
  (eventsTaken b <= length (eventQueue b))%nat.

(** [soon]: an event that is about to be fired *)
Definition ok_events (soon : option (EventItem InMsg)) b : Prop :=
  events (connectionIdCounter b) (connIdToIncomingSocket b) (connIdToOutgoingEndpoint b)
    (unauthenticatedConnections b) (after soon (eventQueue b)).
(** [late]: an item that was handled and is about to be recorded *)
Definition ok_streams (late : option ToSend) b : Prop :=
  streams (extraCheck cfg) (connIdToIncomingSocket b) (connIdToOutgoingSocket b)
    (connIdPendingOutgoingConnection b) (messagesForUnconnectedOutgoingConnection b)
    (socketToBytesNeedingWrite b) (sent b) (sendFailed b) (lost b) (sockFd b)
    (handed (authToken cfg) (after late (itemsTaken b))).
Definition items_of (late : option ToSend) b : list ToSend :=
  underlyingQueue (messagesToSendQueue b) ++ waitingPuts b ++ after late (itemsTaken b).
Definition ok_items (late : option ToSend) b : Prop :=
  items_known (connectionIdCounter b) (items_of late b).

(** what is scheduled to be fired says nothing of incoming connections *)
Definition quiet_fire (f : ToFire InMsg) : Prop :=
  match f with FEvent e => quiet (EEvent e) | FTriggerDisconnect _ => True end.
Definition quiet_callback (cb : Callback InMsg) : Prop :=
  match cb with CbScheduleEvent f => quiet_fire f | _ => True end.
Definition ok_fires b : Prop :=
  Forall quiet_fire (eventsToFireQueue b) ∧
  Forall (λ x, quiet_callback x.2) (pendingTimedCallbacks b) ∧
  Forall (λ item, match item with ECallback cb => quiet_callback cb | _ => True end) (eventQueue b).

Inductive bus_okx (extra : list Z) (soon : option (EventItem InMsg)) (late : option ToSend) b : Prop :=
  mk_bus_ok live :
    live ⊆ dom (incomingSocketBuffers b) → ok_tables live b → ok_watching live b →
    ok_tasks extra b → ok_pipes b → ok_events soon b → ok_streams late b → ok_items late b →
    ok_fires b → bus_okx extra soon late b.
(** the attempts that are in the hands of the socket thread *)
Context (busy : list Z).
Abbreviation bus_ok := (bus_okx busy None None).
Abbreviation keeps := (guards bus_ok).

Lemma items_known_more cnt items items' :
  items_known cnt items → (∀ x, x ∈ items' → x ∈ items ∨ item_conn x = None) → items_known cnt items'.
Proof.
  intros Hk Hin x c Hx Hc. destruct (Hin x Hx) as [Hx'|Hn]; [by eapply Hk|congruence].
Qed.

(** ** Primitives *)

Lemma del_key_run {V} (proj : Bus → gmap Z V) `{!Setter proj} k b :
  del_key proj k b = match proj b !! k with
                     | Some _ => (Ok tt, b <| proj ::= delete k |>)
                     | None => (Raise KeyError, b)
                     end.
Proof. unfold del_key. rewrite run_bind, run_gets. by destruct (proj b !! k). Qed.

Lemma wp_del_key {V} (proj : Bus → gmap Z V) `{!Setter proj} k v Q (E : exn → Bus → Prop) b :
  proj b !! k = Some v → Q tt (b <| proj ::= delete k |>) → wp (del_key proj k) Q E b.
Proof. intros Hk HQ. unfold wp. by rewrite del_key_run, Hk. Qed.

Lemma wp_modify {S} (f : S → S) Q (E : exn → S → Prop) (st : S) : Q tt (f st) → wp (modify f) Q E st.
Proof. done. Qed.

Lemma wp_gets {S A} (f : S → A) Q (E : exn → S → Prop) (st : S) : Q (f st) st → wp (gets f) Q E st.
Proof. done. Qed.

Lemma wp_watcher {A} (m : (Z → Z) → M SocketWatcher A) Q (E : exn → Bus → Prop) b :
  wp (m (fileno_of b)) (λ a w, Q a (b <| allSockets := w |>)) (λ e w, E e (b <| allSockets := w |>)) (allSockets b) →
  wp (watcher m) Q E b.
Proof.
  intros Hm. unfold watcher. apply wp_gets_bind. unfold wp, zoom in *.
  by destruct (m (fileno_of b) (allSockets b)) as [[a|e] w].
Qed.

Lemma put_item_run item b :
  put_item item b =
    if isBlocked (messagesToSendQueue b) then (Ok false, b <| waitingPuts ::= λ l, l ++ [item] |>)
    else (Ok true, b <| messagesToSendQueue := messagesToSendQueue b
                       <| totalBytes ::= λ n, n + _bytesPerMsg item |>
                       <| underlyingQueue ::= λ l, l ++ [item] |> |>).
Proof.
  unfold put_item, zoom. rewrite run_bind, put_run. cbn [negb andb].
  destruct (isBlocked (messagesToSendQueue b)) eqn:Hb; [|done]. by destruct b.
Qed.

Lemma putOnSendQueue_run item b :
  _putOnSendQueue item b =
    (Ok tt, if isBlocked (messagesToSendQueue b) then b <| waitingPuts ::= λ l, l ++ [item] |>
            else b <| messagesToSendQueue := messagesToSendQueue b
                       <| totalBytes ::= λ n, n + _bytesPerMsg item |>
                       <| underlyingQueue ::= λ l, l ++ [item] |> |>
                   <| messageToSendWakePipe ::= S |>).
Proof.
  unfold _putOnSendQueue. rewrite run_bind, put_item_run. by destruct (isBlocked (messagesToSendQueue b)).
Qed.

(** one more item on the send queue, or waiting *)
Lemma put_ok late item b pend :
  ok_pipes b →
  tasks pend (omap send_task [item] ++ busy ++ task_list (underlyingQueue (messagesToSendQueue b)) (waitingPuts b)
    (pendingTimedCallbacks b) (drop (eventsTaken b) (eventQueue b))) →
  ok_items late b → (∀ c, item_conn item = Some c → c <= connectionIdCounter b) →
  let b' := (_putOnSendQueue item b).2 in
  ok_pipes b' ∧ tasks pend (busy ++ task_list (underlyingQueue (messagesToSendQueue b')) (waitingPuts b')
    (pendingTimedCallbacks b') (drop (eventsTaken b') (eventQueue b'))) ∧ ok_items late b'.
Proof.
  intros (Hp1 & Hp2 & Hp3) Htas Hit Hitem. cbv zeta. rewrite putOnSendQueue_run.
  assert (∀ items, (∀ x, x ∈ items → x = item ∨
      x ∈ underlyingQueue (messagesToSendQueue b) ++ waitingPuts b ++ after late (itemsTaken b)) →
      items_known (connectionIdCounter b) items) as Hknown.
  { intros items Hin x c Hx. destruct (Hin x Hx) as [->|Hx']; [apply Hitem|by apply Hit]. }
  destruct (isBlocked (messagesToSendQueue b)); cbn [snd].
  - split; [split_and!; cbn; lia|split].
    + eapply tasks_proper; [|exact Htas]. unfold task_list. cbn. rewrite omap_app. solve_Permutation.
    + apply Hknown. intros x. unfold items_of. cbn -[after]. rewrite !elem_of_app, list_elem_of_singleton. tauto.
  - split; [split_and!; cbn; rewrite ?length_app; cbn; lia|split].
    + eapply tasks_proper; [|exact Htas]. unfold task_list. cbn. rewrite omap_app. solve_Permutation.
    + apply Hknown. intros x. unfold items_of. cbn -[after]. rewrite !elem_of_app, list_elem_of_singleton. tauto.
Qed.

(** an event fired is the one that was due, or of no interest *)
Lemma ok_fire e soon late b :
  bus_okx busy soon late b → (soon = None ∧ quiet (EEvent e)) ∨ soon = Some (EEvent e) →
  wp (_fireEvent e) (λ _, bus_okx busy None late) (λ _ _, False) b.
Proof.
  intros Hb He. apply wp_modify. open_ok Hb. exists live; try assumption.
  - unfold ok_tasks in *. cbn. rewrite drop_app_le by apply Hpip. unfold task_list in *.
    rewrite omap_app. cbn. by rewrite app_nil_r.
  - destruct Hpip as (?&?&?). split_and!; cbn; rewrite ?length_app; cbn; lia.
  - destruct He as [[-> Hq]| ->]; [by apply events_quiet|exact Hev].
  - destruct Hfi as (?&?&?). split_and!; [done..|]. cbn. apply Forall_app. by repeat constructor.
Qed.

Lemma keeps_fire E e : quiet (EEvent e) → keeps E (_fireEvent e).
Proof. intros He b Hb. eapply wp_mono; [apply (ok_fire e None None b Hb); by left|done|done]. Qed.

Lemma keeps_scheduleEvent E f : quiet_fire f → keeps E (_scheduleEvent f).
Proof.
  intros Hf b Hb. open_ok Hb. exists live; try assumption.
  - destruct Hpip as (?&?&?). split_and!; cbn; rewrite ?length_app; cbn; lia.
  - destruct Hfi as (?&?&?). split_and!; [|done..]. cbn. apply Forall_app. by repeat constructor.
Qed.

Lemma ss_add_quiet x (l : list (Z * Callback InMsg)) :
  Forall (λ x, quiet_callback x.2) l → quiet_callback x.2 → Forall (λ x, quiet_callback x.2) (ss_add x l).
Proof. intros Hl Hx. destruct (ss_add_spec x l) as [->|[_ ->]]; [by constructor|done]. Qed.

Lemma scheduleCallback_run now cb at_ delay b :
  (is_Some at_ → delay = None) →
  ∃ ts, scheduleCallback now (Some cb) at_ delay b =
    (Ok tt, b <| pendingTimedCallbacks ::= ss_add (ts, cb) |>
              <| generalWakePipe ::= λ n, if bool_decide (fst <$> head (ss_add (ts, cb) (pendingTimedCallbacks b)) = Some ts)
                                          then S n else n |>).
Proof.
  intros Hd. unfold scheduleCallback. rewrite run_bind.
  assert (bool_decide (is_Some at_) && bool_decide (is_Some delay) = false) as ->.
  { destruct at_; [|done]. rewrite Hd by (by eexists). apply andb_false_r. }
  cbv beta iota delta [whenM ret].
  exists (match at_ with Some t => t | None => now + default 0 delay end).
  rewrite run_bind, run_modify, run_bind, run_gets. unfold whenM.
  set (ts := match at_ with Some t => t | None => _ end). cbn [pendingTimedCallbacks set_field].
  case_bool_decide; destruct b; done.
Qed.

Lemma keeps_scheduleCallback E now cb at_ delay :
  (is_Some at_ → delay = None) → cb_task cb = None → quiet_callback cb → keeps E (scheduleCallback now (Some cb) at_ delay).
Proof.
  intros Hd Hcb Hq b Hb. destruct (scheduleCallback_run now cb at_ delay b Hd) as [ts Hrun].
  unfold wp. rewrite Hrun. open_ok Hb. exists live; try assumption.
  - eapply tasks_proper; [|exact Htas]. cbn. unfold task_list. by rewrite ss_add_other.
  - destruct Hfi as (?&?&?). split_and!; [done|by apply ss_add_quiet|done].
Qed.

(** ** What users call *)

Definition inactive (e : exn) : Prop := e = UserException "Bus is not active".

(** [connect] up to the send queue *)
Definition asked endpoint b : Bus :=
  let c := connectionIdCounter b + 1 in
  b <| connectionIdCounter ::= λ n, n + 1 |> <| connIdToOutgoingEndpoint ::= <[c := endpoint]> |>
    <| connIdPendingOutgoingConnection ::= λ p, {[c]} ∪ p |>.

Lemma connect_run endpoint b :
  connect endpoint b =
    if started b then (_putOnSendQueue (STriggerConnect (connectionIdCounter b + 1));;
                       mret (connectionIdCounter b + 1)) (asked endpoint b)
    else (Raise (UserException "Bus is not active"), b).
Proof. unfold connect, check_started. rewrite !run_bind, run_gets. by destruct (started b). Qed.

Lemma keeps_connect endpoint : keeps inactive (connect endpoint).
Proof.
  intros b Hb. set (c := connectionIdCounter b + 1). set (b1 := asked endpoint b).
  unfold wp. rewrite connect_run. destruct (started b); [|done]. fold c b1. rewrite run_bind.
  open_ok Hb. destruct (tables_new_id c Htab) as (Hi & _ & _ & _ & Hp); [lia|].
  assert (ok_items None b1) as Hit1.
  { intros x c' Hx Hc'. specialize (Hit x c' Hx Hc'). cbn. lia. }
  pose proof (put_ok None (STriggerConnect c) b1 ({[c]} ∪ connIdPendingOutgoingConnection b) Hpip
    (tasks_add _ _ c Htas Hp) Hit1) as Hput.
  destruct Hput as (Hpip' & Htas' & Hit'); [by intros ? [= <-]|].
  assert (handed (authToken cfg) (itemsTaken b) c = []) as Hnone.
  { eapply (handed_new _ (connectionIdCounter b)); [|lia]. intros x c' Hx. apply Hit. cbn. set_solver. }
  assert (messagesForUnconnectedOutgoingConnection b !! c = None) as Hunc.
  { apply eq_None_not_Some. intros Hu. destruct (st_unc _ _ _ _ _ _ _ _ _ _ _ Hst c Hu) as [?|Hl]; [done|].
    by destruct (st_lost _ _ _ _ _ _ _ _ _ _ _ Hst c Hl). }
  rewrite putOnSendQueue_run in *. cbn [fst snd] in *.
  destruct (isBlocked (messagesToSendQueue b1));
    (exists live; [exact Hbufs|exact (tables_connect endpoint Htab)|exact Hwat|exact Htas'|exact Hpip'|
       exact (events_connect endpoint Hev Hi)|exact (streams_connect _ c Hst Hunc Hnone)|exact Hit'|exact Hfi]).
Qed.

Lemma wp_putOnSendQueue E item b :
  bus_ok b → send_task item = None → (∀ c, item_conn item = Some c → c <= connectionIdCounter b) →
  wp (_putOnSendQueue item) (λ _, bus_ok) (λ e b', bus_ok b' ∧ E e) b.
Proof.
  intros Hb Hitem Hknown. open_ok Hb.
  pose proof (put_ok None item b (connIdPendingOutgoingConnection b) Hpip) as Hput.
  cbn [omap list_omap] in Hput. rewrite Hitem in Hput. destruct (Hput Htas Hit Hknown) as (Hpip' & Htas' & Hit').
  unfold wp. rewrite putOnSendQueue_run in *. cbn [fst snd] in *.
  destruct (isBlocked (messagesToSendQueue b)); by exists live.
Qed.

Lemma keeps_put_disconnected E : keeps E put_disconnected.
Proof.
  intros b Hb. unfold put_disconnected. apply wp_bind. unfold wp at 1. rewrite put_item_run.
  assert (∀ items, (∀ x, x ∈ items → x ∈ items_of None b ∨ x = SDisconnected) → bus_ok b →
    items_known (connectionIdCounter b) items) as Hknown.
  { intros items Hin Hok. open_ok Hok. eapply items_known_more; [exact Hit|].
    intros x Hx. destruct (Hin x Hx) as [?| ->]; [by left|by right]. }
  destruct (isBlocked (messagesToSendQueue b)) eqn:Hblk.
  - pose proof (λ i Hi, Hknown i Hi Hb) as Hk. open_ok Hb. exists live; try assumption.
    + eapply tasks_proper; [|exact Htas]. unfold task_list. cbn. rewrite omap_app. solve_Permutation.
    + apply Hk. intros x. unfold items_of. cbn. rewrite !elem_of_app, list_elem_of_singleton. tauto.
  - apply keeps_scheduleEvent; [done|]. pose proof (λ i Hi, Hknown i Hi Hb) as Hk. open_ok Hb. exists live; try assumption.
    + eapply tasks_proper; [|exact Htas]. unfold task_list. cbn. rewrite omap_app. solve_Permutation.
    + destruct Hpip as (?&?&?). split_and!; cbn; rewrite ?length_app; cbn; lia.
    + apply Hk. intros x. unfold items_of. cbn. rewrite !elem_of_app, list_elem_of_singleton. tauto.
Qed.

(** taking an item out of the list of waiting threads *)
Lemma resume_take b i item :
  waitingPuts b !! i = Some item →
  omap send_task (waitingPuts b) ≡ₚ
    omap send_task [item] ++ omap send_task (take i (waitingPuts b) ++ drop (S i) (waitingPuts b)).
Proof.
  intros Hi. rewrite <-(take_drop_middle _ _ _ Hi) at 1. rewrite !omap_app.
  change (item :: drop (S i) (waitingPuts b)) with ([item] ++ drop (S i) (waitingPuts b)).
  rewrite omap_app. solve_Permutation.
Qed.

Lemma keeps_resume_put E i : keeps E (resume_put i).
Proof.
  intros b Hb. unfold resume_put. apply wp_gets_bind.
  destruct (waitingPuts b !! i) as [item|] eqn:Hi; [|exact Hb].
  unfold wp. rewrite run_bind, run_modify.
  set (b1 := b <| waitingPuts := _ |>). open_ok Hb.
  assert (tasks (connIdPendingOutgoingConnection b1) (omap send_task [item] ++
    busy ++ task_list (underlyingQueue (messagesToSendQueue b1)) (waitingPuts b1)
    (pendingTimedCallbacks b1) (drop (eventsTaken b1) (eventQueue b1)))) as Htas1.
  { eapply tasks_proper; [|exact Htas]. unfold task_list, b1. cbn -[omap].
    rewrite (resume_take b i item Hi). solve_Permutation. }
  assert (item ∈ items_of None b) as Hin.
  { apply list_elem_of_lookup_2 in Hi. unfold items_of. cbn. rewrite !elem_of_app. tauto. }
  assert (ok_items None b1) as Hit1.
  { eapply items_known_more; [exact Hit|]. intros x Hx. left. unfold items_of in *. cbn in *.
    rewrite !elem_of_app in *. destruct Hx as [?|[[(?&?&_)%elem_of_take|Hx]|?]]; try tauto.
    - right; left. by eapply list_elem_of_lookup_2.
    - right; left. rewrite <-(take_drop (S i) (waitingPuts b)). apply elem_of_app. by right. }
  destruct (put_ok None item b1 _ Hpip Htas1 Hit1) as (Hpip' & Htas' & Hit'); [by intros c; apply Hit|].
  assert (bus_ok (_putOnSendQueue item b1).2) as Hput.
  { rewrite putOnSendQueue_run in *. cbn [fst snd] in *.
    destruct (isBlocked (messagesToSendQueue b1)); by exists live. }
  destruct item; try (rewrite putOnSendQueue_run in *; exact Hput).
  apply (keeps_put_disconnected E). by exists live.
Qed.

Lemma not_dead b c : bus_ok b → _isDefinitelyDead c b = false → c <= connectionIdCounter b.
Proof.
  intros Hb Hd. open_ok Hb. apply andb_false_iff in Hd. rewrite !bool_decide_eq_false in Hd.
  destruct Hd as [Hd|Hd].
  - by apply (tb_cnt_out _ _ _ _ _ _ _ _ _ _ Htab), not_eq_None_Some.
  - by apply (tb_cnt_in _ _ _ _ _ _ _ _ _ _ Htab), not_eq_None_Some.
Qed.

Lemma keeps_sendMessage c message :
  keeps (λ e, inactive e ∨ serialize cfg message = Raise e) (sendMessage cfg c message).
Proof.
  unfold sendMessage. apply guards_bind.
  - unfold check_started. apply guards_bind; [apply guards_gets|intros st].
    destruct st; [apply guards_ret|apply guards_raise; by left].
  - intros _. destruct (serialize cfg message) as [m|e] eqn:Hs; [|apply guards_raise; by right].
    apply guards_gets_bind. intros b Hb. destruct (_isDefinitelyDead c b) eqn:Hd; [exact Hb|].
    apply wp_bind. eapply (wp_mono _ (λ _, bus_ok) _ (λ e b', bus_ok b' ∧ _)); [|by intros|by intros].
    apply wp_putOnSendQueue; [done|done|]. intros c' [= <-]. by apply not_dead.
Qed.

Lemma keeps_closeConnection E c : keeps E (closeConnection c).
Proof.
  apply guards_bind; [apply guards_gets|intros dead].
  destruct dead; [apply guards_ret|by apply keeps_scheduleEvent].
Qed.

Lemma keeps_stop_request E : keeps E stop_request.
Proof.
  apply guards_bind; [apply guards_gets|intros st]. apply guards_whenM. intros _.
  apply guards_bind; [|intros _; apply keeps_put_disconnected].
  apply guards_modify. intros b Hb. open_ok Hb. by exists live.
Qed.

(** ** Writing *)

Definition struct_error (e : exn) : Prop := e = StructError.

Lemma encode_raises msg extra e : encode msg extra = Raise e → struct_error e.
Proof. unfold encode. destruct (pack _); [done|]. by intros [= <-]. Qed.

(** Storing bytes touches the byte count and the buffers of sockets to write only. *)
Lemma store_bytes_run c msg t b :
  (∃ e, store_bytes cfg c msg t b = (Raise e, b) ∧ struct_error e ∧ ¬ (t = TNone ∨ t = TPending)) ∨
  store_bytes cfg c msg t b =
    (Ok tt, match t with
            | TNone => b
            | TPending => b <| messagesForUnconnectedOutgoingConnection ::=
                                  λ d, <[c := default [] (d !! c) ++ [msg]]> d |>
                             <| lost ::= λ l, if decide (c ∈ connIdPendingOutgoingConnection b) then l
                                              else {[c]} ∪ l |>
            | TSocket s => b <| totalBytesPendingInOutputLoop ::=
                                  λ n, n + Z.of_nat (length (frame (extraCheck cfg) msg)) |>
                             <| socketToBytesNeedingWrite ::=
                                  λ d, <[s := default [] (d !! s) ++ frame (extraCheck cfg) msg]> d |>
            end).
Proof.
  destruct t as [s| |]; [|by right..]. unfold store_bytes.
  destruct (encode msg (extraCheck cfg)) as [f|e] eqn:Henc.
  - right. apply encode_ok in Henc as [_ ->]. done.
  - left. exists e. split_and!; [done|by eapply encode_raises|]. by intros [?|?].
Qed.

Lemma fresh_socket_spec sock fd b live :
  fresh_socket cfg sock fd b = true → ok_watching live b →
  ok_watching live (b <| sockFd ::= <[sock := fd]> |>) ∧ (sock ∉ live) ∧ acceptSocket cfg ≠ Some sock ∧ 0 <= fd ∧ sockFd b !! sock = None.
Proof.
  unfold fresh_socket. rewrite !andb_true_iff, !bool_decide_eq_true. intros [[[Hs Hfd] Hwk] Hnew] HW.
  split; [by apply watching_new_socket|]. split_and!; [| |done|done].
  - intros Hl. destruct (wa_bufs _ _ _ _ _ _ HW sock Hl) as (fd' & Hfd' & _). congruence.
  - intros Ha. destruct (wa_accept _ _ _ _ _ _ HW sock Ha) as (_ & fd' & Hfd' & _). congruence.
Qed.


(** ** What the others leave to the socket thread *)

(** While the socket thread stands still, the others add connections to make and sockets to
    write to, and put items on the queues; they take nothing away but pending connections. *)
Record drift b b' : Prop := {
  dr_cnt : connectionIdCounter b <= connectionIdCounter b';
  dr_inc : connIdToIncomingSocket b' = connIdToIncomingSocket b;
  dr_out c s : connIdToOutgoingSocket b !! c = Some s → connIdToOutgoingSocket b' !! c = Some s;
  dr_gone c : c <= connectionIdCounter b → c ∉ connIdPendingOutgoingConnection b →
    (c ∉ connIdPendingOutgoingConnection b') ∧ connIdToOutgoingSocket b' !! c = connIdToOutgoingSocket b !! c;
  dr_need s buf : socketToBytesNeedingWrite b !! s = Some buf → socketToBytesNeedingWrite b' !! s = Some buf;
  dr_send n : (messageToSendWakePipe b + n <= length (underlyingQueue (messagesToSendQueue b)))%nat →
    (messageToSendWakePipe b' + n <= length (underlyingQueue (messagesToSendQueue b')))%nat;
  dr_fire n : (eventToFireWakePipe b + n <= length (eventsToFireQueue b))%nat →
    (eventToFireWakePipe b' + n <= length (eventsToFireQueue b'))%nat;
}.

Lemma drift_refl b : drift b b.
Proof. by split. Qed.

Lemma drift_trans b1 b2 b3 : drift b1 b2 → drift b2 b3 → drift b1 b3.
Proof.
  intros [] []. split; eauto; [lia|congruence|].
  intros c Hc Hp. destruct (dr_gone0 c Hc Hp) as [Hp2 Ho2]. destruct (dr_gone1 c) as [Hp3 Ho3]; [lia|done|].
  split; congruence.
Qed.

Lemma drift_scheduleEvent b0 f : preserves (drift b0) (_scheduleEvent f).
Proof.
  intros b Hb. refine (drift_trans _ _ _ Hb _). unfold _scheduleEvent. rewrite run_bind, !run_modify.
  split; cbn; try done; intros; rewrite ?length_app; cbn; lia.
Qed.

Lemma drift_scheduleCallback b0 now cb at_ delay : preserves (drift b0) (scheduleCallback now (Some cb) at_ delay).
Proof.
  intros b Hb. refine (drift_trans _ _ _ Hb _). destruct at_ as [t|], delay as [d|]; [apply drift_refl| | |];
  match goal with |- drift _ (scheduleCallback _ _ ?x ?y _).2 =>
    destruct (scheduleCallback_run now cb x y b ltac:(by intros [??])) as [ts ->] end; by split.
Qed.

Lemma drift_put b0 item : preserves (drift b0) (_putOnSendQueue item).
Proof.
  intros b Hb. refine (drift_trans _ _ _ Hb _). rewrite putOnSendQueue_run.
  destruct (isBlocked (messagesToSendQueue b)); split; cbn; try done; intros; rewrite ?length_app; cbn; lia.
Qed.

Lemma drift_put_disconnected b0 : preserves (drift b0) put_disconnected.
Proof.
  apply preserves_bind; [|intros done; apply preserves_whenM; intros _; apply drift_scheduleEvent].
  intros b Hb. refine (drift_trans _ _ _ Hb _). rewrite put_item_run.
  destruct (isBlocked (messagesToSendQueue b)); split; cbn; try done; intros; rewrite ?length_app; cbn; lia.
Qed.

Lemma drift_resume_put b0 i : preserves (drift b0) (resume_put i).
Proof.
  unfold resume_put. apply preserves_bind; [apply preserves_gets|intros l]. destruct (l !! i) as [item|]; [|apply preserves_ret].
  apply preserves_bind; [apply preserves_modify; intros b Hb; refine (drift_trans _ _ _ Hb _); by split|intros _].
  destruct item; [apply drift_put_disconnected|apply drift_put..].
Qed.

Lemma drift_connect b0 endpoint : preserves (drift b0) (connect endpoint).
Proof.
  intros b Hb. refine (drift_trans _ _ _ Hb _). rewrite connect_run. destruct (started b); [|apply drift_refl].
  apply (preserves_bind (drift b)); [apply drift_put|intros ?; apply preserves_ret|].
  split; cbn; try done; [lia|]. intros c Hc Hp. split; [|done]. rewrite elem_of_union, elem_of_singleton.
  intros [->|?]; [lia|done].
Qed.

(** [m] keeps the invariant, and drifts. *)
Lemma guards_drift {A} b0 E (m : M Bus A) :
  keeps E m → preserves (drift b0) m → guards (λ b, bus_ok b ∧ drift b0 b) E m.
Proof.
  intros Hm Hd b [Hb H0]. specialize (Hm b Hb). specialize (Hd b H0). unfold wp in *.
  destruct (m b) as [[?|?] b']; [by split|]. destruct Hm. by split.
Qed.

(** ** The event thread *)

(** What the attempts to connect touch after the socket has been entered: only the bytes
    to write and their count. *)
Lemma schedule_known_frame c sock msgs b :
  connIdToOutgoingSocket b !! c = Some sock → Forall (λ m, m ≠ []) msgs →
  ∃ n d r, forM msgs (_scheduleBytesForWrite cfg (mret tt) c) b =
      (r, b <| totalBytesPendingInOutputLoop := n |> <| socketToBytesNeedingWrite := d |>) ∧
    (∀ s, s ≠ sock → d !! s = socketToBytesNeedingWrite b !! s) ∧
    (is_ok r = true → default [] (d !! sock) =
       default [] (socketToBytesNeedingWrite b !! sock) ++ concat (frame (extraCheck cfg) <$> msgs)).
Proof.
  revert b. induction msgs as [|m msgs IH]; intros b Hc Hne.
  { exists (totalBytesPendingInOutputLoop b), (socketToBytesNeedingWrite b), (Ok tt).
    split_and!; [by destruct b|done|intros _; by rewrite app_nil_r]. }
  apply Forall_cons in Hne as [Hm Hne]. cbn [forM]. unfold bind.
  assert (_scheduleBytesForWrite cfg (mret tt) c m b = store_bytes cfg c m (TSocket sock) b) as ->.
  { unfold _scheduleBytesForWrite. rewrite bool_decide_false by done. rewrite run_bind, run_gets.
    unfold write_target. rewrite Hc. by rewrite run_bind. }
  destruct (store_bytes_run c m (TSocket sock) b) as [(e & -> & _)| ->].
  { exists (totalBytesPendingInOutputLoop b), (socketToBytesNeedingWrite b), (Raise e).
    split_and!; [by destruct b|done|done]. }
  set (b1 := b <| totalBytesPendingInOutputLoop ::= _ |> <| socketToBytesNeedingWrite ::= _ |>).
  destruct (IH b1 Hc Hne) as (n & d & r & -> & Hother & Hself). exists n, d, r. split_and!; [done| |].
  - intros s Hs. rewrite Hother by done. by apply lookup_insert_ne.
  - intros Hr. rewrite Hself by done. rewrite fmap_cons. cbn [concat]. rewrite (assoc_L (++)). f_equal.
    change (socketToBytesNeedingWrite b1) with (<[sock := default [] (socketToBytesNeedingWrite b !! sock) ++
      frame (extraCheck cfg) m]> (socketToBytesNeedingWrite b)). by rewrite lookup_insert_eq.
Qed.

(** an attempt that fails before there is a socket in the tables *)
Lemma wp_connect_failed c b :
  bus_okx (c :: busy) None None b → wp (connect_failed c) (λ _ b', bus_ok b' ∧ drift b b') (λ _ _, False) b.
Proof.
  intros Hb. unfold connect_failed. do 3 apply wp_bind, wp_modify. apply wp_bind, wp_gets.
  assert (c ∈ connIdPendingOutgoingConnection b ∧ connIdToOutgoingSocket b !! c = None) as [Hc Ho].
  { open_ok Hb. assert (c ∈ connIdPendingOutgoingConnection b) as Hc by (apply Htas; by left).
    split; [done|]. by apply (tb_pend _ _ _ _ _ _ _ _ _ _ Htab). }
  match goal with |- wp (match ?x with _ => _ end;; _) _ _ ?st =>
    change x with (connIdToOutgoingSocket b !! c); set (b1 := st) end.
  rewrite Ho. eapply wp_mono; [refine (guards_bind (λ b', bus_ok b' ∧ drift b b') (λ _, False) (mret tt) _ (guards_ret _ _ _)
    (λ _, guards_bind _ _ _ _ (guards_drift _ _ _ (keeps_scheduleEvent _ _ _) (drift_scheduleEvent _ _))
      (λ _, guards_ret _ _ _)) b1 _)|done|by intros ?? [_ []]]; [done|].
  split; [|split; cbn; try done; intros c' _ Hp; split; [set_solver|done]].
  open_ok Hb. exists live; [exact Hbufs|by apply tables_connect_failed|exact Hwat| |exact Hpip| | |exact Hit|exact Hfi].
  - exact (tasks_remove _ _ _ Htas).
  - apply (events_fewer (delete c (connIdToOutgoingEndpoint b)) _ Hev); [|done].
    intros c' Hc'. rewrite lookup_delete. by case_decide.
  - apply (streams_fewer _ _ _ (connIdPendingOutgoingConnection b ∖ {[c]})
      (delete c (messagesForUnconnectedOutgoingConnection b)) Hst); [done| |].
    + intros c' [Hc' Hne]%elem_of_difference. split; [done|]. rewrite lookup_delete_ne by set_solver. done.
    + intros c'. rewrite lookup_delete. case_decide; [by intros [??]|].
      intros Hu. split; [exact Hu|set_solver].
Qed.

(** the bus after a socket has been entered *)
Definition entered (c sock : Z) b : Bus :=
  b <| socketToOutgoingConnId ::= <[sock := c]> |> <| connIdToOutgoingSocket ::= <[c := sock]> |>
    <| incomingSocketBuffers ::= <[sock := new_MessageBuffer (extraCheck cfg)]> |>.

(** what the attempt leaves as it is *)
Definition rest_of b :=
  (connectionIdCounter b, connIdToIncomingSocket b, socketToIncomingConnId b, unauthenticatedConnections b,
   connIdToIncomingEndpoint b, connIdToOutgoingEndpoint b, allSockets b, sockFd b,
   messagesToSendQueue b, waitingPuts b, pendingTimedCallbacks b, eventQueue b, eventsTaken b,
   messageToSendWakePipe b, eventsToFireQueue b, eventToFireWakePipe b, sent b, sendFailed b, itemsTaken b, lost b).

(** The states in which [connected] can leave the bus. *)
Record after_entering (c sock : Z) b (p : gset Z) b' : Prop := {
  ae_rest : rest_of b' = rest_of b;
  ae_out : connIdToOutgoingSocket b' = <[c := sock]> (connIdToOutgoingSocket b);
  ae_s2out : socketToOutgoingConnId b' = <[sock := c]> (socketToOutgoingConnId b);
  ae_bufs : dom (incomingSocketBuffers b') = {[sock]} ∪ dom (incomingSocketBuffers b);
  ae_need s : s ≠ sock → socketToBytesNeedingWrite b' !! s = socketToBytesNeedingWrite b !! s;
  ae_unc : messagesForUnconnectedOutgoingConnection b' = delete c (messagesForUnconnectedOutgoingConnection b);
  ae_pend : connIdPendingOutgoingConnection b' = p;
}.

Lemma wp_connected c sock b :
  let p := connIdPendingOutgoingConnection b in
  let msgs := default [] (messagesForUnconnectedOutgoingConnection b !! c) in
  Forall (λ m, m ≠ []) msgs → socketToBytesNeedingWrite b !! sock = None →
  wp (connected cfg c sock)
    (λ _ b', after_entering c sock b (p ∖ {[c]}) b' ∧
       default [] (socketToBytesNeedingWrite b' !! sock) = concat (frame (extraCheck cfg) <$> msgs))
    (λ _, after_entering c sock b p) b.
Proof.
  intros p msgs Hne Hnone. unfold connected. do 3 apply wp_bind, wp_modify. apply wp_bind, wp_gets, wp_bind.
  match goal with |- wp (match ?x !! c with _ => _ end) _ _ ?st =>
    change x with (messagesForUnconnectedOutgoingConnection b); change st with (entered c sock b) end.
  set (b1 := entered c sock b).
  assert (connIdToOutgoingSocket b1 !! c = Some sock) as Hc by apply lookup_insert_eq.
  assert (dom (incomingSocketBuffers b1) = {[sock]} ∪ dom (incomingSocketBuffers b)) as Hbufs by apply dom_insert_L.
  unfold msgs in *. destruct (messagesForUnconnectedOutgoingConnection b !! c) as [ms|] eqn:Hm; cbn [default] in *.
  - apply wp_bind, wp_modify. set (b2 := b1 <| messagesForUnconnectedOutgoingConnection ::= delete c |>).
    destruct (schedule_known_frame c sock ms b2 Hc Hne) as (n & d & r & Hrun & Hother & Hself).
    unfold wp. rewrite Hrun. destruct r as [|e].
    + split; [split; [reflexivity|reflexivity|reflexivity|exact Hbufs|exact Hother|reflexivity|reflexivity]|].
      specialize (Hself eq_refl).
      change (socketToBytesNeedingWrite b2) with (socketToBytesNeedingWrite b) in Hself. rewrite Hnone in Hself. exact Hself.
    + split; [reflexivity|reflexivity|reflexivity|exact Hbufs|exact Hother|reflexivity|reflexivity].
  - split; [split; [reflexivity|reflexivity|reflexivity|exact Hbufs|reflexivity| |reflexivity]|].
    + symmetry. by apply delete_id.
    + change (default [] (socketToBytesNeedingWrite b !! sock) = []). by rewrite Hnone.
Qed.

(** What is known before an attempt with a new socket. *)
Lemma before_connected c sock fd b :
  bus_okx (c :: busy) None None b → fresh_socket cfg sock fd b = true →
  c ∈ connIdPendingOutgoingConnection b ∧ socketToBytesNeedingWrite b !! sock = None ∧
  Forall (λ m, m ≠ []) (default [] (messagesForUnconnectedOutgoingConnection b !! c)) ∧
  sent b !! sock = None ∧ connIdToOutgoingSocket b !! c = None ∧ connIdToIncomingSocket b !! c = None ∧
  ∀ c', ¬ has_socket (inc := connIdToIncomingSocket b) (out := connIdToOutgoingSocket b) c' sock.
Proof.
  intros Hb Hfresh. open_ok Hb.
  destruct (fresh_socket_spec _ _ _ _ Hfresh Hwat) as (Hwat1 & Hlive & Hacc & Hfd & Hnew).
  destruct (streams_unused _ sock Hst Hnew) as (Hsent & Hneed & Hnf).
  assert (c ∈ connIdPendingOutgoingConnection b) as Hc by (apply Htas; by left).
  destruct (tb_pend _ _ _ _ _ _ _ _ _ _ Htab c Hc) as [Hep Ho].
  split_and!; try done.
  - rewrite (st_pend _ _ _ _ _ _ _ _ _ _ _ Hst c Hc). apply Forall_forall. intros m. apply handed_nonempty.
  - apply eq_None_not_Some. intros Hi. apply (tb_in_ep _ _ _ _ _ _ _ _ _ _ Htab) in Hi.
    rewrite (tb_sep _ _ _ _ _ _ _ _ _ _ Htab c Hi) in Hep. by destruct Hep.
  - intros c' [Hs|Hs].
    + apply (tb_in _ _ _ _ _ _ _ _ _ _ Htab) in Hs. by apply (tb_sock_in _ _ _ _ _ _ _ _ _ _ Htab) in Hs.
    + apply (tb_out _ _ _ _ _ _ _ _ _ _ Htab) in Hs. by apply (tb_sock_out _ _ _ _ _ _ _ _ _ _ Htab) in Hs.
Qed.

Lemma ae_need_dom c sock b p b' :
  after_entering c sock b p b' →
  dom (socketToBytesNeedingWrite b') ⊆ {[sock]} ∪ dom (socketToBytesNeedingWrite b).
Proof.
  intros Hae s [x Hs]%elem_of_dom. destruct (decide (s = sock)) as [->|Hne]; [set_solver|].
  rewrite (ae_need _ _ _ _ _ Hae s Hne) in Hs. apply elem_of_union. right. apply elem_of_dom. by exists x.
Qed.

(** The connection is made. *)
Lemma drift_connected c sock fd b b1 p b' :
  bus_okx (c :: busy) None None b → fresh_socket cfg sock fd b = true → b1 = b <| sockFd ::= <[sock := fd]> |> →
  after_entering c sock b1 p b' → p ⊆ connIdPendingOutgoingConnection b → drift b b'.
Proof.
  intros Hb Hfresh -> [Hrest Ho _ _ Hother _ Hpend] Hp.
  destruct (before_connected c sock fd b Hb Hfresh) as (Hc & Hnone & _ & _ & Hout & _ & _).
  injection Hrest as E1 E2 _ _ _ _ _ _ E9 _ _ _ _ E14 E15 E16 _ _ _ _. cbn in *. split.
  - by rewrite E1.
  - done.
  - intros c' s Hs. rewrite Ho, lookup_insert_ne; [done|congruence].
  - intros c' _ Hc'. rewrite Hpend, Ho. split; [set_solver|]. rewrite lookup_insert_ne; [done|congruence].
  - intros s buf Hs. rewrite Hother; [done|congruence].
  - by rewrite E9, E14.
  - by rewrite E15, E16.
Qed.

Lemma ok_connected c sock fd b b1 b' :
  bus_okx (c :: busy) None None b → fresh_socket cfg sock fd b = true → b1 = b <| sockFd ::= <[sock := fd]> |> →
  after_entering c sock b1 (connIdPendingOutgoingConnection b ∖ {[c]}) b' →
  default [] (socketToBytesNeedingWrite b' !! sock) =
    concat (frame (extraCheck cfg) <$> default [] (messagesForUnconnectedOutgoingConnection b !! c)) →
  bus_ok b'.
Proof.
  intros Hb Hfresh -> Hae Hframes. pose proof (ae_need_dom _ _ _ _ _ Hae) as Hneed.
  destruct Hae as [Hrest Ho Hs2o Hbufs' Hother Hunc Hpend].
  destruct (before_connected c sock fd b Hb Hfresh) as (Hc & Hnone & _ & Hsent & Hout & Hi & Hno). open_ok Hb.
  destruct (fresh_socket_spec _ _ _ _ Hfresh Hwat) as (Hwat1 & Hlive & Hacc & Hfd & Hnew).
  injection Hrest as E1 E2 E3 E4 E5 E6 E7 E8 E9 E10 E11 E12 E13 E14 E15 E16 E17 E18 E19 E20.
  exists ({[sock]} ∪ live).
  - rewrite Hbufs'. cbn. set_solver.
  - unfold ok_tables. rewrite E1, E2, E3, E4, E5, E6, Ho, Hs2o, Hpend. exact (tables_connected c sock Htab Hc Hlive).
  - unfold ok_watching. rewrite E7, E8.
    eapply watching_need; [apply (watching_buf sock fd Hwat1); [by apply lookup_insert_eq|done|done]|].
    intros s Hs. apply Hneed in Hs. cbn in Hs. set_solver.
  - unfold ok_tasks. rewrite E9, E10, E11, E12, E13, Hpend. exact (tasks_remove _ _ _ Htas).
  - unfold ok_pipes. rewrite E9, E12, E13, E14, E15, E16. exact Hpip.
  - unfold ok_events. rewrite E1, E2, E4, E6, E12. exact Hev.
  - unfold ok_streams. rewrite E2, E8, E17, E18, E19, E20, Ho, Hunc, Hpend.
    apply (streams_connected _ c sock _ (streams_fds _ sock fd Hst)); try done. by rewrite lookup_insert_eq.
  - unfold ok_items, items_of. rewrite E1, E9, E10, E19. exact Hit.
  - unfold ok_fires. rewrite E11, E12, E15. exact Hfi.
Qed.

(** A message did not fit: the [except] branch itself trips, and the socket is left over. *)
Lemma wp_connect_undone c sock fd b b1 b' :
  bus_okx (c :: busy) None None b → fresh_socket cfg sock fd b = true → b1 = b <| sockFd ::= <[sock := fd]> |> →
  after_entering c sock b1 (connIdPendingOutgoingConnection b) b' →
  wp (connect_failed c) (λ _ _, False) (λ e b2, (bus_ok b2 ∧ drift b b2) ∧ e = KeyError) b'.
Proof.
  intros Hb Hfresh -> Hae. pose proof (ae_need_dom _ _ _ _ _ Hae) as Hneed.
  destruct Hae as [Hrest Ho Hs2o Hbufs' Hother Hunc Hpend].
  destruct (before_connected c sock fd b Hb Hfresh) as (Hc & Hnone & _ & Hsent & Hout & Hi & Hno). open_ok Hb.
  destruct (fresh_socket_spec _ _ _ _ Hfresh Hwat) as (Hwat1 & Hlive & Hacc & Hfd & Hnew).
  assert (socketToOutgoingConnId b !! sock = None) as Hso.
  { apply eq_None_not_Some. intros [c' Hc']. by apply (tb_sock_out _ _ _ _ _ _ _ _ _ _ Htab) in Hc'. }
  injection Hrest as E1 E2 E3 E4 E5 E6 E7 E8 E9 E10 E11 E12 E13 E14 E15 E16 E17 E18 E19 E20.
  unfold connect_failed. do 3 apply wp_bind, wp_modify. apply wp_bind, wp_gets.
  match goal with |- wp (match ?x with _ => _ end;; _) _ _ _ => change x with (connIdToOutgoingSocket b' !! c) end.
  rewrite Ho, lookup_insert_eq.
  apply wp_bind, wp_bind, (wp_del_key _ _ sock); [cbn; by rewrite Ho, lookup_insert_eq|].
  apply wp_bind, (wp_del_key _ _ c); [cbn; by rewrite Hs2o, lookup_insert_eq|]. apply wp_bind.
  unfold wp. rewrite del_key_run.
  match goal with |- context [connIdToOutgoingSocket ?st !! c] =>
    change (connIdToOutgoingSocket st) with (delete c (connIdToOutgoingSocket b')) end.
  rewrite lookup_delete_eq. split; [|done]. split.
  2: { split; cbn.
       - by rewrite E1.
       - done.
       - intros c' s Hs. rewrite Ho. cbn. by rewrite delete_insert_id.
       - intros c' _ Hc'. rewrite Hpend, Ho. cbn. rewrite delete_insert_id by done. split; [set_solver|done].
       - intros s buf Hs. rewrite Hother; [done|congruence].
       - by rewrite E9, E14.
       - by rewrite E15, E16. }
  exists ({[sock]} ∪ live).
  - match goal with |- _ ⊆ dom (incomingSocketBuffers ?st) =>
      change (incomingSocketBuffers st) with (incomingSocketBuffers b') end.
    rewrite Hbufs'. cbn. set_solver.
  - change (tables (connectionIdCounter b') (connIdToIncomingSocket b') (delete c (connIdToOutgoingSocket b'))
      (socketToIncomingConnId b') (delete sock (socketToOutgoingConnId b')) (unauthenticatedConnections b')
      (connIdPendingOutgoingConnection b' ∖ {[c]}) (connIdToIncomingEndpoint b')
      (delete c (connIdToOutgoingEndpoint b')) ({[sock]} ∪ live)).
    rewrite E1, E2, E3, E4, E5, E6, Ho, Hs2o, Hpend. cbn [connIdToOutgoingSocket socketToOutgoingConnId set_field].
    rewrite !delete_insert_id by done.
    apply (tables_bufs (bufs := live)); [exact (tables_connect_failed c Htab Hc)|set_solver].
  - change (watching (wake_fds cfg) (acceptSocket cfg) (allSockets b') (sockFd b') ({[sock]} ∪ live)
      (dom (socketToBytesNeedingWrite b'))).
    rewrite E7, E8. eapply watching_need; [apply (watching_buf sock fd Hwat1); [by apply lookup_insert_eq|done|done]|].
    intros s Hs. apply Hneed in Hs. clear -Hs. cbn in Hs. set_solver.
  - change (tasks (connIdPendingOutgoingConnection b' ∖ {[c]})
      (busy ++ task_list (underlyingQueue (messagesToSendQueue b')) (waitingPuts b') (pendingTimedCallbacks b')
         (drop (eventsTaken b') (eventQueue b')))).
    rewrite E9, E10, E11, E12, E13, Hpend. exact (tasks_remove _ _ _ Htas).
  - change (ok_pipes b'). unfold ok_pipes. rewrite E9, E12, E13, E14, E15, E16. exact Hpip.
  - change (events (connectionIdCounter b') (connIdToIncomingSocket b') (delete c (connIdToOutgoingEndpoint b'))
      (unauthenticatedConnections b') (eventQueue b')).
    rewrite E1, E2, E4, E6, E12. apply (events_fewer _ _ Hev); [|done].
    intros c' Hc'. rewrite lookup_delete. by case_decide.
  - change (streams (extraCheck cfg) (connIdToIncomingSocket b') (delete c (connIdToOutgoingSocket b'))
      (connIdPendingOutgoingConnection b' ∖ {[c]}) (delete c (messagesForUnconnectedOutgoingConnection b'))
      (socketToBytesNeedingWrite b') (sent b') (sendFailed b') (lost b') (sockFd b') (handed (authToken cfg) (itemsTaken b'))).
    rewrite E2, E8, E17, E18, E19, E20, Ho, Hunc, Hpend. cbn [connIdToOutgoingSocket set_field].
    rewrite delete_insert_id by done.
    pose proof (streams_stray _ sock _ (streams_fds _ sock fd Hst) Hno Hother) as Hst1.
    apply (streams_fewer _ _ _ _ _ (Hst1 ltac:(rewrite lookup_insert_eq; by eexists))); [done| |].
    + intros c' [Hc' Hne]%elem_of_difference. split; [done|].
      change (messagesForUnconnectedOutgoingConnection (b <| sockFd ::= <[sock := fd]> |>))
        with (messagesForUnconnectedOutgoingConnection b).
      rewrite !lookup_delete_ne by set_solver. done.
    + intros c'. rewrite !lookup_delete. case_decide; [by intros [??]|].
      intros Hu. split; [exact Hu|set_solver].
  - change (ok_items None b'). unfold ok_items, items_of. rewrite E1, E9, E10, E19. exact Hit.
  - change (ok_fires b'). unfold ok_fires. rewrite E11, E12, E15. exact Hfi.
Qed.

(** An attempt to connect always finds its endpoint.  It raises only when a message kept
    for the connection does not fit in a frame. *)
Lemma wp_connectTo c r b :
  bus_okx (c :: busy) None None b →
  wp (_connectTo cfg c r) (λ _ b', bus_ok b' ∧ drift b b') (λ e b', (bus_ok b' ∧ drift b b') ∧ e = KeyError) b.
Proof.
  intros Hb. unfold _connectTo. apply wp_gets_bind.
  assert (wp (connect_failed c) (λ _ b', bus_ok b' ∧ drift b b') (λ e b', (bus_ok b' ∧ drift b b') ∧ e = KeyError) b)
    as Hfailed by (eapply wp_mono; [by apply wp_connect_failed|done|done]).
  assert (is_Some (connIdToOutgoingEndpoint b !! c)) as [ep Hep].
  { open_ok Hb. apply (tb_pend _ _ _ _ _ _ _ _ _ _ Htab). apply Htas. by left. }
  rewrite Hep. destruct r as [sock fd|]; [|exact Hfailed]. apply wp_gets_bind.
  destruct (fresh_socket cfg sock fd b) eqn:Hfresh; [|exact Hfailed]. clear Hfailed.
  apply wp_bind, wp_modify. set (b1 := b <| sockFd ::= <[sock := fd]> |>).
  destruct (before_connected c sock fd b Hb Hfresh) as (_ & Hnone & Hne & _).
  pose proof (wp_connected c sock b1 Hne Hnone) as Hcon.
  change (connIdPendingOutgoingConnection b1) with (connIdPendingOutgoingConnection b) in Hcon.
  unfold wp, tryM. rewrite run_bind. unfold wp in Hcon.
  destruct (connected cfg c sock b1) as [[[]|e] b2].
  - destruct Hcon as [Hae Hframes].
    pose proof (ok_connected c sock fd b b1 b2 Hb Hfresh eq_refl Hae Hframes) as Hb2.
    pose proof (drift_connected c sock fd b b1 _ b2 Hb Hfresh eq_refl Hae ltac:(set_solver)) as Hd.
    rewrite run_bind. exact (guards_drift b (λ e, e = KeyError) _ (keeps_scheduleEvent _
      (FEvent (OutgoingConnectionEstablished c)) (λ _, eq_refl)) (drift_scheduleEvent _ _) b2 (conj Hb2 Hd)).
  - eapply wp_mono; [exact (wp_connect_undone c sock fd b b1 b2 Hb Hfresh eq_refl Hcon)|done|done].
Qed.

(** taking an item off the queue of the event thread *)
Lemma ok_take_event b item :
  bus_ok b → eventQueue b !! eventsTaken b = Some item →
  bus_okx (omap ev_task [item] ++ busy) None None (b <| eventsTaken ::= S |>).
Proof.
  intros Hb Hi. open_ok Hb. exists live; try assumption.
  - unfold ok_tasks in *. eapply tasks_proper; [|exact Htas]. cbn -[omap].
    rewrite (drop_S _ _ _ Hi). unfold task_list. cbn. destruct (ev_task item); solve_Permutation.
  - destruct Hpip as (?&?&?). apply lookup_lt_Some in Hi. split_and!; cbn; lia.
Qed.

(** ** Watching *)

(** Watching less. *)
Lemma wp_discard ex soon late k dr dw Q (E : exn → Bus → Prop) b :
  bus_okx ex soon late b →
  (∀ a w, bus_okx ex soon late (b <| allSockets := w |>) → Q a (b <| allSockets := w |>)) →
  wp (watcher (λ f, discard f k dr dw)) Q E b.
Proof.
  intros Hb HQ. apply wp_watcher. open_ok Hb.
  eapply wp_mono; [apply (watching_discard _ k dr dw Hwat)| |done].
  intros a w Hw. apply HQ. by exists live.
Qed.

Lemma keeps_discardForWrite E s : keeps E (watcher (λ f, discardForWrite f (ASocket s))).
Proof. intros b Hb. eapply wp_discard; [exact Hb|by intros]. Qed.

(** watching a socket that is open and known, or a wake pipe *)
Lemma wp_add live ex soon late k ar aw E b :
  live ⊆ dom (incomingSocketBuffers b) → ok_tables live b → ok_watching live b → ok_tasks ex b → ok_pipes b →
  ok_events soon b → ok_streams late b → ok_items late b → ok_fires b →
  watchable (wakes := wake_fds cfg) (accept := acceptSocket cfg) (fds := sockFd b) (bufs := live) k →
  wp (watcher (λ f, add f k ar aw)) (λ _, bus_okx ex soon late) (λ e b', bus_okx ex soon late b' ∧ E e) b.
Proof.
  intros Hbufs Htab Hwat Htas Hpip Hev Hst Hit Hfi Hk. apply wp_watcher.
  eapply wp_mono; [exact (watching_add _ k ar aw Hwat Hk)| |done]. intros ? w Hw. by exists live.
Qed.

End steps.

(** ** Any step of another thread *)

Section threads.
Context {InMsg OutMsg : Type} `{SortedSet (Callback InMsg)} (cfg : BusConfig InMsg OutMsg) (busy : list Z).
Implicit Types (b : MessageBus InMsg).
Abbreviation bus_ok := (bus_okx cfg busy None None).

Lemma wp_event_thread_step r b :
  bus_ok b → wp (event_thread_step cfg r) (λ _ b', bus_ok b' ∧ drift b b') (λ _ _, False) b.
Proof.
  intros Hb. unfold event_thread_step. apply wp_gets_bind, wp_gets_bind.
  destruct (eventQueue b !! eventsTaken b) as [item|] eqn:Hi; [|by split; [|apply drift_refl]].
  apply wp_bind, wp_modify. pose proof (ok_take_event cfg busy b item Hb Hi) as Hb1.
  assert (match item with ECallback cb => quiet_callback cb | _ => True end) as Hquiet.
  { destruct Hb as [live Hbufs Htab Hwat Htas Hpip Hev Hst Hit (_ & _ & Hq)]. by eapply (proj1 (Forall_lookup _ _) Hq). }
  assert (drift b (b <| eventsTaken ::= S |>)) as Hd1 by by split.
  set (b1 := b <| eventsTaken ::= S |>) in *. clearbody b1.
  apply wp_bind. eapply (wp_mono _ (λ _ b', bus_ok b' ∧ drift b b') _ (λ _ _, False)); [|by intros|by intros].
  destruct item as [e|cb|]; [by split| |by split]. destruct cb as [c|f|k]; [| |by split].
  - pose proof (wp_connectTo cfg busy c r b1 Hb1) as Hc. unfold wp, tryM in *. rewrite run_bind.
    destruct (_connectTo cfg c r b1) as [[?|?] b2]; [|destruct Hc as [Hc _]]; destruct Hc as [Hc Hd];
      (split; [exact Hc|exact (drift_trans _ _ _ Hd1 Hd)]).
  - pose proof (guards_drift cfg busy b (λ _, False) _ (keeps_scheduleEvent _ _ _ f Hquiet) (drift_scheduleEvent _ _)
      b1 (conj Hb1 Hd1)) as Hk.
    eapply wp_mono; [exact Hk|done|by intros ?? []].
Qed.

(** what a step may raise, in its own thread *)
Definition thread_error (op : thread_op (OutMsg := OutMsg)) (e : exn) : Prop :=
  match op with
  | OConnect _ => inactive e
  | OSend _ message => inactive e ∨ serialize cfg message = Raise e
  | OCallback _ _ at_ delay => e = ValueError ∧ is_Some at_ ∧ is_Some delay
  | _ => False
  end.

Lemma drift_sendMessage b0 c message : preserves (drift b0) (sendMessage cfg c message).
Proof.
  unfold sendMessage, check_started. apply preserves_bind.
  { apply preserves_bind; [apply preserves_gets|intros st]. destruct st; [apply preserves_ret|apply preserves_raise]. }
  intros _. destruct (serialize cfg message); [|apply preserves_raise].
  apply preserves_bind; [apply preserves_gets|intros dead]. destruct dead; [apply preserves_ret|].
  apply preserves_bind; [apply drift_put|intros _; apply preserves_ret].
Qed.

Lemma drift_run_thread op b0 :
  match op with OEvent _ => True | _ => preserves (drift b0) (run_thread cfg op) end.
Proof.
  destruct op as [ep|c|c m|now k at_ delay|n| |i|r]; cbn [run_thread]; [| | | | | | |done].
  - apply preserves_bind; [apply drift_connect|intros ?; apply preserves_ret].
  - apply preserves_bind; [apply preserves_gets|intros dead]. destruct dead; [apply preserves_ret|apply drift_scheduleEvent].
  - apply preserves_bind; [apply drift_sendMessage|intros ?; apply preserves_ret].
  - apply drift_scheduleCallback.
  - apply preserves_modify. intros b Hb. refine (drift_trans _ _ _ Hb _). by split.
  - apply preserves_bind; [apply preserves_gets|intros st]. apply preserves_whenM. intros _.
    apply preserves_bind; [|intros _; apply drift_put_disconnected].
    apply preserves_modify. intros b Hb. refine (drift_trans _ _ _ Hb _). by split.
  - apply drift_resume_put.
Qed.

Lemma run_thread_keeps op b0 :
  guards (λ b, bus_ok b ∧ drift b0 b) (thread_error op) (run_thread cfg op).
Proof.
  pose proof (drift_run_thread op b0) as Hd.
  destruct op as [ep|c|c m|now k at_ delay|n| |i|r]; cbn [run_thread] in *;
    try (apply guards_drift; [|exact Hd]).
  - apply guards_bind; [apply keeps_connect|intros ?; apply guards_ret].
  - apply keeps_closeConnection.
  - apply guards_bind; [apply keeps_sendMessage|intros ?; apply guards_ret].
  - destruct at_ as [t|], delay as [d|]; try (apply keeps_scheduleCallback; [by intros [??]|done|done]).
    intros b Hb. split; [exact Hb|]. split; [done|by split].
  - apply guards_modify. intros b Hb. destruct Hb as [live Hbufs Htab Hwat Htas Hpip Hev Hst Hit Hfi]. by exists live.
  - apply keeps_stop_request.
  - apply keeps_resume_put.
  - apply guards_bind; [|intros ?; apply guards_ret]. intros b [Hb Hd0].
    eapply wp_mono; [by apply wp_event_thread_step| |done].
    intros ? b' [Hb' Hd']. split; [exact Hb'|exact (drift_trans _ _ _ Hd0 Hd')].
Qed.

(** Whatever the others do while the socket thread is interrupted, the invariant holds when
    it goes on, and nothing it relies on is gone. *)
Lemma wp_interrupt p b :
  bus_ok b → wp (interrupt cfg p) (λ _ b', bus_ok b' ∧ drift b b') (λ _ _, False) b.
Proof.
  intros Hb. unfold interrupt. apply wp_gets_bind, wp_bind, wp_modify.
  eapply (wp_mono _ (λ _ b', bus_ok b' ∧ drift b b') _ (λ e b', (bus_ok b' ∧ drift b b') ∧ False)); [|done|by intros ?? [_ []]].
  apply (guards_forM (λ b', bus_ok b' ∧ drift b b')).
  - intros op _. apply guards_tryM; [|intros ?; apply guards_ret].
    eapply guards_mono; [apply run_thread_keeps|done].
  - split; [|by split]. destruct Hb as [live Hbufs Htab Hwat Htas Hpip Hev Hst Hit Hfi]. by exists live.
Qed.
End threads.

(** what the socket thread assumes of the others *)
Definition harmless {InMsg OutMsg : Type} `{SortedSet (Callback InMsg)} (cfg : BusConfig InMsg OutMsg)
    (m : M (MessageBus InMsg) unit) : Prop :=
  ∀ busy b, bus_okx cfg busy None None b →
    wp m (λ _ b', bus_okx cfg busy None None b' ∧ drift b b') (λ _ _, False) b.

Lemma interrupt_harmless {InMsg OutMsg : Type} `{SortedSet (Callback InMsg)} (cfg : BusConfig InMsg OutMsg) p :
  harmless cfg (interrupt cfg p).
Proof. intros busy b. apply wp_interrupt. Qed.
