(* ===== verification/BusSocket.v ===== *)
(** * The socket thread of the message bus keeps the invariant

    Its steps one by one, with anything the other threads do in between, up to a whole pass
    of the loop; then the start, and the runs of the bus. *)

From Stdlib Require Import Lia.
From stdpp Require Import options.
From S2P Require Import Prelude MessageBuffer ByteQueue SocketWatcher MessageBus BusInvariant BusContract BusSteps.

Local Open Scope Z_scope.

Section socket.
Context {InMsg OutMsg : Type} `{SortedSet (Callback InMsg)} (cfg : BusConfig InMsg OutMsg).
Implicit Types (b : MessageBus InMsg) (s c : Z).
Abbreviation Bus := (MessageBus InMsg).

(** the attempts that are in the hands of the socket thread *)
Context (busy : list Z).
Abbreviation bus_ok := (bus_okx cfg busy None None).
Abbreviation keeps := (guards bus_ok).

(** what the others do between two steps *)
Context (meanwhile : M Bus unit) (Hmean : harmless cfg meanwhile).
#[local] Set Default Proof Using "Type*".

Lemma keeps_meanwhile E : keeps E meanwhile.
Proof. intros b Hb. eapply wp_mono; [by apply Hmean|by intros ? b' []|done]. Qed.

(** ** Writing *)

(** A connection that is being made has no socket: what is sent to it is kept. *)
Lemma write_target_pending live b c :
  ok_tables live b → c ∈ connIdPendingOutgoingConnection b → write_target c b = TPending.
Proof.
  intros HT Hc. destruct (tb_pend _ _ _ _ _ _ _ _ _ _ HT c Hc) as [Hep Hout].
  unfold write_target. rewrite Hout. destruct (connIdToIncomingSocket b !! c) as [s|] eqn:Hi.
  - assert (is_Some (connIdToIncomingEndpoint b !! c)) as Hiep.
    { apply (tb_in_ep _ _ _ _ _ _ _ _ _ _ HT). by eexists. }
    rewrite (tb_sep _ _ _ _ _ _ _ _ _ _ HT c Hiep) in Hep. by destruct Hep.
  - by rewrite decide_True.
Qed.

Lemma tables_one_socket live b :
  ok_tables live b → one_socket (inc := connIdToIncomingSocket b) (out := connIdToOutgoingSocket b).
Proof.
  intros HT.
  assert (∀ c s s', connIdToIncomingSocket b !! c = Some s → connIdToOutgoingSocket b !! c = Some s' → False) as Hsep.
  { intros c s s' Hi Ho.
    assert (is_Some (connIdToOutgoingEndpoint b !! c)) as Hep.
    { apply (tb_out_ep _ _ _ _ _ _ _ _ _ _ HT). by eexists. }
    rewrite (tb_sep _ _ _ _ _ _ _ _ _ _ HT c) in Hep; [by destruct Hep|].
    apply (tb_in_ep _ _ _ _ _ _ _ _ _ _ HT). by eexists. }
  split.
  - intros c s s' [Hs|Hs] [Hs'|Hs']; [congruence|by destruct (Hsep _ _ _ Hs Hs')|by destruct (Hsep _ _ _ Hs' Hs)|congruence].
  - intros c c' s [Hs|Hs] [Hs'|Hs'];
      try apply (tb_in _ _ _ _ _ _ _ _ _ _ HT) in Hs; try apply (tb_out _ _ _ _ _ _ _ _ _ _ HT) in Hs;
      try apply (tb_in _ _ _ _ _ _ _ _ _ _ HT) in Hs'; try apply (tb_out _ _ _ _ _ _ _ _ _ _ HT) in Hs'.
    + congruence.
    + by rewrite (tb_sock_sep _ _ _ _ _ _ _ _ _ _ HT _ _ Hs) in Hs'.
    + by rewrite (tb_sock_sep _ _ _ _ _ _ _ _ _ _ HT _ _ Hs') in Hs.
    + congruence.
Qed.

(** [item] asks to write [msg] to [c]. *)
Definition asks (item : ToSend) c (msg : bytes) : Prop :=
  item_conn item = Some c ∧
  ∀ c', item_msg (authToken cfg) c' item = if decide (c' = c) then nonempty_msg msg else None.

Lemma asks_message c msg : asks (SMessage c msg) c msg.
Proof. split; [done|]. intros c'. cbn. do 2 case_decide; congruence. Qed.
Lemma asks_token c token : authToken cfg = Some token → asks (STriggerConnect c) c token.
Proof. intros Ht. split; [done|]. intros c'. cbn. rewrite Ht. do 2 case_decide; try congruence; done. Qed.

Lemma handed_asks item c msg items :
  asks item c msg → msg ≠ [] →
  ∀ c', handed (authToken cfg) (items ++ [item]) c' = with_msg (f := handed (authToken cfg) items) c msg c'.
Proof.
  intros [_ Ha] Hm c'. rewrite handed_snoc, Ha. unfold with_msg, nonempty_msg.
  case_decide; [|by rewrite app_nil_r]. subst. by rewrite decide_False.
Qed.

Lemma handed_asks_nothing item c items :
  asks item c [] → ∀ c', handed (authToken cfg) (items ++ [item]) c' = handed (authToken cfg) items c'.
Proof.
  intros [_ Ha] c'. rewrite handed_snoc, Ha. unfold nonempty_msg. case_decide; by rewrite app_nil_r.
Qed.

Lemma items_late item c msg b :
  ok_items None b → asks item c msg → c <= connectionIdCounter b → ok_items (Some item) b.
Proof.
  intros Hit [Hc _] Hle x c' Hx Hc'. unfold items_of in Hx. cbn in Hx. rewrite !elem_of_app, list_elem_of_singleton in Hx.
  assert (x ∈ items_of None b ∨ x = item) as [Hin| ->]; [|by eapply Hit|congruence].
  unfold items_of. cbn. rewrite !elem_of_app. tauto.
Qed.

(** What the look-up says of the connection when the bytes are stored, [b'] being later
    than [b].  A pending connection may have been made. *)
Definition target_ok c (t : Target) b : Prop :=
  match t with
  | TSocket s => has_socket (inc := connIdToIncomingSocket b) (out := connIdToOutgoingSocket b) c s ∧
                 c ∉ connIdPendingOutgoingConnection b
  | TPending => connIdToIncomingSocket b !! c = None
  | TNone => (c ∉ connIdPendingOutgoingConnection b) ∧ connIdToIncomingSocket b !! c = None ∧
             connIdToOutgoingSocket b !! c = None
  end.

Lemma write_target_ok live b b' c :
  ok_tables live b → c <= connectionIdCounter b → drift b b' →
  target_ok c (write_target c b) b' ∧
  (write_target c b = TPending ∨ write_target c b = TNone ∨ c ∉ connIdPendingOutgoingConnection b).
Proof.
  intros HT Hc [_ Hinc Hout Hgone _ _ _]. unfold write_target, has_socket.
  destruct (connIdToOutgoingSocket b !! c) as [s|] eqn:Ho.
  { assert (c ∉ connIdPendingOutgoingConnection b) as Hp.
    { intros Hp. apply (tb_pend _ _ _ _ _ _ _ _ _ _ HT) in Hp as [_ ?]. congruence. }
    split; [|by right; right]. split; [right; by apply Hout|by apply Hgone]. }
  destruct (connIdToIncomingSocket b !! c) as [s|] eqn:Hi.
  { assert (c ∉ connIdPendingOutgoingConnection b) as Hp.
    { intros Hp. apply (write_target_pending live) in Hp; [|done]. unfold write_target in Hp. by rewrite Ho, Hi in Hp. }
    split; [|by right; right]. split; [left; by rewrite Hinc|by apply Hgone]. }
  case_decide as Hp; cbn; rewrite Hinc; [by split; [|left]|]. destruct (Hgone c Hc Hp) as [? ->].
  split; [done|by right; left].
Qed.

Lemma ok_store ex item c msg t b :
  bus_okx cfg ex None None b → asks item c msg → msg ≠ [] → c <= connectionIdCounter b → target_ok c t b →
  wp (store_bytes cfg c msg t) (λ _, bus_okx cfg ex None (Some item))
    (λ e b', bus_okx cfg ex None None b' ∧ struct_error e ∧ t ≠ TPending ∧ t ≠ TNone) b.
Proof.
  intros Hb Hask Hm Hc Ht. unfold wp.
  destruct (store_bytes_run cfg c msg t b) as [(e & -> & He & Hn)| ->].
  { split_and!; [done|done|intros ->; tauto..]. }
  pose proof (handed_asks item c msg (itemsTaken b) Hask Hm) as Hf. open_ok Hb.
  pose proof (items_late _ _ _ _ Hit Hask Hc) as Hit'.
  pose proof (tables_one_socket live b Htab) as Hone. destruct t as [s| |]; cbn in Ht.
  - destruct Ht as [Hsock Hp].
    assert (s ∈ live) as Hs.
    { destruct Hsock as [Hs|Hs]; [apply (tb_in _ _ _ _ _ _ _ _ _ _ Htab) in Hs|apply (tb_out _ _ _ _ _ _ _ _ _ _ Htab) in Hs].
      - by eapply (tb_sock_in _ _ _ _ _ _ _ _ _ _ Htab).
      - by eapply (tb_sock_out _ _ _ _ _ _ _ _ _ _ Htab). }
    destruct (wa_bufs _ _ _ _ _ _ Hwat s Hs) as (fd & Hfd & _). exists live; try assumption.
    + eapply watching_need; [exact Hwat|]. cbn. intros s'. rewrite dom_insert_L. set_solver.
    + eapply streams_ext; [|exact Hf]. apply (streams_write _ c msg s Hst); [done|done|done|by eexists].
  - exists live; try assumption. eapply streams_ext; [|exact Hf]. cbn. case_decide as Hp.
    + destruct (tb_pend _ _ _ _ _ _ _ _ _ _ Htab c Hp) as [_ Ho]. by apply (streams_keep _ c msg Hst).
    + by apply (streams_lose _ c msg Hst).
  - destruct Ht as (Hp & Hi & Ho). exists live; try assumption.
    eapply streams_ext; [|exact Hf]. by apply (streams_drop _ c msg Hst).
Qed.

Definition send_level b : nat * nat :=
  (messageToSendWakePipe b, length (underlyingQueue (messagesToSendQueue b))).

Lemma store_bytes_level c msg t b : send_level (store_bytes cfg c msg t b).2 = send_level b.
Proof. destruct (store_bytes_run cfg c msg t b) as [(e & -> & _)| ->]; [done|]. by destruct t. Qed.

(** as many items are left for the triggers that were read *)
Definition still_covered b b' : Prop :=
  ∀ n, (messageToSendWakePipe b + n <= length (underlyingQueue (messagesToSendQueue b)))%nat →
       (messageToSendWakePipe b' + n <= length (underlyingQueue (messagesToSendQueue b')))%nat.

(** The bytes of an item are stored where they belong, or are lost. *)
Lemma wp_scheduleBytesForWrite ex item c msg b :
  bus_okx cfg ex None None b → asks item c msg → c <= connectionIdCounter b →
  wp (_scheduleBytesForWrite cfg meanwhile c msg)
    (λ _ b', bus_okx cfg ex None (Some item) b' ∧ still_covered b b')
    (λ e b', bus_okx cfg ex None None b' ∧ struct_error e ∧ c ∉ connIdPendingOutgoingConnection b) b.
Proof.
  intros Hb Hask Hc. unfold _scheduleBytesForWrite. case_bool_decide as Hm.
  { split; [|by intros n]. open_ok Hb. exists live; try assumption; [|by eapply items_late].
    subst. eapply streams_ext; [exact Hst|]. by apply handed_asks_nothing with (c := c). }
  apply wp_gets_bind, wp_bind. eapply wp_mono; [exact (Hmean ex b Hb)| |done].
  intros _ b' [Hb' Hd]. assert (∃ live, ok_tables live b) as [live Htab] by (open_ok Hb; by exists live).
  destruct (write_target_ok live b b' c Htab Hc Hd) as [Ht Hp].
  pose proof (dr_cnt _ _ Hd) as Hcnt.
  pose proof (ok_store ex item c msg (write_target c b) b' Hb' Hask Hm ltac:(lia) Ht) as Hs.
  pose proof (store_bytes_level c msg (write_target c b) b') as Hl. unfold wp in *.
  destruct (store_bytes cfg c msg (write_target c b) b') as [[?|e] b2].
  - split; [done|]. intros n Hn%(dr_send _ _ Hd). injection Hl as Hl1 Hl2. cbn in Hl1, Hl2. by rewrite Hl1, Hl2.
  - destruct Hs as (? & ? & ? & ?). split_and!; [done|done|]. by destruct Hp as [?|[?|?]].
Qed.

(** The bytes of a socket are given up when it failed, has none, or has no connection. *)
Lemma ok_give_up ex soon late s b :
  bus_okx cfg ex soon late b →
  (s ∈ sendFailed b ∨ socketToBytesNeedingWrite b !! s = Some [] ∨
    ∀ c, ¬ has_socket (inc := connIdToIncomingSocket b) (out := connIdToOutgoingSocket b) c s) →
  bus_okx cfg ex soon late (b <| socketToBytesNeedingWrite ::= delete s |>).
Proof.
  intros Hb Hs. open_ok Hb. exists live; try assumption.
  - eapply watching_need; [exact Hwat|]. cbn. intros s'. rewrite dom_delete_L. set_solver.
  - by apply (streams_give_up _ s Hst).
Qed.

Lemma wp_give_up E s buf b :
  bus_ok b → socketToBytesNeedingWrite b !! s = Some buf → (s ∈ sendFailed b ∨ buf = []) →
  wp (watcher (λ f, discardForWrite f (ASocket s));; del_key socketToBytesNeedingWrite s)
     (λ _, bus_ok) (λ e b', bus_ok b' ∧ E e) b.
Proof.
  intros Hb Hs Hwhy. apply wp_bind. eapply wp_discard; [exact Hb|]. intros _ w Hb1.
  apply (wp_del_key _ _ buf); [exact Hs|]. apply ok_give_up; [exact Hb1|].
  destruct Hwhy as [?| ->]; [by left|by right; left].
Qed.

Lemma takes_split n buf : buf = slice_to (takes n buf) buf ++ del_to (takes n buf) buf.
Proof. unfold slice_to, del_to. by rewrite take_drop. Qed.

(** the kernel takes some bytes of a socket *)
Lemma ok_taken s buf n b :
  bus_ok b → socketToBytesNeedingWrite b !! s = Some buf →
  bus_ok (b <| sent ::= λ d, <[s := default [] (d !! s) ++ slice_to (takes n buf) buf]> d |>
    <| totalBytesPendingInOutputLoop ::= λ k, k - takes n buf |> <| totalBytesWritten ::= λ k, k + takes n buf |>
    <| socketToBytesNeedingWrite ::= alter (del_to (takes n buf)) s |>).
Proof.
  intros Hb Hs. open_ok Hb. exists live; try assumption.
  - eapply watching_need; [exact Hwat|]. cbn. intros s'. rewrite dom_alter_L. by left.
  - apply (streams_send _ s buf _ (del_to (takes n buf) buf)
      (alter (del_to (takes n buf)) s (socketToBytesNeedingWrite b)) Hst); [done|apply takes_split| |].
    + intros s' Hne. by rewrite lookup_alter_ne.
    + by rewrite lookup_alter_eq, Hs.
Qed.

(** a send fails *)
Lemma ok_failed s b buf :
  bus_ok b → socketToBytesNeedingWrite b !! s = Some buf → bus_ok (b <| sendFailed ::= λ f, {[s]} ∪ f |>).
Proof.
  intros Hb Hs. open_ok Hb. exists live; try assumption.
  apply (streams_fail _ s Hst). apply (st_old _ _ _ _ _ _ _ _ _ _ _ Hst). right; left. by eexists.
Qed.

Lemma ok_none_taken s b buf n :
  bus_ok b → socketToBytesNeedingWrite b !! s = Some buf → takes n buf = 0 →
  bus_ok (b <| sent ::= λ d, <[s := default [] (d !! s) ++ slice_to (takes n buf) buf]> d |>).
Proof.
  intros Hb Hs Hn. open_ok Hb. exists live; try assumption.
  apply (streams_send _ s buf _ (del_to (takes n buf) buf) (socketToBytesNeedingWrite b) Hst);
    [done|apply takes_split|done|].
  rewrite Hs, Hn. done.
Qed.

Lemma keeps_handleWriteReadySocket E s r : keeps E (_handleWriteReadySocket meanwhile s r).
Proof.
  intros b0 Hb0. unfold _handleWriteReadySocket. apply wp_gets_bind.
  destruct (socketToBytesNeedingWrite b0 !! s) as [buf|] eqn:Hs0; [|exact Hb0].
  apply wp_bind. eapply wp_mono; [exact (Hmean busy b0 Hb0)| |done].
  intros _ b [Hb Hd]. pose proof (dr_need _ _ Hd s buf Hs0) as Hs. clear b0 Hb0 Hs0 Hd.
  assert (∀ b1, bus_ok b1 →
    socketToBytesNeedingWrite b1 !! s = Some buf → s ∈ sendFailed b1 →
    wp (watcher (λ f, discardForWrite f (ASocket s));; del_key socketToBytesNeedingWrite s;; mret (Some true))
      (λ _, bus_ok) (λ e b', bus_ok b' ∧ E e) b1) as Hfail.
  { intros b1 Hb1 Hs1 Hf. pose proof (wp_give_up E s buf b1 Hb1 Hs1 (or_introl Hf)) as Hg.
    unfold wp in *. rewrite run_bind in Hg. rewrite run_bind. destruct (watcher _ b1) as [[?|?] b2]; [|exact Hg].
    rewrite run_bind. by destruct (del_key _ _ b2) as [[?|?] b3]. }
  destruct r as [n| | | |]; cbn [record_send].
  - apply wp_bind. destruct (decide (takes n buf = 0)) as [H0|H0].
    + rewrite bool_decide_true by done. cbn [whenM]. apply wp_bind, wp_modify, wp_modify.
      apply wp_bind, wp_ret. rewrite bool_decide_true by done.
      apply Hfail; [|exact Hs|cbn; set_solver]. apply (ok_none_taken s _ buf); [|done|done].
      by eapply ok_failed.
    + rewrite bool_decide_false by done. cbn [whenM]. apply wp_bind, wp_ret, wp_modify, wp_bind, wp_ret.
      rewrite bool_decide_false by done.
      assert (0 < takes n buf) as Hpos by (unfold takes in *; lia).
      rewrite bool_decide_false by lia. rewrite bool_decide_true by done.
      do 3 apply wp_bind, wp_modify. apply wp_bind, wp_gets, wp_bind.
      pose proof (ok_taken s buf n b Hb Hs) as Hb1.
      match goal with |- wp _ _ _ ?st => set (b1 := st) in *; change (bus_ok b1) in Hb1 end.
      unfold whenM. case_bool_decide as Hempty; [|exact Hb1].
      eapply (wp_mono _ (λ _, bus_ok) _ (λ e b', bus_ok b' ∧ E e)); [|intros ? b3 Hb3; exact Hb3|done].
      eapply wp_give_up; [exact Hb1|exact Hempty|by right].
  - apply wp_bind, wp_ret, wp_bind, wp_ret. exact Hb.
  - apply wp_bind, wp_ret, wp_bind, wp_bind, wp_modify, wp_ret. open_ok Hb. by exists live.
  - apply wp_bind, wp_modify, wp_bind, wp_ret. apply Hfail; [by eapply ok_failed|exact Hs|cbn; set_solver].
  - apply wp_bind, wp_modify, wp_bind, wp_ret. apply Hfail; [by eapply ok_failed|exact Hs|cbn; set_solver].
Qed.

(** ** Closing *)

Context (Hwakes : ∀ i, i ∈ wake_fds cfg → 0 <= i).

(** The end of [_markSocketClosed], from a state in which the bus has let go of the socket. *)
Lemma close_tail E live s b o :
  ok_watching cfg live b → acceptSocket cfg ≠ Some s → live ∖ {[s]} ⊆ dom (incomingSocketBuffers b) →
  ok_tables (live ∖ {[s]}) b → ok_tasks busy b → ok_pipes b →
  ok_events (EEvent <$> o) b → ok_streams cfg None b → ok_items None b → ok_fires b →
  wp (_ensureSocketClosed s;; watcher (λ f, discard f (ASocket s) true true);; forM (option_list o) _fireEvent)
     (λ _, bus_ok) (λ e b', bus_ok b' ∧ E e) b.
Proof.
  intros Hwat Ha Hbufs Htab Htas Hpip Hev Hst Hit Hfi.
  unfold _ensureSocketClosed. apply wp_bind, wp_bind, wp_gets, wp_bind, wp_modify, wp_modify.
  apply wp_bind, wp_watcher.
  eapply wp_mono; [exact (watching_close Hwakes s Hwat Ha)| |done].
  intros ? w Hw. cbn in Hw.
  match goal with |- wp _ _ _ ?st => assert (bus_okx cfg busy (EEvent <$> o) None st) as Hb1 end.
  { exists (live ∖ {[s]}); try assumption. by apply streams_fds. }
  destruct o as [e|]; [|exact Hb1]. cbn [option_list forM].
  match goal with |- wp _ _ _ ?st => pose proof (ok_fire cfg busy e _ None st Hb1 (or_intror eq_refl)) as Hf end.
  unfold wp in *. cbn in *. exact Hf.
Qed.

(** a socket whose connection was removed from the tables *)
Lemma streams_closed b inc' out' s c :
  ok_streams cfg None b → one_socket (inc := connIdToIncomingSocket b) (out := connIdToOutgoingSocket b) →
  has_socket (inc := connIdToIncomingSocket b) (out := connIdToOutgoingSocket b) c s →
  (∀ c' s', inc' !! c' = Some s' ∨ out' !! c' = Some s' →
     c' ≠ c ∧ has_socket (inc := connIdToIncomingSocket b) (out := connIdToOutgoingSocket b) c' s') →
  streams (extraCheck cfg) inc' out' (connIdPendingOutgoingConnection b)
    (messagesForUnconnectedOutgoingConnection b) (delete s (socketToBytesNeedingWrite b)) (sent b) (sendFailed b) (lost b)
    (sockFd b) (handed (authToken cfg) (itemsTaken b)).
Proof.
  intros Hst [_ Huniq] Hc Hless. apply streams_give_up.
  - apply (streams_fewer _ _ _ _ _ Hst); [intros c' s' Hs'; by apply Hless|by split|by split].
  - right; right. intros c' Hs'. destruct (Hless c' s Hs') as [Hne Hs]. destruct Hne. by eapply Huniq.
Qed.

Lemma live_not_accept live b s : ok_watching cfg live b → s ∈ live → acceptSocket cfg ≠ Some s.
Proof. intros HW Hs Ha. by destruct (wa_accept _ _ _ _ _ _ HW s Ha). Qed.

Lemma keeps_markSocketClosed E s b :
  bus_ok b → acceptSocket cfg ≠ Some s →
  wp (_markSocketClosed s) (λ _, bus_ok) (λ e b', bus_ok b' ∧ E e) b.
Proof.
  intros Hb Ha. open_ok Hb. pose proof (tables_one_socket live b Htab) as Hone.
  unfold _markSocketClosed. apply wp_gets_bind, wp_gets_bind.
  destruct (socketToIncomingConnId b !! s) as [c|] eqn:Hin; [|destruct (socketToOutgoingConnId b !! s) as [c|] eqn:Hout].
  - pose proof (tb_sock_in _ _ _ _ _ _ _ _ _ _ Htab s c Hin) as Hs.
    pose proof (proj2 (tb_in _ _ _ _ _ _ _ _ _ _ Htab c s) Hin) as Hc.
    assert (is_Some (connIdToIncomingEndpoint b !! c)) as [ep Hep].
    { apply (tb_in_ep _ _ _ _ _ _ _ _ _ _ Htab). by eexists. }
    assert (is_Some (incomingSocketBuffers b !! s)) as [buf Hbuf] by (by apply elem_of_dom, Hbufs).
    assert (connIdToOutgoingEndpoint b !! c = None) as Hno by (apply (tb_sep _ _ _ _ _ _ _ _ _ _ Htab); by eexists).
    apply wp_bind, wp_bind, wp_modify.
    apply wp_bind, (wp_del_key _ _ s); [exact Hc|]. apply wp_bind, (wp_del_key _ _ c); [exact Hin|].
    apply wp_bind, (wp_del_key _ _ ep); [exact Hep|]. apply wp_bind, (wp_del_key _ _ buf); [exact Hbuf|].
    apply wp_bind, wp_modify, wp_ret. apply (close_tail E live s _ (Some (IncomingConnectionClosed c))).
    + eapply watching_need; [exact Hwat|]. cbn. intros s'. rewrite dom_delete_L. set_solver.
    + done.
    + cbn. rewrite dom_delete_L. set_solver.
    + exact (tables_close_in s c Htab Hin).
    + exact Htas.
    + exact Hpip.
    + exact (events_close c Hev (ex_intro _ s Hc) Hno).
    + apply (streams_closed b (delete c (connIdToIncomingSocket b)) (connIdToOutgoingSocket b) s c Hst Hone);
        [by left|].
      intros c' s' [[Hne Hc']%lookup_delete_Some|Hc']; [split; [congruence|by left]|split; [|by right]].
      intros ->. assert (is_Some (connIdToOutgoingEndpoint b !! c)) as Hs'.
      { apply (tb_out_ep _ _ _ _ _ _ _ _ _ _ Htab). by exists s'. }
      rewrite Hno in Hs'. by destruct Hs'.
    + exact Hit.
    + exact Hfi.
  - pose proof (tb_sock_out _ _ _ _ _ _ _ _ _ _ Htab s c Hout) as Hs.
    pose proof (proj2 (tb_out _ _ _ _ _ _ _ _ _ _ Htab c s) Hout) as Hc.
    assert (is_Some (connIdToOutgoingEndpoint b !! c)) as [ep Hep].
    { apply (tb_out_ep _ _ _ _ _ _ _ _ _ _ Htab). by eexists. }
    assert (is_Some (incomingSocketBuffers b !! s)) as [buf Hbuf] by (by apply elem_of_dom, Hbufs).
    apply wp_bind, wp_bind, (wp_del_key _ _ ep); [exact Hep|].
    apply wp_bind, (wp_del_key _ _ c); [exact Hout|]. apply wp_bind, (wp_del_key _ _ s); [exact Hc|].
    apply wp_bind, (wp_del_key _ _ buf); [exact Hbuf|]. apply wp_bind, wp_modify, wp_ret.
    apply (close_tail E live s _ (Some (OutgoingConnectionClosed c))).
    + eapply watching_need; [exact Hwat|]. cbn. intros s'. rewrite dom_delete_L. set_solver.
    + done.
    + cbn. rewrite dom_delete_L. set_solver.
    + exact (tables_close_out s c Htab Hin Hout).
    + exact Htas.
    + exact Hpip.
    + apply events_quiet; [|done]. apply (events_fewer (delete c (connIdToOutgoingEndpoint b)) _ Hev); [|done].
      intros c' Hc'. rewrite lookup_delete. by case_decide.
    + apply (streams_closed b (connIdToIncomingSocket b) (delete c (connIdToOutgoingSocket b)) s c Hst Hone);
        [by right|].
      intros c' s' [Hc'|[Hne Hc']%lookup_delete_Some]; [split; [|by left]|split; [congruence|by right]].
      intros ->. rewrite (tb_sep _ _ _ _ _ _ _ _ _ _ Htab c) in Hep; [done|].
      apply (tb_in_ep _ _ _ _ _ _ _ _ _ _ Htab). by exists s'.
    + exact Hit.
    + exact Hfi.
  - apply wp_bind, wp_ret. apply (close_tail E live s _ None); try assumption; [set_solver|].
    exact (tables_forget_sock s Htab Hin Hout).
Qed.

(** ** Reading *)

Ltac accept_rest au sock fd source c live Htab Hlive Hwat1 Htas Hpip Hev Hi Hst' Hit' Hfi :=
  do 4 apply wp_bind, wp_modify; apply wp_bind;
  eapply (wp_mono _ (λ _, bus_okx cfg busy (Some (EEvent (NewIncomingConnection source c))) None) _
    (λ e b', bus_okx cfg busy (Some (EEvent (NewIncomingConnection source c))) None b' ∧ False)); [| |by intros ?? [_ []]];
  [ apply (wp_add cfg ({[sock]} ∪ live));
    [ cbn; rewrite dom_insert_L; set_solver
    | exact (tables_accept sock source au Htab Hlive)
    | apply (watching_buf sock fd Hwat1); [by apply lookup_insert_eq|done|done]
    | exact Htas | exact Hpip | exact (events_accept sock source au Hev Hi) | exact Hst' | by apply Hit' | exact Hfi
    | left; left; set_solver ]
  | intros ? b2 Hb2; apply wp_bind;
    eapply wp_mono; [exact (ok_fire cfg busy _ _ _ b2 Hb2 (or_intror eq_refl))|by intros ? b3 Hb3|done] ].

Lemma keeps_accept_ready E r : keeps E (accept_ready cfg r).
Proof.
  destruct r as [sock fd source|]; [|apply guards_ret]. intros b Hb. unfold accept_ready.
  apply wp_gets_bind. destruct (fresh_socket cfg sock fd b) eqn:Hfresh; [|exact Hb].
  open_ok Hb. destruct (fresh_socket_spec _ _ _ _ _ Hfresh Hwat) as (Hwat1 & Hlive & Hacc & Hfd & Hnew).
  destruct (tables_new_id (connectionIdCounter b + 1) Htab) as (Hi & Ho & _ & _ & _); [lia|].
  destruct (streams_unused _ sock Hst Hnew) as (Hsent & Hneed & Hnf).
  set (c := connectionIdCounter b + 1) in *.
  assert (handed (authToken cfg) (itemsTaken b) c = []) as Hnone.
  { eapply (handed_new _ (connectionIdCounter b)); [|lia]. intros x c' Hx. apply Hit. unfold items_of. cbn. set_solver. }
  assert (∀ b1, itemsTaken b1 = itemsTaken b → messagesToSendQueue b1 = messagesToSendQueue b →
    waitingPuts b1 = waitingPuts b → connectionIdCounter b1 = c → ok_items None b1) as Hit'.
  { intros b1 E1 E2 E3 E4 x c' Hx Hc'. unfold items_of in Hx. rewrite E1, E2, E3 in Hx. specialize (Hit x c' Hx Hc'). lia. }
  pose proof (streams_accept _ c sock (streams_fds _ sock fd Hst) Hsent Hneed Hnone Ho) as Hst'.
  unfold accept_new. apply wp_bind, wp_modify, wp_bind, wp_bind, wp_modify, wp_gets, wp_bind.
  destruct (bool_decide (is_Some (authToken cfg))); cbn [whenM].
  - apply wp_modify. accept_rest true sock fd source c live Htab Hlive Hwat1 Htas Hpip Hev Hi Hst' Hit' Hfi.
  - apply wp_ret. accept_rest false sock fd source c live Htab Hlive Hwat1 Htas Hpip Hev Hi Hst' Hit' Hfi.
Qed.

Lemma conn_known live b s c :
  ok_tables live b → _getConnectionIdFromSocket s b = Some c →
  (is_Some (connIdToIncomingSocket b !! c) ∨ is_Some (connIdToOutgoingEndpoint b !! c)) ∧ c <= connectionIdCounter b.
Proof.
  intros HT. unfold _getConnectionIdFromSocket. destruct (socketToIncomingConnId b !! s) as [c'|] eqn:Hi.
  - intros [= ->]. apply (tb_in _ _ _ _ _ _ _ _ _ _ HT) in Hi.
    assert (is_Some (connIdToIncomingSocket b !! c)) as Hc by (by eexists). split; [by left|].
    by apply (tb_cnt_in _ _ _ _ _ _ _ _ _ _ HT), (tb_in_ep _ _ _ _ _ _ _ _ _ _ HT).
  - intros Ho. apply (tb_out _ _ _ _ _ _ _ _ _ _ HT) in Ho.
    assert (is_Some (connIdToOutgoingEndpoint b !! c)) as Hc by (apply (tb_out_ep _ _ _ _ _ _ _ _ _ _ HT); by eexists).
    split; [by right|]. by apply (tb_cnt_out _ _ _ _ _ _ _ _ _ _ HT).
Qed.

Lemma keeps_handleIncomingMessage E m s : keeps E (_handleIncomingMessage cfg m s).
Proof.
  intros b Hb. unfold _handleIncomingMessage. apply wp_gets_bind.
  destruct (_getConnectionIdFromSocket s b) as [c|] eqn:Hc; [|exact Hb]. apply wp_gets_bind.
  destruct (decide (c ∈ _)) as [Hu|Hu].
  - destruct (decide _); [|exact Hb]. apply wp_bind, wp_modify. open_ok Hb. exists live; try assumption.
    + by apply tables_unauth.
    + apply (events_fewer _ (unauthenticatedConnections b ∖ {[c]}) Hev); [done|set_solver].
  - destruct (deserialize cfg m) as [message|]; [|exact Hb]. apply wp_bind.
    assert (bus_okx cfg busy (Some (EEvent (IncomingMessage c message))) None b) as Hb1.
    { open_ok Hb. exists live; try assumption. destruct (conn_known live b s c Htab Hc).
      by apply events_message. }
    eapply wp_mono; [exact (ok_fire cfg busy _ _ _ b Hb1 (or_intror eq_refl))|by intros ? b3 Hb3|done].
Qed.

Lemma keeps_handle_messages E s ms : acceptSocket cfg ≠ Some s → keeps E (handle_messages cfg meanwhile s ms).
Proof.
  intros Ha. induction ms as [|m ms IH]; [apply guards_ret|].
  apply guards_bind; [apply keeps_meanwhile|intros _].
  apply guards_bind; [apply keeps_handleIncomingMessage|intros [|]; [done|]].
  intros b Hb. by apply keeps_markSocketClosed.
Qed.

(** Using the buffer of a socket that has one. *)
Lemma wp_on_buffer {A} s (m : M MessageBuffer A) Q (E : exn → Bus → Prop) b buf :
  incomingSocketBuffers b !! s = Some buf →
  wp m (λ a buf', Q a (b <| incomingSocketBuffers ::= <[s := buf']> |>))
       (λ e buf', E e (b <| incomingSocketBuffers ::= <[s := buf']> |>)) buf →
  wp (on_buffer s m) Q E b.
Proof. intros Hs Hm. unfold wp, on_buffer in *. rewrite Hs. by destruct (m buf) as [[?|?] ?]. Qed.

(** the invariant, and a buffer for [s] *)
Definition buf_ok s b : Prop := bus_ok b ∧ s ∈ dom (incomingSocketBuffers b).

Lemma keeps_on_buffer {A} E s (m : M MessageBuffer A) :
  (∀ buf, wp m (λ _ _, True) (λ e _, E e) buf) → guards (buf_ok s) E (on_buffer s m).
Proof.
  intros Hm b [Hb [buf Hs]%elem_of_dom].
  assert (∀ buf', buf_ok s (b <| incomingSocketBuffers ::= <[s := buf']> |>)) as Hok.
  { intros buf'. split; [|cbn; rewrite dom_insert_L; set_solver].
    open_ok Hb. exists live; try assumption. cbn. rewrite dom_insert_L. set_solver. }
  eapply wp_on_buffer; [exact Hs|]. eapply wp_mono; [apply Hm|intros; apply Hok|intros; by split].
Qed.

Definition write_error (e : exn) : Prop := e = StructError ∨ e = CorruptMessageStream.

Lemma wp_write bs buf : wp (write bs) (λ _ _, True) (λ e _, write_error e) buf.
Proof.
  unfold wp. destruct (write bs buf) as [[?|e] buf'] eqn:Hw; [done|].
  apply (f_equal fst) in Hw. destruct (write_raises bs buf e Hw) as [?|?]; [by left|by right].
Qed.

Lemma buf_ok_modify s b b' :
  buf_ok s b → (bus_ok b → bus_ok b') → incomingSocketBuffers b' = incomingSocketBuffers b → buf_ok s b'.
Proof. intros [Hb Hs] Hok Heq. split; [by apply Hok|by rewrite Heq]. Qed.

Lemma wp_bytes_received s bs b :
  buf_ok s b → acceptSocket cfg ≠ Some s →
  wp (bytes_received cfg meanwhile s bs) (λ _, bus_ok) (λ e b', bus_ok b' ∧ struct_error e) b.
Proof.
  intros Hb Ha. unfold bytes_received. apply wp_bind, wp_modify.
  assert (buf_ok s (b <| totalBytesRead ::= λ n, n + Z.of_nat (length bs) |>)) as Hb1.
  { eapply buf_ok_modify; [exact Hb| |done]. intros Hb'. open_ok Hb'. by exists live. }
  apply wp_bind. eapply (wp_mono _ (λ _, buf_ok s) _ (λ e b', buf_ok s b' ∧ struct_error e));
    [by apply keeps_on_buffer|intros old b2 Hb2|by intros e b2 [[? _] ?]].
  apply wp_bind.
  assert (wp (messages ← on_buffer s (write bs); mret (Some messages))
    (λ _, buf_ok s) (λ e b', buf_ok s b' ∧ write_error e) b2) as Hwrite.
  { apply wp_bind. eapply (wp_mono _ (λ _, buf_ok s) _ (λ e b', buf_ok s b' ∧ write_error e));
      [by apply keeps_on_buffer; [intros buf; apply wp_write|]|by intros|by intros]. }
  unfold wp at 1, tryM. unfold wp at 1 in Hwrite.
  destruct ((messages ← on_buffer s (write bs); mret (Some messages)) b2) as [[r|e] b3] eqn:Hrun.
  2: { destruct Hwrite as [[Hb3 _] He]. destruct (decide (e = CorruptMessageStream)) as [->|Hne].
       - rewrite run_bind. pose proof (keeps_markSocketClosed struct_error s b3 Hb3 Ha) as Hm.
         unfold wp in Hm. destruct (_markSocketClosed s b3) as [[?|?] b4]; [exact Hm|exact Hm].
       - split; [done|]. by destruct He. }
  destruct r as [ms|]; [|exact (proj1 Hwrite)].
  apply wp_bind. eapply (wp_mono _ (λ _, buf_ok s) _ (λ e b', buf_ok s b' ∧ struct_error e));
    [by apply keeps_on_buffer|intros new b4 Hb4|by intros e b4 [[? _] ?]].
  apply wp_bind, wp_modify, wp_bind, wp_modify.
  refine (guards_bind bus_ok struct_error _ _ (keeps_handle_messages _ s ms Ha) (λ _, guards_ret _ _ _) _ _).
  destruct Hb4 as [Hb4 _]. open_ok Hb4. by exists live.
Qed.

Definition recv_error (received : RecvResult) (e : exn) : Prop :=
  e = StructError ∨ e = UnboundLocalError ∧ received = RecvWantWrite.

Lemma wp_recv_ready s r b :
  buf_ok s b → acceptSocket cfg ≠ Some s →
  wp (recv_ready cfg meanwhile s r) (λ _, bus_ok) (λ e b', bus_ok b' ∧ recv_error r e) b.
Proof.
  intros Hb Ha.
  assert (wp (_markSocketClosed s;; mret (Some true)) (λ _, bus_ok) (λ e b', bus_ok b' ∧ recv_error r e) b) as Hclose.
  { apply wp_bind. eapply (wp_mono _ (λ _, bus_ok) _ (λ e b', bus_ok b' ∧ recv_error r e)); [|by intros|by intros].
    by apply keeps_markSocketClosed; [apply Hb|]. }
  destruct r as [[|x bs]| | | |]; try exact Hclose; cbn [recv_ready].
  - eapply wp_mono; [by apply wp_bytes_received|done|]. intros e b' [? ?]. split; [done|by left].
  - exact (proj1 Hb).
  - apply wp_bind, wp_modify. split; [|by right]. destruct Hb as [Hb _]. open_ok Hb. by exists live.
Qed.

(** the exceptions of the handlers of a ready socket, with what they come from *)
Definition read_error (p : Z → RecvResult) (e : exn) : Prop :=
  e = StructError ∨ e = UnboundLocalError ∧ ∃ s, p s = RecvWantWrite.

Lemma keeps_handleReadReadySocket acc recv k :
  (∀ i, k = AnFd i → i ∉ wake_fds cfg) →
  keeps (read_error recv) (_handleReadReadySocket cfg meanwhile acc recv k).
Proof.
  intros Hwake b Hb. unfold _handleReadReadySocket. apply wp_gets_bind. destruct (decide _) as [Hacc|Hacc].
  { by apply keeps_accept_ready. }
  destruct (contains k (allSockets b)) eqn:Hk; [|exact Hb].
  apply bool_decide_eq_true in Hk. destruct k as [i|s].
  - open_ok Hb. destruct Hk as [[[fd r] wr] Hk]. destruct (wa_fd _ _ _ _ _ _ Hwat _ _ _ _ Hk) as [_ Hi].
    by destruct (Hwake i eq_refl).
  - assert (acceptSocket cfg ≠ Some s) as Ha by (intros Ha; by rewrite Ha in Hacc).
    eapply wp_mono; [apply wp_recv_ready; [|done]|done|].
    + split; [done|]. open_ok Hb. apply Hbufs. by destruct (wa_buf _ _ _ _ _ _ Hwat s Hk).
    + intros e b' [Hb' [->|[-> Hr]]]; (split; [done|]); [by left|right; split; [done|by exists s]].
Qed.

(** ** The wake pipes *)

(** What is read from the pipe is covered by the queue, trigger by trigger. *)
Definition sends_left (n : nat) b : Prop :=
  bus_ok b ∧ (messageToSendWakePipe b + n <= length (underlyingQueue (messagesToSendQueue b)))%nat.
Definition fires_left (n : nat) b : Prop :=
  bus_ok b ∧ (eventToFireWakePipe b + n <= length (eventsToFireQueue b))%nat.

Lemma wp_repeatM (I : nat → Bus → Prop) E n m b :
  (∀ n b, I (S n) b → wp m (λ _, I n) (λ e b', bus_ok b' ∧ E e) b) →
  (∀ b, I O b → bus_ok b) → I n b → wp (repeatM n m) (λ _, bus_ok) (λ e b', bus_ok b' ∧ E e) b.
Proof.
  intros Hm Hend. revert b. induction n as [|n IH]; intros b Hb; [by apply Hend|]. cbn [repeatM].
  apply wp_bind. eapply (wp_mono _ (λ _, I n) _ (λ e b', bus_ok b' ∧ E e)); [by apply Hm|intros ? b'; apply IH|done].
Qed.

Lemma wp_left n b :
  sends_left n b → wp meanwhile (λ _, sends_left n) (λ _ _, False) b.
Proof.
  intros [Hb Hn]. eapply wp_mono; [exact (Hmean busy b Hb)| |done].
  intros ? b' [Hb' Hd]. split; [done|by apply (dr_send _ _ Hd)].
Qed.
Lemma wp_fires_left n b :
  fires_left n b → wp meanwhile (λ _, fires_left n) (λ _ _, False) b.
Proof.
  intros [Hb Hn]. eapply wp_mono; [exact (Hmean busy b Hb)| |done].
  intros ? b' [Hb' Hd]. split; [done|by apply (dr_fire _ _ Hd)].
Qed.

Definition fire_level b : nat * nat := (eventToFireWakePipe b, length (eventsToFireQueue b)).

Lemma schedule_callback_level now cb at_ delay b :
  (is_Some at_ → delay = None) →
  send_level (scheduleCallback now (Some cb) at_ delay b).2 = send_level b ∧
  fire_level (scheduleCallback now (Some cb) at_ delay b).2 = fire_level b.
Proof. intros Hd. by destruct (scheduleCallback_run now cb at_ delay b Hd) as [ts ->]. Qed.

Lemma head_task item rest waiting cbs (evs : list (EventItem InMsg)) :
  task_list (item :: rest) waiting cbs evs = omap send_task [item] ++ task_list rest waiting cbs evs.
Proof. unfold task_list. cbn. by destruct (send_task item). Qed.

(** the head of the send queue is taken *)
Lemma wp_get_send n b Q (E : exn → Bus → Prop) :
  sends_left (S n) b →
  (∀ item notify b', bus_okx cfg (omap send_task [item] ++ busy) None None b' →
    (∀ c, item_conn item = Some c → c <= connectionIdCounter b') →
    (messageToSendWakePipe b' + n <= length (underlyingQueue (messagesToSendQueue b')))%nat →
    Q (item, notify) b') →
  wp (zoom messagesToSendQueue (get _bytesPerMsg)) Q E b.
Proof.
  intros [Hb Hn] HQ. unfold wp, zoom. rewrite queue_get_run.
  destruct (underlyingQueue (messagesToSendQueue b)) as [|item rest] eqn:Hq; [cbn in Hn; lia|].
  cbv zeta. set (q' := messagesToSendQueue b <| underlyingQueue := rest |> <| totalBytes ::= _ |>).
  open_ok Hb. assert (∀ x, x = item ∨ x ∈ rest → x ∈ items_of None b) as Hin.
  { intros x Hx. unfold items_of. rewrite Hq, !elem_of_app, elem_of_cons. tauto. }
  apply HQ; [|intros c Hc; apply (Hit item c); [apply Hin; by left|done]|cbn in Hn |- *; lia].
  exists live; try assumption.
  - unfold ok_tasks in *. rewrite Hq, head_task in Htas. eapply tasks_proper; [|exact Htas]. solve_Permutation.
  - destruct Hpip as (?&?&?). rewrite Hq in *. split_and!; cbn in *; lia.
  - intros x c Hx. apply Hit. unfold items_of in Hx. rewrite elem_of_app in Hx.
    destruct Hx as [Hx|Hx]; [apply Hin; by right|]. unfold items_of. rewrite elem_of_app. by right.
Qed.

Lemma ok_connect_callback now c b :
  bus_okx cfg (c :: busy) None None b →
  wp (scheduleCallback now (Some (CbConnectTo c)) None None) (λ _, bus_ok) (λ _ _, False) b.
Proof.
  intros Hb. unfold wp. destruct (scheduleCallback_run now (CbConnectTo c) None None b) as [ts ->]; [by intros [??]|].
  open_ok Hb. exists live; try assumption.
  2: { destruct Hfi as (?&?&?). split_and!; [done|by apply ss_add_quiet|done]. }
  eapply tasks_proper; [|exact Htas]. cbn. unfold task_list.
  destruct Htas as [Hnd _]. cbn in Hnd. apply NoDup_cons in Hnd as [Hc _].
  rewrite elem_of_app in Hc. unfold task_list in Hc. rewrite !elem_of_app in Hc. rewrite ss_add_task by tauto.
  solve_Permutation.
Qed.

(** An item that was handled is recorded. *)
Lemma ok_record ex item b :
  bus_okx cfg ex None (Some item) b → bus_okx cfg ex None None (b <| itemsTaken ::= λ l, l ++ [item] |>).
Proof. intros Hb. open_ok Hb. by exists live. Qed.

(** without a token there is nothing to write for a new connection *)
Lemma ok_no_token ex c b :
  authToken cfg = None → bus_okx cfg ex None None b → c <= connectionIdCounter b →
  bus_okx cfg ex None (Some (STriggerConnect c)) b.
Proof.
  intros Ht Hb Hc.
  assert (asks (STriggerConnect c) c []) as Hask.
  { split; [done|]. intros c'. cbn. rewrite Ht. by do 2 case_decide. }
  open_ok Hb. exists live; try assumption; [|by eapply items_late].
  eapply streams_ext; [exact Hst|]. by apply handed_asks_nothing with (c := c).
Qed.

Lemma wp_handleMessageToSend now n b :
  sends_left (S n) b →
  wp (_handleMessageToSend cfg meanwhile now) (λ _, sends_left n) (λ e b', bus_ok b' ∧ struct_error e) b.
Proof.
  intros Hb. unfold _handleMessageToSend. apply wp_bind, (wp_get_send n); [done|].
  intros item notify b1 Hb1 Hknown Hn. cbn [fst].
  destruct item as [|c|c msg].
  - by split.
  - assert (c ∈ connIdPendingOutgoingConnection b1) as Hc.
    { open_ok Hb1. apply Htas. cbn. by left. }
    specialize (Hknown c eq_refl). apply wp_bind.
    eapply (wp_mono _ (λ _ b2, bus_okx cfg (c :: busy) None (Some (STriggerConnect c)) b2 ∧ still_covered b1 b2)
      _ (λ _ _, False)); [| |done].
    { destruct (authToken cfg) as [token|] eqn:Htok; [|split; [by apply ok_no_token|by intros k]].
      eapply wp_mono; [exact (wp_scheduleBytesForWrite (c :: busy) (STriggerConnect c) c token b1 Hb1
        (asks_token c token Htok) Hknown)|done|by intros e b2 (_ & _ & [])]. }
    intros _ b2 [Hb2 Hcov]. apply wp_bind, wp_modify. apply ok_record in Hb2.
    match goal with |- wp _ _ _ ?st => set (b3 := st) in *; change (bus_okx cfg (c :: busy) None None b3) in Hb2 end.
    pose proof (ok_connect_callback now c b3 Hb2) as Hcb.
    pose proof (schedule_callback_level now (CbConnectTo c) None None b3 ltac:(by intros [??])) as [Hl3 _].
    unfold wp in *. destruct (scheduleCallback now _ None None b3) as [[?|?] b4]; [|done].
    split; [exact Hcb|]. apply Hcov in Hn. injection Hl3 as Hl31 Hl32. cbn in Hl31, Hl32. by rewrite Hl31, Hl32.
  - apply wp_bind. eapply wp_mono; [exact (wp_scheduleBytesForWrite busy (SMessage c msg) c msg b1 Hb1
      (asks_message c msg) (Hknown c eq_refl))| |by intros e b2 (? & ? & _)].
    intros _ b2 [Hb2 Hcov]. apply wp_modify. split; [exact (ok_record _ _ _ Hb2)|]. exact (Hcov n Hn).
Qed.

Lemma wp_also {A} (J : Bus → Prop) (Q : A → Bus → Prop) (E : exn → Bus → Prop) (m : M Bus A) b :
  preserves J m → J b → wp m Q E b → wp m (λ a b', Q a b' ∧ J b') (λ e b', E e b' ∧ J b') b.
Proof. intros Hm HJ. specialize (Hm b HJ). unfold wp. by destruct (m b) as [[?|?] ?]. Qed.

Lemma level_watcher {A} l (m : (Z → Z) → M SocketWatcher A) : preserves (λ b, fire_level b = l) (watcher m).
Proof.
  intros b Hb. unfold watcher, zoom. rewrite run_bind, run_gets. by destruct (m (fileno_of b) (allSockets b)).
Qed.
#[local] Hint Resolve level_watcher : py.

Ltac level_update :=
  idtac; lazymatch goal with
  | |- preserves _ (modify _) => apply preserves_modify; intros ? Hlevel; exact Hlevel
  end.

Lemma level_markSocketClosed l s : preserves (λ b, fire_level b = l) (_markSocketClosed s).
Proof. unfold _markSocketClosed, _ensureSocketClosed, drop_pending_bytes. preserve_with level_update. Qed.

Definition loop_exit (e : exn) : Prop := e = MessageBusLoopExit.

(** one step of the loop over the events: the head is taken *)
Lemma fires_left_tail n rest f b :
  fires_left (S n) b → eventsToFireQueue b = f :: rest →
  fires_left n (b <| eventsToFireQueue := rest |>) ∧ quiet_fire f.
Proof.
  intros [Hb Hn] Hq. rewrite Hq in Hn. cbn in Hn. open_ok Hb.
  destruct Hfi as (Hf1 & Hf2 & Hf3). rewrite Hq in Hf1. apply Forall_cons in Hf1 as [Hf Hf1].
  split; [|done]. split; [|cbn; lia]. exists live; try assumption; [|by split_and!].
  destruct Hpip as (?&?&?). rewrite Hq in *. split_and!; cbn in *; lia.
Qed.

(** A computation that keeps the invariant and leaves the queue alone. *)
Lemma wp_fires {A} n b (m : M Bus A) :
  fires_left n b → wp m (λ _, bus_ok) (λ e b', bus_ok b' ∧ loop_exit e) b →
  preserves (λ b', fire_level b' = fire_level b) m →
  wp m (λ _, fires_left n) (λ e b', bus_ok b' ∧ loop_exit e) b.
Proof.
  intros [_ Hn] Hm Hl. eapply wp_mono; [exact (wp_also _ _ _ _ _ Hl eq_refl Hm)| |by intros e b' [? _]].
  intros a b' [Hb' [= Hl1 Hl2]]. split; [done|]. lia.
Qed.

Lemma level_fire l e : preserves (λ b, fire_level b = l) (_fireEvent e).
Proof. by intros b. Qed.

Lemma wp_add_known b c s E :
  bus_ok b → connIdToOutgoingSocket b !! c = Some s →
  wp (watcher (λ f, addForRead f (ASocket s))) (λ _, bus_ok) (λ e b', bus_ok b' ∧ E e) b.
Proof.
  intros Hb Hc. open_ok Hb. apply (wp_add cfg live); try assumption. left. left.
  apply (tb_out _ _ _ _ _ _ _ _ _ _ Htab) in Hc. by eapply (tb_sock_out _ _ _ _ _ _ _ _ _ _ Htab).
Qed.

Lemma wp_handleEventToFire now n b :
  fires_left (S n) b →
  wp (_handleEventToFire now) (λ _, fires_left n) (λ e b', bus_ok b' ∧ loop_exit e) b.
Proof.
  intros Hb. unfold _handleEventToFire. apply wp_gets_bind.
  destruct (eventsToFireQueue b) as [|f rest] eqn:Hq; [destruct Hb as [_ Hn]; rewrite Hq in Hn; cbn in Hn; lia|].
  apply wp_bind, wp_modify. destruct (fires_left_tail n rest f b Hb Hq) as [Hb1 Hquiet].
  set (b1 := b <| eventsToFireQueue := rest |>) in *. clearbody b1. clear Hb Hq.
  destruct f as [e|c].
  - destruct e as [| | | |c| |]; try (apply wp_fires; [done|by apply keeps_fire; [|apply Hb1]|apply level_fire]).
    + apply wp_bind. eapply (wp_mono _ (λ _, fires_left n) _ (λ e b', bus_ok b' ∧ loop_exit e));
        [apply wp_fires; [done|by apply keeps_fire; [|apply Hb1]|apply level_fire]| |done].
      intros ? b2 [Hb2 _]. by split.
    + apply wp_gets_bind. apply wp_bind.
      eapply (wp_mono _ (λ _, fires_left n) _ (λ e b', bus_ok b' ∧ loop_exit e)); [| |done].
      2: { intros ? b2 Hb2. apply wp_fires; [done|by apply keeps_fire; [|apply Hb2]|apply level_fire]. }
      apply wp_fires; [done| |destruct (connIdToOutgoingSocket b1 !! c); preserve_with level_update].
      destruct (connIdToOutgoingSocket b1 !! c) as [s|] eqn:Hc; [|apply Hb1].
      apply wp_bind. eapply (wp_mono _ (λ _, bus_ok) _ (λ e b', bus_ok b' ∧ loop_exit e));
        [by eapply wp_add_known; [apply Hb1|]|by intros|done].
  - apply wp_gets_bind. destruct (decide _).
    + apply wp_fires; [done|apply keeps_scheduleCallback; [by intros [??]|done|done|apply Hb1]|].
      intros b2 Hl. rewrite (proj2 (schedule_callback_level now (CbScheduleEvent (FTriggerDisconnect c)) None (Some 100000) b2
        ltac:(by intros [??]))). done.
    + apply wp_gets_bind, wp_gets_bind. pose proof (proj1 Hb1) as Hok. open_ok Hok.
      assert (∀ s, s ∈ live → wp (_markSocketClosed s) (λ _, fires_left n) (λ e b', bus_ok b' ∧ loop_exit e) b1) as Hmark.
      { intros s Hs. apply wp_fires; [done| |apply level_markSocketClosed].
        apply keeps_markSocketClosed; [apply Hb1|by eapply live_not_accept]. }
      destruct (connIdToOutgoingSocket b1 !! c) as [s|] eqn:Ho.
      * apply Hmark. apply (tb_out _ _ _ _ _ _ _ _ _ _ Htab) in Ho. by eapply (tb_sock_out _ _ _ _ _ _ _ _ _ _ Htab).
      * destruct (connIdToIncomingSocket b1 !! c) as [s|] eqn:Hi; [|exact Hb1].
        apply Hmark. apply (tb_in _ _ _ _ _ _ _ _ _ _ Htab) in Hi. by eapply (tb_sock_in _ _ _ _ _ _ _ _ _ _ Htab).
Qed.

(** reading a pipe leaves as much of the queue uncovered *)
Lemma wp_send_pipe E now b :
  bus_ok b → (∀ e, struct_error e → E e) →
  wp (_handleMessageToSendWakePipe cfg meanwhile now) (λ _, bus_ok) (λ e b', bus_ok b' ∧ E e) b.
Proof.
  intros Hb HE. unfold _handleMessageToSendWakePipe, read_pipe.
  apply wp_bind, wp_gets_bind, wp_bind, wp_modify, wp_ret.
  apply (wp_repeatM sends_left); [|by intros ? []|].
  - intros n b1 Hb1. apply wp_bind. eapply wp_mono; [exact (wp_left (S n) b1 Hb1)| |done]. intros ? b2 Hb2.
    eapply wp_mono; [exact (wp_handleMessageToSend now n b2 Hb2)|done|]. intros e b3 [? ?]. split; auto.
  - open_ok Hb. destruct Hpip as (Hp1 & Hp2 & Hp3). split; [|cbn; lia].
    exists live; try assumption. split_and!; cbn; lia.
Qed.

Lemma wp_fire_pipe E now b :
  bus_ok b → (∀ e, loop_exit e → E e) →
  wp (_handleEventToFireWakePipe meanwhile now) (λ _, bus_ok) (λ e b', bus_ok b' ∧ E e) b.
Proof.
  intros Hb HE. unfold _handleEventToFireWakePipe, read_pipe.
  apply wp_bind, wp_gets_bind, wp_bind, wp_modify, wp_ret.
  apply (wp_repeatM fires_left); [|by intros ? []|].
  - intros n b1 Hb1. apply wp_bind. eapply wp_mono; [exact (wp_fires_left (S n) b1 Hb1)| |done]. intros ? b2 Hb2.
    eapply wp_mono; [exact (wp_handleEventToFire now n b2 Hb2)|done|]. intros e b3 [? ?]. split; auto.
  - open_ok Hb. destruct Hpip as (Hp1 & Hp2 & Hp3). split; [|cbn; lia].
    exists live; try assumption. split_and!; cbn; lia.
Qed.

Lemma keeps_general_pipe E : keeps E _handleGeneralWakePipe.
Proof.
  intros b Hb. unfold _handleGeneralWakePipe, read_pipe.
  apply wp_bind, wp_bind, wp_gets, wp_bind, wp_modify, wp_ret. open_ok Hb. by exists live.
Qed.

End socket.

(** ** A pass of the loop *)

Section pass.
Context {InMsg OutMsg : Type} `{SortedSet (Callback InMsg)} (cfg : BusConfig InMsg OutMsg).
Context (Hwakes : ∀ i, i ∈ wake_fds cfg → 0 <= i).
Implicit Types (b : MessageBus InMsg) (s c : Z).
Abbreviation Bus := (MessageBus InMsg).
Abbreviation bus_ok := (bus_okx cfg [] None None).
Abbreviation keeps := (guards bus_ok).
#[local] Set Default Proof Using "Type*".

Lemma ok_take_callback b ts cb rest :
  bus_ok b → pendingTimedCallbacks b = (ts, cb) :: rest →
  bus_ok (b <| pendingTimedCallbacks := rest |> <| eventQueue ::= λ q, q ++ [ECallback cb] |>).
Proof.
  intros Hb Hl. open_ok Hb. exists live; try assumption.
  - eapply tasks_proper; [|exact Htas]. cbn -[omap]. rewrite Hl, drop_app_le by apply Hpip.
    unfold task_list. rewrite omap_app. cbn. destruct (cb_task cb); cbn; [solve_Permutation|by rewrite app_nil_r].
  - destruct Hpip as (?&?&?). split_and!; cbn; rewrite ?length_app; cbn; lia.
  - by apply events_quiet.
  - destruct Hfi as (?&Hq&?). rewrite Hl in Hq. apply Forall_cons in Hq as [Hcb Hq].
    split_and!; [done|done|]. cbn. apply Forall_app. by repeat constructor.
Qed.

Lemma keeps_consume_callbacks E fuel times : keeps E (consume_callbacks fuel times).
Proof.
  revert times. induction fuel as [|fuel IH]; intros times b Hb; cbn [consume_callbacks]; apply wp_gets_bind;
    destruct (pendingTimedCallbacks b) as [|[ts cb] rest] eqn:Hl; try exact Hb.
  case_bool_decide; [|exact Hb]. apply wp_bind, wp_modify, wp_bind, wp_modify, IH.
  by apply (ok_take_callback b ts cb rest).
Qed.

Lemma wp_add_wake i E b :
  bus_ok b → i ∈ wake_fds cfg →
  wp (watcher (λ f, addForRead f (AnFd i))) (λ _, bus_ok) (λ e b', bus_ok b' ∧ E e) b.
Proof. intros Hb Hi. open_ok Hb. by apply (wp_add cfg live). Qed.

Lemma keeps_arm_wake_pipe E cr : keeps E (arm_wake_pipe cfg cr).
Proof.
  apply guards_bind; [|intros ?; apply guards_ret]. intros b Hb. destruct cr.
  - apply wp_add_wake; [done|]. set_solver.
  - apply wp_watcher. open_ok Hb.
    eapply wp_mono; [apply (watching_discard _ (AnFd (sendWakeFd cfg)) true false Hwat)| |done].
    intros ? w Hw. by exists live.
Qed.

Lemma wp_add_need s E b :
  bus_ok b → s ∈ dom (socketToBytesNeedingWrite b) →
  wp (watcher (λ f, addForWrite f (ASocket s))) (λ _, bus_ok) (λ e b', bus_ok b' ∧ E e) b.
Proof.
  intros Hb Hs. open_ok Hb. apply (wp_add cfg live); try assumption.
  destruct (wa_need _ _ _ _ _ _ Hwat s Hs) as [?|?]; [left; by left|by right].
Qed.

Lemma keeps_interrupt E p : keeps E (interrupt cfg p).
Proof. exact (keeps_meanwhile cfg [] _ (interrupt_harmless cfg p) E). Qed.

(** [m] leaves the pending bytes alone *)
Definition same_need {A} (m : M (MessageBus InMsg) A) : Prop :=
  ∀ b, socketToBytesNeedingWrite (m b).2 = socketToBytesNeedingWrite b.

Lemma same_need_watcher {A} (m : (Z → Z) → M SocketWatcher A) : same_need (watcher m).
Proof using Type. intros b. unfold watcher, zoom. rewrite run_bind, run_gets. by destruct (m (fileno_of b) (allSockets b)) as [[]]. Qed.

Definition size_changed (e : exn) : Prop := e = RuntimeError.

(** The sockets of the iteration stay in the dictionary. *)
Lemma wp_arm_each p sel k socks b :
  bus_ok b → (∀ s, s ∈ socks → is_Some (socketToBytesNeedingWrite b !! s)) →
  wp (arm_each cfg p sel k socks) (λ _, bus_ok) (λ e b', bus_ok b' ∧ size_changed e) b.
Proof.
  revert b. induction socks as [|s socks IH]; intros b Hb Hin; cbn [arm_each]; apply wp_bind;
    (eapply wp_mono; [exact (wp_interrupt cfg [] p b Hb)| |done]); intros _ b1 [Hb1 Hd]; apply wp_gets_bind, wp_bind;
    (unfold whenM; case_bool_decide; [by split|]); [exact Hb1|].
  assert (∀ s', s' ∈ s :: socks → is_Some (socketToBytesNeedingWrite b1 !! s')) as Hin1.
  { intros s' [buf Hs]%Hin. exists buf. exact (dr_need _ _ Hd s' buf Hs). }
  apply wp_ret, wp_bind.
  assert (∀ m, wp (watcher (A:=option bool) m) (λ _, bus_ok) (λ e b', bus_ok b' ∧ size_changed e) b1 →
    wp (watcher m) (λ _ b', wp (arm_each cfg p sel k socks) (λ _, bus_ok) (λ e b', bus_ok b' ∧ size_changed e) b')
      (λ e b', bus_ok b' ∧ size_changed e) b1) as Hrest.
  { intros m Hm. pose proof (same_need_watcher m b1) as Hsame. unfold wp in *.
    destruct (watcher m b1) as [[?|?] b2]; [|exact Hm]. apply IH; [exact Hm|]. cbn in Hsame. rewrite Hsame.
    intros s' Hs'. apply Hin1. by right. }
  case_bool_decide; apply Hrest.
  - apply wp_add_need; [done|]. apply elem_of_dom, Hin1. by left.
  - by apply keeps_discardForWrite.
Qed.

Lemma keeps_arm_writes p sel : keeps size_changed (arm_writes cfg p sel).
Proof.
  intros b Hb. unfold arm_writes. apply wp_gets_bind. apply wp_arm_each; [exact Hb|].
  intros s ([s' buf] & -> & Hin)%list_elem_of_fmap. apply elem_of_map_to_list in Hin. by exists buf.
Qed.

(** When [poll] fails, every watched socket is open, so nothing is collected. *)
Lemma wp_poll_failed b : bus_ok b → wp poll_failed (λ _, bus_ok) (λ e b', bus_ok b' ∧ e = ValueError) b.
Proof.
  intros Hb. unfold poll_failed. open_ok Hb.
  assert (gc (fileno_of b) (allSockets b) = (Ok [], allSockets b)) as Hgc.
  { apply gc_nothing. intros [i|s] [[[fd r] wr] Hs]; cbn.
    - destruct (wa_fd _ _ _ _ _ _ Hwat _ _ _ _ Hs) as [-> Hi]. by apply Hwakes.
    - destruct (wa_sock _ _ _ _ _ _ Hwat _ _ _ _ Hs) as [Hfd Hpos]. unfold fileno_of. by rewrite Hfd. }
  apply wp_bind, wp_watcher. unfold wp at 1. rewrite Hgc. split; [|done]. by exists live.
Qed.

(** the exceptions of a pass, with what they come from *)
Definition pass_error (p : Pass (OutMsg := OutMsg)) (e : exn) : Prop :=
  loop_exit e ∨ read_error (p_recv p) e ∨ e = ValueError ∧ p_poll p = None ∨ size_changed e.

Lemma keeps_dispatch_read p cr k : keeps (pass_error p) (dispatch_read cfg p cr k).
Proof.
  unfold dispatch_read. destruct (decide _) as [H1|H1]; [|destruct (decide _) as [H2|H2]; [|destruct (decide _) as [H3|H3]]].
  - destruct cr; [|apply guards_ret]. apply guards_bind; [|intros ?; apply guards_ret].
    intros b Hb. apply (wp_send_pipe cfg [] _ (interrupt_harmless cfg p) Hwakes); [exact Hb|].
    intros e He. right. left. by left.
  - apply guards_bind; [|intros ?; apply guards_ret]. intros b Hb.
    apply (wp_fire_pipe cfg [] _ (interrupt_harmless cfg p) Hwakes); [exact Hb|]. intros e He. by left.
  - apply guards_bind; [exact (keeps_general_pipe cfg [] _ (interrupt_harmless cfg p) Hwakes _)|intros ?; apply guards_ret].
  - apply guards_bind; [|intros ?; apply guards_ret].
    eapply guards_mono; [apply (keeps_handleReadReadySocket cfg [] _ (interrupt_harmless cfg p) Hwakes)|intros e He; right; by left].
    intros i ->. unfold wake_fds. rewrite !not_elem_of_cons. split_and!; [congruence..|apply not_elem_of_nil].
Qed.

Lemma keeps_dispatch_write E p k : keeps E (dispatch_write cfg p k).
Proof.
  destruct k; [apply guards_ret|].
  apply guards_bind; [exact (keeps_handleWriteReadySocket cfg [] _ (interrupt_harmless cfg p) E _ _)|intros ?; apply guards_ret].
Qed.

Lemma keeps_any_of {A} E (l : list A) acc f : (∀ x, keeps E (f x)) → keeps E (any_of l acc f).
Proof.
  intros Hf. apply guards_foldM. intros x acc' _. apply guards_bind; [apply Hf|intros ?; apply guards_ret].
Qed.

(** The set is cleared before the loop reads it: nothing happens. *)
Lemma ssl_want_write_run p acc b :
  ssl_want_write_sockets cfg p acc b = (Ok acc, b <| socketsWithSslWantWrite := ∅ |>).
Proof using Type. done. Qed.

Lemma kernel_events_registered events w ev :
  ev ∈ kernel_events events w → is_Some (epoll w !! ev.1.1).
Proof using Type.
  intros (x & Hx & Hev)%list_elem_of_omap. destruct (epoll w !! x.1.1) as [m|] eqn:Hm; [|done].
  cbn in Hev. injection Hev as <-. cbn. by eexists.
Qed.

Lemma wp_kernel_poll E events b :
  bus_ok b → wp (watcher (λ _, w ← get_state; poll (kernel_events events w)))
    (λ _, bus_ok) (λ e b', bus_ok b' ∧ E e) b.
Proof.
  intros Hb. apply wp_watcher. open_ok Hb. apply wp_bind. unfold wp at 1, get_state.
  destruct (poll_ok (kernel_events events (allSockets b)) (allSockets b)
    (wa_ok _ _ _ _ _ _ Hwat) (wa_open _ _ _ _ _ _ Hwat)) as (r & Hrun & _).
  { intros ev. apply kernel_events_registered. }
  unfold wp. rewrite Hrun. by exists live.
Qed.

Lemma keeps_socket_pass p sel : keeps (pass_error p) (socket_pass cfg p sel).
Proof.
  unfold socket_pass. apply guards_bind; [apply guards_gets|intros cr].
  apply guards_bind; [|intros _].
  { apply keeps_interrupt. }
  apply guards_bind; [|intros _].
  { destruct cr; [|apply guards_ret]. apply guards_bind; [|intros ?; apply guards_ret].
    unfold _consumeCallbacksOnOutputThread. apply guards_bind; [apply guards_gets|intros l; apply keeps_consume_callbacks]. }
  apply guards_bind; [apply keeps_arm_wake_pipe|intros _].
  apply guards_bind; [eapply guards_mono; [apply keeps_arm_writes|by right; right; right]|intros _].
  apply guards_bind; [apply keeps_interrupt|intros _].
  destruct (p_poll p) as [events|] eqn:Hpoll.
  - apply guards_bind; [intros b Hb; by apply wp_kernel_poll|intros ready].
    apply guards_bind; [apply keeps_any_of; intros k; apply guards_bind; [apply keeps_interrupt|intros _; apply keeps_dispatch_read]|intros did].
    apply guards_bind; [|intros did'].
    { intros b Hb. unfold wp. rewrite ssl_want_write_run. open_ok Hb. by exists live. }
    apply guards_bind; [|intros ?; apply guards_ret].
    case_bool_decide; [|apply guards_ret]. apply keeps_any_of. intros k.
    apply guards_bind; [apply keeps_interrupt|intros _; apply keeps_dispatch_write].
  - apply guards_bind; [|intros ?; apply guards_ret]. intros b Hb.
    eapply wp_mono; [by apply wp_poll_failed|done|]. intros e b' [? ->]. split; [done|]. by right; right; left.
Qed.

(** ** The start *)

Lemma watching_nothing fds :
  (∀ s fd, fds !! s = Some fd → acceptSocket cfg = Some s ∧ 0 <= fd ∧ fd ∉ wake_fds cfg) →
  (∀ s, acceptSocket cfg = Some s → is_Some (fds !! s)) →
  watching (wake_fds cfg) (acceptSocket cfg) new_SocketWatcher fds ∅ ∅.
Proof.
  intros Hfds Hacc. split; cbn.
  - apply watch_ok_new.
  - done.
  - intros s fd r wr. by rewrite lookup_empty.
  - intros s. rewrite lookup_empty. by intros [??].
  - intros i fd r wr. by rewrite lookup_empty.
  - intros s s' fd Hs Hs' _. apply Hfds in Hs as [? _]. apply Hfds in Hs' as [? _]. congruence.
  - intros s fd Hs. by apply Hfds in Hs as (_ & _ & ?).
  - intros s Hs. by apply not_elem_of_empty in Hs.
  - intros s Hs. split; [apply not_elem_of_empty|]. destruct (Hacc s Hs) as [fd Hfd]. exists fd.
    split; [done|]. by apply Hfds in Hfd as (_ & ? & _).
  - intros s Hs. by apply not_elem_of_empty in Hs.
Qed.

Lemma tables_nothing : tables 0 ∅ ∅ ∅ ∅ ∅ ∅ ∅ ∅ ∅.
Proof using Type.
  split; intros *; rewrite ?lookup_empty; try done; try (by intros [??]); by intros ?%not_elem_of_empty.
Qed.

(** the state in which [start] begins to watch *)
Lemma bus_ok_new fds :
  (∀ s fd, fds !! s = Some fd → acceptSocket cfg = Some s ∧ 0 <= fd ∧ fd ∉ wake_fds cfg) →
  (∀ s, acceptSocket cfg = Some s → is_Some (fds !! s)) →
  bus_ok (new_MessageBus <| sockFd := fds |>).
Proof.
  intros Hfds Hacc. exists ∅.
  - cbn. set_solver.
  - exact tables_nothing.
  - unfold ok_watching. cbn. rewrite dom_empty_L. by apply watching_nothing.
  - split; [constructor|]. cbn. set_solver.
  - split_and!; cbn; lia.
  - split; intros c; cbn; rewrite ?lookup_empty; [by intros [??]|intros _; left; by exists O|done].
  - split; cbn; [set_solver|intros c; rewrite lookup_empty; by intros [??]|set_solver| |].
    + intros c s. rewrite !lookup_empty. by intros [?|?].
    + intros s. rewrite !lookup_empty. intros [[??]|[[??]|?]]; [done|done|set_solver].
  - intros x c Hx. unfold items_of in Hx. cbn in Hx. by apply not_elem_of_nil in Hx.
  - split_and!; constructor.
Qed.

Lemma bus_ok_start listening b :
  (∀ fd, listening = Some fd → 0 <= fd ∧ fd ∉ wake_fds cfg) →
  start cfg listening new_MessageBus = (Ok tt, b) → bus_ok b.
Proof.
  intros Hfd Hrun.
  assert (wp (start cfg listening) (λ _, bus_ok) (λ _ _, True) new_MessageBus) as Hwp; [|unfold wp in Hwp; by rewrite Hrun in Hwp].
  clear Hrun b. unfold start. apply wp_bind, wp_gets, wp_bind, wp_ret, wp_bind.
  set (opened b := ∃ fds, b = new_MessageBus <| sockFd := fds |> ∧
    (∀ s fd, fds !! s = Some fd → acceptSocket cfg = Some s ∧ 0 <= fd ∧ fd ∉ wake_fds cfg) ∧
    (∀ s, acceptSocket cfg = Some s → is_Some (fds !! s))).
  eapply (wp_mono _ (λ _, opened) _ (λ _ _, True)); [| |done].
  - destruct (acceptSocket cfg) as [s|]; [destruct listening as [fd|]; [|done]|].
    + apply wp_modify. exists (<[s := fd]> ∅). split; [done|]. split.
      * intros s' fd' [[<- <-]|[_ ?]]%lookup_insert_Some; [|by rewrite lookup_empty in *].
        destruct (Hfd fd eq_refl). done.
      * intros s' [= <-]. rewrite lookup_insert_eq. by eexists.
    + apply wp_ret. exists ∅. split; [done|]. split; [|done]. intros s fd. by rewrite lookup_empty.
  - intros [] b (fds & -> & Hfds & Hacc). apply wp_bind, wp_modify.
    pose proof (bus_ok_new fds Hfds Hacc) as Hb.
    set (b1 := _ <| allSockets := _ |>). change (bus_ok b1) in Hb. clearbody b1.
    refine (wp_mono _ (λ _, bus_ok) _ (λ e b', bus_ok b' ∧ True) _ b1 _ (λ _ _ Hok, Hok) (λ _ _ _, I)).
    apply (guards_bind bus_ok (λ _, True)); [intros b2 Hb2; apply wp_add_wake; [done|set_solver]|intros _|exact Hb].
    apply guards_bind; [intros b2 Hb2; apply wp_add_wake; [done|set_solver]|intros _].
    apply guards_bind; [|intros _; apply guards_modify; intros b2 Hb2; open_ok Hb2; by exists live].
    destruct (acceptSocket cfg) as [s|] eqn:Ha; [|apply guards_ret].
    apply guards_bind; [|intros _; apply guards_ret].
    intros b2 Hb2. open_ok Hb2. apply (wp_add cfg live); try assumption. left. by right.
Qed.

End pass.

(** ** Runs of the bus *)

(** What can happen: a step of another thread, or a pass of the socket thread, with whatever
    the others do during it. *)
Section runs.
Context {InMsg OutMsg : Type} `{SortedSet (Callback InMsg)} (cfg : BusConfig InMsg OutMsg).
Implicit Types (b : MessageBus InMsg).

Inductive bus_op :=
  | OThread (op : thread_op (OutMsg := OutMsg))
  | OPass (p : Pass (OutMsg := OutMsg)) (selectsWithNoUpdate : Z).

Definition run_bus (op : bus_op) : M (MessageBus InMsg) unit :=
  match op with
  | OThread op => run_thread cfg op
  | OPass p sel => socket_pass cfg p sel;; mret tt
  end.

(** what an operation may raise *)
Definition op_error (op : bus_op) (e : exn) : Prop :=
  match op with
  | OThread op => thread_error cfg op e
  | OPass p _ => pass_error p e
  end.

Inductive bus_run : MessageBus InMsg → Prop :=
  | bus_started listening b :
      (∀ fd, listening = Some fd → 0 <= fd ∧ fd ∉ wake_fds cfg) →
      start cfg listening new_MessageBus = (Ok tt, b) → bus_run b
  | bus_step op b : bus_run b → bus_run (run_bus op b).2.

Lemma run_bus_keeps op :
  (∀ i, i ∈ wake_fds cfg → 0 <= i) → guards (bus_okx cfg [] None None) (op_error op) (run_bus op).
Proof.
  intros Hwakes. destruct op as [op|p sel]; cbn [run_bus op_error].
  - intros b Hb. eapply wp_mono; [exact (run_thread_keeps cfg [] op b b (conj Hb (drift_refl b)))|by intros ? b' []|].
    by intros e b' [[? _] ?].
  - apply guards_bind; [by apply keeps_socket_pass|intros ?; apply guards_ret].
Qed.

Lemma bus_run_ok b : (∀ i, i ∈ wake_fds cfg → 0 <= i) → bus_run b → bus_okx cfg [] None None b.
Proof.
  intros Hwakes Hb. induction Hb as [listening b Hfd Hstart|op b Hb IH]; [by eapply bus_ok_start|].
  by apply (guards_end _ _ _ b (run_bus_keeps op Hwakes)).
Qed.
End runs.
