(* ===== verification/BusTheorems.v ===== *)
(** * What the message bus guarantees

    The theorems about runs of the bus ([bus_run]), read off the invariant that
    [BusSteps] and [BusSocket] show to be kept: the bus never trips over its own tables, the tables agree
    with each other and with the open sockets, every pending connection is attempted once,
    the events of a connection come in order, the bytes written to a socket are the frames
    of the messages, and the count of the pending bytes can only drift upwards. *)

From Stdlib Require Import Lia.
From stdpp Require Import options.
From S2P Require Import Prelude MessageBuffer ByteQueue SocketWatcher MessageBus BusInvariant BusContract BusSteps BusSocket.

Local Open Scope Z_scope.

Section runs.
Context {InMsg OutMsg : Type} `{SortedSet (Callback InMsg)} (cfg : BusConfig InMsg OutMsg).

Fixpoint run_ops (ops : list (bus_op (OutMsg := OutMsg))) (b : MessageBus InMsg) : MessageBus InMsg :=
  match ops with
  | [] => b
  | op :: ops => run_ops ops (run_bus cfg op b).2
  end.

Lemma bus_run_ops ops b : bus_run cfg b → bus_run cfg (run_ops ops b).
Proof. revert b. induction ops as [|op ops IH]; intros b Hb; [done|]. apply IH. by apply bus_step. Qed.
End runs.

(** ** The count of the pending bytes *)

(** the bytes that wait to be written *)
Definition sum_pending (d : gmap Z bytes) : Z := map_fold (λ _ buf n, Z.of_nat (length buf) + n) 0 d.

Lemma sum_pending_insert d s buf :
  sum_pending (<[s := buf]> d) = Z.of_nat (length buf) + sum_pending (delete s d).
Proof.
  unfold sum_pending. rewrite <-insert_delete_eq.
  rewrite (map_fold_insert_L (λ _ buf n, Z.of_nat (length buf) + n)); [done|intros; lia|apply lookup_delete_eq].
Qed.

Lemma sum_pending_delete d s :
  sum_pending d = Z.of_nat (length (default [] (d !! s))) + sum_pending (delete s d).
Proof.
  destruct (d !! s) as [buf|] eqn:Hs; cbn [default].
  - rewrite <-(insert_id d s buf Hs) at 1. by rewrite sum_pending_insert.
  - by rewrite delete_id.
Qed.

Create HintDb bus_leaks discriminated.

Section pending.
Context {InMsg OutMsg : Type} `{SortedSet (Callback InMsg)} (cfg : BusConfig InMsg OutMsg).
Implicit Types (b : MessageBus InMsg).
Abbreviation Bus := (MessageBus InMsg).

(** how much the bus counts that no socket has to write *)
Definition leaked b : Z := totalBytesPendingInOutputLoop b - sum_pending (socketToBytesNeedingWrite b).
(** [P]: what is known of the limit of the send queue *)
Context (P : option Z → Prop).
Definition leaks (n : Z) b : Prop := n <= leaked b ∧ P (maxBytes (messagesToSendQueue b)).
Abbreviation stays m := (∀ n, guards (leaks n) (λ _, True) m).

Ltac stay :=
  repeat first
    [ assumption | solve [auto 2 with bus_leaks nocore]
    | apply guards_ret | apply guards_gets | by apply guards_raise
    | apply guards_modify; intros ? Hleaks; exact Hleaks
    | apply guards_bind; [|intros ?] | apply guards_whenM; intros ?
    | apply guards_forM; intros ? ? | apply guards_foldM; intros ? ? ?
    | apply guards_tryM; [|intros ?]
    | match goal with |- guards _ _ (match ?x with _ => _ end) => destruct x end
    | match goal with |- guards _ _ (if ?x then _ else _) => destruct x end ].

Lemma stays_watcher {A} (m : (Z → Z) → M SocketWatcher A) : stays (watcher m).
Proof using Type.
  intros n. unfold watcher. stay. intros b Hb. unfold wp, zoom.
  destruct (m a (allSockets b)) as [[|] ?]; cbn; [exact Hb|by split].
Qed.
#[local] Hint Resolve stays_watcher : bus_leaks.

Lemma stays_put item : stays (put_item item).
Proof using Type.
  intros n. unfold put_item. stay. intros b Hb. unfold wp, zoom. rewrite put_run.
  destruct (_ && _); exact Hb.
Qed.
#[local] Hint Resolve stays_put : bus_leaks.

Lemma stays_get : stays (zoom messagesToSendQueue (get _bytesPerMsg)).
Proof using Type.
  intros n b Hb. unfold wp, zoom. rewrite queue_get_run.
  destruct (underlyingQueue (messagesToSendQueue b)); cbn; [split; [exact Hb|done]|exact Hb].
Qed.
#[local] Hint Resolve stays_get : bus_leaks.

Lemma leaks_need n b d :
  leaks n b → sum_pending d <= sum_pending (socketToBytesNeedingWrite b) →
  leaks n (b <| socketToBytesNeedingWrite := d |>).
Proof using Type. intros [Hn Hm] Hd. split; [|exact Hm]. unfold leaked in *. cbn. lia. Qed.

Lemma leaks_delete n b s : leaks n b → leaks n (b <| socketToBytesNeedingWrite ::= delete s |>).
Proof using Type. intros Hb. apply (leaks_need n b _ Hb). rewrite (sum_pending_delete (socketToBytesNeedingWrite b) s). lia. Qed.

Lemma stays_drop s : stays (drop_pending_bytes s).
Proof using Type. intros n. apply guards_modify. intros b. apply leaks_delete. Qed.
#[local] Hint Resolve stays_drop : bus_leaks.

Lemma stays_del_key {V} (proj : Bus → gmap Z V) `{!Setter proj} k :
  (∀ n b, leaks n b → leaks n (b <| proj ::= delete k |>)) → stays (del_key proj k).
Proof using Type.
  intros Hp n. unfold del_key. stay; [|by apply guards_modify; auto].
  intros b Hb. unfold wp. destruct (lift_option KeyError (a !! k) b) as [r b'] eqn:Hr.
  unfold lift_option in Hr. destruct (a !! k); injection Hr as <- <-; [exact Hb|by split].
Qed.
#[local] Hint Extern 1 (guards (leaks _) _ (del_key _ _)) =>
  apply stays_del_key; intros ? ? Hleaks; first [exact Hleaks | by apply leaks_delete] : bus_leaks.

Lemma stays_store c msg t : stays (store_bytes cfg c msg t).
Proof using Type.
  intros n. destruct t as [s| |]; cbn [store_bytes]; [|stay|stay].
  destruct (encode msg (extraCheck cfg)); [|by apply guards_raise].
  intros b Hb. apply wp_bind, wp_modify, wp_modify. destruct Hb as [Hn Hm]. split; [|exact Hm].
  unfold leaked in *. cbn. rewrite sum_pending_insert. rewrite (sum_pending_delete (socketToBytesNeedingWrite b) s) in Hn.
  rewrite length_app, Nat2Z.inj_add. lia.
Qed.
#[local] Hint Resolve stays_store : bus_leaks.

Lemma stays_written s written n b buf :
  socketToBytesNeedingWrite b !! s = Some buf → 0 < written <= Z.of_nat (length buf) → leaks n b →
  leaks n (b <| totalBytesPendingInOutputLoop ::= λ n, n - written |>
                 <| totalBytesWritten ::= λ n, n + written |>
                 <| socketToBytesNeedingWrite ::= alter (del_to written) s |>).
Proof using Type.
  intros Hs Hw [Hn Hm]. split; [|exact Hm]. unfold leaked in *. cbn.
  rewrite (sum_pending_delete (alter _ _ _) s), lookup_alter_eq, Hs. cbn.
  rewrite (sum_pending_delete (socketToBytesNeedingWrite b) s), Hs in Hn. cbn in Hn.
  assert (delete s (alter (del_to written) s (socketToBytesNeedingWrite b)) = delete s (socketToBytesNeedingWrite b)) as ->.
  { apply map_eq. intros s'. rewrite !lookup_delete. case_decide; [done|]. by rewrite lookup_alter_ne. }
  unfold del_to. rewrite slice_index_nonneg, length_drop by lia. lia.
Qed.

Lemma stays_ret : stays (mret tt).
Proof using Type. intros n. stay. Qed.
#[local] Hint Resolve stays_ret : bus_leaks.
Lemma stays_scheduleBytes m c msg : stays m → stays (_scheduleBytesForWrite cfg m c msg).
Proof using Type. intros Hm n. unfold _scheduleBytesForWrite. stay. Qed.
#[local] Hint Resolve stays_scheduleBytes : bus_leaks.

Lemma stays_scheduleEvent f : stays (_scheduleEvent f).
Proof using Type. intros n. unfold _scheduleEvent. stay. Qed.
#[local] Hint Resolve stays_scheduleEvent : bus_leaks.
Lemma stays_fireEvent e : stays (_fireEvent e).
Proof using Type. intros n. unfold _fireEvent. stay. Qed.
#[local] Hint Resolve stays_fireEvent : bus_leaks.
Lemma stays_callback now cb at_ delay : stays (scheduleCallback now cb at_ delay).
Proof using Type. intros n. unfold scheduleCallback. stay. Qed.
#[local] Hint Resolve stays_callback : bus_leaks.
Lemma stays_putOnSendQueue item : stays (_putOnSendQueue item).
Proof using Type. intros n. unfold _putOnSendQueue. stay. Qed.
#[local] Hint Resolve stays_putOnSendQueue : bus_leaks.
Lemma stays_put_disconnected : stays (put_disconnected).
Proof using Type. intros n. unfold put_disconnected. stay. Qed.
#[local] Hint Resolve stays_put_disconnected : bus_leaks.
Lemma stays_connect ep : stays (connect ep).
Proof using Type. intros n. unfold connect, check_started, _newConnectionId. stay. Qed.
#[local] Hint Resolve stays_connect : bus_leaks.
Lemma stays_closeConnection c : stays (closeConnection c).
Proof using Type. intros n. unfold closeConnection. stay. Qed.
#[local] Hint Resolve stays_closeConnection : bus_leaks.
Lemma stays_sendMessage c m : stays (sendMessage cfg c m).
Proof using Type. intros n. unfold sendMessage, check_started. stay. Qed.
#[local] Hint Resolve stays_sendMessage : bus_leaks.
Lemma stays_stop_request : stays (stop_request).
Proof using Type. intros n. unfold stop_request. stay. Qed.
#[local] Hint Resolve stays_stop_request : bus_leaks.
Lemma stays_resume_put i : stays (resume_put i).
Proof using Type. intros n. unfold resume_put. stay. Qed.
#[local] Hint Resolve stays_resume_put : bus_leaks.
Lemma stays_ensureSocketClosed s : stays (_ensureSocketClosed s).
Proof using Type. intros n. unfold _ensureSocketClosed. stay. Qed.
#[local] Hint Resolve stays_ensureSocketClosed : bus_leaks.
Lemma stays_markSocketClosed s : stays (_markSocketClosed s).
Proof using Type. intros n. unfold _markSocketClosed. stay. Qed.
#[local] Hint Resolve stays_markSocketClosed : bus_leaks.
Lemma stays_handleIncoming m s : stays (_handleIncomingMessage cfg m s).
Proof using Type. intros n. unfold _handleIncomingMessage. stay. Qed.
#[local] Hint Resolve stays_handleIncoming : bus_leaks.
Lemma stays_handle_messages m s ms : stays m → stays (handle_messages cfg m s ms).
Proof using Type. intros Hm. induction ms as [|x ms IH]; intros n; cbn [handle_messages]; stay. Qed.
#[local] Hint Resolve stays_handle_messages : bus_leaks.
Lemma stays_on_buffer {A} s (m : M MessageBuffer A) : stays (on_buffer s m).
Proof using Type.
  intros n b Hb. unfold wp, on_buffer. destruct (incomingSocketBuffers b !! s) as [buf|]; [|by split].
  destruct (m buf) as [[|] ?]; [exact Hb|by split].
Qed.
#[local] Hint Resolve stays_on_buffer : bus_leaks.
Lemma stays_accept_ready r : stays (accept_ready cfg r).
Proof using Type. intros n. unfold accept_ready, accept_new, _newConnectionId. stay. Qed.
#[local] Hint Resolve stays_accept_ready : bus_leaks.
Lemma stays_bytes_received m s bs : stays m → stays (bytes_received cfg m s bs).
Proof using Type. intros Hm n. unfold bytes_received. stay. Qed.
#[local] Hint Resolve stays_bytes_received : bus_leaks.
Lemma stays_handleRead m acc recv k : stays m → stays (_handleReadReadySocket cfg m acc recv k).
Proof using Type. intros Hm n. unfold _handleReadReadySocket, recv_ready. stay. Qed.
#[local] Hint Resolve stays_handleRead : bus_leaks.
Lemma stays_repeatM k m : stays m → stays (repeatM k m).
Proof using Type.
  intros Hm. induction k as [|k IH]; intros n; cbn [repeatM]; [stay|].
  apply guards_bind; [apply Hm|intros ?; apply IH].
Qed.
Lemma stays_handleMessageToSend m now : stays m → stays (_handleMessageToSend cfg m now).
Proof using Type. intros Hm n. unfold _handleMessageToSend. stay. Qed.
#[local] Hint Resolve stays_handleMessageToSend : bus_leaks.
Lemma stays_handleEventToFire now : stays (_handleEventToFire now).
Proof using Type. intros n. unfold _handleEventToFire. stay. Qed.
#[local] Hint Resolve stays_handleEventToFire : bus_leaks.
Lemma stays_connect_failed c : stays (connect_failed c).
Proof using Type. intros n. unfold connect_failed. stay. Qed.
#[local] Hint Resolve stays_connect_failed : bus_leaks.
Lemma stays_connectTo c r : stays (_connectTo cfg c r).
Proof using Type. intros n. unfold _connectTo, connected. stay. Qed.
#[local] Hint Resolve stays_connectTo : bus_leaks.
Lemma stays_event_thread_step r : stays (event_thread_step cfg r).
Proof using Type. intros n. unfold event_thread_step. stay. Qed.
#[local] Hint Resolve stays_event_thread_step : bus_leaks.
Lemma stays_consume_callbacks fuel times : stays (consume_callbacks fuel times).
Proof using Type. revert times. induction fuel as [|fuel IH]; intros times n; cbn [consume_callbacks]; stay. Qed.
#[local] Hint Resolve stays_consume_callbacks : bus_leaks.
Lemma stays_read_pipe1 : stays (read_pipe messageToSendWakePipe).
Proof using Type. intros n. unfold read_pipe. stay. Qed.
#[local] Hint Resolve stays_read_pipe1 : bus_leaks.
Lemma stays_read_pipe2 : stays (read_pipe eventToFireWakePipe).
Proof using Type. intros n. unfold read_pipe. stay. Qed.
#[local] Hint Resolve stays_read_pipe2 : bus_leaks.
Lemma stays_read_pipe3 : stays (read_pipe generalWakePipe).
Proof using Type. intros n. unfold read_pipe. stay. Qed.
#[local] Hint Resolve stays_read_pipe3 : bus_leaks.

Lemma stays_poll_failed : stays (poll_failed).
Proof using Type. intros n. unfold poll_failed. stay. Qed.
#[local] Hint Resolve stays_poll_failed : bus_leaks.

(** what a step of another thread may do to the limit *)
Definition limit_kept (op : thread_op (OutMsg := OutMsg)) : Prop :=
  match op with OSetMax n => P n | _ => True end.

Lemma stays_run_thread op : limit_kept op → stays (run_thread cfg op).
Proof using Type.
  intros Hop n. destruct op; cbn [run_thread]; try stay.
  apply guards_modify. intros b [Hn _]. by split.
Qed.

Lemma stays_interrupt p : (∀ k, Forall limit_kept (p_others p k)) → stays (interrupt cfg p).
Proof using Type.
  intros Hp n. unfold interrupt. apply guards_bind; [apply guards_gets|intros k].
  apply guards_bind; [by apply guards_modify|intros _]. apply guards_forM. intros op Hop.
  apply guards_tryM; [|intros ?; apply guards_ret]. apply stays_run_thread.
  by apply (proj1 (Forall_forall _ _) (Hp k)).
Qed.

Section pass.
Context (p : Pass (OutMsg := OutMsg)) (Hp : ∀ k, Forall limit_kept (p_others p k))
  (Hwakes : ∀ i, i ∈ wake_fds cfg → 0 <= i).
Abbreviation bus_ok := (bus_okx cfg [] None None).
Abbreviation meanwhile := (interrupt cfg p).
Let Hmean : stays meanwhile := stays_interrupt p Hp.

Lemma stays_dispatch_read cr k : stays (dispatch_read cfg p cr k).
Proof using Hp.
  intros n. unfold dispatch_read, _handleMessageToSendWakePipe, _handleEventToFireWakePipe, _handleGeneralWakePipe.
  stay; apply stays_repeatM; intros ?; stay.
Qed.

Lemma stays_arm_each sel k socks : stays (arm_each cfg p sel k socks).
Proof using Hp. induction socks as [|s socks IH]; intros n; cbn [arm_each]; stay. Qed.

Lemma both {A} n E (m : M Bus A) :
  stays m → guards bus_ok E m → guards (λ b, leaks n b ∧ bus_ok b) (λ _, True) m.
Proof using Type.
  intros Hl Hb b [Hlb Hbb]. specialize (Hl n b Hlb). specialize (Hb b Hbb). unfold wp in *.
  destruct (m b) as [[?|?] b']; [by split|]. by destruct Hl, Hb.
Qed.

(** Nobody else touches the bytes that are being sent. *)
Lemma leaks_handleWrite n s r :
  guards (λ b, leaks n b ∧ bus_ok b) (λ _, True) (_handleWriteReadySocket meanwhile s r).
Proof using Hp.
  intros b0 [Hl0 Hb0].
  assert (wp (_handleWriteReadySocket meanwhile s r) (λ _, leaks n) (λ _ b', leaks n b' ∧ True) b0) as Hl.
  2: { pose proof (keeps_handleWriteReadySocket cfg [] _ (interrupt_harmless cfg p) (λ _, True) s r b0 Hb0) as Hk.
       unfold wp in *. destruct (_handleWriteReadySocket meanwhile s r b0) as [[?|?] b']; [by split|]. by destruct Hl, Hk. }
  unfold _handleWriteReadySocket. apply wp_gets_bind.
  destruct (socketToBytesNeedingWrite b0 !! s) as [buf|] eqn:Hs0; [|exact Hl0].
  set (I b := leaks n b ∧ socketToBytesNeedingWrite b !! s = Some buf).
  apply wp_bind. eapply (wp_mono _ (λ _, I) _ (λ _ _, False)); [| |done].
  { pose proof (interrupt_harmless cfg p [] b0 Hb0) as Hh. pose proof (Hmean n b0 Hl0) as Hm. unfold wp in *.
    destruct (meanwhile b0) as [[?|?] b1]; [|done]. destruct Hh as [_ Hd]. split; [exact Hm|by apply (dr_need _ _ Hd)]. }
  clear b0 Hl0 Hb0 Hs0. intros _ b Hb.
  apply wp_bind. eapply (wp_mono _ (λ _, I) _ (λ _ b', I b' ∧ True)); [| |by intros ?? [[? _] _]].
  { assert (guards I (λ _, True) (record_send s buf r)) as Hr; [|by apply Hr].
    destruct r; cbn [record_send]; stay. }
  intros _ b1 Hb1. apply wp_bind.
  eapply (wp_mono _ (λ w b', I b' ∧ w <= Z.of_nat (length buf)) _ (λ _ b', I b' ∧ True)); [| |by intros ?? [[? _] _]].
  { destruct r as [k| | | |]; try (by split; [|lia]).
    apply wp_ret. split; [done|]. unfold takes. lia. }
  clear b Hb b1 Hb1. intros w b [[Hb Hs] Hw].
  assert (∀ m : M Bus (option bool), stays m → wp m (λ _, leaks n) (λ _ b', leaks n b' ∧ True) b) as Hstay
    by (intros m Hm; by apply Hm).
  case_bool_decide; [|case_bool_decide; [|case_bool_decide; [|exact Hb]]].
  - apply Hstay. clear. intros n. stay.
  - exact Hb.
  - apply wp_bind, wp_modify, wp_bind, wp_modify, wp_bind, wp_modify.
    pose proof (stays_written s w n b buf Hs ltac:(lia) Hb) as Hb3.
    set (b3 := _ <| socketToBytesNeedingWrite ::= _ |>) in *. clearbody b3. clear -Hb3. revert b3 Hb3.
    match goal with |- ∀ b, _ → wp ?m _ _ b => assert (guards (leaks n) (λ _, True) m) as Hg; [|exact Hg] end.
    stay.
Qed.

Lemma leaks_any_of {A} n (l : list A) acc (f : A → M Bus bool) :
  (∀ x, guards (λ b, leaks n b ∧ bus_ok b) (λ _, True) (f x)) →
  guards (λ b, leaks n b ∧ bus_ok b) (λ _, True) (any_of l acc f).
Proof using Type.
  intros Hf. apply guards_foldM. intros x a _. apply guards_bind; [apply Hf|intros ?; apply guards_ret].
Qed.

Lemma leaks_interrupt n : guards (λ b, leaks n b ∧ bus_ok b) (λ _, True) meanwhile.
Proof using Hp Hwakes. apply (both n (λ _, True)); [exact Hmean|by apply keeps_interrupt]. Qed.

Lemma leaks_socket_pass n sel : guards (λ b, leaks n b ∧ bus_ok b) (λ _, True) (socket_pass cfg p sel).
Proof using Hp Hwakes.
  unfold socket_pass. apply guards_bind; [apply guards_gets|intros cr].
  apply guards_bind; [apply leaks_interrupt|intros _].
  apply guards_bind; [|intros _].
  { destruct cr; [|apply guards_ret]. apply guards_bind; [|intros ?; apply guards_ret].
    unfold _consumeCallbacksOnOutputThread. apply guards_bind; [apply guards_gets|intros l].
    apply (both n (λ _, True)); [apply stays_consume_callbacks|by apply keeps_consume_callbacks]. }
  apply guards_bind; [|intros _].
  { apply (both n (λ _, True)); [intros k; unfold arm_wake_pipe; stay|by apply keeps_arm_wake_pipe]. }
  apply guards_bind; [|intros _].
  { apply (both n size_changed); [|by apply keeps_arm_writes]. intros k. unfold arm_writes.
    apply guards_bind; [apply guards_gets|intros d; apply stays_arm_each]. }
  apply guards_bind; [apply leaks_interrupt|intros _].
  destruct (p_poll p) as [events|].
  - apply guards_bind; [|intros ready].
    { apply (both n (λ _, True)); [apply stays_watcher|]. intros b Hb. by apply wp_kernel_poll. }
    apply guards_bind; [|intros did].
    { apply leaks_any_of. intros k. apply guards_bind; [apply leaks_interrupt|intros _].
      apply (both n (pass_error p)); [apply stays_dispatch_read|by apply keeps_dispatch_read]. }
    apply guards_bind; [|intros did'].
    { apply (both n (λ _, True)); intros *; intros b Hb; unfold wp; rewrite ssl_want_write_run; [exact Hb|].
      destruct Hb as [live Hbufs Htab Hwat Htas Hpip Hev Hst Hit Hfi]. by exists live. }
    apply guards_bind; [|intros ?; apply guards_ret]. case_bool_decide; [|apply guards_ret].
    apply leaks_any_of. intros k. apply guards_bind; [apply leaks_interrupt|intros _].
    destruct k; [apply guards_ret|]. apply guards_bind; [apply leaks_handleWrite|intros ?; apply guards_ret].
  - apply guards_bind; [|intros ?; apply guards_ret].
    apply (both n (λ e, e = ValueError)); [apply stays_poll_failed|]. intros b Hb. by apply wp_poll_failed.
Qed.
End pass.

Definition op_limit_kept (op : bus_op (OutMsg := OutMsg)) : Prop :=
  match op with OThread op => limit_kept op | OPass p _ => ∀ k, Forall limit_kept (p_others p k) end.

Lemma leaks_run_bus n op :
  (∀ i, i ∈ wake_fds cfg → 0 <= i) → op_limit_kept op →
  guards (λ b, leaks n b ∧ bus_okx cfg [] None None b) (λ _, True) (run_bus cfg op).
Proof using Type.
  intros Hwakes Hop. destruct op as [op|p sel]; cbn [run_bus].
  - apply (both n (op_error cfg (OThread op))); [by apply stays_run_thread|exact (run_bus_keeps cfg (OThread op) Hwakes)].
  - apply guards_bind; [by apply leaks_socket_pass|intros ?; apply guards_ret].
Qed.


Lemma stays_start listening : stays (start cfg listening).
Proof using Type. intros n. unfold start, assertM. stay. Qed.
End pending.

Section counts.
Context {InMsg OutMsg : Type} `{SortedSet (Callback InMsg)} (cfg : BusConfig InMsg OutMsg).


Lemma bus_run_counts b : (∀ i, i ∈ wake_fds cfg → 0 <= i) → bus_run cfg b → 0 <= leaked b.
Proof.
  intros Hwakes Hb. enough (leaks (λ _, True) 0 b) as [? _] by done.
  induction Hb as [listening b Hfd Hstart|op b Hb IH].
  - destruct (guards_end _ _ _ new_MessageBus (stays_start cfg (λ _, True) listening 0)) as [Hl _]; [by split|].
    by rewrite Hstart in Hl.
  - apply (guards_end _ _ _ b (leaks_run_bus cfg (λ _, True) 0 op Hwakes ltac:(destruct op as [[]|]; cbn; [done..|];
      intros ?; apply Forall_forall; by intros []))).
    split; [exact IH|by apply bus_run_ok].
Qed.
End counts.

(** ** The guarantees *)

Section guarantees.
Context {InMsg OutMsg : Type} `{SortedSet (Callback InMsg)} (cfg : BusConfig InMsg OutMsg).
Implicit Types (b : MessageBus InMsg) (c s : Z).


Definition connected_by b c s : Prop := has_socket (inc := connIdToIncomingSocket b) (out := connIdToOutgoingSocket b) c s.

(** C9. The tables of the bus mirror each other, every socket of a connection is open and
    has a read buffer, and two connections never share a socket or a descriptor. *)
Theorem connection_tables_agree b :
  (∀ i, i ∈ wake_fds cfg → 0 <= i) → bus_run cfg b →
  (∀ c s, connIdToIncomingSocket b !! c = Some s ↔ socketToIncomingConnId b !! s = Some c) ∧
  (∀ c s, connIdToOutgoingSocket b !! c = Some s ↔ socketToOutgoingConnId b !! s = Some c) ∧
  (∀ c, is_Some (connIdToIncomingSocket b !! c) ↔ is_Some (connIdToIncomingEndpoint b !! c)) ∧
  (∀ c s, connected_by b c s → is_Some (incomingSocketBuffers b !! s) ∧ 0 <= fileno_of b s) ∧
  (∀ c c' s s', connected_by b c s → connected_by b c' s' → fileno_of b s = fileno_of b s' → c = c' ∧ s = s').
Proof.
  intros Hwakes Hb. destruct (bus_run_ok cfg b Hwakes Hb) as [live Hbufs [] [] _ _ _ _ _ _].
  assert (∀ c s, connected_by b c s → s ∈ live) as Hlive by (intros c s [?%tb_in|?%tb_out]; eauto).
  split_and!; [done|done|done| |].
  - intros c s Hs%Hlive. split; [by apply elem_of_dom, Hbufs|].
    destruct (wa_bufs s Hs) as (fd & Hfd & ?). unfold fileno_of. by rewrite Hfd.
  - intros c c' s s' Hs Hs' Heq.
    destruct (wa_bufs s (Hlive _ _ Hs)) as (fd & Hfd & ?), (wa_bufs s' (Hlive _ _ Hs')) as (fd' & Hfd' & ?).
    unfold fileno_of in Heq. rewrite Hfd, Hfd' in Heq. cbn in Heq. subst fd'.
    assert (s = s') as <- by eauto. split; [|done].
    destruct Hs as [Hs%tb_in|Hs%tb_out], Hs' as [Hs'%tb_in|Hs'%tb_out]; try congruence;
      [rewrite (tb_sock_sep _ _ Hs) in Hs'|rewrite (tb_sock_sep _ _ Hs') in Hs]; done.
Qed.

(** the connections for which something in the queues will call [_connectTo] *)
Definition attempts b : list Z :=
  task_list (underlyingQueue (messagesToSendQueue b)) (waitingPuts b) (pendingTimedCallbacks b)
    (drop (eventsTaken b) (eventQueue b)).

(** Every pending outgoing connection has exactly one attempt outstanding, on its way
    through the send queue, the timed callbacks or the event queue, and when [_connectTo]
    runs it finds the endpoint and no socket yet; nothing is attempted that is not pending. *)
Theorem one_attempt_per_connection b :
  (∀ i, i ∈ wake_fds cfg → 0 <= i) → bus_run cfg b →
  NoDup (attempts b) ∧ (∀ c, c ∈ attempts b ↔ c ∈ connIdPendingOutgoingConnection b) ∧
  ∀ c, c ∈ attempts b → is_Some (connIdToOutgoingEndpoint b !! c) ∧ connIdToOutgoingSocket b !! c = None.
Proof.
  intros Hwakes Hb. destruct (bus_run_ok cfg b Hwakes Hb) as [live _ Htab _ [Hnd Hin] _ _ _ _ _].
  split_and!; [done|done|]. intros c Hc%Hin. by apply (tb_pend _ _ _ _ _ _ _ _ _ _ Htab).
Qed.

(** C10. The events the bus fires for a connection come in order: an incoming connection is
    announced first, then come its messages, then that it was closed, and nothing after
    that; while it is not authenticated, it delivers no message. *)
Theorem events_in_order b c :
  (∀ i, i ∈ wake_fds cfg → 0 <= i) → bus_run cfg b →
  (∃ n, tags c (eventQueue b) = TNew :: replicate n TMessage ∨
        tags c (eventQueue b) = TNew :: replicate n TMessage ++ [TClosed] ∨
        tags c (eventQueue b) = replicate n TMessage ∧ connIdToIncomingSocket b !! c = None) ∧
  (c ∈ unauthenticatedConnections b → tags c (eventQueue b) = [TNew]).
Proof.
  intros Hwakes Hb. destruct (bus_run_ok cfg b Hwakes Hb) as [live _ Htab _ _ _ [Hopen Helse _] _ _ _].
  split.
  - destruct (connIdToIncomingSocket b !! c) eqn:Hc.
    + destruct (Hopen c) as (n & Ht & _); [by eexists|]. exists n. by left.
    + destruct (Helse c Hc) as [(n & Ht)|((n & Ht) & _)]; exists n; [right; right|right; left]; done.
  - intros Hu. destruct (Hopen c) as (n & Ht & Hn); [by apply (tb_unauth _ _ _ _ _ _ _ _ _ _ Htab)|].
    rewrite Hn in Ht by done. exact Ht.
Qed.


(** Flow control: while the sockets have at least as many bytes to write as the limit
    of the queue, the loop takes nothing from it. *)
Theorem loop_respects_the_limit b lim :
  (∀ i, i ∈ wake_fds cfg → 0 <= i) → bus_run cfg b → maxBytes (messagesToSendQueue b) = Some lim →
  lim <= sum_pending (socketToBytesNeedingWrite b) → canRead b = false.
Proof.
  intros Hwakes Hb Hm Hlim. apply bus_run_counts in Hb; [|done]. unfold canRead, leaked in *. rewrite Hm. apply bool_decide_eq_false. lia.
Qed.

End guarantees.

(** ** A concrete bus *)

Module BusScenario.
Fixpoint insert_by_time {A} (x : Z * A) (l : list (Z * A)) : list (Z * A) :=
  match l with
  | [] => [x]
  | y :: rest => if bool_decide (x.1 < y.1) then x :: l else y :: insert_by_time x rest
  end.

Lemma insert_by_time_perm {A} (x : Z * A) l : insert_by_time x l ≡ₚ x :: l.
Proof. induction l as [|y l IH]; cbn; [done|]. case_bool_decide; [done|]. rewrite IH. constructor. Qed.

#[local] Instance sorted_set {A} : SortedSet A :=
  {| ss_add := insert_by_time; ss_add_spec x l := or_introl (insert_by_time_perm x l) |}.

Definition hello : bytes := pack_bytes 5.
Definition cfg : BusConfig bytes bytes :=
  {| authToken := Some hello; extraCheck := false; acceptSocket := Some 1; sendWakeFd := 100; fireWakeFd := 101;
     generalWakeFd := 102; serialize := Ok; deserialize := Ok |}.
Definition initial : MessageBus bytes := (start cfg (Some 10) new_MessageBus).2.

Definition pass (reads writes : list Z) (accepted : AcceptResult) (received : RecvResult) :
    bus_op (OutMsg := bytes) :=
  OPass {| p_now := 0; p_times _ := 0;
           p_poll := Some (((λ fd, (fd, true, false)) <$> reads) ++ ((λ fd, (fd, false, true)) <$> writes));
           p_accept := accepted; p_recv _ := received; p_send _ := SendBytes 6; p_others _ := [] |} 0.
Definition idle (reads : list Z) := pass reads [] AcceptOSError RecvError.

(** A connection is asked for and a message is sent on it; it is made; a send takes 6 bytes. *)
Definition asking : list (bus_op (OutMsg := bytes)) := [OThread (OConnect ("peer"%string, 80)); OThread (OSend 1 hello); idle [100]].
Definition connecting := asking ++ [idle []; OThread (OEvent (ConnectOk 2 20)); pass [] [20] AcceptOSError RecvError].
(** A peer connects; a message for it is taken from the queue; it resets the connection. *)
Definition accepting : list (bus_op (OutMsg := bytes)) :=
  [OThread (OSetMax (Some 3)); pass [10] [] (AcceptOk 2 20 ("peer"%string, 80)) RecvError; OThread (OSend 1 hello); idle [100]].
(** A connection is closed while it is being made. *)
Definition closing : list (bus_op (OutMsg := bytes)) :=
  [OThread (OConnect ("peer"%string, 80)); idle [100]; idle []; OThread (OClose 1); OThread (OEvent (ConnectOk 2 20)); idle [101]].

(** The connection is made while the socket thread, in the pass after it was asked for, is
    at its [k]-th interruption. *)
Definition made_at (k : nat) (reads : list Z) : bus_op (OutMsg := bytes) :=
  OPass {| p_now := 0; p_times _ := 0; p_poll := Some ((λ fd, (fd, true, false)) <$> reads);
           p_accept := AcceptOSError; p_recv _ := RecvError; p_send _ := SendBytes 6;
           p_others n := if bool_decide (n = k) then [OEvent (ConnectOk 2 20)] else [] |} 0.
Definition waiting : list (bus_op (OutMsg := bytes)) :=
  [OThread (OConnect ("peer"%string, 80)); idle [100]; idle []; OThread (OSend 1 hello)].

Definition asked := run_ops cfg asking initial.
Definition connected := run_ops cfg connecting initial.
Definition accepted := run_ops cfg accepting initial.
Definition closed := run_ops cfg closing initial.

Lemma bus_reached ops : bus_run cfg (run_ops cfg ops initial).
Proof.
  apply bus_run_ops, (bus_started cfg (Some 10)); [|by vm_compute].
  intros fd [= <-]. split; [lia|]. unfold wake_fds. cbn. rewrite !elem_of_cons, elem_of_nil. lia.
Qed.

Lemma wakes_ok i : i ∈ wake_fds cfg → 0 <= i.
Proof. unfold wake_fds. cbn. rewrite !elem_of_cons, elem_of_nil. intros [->|[->|[->|[]]]]; lia. Qed.

Lemma connected_socket : connIdToOutgoingSocket connected !! 1 = Some 2.
Proof. vm_compute. reflexivity. Qed.
End BusScenario.
#[local] Existing Instance BusScenario.sorted_set.

(** A connection that is closed while it is being made is reported closed first and
    established afterwards. *)
Theorem established_after_closed :
  bus_run BusScenario.cfg BusScenario.closed ∧
  eventQueue BusScenario.closed =
    [ECallback (CbConnectTo 1); EEvent (OutgoingConnectionClosed 1); EEvent (OutgoingConnectionEstablished 1)].
Proof. split; [apply BusScenario.bus_reached|by vm_compute]. Qed.

(** A message is looked up while its connection is being made and kept when it has been made:
    it stays among the messages for unconnected connections, and nothing is left to write
    but the token. *)
Example a_message_is_lost :
  let b := run_ops BusScenario.cfg (BusScenario.waiting ++ [BusScenario.made_at 14 [100]]) BusScenario.initial in
  lost b = {[1]} ∧ messagesForUnconnectedOutgoingConnection b !! 1 = Some [BusScenario.hello] ∧
  connIdToOutgoingSocket b !! 1 = Some 2 ∧
  socketToBytesNeedingWrite b !! 2 = Some (frame false BusScenario.hello) ∧
  handed (authToken BusScenario.cfg) (itemsTaken b) 1 = [BusScenario.hello; BusScenario.hello].
Proof. vm_compute. repeat split. Qed.

(** The connection is made while the socket thread iterates over the sockets to write to:
    the iteration fails, and with it the pass. *)
Example the_iteration_fails :
  let b := run_ops BusScenario.cfg BusScenario.waiting BusScenario.initial in
  (run_bus BusScenario.cfg (BusScenario.made_at 10 [100]) b).1 = Raise RuntimeError.
Proof. vm_compute. reflexivity. Qed.


Lemma connection_tables_agree_witness :
  is_Some (incomingSocketBuffers BusScenario.connected !! 2) ∧ 0 <= fileno_of BusScenario.connected 2.
Proof.
  destruct (connection_tables_agree BusScenario.cfg BusScenario.connected)
    as (_ & _ & _ & Hopen & _); [exact BusScenario.wakes_ok|apply BusScenario.bus_reached|].
  exact (Hopen 1 2 (or_intror BusScenario.connected_socket)).
Defined.

Lemma one_attempt_per_connection_witness :
  connIdToOutgoingSocket BusScenario.asked !! 1 = None ∧ attempts BusScenario.asked = [1].
Proof.
  split; [|vm_compute; reflexivity].
  destruct (one_attempt_per_connection BusScenario.cfg BusScenario.asked) as (_ & _ & Hep);
    [exact BusScenario.wakes_ok|apply BusScenario.bus_reached|].
  apply (Hep 1). assert (attempts BusScenario.asked = [1]) as -> by (vm_compute; reflexivity). by left.
Defined.

Lemma events_in_order_witness : tags 1 (eventQueue BusScenario.accepted) = [TNew].
Proof.
  apply (events_in_order BusScenario.cfg BusScenario.accepted 1);
    [exact BusScenario.wakes_ok|apply BusScenario.bus_reached|].
  assert (unauthenticatedConnections BusScenario.accepted = {[1]}) as -> by (vm_compute; reflexivity).
  by apply elem_of_singleton.
Defined.


Lemma loop_respects_the_limit_witness : canRead BusScenario.accepted = false.
Proof.
  apply (loop_respects_the_limit BusScenario.cfg BusScenario.accepted 3);
    [exact BusScenario.wakes_ok|apply BusScenario.bus_reached|vm_compute; reflexivity|vm_compute; discriminate].
Defined.

