(* ===== verification/Connection.v ===== *)
(** * The client's connection ([DatabaseConnection] in [object_database/database_connection.py])

    The connection writes requests to its channel, and handles the messages of the server
    one by one.  User threads wait on [threading.Event]s that the handler sets: the events
    live in a heap and are referred to by numbers, [ev_set] has those that were set.  A
    call that waits is split there: the part before returns the events, [after_wait] is
    the part after.  The versioned objects are kept by a C++ object, [_connection_state]:
    [conn_log] records the calls made on it in order, next to the messages written and
    the callbacks called.  What it answers (new identities) is an argument. *)

From stdpp Require Import options.
From S2P Require Import Prelude Schema Messages.

Local Open Scope Z_scope.

(** [TransactionResult] *)
Inductive CommitOutcome :=
  | CommitSuccess
  | RevisionConflict (key : BadKey)
  | ServerException (traceback : BadKey)
  | CommitDisconnected.

(** the calls on [_connection_state] that change it *)
Inductive StateCall :=
  | SetIdentityRoot (root : Z)
  | SetFieldId (schema typename fieldname : string) (fieldId : FieldId)
  | IncomingTransaction (tid : option Z)      (* [None]: the result of [getMinTid()] *)
      (writes : gmap ObjectFieldId (option bytes)) (set_adds set_removes : gmap IndexId (list ObjectId))
  | MarkTypeSubscribed (schema typename : string) (tid : Z)
  | MarkObjectSubscribed (oid : ObjectId) (tid : Z)
  | MarkObjectLazy (schema typename : string) (oid : ObjectId)
  | MarkObjectNotLazy (oid : ObjectId)
  | DropTriggerLazyLoad.

Inductive ConnEffect :=
  | CWrote (msg : ClientToServer)
  | CSent (msg : ClientToServer)                     (* [sendMessage], at once *)
  | CState (call : StateCall)
  | CCallback (callback : nat) (result : CommitOutcome)
  | CHandler (handler : nat) (tid : Z)
  | CClosed (block : bool)
  | CStopHeartbeating.

(** a transaction handler: one that a user registered, or that of [waitForTransactionId] *)
Inductive Handler := HUser (k : nat) | HWaitFor (tid : Z) (event : nat).
#[export] Instance Handler_eq_dec : EqDecision Handler.
Proof. solve_decision. Defined.
#[export] Instance Handler_countable : Countable Handler.
Proof.
  refine (inj_countable' (λ h, match h with HUser k => inl k | HWaitFor t e => inr (t, e) end)
    (λ x, match x with inl k => HUser k | inr (t, e) => HWaitFor t e end) _). by intros [].
Defined.

(** [(schema, typename, fieldname_and_value)] *)
Abbreviation SubKey := (string * string * option (string * IndexValue))%type.

(** an entry of [_subscription_buildup] *)
Record Buildup := {
  bu_values : gmap ObjectFieldId (option bytes);
  bu_index_values : gmap ObjectFieldId (option IndexValue);
  bu_identities : option (list ObjectId);
  bu_markedLazy : bool;
}.
#[export] Instance Buildup_settable : Settable Buildup := λ r,
  {| bu_values := bu_values r; bu_index_values := bu_index_values r; bu_identities := bu_identities r;
     bu_markedLazy := bu_markedLazy r |}.

(** A schema object; equality of schemas is that of the objects. *)
Record SchemaObj := { so_ref : nat; so_name : string; so_definition : SchemaDefinition }.

Record DatabaseConnection := {
  auth_token : option string;
  transaction_callbacks : gmap Z nat;
  cur_transaction_num : Z;
  lazy_object_read_blocks : gmap ObjectId nat;
  initialized : bool;
  disconnected : bool;
  schema_response_events : gmap string nat;
  fields_to_field_ids : gmap FieldDefinition FieldId;
  field_id_to_schema_and_typename : gmap FieldId (string * string);
  field_id_to_field_def : gmap FieldId FieldDefinition;
  connectionObject : option ObjectId;
  onTransactionHandlers : gset Handler;
  flushEvents : gmap Z nat;
  schemas : gset nat;
  messages_received : Z;
  (* its keys are tuples of length three, [(k, None)], or four *)
  pendingSubscriptions : gmap (SubKey * option bool) nat;
  subscription_buildup : gmap SubKey Buildup;
  flushIx : Z;
  largeSubscriptionHeartbeatDelay : nat;
  max_tid_by_schema : gmap string Z;
  max_tid_by_schema_and_type : gmap (string * string) Z;
  ev_next : nat;
  ev_set : gset nat;
  clock_reads : nat;
  conn_log : list ConnEffect;
}.
#[export] Instance DatabaseConnection_settable : Settable DatabaseConnection := λ r,
  {| auth_token := auth_token r; transaction_callbacks := transaction_callbacks r;
     cur_transaction_num := cur_transaction_num r; lazy_object_read_blocks := lazy_object_read_blocks r;
     initialized := initialized r; disconnected := disconnected r;
     schema_response_events := schema_response_events r; fields_to_field_ids := fields_to_field_ids r;
     field_id_to_schema_and_typename := field_id_to_schema_and_typename r;
     field_id_to_field_def := field_id_to_field_def r; connectionObject := connectionObject r;
     onTransactionHandlers := onTransactionHandlers r; flushEvents := flushEvents r; schemas := schemas r;
     messages_received := messages_received r; pendingSubscriptions := pendingSubscriptions r;
     subscription_buildup := subscription_buildup r; flushIx := flushIx r;
     largeSubscriptionHeartbeatDelay := largeSubscriptionHeartbeatDelay r;
     max_tid_by_schema := max_tid_by_schema r; max_tid_by_schema_and_type := max_tid_by_schema_and_type r;
     ev_next := ev_next r; ev_set := ev_set r; clock_reads := clock_reads r; conn_log := conn_log r |}.

(** [__init__] *)
Definition new_DatabaseConnection : DatabaseConnection :=
  {| auth_token := None; transaction_callbacks := ∅; cur_transaction_num := 0; lazy_object_read_blocks := ∅;
     initialized := false; disconnected := false; schema_response_events := ∅; fields_to_field_ids := ∅;
     field_id_to_schema_and_typename := ∅; field_id_to_field_def := ∅; connectionObject := None;
     onTransactionHandlers := ∅; flushEvents := ∅; schemas := ∅; messages_received := 0;
     pendingSubscriptions := ∅; subscription_buildup := ∅; flushIx := 0; largeSubscriptionHeartbeatDelay := 0;
     max_tid_by_schema := ∅; max_tid_by_schema_and_type := ∅; ev_next := 0; ev_set := ∅; clock_reads := 0;
     conn_log := [] |}.

Definition DisconnectedException : exn := UserException "DisconnectedException".

Section connection.
(** the readings of [time.time()], and [getHeartbeatInterval()] *)
Context (clock : nat → Z) (heartbeatInterval : Z).
Abbreviation Conn := (M DatabaseConnection).

Definition emit (e : ConnEffect) : Conn unit := modify (λ s, s <| conn_log ::= λ l, l ++ [e] |>).
Definition write (msg : ClientToServer) : Conn unit := emit (CWrote msg).
Definition state_call (call : StateCall) : Conn unit := emit (CState call).

(** [threading.Event()], [e.set()], [time.time()] *)
Definition new_event : Conn nat :=
  e ← gets ev_next; modify (λ s, s <| ev_next ::= S |>);; mret e.
Definition set_event (e : nat) : Conn unit := modify (λ s, s <| ev_set ::= λ u, {[e]} ∪ u |>).
Definition time_time : Conn Z :=
  n ← gets clock_reads; modify (λ s, s <| clock_reads ::= S |>);; mret (clock n).

Definition check_connected : Conn unit :=
  gone ← gets disconnected; whenM gone (raise DisconnectedException).

(** ** Transaction numbers and handlers *)

Definition registerOnTransactionHandler (h : Handler) : Conn unit :=
  modify (λ s, s <| onTransactionHandlers ::= λ x, {[h]} ∪ x |>).
Definition dropTransactionHandler (h : Handler) : Conn unit :=
  modify (λ s, s <| onTransactionHandlers ::= λ x, x ∖ {[h]} |>).

Definition currentTransactionIdForSchema (schema : string) (s : DatabaseConnection) : Z :=
  default 0 (max_tid_by_schema s !! schema).
Definition currentTransactionIdForType (schema typename : string) (s : DatabaseConnection) : Z :=
  default 0 (max_tid_by_schema_and_type s !! (schema, typename)).

(** [waitForTransactionId] up to the wait: the handler that waits, if there is a reason to *)
Definition waitForTransactionId (tid : Z) : Conn (option Handler) :=
  cur ← gets cur_transaction_num;
  if bool_decide (cur < tid) then
    e ← new_event;
    registerOnTransactionHandler (HWaitFor tid e);; mret (Some (HWaitFor tid e))
  else mret None.

(** ** Disconnecting *)

Definition _onDisconnected : Conn unit :=
  modify (λ s, s <| connectionObject := None |>);;
  state_call DropTriggerLazyLoad;;
  modify (λ s, s <| disconnected := true |>);;
  blocks ← gets lazy_object_read_blocks; forM (map_to_list blocks).*2 set_event;;
  flushes ← gets flushEvents; forM (map_to_list flushes).*2 set_event;;
  subs ← gets pendingSubscriptions; forM (map_to_list subs).*2 set_event;;
  defs ← gets schema_response_events; forM (map_to_list defs).*2 set_event;;
  callbacks ← gets transaction_callbacks;
  forM (map_to_list callbacks).*2 (λ q, emit (CCallback q CommitDisconnected));;
  modify (λ s, s <| transaction_callbacks := ∅ |>);;
  modify (λ s, s <| flushEvents := ∅ |>).

Definition disconnect (block : bool) : Conn unit := _onDisconnected;; emit (CClosed block).

Definition authenticate (token : string) : Conn unit :=
  old ← gets auth_token;
  assertM (bool_decide (old = None));;
  modify (λ s, s <| auth_token := Some token |>);;
  write (Authenticate token).

(** ** Requests *)

(** [addSchema] up to the wait; the event to wait for *)
Definition addSchema (schema : SchemaObj) : Conn nat :=
  known ← gets schemas;
  whenM (bool_decide (so_ref schema ∉ known)) (
    modify (λ s, s <| schemas ::= λ x, {[so_ref schema]} ∪ x |>);;
    write (DefineSchema (so_name schema) (so_definition schema));;
    e ← new_event;
    modify (λ s, s <| schema_response_events ::= <[so_name schema := e]> |>));;
  events ← gets schema_response_events;
  lift_option KeyError (events !! so_name schema).

(** the end of [addSchema], [flush] and [subscribeMultiple]: each wait has returned
    whether its event was set *)
Definition after_wait (waited : list bool) : Conn unit :=
  whenM (negb (forallb id waited)) (raise (UserException "timeout"));;
  check_connected.

(** [addSchema] in full; [waited]: what [e.wait] returned, if it is called *)
Definition addSchema_blocking (schema : SchemaObj) (waited : option bool) : Conn unit :=
  addSchema schema;; after_wait (option_list waited).

Definition flush : Conn nat :=
  check_connected;;
  modify (λ s, s <| flushIx ::= λ n, n + 1 |>);;
  ix ← gets flushIx;
  e ← new_event;
  modify (λ s, s <| flushEvents ::= <[ix := e]> |>);;
  write (Flush ix);;
  mret e.

(** one turn of the loop of [subscribeMultiple], on [(key, isLazy)] *)
Definition subscribe_one (tup : SubKey * bool) : Conn nat :=
  pending ← gets pendingSubscriptions;
  match pending !! (tup.1, Some tup.2) with
  | Some e => mret e
  | None =>
      e ← new_event;
      modify (λ s, s <| pendingSubscriptions ::= <[(tup.1, None) := e]> |>);;
      assertM (bool_decide (tup.1.1.1 ≠ "") && bool_decide (tup.1.1.2 ≠ ""));;
      write (Subscribe tup.1.1.1 tup.1.1.2 tup.1.2 tup.2);;
      mret e
  end.

Definition subscribeMultiple (subscriptionTuples : list (SubKey * bool)) : Conn (list nat) :=
  check_connected;;
  mapM subscriptionTuples subscribe_one.

Definition subscribeToNone (schema : SchemaObj) (typename : string) (waited : option bool) : Conn unit :=
  addSchema_blocking schema waited;;
  write (SubscribeNone (so_name schema) typename).

(** an object: the schema and name of its type, and [indexValueFor] of the object *)
Definition subscribeToObjects (objects : list (SchemaObj * string * IndexValue)) (waited : option bool) :
    Conn (list nat) :=
  forM objects (λ t, addSchema_blocking t.1.1 waited);;
  subscribeMultiple ((λ t, (so_name t.1.1, t.1.2, Some ("_identity"%string, t.2), false)) <$> objects).

Definition _lazinessForType (lazyByDefault : bool) (desiredLaziness : option bool) : bool :=
  default lazyByDefault desiredLaziness.

Definition index_tuples (schema typename : string) (lazyByDefault : bool) (lazySubscription : option bool)
    (kwarg : list (string * IndexValue)) : list (SubKey * bool) :=
  (λ fv, (schema, typename, Some fv, _lazinessForType lazyByDefault lazySubscription)) <$> kwarg.

Definition subscribeToIndex (schema : SchemaObj) (typename : string) (lazyByDefault : bool)
    (lazySubscription : option bool) (kwarg : list (string * IndexValue)) (waited : option bool) :
    Conn (list nat) :=
  addSchema_blocking schema waited;;
  subscribeMultiple (index_tuples (so_name schema) typename lazyByDefault lazySubscription kwarg).

Definition is_subscribed_call (schema typename : string) (e : ConnEffect) : bool :=
  match e with
  | CState (MarkTypeSubscribed schema' typename' _) =>
      bool_decide (schema' = schema) && bool_decide (typename' = typename)
  | _ => false
  end.

(** [typeSubscriptionLowestTransaction(…) is not None]: it was once marked *)
Definition isSubscribedToType (schema typename : string) (s : DatabaseConnection) : bool :=
  existsb (is_subscribed_call schema typename) (conn_log s).
Definition isSubscribedToSchema (schema : string) (types : list string) (s : DatabaseConnection) : bool :=
  forallb (λ t, isSubscribedToType schema t s) types.

Definition subscribeToType (schema : SchemaObj) (typename : string) (lazyByDefault : bool)
    (lazySubscription : option bool) (waited : option bool) : Conn (list nat) :=
  addSchema_blocking schema waited;;
  known ← gets (isSubscribedToType (so_name schema) typename);
  if known : bool then mret []
  else subscribeMultiple [(so_name schema, typename, None, _lazinessForType lazyByDefault lazySubscription)].

(** [types s]: the types of [s._types] with their default laziness *)
Definition subscribeToSchema (ss : list SchemaObj) (types : SchemaObj → list (string * bool))
    (lazySubscription : option bool) (excluding : list (string * string)) (waited : option bool) :
    Conn (list nat) :=
  forM ss (λ s, addSchema_blocking s waited);;
  known ← gets (λ s schema typename, isSubscribedToType schema typename s);
  let unsubscribed := s ← ss; omap (λ t,
    if known (so_name s) t.1 || bool_decide ((so_name s, t.1) ∈ excluding) then None
    else Some (so_name s, t.1, None, _lazinessForType t.2 lazySubscription)) (types s) in
  if bool_decide (unsubscribed = []) then mret [] else subscribeMultiple unsubscribed.

(** [isSubscribedToIndex]: is there a set event for each of the tuples? *)
Definition isSubscribedToIndex (schema : SchemaObj) (typename : string) (kwarg : list (string * IndexValue))
    (s : DatabaseConnection) : bool :=
  bool_decide (so_ref schema ∈ schemas s) &&
  forallb (λ fv, match pendingSubscriptions s !! (so_name schema, typename, Some fv, None) with
                 | Some e => bool_decide (e ∈ ev_set s)
                 | None => false
                 end) kwarg.

(** [view] and [transaction]: the transaction number that is opened *)
Definition view (transaction_id : option Z) : Conn Z :=
  check_connected;;
  cur ← gets cur_transaction_num;
  let tid := default cur transaction_id in
  assertM (bool_decide (tid <= cur));;
  mret tid.

(** ** Lazy objects *)

Definition _loadLazyObject (identity : ObjectId) (schemaName typeName : string) : Conn nat :=
  blocks ← gets lazy_object_read_blocks;
  match blocks !! identity with
  | Some e => mret e
  | None =>
      e ← new_event;
      modify (λ s, s <| lazy_object_read_blocks ::= <[identity := e]> |>);;
      write (LoadLazyObject schemaName typeName identity);;
      mret e
  end.
Definition requestLazyObjects (objects : list (ObjectId * string * string)) : Conn unit :=
  forM objects (λ o, _loadLazyObject o.1.1 o.1.2 o.2;; mret tt).

(** ** Messages of the server *)

Definition raise_to (tid old : Z) : Z := if bool_decide (old < tid) then tid else old.

Definition _markSchemaAndTypeMaxTids (fieldIds : gset FieldId) (tid : Z) : Conn unit :=
  forM (elements fieldIds) (λ fieldId,
    defs ← gets field_id_to_field_def;
    match defs !! fieldId with
    | None => mret tt
    | Some fieldDef =>
        existing ← gets (λ s, default 0 (max_tid_by_schema s !! fd_schema fieldDef));
        whenM (bool_decide (existing < tid))
          (modify (λ s, s <| max_tid_by_schema ::= <[fd_schema fieldDef := tid]> |>));;
        existing ← gets (λ s, default 0 (max_tid_by_schema_and_type s !! (fd_schema fieldDef, fd_typename fieldDef)));
        whenM (bool_decide (existing < tid))
          (modify (λ s, s <| max_tid_by_schema_and_type ::= <[(fd_schema fieldDef, fd_typename fieldDef) := tid]> |>))
    end).

(** one turn of the loop of [_indexValuesToSetAdds], with the time of the last heartbeat *)
Definition set_add (iv : ObjectFieldId) (val : option IndexValue)
    (acc : gmap IndexId (gset ObjectId) * Z) : Conn (gmap IndexId (gset ObjectId) * Z) :=
  match val with
  | None => mret acc
  | Some v =>
      let setAdds := mm_add (IXI (ofiFieldId iv) v) (objId iv) acc.1 in
      now ← time_time;
      if bool_decide (heartbeatInterval < now - acc.2) then
        emit (CSent Heartbeat);; t0 ← time_time; mret (setAdds, t0)
      else mret (setAdds, acc.2)
  end.

Definition _indexValuesToSetAdds (indexValues : gmap ObjectFieldId (option IndexValue)) :
    Conn (gmap IndexId (list ObjectId)) :=
  t0 ← time_time;
  r ← foldM (map_to_list indexValues) (∅, t0) (λ x acc, set_add x.1 x.2 acc);
  mret (elements <$> r.1).

Definition field_ids {V} (m : gmap ObjectFieldId V) : gset FieldId := set_map ofiFieldId (dom m).

(** the transaction handlers, called in some order *)
Definition call_handler (tid : Z) (h : Handler) : Conn unit :=
  match h with
  | HUser k => emit (CHandler k tid)
  | HWaitFor t e => whenM (bool_decide (t <= tid)) (set_event e)
  end.

Definition onTransaction (writes : gmap ObjectFieldId (option bytes)) (set_adds set_removes : gmap IndexId (list ObjectId))
    (tid : Z) : Conn unit :=
  _markSchemaAndTypeMaxTids (field_ids writes) tid;;
  state_call (IncomingTransaction (Some tid) writes set_adds set_removes);;
  modify (λ s, s <| cur_transaction_num := tid |>);;
  handlers ← gets onTransactionHandlers;
  forM (elements handlers) (call_handler tid).

Definition onSchemaMapping (schema : string) (mapping : gmap FieldDefinition FieldId) : Conn unit :=
  forM (map_to_list mapping) (λ x,
    let (fieldDef, fieldId) := x : FieldDefinition * FieldId in
    modify (λ s, s <| field_id_to_field_def ::= <[fieldId := fieldDef]> |>);;
    modify (λ s, s <| fields_to_field_ids ::= <[fieldDef := fieldId]> |>);;
    modify (λ s, s <| field_id_to_schema_and_typename ::= <[fieldId := (fd_schema fieldDef, fd_fieldname fieldDef)]> |>);;
    state_call (SetFieldId (fd_schema fieldDef) (fd_typename fieldDef) (fd_fieldname fieldDef) fieldId));;
  events ← gets schema_response_events;
  e ← lift_option KeyError (events !! schema);
  set_event e.

Definition new_buildup : Buildup :=
  {| bu_values := ∅; bu_index_values := ∅; bu_identities := None; bu_markedLazy := false |}.

Definition onSubscriptionData (k : SubKey) (values : gmap ObjectFieldId (option bytes))
    (index_values : gmap ObjectFieldId (option IndexValue)) (identities : option (list ObjectId)) : Conn unit :=
  known ← gets (λ s, subscription_buildup s !! k);
  match known with
  | None => modify (λ s, s <| subscription_buildup ::= <[k := new_buildup]> |>)
  | Some b => assertM (negb (bu_markedLazy b))
  end;;
  modify (λ s, s <| subscription_buildup ::= alter (λ b, b <| bu_values ::= union values |>) k |>);;
  modify (λ s, s <| subscription_buildup ::= alter (λ b, b <| bu_index_values ::= union index_values |>) k |>);;
  match identities with
  | None => mret tt
  | Some ids => modify (λ s, s <| subscription_buildup ::=
      alter (λ b, b <| bu_identities ::= λ old, Some (elements (list_to_set (default [] old) ∪ list_to_set ids : gset ObjectId)) |>) k |>)
  end.

Definition onLazySubscriptionData (k : SubKey) (identities : list ObjectId)
    (index_values : gmap ObjectFieldId (option IndexValue)) : Conn unit :=
  known ← gets (λ s, subscription_buildup s !! k);
  assertM (bool_decide (known = None));;
  modify (λ s, s <| subscription_buildup ::=
    <[k := {| bu_values := ∅; bu_index_values := index_values; bu_identities := Some identities; bu_markedLazy := true |}]> |>).

(** [for i in identities]: [None] cannot be iterated over *)
Definition for_identities (identities : option (list ObjectId)) (f : ObjectId → Conn unit) : Conn unit :=
  match identities with None => raise TypeError | Some ids => forM ids f end.

Definition onSubscriptionComplete (k : SubKey) (tid : Z) : Conn unit :=
  pending ← gets pendingSubscriptions;
  match pending !! (k, None) with
  | None => mret tt
  | Some event =>
      buildups ← gets subscription_buildup;
      b ← lift_option KeyError (buildups !! k);
      modify (λ s, s <| subscription_buildup ::= delete k |>);;
      _markSchemaAndTypeMaxTids (field_ids (bu_values b)) tid;;
      sets ← _indexValuesToSetAdds (bu_index_values b);
      match k.2 with
      | None => state_call (MarkTypeSubscribed k.1.1 k.1.2 tid)
      | Some _ => for_identities (bu_identities b) (λ oid, state_call (MarkObjectSubscribed oid tid))
      end;;
      delay ← gets largeSubscriptionHeartbeatDelay;
      forM (replicate delay tt) (λ _, emit (CSent Heartbeat));;
      whenM (bu_markedLazy b)
        (for_identities (bu_identities b) (λ i, state_call (MarkObjectLazy k.1.1 k.1.2 i)));;
      state_call (IncomingTransaction (Some tid) (bu_values b) sets ∅);;
      cur ← gets cur_transaction_num;
      assertM (bool_decide (cur <= tid));;
      modify (λ s, s <| cur_transaction_num := tid |>);;
      set_event event
  end.

Definition onLazyLoadResponse (identity : ObjectId) (values : gmap ObjectFieldId (option bytes)) : Conn unit :=
  state_call (IncomingTransaction None values ∅ ∅);;
  state_call (MarkObjectNotLazy identity);;
  blocks ← gets lazy_object_read_blocks;
  modify (λ s, s <| lazy_object_read_blocks ::= delete identity |>);;
  match blocks !! identity with Some e => set_event e | None => mret tt end.

Definition onFlushResponse (guid : Z) : Conn unit :=
  flushes ← gets flushEvents;
  modify (λ s, s <| flushEvents ::= delete guid |>);;
  match flushes !! guid with Some e => set_event e | None => mret tt end.

(** The callback is popped before its argument is made. *)
(** The argument of the callback; [None]: the key has not the type that the alternative requires,
    which raises [TypeError]. *)
Definition commit_outcome (success : bool) (badKey : BadKey) (isException : bool) : option CommitOutcome :=
  if success then Some CommitSuccess
  else if negb isException then match badKey with NoBadKey => None | _ => Some (RevisionConflict badKey) end
  else match badKey with BadText _ => Some (ServerException badKey) | _ => None end.

(** The callback is taken before its argument is made; exceptions are logged. *)
Definition onTransactionResult (guid : Z) (success : bool) (badKey : BadKey) (isException : bool) : Conn unit :=
  callbacks ← gets transaction_callbacks;
  match callbacks !! guid with
  | None => mret tt
  | Some q =>
      modify (λ s, s <| transaction_callbacks ::= delete guid |>);;
      match commit_outcome success badKey isException with
      | Some result => emit (CCallback q result)
      | None => mret tt
      end
  end.

Definition _onMessage (msg : ServerToClient) : Conn unit :=
  modify (λ s, s <| messages_received ::= λ n, n + 1 |>);;
  match msg with
  | Disconnected => _onDisconnected
  | FlushResponse guid => onFlushResponse guid
  | Initialize transaction_num connIdentity identity_root =>
      modify (λ s, s <| cur_transaction_num := transaction_num |>);;
      state_call (SetIdentityRoot (Identity.IDENTITY_BLOCK_SIZE * identity_root));;
      modify (λ s, s <| connectionObject := Some connIdentity |>);;
      modify (λ s, s <| initialized := true |>)
  | TransactionResult guid success badKey isException => onTransactionResult guid success badKey isException
  | Transaction writes set_adds set_removes tid => onTransaction writes set_adds set_removes tid
  | SchemaMapping schema mapping => onSchemaMapping schema mapping
  | SubscriptionIncrease _ _ _ identities tid =>
      forM identities (λ oid, state_call (MarkObjectSubscribed oid tid))
  | SubscriptionData schema typename fv values index_values identities =>
      onSubscriptionData (schema, typename, fv) values index_values identities
  | LazyTransactionPriors writes => state_call (IncomingTransaction None writes ∅ ∅)
  | LazyLoadResponse identity values => onLazyLoadResponse identity values
  | LazySubscriptionData schema typename fv identities index_values =>
      onLazySubscriptionData (schema, typename, fv) identities index_values
  | SubscriptionComplete schema typename fv tid => onSubscriptionComplete (schema, typename, fv) tid
  | DependentConnectionId _ _ _ => raise AssertionError
  end.

(** ** Sending a transaction

    [guid] is the new identity that [_connection_state] allocates.  The dictionary of
    prerequisites is computed and thrown away, so the prerequisites are always empty. *)

Definition maxKeys : Z := 10000.
Definition maxMembers : Z := 100000.

Definition send_chunk (msg : ClientToServer) : Conn unit := write msg;; write Heartbeat.

(** one turn of the loop over [key_value] *)
Definition add_write (guid : Z) (kv : ObjectFieldId * option bytes) (out : gmap ObjectFieldId (option bytes)) :
    Conn (gmap ObjectFieldId (option bytes)) :=
  let out := <[kv.1 := kv.2]> out in
  if bool_decide (maxKeys < Z.of_nat (size out)) then
    send_chunk (TransactionData out ∅ ∅ [] [] guid ∅);; mret ∅
  else mret out.

(** one turn of the loops over [set_adds] and [set_removes], for which [mk] makes the message *)
Definition add_set (mk : gmap IndexId (list ObjectId) → ClientToServer) (kv : IndexId * gset ObjectId)
    (acc : gmap IndexId (list ObjectId) * Z) : Conn (gmap IndexId (list ObjectId) * Z) :=
  let out := <[kv.1 := elements kv.2]> acc.1 in
  let ct := acc.2 + Z.of_nat (size kv.2) in
  if bool_decide (maxKeys < Z.of_nat (size out)) || bool_decide (maxMembers < ct) then
    send_chunk (mk out);; mret (∅, 0)
  else mret (out, ct).

(** [while len(keys) > 10000]; the list gets shorter every time, so its length is fuel enough *)
Fixpoint send_keys {K} (send : list K → Conn unit) (fuel : nat) (keys : list K) : Conn (list K) :=
  match fuel with
  | O => mret keys
  | S fuel =>
      if bool_decide (maxKeys < Z.of_nat (length keys)) then
        send (take (Z.to_nat maxKeys) keys);;
        send_keys send fuel (drop (Z.to_nat maxKeys) keys)
      else mret keys
  end.

Definition send_transaction (guid : Z) (key_value : gmap ObjectFieldId (option bytes))
    (set_adds set_removes : gmap IndexId (gset ObjectId)) (keys : list ObjectFieldId)
    (indices : list IndexId) (as_of_version : Z) (no_log : bool) : Conn unit :=
  out_writes ← foldM (map_to_list key_value) ∅ (add_write guid);
  adds ← foldM (map_to_list set_adds) (∅, 0) (add_set (λ out, TransactionData ∅ out ∅ [] [] guid ∅));
  removes ← foldM (map_to_list set_removes) (∅, 0) (add_set (λ out, TransactionData ∅ ∅ out [] [] guid ∅));
  keys ← send_keys (λ l, send_chunk (TransactionData ∅ ∅ ∅ l [] guid ∅)) (length keys) keys;
  indices ← send_keys (λ l, write (TransactionData ∅ ∅ ∅ [] l guid ∅)) (length indices) indices;
  write (TransactionData out_writes adds.1 removes.1 keys indices guid ∅);;
  write (CompleteTransaction as_of_version guid no_log).

Definition _createTransaction (guid : Z) (key_value : gmap ObjectFieldId (option bytes))
    (set_adds set_removes : gmap IndexId (gset ObjectId)) (keys : list ObjectFieldId)
    (indices : list IndexId) (as_of_version : Z) (confirmCallback : nat) (no_log : bool) : Conn unit :=
  gone ← gets disconnected;
  if gone : bool then emit (CCallback confirmCallback CommitDisconnected)
  else
    modify (λ s, s <| transaction_callbacks ::= <[guid := confirmCallback]> |>);;
    send_transaction guid key_value set_adds set_removes keys indices as_of_version no_log.
End connection.
