(* ===== verification/ClientCommit.v ===== *)
(** * A transaction on its way from a client to the server

    [_createTransaction] cuts a transaction into messages of bounded size, and the server
    puts the pieces together again ([handleTransactionData]).  The pieces that the client
    sends merge to exactly the transaction. *)

From Stdlib Require Import Lia.
From stdpp Require Import options.
From S2P Require Import Prelude Schema Messages Persistence ServerState Server ServerConn ServerOps Connection.

Local Open Scope Z_scope.

(** what the server makes of the effects of a client that sends one transaction *)
Definition merge_effect (t : PendingTransaction) (e : ConnEffect) : PendingTransaction :=
  match e with
  | CWrote (TransactionData w sa sr kv iv _ pre) => merge_chunk w sa sr kv iv pre t
  | _ => t
  end.
Definition merge_effects (l : list ConnEffect) (t : PendingTransaction) : PendingTransaction :=
  foldl merge_effect t l.

Lemma merge_effects_app l l' t : merge_effects (l ++ l') t = merge_effects l' (merge_effects l t).
Proof. apply foldl_app. Qed.

(** a heartbeat, or a piece of transaction [guid] with at most [maxKeys + 1] keys of each kind *)
Definition piece (guid : Z) (e : ConnEffect) : Prop :=
  match e with
  | CWrote Heartbeat => True
  | CWrote (TransactionData w sa sr kv iv g pre) =>
      g = guid ∧ Z.of_nat (size w) <= maxKeys + 1 ∧ Z.of_nat (size sa) <= maxKeys + 1 ∧
      Z.of_nat (size sr) <= maxKeys + 1 ∧ Z.of_nat (length kv) <= maxKeys ∧ Z.of_nat (length iv) <= maxKeys
  | _ => False
  end.

(** [m] returns [a] and writes pieces of [guid], which do [upd] to the transaction *)
Definition sends {A} (guid : Z) (m : M DatabaseConnection A) (a : A)
    (upd : PendingTransaction → PendingTransaction) : Prop :=
  ∃ sent, (∀ s, m s = (Ok a, s <| conn_log ::= λ l, l ++ sent |>)) ∧ Forall (piece guid) sent ∧
    ∀ t, merge_effects sent t = upd t.

Lemma sends_ret {A} guid (a : A) u : (∀ t, u t = t) → sends guid (mret a) a u.
Proof.
  intros Hu. exists []. split_and!; [|constructor|done]. intros s. rewrite run_mret. f_equal. destruct s; cbn.
  by rewrite app_nil_r.
Qed.

Lemma sends_bind {A B} guid (m : M DatabaseConnection A) (f : A → M DatabaseConnection B) a b u v w :
  sends guid m a u → sends guid (f a) b v → (∀ t, w t = v (u t)) → sends guid (m ≫= f) b w.
Proof.
  intros (l & Hm & Hl & Hu) (l' & Hf & Hl' & Hv) Hw. exists (l ++ l'). split_and!; [|by apply Forall_app|].
  - intros s. rewrite run_bind, Hm, Hf. f_equal. destruct s; cbn. by rewrite (assoc_L (++)).
  - intros t. by rewrite merge_effects_app, Hu, Hv.
Qed.

Lemma sends_msg guid msg u :
  piece guid (CWrote msg) → (∀ t, u t = merge_effect t (CWrote msg)) → sends guid (Connection.write msg) tt u.
Proof. intros Hp Hu. exists [CWrote msg]. split_and!; [done|by repeat constructor|done]. Qed.

Lemma sends_chunk guid msg u :
  piece guid (CWrote msg) → (∀ t, u t = merge_effect t (CWrote msg)) → sends guid (send_chunk msg) tt u.
Proof. intros Hp Hu. eapply sends_bind; [by apply sends_msg|by apply (sends_msg _ _ id)|done]. Qed.

Lemma size_insert_le `{Countable K} {V} (m : gmap K V) k v :
  Z.of_nat (size m) <= maxKeys → Z.of_nat (size (<[k := v]> m)) <= maxKeys + 1.
Proof.
  intros Hm. destruct (m !! k) eqn:Hk;
    [rewrite map_size_insert_Some by (by eexists)|rewrite map_size_insert_None by done]; lia.
Qed.

Lemma list_to_map_cons_union `{Countable K} {V} (l : list (K * V)) (out : gmap K V) k v :
  k ∉ l.*1 → list_to_map ((k, v) :: l) ∪ out = list_to_map l ∪ <[k := v]> out.
Proof.
  intros Hk. cbn. rewrite <-insert_union_l, insert_union_r; [done|]. by apply not_elem_of_list_to_map_1.
Qed.

(** the pieces of one kind *)
Lemma nonempty_sets_empty : nonempty_sets ∅ = ∅.
Proof. apply omap_empty. Qed.
Ltac merge_done := rewrite ?nonempty_sets_empty, ?(left_id_L ∅ (∪)); done.
Lemma merge_writes out guid t :
  merge_effect t (CWrote (TransactionData out ∅ ∅ [] [] guid ∅)) = t <| pt_writes ::= union out |>.
Proof. destruct t. unfold merge_effect, merge_chunk; cbn. merge_done. Qed.
Lemma merge_adds out guid t :
  merge_effect t (CWrote (TransactionData ∅ out ∅ [] [] guid ∅)) = t <| pt_set_adds ::= union (nonempty_sets out) |>.
Proof. destruct t. unfold merge_effect, merge_chunk; cbn. merge_done. Qed.
Lemma merge_removes out guid t :
  merge_effect t (CWrote (TransactionData ∅ ∅ out [] [] guid ∅)) = t <| pt_set_removes ::= union (nonempty_sets out) |>.
Proof. destruct t. unfold merge_effect, merge_chunk; cbn. merge_done. Qed.
Lemma merge_keys l guid t :
  merge_effect t (CWrote (TransactionData ∅ ∅ ∅ l [] guid ∅)) = t <| pt_key_versions ::= union (list_to_set l) |>.
Proof. destruct t. unfold merge_effect, merge_chunk; cbn. merge_done. Qed.
Lemma merge_indices l guid t :
  merge_effect t (CWrote (TransactionData ∅ ∅ ∅ [] l guid ∅)) = t <| pt_index_versions ::= union (list_to_set l) |>.
Proof. destruct t. unfold merge_effect, merge_chunk; cbn. merge_done. Qed.

(** ** The loops *)

Lemma add_writes_sends guid l out :
  NoDup l.*1 → Z.of_nat (size out) <= maxKeys →
  ∃ out' W, sends guid (foldM l out (add_write guid)) out' (λ t, t <| pt_writes ::= union W |>) ∧
    out' ∪ W = list_to_map l ∪ out ∧ Z.of_nat (size out') <= maxKeys.
Proof.
  revert out. induction l as [|[k v] l IH]; intros out Hnd Hsize; cbn [foldM].
  - exists out, ∅. split_and!; [|cbn; by rewrite (right_id_L ∅ (∪)), (left_id_L ∅ (∪))|done].
    apply sends_ret. intros []; cbn. by rewrite (left_id_L ∅ (∪)).
  - apply NoDup_cons in Hnd as [Hk Hnd]. rewrite list_to_map_cons_union by done.
    unfold add_write at 1. cbn [fst snd]. pose proof (size_insert_le out k v Hsize) as Hins. case_bool_decide as Hbig.
    + destruct (IH ∅ Hnd) as (out' & W & Hsend & Hout & Hs'); [rewrite map_size_empty; unfold maxKeys; lia|].
      exists out', (W ∪ <[k := v]> out). split_and!; [|by rewrite (assoc_L (∪)), Hout, (right_id_L ∅ (∪))|done].
      eapply sends_bind; [eapply sends_bind; [|by apply sends_ret|done]|exact Hsend|].
      * apply sends_chunk; [cbn; unfold maxKeys in *; split_and!; done || lia|]. intros t. symmetry. apply merge_writes.
      * intros []; cbn. by rewrite (assoc_L (∪)).
    + destruct (IH (<[k := v]> out) Hnd) as (out' & W & Hsend & Hout & Hs'); [lia|].
      exists out', W. split_and!; [|done|done]. eapply sends_bind; [by apply sends_ret|exact Hsend|done].
Qed.

Definition wire (m : gmap IndexId (gset ObjectId)) : gmap IndexId (list ObjectId) := elements <$> m.

Lemma nonempty_wire m : nonempty_sets (wire m) = filter (λ kv, kv.2 ≠ ∅) m.
Proof.
  apply map_eq. intros k. unfold nonempty_sets, wire. rewrite lookup_omap, lookup_fmap, map_lookup_filter.
  destruct (m !! k) as [x|]; cbn; [|done]. case_bool_decide as Hx.
  - apply elements_empty_inv in Hx. rewrite option_guard_False; [done|]. intros ?. set_solver.
  - rewrite option_guard_True; [by rewrite list_to_set_elements_L|]. intros ->. by rewrite elements_empty in Hx.
Qed.

Lemma nonempty_sets_insert out k (v : gset ObjectId) l :
  k ∉ l.*1 → (∀ k', k' ∈ (k :: l.*1) → out !! k' = None) →
  nonempty_sets (wire (list_to_map ((k, v) :: l))) ∪ nonempty_sets out =
  nonempty_sets (wire (list_to_map l)) ∪ nonempty_sets (<[k := elements v]> out).
Proof.
  intros Hk Hout. apply map_eq. intros k'. cbn.
  rewrite !lookup_union. unfold nonempty_sets, wire. rewrite !lookup_omap, !lookup_fmap, !lookup_insert.
  destruct (decide (k = k')) as [<-|Hne]; [|done].
  rewrite (not_elem_of_list_to_map_1 _ _ Hk), (Hout k) by set_solver. cbn. by case_bool_decide.
Qed.

(** The loops over [set_adds] and [set_removes]: [upd] is what a dictionary of sets does to
    the transaction. *)
Section sets.
Context (guid : Z) (mk : gmap IndexId (list ObjectId) → ClientToServer)
  (upd : gmap IndexId (gset ObjectId) → PendingTransaction → PendingTransaction).
Hypothesis mk_merge : ∀ out t, merge_effect t (CWrote (mk out)) = upd (nonempty_sets out) t.
Hypothesis mk_piece : ∀ out, Z.of_nat (size out) <= maxKeys + 1 → piece guid (CWrote (mk out)).
Hypothesis upd_empty : ∀ t, upd ∅ t = t.
Hypothesis upd_union : ∀ a b t, upd a (upd b t) = upd (a ∪ b) t.
#[local] Set Default Proof Using "Type*".

Lemma add_sets_sends l out ct :
  NoDup l.*1 → (∀ k, k ∈ l.*1 → out !! k = None) → Z.of_nat (size out) <= maxKeys →
  ∃ acc W, sends guid (foldM l (out, ct) (add_set mk)) acc (upd W) ∧
    nonempty_sets acc.1 ∪ W = nonempty_sets (wire (list_to_map l)) ∪ nonempty_sets out ∧
    Z.of_nat (size acc.1) <= maxKeys.
Proof.
  revert out ct. induction l as [|[k v] l IH]; intros out ct Hnd Hout Hsize; cbn [foldM].
  - exists (out, ct), ∅. split_and!; [by apply sends_ret| |done].
    unfold wire. rewrite list_to_map_nil, fmap_empty, nonempty_sets_empty. cbn.
    by rewrite (right_id_L ∅ (∪)), (left_id_L ∅ (∪)).
  - apply NoDup_cons in Hnd as [Hk Hnd]. cbn [fst] in *.
    rewrite nonempty_sets_insert by done. unfold add_set at 1. cbn [fst snd].
    pose proof (size_insert_le out k (elements v) Hsize) as Hins.
    destruct (bool_decide (maxKeys < _) || _) eqn:Hbig.
    + destruct (IH ∅ 0 Hnd) as (acc & W & Hsend & Hacc & Hs'); [by intros; rewrite lookup_empty|rewrite map_size_empty; unfold maxKeys; lia|].
      exists acc, (W ∪ nonempty_sets (<[k := elements v]> out)).
      split_and!; [|by rewrite (assoc_L (∪)), Hacc, nonempty_sets_empty, (right_id_L ∅ (∪))|done].
      eapply sends_bind; [eapply sends_bind; [|by apply sends_ret|done]|exact Hsend|].
      * apply sends_chunk; [by apply mk_piece|]. intros t. symmetry. apply mk_merge.
      * intros t. cbv beta. by rewrite upd_empty, upd_union.
    + apply orb_false_elim in Hbig as [Hbig _]. apply bool_decide_eq_false in Hbig.
      destruct (IH (<[k := elements v]> out) (ct + Z.of_nat (size v)) Hnd) as (acc & W & Hsend & Hacc & Hs'); [|lia|].
      { intros k' Hk'. rewrite lookup_insert_ne by (intros ->; done). apply Hout. by right. }
      exists acc, W. split_and!; [|done|done]. eapply (sends_bind _ _ _ _ _ id); [by apply sends_ret|exact Hsend|done].
Qed.
End sets.

(** The loops over the keys that were read *)
Lemma send_keys_sends {K} guid (send : list K → M DatabaseConnection unit) (add : list K → PendingTransaction → PendingTransaction) fuel keys :
  (∀ l, Z.of_nat (length l) <= maxKeys → sends guid (send l) tt (add l)) →
  (∀ t, add [] t = t) → (∀ a b t, add b (add a t) = add (a ++ b) t) → (length keys <= fuel)%nat →
  ∃ sent rest, sends guid (send_keys send fuel keys) rest (add sent) ∧ sent ++ rest = keys ∧
    Z.of_nat (length rest) <= maxKeys.
Proof.
  intros Hsend Hnil Happ. revert keys. induction fuel as [|fuel IH]; intros keys Hfuel; cbn [send_keys].
  - destruct keys; [|cbn in Hfuel; lia]. exists [], []. split_and!; [by apply sends_ret|done|unfold maxKeys; cbn; lia].
  - case_bool_decide as Hbig; [|exists [], keys; split_and!; [by apply sends_ret|done|lia]].
    destruct (IH (drop (Z.to_nat maxKeys) keys)) as (sent & rest & Hs & Hk & Hr).
    { rewrite length_drop. unfold maxKeys in *. lia. }
    exists (take (Z.to_nat maxKeys) keys ++ sent), rest. split_and!; [|by rewrite <-(assoc_L (++)), Hk, take_drop|done].
    eapply sends_bind; [apply Hsend|exact Hs|intros t; by rewrite Happ].
    rewrite length_take. lia.
Qed.

(** ** The transaction as a whole *)

(** what the server has when everything has arrived *)
Definition whole (key_value : gmap ObjectFieldId (option bytes)) (set_adds set_removes : gmap IndexId (gset ObjectId))
    (keys : list ObjectFieldId) (indices : list IndexId) : PendingTransaction :=
  {| pt_writes := key_value; pt_prerequisites := ∅;
     pt_set_adds := filter (λ kv, kv.2 ≠ ∅) set_adds;
     pt_set_removes := filter (λ kv, kv.2 ≠ ∅) set_removes;
     pt_key_versions := list_to_set keys; pt_index_versions := list_to_set indices |}.

Lemma add_all_sets guid mk upd sets :
  (∀ out t, merge_effect t (CWrote (mk out)) = upd (nonempty_sets out) t) →
  (∀ out, Z.of_nat (size out) <= maxKeys + 1 → piece guid (CWrote (mk out))) →
  (∀ t, upd ∅ t = t) → (∀ a b t, upd a (upd b t) = upd (a ∪ b) t) →
  ∃ acc W, sends guid (foldM (map_to_list sets) (∅, 0) (add_set mk)) acc (upd W) ∧
    nonempty_sets acc.1 ∪ W = filter (λ kv, kv.2 ≠ ∅) sets ∧ Z.of_nat (size acc.1) <= maxKeys.
Proof.
  intros Hmerge Hpiece Hnil Happ.
  destruct (add_sets_sends guid mk upd Hmerge Hpiece Hnil Happ (map_to_list sets) ∅ 0) as (acc & W & Hs & Heq & Hsize).
  - apply NoDup_fst_map_to_list.
  - intros. by rewrite lookup_empty.
  - rewrite map_size_empty. unfold maxKeys. lia.
  - exists acc, W. split_and!; [done| |done].
    by rewrite Heq, list_to_map_to_list, nonempty_wire, nonempty_sets_empty, (right_id_L ∅ (∪)).
Qed.

(** The pieces, with the last one and the message that ends the transaction. *)
Lemma send_transaction_sends guid key_value set_adds set_removes keys indices as_of no_log :
  ∃ sent w sa sr kv iv,
    (∀ s, send_transaction guid key_value set_adds set_removes keys indices as_of no_log s =
       (Ok tt, s <| conn_log ::= λ l, l ++ sent ++
          [CWrote (TransactionData w sa sr kv iv guid ∅); CWrote (CompleteTransaction as_of guid no_log)] |>)) ∧
    Forall (piece guid) (sent ++ [CWrote (TransactionData w sa sr kv iv guid ∅)]) ∧
    merge_effects (sent ++ [CWrote (TransactionData w sa sr kv iv guid ∅)]) empty_transaction =
      whole key_value set_adds set_removes keys indices.
Proof.
  destruct (add_writes_sends guid (map_to_list key_value) ∅) as (w & W & (l1 & R1 & P1 & M1) & Hweq & Hwsize);
    [apply NoDup_fst_map_to_list|rewrite map_size_empty; unfold maxKeys; lia|].
  rewrite list_to_map_to_list, (right_id_L ∅ (∪)) in Hweq.
  destruct (add_all_sets guid (λ out, TransactionData ∅ out ∅ [] [] guid ∅) (λ x t, t <| pt_set_adds ::= union x |>) set_adds)
    as (sa & SA & (l2 & R2 & P2 & M2) & Hsaeq & Hsasize);
    [intros; apply merge_adds|intros; cbn; rewrite ?map_size_empty; unfold maxKeys in *; split_and!; done || lia
    |intros []; cbn; by rewrite (left_id_L ∅ (∪))|intros ? ? []; cbn; by rewrite (assoc_L (∪))|].
  destruct (add_all_sets guid (λ out, TransactionData ∅ ∅ out [] [] guid ∅) (λ x t, t <| pt_set_removes ::= union x |>) set_removes)
    as (sr & SR & (l3 & R3 & P3 & M3) & Hsreq & Hsrsize);
    [intros; apply merge_removes|intros; cbn; rewrite ?map_size_empty; unfold maxKeys in *; split_and!; done || lia
    |intros []; cbn; by rewrite (left_id_L ∅ (∪))|intros ? ? []; cbn; by rewrite (assoc_L (∪))|].
  destruct (send_keys_sends guid (λ l, send_chunk (TransactionData ∅ ∅ ∅ l [] guid ∅))
    (λ l t, t <| pt_key_versions ::= union (list_to_set l) |>) (length keys) keys)
    as (kv1 & kv & (l4 & R4 & P4 & M4) & Hkv & Hkvsize);
    [intros l Hl; apply sends_chunk; [cbn; rewrite ?map_size_empty; unfold maxKeys in *; split_and!; done || lia|intros t; symmetry; apply merge_keys]
    |intros []; cbn; by rewrite (left_id_L ∅ (∪))
    |intros ? ? []; cbn; rewrite list_to_set_app_L, (assoc_L (∪)); f_equal; set_solver|done|].
  destruct (send_keys_sends guid (λ l, Connection.write (TransactionData ∅ ∅ ∅ [] l guid ∅))
    (λ l t, t <| pt_index_versions ::= union (list_to_set l) |>) (length indices) indices)
    as (iv1 & iv & (l5 & R5 & P5 & M5) & Hiv & Hivsize);
    [intros l Hl; apply sends_msg; [cbn; rewrite ?map_size_empty; unfold maxKeys in *; split_and!; done || lia|intros t; symmetry; apply merge_indices]
    |intros []; cbn; by rewrite (left_id_L ∅ (∪))
    |intros ? ? []; cbn; rewrite list_to_set_app_L, (assoc_L (∪)); f_equal; set_solver|done|].
  exists (l1 ++ l2 ++ l3 ++ l4 ++ l5), w, sa.1, sr.1, kv, iv. split_and!.
  - intros s. unfold send_transaction.
    rewrite run_bind, R1, run_bind, R2, run_bind, R3, run_bind, R4, run_bind, R5. unfold Connection.write, Connection.emit.
    rewrite run_bind, !run_modify. f_equal. destruct s; cbn. by rewrite <-!(assoc_L (++)).
  - rewrite !Forall_app, Forall_singleton. cbn. unfold maxKeys in *. split_and!; done || lia.
  - rewrite !merge_effects_app, M1, M2, M3, M4, M5. unfold whole, merge_effects, merge_effect, merge_chunk; cbn.
    rewrite ?(right_id_L ∅ (∪)), Hweq, Hsaeq, Hsreq, <-Hkv, <-Hiv, !list_to_set_app_L. f_equal; set_solver.
Qed.

(** ** The server reads it *)

Section server.
Context `{Serialization} {T : Type} `{KVStore T} (clock : nat → Z) (format_exc : exn → string).
Implicit Types (s : Server T).

(** the server handles the messages that were written, on the channel [c] *)
Definition server_reads (c : ChannelRef) (l : list ConnEffect) : M (Server T) unit :=
  forM l (λ e, match e with CWrote msg => onClientToServerMessage clock format_exc c msg | _ => mret tt end).

Definition pending_of s (c : ChannelRef) (guid : Z) : option PendingTransaction :=
  cc_pendingTransactions (the_cc s c) !! guid.

Lemma server_reads_piece c guid e s :
  piece guid e → cc_needsAuthentication (the_cc s c) = false →
  ∃ s', server_reads c [e] s = (Ok tt, s') ∧ cc_needsAuthentication (the_cc s' c) = false ∧
    default empty_transaction (pending_of s' c guid) = merge_effect (default empty_transaction (pending_of s c guid)) e ∧
    (∀ w sa sr kv iv g pre, e = CWrote (TransactionData w sa sr kv iv g pre) → is_Some (pending_of s' c guid)).
Proof.
  intros Hp Hauth. destruct e as [msg| | | | | |]; try done. unfold server_reads.
  rewrite run_forM_cons. unfold onClientToServerMessage. rewrite run_bind, run_gets.
  destruct msg as [w sa sr kv iv g pre| | | | | | | | | |]; try done; rewrite Hauth; cbn in Hp.
  - destruct Hp as [-> _]. set (s' := (upd_cc c (handleTransactionData w sa sr kv iv guid pre) s).2).
    assert (the_cc s' c = handleTransactionData w sa sr kv iv guid pre (the_cc s c)) as Hcc
      by (unfold s'; rewrite the_cc_upd; by rewrite decide_True).
    exists s'. split; [done|]. unfold pending_of. rewrite Hcc. unfold handleTransactionData. cbn.
    rewrite lookup_insert_eq. split_and!; [exact Hauth|done|by eexists].
  - set (s' := (upd_cc c heartbeat s).2).
    assert (the_cc s' c = heartbeat (the_cc s c)) as Hcc by (unfold s'; rewrite the_cc_upd; by rewrite decide_True).
    exists s'. split; [done|]. unfold pending_of. rewrite Hcc. by split_and!.
Qed.

Lemma server_reads_pieces c guid l s :
  Forall (piece guid) l → cc_needsAuthentication (the_cc s c) = false →
  ∃ s', server_reads c l s = (Ok tt, s') ∧ cc_needsAuthentication (the_cc s' c) = false ∧
    default empty_transaction (pending_of s' c guid) = merge_effects l (default empty_transaction (pending_of s c guid)).
Proof.
  intros Hl. revert s. induction Hl as [|e l He _ IH]; intros s Hauth; [by exists s|].
  destruct (server_reads_piece c guid e s He Hauth) as (s1 & Hrun & Hauth1 & Hm & _).
  destruct (IH s1 Hauth1) as (s2 & Hrun2 & Hauth2 & Hm2). exists s2. split_and!; [|done|by rewrite Hm2, Hm].
  unfold server_reads in *. change (e :: l) with ([e] ++ l). by rewrite (run_forM_app _ _ _ _ _ Hrun).
Qed.

(** C13. A transaction reaches the server whole: the messages that [_createTransaction]
    writes are pieces with at most 10001 keys of each kind, followed by the request to
    complete it, and a server that reads the pieces on an authenticated connection has
    exactly the writes, the non-empty sets and the keys that were read, and no
    prerequisites. *)
Theorem transaction_arrives_whole conn s c guid key_value set_adds set_removes keys indices as_of callback no_log :
  disconnected conn = false → cc_needsAuthentication (the_cc s c) = false → pending_of s c guid = None →
  ∃ sent, conn_log (_createTransaction guid key_value set_adds set_removes keys indices as_of callback no_log conn).2 =
            conn_log conn ++ sent ++ [CWrote (CompleteTransaction as_of guid no_log)] ∧
    Forall (piece guid) sent ∧ (server_reads c sent s).1 = Ok tt ∧
    pending_of (server_reads c sent s).2 c guid = Some (whole key_value set_adds set_removes keys indices).
Proof.
  intros Hconn Hauth Hnone. unfold _createTransaction. rewrite run_bind, run_gets, Hconn, run_bind, run_modify.
  destruct (send_transaction_sends guid key_value set_adds set_removes keys indices as_of no_log)
    as (sent & w & sa & sr & kv & iv & Hrun & Hpieces & Hwhole).
  rewrite Hrun. exists (sent ++ [CWrote (TransactionData w sa sr kv iv guid ∅)]). cbn [snd].
  apply Forall_app in Hpieces as Hboth. destruct Hboth as [Hsent Hlast]. rewrite Forall_singleton in Hlast.
  destruct (server_reads_pieces c guid sent s Hsent Hauth) as (s1 & Hrun1 & Hauth1 & Hm1).
  destruct (server_reads_piece c guid _ s1 Hlast Hauth1) as (s2 & Hrun2 & _ & Hm2 & Hsome).
  destruct (Hsome w sa sr kv iv guid ∅ eq_refl) as [t Ht].
  assert (server_reads c (sent ++ [CWrote (TransactionData w sa sr kv iv guid ∅)]) s = (Ok tt, s2)) as ->.
  { unfold server_reads in *. by rewrite (run_forM_app _ _ _ _ _ Hrun1). }
  split_and!; [|done|done|].
  - cbn. by rewrite <-(assoc_L (++)).
  - cbn [snd]. rewrite Ht in Hm2 |- *. change (default empty_transaction (Some t)) with t in Hm2.
    rewrite Hm2, Hm1, Hnone, <-Hwhole, merge_effects_app. done.
Qed.
End server.

Import Codec.

(** A client that sends two writes and two sets, one of which is empty, to a server with
    one connection. *)
Module CommitScenario.
Definition key (i : Z) : ObjectFieldId := OFI i 2 false.
Definition key_value : gmap ObjectFieldId (option bytes) := {[key 7 := Some [Byte.x41]; key 8 := None]}.
Definition adds : gmap IndexId (gset ObjectId) := {[IXI 3 [Byte.x01] := {[7; 8]}; IXI 3 [Byte.x02] := ∅]}.
Definition server : Server InMemoryPersistence :=
  w_server (run_op Z.of_nat (λ _, ""%string) (OpMessage 0 (Authenticate "secret"))
    (run_op Z.of_nat (λ _, ""%string) (OpConnect 0)
      (start_world (T:=InMemoryPersistence) Z.of_nat new_store "secret" false))).
End CommitScenario.

Lemma transaction_arrives_whole_witness :
  ∃ sent, Forall (piece 5) sent ∧
    pending_of (server_reads Z.of_nat (λ _, ""%string) 0 sent CommitScenario.server).2 0%nat 5 =
    Some (whole CommitScenario.key_value CommitScenario.adds ∅ [CommitScenario.key 7] []).
Proof.
  destruct (transaction_arrives_whole Z.of_nat (λ _, ""%string) new_DatabaseConnection CommitScenario.server 0%nat 5
    CommitScenario.key_value CommitScenario.adds ∅ [CommitScenario.key 7] [] 0 0%nat false)
    as (sent & _ & Hpieces & _ & Hwhole); [reflexivity|vm_compute; reflexivity|vm_compute; reflexivity|].
  exists sent. exact (conj Hpieces Hwhole).
Defined.
