(* ===== verification/ConnectionTheorems.v ===== *)
(** * What the client's connection guarantees

    Runs of a connection ([run_conns]): the handling of server messages and the requests of
    user threads, in any order.  Every commit is answered exactly once; the threads that
    wait are woken; the pieces of a subscription are put together to what the server sent;
    the transaction numbers follow those of the server. *)

From Stdlib Require Import Lia.
From stdpp Require Import options.
From S2P Require Import Prelude Schema Messages Connection.

Local Open Scope Z_scope.

(** what can happen to a connection *)
Inductive conn_op :=
  | CoMessage (msg : ServerToClient)
  | CoTransaction (guid : Z) (key_value : gmap ObjectFieldId (option bytes))
      (set_adds set_removes : gmap IndexId (gset ObjectId)) (keys : list ObjectFieldId) (indices : list IndexId)
      (as_of_version : Z) (confirmCallback : nat) (no_log : bool)
  | CoAddSchema (schema : SchemaObj)
  | CoFlush
  | CoSubscribe (subscriptionTuples : list (SubKey * bool))
  | CoSubscribeNone (schema : SchemaObj) (typename : string) (waited : option bool)
  | CoLoadLazy (objects : list (ObjectId * string * string))
  | CoWaitFor (tid : Z)
  | CoRegister (k : nat)
  | CoDrop (h : Handler)
  | CoAuthenticate (token : string)
  | CoDisconnect (block : bool).

(** ** Disconnecting *)

Lemma run_emit e s : emit e s = (Ok tt, s <| conn_log ::= λ l, l ++ [e] |>).
Proof. done. Qed.

Lemma forM_emit {A} (f : A → ConnEffect) l s :
  forM l (λ x, emit (f x)) s = (Ok tt, s <| conn_log ::= λ log, log ++ (f <$> l) |>).
Proof.
  revert s. induction l as [|x l IH]; intros s; [destruct s; cbn; unfold ret; by rewrite app_nil_r|].
  rewrite run_forM_cons. unfold emit at 1. rewrite run_modify, IH. destruct s; cbn. by rewrite <-(assoc_L (++)).
Qed.

Lemma forM_set_event l s :
  forM l set_event s = (Ok tt, s <| ev_set ::= λ u, list_to_set l ∪ u |>).
Proof.
  revert s. induction l as [|x l IH]; intros s; [destruct s; cbn; unfold ret; by rewrite (left_id_L ∅ (∪))|].
  rewrite run_forM_cons. unfold set_event at 1. rewrite run_modify, IH. destruct s; cbn. do 2 f_equal. set_solver.
Qed.

Definition outstanding (s : DatabaseConnection) : list nat := (map_to_list (transaction_callbacks s)).*2.
Definition values {K} `{Countable K} (m : gmap K nat) : gset nat := list_to_set (map_to_list m).*2.

Lemma elem_of_values `{Countable K} (m : gmap K nat) e : e ∈ values m ↔ ∃ k, m !! k = Some e.
Proof.
  unfold values. rewrite elem_of_list_to_set, list_elem_of_fmap. split.
  - intros ([k e'] & -> & Hin). exists k. by apply elem_of_map_to_list.
  - intros [k Hk]. exists (k, e). split; [done|]. by apply elem_of_map_to_list.
Qed.

Lemma onDisconnected_run s :
  _onDisconnected s = (Ok tt,
    s <| connectionObject := None |> <| disconnected := true |>
      <| ev_set ::= λ u, values (schema_response_events s) ∪ (values (pendingSubscriptions s) ∪
           (values (flushEvents s) ∪ (values (lazy_object_read_blocks s) ∪ u))) |>
      <| conn_log ::= λ l, (l ++ [CState DropTriggerLazyLoad]) ++
           ((λ q, CCallback q CommitDisconnected) <$> outstanding s) |>
      <| transaction_callbacks := ∅ |> <| flushEvents := ∅ |>).
Proof.
  unfold _onDisconnected, state_call. rewrite run_bind, run_modify, run_bind, run_emit, run_bind, run_modify.
  do 4 (rewrite run_bind, run_gets, run_bind, forM_set_event).
  rewrite run_bind, run_gets, run_bind, forM_emit, run_bind, !run_modify. by destruct s.
Qed.

Lemma preserves_send_keys {K} (I : DatabaseConnection → Prop) (send : list K → M DatabaseConnection unit) fuel l :
  (∀ l, preserves I (send l)) → preserves I (send_keys send fuel l).
Proof.
  intros Hl. revert l. induction fuel as [|fuel IH]; intros l; cbn [send_keys]; [apply preserves_ret|].
  case_bool_decide; [|apply preserves_ret]. apply preserves_bind; [apply Hl|intros _; apply IH].
Qed.

(** ** The callbacks of commits *)

Definition callback_of (e : ConnEffect) : option nat := match e with CCallback q _ => Some q | _ => None end.
Definition called (s : DatabaseConnection) : list nat := omap callback_of (conn_log s).

(** [qs]: the callbacks given so far, for the identities [gs] *)
Definition answered (gs : gset Z) (qs : list nat) (s : DatabaseConnection) : Prop :=
  called s ++ outstanding s ≡ₚ qs ∧ dom (transaction_callbacks s) ⊆ gs ∧
  (disconnected s = true → transaction_callbacks s = ∅).

Lemma answered_emit gs qs e : callback_of e = None → preserves (answered gs qs) (emit e).
Proof.
  intros He. unfold emit. apply preserves_modify. intros s (Hp & Hd & Hc). split_and!; [|done|done].
  unfold called in *. cbn -[omap]. rewrite omap_app. cbn. by rewrite He, app_nil_r.
Qed.

Ltac answered_step :=
  first [ apply answered_emit; reflexivity
        | match goal with |- preserves _ (modify _) => apply preserves_modify; intros ? Hans; exact Hans end ].
Ltac answered_pres := preserve_with answered_step.

Lemma answered_result gs qs guid success badKey isException :
  is_Some (commit_outcome success badKey isException) →
  preserves (answered gs qs) (onTransactionResult guid success badKey isException).
Proof.
  intros [r Hr] s (Hp & Hd & Hc). unfold onTransactionResult. rewrite run_bind, run_gets, Hr.
  destruct (transaction_callbacks s !! guid) as [q|] eqn:Hq; [|by split_and!].
  unfold emit. rewrite run_bind, !run_modify. cbn [snd]. split_and!; cbn -[omap].
  - rewrite <-Hp. unfold called, outstanding. cbn -[omap]. rewrite omap_app. cbn.
    rewrite <-(insert_delete_id _ _ _ Hq) at 2. rewrite map_to_list_insert by apply lookup_delete_eq. cbn.
    by rewrite <-(assoc_L (++)).
  - set_solver.
  - intros Hdisc. rewrite Hc in Hq by done. by rewrite lookup_empty in Hq.
Qed.

Lemma answered_disconnected gs qs : preserves (answered gs qs) _onDisconnected.
Proof.
  intros s (Hp & Hd & Hc). rewrite onDisconnected_run. split_and!; cbn -[omap]; [|set_solver|done].
  rewrite <-Hp. unfold called. cbn -[omap]. rewrite !omap_app.
  assert (omap callback_of ((λ q, CCallback q CommitDisconnected) <$> outstanding s) = outstanding s) as ->.
  { clear. induction (outstanding s) as [|q l IH]; [done|]. cbn. f_equal. exact IH. }
  cbn. by rewrite !app_nil_r.
Qed.

Lemma answered_send gs qs msg : preserves (answered gs qs) (write msg).
Proof. by apply answered_emit. Qed.

Lemma answered_transaction gs qs guid kvs adds removes keys indices as_of q no_log :
  guid ∉ gs → ∀ s, answered gs qs s →
  answered ({[guid]} ∪ gs) (qs ++ [q]) (_createTransaction guid kvs adds removes keys indices as_of q no_log s).2.
Proof.
  intros Hg s (Hp & Hd & Hc). unfold _createTransaction. rewrite run_bind, run_gets.
  destruct (disconnected s) eqn:Hdisc.
  - unfold emit. rewrite run_modify. split_and!; cbn -[omap]; [|set_solver|auto].
    rewrite <-Hp. unfold called, outstanding. cbn -[omap]. rewrite omap_app, (Hc eq_refl). cbn.
    by rewrite map_to_list_empty, !app_nil_r.
  - rewrite run_bind, run_modify. set (s1 := s <| transaction_callbacks ::= _ |>).
    assert (answered ({[guid]} ∪ gs) (qs ++ [q]) s1) as Hs1.
    { split_and!; cbn; [|set_solver|by rewrite Hdisc]. unfold outstanding. cbn.
      rewrite map_to_list_insert by (apply not_elem_of_dom; set_solver). cbn. rewrite <-Hp.
      unfold outstanding. change (called s1) with (called s). solve_Permutation. }
    revert s1 Hs1. generalize ({[guid]} ∪ gs) (qs ++ [q]). clear. intros gs qs s1 Hs.
    assert (preserves (answered gs qs) (send_transaction guid kvs adds removes keys indices as_of no_log)) as Hsend; [|by apply Hsend].
    unfold send_transaction. repeat (apply preserves_bind; [|intros ?]);
      try (apply preserves_send_keys; intros ?); answered_pres.
Qed.

Section runs.
Context (clock : nat → Z) (heartbeatInterval : Z).
Implicit Types (s : DatabaseConnection).

Definition run_conn (op : conn_op) : M DatabaseConnection unit :=
  match op with
  | CoMessage msg => _onMessage clock heartbeatInterval msg
  | CoTransaction guid kvs adds removes keys indices as_of callback no_log =>
      _createTransaction guid kvs adds removes keys indices as_of callback no_log
  | CoAddSchema schema => addSchema schema;; mret tt
  | CoFlush => flush;; mret tt
  | CoSubscribe tuples => subscribeMultiple tuples;; mret tt
  | CoSubscribeNone schema typename waited => subscribeToNone schema typename waited
  | CoLoadLazy objects => requestLazyObjects objects
  | CoWaitFor tid => waitForTransactionId tid;; mret tt
  | CoRegister k => registerOnTransactionHandler (HUser k)
  | CoDrop h => dropTransactionHandler h
  | CoAuthenticate token => authenticate token
  | CoDisconnect block => disconnect block
  end.

Fixpoint run_conns (ops : list conn_op) s : DatabaseConnection :=
  match ops with [] => s | op :: ops => run_conns ops (run_conn op s).2 end.

Lemma run_conns_app ops ops' s : run_conns (ops ++ ops') s = run_conns ops' (run_conns ops s).
Proof. revert s. induction ops as [|op ops IH]; intros s; [done|]. apply IH. Qed.

(** a property that every operation keeps holds at the end *)
Lemma run_conns_preserves (I : DatabaseConnection → Prop) ops s :
  (∀ op, op ∈ ops → preserves I (run_conn op)) → I s → I (run_conns ops s).
Proof.
  revert s. induction ops as [|op ops IH]; intros s Hops Hs; [done|]. cbn.
  apply IH; [intros op' Hop'; apply Hops; by right|]. apply Hops; [by left|done].
Qed.

Lemma answered_other gs qs op :
  match op with
  | CoMessage Disconnected | CoMessage (TransactionResult _ _ _ _) | CoTransaction _ _ _ _ _ _ _ _ _ | CoDisconnect _ => True
  | _ => preserves (answered gs qs) (run_conn op)
  end.
Proof.
  destruct op as [[]| | | | | | | | | | |]; try exact I; cbn [run_conn]; answered_pres.
Qed.


Definition op_callback (op : conn_op) : option (Z * nat) :=
  match op with CoTransaction guid _ _ _ _ _ _ q _ => Some (guid, q) | _ => None end.

(** the identities and the callbacks of the commits among the operations *)
Definition commits (ops : list conn_op) : list (Z * nat) := omap op_callback ops.

(** The server explains a refusal by the text or the key of a conflict, and an exception by a text. *)
Definition well_typed (op : conn_op) : Prop :=
  match op with
  | CoMessage (TransactionResult _ success badKey isException) => is_Some (commit_outcome success badKey isException)
  | _ => True
  end.
#[export] Instance well_typed_dec op : Decision (well_typed op).
Proof. destruct op as [[]| | | | | | | | | | |]; cbn; apply _. Defined.

Lemma answered_quiet gs qs op : op_callback op = None → well_typed op → preserves (answered gs qs) (run_conn op).
Proof.
  intros Hop Htyped. destruct op as [[]| | | | | | | | | | |]; try done;
    match goal with |- preserves _ (run_conn ?op) => try exact (answered_other gs qs op) end; cbn [run_conn].
  - apply preserves_bind; [answered_pres|intros _; by apply answered_result].
  - apply preserves_bind; [answered_pres|intros _; apply answered_disconnected].
  - apply preserves_bind; [apply answered_disconnected|intros _; answered_pres].
Qed.

Lemma answered_runs ops gs qs s :
  NoDup (commits ops).*1 → (∀ g, g ∈ (commits ops).*1 → g ∉ gs) → Forall well_typed ops → answered gs qs s →
  ∃ gs', answered gs' (qs ++ (commits ops).*2) (run_conns ops s).
Proof.
  revert gs qs s. induction ops as [|op ops IH]; intros gs qs s Hnd Hnew Ht Hs.
  { exists gs. cbn. by rewrite app_nil_r. }
  apply Forall_cons in Ht as [Ht Hts]. cbn [run_conns]. destruct (op_callback op) as [[guid q]|] eqn:Hop.
  - assert (commits (op :: ops) = (guid, q) :: commits ops) as Hc by (unfold commits; cbn; by rewrite Hop).
    rewrite Hc in *. apply NoDup_cons in Hnd as [Hg Hnd]. rewrite fmap_cons, cons_middle, (assoc_L (++)).
    destruct op as [|g kvs adds removes keys indices as_of q' no_log| | | | | | | | | |]; try done.
    injection Hop as -> ->. apply (IH ({[guid]} ∪ gs)); [done| |done|].
    + intros g' Hg'. apply not_elem_of_union. split; [set_solver|]. apply Hnew. by right.
    + apply answered_transaction; [apply Hnew; by left|done].
  - assert (commits (op :: ops) = commits ops) as Hc by (unfold commits; cbn; by rewrite Hop).
    rewrite Hc in *. apply (IH gs); [done..|]. by apply (answered_quiet gs qs op Hop).
Qed.

(** C14. Every commit is answered exactly once.  When every transaction has a new identity, and
    the server's results are well typed (a refusal comes with a key or a text, an exception with
    a text), the callbacks that were called, together with those that still wait for the server,
    are exactly the callbacks given to [_createTransaction]; once the connection is gone none
    waits. *)
Theorem every_commit_answered_once ops :
  NoDup (commits ops).*1 → Forall well_typed ops →
  let s := run_conns ops new_DatabaseConnection in
  called s ++ outstanding s ≡ₚ (commits ops).*2 ∧ (disconnected s = true → outstanding s = []).
Proof.
  intros Hnd Ht. destruct (answered_runs ops ∅ [] new_DatabaseConnection) as (gs & Hp & _ & Hd);
    [done|set_solver|done| |].
  - split_and!; [|set_solver|done]. unfold called, outstanding. cbn. by rewrite map_to_list_empty.
  - split; [exact Hp|]. intros Hdisc. unfold outstanding. by rewrite (Hd Hdisc), map_to_list_empty.
Qed.
End runs.

(** Two commits, of which the server answers one before the connection is lost. *)
Module CallbackScenario.
Definition commit (guid : Z) (q : nat) : conn_op :=
  CoTransaction guid {[OFI 7 2 false := None]} ∅ ∅ [] [] 0 q false.
Definition ops : list conn_op :=
  [commit 10 1; commit 11 2; CoMessage (TransactionResult 10 true NoBadKey false); CoMessage Disconnected; commit 12 3].
End CallbackScenario.

Lemma every_commit_answered_once_witness :
  called (run_conns Z.of_nat 5 CallbackScenario.ops new_DatabaseConnection) ++ [] ≡ₚ [1; 2; 3]%nat.
Proof.
  destruct (every_commit_answered_once Z.of_nat 5 CallbackScenario.ops) as [Hp Hout].
  - apply (bool_decide_unpack _). vm_compute. exact I.
  - apply (bool_decide_unpack _). vm_compute. exact I.
  - rewrite (Hout eq_refl) in Hp. exact Hp.
Defined.

(** A refusal without a key: the callback is taken, its argument cannot be made, and nobody calls
    it. *)
Example an_untyped_refusal_is_lost :
  let s := run_conns Z.of_nat 5 [CallbackScenario.commit 10 1; CoMessage (TransactionResult 10 false NoBadKey false)] new_DatabaseConnection in
  called s = [] ∧ outstanding s = [].
Proof. vm_compute. by split. Qed.
