(* ===== verification/ConnectionEvents.v ===== *)
(** * The events that the threads of a client wait for

    [slot]: where the connection keeps the event of a request that is not answered.  An
    event in a slot stays there until it is set, also when the connection is lost, unless
    the same subscription is asked for again: then it is never set. *)

From Stdlib Require Import Lia.
From stdpp Require Import options.
From S2P Require Import Prelude Schema Messages Connection ConnectionTheorems.

Local Open Scope Z_scope.

Inductive Slot :=
  | SlLazy (identity : ObjectId)
  | SlFlush (ix : Z)
  | SlPending (k : SubKey * option bool)
  | SlSchema (name : string)
  | SlWait (tid : Z) (e : nat).

Definition slot (x : Slot) (s : DatabaseConnection) : option nat :=
  match x with
  | SlLazy i => lazy_object_read_blocks s !! i
  | SlFlush ix => flushEvents s !! ix
  | SlPending k => pendingSubscriptions s !! k
  | SlSchema name => schema_response_events s !! name
  | SlWait tid e => if decide (HWaitFor tid e ∈ onTransactionHandlers s) then Some e else None
  end.

(** ** An event that is in no slot is never set *)

Definition stranded (e : nat) (s : DatabaseConnection) : Prop :=
  (e < ev_next s)%nat ∧ (e ∉ ev_set s) ∧ ∀ x, slot x s ≠ Some e.

Lemma stranded_same e s s' :
  stranded e s → ev_next s' = ev_next s → ev_set s' = ev_set s → (∀ x, slot x s' = Some e → slot x s = Some e) →
  stranded e s'.
Proof.
  intros (Hn & He & Hx) En Es Hs. unfold stranded. rewrite En, Es. split_and!; [done|done|]. intros x Hsx. by apply (Hx x), Hs.
Qed.

Section stranded.
Context (e : nat).
Abbreviation Keep := (preserves (stranded e)).

Lemma stranded_new_event {B} (k : nat → M DatabaseConnection B) :
  (∀ e', e' ≠ e → Keep (k e')) → Keep (new_event ≫= k).
Proof.
  intros Hk s Hs. unfold new_event. rewrite run_bind, run_bind, run_gets, run_bind, run_modify, run_mret.
  apply Hk; [destruct Hs; lia|]. destruct Hs as (Hn & He & Hx). split_and!; [cbn; lia|done|done].
Qed.

Lemma stranded_set e' : e' ≠ e → Keep (set_event e').
Proof. intros Hne. apply preserves_modify. intros s (Hn & He & Hx). split_and!; [done|cbn; set_solver|done]. Qed.

(** the maps of events, when they are read *)
Lemma stranded_read {K B} `{Countable K} (proj : DatabaseConnection → gmap K nat) (mk : K → Slot) (k : gmap K nat → M DatabaseConnection B) :
  (∀ i s, slot (mk i) s = proj s !! i) →
  (∀ m : gmap K nat, (∀ i e', m !! i = Some e' → e' ≠ e) → Keep (k m)) → Keep (gets proj ≫= k).
Proof.
  intros Hmk Hk s Hs. rewrite run_bind, run_gets. apply Hk; [|done].
  intros i e' Hi ->. destruct Hs as (_ & _ & Hx). by apply (Hx (mk i)); rewrite Hmk.
Qed.

Lemma stranded_read_handlers {B} (k : gset Handler → M DatabaseConnection B) :
  (∀ hs, (∀ tid e', HWaitFor tid e' ∈ hs → e' ≠ e) → Keep (k hs)) → Keep (gets onTransactionHandlers ≫= k).
Proof.
  intros Hk s Hs. rewrite run_bind, run_gets. apply Hk; [|done].
  intros tid e' Hin ->. destruct Hs as (_ & _ & Hx). apply (Hx (SlWait tid e)). cbn. by rewrite decide_True.
Qed.

(** one more event in a map of events, or one less *)
Lemma insert_other `{Countable K} (m : gmap K nat) i j e' : e' ≠ e → <[i := e']> m !! j = Some e → m !! j = Some e.
Proof. intros Hne [[_ ?]|[_ ?]]%lookup_insert_Some; [congruence|done]. Qed.
Lemma delete_less `{Countable K} (m : gmap K nat) i j e' : delete i m !! j = Some e' → m !! j = Some e'.
Proof. by intros [_ ?]%lookup_delete_Some. Qed.
End stranded.

Lemma stranded_emit e eff : preserves (stranded e) (emit eff).
Proof. apply preserves_modify. intros s Hs. exact Hs. Qed.
Lemma stranded_emit_all e (msg : ClientToServer) : preserves (stranded e) (send_chunk msg).
Proof. apply preserves_bind; [apply stranded_emit|intros _; apply stranded_emit]. Qed.

Lemma values_other `{Countable K} (m : gmap K nat) e x :
  (∀ i e', m !! i = Some e' → e' ≠ e) → x ∈ (map_to_list m).*2 → x ≠ e.
Proof. intros Hm ([i e'] & -> & Hin)%list_elem_of_fmap. apply elem_of_map_to_list in Hin. by eapply Hm. Qed.

Ltac strand_step :=
  lazymatch goal with
  | |- preserves _ (emit _) => apply stranded_emit
  | |- preserves _ (write _) => apply stranded_emit
  | |- preserves _ (state_call _) => apply stranded_emit
  | |- preserves _ (send_chunk _) => apply stranded_emit_all
  | |- preserves _ (new_event ≫= _) => apply stranded_new_event; intros ? ?
  | |- preserves _ (gets lazy_object_read_blocks ≫= _) => apply (stranded_read _ _ SlLazy); [done|intros ? ?]
  | |- preserves _ (gets flushEvents ≫= _) => apply (stranded_read _ _ SlFlush); [done|intros ? ?]
  | |- preserves _ (gets pendingSubscriptions ≫= _) => apply (stranded_read _ _ SlPending); [done|intros ? ?]
  | |- preserves _ (gets schema_response_events ≫= _) => apply (stranded_read _ _ SlSchema); [done|intros ? ?]
  | |- preserves _ (gets onTransactionHandlers ≫= _) => apply stranded_read_handlers; intros ? ?
  | |- preserves _ (lift_option _ _ ≫= _) => apply preserves_lift_option_bind; intros ? ?
  | |- preserves _ (set_event _) => apply stranded_set; first [by eauto | by eapply values_other; eauto
      | match goal with Hin : HWaitFor _ _ ∈ elements _, Hhs : _ |- _ => exact (Hhs _ _ (proj1 (elem_of_elements _ _) Hin)) end ]
  | |- preserves _ (send_keys _ _ _) => apply preserves_send_keys; intros ?
  end.
Ltac strand_modify :=
  lazymatch goal with |- preserves _ (modify _) => apply preserves_modify end;
  intros ? Hst; first [exact Hst |
    eapply stranded_same; [exact Hst|done|done|];
    intros [| | | |] Hx; cbn in *; try exact Hx;
    first [by rewrite lookup_empty in Hx | by apply delete_less in Hx | by eapply insert_other in Hx
          | by repeat case_decide; set_solver ] ].
Ltac strand := repeat (first [strand_step | preserve_step | strand_modify | open_head]).

(** ** The events of the slots were made before *)

Definition old (known : list nat) (s : DatabaseConnection) : Prop :=
  (∀ x e, slot x s = Some e → (e < ev_next s)%nat) ∧ (∀ e, e ∈ ev_set s → (e < ev_next s)%nat) ∧
  ∀ e, e ∈ known → (e < ev_next s)%nat.

Lemma old_new_event {B} known (k : nat → M DatabaseConnection B) :
  (∀ e, preserves (old (e :: known)) (k e)) → preserves (old known) (new_event ≫= k).
Proof.
  intros Hk s (Hs & He & Hkn). unfold new_event. rewrite run_bind, run_bind, run_gets, run_bind, run_modify, run_mret.
  destruct (Hk (ev_next s) (s <| ev_next ::= S |>)) as (Hs' & He' & Hkn').
  - split_and!; [intros x e Hx; specialize (Hs x e Hx); cbn; lia|intros e Hx; specialize (He e Hx); cbn; lia|].
    intros e [->|Hin]%elem_of_cons; cbn; [lia|]. specialize (Hkn e Hin). lia.
  - split_and!; [done|done|]. intros e Hin. apply Hkn'. by right.
Qed.

Lemma old_read {K B} `{Countable K} known (proj : DatabaseConnection → gmap K nat) (mk : K → Slot)
    (k : gmap K nat → M DatabaseConnection B) :
  (∀ i s, slot (mk i) s = proj s !! i) →
  (∀ m : gmap K nat, preserves (old ((map_to_list m).*2 ++ known)) (k m)) → preserves (old known) (gets proj ≫= k).
Proof.
  intros Hmk Hk s (Hs & He & Hkn). rewrite run_bind, run_gets.
  destruct (Hk (proj s) s) as (Hs' & He' & Hkn').
  - split_and!; [done|done|]. intros e [Hin|?]%elem_of_app; [|by apply Hkn].
    apply list_elem_of_fmap in Hin as ([i e'] & -> & Hin). apply elem_of_map_to_list in Hin.
    apply (Hs (mk i)). by rewrite Hmk.
  - split_and!; [done|done|]. intros e Hin. apply Hkn'. apply elem_of_app. by right.
Qed.

Lemma old_read_handlers {B} known (k : gset Handler → M DatabaseConnection B) :
  (∀ hs, preserves (old (omap (λ h, match h with HWaitFor _ e => Some e | _ => None end) (elements hs) ++ known)) (k hs)) →
  preserves (old known) (gets onTransactionHandlers ≫= k).
Proof.
  intros Hk s (Hs & He & Hkn). rewrite run_bind, run_gets.
  destruct (Hk (onTransactionHandlers s) s) as (Hs' & He' & Hkn').
  - split_and!; [done|done|]. intros e [Hin|?]%elem_of_app; [|by apply Hkn].
    apply list_elem_of_omap in Hin as ([k'|tid e'] & Hin & [= ->]). apply elem_of_elements in Hin.
    apply (Hs (SlWait tid e)). cbn. by rewrite decide_True.
  - split_and!; [done|done|]. intros e Hin. apply Hkn'. apply elem_of_app. by right.
Qed.

Lemma old_set known e : e ∈ known → preserves (old known) (set_event e).
Proof.
  intros He. apply preserves_modify. intros s (Hs & Hset & Hk). split_and!; [done| |done].
  intros e'. cbn. rewrite elem_of_union, elem_of_singleton. intros [->|?]; [by apply Hk|by apply Hset].
Qed.

(** an update that only adds known events *)
Lemma old_same known s s' :
  old known s → ev_next s' = ev_next s → ev_set s' = ev_set s →
  (∀ x e, slot x s' = Some e → slot x s = Some e ∨ e ∈ known) → old known s'.
Proof.
  intros (Hs & He & Hk) En Es Hx. unfold old. rewrite En, Es. split_and!; [|done|done].
  intros x e Hxe. destruct (Hx x e Hxe) as [?|?]; [by eapply Hs|by apply Hk].
Qed.

Lemma insert_known `{Countable K} (m : gmap K nat) i j e e' (known : list nat) :
  e' ∈ known → <[i := e']> m !! j = Some e → m !! j = Some e ∨ e ∈ known.
Proof. intros He [[_ ->]|[_ ?]]%lookup_insert_Some; [by right|by left]. Qed.

Lemma elem_of_map_values `{Countable K} (m : gmap K nat) i e known : m !! i = Some e → e ∈ (map_to_list m).*2 ++ known.
Proof.
  intros Hi. apply elem_of_app. left. apply list_elem_of_fmap. exists (i, e). split; [done|]. by apply elem_of_map_to_list.
Qed.
Lemma elem_of_handler_values (hs : gset Handler) tid e known :
  HWaitFor tid e ∈ elements hs →
  e ∈ omap (λ h, match h with HWaitFor _ e => Some e | _ => None end) (elements hs) ++ known.
Proof. intros Hin. apply elem_of_app. left. apply list_elem_of_omap. by exists (HWaitFor tid e). Qed.

Ltac old_known :=
  repeat first [ assumption | by left | by eapply elem_of_map_values | by eapply elem_of_handler_values
               | apply elem_of_app; by left | apply elem_of_app; right | apply elem_of_cons; right ].
Ltac old_modify :=
  lazymatch goal with |- preserves _ (modify _) => apply preserves_modify end;
  intros ? Hst; first [exact Hst |
    eapply old_same; [exact Hst|done|done|];
    intros [| | | |] ? Hx; cbn in *; try (by left);
    first [by rewrite lookup_empty in Hx | by left; apply delete_less in Hx | eapply insert_known in Hx; [exact Hx|old_known]
          | by repeat case_decide; simplify_eq; set_solver ] ].
Ltac old_step :=
  lazymatch goal with
  | |- preserves _ (new_event ≫= _) => apply old_new_event; intros ?
  | |- preserves _ (gets lazy_object_read_blocks ≫= _) => apply (old_read _ _ SlLazy); [done|intros ?]
  | |- preserves _ (gets flushEvents ≫= _) => apply (old_read _ _ SlFlush); [done|intros ?]
  | |- preserves _ (gets pendingSubscriptions ≫= _) => apply (old_read _ _ SlPending); [done|intros ?]
  | |- preserves _ (gets schema_response_events ≫= _) => apply (old_read _ _ SlSchema); [done|intros ?]
  | |- preserves _ (gets onTransactionHandlers ≫= _) => apply old_read_handlers; intros ?
  | |- preserves _ (lift_option _ _ ≫= _) => apply preserves_lift_option_bind; intros ? ?
  | |- preserves _ (set_event _) => apply old_set; old_known
  | |- preserves _ (send_keys _ _ _) => apply preserves_send_keys; intros ?
  end.
Ltac old_pres := repeat (first [old_step | preserve_step | old_modify | open_head]).

Section runs.
Context (clock : nat → Z) (heartbeatInterval : Z).

Lemma stranded_op e op : preserves (stranded e) (run_conn clock heartbeatInterval op).
Proof. destruct op as [[]| | | | | | | | | | |]; cbn [run_conn]; strand. Qed.


Lemma old_op op : preserves (old []) (run_conn clock heartbeatInterval op).
Proof. destruct op as [[]| | | | | | | | | | |]; cbn [run_conn]; old_pres. Qed.

Lemma old_runs ops : old [] (run_conns clock heartbeatInterval ops new_DatabaseConnection).
Proof.
  apply run_conns_preserves; [intros op _; apply old_op|]. split_and!; [|done|by intros ? ?%elem_of_nil].
  intros x e' He. destruct x; cbn in He; rewrite ?lookup_empty in He; try done.
Qed.

(** Subscriptions are recorded under tuples of length three. *)
Definition short_keys (s : DatabaseConnection) : Prop := ∀ k l, pendingSubscriptions s !! (k, Some l) = None.

Lemma short_keys_op op : preserves short_keys (run_conn clock heartbeatInterval op).
Proof.
  destruct op as [[]| | | | | | | | | | |]; cbn [run_conn];
    preserve_with ltac:(first [apply preserves_send_keys; intros ? |
      apply preserves_modify; intros ? Hk; first [exact Hk | intros ? ?; cbn; rewrite lookup_insert_ne by done; apply Hk]]).
Qed.

Lemma short_keys_runs ops s : short_keys s → short_keys (run_conns clock heartbeatInterval ops s).
Proof. apply run_conns_preserves. intros op _. apply short_keys_op. Qed.

Lemma subscribe_run k l s :
  short_keys s → subscribe_one (k, l) s =
    let s' := s <| ev_next ::= S |> <| pendingSubscriptions ::= <[(k, None) := ev_next s]> |> in
    if bool_decide (k.1.1 ≠ "") && bool_decide (k.1.2 ≠ "")
    then (Ok (ev_next s), s' <| conn_log ::= λ log, log ++ [CWrote (Subscribe k.1.1 k.1.2 k.2 l)] |>)
    else (Raise AssertionError, s').
Proof.
  intros Hk. unfold subscribe_one. rewrite run_bind, run_gets. cbn [fst snd]. rewrite (Hk k l). unfold new_event.
  do 2 (rewrite run_bind). rewrite run_gets, run_bind, run_modify, run_mret, run_bind, run_modify, run_bind, run_assertM.
  by destruct (_ && _).
Qed.

Lemma subscribe_single k l s s' e :
  short_keys s → subscribeMultiple [(k, l)] s = (Ok [e], s') →
  e = ev_next s ∧ s' = s <| ev_next ::= S |> <| pendingSubscriptions ::= <[(k, None) := ev_next s]> |>
                         <| conn_log ::= λ log, log ++ [CWrote (Subscribe k.1.1 k.1.2 k.2 l)] |>.
Proof.
  intros Hk Hrun. unfold subscribeMultiple, check_connected, whenM in Hrun. rewrite run_bind, run_bind, run_gets in Hrun.
  destruct (disconnected s); [done|]. cbn [mapM] in Hrun. unfold ret at 1, bind at 1 in Hrun.
  rewrite (subscribe_run k l s Hk) in Hrun. cbv zeta in Hrun. destruct (_ && _); [|done]. by injection Hrun as <- <-.
Qed.

(** [subscribeMultiple] looks a subscription up under a key of length four but records it
    under one of length three, so it never finds it: asked a second time before the answer,
    it replaces the event, and the first caller's event is never set, whatever happens
    later, not even when the connection is lost. *)
Theorem second_subscription_strands_first ops ops' k l l' s1 s2 e1 e2 :
  subscribeMultiple [(k, l)] (run_conns clock heartbeatInterval ops new_DatabaseConnection) = (Ok [e1], s1) →
  subscribeMultiple [(k, l')] s1 = (Ok [e2], s2) →
  e1 ∉ ev_set (run_conns clock heartbeatInterval ops' s2).
Proof.
  pose proof (old_runs ops) as (Hslots & Hset & _). pose proof (short_keys_runs ops new_DatabaseConnection) as Hshort.
  revert Hslots Hset Hshort. generalize (run_conns clock heartbeatInterval ops new_DatabaseConnection) as s.
  intros s Hslots Hset Hshort H1 H2. specialize (Hshort ltac:(intros ??; apply lookup_empty)).
  apply subscribe_single in H1 as [-> ->]; [|done]. apply subscribe_single in H2 as [-> ->].
  2: { intros k' l''. cbn. rewrite lookup_insert_ne by done. apply Hshort. }
  apply (run_conns_preserves clock heartbeatInterval (stranded (ev_next s)) ops'); [intros op _; apply stranded_op|].
  assert (∀ x, slot x s ≠ Some (ev_next s)) as Hx by (intros x Hx%Hslots; lia).
  split_and!; cbn; [lia|intros Hin%Hset; lia|].
  intros [i|ix|kk|name|tid e]; [apply (Hx (SlLazy i))|apply (Hx (SlFlush ix))| |apply (Hx (SlSchema name))|apply (Hx (SlWait tid e))].
  cbn. rewrite lookup_insert. case_decide; [intros [= Heq]; lia|]. rewrite lookup_insert_ne by done. apply (Hx (SlPending kk)).
Qed.
End runs.

(** ** An event in a slot is set in the end *)

(** [op] may put another event into slot [x] *)
Definition overwrites (op : conn_op) (x : Slot) : bool :=
  match op, x with
  | CoSubscribe tuples, SlPending k => bool_decide (k ∈ (λ t : SubKey * bool, (t.1, None)) <$> tuples)
  | CoAddSchema schema, SlSchema name | CoSubscribeNone schema _ _, SlSchema name => bool_decide (so_name schema = name)
  | _, _ => false
  end.

Definition waits (x : Slot) (e : nat) (s : DatabaseConnection) : Prop :=
  (slot x s = Some e ∨ e ∈ ev_set s) ∧
  match x with SlFlush ix => ix <= flushIx s | SlWait _ _ => False | _ => True end.

Lemma waits_same x e s s' :
  waits x e s → slot x s' = slot x s → ev_set s ⊆ ev_set s' → flushIx s <= flushIx s' → waits x e s'.
Proof.
  intros [Hx Hf] Hs He Hi. split; [rewrite Hs; destruct Hx; [by left|right; set_solver]|].
  destruct x; try done. lia.
Qed.

Lemma waits_keep x e s s' :
  waits x e s → (slot x s = Some e → slot x s' = Some e) → ev_set s' = ev_set s →
  match x with SlFlush _ => flushIx s <= flushIx s' | _ => True end → waits x e s'.
Proof.
  intros [Hx Hf] Hs He Hi. split; [rewrite He; destruct Hx; [left; auto|by right]|]. destruct x; try done. lia.
Qed.

Lemma waits_set x e e' : preserves (waits x e) (set_event e').
Proof.
  apply preserves_modify. intros s Hs. eapply waits_same; [exact Hs|by destruct x|cbn; set_solver|done].
Qed.

(** an event leaves a map of events and is set *)
Lemma waits_answer {K} `{Countable K} (proj : DatabaseConnection → gmap K nat) `{!Setter proj} (mk : K → Slot) i x e s :
  (∀ j s, slot (mk j) s = proj s !! j) →
  (∀ s, slot x (s <| proj ::= delete i |>) = slot x s ∨ x = mk i) →
  (∀ s, ev_set (s <| proj ::= delete i |>) = ev_set s ∧ flushIx (s <| proj ::= delete i |>) = flushIx s) →
  waits x e s →
  waits x e (match proj s !! i with Some e => set_event e | None => mret tt end (s <| proj ::= delete i |>)).2.
Proof.
  intros Hmk Hx Hsame [Hw Hf]. destruct (Hsame s) as [Es Ef].
  assert (match x with SlFlush ix => ix <= flushIx (s <| proj ::= delete i |>) | SlWait _ _ => False | _ => True end) as Hf'
    by (rewrite Ef; done).
  destruct (Hx s) as [Heq|Heq].
  - assert (waits x e (s <| proj ::= delete i |>)) as Hw' by (split; [rewrite Heq, Es; exact Hw|exact Hf']).
    destruct (proj s !! i) as [e'|]; [by apply waits_set|exact Hw'].
  - subst x. destruct Hw as [Hw|Hw].
    + rewrite Hmk in Hw. rewrite Hw. split; [right; cbn; set_solver|]. exact Hf'.
    + assert (waits (mk i) e (s <| proj ::= delete i |>)) as Hw' by (split; [right; by rewrite Es|exact Hf']).
      destruct (proj s !! i) as [e'|]; [by apply waits_set|exact Hw'].
Qed.

Section woken.
Context (x : Slot) (e : nat).
Abbreviation Keep := (preserves (waits x e)).

Lemma waits_flush_response guid : Keep (onFlushResponse guid).
Proof.
  intros s Hs. apply (waits_answer flushEvents SlFlush guid x e s); [done| |done|done].
  intros s0. destruct x as [|ix| | |]; try (by left). cbn. rewrite lookup_delete.
  destruct (decide (guid = ix)) as [->|]; [by right|by left].
Qed.

Lemma waits_lazy_response i values : Keep (onLazyLoadResponse i values).
Proof.
  unfold onLazyLoadResponse. apply preserves_bind; [apply preserves_modify; intros ??; done|intros _].
  apply preserves_bind; [apply preserves_modify; intros ??; done|intros _].
  intros s Hs. apply (waits_answer lazy_object_read_blocks SlLazy i x e s); [done| |done|done].
  intros s0. destruct x as [j| | | |]; try (by left). cbn. rewrite lookup_delete.
  destruct (decide (i = j)) as [->|]; [by right|by left].
Qed.

Lemma waits_disconnected : Keep _onDisconnected.
Proof.
  intros s [Hw Hf]. rewrite onDisconnected_run. cbn [snd]. split; [right|by destruct x].
  cbn. rewrite !elem_of_union, !elem_of_values. destruct Hw as [Hw|Hw]; [|tauto].
  destruct x as [i|ix|k|name|tid e']; cbn in Hw; [| | | |done]; naive_solver.
Qed.

Lemma waits_new_event {B} (k : nat → M DatabaseConnection B) : (∀ e', Keep (k e')) → Keep (new_event ≫= k).
Proof.
  intros Hk s Hs. unfold new_event. rewrite run_bind, run_bind, run_gets, run_bind, run_modify, run_mret. apply Hk.
  by eapply waits_same; [exact Hs|destruct x|done|done].
Qed.

Lemma waits_load_lazy i schema typename : Keep (_loadLazyObject i schema typename).
Proof.
  intros s Hs. unfold _loadLazyObject. rewrite run_bind, run_gets.
  destruct (lazy_object_read_blocks s !! i) as [e'|] eqn:Hi; [exact Hs|].
  unfold new_event, write. rewrite run_bind, run_bind, run_gets, run_bind, run_modify, run_mret, run_bind, run_modify.
  rewrite run_bind, run_emit, run_mret. eapply waits_keep; [exact Hs| |done|by destruct x]. destruct x as [j| | | |]; try done.
  cbn. intros Hj. rewrite lookup_insert_ne; [done|congruence].
Qed.

Lemma waits_flush : Keep flush.
Proof.
  unfold flush. apply preserves_bind.
  { unfold check_connected. apply preserves_bind; [apply preserves_gets|intros ?; apply preserves_whenM; intros ?; apply preserves_raise]. }
  intros _ s Hs. unfold new_event, write. rewrite run_bind, run_modify, run_bind, run_gets.
  do 2 rewrite run_bind. rewrite run_gets, run_bind, run_modify, run_mret, run_bind, run_modify, run_bind, run_emit, run_mret.
  eapply waits_keep; [exact Hs| |done|destruct x; cbn; try done; lia]. destruct Hs as [_ Hf].
  destruct x as [|ix| | |]; try done. cbn. rewrite lookup_insert_ne; [done|]. lia.
Qed.

Lemma waits_subscribe_one tup : x ≠ SlPending (tup.1, None) → Keep (subscribe_one tup).
Proof.
  intros Hne s Hs. unfold subscribe_one. rewrite run_bind, run_gets. case_match; [exact Hs|].
  revert s Hs H. intros s Hs _. revert s Hs. apply waits_new_event. intros e'.
  apply preserves_bind; [|intros _; repeat preserve_step; apply preserves_modify; intros ??; done].
  apply preserves_modify. intros s Hs. eapply waits_same; [exact Hs| |done|done].
  destruct x as [| |k| |]; try done. cbn. rewrite lookup_insert_ne; [done|congruence].
Qed.

Lemma waits_add_schema schema : x ≠ SlSchema (so_name schema) → Keep (addSchema schema).
Proof.
  intros Hne. unfold addSchema. apply preserves_bind; [apply preserves_gets|intros known].
  apply preserves_bind; [apply preserves_whenM; intros _|intros _; repeat preserve_step].
  apply preserves_bind; [by apply preserves_modify|intros _]. apply preserves_bind; [by apply preserves_modify|intros _].
  apply waits_new_event. intros e'. apply preserves_modify. intros s Hs. eapply waits_same; [exact Hs| |done|done].
  destruct x as [| | |name|]; try done. cbn. rewrite lookup_insert_ne; [done|congruence].
Qed.
End woken.

Section liveness.
Context (clock : nat → Z) (heartbeatInterval : Z).

Ltac waits_step :=
  lazymatch goal with
  | |- preserves _ (set_event _) => apply waits_set
  | |- preserves _ (onFlushResponse _) => apply waits_flush_response
  | |- preserves _ (onLazyLoadResponse _ _) => apply waits_lazy_response
  | |- preserves _ _onDisconnected => apply waits_disconnected
  | |- preserves _ (_loadLazyObject _ _ _) => apply waits_load_lazy
  | |- preserves _ flush => apply waits_flush
  | |- preserves _ (new_event ≫= _) => apply waits_new_event; intros ?
  | |- preserves _ (send_keys _ _ _) => apply preserves_send_keys; intros ?
  | |- preserves _ (modify _) => apply preserves_modify; intros ? Hwaits; first [exact Hwaits |
      eapply waits_same; [exact Hwaits|match goal with |- slot ?x _ = _ => destruct x; first [done | by destruct Hwaits] end|done|done] ]
  end.

Lemma waits_op x e op : overwrites op x = false → preserves (waits x e) (run_conn clock heartbeatInterval op).
Proof.
  assert (∀ schema, bool_decide (so_name schema = match x with SlSchema n => n | _ => "" end) = false ∨ (∀ n, x ≠ SlSchema n) →
    preserves (waits x e) (addSchema schema)) as Hadd.
  { intros schema Hs. apply waits_add_schema. intros ->. destruct Hs as [?%bool_decide_eq_false|Hs]; [done|by apply (Hs (so_name schema))]. }
  assert (∀ schema, overwrites (CoAddSchema schema) x = false → preserves (waits x e) (addSchema schema)) as Hadd'.
  { intros schema Hs. apply Hadd. destruct x; try (by right). by left. }
  intros Hop. destruct op as [[]| |schema| |tuples|schema typename waited| | | | | |]; cbn [run_conn];
    try solve [repeat first [waits_step | preserve_step | open_head]].
  - apply preserves_bind; [by apply Hadd'|intros ?; apply preserves_ret].
  - apply preserves_bind; [|intros ?; apply preserves_ret]. unfold subscribeMultiple.
    apply preserves_bind; [repeat first [preserve_step | open_head]|intros _]. apply preserves_mapM. intros tup Htup.
    apply waits_subscribe_one. intros ->. cbn in Hop. apply bool_decide_eq_false in Hop. apply Hop.
    apply list_elem_of_fmap. by exists tup.
  - unfold subscribeToNone. apply preserves_bind; [|intros _; by apply preserves_modify].
    unfold addSchema_blocking. apply preserves_bind; [by apply Hadd'|intros _]. repeat first [preserve_step | open_head].
Qed.

(** C16. The loss of a connection wakes those who wait for an answer of the server.  The event of
    a flush, a lazy load, a schema or a subscription that is waited for stays where the
    connection finds it until it is set, whatever happens, and is set when the message that the
    connection is lost comes after that, provided nobody asks for the same subscription or a
    schema of the same name in between.  It says nothing of two kinds of waiters, whom the code
    does not wake: those in waitForTransactionId, and those who ask for a schema when the
    connection is already lost. *)
Theorem waiters_are_woken x e s ops :
  slot x s = Some e → (∀ tid e', x ≠ SlWait tid e') → (∀ ix, x = SlFlush ix → ix <= flushIx s) →
  Forall (λ op, overwrites op x = false) ops →
  let s' := run_conns clock heartbeatInterval ops s in
  (slot x s' = Some e ∨ e ∈ ev_set s') ∧
  e ∈ ev_set (run_conn clock heartbeatInterval (CoMessage Disconnected) s').2.
Proof.
  intros Hx Hwait Hflush Hops. cbv zeta.
  assert (waits x e s) as Hs.
  { split; [by left|]. destruct x; try done; [by apply Hflush|by eapply Hwait]. }
  assert (waits x e (run_conns clock heartbeatInterval ops s)) as Hs'.
  { apply run_conns_preserves; [|done]. intros op Hop. apply waits_op. by eapply Forall_forall in Hops. }
  split; [apply Hs'|]. generalize dependent (run_conns clock heartbeatInterval ops s). intros s' [Hw Hf].
  cbn [run_conn]. unfold _onMessage. rewrite run_bind, run_modify, onDisconnected_run. cbn.
  rewrite !elem_of_union, !elem_of_values. destruct x as [i|ix|k|name|tid e']; cbn in Hw; naive_solver.
Qed.
End liveness.

(** ** Concrete runs *)
Module EventScenario.
Definition clock : nat → Z := Z.of_nat.
Definition key : SubKey := ("app"%string, "Counter"%string, None).
Definition fresh : DatabaseConnection := new_DatabaseConnection.
Definition first := subscribeMultiple [(key, false)] fresh.
Definition second := subscribeMultiple [(key, false)] first.2.
Definition flushing : DatabaseConnection := run_conns clock 5 [CoFlush] fresh.
End EventScenario.

Lemma second_subscription_strands_first_witness :
  0%nat ∉ ev_set (run_conns EventScenario.clock 5
    [CoMessage (SubscriptionData "app" "Counter" None ∅ ∅ None); CoMessage (SubscriptionComplete "app" "Counter" None 1);
     CoMessage Disconnected] EventScenario.second.2).
Proof.
  apply (second_subscription_strands_first EventScenario.clock 5 [] _ EventScenario.key false false
    EventScenario.first.2 EventScenario.second.2 0%nat 1%nat); apply outcome_eta; vm_compute; reflexivity.
Defined.

Lemma waiters_are_woken_witness :
  0%nat ∈ ev_set (run_conn EventScenario.clock 5 (CoMessage Disconnected)
    (run_conns EventScenario.clock 5 [CoMessage (Initialize 1 2 3); CoFlush] EventScenario.flushing)).2.
Proof.
  refine (proj2 (waiters_are_woken EventScenario.clock 5 (SlFlush 1) 0%nat EventScenario.flushing
    [CoMessage (Initialize 1 2 3); CoFlush] _ _ _ _)); [vm_compute; reflexivity|discriminate| |by repeat constructor].
  intros ix [= <-]. vm_compute. discriminate.
Defined.
