(* ===== verification/ConnectionData.v ===== *)
(** * What the client hands to its versioned objects

    The data of a subscription arrives in pieces, mixed with other messages.  When it is
    complete, the pieces are handed on as one transaction, with the index values turned
    into the sets of each index. *)

From Stdlib Require Import Lia.
From stdpp Require Import options.
From S2P Require Import Prelude Schema Messages Connection ConnectionTheorems.

Local Open Scope Z_scope.

(** ** Index values and sets *)

(** the sets that a dictionary of index values stands for *)
Definition in_index (index_values : gmap ObjectFieldId (option IndexValue)) (ix : IndexId) (oid : ObjectId) : Prop :=
  ∃ b, index_values !! OFI oid (ixFieldId ix) b = Some (Some (indexValue ix)).

(** [m] raises nothing and changes only the clock and the messages sent *)
Definition beats {A} (m : M DatabaseConnection A) (Q : A → Prop) : Prop :=
  ∀ s, ∃ a n l, m s = (Ok a, s <| clock_reads := n |> <| conn_log ::= λ log, log ++ l |>) ∧ Q a.

Lemma beats_ret {A} (a : A) (Q : A → Prop) : Q a → beats (mret a) Q.
Proof.
  intros Ha s. exists a, (clock_reads s), []. split; [|done]. rewrite run_mret. f_equal. destruct s; cbn. by rewrite app_nil_r.
Qed.

Lemma beats_bind {A B} (m : M DatabaseConnection A) (f : A → M DatabaseConnection B) (Q : A → Prop) (R : B → Prop) :
  beats m Q → (∀ a, Q a → beats (f a) R) → beats (m ≫= f) R.
Proof.
  intros Hm Hf s. destruct (Hm s) as (a & n & l & Hrun & Ha).
  destruct (Hf a Ha (s <| clock_reads := n |> <| conn_log ::= λ log, log ++ l |>)) as (b & n' & l' & Hrun' & Hb).
  exists b, n', (l ++ l'). split; [|done]. rewrite run_bind, Hrun, Hrun'. f_equal. destruct s; cbn. by rewrite (assoc_L (++)).
Qed.

Lemma beats_foldM {A B} (f : A → B → M DatabaseConnection B) (I : list A → B → Prop) l acc :
  I [] acc → (∀ pre x acc, I pre acc → beats (f x acc) (I (pre ++ [x]))) → beats (foldM l acc f) (I l).
Proof.
  intros Hacc Hf. assert (∀ post pre acc, I pre acc → beats (foldM post acc f) (I (pre ++ post))) as Hgen; [|by apply (Hgen l [])].
  induction post as [|x post IH]; intros pre acc' HI; cbn [foldM]; [rewrite app_nil_r; by apply beats_ret|].
  eapply beats_bind; [by apply Hf|]. intros acc'' HI'. specialize (IH (pre ++ [x]) acc'' HI'). by rewrite <-(assoc_L (++)) in IH.
Qed.

Section data.
Context (clock : nat → Z) (heartbeatInterval : Z).

Lemma beats_time : beats (time_time clock) (λ _, True).
Proof.
  intros s. exists (clock (clock_reads s)), (S (clock_reads s)), []. split; [|done].
  unfold time_time. rewrite run_bind, run_gets, run_bind, run_modify, run_mret. f_equal. destruct s; cbn. by rewrite app_nil_r.
Qed.

Lemma beats_emit e : beats (emit e) (λ _, True).
Proof. intros s. exists tt, (clock_reads s), [e]. split; [|done]. rewrite run_emit. by destruct s. Qed.

(** the sets for the first entries of the dictionary *)
Definition sets_of (l : list (ObjectFieldId * option IndexValue)) (acc : gmap IndexId (gset ObjectId) * Z) : Prop :=
  ∀ ix oid, oid ∈ mm_get acc.1 ix ↔ ∃ b, (OFI oid (ixFieldId ix) b, Some (indexValue ix)) ∈ l.

Lemma set_add_beats pre x acc :
  sets_of pre acc → beats (set_add clock heartbeatInterval x.1 x.2 acc) (sets_of (pre ++ [x])).
Proof.
  intros Hacc. destruct x as [[oid fid b] [v|]]; cbn [fst snd set_add].
  - assert (∀ t, sets_of (pre ++ [(OFI oid fid b, Some v)]) (mm_add (IXI fid v) oid acc.1, t)) as Hnext.
    { intros t ix oid'. cbn [fst]. rewrite elem_of_mm_add, (Hacc ix oid'). setoid_rewrite elem_of_app.
      setoid_rewrite list_elem_of_singleton. split.
      - intros [[-> ->]|[b' Hb]]; [by exists b; right|by exists b'; left].
      - intros [b' [Hb|[= -> Hf -> Hv]]]; [right; by exists b'|left]. by destruct ix; cbn in *; subst. }
    eapply beats_bind; [apply beats_time|intros now _]. case_bool_decide; [|by apply beats_ret].
    eapply beats_bind; [apply beats_emit|intros _ _]. eapply beats_bind; [apply beats_time|intros t0 _]. by apply beats_ret.
  - apply beats_ret. intros ix oid'. rewrite (Hacc ix oid'). setoid_rewrite elem_of_app. setoid_rewrite list_elem_of_singleton.
    split; [intros [b' Hb]; by exists b'; left|intros [b' [Hb|?]]; [by exists b'|done]].
Qed.

Lemma indexValuesToSetAdds_beats index_values :
  beats (_indexValuesToSetAdds clock heartbeatInterval index_values)
    (λ sets, ∀ ix oid, oid ∈ default [] (sets !! ix) ↔ in_index index_values ix oid).
Proof.
  unfold _indexValuesToSetAdds. eapply beats_bind; [apply beats_time|intros t0 _].
  eapply beats_bind; [apply (beats_foldM _ sets_of)|].
  - intros ix oid. unfold mm_get. cbn. rewrite lookup_empty. cbn. split; [set_solver|intros [? []%elem_of_nil]].
  - intros pre x acc Hacc. by apply (set_add_beats pre x acc).
  - intros acc Hacc. apply beats_ret. intros ix oid. rewrite lookup_fmap.
    assert (oid ∈ default [] (elements <$> acc.1 !! ix) ↔ oid ∈ mm_get acc.1 ix) as ->.
    { unfold mm_get. destruct (acc.1 !! ix); cbn; [apply elem_of_elements|set_solver]. }
    rewrite (Hacc ix oid). unfold in_index. by setoid_rewrite elem_of_map_to_list.
Qed.
End data.

(** ** Subscriptions *)

Section subscription.
Context (clock : nat → Z) (heartbeatInterval : Z) (k : SubKey).

(** the data that a message carries for the subscription, if it does *)
Definition data_for (msg : ServerToClient) :
    option (gmap ObjectFieldId (option bytes) * gmap ObjectFieldId (option IndexValue) * option (list ObjectId)) :=
  match msg with
  | SubscriptionData schema typename fv values index_values identities =>
      if decide ((schema, typename, fv) = k) then Some (values, index_values, identities) else None
  | _ => None
  end.

(** what the server sent for it: later pieces win, as in [dict.update] *)
Definition values_sent (ms : list ServerToClient) : gmap ObjectFieldId (option bytes) :=
  foldl (λ acc d, d.1.1 ∪ acc) ∅ (omap data_for ms).
Definition index_values_sent (ms : list ServerToClient) : gmap ObjectFieldId (option IndexValue) :=
  foldl (λ acc d, d.1.2 ∪ acc) ∅ (omap data_for ms).
Definition identity_sent (ms : list ServerToClient) (oid : ObjectId) : Prop :=
  ∃ d ids, d ∈ omap data_for ms ∧ d.2 = Some ids ∧ oid ∈ ids.

(** a message that leaves the subscription open and is not a lazy one for it *)
Definition keeps_open (msg : ServerToClient) : Prop :=
  match msg with
  | LazySubscriptionData schema typename fv _ _ | SubscriptionComplete schema typename fv _ => (schema, typename, fv) ≠ k
  | _ => True
  end.

(** the messages [ms] have been collected *)
Definition collected (ms : list ServerToClient) (s : DatabaseConnection) : Prop :=
  let b := default new_buildup (subscription_buildup s !! k) in
  bu_values b = values_sent ms ∧ bu_index_values b = index_values_sent ms ∧ bu_markedLazy b = false ∧
  (∀ oid, oid ∈ default [] (bu_identities b) ↔ identity_sent ms oid) ∧
  ((∃ d, d ∈ omap data_for ms ∧ is_Some d.2) → is_Some (bu_identities b)) ∧
  (omap data_for ms ≠ [] → is_Some (subscription_buildup s !! k)).

Lemma collected_same ms s s' :
  subscription_buildup s' !! k = subscription_buildup s !! k → collected ms s → collected ms s'.
Proof. unfold collected. by intros ->. Qed.

(** what does not touch the entry of [k] *)
Definition untouched {A} (m : M DatabaseConnection A) : Prop :=
  ∀ b, preserves (λ s, subscription_buildup s !! k = b) m.

Ltac untouched_step :=
  lazymatch goal with
  | |- preserves _ (modify _) => apply preserves_modify; intros ? Hsame; first [exact Hsame |
      cbn; first [rewrite lookup_insert_ne by done | rewrite lookup_alter_ne by done | rewrite lookup_delete_ne by done]; exact Hsame]
  end.
Ltac untouched_pres := intros ?; repeat first [untouched_step | preserve_step | open_head].

Lemma untouched_other msg :
  data_for msg = None → keeps_open msg → untouched (_onMessage clock heartbeatInterval msg).
Proof.
  intros Hd Hk. destruct msg; cbn in Hd, Hk; try (unfold _onMessage; by untouched_pres).
  - case_decide; [done|]. unfold _onMessage. by untouched_pres.
Qed.

(** one piece more *)
Definition add_piece (values : gmap ObjectFieldId (option bytes)) (index_values : gmap ObjectFieldId (option IndexValue))
    (identities : option (list ObjectId)) (b : Buildup) : Buildup :=
  {| bu_values := values ∪ bu_values b; bu_index_values := index_values ∪ bu_index_values b;
     bu_identities := match identities with
                      | None => bu_identities b
                      | Some ids => Some (elements (list_to_set (default [] (bu_identities b)) ∪ list_to_set ids : gset ObjectId))
                      end;
     bu_markedLazy := bu_markedLazy b |}.

Lemma subscriptionData_run values index_values identities s :
  bu_markedLazy (default new_buildup (subscription_buildup s !! k)) = false →
  subscription_buildup (onSubscriptionData k values index_values identities s).2 !! k =
    Some (add_piece values index_values identities (default new_buildup (subscription_buildup s !! k))).
Proof.
  intros Hlazy. unfold onSubscriptionData. rewrite run_bind, run_gets.
  set (s1 := if subscription_buildup s !! k is Some _ then s else s <| subscription_buildup ::= <[k := new_buildup]> |>).
  assert (match subscription_buildup s !! k with
          | Some b => assertM (negb (bu_markedLazy b))
          | None => modify (λ s, s <| subscription_buildup ::= <[k := new_buildup]> |>)
          end s = (Ok tt, s1)) as Hs1.
  { unfold s1. destruct (subscription_buildup s !! k) as [b|]; [|done]. cbn in Hlazy. by rewrite run_assertM, Hlazy. }
  assert (subscription_buildup s1 !! k = Some (default new_buildup (subscription_buildup s !! k))) as Hb.
  { unfold s1. destruct (subscription_buildup s !! k) as [b|] eqn:Hk; [exact Hk|]. cbn. apply lookup_insert_eq. }
  rewrite run_bind, Hs1, run_bind, run_modify, run_bind, run_modify. clearbody s1.
  destruct identities as [ids|]; [rewrite run_modify|rewrite run_mret]; cbn; by rewrite !lookup_alter_eq, Hb.
Qed.

Lemma collected_data ms msg d s :
  data_for msg = Some d → collected ms s → collected (ms ++ [msg]) (_onMessage clock heartbeatInterval msg s).2.
Proof.
  intros Hd (Hv & Hi & Hl & Hids & Hknown & Hsome).
  assert (omap data_for (ms ++ [msg]) = omap data_for ms ++ [d]) as Homap by (rewrite omap_app; cbn; by rewrite Hd).
  destruct msg as [| | | |schema typename fv values index_values identities| | | | | | | |]; try done. cbn in Hd.
  case_decide as Hk; [|done]. injection Hd as <-. unfold _onMessage. rewrite run_bind, run_modify, Hk.
  set (s0 := s <| messages_received ::= _ |>).
  pose proof (subscriptionData_run values index_values identities s0 Hl) as Hrun.
  unfold collected, values_sent, index_values_sent, identity_sent. cbv zeta. rewrite Hrun, Homap, !foldl_app. cbn.
  split_and!; [by rewrite Hv|by rewrite Hi|exact Hl| | |by eexists].
  - intros oid. setoid_rewrite elem_of_app. setoid_rewrite list_elem_of_singleton. destruct identities as [ids|].
    + cbn. rewrite elem_of_elements, elem_of_union, !elem_of_list_to_set. rewrite (Hids oid). unfold identity_sent.
      split; [intros [(d & l & ? & ? & ?)|?]; [exists d, l; tauto|by exists (values, index_values, Some ids), ids; split; [right|]]|].
      intros (d & l & [Hin| ->] & Hd & Ho); [left; by exists d, l|right; cbn in Hd; congruence].
    + rewrite (Hids oid). unfold identity_sent.
      split; [intros (d & l & ? & ? & ?); exists d, l; tauto|]. intros (d & l & [Hin| ->] & Hd & Ho); [by exists d, l|done].
  - intros (d & Hin & Hd). destruct identities as [ids|]; [by eexists|]. apply Hknown.
    apply elem_of_app in Hin as [Hin| ->%list_elem_of_singleton]; [by exists d|by destruct Hd].
Qed.

Definition receive (ms : list ServerToClient) : DatabaseConnection → DatabaseConnection :=
  run_conns clock heartbeatInterval (CoMessage <$> ms).

Lemma collected_receive ms s :
  Forall keeps_open ms → subscription_buildup s !! k = None → collected ms (receive ms s).
Proof.
  intros Hms Hs. induction ms as [|msg ms IH] using rev_ind.
  - unfold collected. cbn. rewrite Hs. cbn. split_and!; [done|done|done| |by intros (? & ?%elem_of_nil & _)|done].
    intros oid. split; [by intros ?%elem_of_nil|by intros (? & ? & ?%elem_of_nil & _)].
  - apply Forall_app in Hms as [Hms Hmsg]. rewrite Forall_singleton in Hmsg. specialize (IH Hms).
    unfold receive. rewrite fmap_app, run_conns_app. cbn [fmap list_fmap run_conns run_conn].
    destruct (data_for msg) as [d|] eqn:Hd; [by eapply collected_data|].
    assert (collected (ms ++ [msg]) (receive ms s)) as Hc.
    { unfold collected, values_sent, index_values_sent, identity_sent in *. by rewrite omap_app; cbn; rewrite Hd, app_nil_r. }
    eapply collected_same; [|exact Hc]. by apply (untouched_other msg Hd Hmsg _ (receive ms s)).
Qed.

(** the subscription is taken out, and the effects [l] have happened *)
Definition closing (cur : Z) (l : list ConnEffect) (s : DatabaseConnection) : Prop :=
  subscription_buildup s !! k = None ∧ cur_transaction_num s = cur ∧ Forall (λ e, e ∈ conn_log s) l.

Lemma closing_log cur l s l' n :
  closing cur l s → closing cur l (s <| clock_reads := n |> <| conn_log ::= λ log, log ++ l' |>).
Proof.
  intros (Hs & Hc & Hl). split_and!; [done|done|]. eapply Forall_impl; [exact Hl|]. intros e He. cbn. apply elem_of_app. by left.
Qed.

Lemma closing_emit cur l e s : closing cur l s → closing cur (e :: l) (s <| conn_log ::= λ log, log ++ [e] |>).
Proof.
  intros (Hs & Hc & Hl). split_and!; [done|done|]. constructor; [cbn; apply elem_of_app; right; by left|].
  eapply Forall_impl; [exact Hl|]. intros e' He. cbn. apply elem_of_app. by left.
Qed.

Lemma closing_beats {A} (m : M DatabaseConnection A) Q cur l s :
  beats m Q → closing cur l s → wp m (λ a s', closing cur l s' ∧ Q a) (λ _ _, False) s.
Proof.
  intros Hm Hs. destruct (Hm s) as (a & n & l' & Hrun & Ha). unfold wp. rewrite Hrun. split; [by apply closing_log|done].
Qed.

Lemma closing_marks ids tid cur l s :
  closing cur l s → wp (_markSchemaAndTypeMaxTids ids tid) (λ _ s', closing cur l s') (λ _ _, False) s.
Proof.
  intros Hs. eapply (wp_mono _ (λ _, closing cur l) _ (λ _ s', closing cur l s' ∧ False)); [|done|by intros ?? []].
  revert s Hs. change (guards (closing cur l) (λ _, False) (_markSchemaAndTypeMaxTids ids tid)).
  unfold _markSchemaAndTypeMaxTids. apply guards_forM. intros fid _. apply guards_bind; [apply guards_gets|intros defs].
  destruct (defs !! fid); [|apply guards_ret].
  repeat first [apply guards_bind; [|intros ?] | apply guards_gets | apply guards_whenM; intros _ | apply guards_modify; intros ? Hs; exact Hs].
Qed.

Lemma closing_emits {A} (f : A → ConnEffect) xs cur l s :
  closing cur l s → wp (forM xs (λ x, emit (f x))) (λ _ s', closing cur (l ++ (f <$> xs)) s') (λ _ _, False) s.
Proof.
  intros (Hs & Hc & Hl). unfold wp. rewrite forM_emit. split_and!; [done|done|]. apply Forall_app. split.
  - eapply Forall_impl; [exact Hl|]. intros e' He. cbn. apply elem_of_app. by left.
  - apply Forall_forall. intros e He. cbn. apply elem_of_app. by right.
Qed.

(** who is marked as subscribed *)
Definition marks (b : Buildup) (tid : Z) : list ConnEffect :=
  match k.2 with
  | None => [CState (MarkTypeSubscribed k.1.1 k.1.2 tid)]
  | Some _ => (λ oid, CState (MarkObjectSubscribed oid tid)) <$> default [] (bu_identities b)
  end.

(** what has been handed on when the subscription is complete *)
Definition completed (b : Buildup) (tid : Z) (e : nat) (s : DatabaseConnection) : Prop :=
  e ∈ ev_set s ∧ cur_transaction_num s = tid ∧ subscription_buildup s !! k = None ∧
  (∃ sets, last (conn_log s) = Some (CState (IncomingTransaction (Some tid) (bu_values b) sets ∅)) ∧
     ∀ ix oid, oid ∈ default [] (sets !! ix) ↔ in_index (bu_index_values b) ix oid) ∧
  Forall (λ x, x ∈ conn_log s) (marks b tid).

Lemma complete_wp s e b tid :
  pendingSubscriptions s !! (k, None) = Some e → subscription_buildup s !! k = Some b → bu_markedLazy b = false →
  (k.2 = None ∨ is_Some (bu_identities b)) → cur_transaction_num s <= tid →
  wp (onSubscriptionComplete clock heartbeatInterval k tid) (λ _, completed b tid e) (λ _ _, False) s.
Proof.
  intros Hp Hb Hlazy Hids Hcur. unfold onSubscriptionComplete. apply wp_gets_bind. rewrite Hp. apply wp_gets_bind.
  rewrite Hb. apply wp_bind, wp_ret, wp_bind. unfold wp at 1. rewrite run_modify.
  set (s1 := s <| subscription_buildup ::= delete k |>).
  assert (closing (cur_transaction_num s) [] s1) as Hs1 by (split_and!; [apply lookup_delete_eq|done|constructor]).
  clearbody s1. apply wp_bind. eapply wp_mono; [by apply closing_marks| |done]. intros ? s2 Hs2. cbv beta.
  apply wp_bind. eapply wp_mono; [apply (closing_beats _ _ _ _ _ (indexValuesToSetAdds_beats clock heartbeatInterval _) Hs2)| |done].
  intros sets s3 [Hs3 Hsets]. apply wp_bind.
  eapply (wp_mono _ (λ _, closing (cur_transaction_num s) (marks b tid)) _ (λ _ _, False)); [| |done].
  { unfold marks. destruct (k.2) as [fv|].
    - destruct Hids as [?|[ids ->]]; [done|]. exact (closing_emits (λ oid, CState (MarkObjectSubscribed oid tid)) ids _ [] s3 Hs3).
    - by apply closing_emit. }
  intros ? s4 Hs4. apply wp_gets_bind, wp_bind.
  eapply (wp_mono _ (λ _ s', closing (cur_transaction_num s) (marks b tid) s') _ (λ _ _, False));
    [eapply wp_mono; [exact (closing_emits (λ _, CSent Heartbeat) _ _ _ s4 Hs4)|intros ? s' (?&?&[? _]%Forall_app); by split_and!|done]| |done].
  intros ? s5 Hs5. rewrite Hlazy. apply wp_bind, wp_ret, wp_bind. unfold state_call, wp at 1. rewrite run_emit.
  apply wp_gets_bind, wp_bind. destruct Hs5 as (Hs5 & Hc5 & Hl5). unfold wp at 1. rewrite run_assertM. cbn [cur_transaction_num].
  rewrite bool_decide_true by (cbn; lia). apply wp_bind. unfold wp at 1. rewrite run_modify. unfold set_event, wp. rewrite run_modify.
  split_and!; cbn; [set_solver|done|done| |].
  - exists sets. split; [apply last_snoc|done].
  - eapply Forall_impl; [exact Hl5|]. intros x Hx. apply elem_of_app. by left.
Qed.

Lemma pending_kept msg p : preserves (λ s, pendingSubscriptions s = p) (_onMessage clock heartbeatInterval msg).
Proof.
  unfold _onMessage. destruct msg;
    repeat first [preserve_step | lazymatch goal with |- preserves _ (modify _) => apply preserves_modify; intros ? Hp; exact Hp end | open_head].
Qed.

(** C15. The pieces of a subscription are put together.  After any messages, among them the
    pieces of a subscription that is waited for, its completion hands on, last and at the
    transaction number of the server, the union of the values sent for it, with the sets of
    each index made of exactly the index values sent for it; the type, or every object
    sent, is marked as subscribed at that number; and the caller is woken. *)
Theorem subscription_is_assembled ms s e tid :
  pendingSubscriptions s !! (k, None) = Some e → subscription_buildup s !! k = None → Forall keeps_open ms →
  (∃ d, d ∈ omap data_for ms ∧ (k.2 = None ∨ is_Some d.2)) → cur_transaction_num (receive ms s) <= tid →
  ∃ b s', _onMessage clock heartbeatInterval (SubscriptionComplete k.1.1 k.1.2 k.2 tid) (receive ms s) = (Ok tt, s') ∧
    completed b tid e s' ∧ bu_values b = values_sent ms ∧ bu_index_values b = index_values_sent ms ∧
    ∀ oid, oid ∈ default [] (bu_identities b) ↔ identity_sent ms oid.
Proof.
  intros Hp Hs Hms (d & Hd & Hknown) Hcur. destruct (collected_receive ms s Hms Hs) as (Hv & Hi & Hl & Hids & Hk & Hsome).
  assert (pendingSubscriptions (receive ms s) !! (k, None) = Some e) as Hp'.
  { assert (pendingSubscriptions (receive ms s) = pendingSubscriptions s) as ->; [|done].
    apply (run_conns_preserves clock heartbeatInterval (λ s', pendingSubscriptions s' = pendingSubscriptions s)); [|done].
    intros op (msg & -> & _)%list_elem_of_fmap. apply pending_kept. }
  destruct Hsome as [b Hb]; [by intros Hnil; rewrite Hnil in Hd; apply elem_of_nil in Hd|].
  rewrite Hb in Hv, Hi, Hl, Hids, Hk. cbn [default] in *. revert Hp' Hb Hcur. generalize (receive ms s). intros s1 Hp' Hb Hcur.
  set (s2 := s1 <| messages_received ::= λ n, n + 1 |>).
  pose proof (complete_wp s2 e b tid Hp' Hb Hl) as Hwp. unfold wp in Hwp.
  assert (_onMessage clock heartbeatInterval (SubscriptionComplete k.1.1 k.1.2 k.2 tid) s1 =
    onSubscriptionComplete clock heartbeatInterval k tid s2) as ->.
  { unfold _onMessage. rewrite run_bind, run_modify. by destruct k as [[? ?] ?]. }
  destruct (onSubscriptionComplete clock heartbeatInterval k tid s2) as [[[]|ex] s'].
  - exists b, s'. split_and!; [done|apply Hwp; [|done]|done|done|done].
    destruct Hknown as [?|?]; [by left|right]. apply Hk. by exists d.
  - exfalso. apply Hwp; [|done]. destruct Hknown as [?|?]; [by left|right]. apply Hk. by exists d.
Qed.
End subscription.

(** A subscription to an index, in two pieces, with another transaction in between. *)
Module DataScenario.
Definition clock : nat → Z := Z.of_nat.
Definition key : SubKey := ("app"%string, "Counter"%string, Some ("k"%string, [Byte.x01])).
Definition o (i : Z) : ObjectFieldId := OFI i 2 false.
Definition piece (i : Z) : ServerToClient :=
  SubscriptionData "app" "Counter" (Some ("k"%string, [Byte.x01])) {[o i := Some [Byte.x41]]}
    {[o i := Some [Byte.x01]]} (Some [i]).
Definition messages : list ServerToClient := [piece 7; Transaction {[o 9 := None]} ∅ ∅ 3; piece 8].
Definition waiting : DatabaseConnection := run_conns clock 5 [CoSubscribe [(key, false)]] new_DatabaseConnection.
End DataScenario.

Lemma subscription_is_assembled_witness :
  ∃ b s', _onMessage DataScenario.clock 5 (SubscriptionComplete "app" "Counter" (Some ("k"%string, [Byte.x01])) 4)
      (receive DataScenario.clock 5 DataScenario.messages DataScenario.waiting) = (Ok tt, s') ∧
    completed DataScenario.key b 4 0%nat s'.
Proof.
  destruct (subscription_is_assembled DataScenario.clock 5 DataScenario.key DataScenario.messages DataScenario.waiting 0%nat 4)
    as (b & s' & Hrun & Hdone & _).
  - vm_compute. reflexivity.
  - vm_compute. reflexivity.
  - by repeat constructor.
  - eexists. split; [by left|]. right. by eexists.
  - vm_compute. discriminate.
  - exists b, s'. exact (conj Hrun Hdone).
Defined.
