(* ===== verification/EventModel.v ===== *)
(** * The edit history of a document ([object_database/web/cells/editor/event_model.py])

    A document is a list of lines, changed by events that replace runs of lines.  Undo and
    redo are events as well: they reverse an earlier event.  The module checks incoming
    events, computes undo and redo events and differences, and merges changes.

    The dictionaries of the program become records once they are checked; [isValidEvent]
    checks the values that arrive as they come from JSON ([json]), and [as_event] is the
    record such a value stands for.  Clock readings and fresh guids are arguments. *)

From Stdlib Require Import Lia QArith.
From stdpp Require Import options.
From S2P Require Import Prelude.

#[local] Set Warnings "-register-all".
Local Open Scope Z_scope.

(** ** Records *)

Abbreviation Line := string.

Record Change := { oldLines : list Line; newLines : list Line; lineIndex : Z }.
Record Cursor := { pos : Z * Z; tail : Z * Z; desiredCol : Z }.
Inductive UndoState := Undo | Redo.
Inductive Reason := RText (s : string) | RDict (d : list (string * string)).
Record Event := {
  changes : list Change;
  startCursors : list Cursor;
  newCursors : list Cursor;
  timestamp : Q;
  undoState : option UndoState;
  editSessionId : option string;
  reason : Reason;
  eventGuid : string;
  priorEventGuid : string;
  undoing : option string;
}.
#[export] Instance Event_settable : Settable Event := λ r,
  {| changes := changes r; startCursors := startCursors r; newCursors := newCursors r; timestamp := timestamp r;
     undoState := undoState r; editSessionId := editSessionId r; reason := reason r; eventGuid := eventGuid r;
     priorEventGuid := priorEventGuid r; undoing := undoing r |}.

#[export] Instance Change_settable : Settable Change := λ r,
  {| oldLines := oldLines r; newLines := newLines r; lineIndex := lineIndex r |}.

#[export] Instance UndoState_eq_dec : EqDecision UndoState.
Proof. solve_decision. Defined.
#[export] Instance Change_eq_dec : EqDecision Change.
Proof. solve_decision. Defined.
#[export] Instance Cursor_eq_dec : EqDecision Cursor.
Proof. solve_decision. Defined.

(** ** Validity of incoming values *)

(** A value as it comes from JSON; the keys of a dictionary are distinct. *)
Inductive json :=
  | JNone
  | JBool (b : bool)
  | JInt (n : Z)
  | JFloat (f : Q)        (* a finite float *)
  | JStr (s : string)
  | JList (l : list json)
  | JDict (d : list (string * json)).

Fixpoint lookup_key (k : string) (d : list (string * json)) : option json :=
  match d with
  | [] => None
  | (k', v) :: d => if bool_decide (k' = k) then Some v else lookup_key k d
  end.
Definition get_key (k : string) (d : list (string * json)) : json := default JNone (lookup_key k d).

(** [isinstance(v, int)]: a bool is an int *)
Definition as_int (v : json) : option Z :=
  match v with JInt n => Some n | JBool b => Some (if b then 1 else 0) | _ => None end.
Definition as_str (v : json) : option string := match v with JStr s => Some s | _ => None end.
Definition as_list (v : json) : option (list json) := match v with JList l => Some l | _ => None end.

(** [set(d) == set(fields)] *)
Definition has_keys (fields : list string) (d : list (string * json)) : bool :=
  bool_decide (list_to_set d.*1 = (list_to_set fields : gset string)).

Definition newline : Ascii.ascii := Ascii.ascii_of_nat 10.
Fixpoint has_newline (s : string) : bool :=
  match s with EmptyString => false | String c s => bool_decide (c = newline) || has_newline s end.

Definition isValidLine (v : json) : bool := match v with JStr s => negb (has_newline s) | _ => false end.

Definition isValidChange (change : json) : bool :=
  match change with
  | JDict d =>
      has_keys ["oldLines"; "newLines"; "lineIndex"] d &&
      match as_list (get_key "oldLines" d), as_list (get_key "newLines" d), as_int (get_key "lineIndex" d) with
      | Some old, Some new, Some ix => negb (bool_decide (ix < 0)) && forallb isValidLine (old ++ new)
      | _, _, _ => false
      end
  | _ => false
  end%string.

Definition isValidCoordinate (v : json) : bool :=
  match as_int v with Some n => negb (bool_decide (n < 0)) | None => false end.

Definition isValidCursor (cursor : json) : bool :=
  match cursor with
  | JDict d =>
      has_keys ["pos"; "tail"; "desiredCol"] d &&
      match as_list (get_key "pos" d), as_list (get_key "tail" d) with
      | Some p, Some t =>
          bool_decide (length p = 2%nat) && bool_decide (length t = 2%nat) &&
          forallb isValidCoordinate (p ++ t ++ [get_key "desiredCol" d])
      | _, _ => false
      end
  | _ => false
  end%string.

Definition REQUIRED_FIELDS : list string :=
  ["changes"; "startCursors"; "newCursors"; "timestamp"; "undoState"; "editSessionId"; "reason"; "eventGuid";
   "priorEventGuid"; "undoing"]%string.

Definition all_valid (valid : json → bool) (v : json) : bool :=
  match v with JList l => forallb valid l | _ => false end.
Definition is_str (v : json) : bool := match v with JStr _ => true | _ => false end.
Definition is_str_or_none (v : json) : bool := match v with JStr _ | JNone => true | _ => false end.
Definition is_number (v : json) : bool := match v with JInt _ | JBool _ | JFloat _ => true | _ => false end.
Definition is_undo_state (v : json) : bool :=
  match v with JNone => true | JStr s => bool_decide (s ∈ ["undo"; "redo"]) | _ => false end%string.
Definition is_reason (v : json) : bool :=
  match v with JStr _ => true | JDict d => forallb (λ kv, is_str kv.2) d | _ => false end.

Definition isValidEvent (event : json) : bool :=
  match event with
  | JDict d =>
      has_keys REQUIRED_FIELDS d &&
      all_valid isValidChange (get_key "changes" d) &&
      all_valid isValidCursor (get_key "startCursors" d) &&
      all_valid isValidCursor (get_key "newCursors" d) &&
      is_number (get_key "timestamp" d) &&
      is_undo_state (get_key "undoState" d) &&
      is_str_or_none (get_key "undoing" d) &&
      is_str_or_none (get_key "editSessionId" d) &&
      is_str (get_key "eventGuid" d) &&
      is_str (get_key "priorEventGuid" d) &&
      is_reason (get_key "reason" d)
  | _ => false
  end%string.

(** ** From a checked value to its record *)

Definition as_number (v : json) : option Q :=
  match v with JFloat f => Some f | _ => inject_Z <$> as_int v end.
Definition as_str_or_none (v : json) : option (option string) :=
  match v with JNone => Some None | JStr s => Some (Some s) | _ => None end.
Definition as_records {A} (as_record : json → option A) (v : json) : option (list A) :=
  as_list v ≫= list.mapM as_record.

Definition as_change (v : json) : option Change :=
  match v with
  | JDict d =>
      as_records as_str (get_key "oldLines" d) ≫= λ old,
      as_records as_str (get_key "newLines" d) ≫= λ new,
      as_int (get_key "lineIndex" d) ≫= λ ix,
      Some {| oldLines := old; newLines := new; lineIndex := ix |}
  | _ => None
  end%string.

Definition as_position (v : json) : option (Z * Z) :=
  match v with
  | JList [x; y] => as_int x ≫= λ x, as_int y ≫= λ y, Some (x, y)
  | _ => None
  end.

Definition as_cursor (v : json) : option Cursor :=
  match v with
  | JDict d =>
      as_position (get_key "pos" d) ≫= λ p,
      as_position (get_key "tail" d) ≫= λ t,
      as_int (get_key "desiredCol" d) ≫= λ c,
      Some {| pos := p; tail := t; desiredCol := c |}
  | _ => None
  end%string.

Definition as_undo_state (v : json) : option (option UndoState) :=
  match v with
  | JNone => Some None
  | JStr s =>
      if bool_decide (s = "undo") then Some (Some Undo)
      else if bool_decide (s = "redo") then Some (Some Redo) else None
  | _ => None
  end%string.

Definition as_reason (v : json) : option Reason :=
  match v with
  | JStr s => Some (RText s)
  | JDict d => RDict <$> list.mapM (λ kv, as_str kv.2 ≫= λ s, Some (kv.1, s)) d
  | _ => None
  end.

Definition as_event (v : json) : option Event :=
  match v with
  | JDict d =>
      as_records as_change (get_key "changes" d) ≫= λ c,
      as_records as_cursor (get_key "startCursors" d) ≫= λ start,
      as_records as_cursor (get_key "newCursors" d) ≫= λ new,
      as_number (get_key "timestamp" d) ≫= λ t,
      as_undo_state (get_key "undoState" d) ≫= λ u,
      as_str_or_none (get_key "editSessionId" d) ≫= λ session,
      as_reason (get_key "reason" d) ≫= λ r,
      as_str (get_key "eventGuid" d) ≫= λ guid,
      as_str (get_key "priorEventGuid" d) ≫= λ prior,
      as_str_or_none (get_key "undoing" d) ≫= λ undone,
      Some {| changes := c; startCursors := start; newCursors := new; timestamp := t; undoState := u;
              editSessionId := session; reason := r; eventGuid := guid; priorEventGuid := prior;
              undoing := undone |}
  | _ => None
  end%string.

(** ** Applying changes *)

(** [lines[ix : ix + len(oldLines)] = newLines] *)
Definition replaceLines (change : Change) (lines : list Line) : list Line :=
  slice_assign (lineIndex change) (lineIndex change + Z.of_nat (length (oldLines change))) (newLines change) lines.

Definition apply_changes (cs : list Change) (lines : list Line) : list Line :=
  foldl (λ lines change, replaceLines change lines) lines cs.

Definition applyEventsToLines (lines : list Line) (events : list Event) : list Line :=
  foldl (λ lines event, apply_changes (changes event) lines) lines events.

(** The caller's list is copied first; the model's lists are values. *)
Definition eventsAppliedToLines (lines : list Line) (events : list Event) : list Line :=
  applyEventsToLines lines events.

(** [sep.join(parts)] *)
Fixpoint join (sep : string) (parts : list string) : string :=
  match parts with
  | [] => EmptyString
  | [s] => s
  | s :: parts => (s ++ sep ++ join sep parts)%string
  end.

(** [s.split(sep)], for a separator of one character *)
Fixpoint split_at (sep : Ascii.ascii) (s : string) : list string :=
  match s with
  | EmptyString => [EmptyString]
  | String c s =>
      if bool_decide (c = sep) then EmptyString :: split_at sep s
      else match split_at sep s with
           | [] => [String c EmptyString]
           | part :: parts => String c part :: parts
           end
  end.

Definition newline_string : string := String newline EmptyString.

Definition computeStateFromEvents (lines : list Line) (events : list Event) : string :=
  join newline_string (applyEventsToLines lines events).

(** ** Checking incoming events against a document *)

(** The changes of one event: the lines they leave, unless one does not match. *)
Fixpoint check_changes (cs : list Change) (lines : list Line) : option (list Line) :=
  match cs with
  | [] => Some lines
  | change :: cs =>
      let ix := lineIndex change in
      if bool_decide (ix > Z.of_nat (length lines)) then None
      else if bool_decide (slice ix (ix + Z.of_nat (length (oldLines change))) lines ≠ oldLines change) then None
      else check_changes cs (replaceLines change lines)
  end.

Definition eventIsValidInContextOfLines (candidateEvent : json) (lines : list Line) (topEventGuid : string)
    (events : list Event) : bool :=
  isValidEvent candidateEvent &&
  match as_event candidateEvent with
  | None => false
  | Some candidate =>
      bool_decide (priorEventGuid candidate = topEventGuid) &&
      bool_decide (is_Some (check_changes (changes candidate) (applyEventsToLines lines events)))
  end.

(** The second loop of [eventsAreValidInContextOfLines]. *)
Fixpoint check_events (eventGuids : gset string) (candidates : list Event) (topEventGuid : string)
    (lines : list Line) : bool :=
  match candidates with
  | [] => true
  | candidate :: candidates =>
      match undoing candidate with
      | None | Some EmptyString => true
      | Some guid => bool_decide (guid ∈ eventGuids)
      end &&
      bool_decide (priorEventGuid candidate = topEventGuid) &&
      match check_changes (changes candidate) lines with
      | None => false
      | Some lines => check_events eventGuids candidates (eventGuid candidate) lines
      end
  end.

(** The checks once every candidate is known to be an event. *)
Definition check_candidates (candidates : list Event) (lines : list Line) (topEventGuid : string)
    (events : list Event) : bool :=
  match candidates with
  | [] => true
  | _ =>
      let eventGuids : gset string := list_to_set ((eventGuid <$> events) ++ (eventGuid <$> candidates)) in
      negb (bool_decide (topEventGuid ∈ eventGuid <$> candidates)) &&
      bool_decide (size eventGuids = (length events + length candidates)%nat) &&
      check_events eventGuids candidates topEventGuid (applyEventsToLines lines events)
  end.

Definition eventsAreValidInContextOfLines (candidateEvents : list json) (lines : list Line)
    (topEventGuid : string) (events : list Event) : bool :=
  forallb isValidEvent candidateEvents &&
  match list.mapM as_event candidateEvents with
  | None => false
  | Some candidates => check_candidates candidates lines topEventGuid events
  end.

(** ** Cursors, undo groups and reversal *)

(** [d["keystroke"]] of a reason *)
Definition keystroke (r : Reason) : option string :=
  match r with
  | RText _ => None
  | RDict d => (λ found, found.2.2) <$> list_find (λ kv, kv.1 = "keystroke"%string) d
  end.

Inductive StrokeCat := CatSpace | CatNewline | CatChar.
#[export] Instance StrokeCat_eq_dec : EqDecision StrokeCat.
Proof. solve_decision. Defined.

Definition strokeCat (stroke : string) : StrokeCat :=
  if bool_decide (stroke = " ") then CatSpace
  else if bool_decide (stroke = "Enter") then CatNewline else CatChar.

Definition eventsAreInSameUndoStream (e1 e2 : Event) : bool :=
  bool_decide (newCursors e1 = startCursors e2) &&
  match keystroke (reason e1), keystroke (reason e2) with
  | Some stroke1, Some stroke2 => bool_decide (strokeCat stroke1 = strokeCat stroke2)
  | _, _ => false
  end.

Definition eventsAreOnSameLine (e1 e2 : Event) : bool :=
  let single c := bool_decide (length (oldLines c) = 1%nat) && bool_decide (length (newLines c) = 1%nat) in
  let lines1 : gset Z := list_to_set (lineIndex <$> changes e1) in
  let lines2 : gset Z := list_to_set (lineIndex <$> changes e2) in
  forallb single (changes e1) && forallb single (changes e2) && bool_decide (lines1 = lines2).

Definition reverseChange (c : Change) : Change :=
  {| oldLines := newLines c; newLines := oldLines c; lineIndex := lineIndex c |}.

(** [uuid.uuid4()] and [time.time()]: what the n-th call of a run returns *)
Record Fresh := { fresh_guid : nat → string; fresh_time : nat → Q }.

Definition reverseEventForUndo (fresh : Fresh) (n : nat) (event : Event) (curEditSessionId : option string)
    (priorGuid : string) : Event :=
  {| changes := reverseChange <$> reverse (changes event);
     startCursors := newCursors event;
     newCursors := startCursors event;
     timestamp := fresh_time fresh n;
     undoState := if bool_decide (undoState event = Some Undo) then Some Redo else Some Undo;
     editSessionId := curEditSessionId;
     priorEventGuid := priorGuid;
     eventGuid := fresh_guid fresh n;
     reason := reason event;
     undoing := Some (eventGuid event) |}.

(** ** Finding the event to undo or redo *)

(** The loop of [computeNextUndoIx]; [n] is the program's [i + 1]. *)
Fixpoint next_undo (events : list Event) (n : nat) (pendingUndos : Z) : option nat :=
  match n with
  | O => if bool_decide (pendingUndos > 0) then None else Some O
  | S i =>
      if bool_decide (pendingUndos > 0) then
        match undoState <$> events !! i with
        | None => None
        | Some None => next_undo events i (pendingUndos - 1)
        | Some (Some Undo) => next_undo events i (pendingUndos + 1)
        | Some (Some Redo) => next_undo events i (pendingUndos - 1)
        end
      else Some n
  end.
Definition computeNextUndoIx (events : list Event) (pendingUndos : Z) : option nat :=
  next_undo events (length events) pendingUndos.

Fixpoint next_redo (events : list Event) (n : nat) (pendingRedos : Z) : option nat :=
  match n with
  | O => if bool_decide (pendingRedos ≠ 0) then None else Some O
  | S i =>
      if bool_decide (pendingRedos ≠ 0) then
        match undoState <$> events !! i with
        | None | Some None => None
        | Some (Some Undo) => next_redo events i (pendingRedos - 1)
        | Some (Some Redo) => next_redo events i (pendingRedos + 1)
        end
      else Some n
  end.
Definition computeNextRedoIx (events : list Event) (pendingRedos : Z) : option nat :=
  next_redo events (length events) pendingRedos.

(** The loop that undoes (or redoes) the events of one stream of keystrokes: [i] is the event
    reversed last, [priorGuid] the guid of its reversal, [n] the length of [res]. *)
Fixpoint reverse_stream (next : list Event → Z → option nat) (fresh : Fresh) (fuel : nat) (events : list Event)
    (session : option string) (i : nat) (n : nat) (priorGuid : string) : outcome (list Event) :=
  match fuel with
  | O => Raise (UserException "out of fuel")
  | S fuel =>
      match next events (1 + Z.of_nat n) with
      | None => Ok []
      | Some i2 =>
          if bool_decide (i2 < i)%nat then
            match events !! i2, events !! i with
            | Some e2, Some e1 =>
                if eventsAreInSameUndoStream e2 e1 then
                  let rev := reverseEventForUndo fresh n e2 session priorGuid in
                  match reverse_stream next fresh fuel events session i2 (S n) (eventGuid rev) with
                  | Ok res => Ok (rev :: res)
                  | Raise e => Raise e
                  end
                else Ok []
            | _, _ => Raise IndexError
            end
          else Raise AssertionError
      end
  end.

Definition reverse_events (next : list Event → Z → option nat) (fresh : Fresh) (events : list Event)
    (curEditSessionId : option string) (topEventGuid : string) : outcome (list Event) :=
  match next events 1 with
  | None => Ok []
  | Some i =>
      match events !! i with
      | None => Raise IndexError
      | Some e =>
          let rev := reverseEventForUndo fresh 0 e curEditSessionId topEventGuid in
          match reverse_stream next fresh (S (length events)) events curEditSessionId i 1 (eventGuid rev) with
          | Ok res => Ok (rev :: res)
          | Raise e => Raise e
          end
      end
  end.

Definition computeUndoEvents := reverse_events computeNextUndoIx.
Definition computeRedoEvents := reverse_events computeNextRedoIx.

(** ** Merging changes *)

(** Two consecutive changes as one, when the lines they touch overlap or meet. *)
Definition merge_changes (c1 c2 : Change) : option Change :=
  let l0 := lineIndex c1 in
  let l1 := lineIndex c1 + Z.of_nat (length (newLines c1)) in
  let r0 := lineIndex c2 in
  let r1 := lineIndex c2 + Z.of_nat (length (oldLines c2)) in
  if bool_decide (l0 <= r1) && bool_decide (r0 <= l1) then
    let old := oldLines c1 in
    let old := if bool_decide (r0 < l0) then slice_to (l0 - r0) (oldLines c2) ++ old else old in
    let old := if bool_decide (r1 > l1) then old ++ slice_from (- (r1 - l1)) (oldLines c2) else old in
    let new := newLines c2 in
    let new := if bool_decide (l0 < r0) then slice_to (r0 - l0) (newLines c1) ++ new else new in
    let new := if bool_decide (l1 > r1) then new ++ slice_from (- (l1 - r1)) (newLines c1) else new in
    Some {| lineIndex := Z.min (lineIndex c1) (lineIndex c2); oldLines := old; newLines := new |}
  else None.

(** Out of order and apart: the pair in the other order. *)
Definition swap_changes (c1 c2 : Change) : Change * Change :=
  (c2, c1 <| lineIndex ::= λ ix,
         ix + (Z.of_nat (length (newLines c2)) - Z.of_nat (length (oldLines c2))) |>).

(** One pass of the loop at [i]; an entry is [None] once it was merged into the next one. *)
Definition collapse_at (i : nat) (cs : list (option Change)) : outcome (list (option Change)) :=
  match cs !! i, cs !! S i with
  | Some (Some c1), Some (Some c2) =>
      Ok match merge_changes c1 c2 with
         | Some merged => <[S i := Some merged]> (<[i := None]> cs)
         | None =>
             if bool_decide (lineIndex c2 < lineIndex c1) then
               let (c2', c1') := swap_changes c1 c2 in <[S i := Some c1']> (<[i := Some c2']> cs)
             else cs
         end
  | _, _ => Raise TypeError
  end.

Fixpoint collapse_loop (fuel i : nat) (cs : list (option Change)) : outcome (list (option Change)) :=
  match fuel with
  | O => Ok cs
  | S fuel =>
      if bool_decide (S i < length cs)%nat then
        match collapse_at i cs with
        | Ok cs => collapse_loop fuel (S i) cs
        | Raise e => Raise e
        end
      else Ok cs
  end.

(** The index grows with each pass, so [length cs] passes are enough. *)
Definition collapseChanges (cs : list Change) : outcome (list Change) :=
  match collapse_loop (length cs) 0 (Some <$> cs) with
  | Ok cs => Ok (omap id cs)
  | Raise e => Raise e
  end.

Definition collapseEvents (e1 e2 : Event) : outcome Event :=
  match collapseChanges (changes e1 ++ changes e2) with
  | Raise e => Raise e
  | Ok newChanges => Ok {|
      changes := newChanges;
      startCursors := startCursors e1;
      newCursors := newCursors e2;
      timestamp := timestamp e2;
      undoState := undoState e2;
      editSessionId := editSessionId e2;
      priorEventGuid := priorEventGuid e1;
      eventGuid := eventGuid e2;
      reason := reason e2;
      undoing := undoing e2;
    |}
  end.

(** ** The difference between two texts *)

Fixpoint common_prefix (cur new : list Line) : nat :=
  match cur, new with
  | x :: cur, y :: new => if bool_decide (x = y) then S (common_prefix cur new) else O
  | _, _ => O
  end.

(** The second loop: [j] lines from the end agree, outside the first [i]. *)
Fixpoint common_suffix (fuel : nat) (cur new : list Line) (i j : nat) : nat :=
  match fuel with
  | O => j
  | S fuel =>
      if bool_decide (j < length cur)%nat && bool_decide (j < length new)%nat &&
         bool_decide (i + j < length cur)%nat && bool_decide (i + j < length new)%nat then
        if bool_decide (cur !! (length cur - 1 - j)%nat = new !! (length new - 1 - j)%nat) then
          common_suffix fuel cur new i (S j)
        else j
      else j
  end.

Definition line_cursor (p t : Z) : Cursor := {| pos := (p, 0); tail := (t, 0); desiredCol := 0 |}.

Definition computeDeltaEvent (fresh : Fresh) (n : nat) (curContents newContents : string) (why : Reason)
    (topEventGuid : string) : option Event :=
  let cur := split_at newline curContents in
  let new := split_at newline newContents in
  if bool_decide (cur = new) then None
  else
    let i := common_prefix cur new in
    let j := common_suffix (length cur) cur new i 0 in
    let cursor lines :=
      let len := Z.of_nat (length lines) in
      line_cursor (Z.min (Z.max (len - Z.of_nat j) 0) (len - 1)) (Z.min (Z.of_nat i) (len - 1)) in
    Some {|
      changes := [{| lineIndex := Z.of_nat i;
                     oldLines := slice (Z.of_nat i) (Z.of_nat (length cur) - Z.of_nat j) cur;
                     newLines := slice (Z.of_nat i) (Z.of_nat (length new) - Z.of_nat j) new |}];
      startCursors := [cursor cur];
      newCursors := [cursor new];
      timestamp := fresh_time fresh n;
      eventGuid := fresh_guid fresh n;
      priorEventGuid := topEventGuid;
      undoState := None;
      editSessionId := None;
      reason := why;
      undoing := None;
    |}.

(** ** The cache of document states *)

Record EventStateCache := { cache_lines : list Line; cache_events : list Event; _cache : gmap Z (list Line) }.
#[export] Instance EventStateCache_settable : Settable EventStateCache := λ r,
  {| cache_lines := cache_lines r; cache_events := cache_events r; _cache := _cache r |}.

Definition EventStateCache_init (lines : list Line) (events : list Event) : EventStateCache :=
  {| cache_lines := lines; cache_events := events; _cache := ∅ |}.

(** The loop over powers of ten: the first one that does not divide [i]. *)
Fixpoint first_power (fuel : nat) (i power : Z) : option Z :=
  match fuel with
  | O => None
  | S fuel =>
      if bool_decide (power <= i) then
        if bool_decide (i mod power ≠ 0) then Some power else first_power fuel i (power * 10)
      else None
  end.

(** [self[i]].  Each pass multiplies the power by ten, and each recursive call is for a smaller
    index, so [i + 1] bounds both. *)
Fixpoint getitem (fuel : nat) (i : Z) : M EventStateCache (list Line) :=
  match fuel with
  | O => raise (UserException "out of fuel")
  | S fuel =>
      self ← get_state;
      assertM (bool_decide (0 <= i) && bool_decide (i <= Z.of_nat (length (cache_events self))));;
      match _cache self !! i with
      | Some state => ret state
      | None =>
          state ← match first_power (Z.to_nat i + 1) i 10 with
                  | Some power =>
                      prior ← getitem fuel (i - i mod power);
                      ret (eventsAppliedToLines prior (slice (i - i mod power) i (cache_events self)))
                  | None => ret (eventsAppliedToLines (cache_lines self) (slice_to i (cache_events self)))
                  end;
          modify (λ self, self <| _cache ::= <[i := state]> |>);;
          ret state
      end
  end.

Definition EventStateCache_getitem (i : Z) : M EventStateCache (list Line) := getitem (Z.to_nat i + 1) i.
