(* ===== verification/EventLemmas.v ===== *)
(** * Documents as lists of lines: what changes do to them

    A change that matches the document replaces one run of its lines; [edits] relates a
    document, a list of changes that match it in turn, and the document they leave.  The checks
    of the program decide that relation, reversal inverts it, and merging preserves it. *)

From Stdlib Require Import Lia QArith.
From stdpp Require Import options.
From S2P Require Import Prelude EventModel.

Local Open Scope Z_scope.

(** [c] takes [l] to [l']. *)
Definition changed (c : Change) (l l' : list Line) : Prop :=
  ∃ A B, l = A ++ oldLines c ++ B ∧ l' = A ++ newLines c ++ B ∧ lineIndex c = Z.of_nat (length A).

Inductive edits : list Change → list Line → list Line → Prop :=
  | edits_nil l : edits [] l l
  | edits_cons c cs l l1 l2 : changed c l l1 → edits cs l1 l2 → edits (c :: cs) l l2.

(** Line indices of checked changes are not negative. *)
Definition placed (c : Change) : Prop := 0 <= lineIndex c.

Lemma replaceLines_app c A B :
  lineIndex c = Z.of_nat (length A) →
  replaceLines c (A ++ oldLines c ++ B) = A ++ newLines c ++ B.
Proof.
  intros Hix. unfold replaceLines, slice_assign. rewrite Hix.
  rewrite !slice_index_nonneg by (rewrite ?length_app; lia).
  rewrite Nat2Z.id, take_app_length. f_equal. f_equal.
  rewrite app_assoc. apply drop_app_length'. rewrite length_app. lia.
Qed.

Lemma changed_replaceLines c l l' : changed c l l' → replaceLines c l = l'.
Proof. intros (A & B & -> & -> & Hix). by apply replaceLines_app. Qed.

Lemma changed_placed c l l' : changed c l l' → placed c.
Proof. intros (A & B & _ & _ & Hix). unfold placed. lia. Qed.

Lemma take_length_same {A} k (l x : list A) : take k l = x → take (length x) l = x.
Proof.
  intros <-. rewrite length_take. destruct (decide (k ≤ length l)%nat).
  - by rewrite Nat.min_l by lia.
  - rewrite Nat.min_r by lia. rewrite !firstn_all2; [done| |]; lia.
Qed.

Lemma changed_replace c l :
  placed c → lineIndex c <= Z.of_nat (length l) →
  slice (lineIndex c) (lineIndex c + Z.of_nat (length (oldLines c))) l = oldLines c →
  changed c l (replaceLines c l).
Proof.
  unfold placed, slice. intros H0 Hle Hold.
  rewrite (slice_index_nonneg _ (lineIndex c)) in Hold by lia.
  set (n := Z.to_nat (lineIndex c)) in *.
  assert (Hl : l = take n l ++ oldLines c ++ drop (length (oldLines c)) (drop n l)).
  { rewrite <- (take_drop n l) at 1. f_equal.
    rewrite <- (take_length_same _ _ _ Hold) at 1. by rewrite take_drop. }
  exists (take n l), (drop (length (oldLines c)) (drop n l)).
  assert (lineIndex c = Z.of_nat (length (take n l))) as Hix by (rewrite length_take; lia).
  split; [done|]. split; [|done]. rewrite Hl at 1. by apply replaceLines_app.
Qed.

Lemma check_changes_edits cs l l' : Forall placed cs → check_changes cs l = Some l' → edits cs l l'.
Proof.
  intros Hcs. revert l. induction Hcs as [|c cs Hc Hcs IH]; intros l; simpl; intros Hl.
  - injection Hl as ->. constructor.
  - do 2 (case_bool_decide; [done|]). econstructor; [|by apply IH].
    apply changed_replace; [done|lia|]. by destruct (decide (slice (lineIndex c)
      (lineIndex c + Z.of_nat (length (oldLines c))) l = oldLines c)).
Qed.

Lemma changed_check c l l' :
  changed c l l' →
  lineIndex c <= Z.of_nat (length l) ∧
  slice (lineIndex c) (lineIndex c + Z.of_nat (length (oldLines c))) l = oldLines c.
Proof.
  intros (A & B & -> & _ & Hix). split; [rewrite Hix, length_app; lia|].
  unfold slice. rewrite Hix, !slice_index_nonneg by (rewrite ?length_app; lia).
  rewrite Nat2Z.id, drop_app_length. apply take_app_length'. lia.
Qed.

Lemma edits_check_changes cs l l' : edits cs l l' → check_changes cs l = Some l'.
Proof.
  induction 1 as [|c cs l l1 l2 Hc Hcs IH]; [done|]. simpl.
  destruct (changed_check c l l1 Hc) as [Hle Hslice].
  rewrite bool_decide_false by lia. rewrite bool_decide_false by (intros Hn; by apply Hn).
  by rewrite (changed_replaceLines _ _ _ Hc).
Qed.

Lemma edits_apply cs l l' : edits cs l l' → apply_changes cs l = l'.
Proof.
  induction 1 as [|c cs l l1 l2 Hc Hcs IH]; [done|].
  unfold apply_changes in *. simpl. by rewrite (changed_replaceLines _ _ _ Hc).
Qed.

Lemma edits_placed cs l l' : edits cs l l' → Forall placed cs.
Proof. induction 1; constructor; eauto using changed_placed. Qed.

Lemma edits_app cs1 cs2 l l1 l2 : edits cs1 l l1 → edits cs2 l1 l2 → edits (cs1 ++ cs2) l l2.
Proof. induction 1; simpl; intros; [done|]. econstructor; eauto. Qed.

Lemma edits_app_inv cs1 cs2 l l2 : edits (cs1 ++ cs2) l l2 → ∃ l1, edits cs1 l l1 ∧ edits cs2 l1 l2.
Proof.
  revert l. induction cs1 as [|c cs1 IH]; intros l; simpl.
  - intros. eexists. split; [constructor|done].
  - inversion 1 as [|? ? ? l0 ? Hc Hcs]; subst. destruct (IH _ Hcs) as (l1 & ? & ?).
    exists l1. split; [econstructor|]; eauto.
Qed.

(** *** Reversal *)

Lemma changed_reverse c l l' : changed c l l' → changed (reverseChange c) l' l.
Proof. intros (A & B & -> & -> & Hix). by exists A, B. Qed.

Lemma edits_reverse cs l l' : edits cs l l' → edits (reverseChange <$> reverse cs) l' l.
Proof.
  induction 1 as [|c cs l l1 l2 Hc Hcs IH]; [constructor|].
  rewrite reverse_cons, fmap_app. eapply edits_app; [done|].
  econstructor; [by apply changed_reverse|constructor].
Qed.

(** *** Merging *)

Lemma slice_to_prefix {A} (x y : list A) n : n = Z.of_nat (length x) → slice_to n (x ++ y) = x.
Proof. intros ->. apply slice_to_app. Qed.

(** Two ways to cut one list: where the cuts differ, one middle part lacks what the other has. *)
Lemma common_left {A} (A1 A2 x y : list A) :
  A1 ++ x = A2 ++ y → ∃ C P Q, A1 = C ++ P ∧ A2 = C ++ Q ∧ (P = [] ∨ Q = []) ∧ P ++ x = Q ++ y.
Proof.
  intros Heq. destruct (decide (length A1 ≤ length A2)%nat).
  - destruct (app_split_long A2 y A1 x) as (Q & -> & ?); [done|lia|].
    exists A1, [], Q. rewrite app_nil_r. auto.
  - destruct (app_split_long A1 x A2 y) as (P & -> & ?); [done|lia|].
    exists A2, P, []. rewrite app_nil_r. auto.
Qed.

Lemma common_right {A} (x y B1 B2 : list A) :
  x ++ B1 = y ++ B2 → ∃ C S T, B1 = S ++ C ∧ B2 = T ++ C ∧ (S = [] ∨ T = []) ∧ x ++ S = y ++ T.
Proof.
  intros Heq. destruct (decide (length x ≤ length y)%nat).
  - destruct (app_split_long y B2 x B1) as (S & -> & <-); [done|lia|].
    exists B2, S, []. rewrite app_nil_r. auto.
  - destruct (app_split_long x B1 y B2) as (T & -> & <-); [done|lia|].
    exists B1, [], T. rewrite app_nil_r. auto.
Qed.

(** What the program adds before (after) the middle part of a merged change. *)
Lemma clip_left {A} (P Q o R z x : list A) n (b : bool) :
  P = [] ∨ Q = [] → P ++ R = Q ++ o ++ z → (length P ≤ length o)%nat →
  n = Z.of_nat (length P) - Z.of_nat (length Q) → b = bool_decide (0 < n) →
  (if b then slice_to n o ++ x else x) = P ++ x.
Proof.
  intros [-> | ->] Heq Hlen -> ->; simpl in *.
  - by rewrite bool_decide_false by lia.
  - destruct (app_split_long o z P R) as (o' & -> & _); [done|done|].
    case_bool_decide; [by rewrite slice_to_prefix by lia|]. destruct P; [done|simpl in *; lia].
Qed.

Lemma clip_right {A} (S T o w z x : list A) n (b : bool) :
  S = [] ∨ T = [] → z ++ S = w ++ o ++ T → (length S ≤ length o)%nat →
  n = Z.of_nat (length S) - Z.of_nat (length T) → b = bool_decide (0 < n) →
  (if b then x ++ slice_from (- n) o else x) = x ++ S.
Proof.
  intros [-> | ->] Heq Hlen -> ->; simpl in *; rewrite ?app_nil_r in *.
  - by rewrite bool_decide_false by lia.
  - case_bool_decide.
    + destruct (app_split_long z S w o) as (z' & -> & <-); [done| |].
      { apply (f_equal length) in Heq. rewrite !length_app in Heq. lia. }
      by rewrite slice_from_app by lia.
    + destruct S; [by rewrite ?app_nil_r|simpl in *; lia].
Qed.

Lemma merge_changes_edits c1 c2 m l l1 l2 :
  changed c1 l l1 → changed c2 l1 l2 → merge_changes c1 c2 = Some m → changed m l l2.
Proof.
  destruct c1 as [o1 n1 i1], c2 as [o2 n2 i2]. unfold merge_changes, changed. simpl.
  intros (A1 & B1 & -> & -> & ->) (A2 & B2 & Heq & -> & ->).
  case_bool_decide as Hl0; [|done]. case_bool_decide as Hr0; [|done]. simpl. intros [= <-]. simpl.
  destruct (common_left _ _ _ _ Heq) as (A & P & Q & -> & -> & HPQ & Hmid).
  rewrite !(assoc_L (++)) in Hmid.
  destruct (common_right _ _ _ _ Hmid) as (B & S & T & -> & -> & HST & Hmid').
  assert (length P + length n1 + length S = length Q + length o2 + length T)%nat as Hlen.
  { apply (f_equal length) in Hmid'. by rewrite !length_app in Hmid'. }
  rewrite !length_app in *.
  assert (length P = 0 ∨ length Q = 0)%nat as HPQ' by (destruct HPQ as [-> | ->]; auto).
  assert (length S = 0 ∨ length T = 0)%nat as HST' by (destruct HST as [-> | ->]; auto).
  rewrite <-!(assoc_L (++)) in Hmid'.
  rewrite (clip_left P Q o2 (n1 ++ S) T o1), (clip_left Q P n1 (o2 ++ T) S n2);
    [|tauto|done|lia|lia|apply bool_decide_ext; lia|tauto|done|lia|lia|apply bool_decide_ext; lia].
  rewrite (clip_right S T o2 Q (P ++ n1) (P ++ o1)), (clip_right T S n1 P (Q ++ o2) (Q ++ n2));
    [|tauto|by rewrite <-!(assoc_L (++))|lia|lia|apply bool_decide_ext; lia
     |tauto|by rewrite <-!(assoc_L (++))|lia|lia|apply bool_decide_ext; lia].
  exists A, B. rewrite <-!(assoc_L (++)). split_and!; [done|done|lia].
Qed.

Lemma swap_changes_edits c1 c2 l l1 l2 :
  changed c1 l l1 → changed c2 l1 l2 → merge_changes c1 c2 = None → lineIndex c2 < lineIndex c1 →
  ∃ l1', changed (swap_changes c1 c2).1 l l1' ∧ changed (swap_changes c1 c2).2 l1' l2.
Proof.
  destruct c1 as [o1 n1 i1], c2 as [o2 n2 i2]. unfold merge_changes, changed. simpl.
  intros (A1 & B1 & -> & -> & ->) (A2 & B2 & Heq & -> & ->) Hapart Hix.
  case_bool_decide as H1; case_bool_decide as H2; try done; try lia.
  clear Hapart. rewrite (assoc_L (++) A2) in Heq.
  destruct (app_split_long A1 (n1 ++ B1) (A2 ++ o2) B2) as (Z & -> & <-); [done|rewrite length_app; lia|].
  exists (A2 ++ n2 ++ Z ++ o1 ++ B1). split.
  - exists A2, (Z ++ o1 ++ B1). rewrite <-!(assoc_L (++)). done.
  - exists (A2 ++ n2 ++ Z), B1. rewrite <-!(assoc_L (++)), !length_app. split_and!; [done|done|lia].
Qed.

(** *** The pass over a list of changes *)

(** The lines that a change mentions. *)
Definition lines_satisfy (P : Line → Prop) (c : Change) : Prop := Forall P (oldLines c) ∧ Forall P (newLines c).

Lemma merge_changes_lines P c1 c2 m :
  lines_satisfy P c1 → lines_satisfy P c2 → merge_changes c1 c2 = Some m → lines_satisfy P m.
Proof.
  unfold lines_satisfy, merge_changes, slice_to, slice_from. intros [] [].
  destruct (_ && _); [|done]. intros [= <-]. simpl.
  split; repeat case_bool_decide; repeat (apply Forall_app; split); auto using Forall_take, Forall_drop.
Qed.

Lemma insert_pair {A} (pre rest : list A) a b x y :
  <[S (length pre) := y]> (<[length pre := x]> (pre ++ a :: b :: rest)) = pre ++ x :: y :: rest.
Proof.
  rewrite !insert_app_r_alt by lia. by rewrite Nat.sub_diag, Nat.sub_succ_l, Nat.sub_diag by lia.
Qed.

Lemma collapse_at_app pre c1 c2 rest :
  ∃ x c, collapse_at (length pre) (pre ++ Some c1 :: Some c2 :: rest) = Ok ((pre ++ [x]) ++ Some c :: rest) ∧
    (∀ l l', edits [c1; c2] l l' → edits (omap id [x] ++ [c]) l l') ∧
    (∀ P, Forall (lines_satisfy P) [c1; c2] → Forall (lines_satisfy P) (omap id [x] ++ [c])).
Proof.
  unfold collapse_at. rewrite lookup_app_r, Nat.sub_diag by lia.
  rewrite lookup_app_r, Nat.sub_succ_l, Nat.sub_diag by lia. simpl.
  destruct (merge_changes c1 c2) as [m|] eqn:Hm.
  - exists None, m. rewrite insert_pair, <-(assoc_L (++)). split; [done|]. split.
    2: { intros P [H1 [H2 _]%Forall_cons]%Forall_cons. constructor; [|constructor].
         exact (merge_changes_lines P _ _ _ H1 H2 Hm). }
    intros l l' He.
    inversion He as [|? ? ? l1 ? H1 He']; subst. inversion He' as [|? ? ? l2 ? H2 He'']; subst.
    inversion He''; subst. simpl. econstructor; [by eapply merge_changes_edits|constructor].
  - case_bool_decide as Hix.
    + exists (Some c2), (swap_changes c1 c2).2. rewrite insert_pair, <-(assoc_L (++)). split; [done|]. split.
      2: { intros P [H1 [H2 _]%Forall_cons]%Forall_cons.
           by repeat (apply Forall_cons; split); [| |constructor]. }
      intros l l' He.
      inversion He as [|? ? ? l1 ? H1 He']; subst. inversion He' as [|? ? ? l2 ? H2 He'']; subst.
      inversion He''; subst. destruct (swap_changes_edits _ _ _ _ _ H1 H2 Hm Hix) as (l1' & ? & ?).
      simpl. econstructor; [done|]. econstructor; [done|constructor].
    + exists (Some c1), c2. split; [by rewrite <-(assoc_L (++))|]. split; auto.
Qed.

Lemma collapse_loop_ok fuel pre c rest :
  (length rest ≤ fuel)%nat →
  ∃ cs, collapse_loop fuel (length pre) (pre ++ Some c :: (Some <$> rest)) = Ok cs ∧
    (length cs = length pre + S (length rest))%nat ∧
    (∀ l l', edits (omap id pre ++ c :: rest) l l' → edits (omap id cs) l l') ∧
    (∀ P, Forall (lines_satisfy P) (omap id pre ++ c :: rest) → Forall (lines_satisfy P) (omap id cs)).
Proof.
  revert pre c rest. induction fuel as [|fuel IH]; intros pre c rest Hfuel.
  - destruct rest; [|simpl in *; lia]. eexists. split; [done|]. rewrite length_app. split; [done|].
    by rewrite omap_app.
  - destruct rest as [|c2 rest].
    + eexists. simpl. rewrite bool_decide_false by (rewrite length_app; simpl; lia).
      split; [done|]. rewrite length_app. split; [done|]. by rewrite omap_app.
    + destruct (collapse_at_app pre c c2 (Some <$> rest)) as (x & c' & Hat & Hedits & Hlines).
      destruct (IH (pre ++ [x]) c' rest) as (cs & Hloop & Hlen & Hcs & HP); [simpl in *; lia|].
      exists cs. rewrite length_app in Hlen, Hloop. simpl in Hlen, Hloop. cbn [collapse_loop fmap list_fmap].
      rewrite bool_decide_true by (rewrite length_app; simpl; lia).
      cbn [fmap] in Hat. rewrite Hat. replace (S (length pre)) with (length pre + 1)%nat by lia.
      split; [done|]. split; [simpl; lia|]. split.
      2: { intros P H. apply HP. rewrite omap_app, <-(assoc_L (++)).
           apply Forall_app in H as [Hpre [Hc [Hc2 Hrest]%Forall_cons]%Forall_cons].
           apply Forall_app. split; [done|]. change (c' :: rest) with ([c'] ++ rest). rewrite (assoc_L (++)).
           apply Forall_app. split; [apply Hlines|done]. by repeat (apply Forall_cons; split); [| |constructor]. }
      intros l l' He. apply Hcs.
      rewrite omap_app, <-(assoc_L (++)).
      change (c :: c2 :: rest) with ([c; c2] ++ rest) in He.
      apply edits_app_inv in He as (l1 & Hpre & He). apply edits_app_inv in He as (l2 & H2 & Hrest).
      eapply edits_app; [done|]. change (c' :: rest) with ([c'] ++ rest). rewrite (assoc_L (++)).
      eapply edits_app; [by apply Hedits|done].
Qed.

Lemma length_omap_le {A B} (f : A → option B) l : (length (omap f l) ≤ length l)%nat.
Proof. induction l as [|x l IH]; csimpl; [done|]. destruct (f x); csimpl; lia. Qed.

Lemma collapseChanges_ok cs :
  ∃ cs', collapseChanges cs = Ok cs' ∧ (length cs' ≤ length cs)%nat ∧
    (∀ l l', edits cs l l' → edits cs' l l') ∧
    (∀ P, Forall (lines_satisfy P) cs → Forall (lines_satisfy P) cs').
Proof.
  unfold collapseChanges. destruct cs as [|c cs]; [exists []; auto|].
  destruct (collapse_loop_ok (length (c :: cs)) [] c cs) as (cs' & Hloop & Hlen & He & HP); [simpl; lia|].
  exists (omap id cs'). change (Some <$> c :: cs) with ([] ++ Some c :: (Some <$> cs)).
  change 0%nat with (length (@nil (option Change))). rewrite Hloop. split; [done|]. split; [|by split].
  etrans; [apply length_omap_le|]. rewrite Hlen. simpl. lia.
Qed.
