(* ===== verification/EventTypes.v ===== *)
(** * What [isValidEvent] guarantees

    A value that the check accepts stands for an [Event] whose changes and cursors are in
    range ([event_ok]); and every such event, written out as a dictionary, is accepted and reads
    back as itself. *)

From Stdlib Require Import Lia QArith.
From stdpp Require Import options.
From S2P Require Import Prelude EventModel EventLemmas.

Local Open Scope Z_scope.
Local Open Scope string_scope.

(** ** Events in range *)

Definition line_ok (s : Line) : bool := negb (has_newline s).
Definition coordinate_ok (n : Z) : bool := bool_decide (0 <= n).
Definition change_ok (c : Change) : bool :=
  coordinate_ok (lineIndex c) && forallb line_ok (oldLines c) && forallb line_ok (newLines c).
Definition cursor_ok (c : Cursor) : bool :=
  forallb coordinate_ok [(pos c).1; (pos c).2; (tail c).1; (tail c).2; desiredCol c].
Definition event_ok (e : Event) : bool :=
  forallb change_ok (changes e) && forallb cursor_ok (startCursors e) && forallb cursor_ok (newCursors e).

Lemma change_ok_placed c : change_ok c = true → placed c.
Proof. unfold change_ok, coordinate_ok, placed. intros [[Hix%bool_decide_eq_true _]%andb_true_iff _]%andb_true_iff. done. Qed.

Lemma event_ok_placed e : event_ok e = true → Forall placed (changes e).
Proof.
  unfold event_ok. intros [[Hc _]%andb_true_iff _]%andb_true_iff.
  apply Forall_forall. intros c Hin. apply change_ok_placed.
  apply (proj1 (List.forallb_forall _ _) Hc). by apply list_elem_of_In.
Qed.

(** ** Accepted values are events *)

(** A value accepted by [valid] decodes, with [decode], to a record that satisfies [ok]. *)
Definition decodes {A} (valid : json → bool) (decode : json → option A) (ok : A → bool) : Prop :=
  ∀ v, valid v = true → ∃ a, decode v = Some a ∧ ok a = true.

Lemma decodes_list {A} valid (decode : json → option A) ok l :
  decodes valid decode ok → forallb valid l = true →
  ∃ rs, list.mapM decode l = Some rs ∧ forallb ok rs = true.
Proof.
  intros Hdec. induction l as [|v l IH]; simpl; intros Hl; [by exists []|].
  apply andb_true_iff in Hl as [Hv Hl]. destruct (Hdec v Hv) as (a & -> & Ha).
  destruct (IH Hl) as (rs & -> & Hrs). simpl. exists (a :: rs). simpl. by rewrite Ha, Hrs.
Qed.

Lemma decodes_all {A} valid (decode : json → option A) ok :
  decodes valid decode ok → decodes (all_valid valid) (as_records decode) (forallb ok).
Proof. intros Hdec [] Hv; try done. simpl in *. by eapply decodes_list. Qed.

Lemma decodes_line : decodes isValidLine as_str line_ok.
Proof. intros [] Hv; try done. simpl in *. eauto. Qed.

Lemma decodes_coordinate : decodes isValidCoordinate as_int coordinate_ok.
Proof.
  intros v. unfold isValidCoordinate. destruct (as_int v) as [n|]; [|done].
  case_bool_decide; [done|]. intros _. exists n. split; [done|]. apply bool_decide_eq_true. lia.
Qed.

Lemma decodes_change : decodes isValidChange as_change change_ok.
Proof.
  intros [] Hv; try done. simpl in *. apply andb_true_iff in Hv as [_ Hv]. unfold as_records.
  destruct (as_list (get_key "oldLines" d)) as [old|]; [|done].
  destruct (as_list (get_key "newLines" d)) as [new|]; [|done].
  destruct (as_int (get_key "lineIndex" d)) as [ix|]; [|done]. simpl.
  rewrite forallb_app in Hv. apply andb_true_iff in Hv as [Hix [Hold Hnew]%andb_true_iff].
  destruct (decodes_list _ _ _ _ decodes_line Hold) as (rs & -> & Hrs).
  destruct (decodes_list _ _ _ _ decodes_line Hnew) as (rs' & -> & Hrs'). simpl.
  eexists. split; [done|]. unfold change_ok. simpl. rewrite Hrs, Hrs', !andb_true_r.
  case_bool_decide; [done|]. apply bool_decide_eq_true. lia.
Qed.

Lemma decodes_position l :
  length l = 2%nat → forallb isValidCoordinate l = true →
  ∃ p, as_position (JList l) = Some p ∧ forallb coordinate_ok [p.1; p.2] = true.
Proof.
  destruct l as [|x [|y []]]; try done. intros _. simpl. rewrite andb_true_r.
  intros [(a & -> & Ha)%decodes_coordinate (b & -> & Hb)%decodes_coordinate]%andb_true_iff.
  exists (a, b). simpl. by rewrite Ha, Hb.
Qed.

Lemma decodes_cursor : decodes isValidCursor as_cursor cursor_ok.
Proof.
  intros [] Hv; try done. simpl in *. apply andb_true_iff in Hv as [_ Hv].
  destruct (get_key "pos" d) as [| | | | |p|]; try done. destruct (get_key "tail" d) as [| | | | |t|]; try done.
  simpl in Hv. repeat case_bool_decide; try done. simpl in Hv. rewrite !forallb_app in Hv.
  apply andb_true_iff in Hv as [Hp [Ht Hc]%andb_true_iff]. cbn [forallb] in Hc. rewrite andb_true_r in Hc.
  destruct (decodes_position p) as ([x y] & -> & Hxy); [done..|].
  destruct (decodes_position t) as ([x' y'] & -> & Hxy'); [done..|].
  destruct (decodes_coordinate _ Hc) as (c & -> & Hcok). simpl. eexists. split; [done|].
  unfold cursor_ok. simpl in *. rewrite Hcok, !andb_true_r in *.
  apply andb_true_iff in Hxy as [-> ->], Hxy' as [-> ->]. done.
Qed.

Lemma decodes_event : decodes isValidEvent as_event event_ok.
Proof.
  intros [] Hv; try done. cbn [isValidEvent as_event] in *.
  repeat (apply andb_true_iff in Hv as [Hv ?]).
  destruct (decodes_all _ _ _ decodes_change (get_key "changes" d)) as (cs & -> & Hcs); [done|].
  destruct (decodes_all _ _ _ decodes_cursor (get_key "startCursors" d)) as (start & -> & Hstart); [done|].
  destruct (decodes_all _ _ _ decodes_cursor (get_key "newCursors" d)) as (new & -> & Hnew); [done|].
  assert (is_Some (as_number (get_key "timestamp" d))) as [t ->] by (by destruct (get_key "timestamp" d)).
  assert (is_Some (as_undo_state (get_key "undoState" d))) as [u ->].
  { destruct (get_key "undoState" d) as [| | | |s| |]; try done. simpl in *. repeat case_bool_decide; set_solver. }
  assert (is_Some (as_str_or_none (get_key "editSessionId" d))) as [session ->]
    by (by destruct (get_key "editSessionId" d)).
  assert (is_Some (as_reason (get_key "reason" d))) as [r ->].
  { destruct (get_key "reason" d) as [| | | |s| |kvs]; try done. simpl in *.
    assert (is_Some (list.mapM (λ kv, as_str kv.2 ≫= λ s, Some (kv.1, s)) kvs)) as [rs ->]; [|done].
    induction kvs as [|[k v] kvs IH]; [done|]. simpl in *.
    destruct v; try done. simpl. destruct IH as [? ->]; done. }
  assert (is_Some (as_str (get_key "eventGuid" d))) as [guid ->] by (by destruct (get_key "eventGuid" d)).
  assert (is_Some (as_str (get_key "priorEventGuid" d))) as [prior ->] by (by destruct (get_key "priorEventGuid" d)).
  assert (is_Some (as_str_or_none (get_key "undoing" d))) as [undone ->] by (by destruct (get_key "undoing" d)).
  simpl. eexists. split; [done|]. unfold event_ok. simpl. by rewrite Hcs, Hstart, Hnew.
Qed.

(** ** Events written out *)

Definition change_json (c : Change) : json :=
  JDict [("oldLines", JList (JStr <$> oldLines c)); ("newLines", JList (JStr <$> newLines c));
         ("lineIndex", JInt (lineIndex c))].
Definition cursor_json (c : Cursor) : json :=
  JDict [("pos", JList [JInt (pos c).1; JInt (pos c).2]); ("tail", JList [JInt (tail c).1; JInt (tail c).2]);
         ("desiredCol", JInt (desiredCol c))].
Definition str_or_none_json (s : option string) : json := match s with None => JNone | Some s => JStr s end.
Definition undo_state_json (u : option UndoState) : json :=
  match u with None => JNone | Some Undo => JStr "undo" | Some Redo => JStr "redo" end.
Definition reason_json (r : Reason) : json :=
  match r with RText s => JStr s | RDict d => JDict ((λ kv, (kv.1, JStr kv.2)) <$> d) end.
Definition event_json (e : Event) : json :=
  JDict [("changes", JList (change_json <$> changes e));
         ("startCursors", JList (cursor_json <$> startCursors e));
         ("newCursors", JList (cursor_json <$> newCursors e));
         ("timestamp", JFloat (timestamp e));
         ("undoState", undo_state_json (undoState e));
         ("editSessionId", str_or_none_json (editSessionId e));
         ("reason", reason_json (reason e));
         ("eventGuid", JStr (eventGuid e));
         ("priorEventGuid", JStr (priorEventGuid e));
         ("undoing", str_or_none_json (undoing e))].

Lemma as_records_encode {A} (decode : json → option A) (encode : A → json) l :
  (∀ x, decode (encode x) = Some x) → as_records decode (JList (encode <$> l)) = Some l.
Proof.
  intros Hdec. unfold as_records. cbn [as_list mbind option_bind].
  induction l as [|x l IH]; [done|]. rewrite fmap_cons. cbn [list.mapM]. rewrite Hdec. cbn [mbind option_bind]. by rewrite IH.
Qed.

Lemma all_valid_encode {A} valid ok (encode : A → json) l :
  (∀ x, valid (encode x) = ok x) → all_valid valid (JList (encode <$> l)) = forallb ok l.
Proof. intros Hv. cbn [all_valid]. induction l as [|x l IH]; [done|]. csimpl. by rewrite Hv, IH. Qed.

Lemma as_change_encode c : as_change (change_json c) = Some c.
Proof.
  unfold as_change, change_json, get_key. cbn [lookup_key]. repeat (case_bool_decide; try done).
  simpl. rewrite !as_records_encode by done. by destruct c.
Qed.
Lemma as_cursor_encode c : as_cursor (cursor_json c) = Some c.
Proof. by destruct c as [[? ?] [? ?] ?]. Qed.

Lemma valid_coordinate_encode n : isValidCoordinate (JInt n) = coordinate_ok n.
Proof. unfold isValidCoordinate, coordinate_ok. simpl. repeat case_bool_decide; try done; lia. Qed.

Lemma valid_lines_encode l : forallb isValidLine (JStr <$> l) = forallb line_ok l.
Proof. induction l as [|s l IH]; [done|]. csimpl. by rewrite IH. Qed.

Lemma valid_change_encode c : isValidChange (change_json c) = change_ok c.
Proof.
  unfold isValidChange, change_json. change (has_keys _ _) with true at 1. simpl.
  unfold change_ok, coordinate_ok. rewrite forallb_app, !valid_lines_encode.
  rewrite <-andb_assoc. f_equal. repeat case_bool_decide; try done; lia.
Qed.

Lemma valid_cursor_encode c : isValidCursor (cursor_json c) = cursor_ok c.
Proof.
  unfold isValidCursor, cursor_json. change (has_keys _ _) with true at 1.
  cbn [andb get_key default lookup_key]. simpl. unfold cursor_ok. simpl. rewrite !valid_coordinate_encode. done.
Qed.

Lemma as_event_encode e : as_event (event_json e) = Some e.
Proof.
  unfold as_event, event_json. unfold get_key. simpl.
  rewrite (as_records_encode as_change) by apply as_change_encode. simpl.
  rewrite !(as_records_encode as_cursor) by apply as_cursor_encode. simpl.
  destruct e as [cs start new t u session r guid prior undone]. simpl.
  assert (as_undo_state (undo_state_json u) = Some u) as -> by (by destruct u as [[]|]). simpl.
  assert (∀ s, as_str_or_none (str_or_none_json s) = Some s) as Hs by (by intros []). rewrite !Hs. simpl.
  assert (as_reason (reason_json r) = Some r) as ->; [|done].
  destruct r as [|d]; [done|]. simpl. induction d as [|[k v] d IH]; [done|]. csimpl in *.
  destruct (list.mapM _ _); [|done]. simpl in *. congruence.
Qed.

Lemma valid_event_encode e : isValidEvent (event_json e) = event_ok e.
Proof.
  unfold isValidEvent, event_json. change (has_keys _ _) with true. unfold get_key. simpl.
  change (forallb isValidChange (change_json <$> changes e)) with (all_valid isValidChange (JList (change_json <$> changes e))).
  change (forallb isValidCursor (cursor_json <$> startCursors e)) with (all_valid isValidCursor (JList (cursor_json <$> startCursors e))).
  change (forallb isValidCursor (cursor_json <$> newCursors e)) with (all_valid isValidCursor (JList (cursor_json <$> newCursors e))).
  rewrite (all_valid_encode _ change_ok), !(all_valid_encode _ cursor_ok)
    by auto using valid_change_encode, valid_cursor_encode.
  assert (is_undo_state (undo_state_json (undoState e)) = true) as -> by (by destruct (undoState e) as [[]|]).
  assert (∀ s, is_str_or_none (str_or_none_json s) = true) as Hs by (by intros []). rewrite !Hs.
  assert (is_reason (reason_json (reason e)) = true) as ->.
  { destruct (reason e) as [|d]; [done|]. simpl. by induction d. }
  by rewrite !andb_true_r.
Qed.
