(* ===== verification/EventHistory.v ===== *)
(** * Undo and redo as a zipper of documents

    The program finds the event to undo by counting backwards over the whole history.  Here that
    search is shown to read the top of a stack ([play]); the stacks are related to the documents
    they lead back to ([trail]); and a session of edits, undos and redos is a walk on a [Zipper]:
    past documents, the present one, and the ones that can be redone. *)

From Stdlib Require Import Lia QArith.
From stdpp Require Import options.
From S2P Require Import Prelude EventModel EventLemmas EventTypes.

Local Open Scope nat_scope.

(** ** The search reads a stack *)

(** One event of a history: its index on the stack that it belongs to. *)
Definition play_step (ix : nat) (event : Event) (stacks : list nat * list nat) : option (list nat * list nat) :=
  match undoState event, stacks with
  | None, (us, _) => Some (ix :: us, [])
  | Some Undo, (_ :: us, rs) => Some (us, ix :: rs)
  | Some Redo, (us, _ :: rs) => Some (ix :: us, rs)
  | Some _, _ => None
  end.

(** The stacks of undoable and redoable events; [None] when the history undoes or redoes nothing. *)
Fixpoint play_from (ix : nat) (events : list Event) (stacks : list nat * list nat) : option (list nat * list nat) :=
  match events with
  | [] => Some stacks
  | event :: events => play_step ix event stacks ≫= play_from (S ix) events
  end.
Definition play (events : list Event) : option (list nat * list nat) := play_from 0 events ([], []).

Lemma play_from_app ix events events' stacks :
  play_from ix (events ++ events') stacks = play_from ix events stacks ≫= play_from (ix + length events) events'.
Proof.
  revert ix stacks. induction events as [|e events IH]; intros ix stacks; simpl; [by rewrite Nat.add_0_r|].
  destruct (play_step ix e stacks); simpl; [|done]. by rewrite IH, <-Nat.add_succ_comm.
Qed.

Lemma play_snoc events e : play (events ++ [e]) = play events ≫= play_step (length events) e.
Proof.
  unfold play. rewrite play_from_app. destruct (play_from 0 events _) as [st|]; simpl; [|done].
  by destruct (play_step _ _ _).
Qed.

Lemma next_undo_app events events' n p :
  n ≤ length events → next_undo (events ++ events') n p = next_undo events n p.
Proof.
  revert p. induction n as [|n IH]; intros p Hn; simpl; [done|].
  rewrite lookup_app_l by lia. rewrite !IH by lia. done.
Qed.

Lemma next_redo_app events events' n p :
  n ≤ length events → next_redo (events ++ events') n p = next_redo events n p.
Proof.
  revert p. induction n as [|n IH]; intros p Hn; simpl; [done|].
  rewrite lookup_app_l by lia. rewrite !IH by lia. done.
Qed.

Lemma next_undo_0 events n : next_undo events n 0 = Some n.
Proof. by destruct n. Qed.
Lemma next_redo_0 events n : next_redo events n 0 = Some n.
Proof. by destruct n. Qed.

Lemma next_snoc events e p :
  (0 < p)%Z →
  computeNextUndoIx (events ++ [e]) p =
    next_undo events (length events) (if decide (undoState e = Some Undo) then p + 1 else p - 1) ∧
  computeNextRedoIx (events ++ [e]) p =
    if decide (undoState e = None) then None
    else next_redo events (length events) (if decide (undoState e = Some Undo) then p - 1 else p + 1).
Proof.
  intros Hp. unfold computeNextUndoIx, computeNextRedoIx.
  rewrite length_app, Nat.add_1_r. cbn [next_undo next_redo].
  rewrite !bool_decide_true by lia. rewrite lookup_app_r, Nat.sub_diag by lia. simpl.
  destruct (undoState e) as [[]|]; simpl;
    rewrite ?next_undo_app, ?next_redo_app by lia; repeat case_decide; done.
Qed.

(** The p-th undo (redo) from the end of the history is the p-th entry of the stack. *)
Lemma search_reads_stack events us rs p :
  play events = Some (us, rs) →
  computeNextUndoIx events (1 + Z.of_nat p) = us !! p ∧ computeNextRedoIx events (1 + Z.of_nat p) = rs !! p.
Proof.
  revert us rs p. induction events as [|e events IH] using rev_ind; intros us rs p Hplay.
  { injection Hplay as <- <-. unfold computeNextUndoIx, computeNextRedoIx. simpl.
    by rewrite !bool_decide_true by lia. }
  rewrite play_snoc in Hplay. destruct (play events) as [[us0 rs0]|] eqn:H0; [|done]. simpl in Hplay.
  destruct (next_snoc events e (1 + Z.of_nat p)) as [-> ->]; [lia|].
  unfold play_step in Hplay. destruct (undoState e) as [[]|]; repeat case_decide; try done.
  - destruct us0 as [|u us0]; [done|]. injection Hplay as <- <-. split.
    + destruct (IH _ _ (S p) eq_refl) as [Hu _]. unfold computeNextUndoIx in Hu.
      by replace (1 + Z.of_nat (S p))%Z with (1 + Z.of_nat p + 1)%Z in Hu by lia.
    + destruct p as [|p]; [apply next_redo_0|]. destruct (IH _ _ p eq_refl) as [_ Hr].
      unfold computeNextRedoIx in Hr. by replace (1 + Z.of_nat (S p) - 1)%Z with (1 + Z.of_nat p)%Z by lia.
  - destruct rs0 as [|r rs0]; [done|]. injection Hplay as <- <-. split.
    + destruct p as [|p]; [apply next_undo_0|]. destruct (IH _ _ p eq_refl) as [Hu _].
      unfold computeNextUndoIx in Hu. by replace (1 + Z.of_nat (S p) - 1)%Z with (1 + Z.of_nat p)%Z by lia.
    + destruct (IH _ _ (S p) eq_refl) as [_ Hr]. unfold computeNextRedoIx in Hr.
      by replace (1 + Z.of_nat (S p))%Z with (1 + Z.of_nat p + 1)%Z in Hr by lia.
  - injection Hplay as <- <-. split; [|done].
    destruct p as [|p]; [apply next_undo_0|]. destruct (IH _ _ p eq_refl) as [Hu _].
    unfold computeNextUndoIx in Hu. by replace (1 + Z.of_nat (S p) - 1)%Z with (1 + Z.of_nat p)%Z by lia.
Qed.

Definition descending (bound : nat) (stack : list nat) : Prop :=
  StronglySorted gt stack ∧ Forall (λ i, i < bound) stack.

Lemma descending_nil bound : descending bound [].
Proof. split; constructor. Qed.
Lemma descending_tail bound i stack : descending bound (i :: stack) → descending (S bound) stack.
Proof.
  intros [Hs Hb]. apply StronglySorted_inv in Hs as [Hs _]. apply Forall_cons in Hb as [_ Hb].
  split; [done|]. eapply Forall_impl; [done|]. simpl. lia.
Qed.
Lemma descending_push bound stack : descending bound stack → descending (S bound) (bound :: stack).
Proof.
  intros [Hs Hb]. split.
  - constructor; [done|]. by eapply Forall_impl.
  - constructor; [lia|]. eapply Forall_impl; [done|]. simpl. lia.
Qed.
#[local] Hint Resolve descending_nil descending_tail descending_push : core.

Lemma play_descending events us rs :
  play events = Some (us, rs) → descending (length events) us ∧ descending (length events) rs.
Proof.
  revert us rs. induction events as [|e events IH] using rev_ind; intros us rs Hplay.
  { injection Hplay as <- <-. auto. }
  rewrite play_snoc in Hplay. rewrite length_app, Nat.add_1_r.
  destruct (play events) as [[us0 rs0]|]; [|done]. simpl in Hplay. destruct (IH _ _ eq_refl).
  unfold play_step in Hplay. destruct (undoState e) as [[]|]; [destruct us0|destruct rs0|]; simplify_eq; eauto.
Qed.

Lemma descending_next bound i j stack p :
  descending bound stack → stack !! p = Some i → stack !! S p = Some j → j < i.
Proof.
  intros [Hs _]. revert p. induction Hs as [|x stack Hs IH Hx]; intros p Hi Hj; [done|].
  destruct p as [|p]; simpl in *; [|by eapply IH].
  injection Hi as ->. rewrite Forall_forall in Hx. apply Hx. by eapply list_elem_of_lookup_2.
Qed.

(** ** What the program returns when it undoes or redoes *)

(** [res] reverses the events at the first entries of a stack, from the n-th call for a guid on,
    each reversal chained to the one before. *)
Inductive reversals (fresh : Fresh) (events : list Event) (session : option string) :
    nat → string → list nat → list Event → Prop :=
  | reversals_nil n prior stack : reversals fresh events session n prior stack []
  | reversals_cons n prior i e stack res :
      events !! i = Some e →
      reversals fresh events session (S n) (fresh_guid fresh n) stack res →
      reversals fresh events session n prior (i :: stack) (reverseEventForUndo fresh n e session prior :: res).

Section search.
Context (next : list Event → Z → option nat) (fresh : Fresh) (events : list Event) (session : option string).
Context (stack : list nat).
Hypothesis next_stack : ∀ p, next events (1 + Z.of_nat p)%Z = stack !! p.
Hypothesis stack_sorted : descending (length events) stack.

Lemma stack_event p i : stack !! p = Some i → is_Some (events !! i).
Proof using stack_sorted.
  intros Hi. apply lookup_lt_is_Some. destruct stack_sorted as [_ Hb].
  rewrite Forall_forall in Hb. apply Hb. by eapply list_elem_of_lookup_2.
Qed.

Lemma reverse_stream_ok fuel i n prior :
  stack !! n = Some i → i < fuel →
  ∃ res, reverse_stream next fresh fuel events session i (S n) prior = Ok res ∧
    reversals fresh events session (S n) prior (drop (S n) stack) res.
Proof using next_stack stack_sorted.
  revert i n prior. induction fuel as [|fuel IH]; intros i n prior Hi Hfuel; [lia|].
  cbn [reverse_stream]. rewrite next_stack. destruct (stack !! S n) as [i2|] eqn:Hi2.
  2: { eexists. split; [done|]. constructor. }
  pose proof (descending_next _ _ _ _ _ stack_sorted Hi Hi2) as Hlt.
  rewrite bool_decide_true by done.
  destruct (stack_event _ _ Hi) as [e1 He1], (stack_event _ _ Hi2) as [e2 He2]. rewrite He1, He2.
  destruct (eventsAreInSameUndoStream e2 e1); [|eexists; split; [done|constructor]].
  destruct (IH i2 (S n) (fresh_guid fresh (S n)) Hi2) as (res & Hres & Hrev); [lia|]. simpl.
  rewrite Hres. eexists. split; [done|]. rewrite (drop_S _ _ _ Hi2). by constructor.
Qed.

Lemma reverse_events_ok prior :
  ∃ res, reverse_events next fresh events session prior = Ok res ∧
    reversals fresh events session 0 prior stack res ∧ (res = [] ↔ stack = []).
Proof using next_stack stack_sorted.
  unfold reverse_events. rewrite (next_stack 0 : next events 1 = _).
  destruct (stack !! 0) as [i|] eqn:Hi.
  - destruct (stack_event _ _ Hi) as [e He]. rewrite He.
    destruct (reverse_stream_ok (S (length events)) i 0 (fresh_guid fresh 0) Hi) as (res & Hres & Hrev).
    { apply lookup_lt_Some in He. lia. }
    cbn [eventGuid reverseEventForUndo]. rewrite Hres. eexists. split; [done|].
    destruct stack as [|i' stack']; [done|]. simpl in Hi. simplify_eq. split; [by constructor|done].
  - exists []. split; [done|]. split; [constructor|]. by destruct stack.
Qed.
End search.

(** ** The zipper *)

Record Zipper := { past : list (list Line); present : list Line; future : list (list Line) }.

Definition zedit (lines : list Line) (z : Zipper) : Zipper :=
  {| past := present z :: past z; present := lines; future := [] |}.
Definition zundo (z : Zipper) : Zipper :=
  match past z with
  | [] => z
  | d :: ds => {| past := ds; present := d; future := present z :: future z |}
  end.
Definition zredo (z : Zipper) : Zipper :=
  match future z with
  | [] => z
  | d :: ds => {| past := present z :: past z; present := d; future := ds |}
  end.

(** The events at the entries of a stack lead back, one by one, to the documents [ds]. *)
Inductive trail (events : list Event) (undone : bool) : list Line → list nat → list (list Line) → Prop :=
  | trail_nil d : trail events undone d [] []
  | trail_cons d0 d i e stack ds :
      events !! i = Some e → undone = bool_decide (undoState e = Some Undo) →
      edits (changes e) d d0 → trail events undone d stack ds →
      trail events undone d0 (i :: stack) (d :: ds).

Lemma trail_app events events' undone d stack ds :
  trail events undone d stack ds → trail (events ++ events') undone d stack ds.
Proof. induction 1; econstructor; eauto using lookup_app_l_Some. Qed.

Record walks (lines : list Line) (events : list Event) (us rs : list nat) (z : Zipper) : Prop := {
  walks_play : play events = Some (us, rs);
  walks_past : trail events false (present z) us (past z);
  walks_future : trail events true (present z) rs (future z);
  walks_present : applyEventsToLines lines events = present z;
}.

Lemma applyEventsToLines_snoc lines events e :
  applyEventsToLines lines (events ++ [e]) = apply_changes (changes e) (applyEventsToLines lines events).
Proof. unfold applyEventsToLines. by rewrite foldl_app. Qed.

Lemma walks_start lines : walks lines [] [] [] {| past := []; present := lines; future := [] |}.
Proof. split; [done|constructor|constructor|done]. Qed.

Lemma trail_push events e undone d d0 stack ds :
  undone = bool_decide (undoState e = Some Undo) → edits (changes e) d0 d →
  trail events undone d0 stack ds → trail (events ++ [e]) undone d (length events :: stack) (d0 :: ds).
Proof.
  intros. econstructor; eauto using trail_app. by rewrite lookup_app_r, Nat.sub_diag by lia.
Qed.

Section steps.
Context (lines : list Line) (events : list Event) (e : Event) (d : list Line).

Lemma walks_edit us rs z :
  walks lines events us rs z → undoState e = None → edits (changes e) (present z) d →
  walks lines (events ++ [e]) (length events :: us) [] (zedit d z).
Proof using Type.
  intros [Hplay Hpast Hfuture Hpresent] Hstate He. split; simpl.
  - rewrite play_snoc, Hplay. simpl. unfold play_step. by rewrite Hstate.
  - apply trail_push; [by rewrite Hstate|done|done].
  - constructor.
  - rewrite applyEventsToLines_snoc, Hpresent. by apply edits_apply.
Qed.

Lemma walks_undo i us rs z e0 :
  walks lines events (i :: us) rs z → events !! i = Some e0 →
  changes e = reverseChange <$> reverse (changes e0) → undoState e = Some Undo →
  walks lines (events ++ [e]) us (length events :: rs) (zundo z) ∧ past z ≠ [].
Proof using Type.
  intros [Hplay Hpast Hfuture Hpresent] He0 Hchanges Hstate.
  destruct z as [past present future]. simpl in *.
  inversion Hpast as [|? d0 ? e0' ? ds ? ? Hedits Htrail]; simplify_eq. split; [|done].
  pose proof (edits_reverse _ _ _ Hedits) as Hback. rewrite <-Hchanges in Hback. split; simpl.
  - rewrite play_snoc, Hplay. simpl. unfold play_step. by rewrite Hstate.
  - by apply trail_app.
  - apply trail_push; [by rewrite Hstate|done|done].
  - rewrite applyEventsToLines_snoc. by apply edits_apply.
Qed.

Lemma walks_redo i us rs z e0 :
  walks lines events us (i :: rs) z → events !! i = Some e0 →
  changes e = reverseChange <$> reverse (changes e0) → undoState e = Some Redo →
  walks lines (events ++ [e]) (length events :: us) rs (zredo z) ∧ future z ≠ [].
Proof using Type.
  intros [Hplay Hpast Hfuture Hpresent] He0 Hchanges Hstate.
  destruct z as [past present future]. simpl in *.
  inversion Hfuture as [|? d0 ? e0' ? ds ? ? Hedits Htrail]; simplify_eq. split; [|done].
  pose proof (edits_reverse _ _ _ Hedits) as Hback. rewrite <-Hchanges in Hback. split; simpl.
  - rewrite play_snoc, Hplay. simpl. unfold play_step. by rewrite Hstate.
  - apply trail_push; [by rewrite Hstate|done|done].
  - by apply trail_app.
  - rewrite applyEventsToLines_snoc. by apply edits_apply.
Qed.
End steps.

Lemma trail_top events undone d i stack ds e :
  trail events undone d (i :: stack) ds → events !! i = Some e → undone = bool_decide (undoState e = Some Undo).
Proof. inversion 1; intros; by simplify_eq. Qed.

Lemma walks_undo_all lines events0 extra fresh session n prior us rs z res :
  reversals fresh events0 session n prior us res → walks lines (events0 ++ extra) us rs z →
  ∃ us' rs', walks lines (events0 ++ extra ++ res) us' rs' (Nat.iter (length res) zundo z) ∧
    length res ≤ length (past z).
Proof.
  intros Hrev. revert extra rs z. induction Hrev as [n prior us|n prior i e us res He Hrev IH]; intros extra rs z Hw.
  - exists us, rs. rewrite app_nil_r. split; [done|simpl; lia].
  - assert ((events0 ++ extra) !! i = Some e) as He' by eauto using lookup_app_l_Some.
    pose proof (trail_top _ _ _ _ _ _ _ (walks_past _ _ _ _ _ Hw) He') as Hstate.
    destruct (walks_undo lines _ (reverseEventForUndo fresh n e session prior) _ _ _ _ _ Hw He') as [Hw' Hne];
      [done|simpl; by rewrite <-Hstate|].
    rewrite <-(assoc_L (++)) in Hw'. destruct (IH _ _ _ Hw') as (us' & rs' & Hw'' & Hlen).
    exists us', rs'. rewrite <-(assoc_L (++)) in Hw''. cbn [length]. rewrite Nat.iter_succ_r. split; [done|].
    destruct (past z) eqn:Hp; [done|]. unfold zundo in Hlen. rewrite Hp in Hlen. simpl in *. lia.
Qed.

Lemma walks_redo_all lines events0 extra fresh session n prior us rs z res :
  reversals fresh events0 session n prior rs res → walks lines (events0 ++ extra) us rs z →
  ∃ us' rs', walks lines (events0 ++ extra ++ res) us' rs' (Nat.iter (length res) zredo z) ∧
    length res ≤ length (future z).
Proof.
  intros Hrev. revert extra us z. induction Hrev as [n prior rs|n prior i e rs res He Hrev IH]; intros extra us z Hw.
  - exists us, rs. rewrite app_nil_r. split; [done|simpl; lia].
  - assert ((events0 ++ extra) !! i = Some e) as He' by eauto using lookup_app_l_Some.
    pose proof (trail_top _ _ _ _ _ _ _ (walks_future _ _ _ _ _ Hw) He') as Hstate.
    destruct (walks_redo lines _ (reverseEventForUndo fresh n e session prior) _ _ _ _ _ Hw He') as [Hw' Hne];
      [done|simpl; by rewrite <-Hstate|].
    rewrite <-(assoc_L (++)) in Hw'. destruct (IH _ _ _ Hw') as (us' & rs' & Hw'' & Hlen).
    exists us', rs'. rewrite <-(assoc_L (++)) in Hw''. cbn [length]. rewrite Nat.iter_succ_r. split; [done|].
    destruct (future z) eqn:Hp; [done|]. unfold zredo in Hlen. rewrite Hp in Hlen. simpl in *. lia.
Qed.

(** The stack has as many entries as there are documents to go back to. *)
Lemma trail_nil_iff events undone d stack ds : trail events undone d stack ds → stack = [] ↔ ds = [].
Proof. by destruct 1. Qed.

(** ** Sessions *)

(** What an editor does: it sends an edit, or asks for an undo or a redo. *)
Inductive op :=
  | EditOp (e : Event)
  | UndoOp (fresh : Fresh) (session : option string)
  | RedoOp (fresh : Fresh) (session : option string).

Definition top_guid (base : string) (events : list Event) : string :=
  from_option eventGuid base (last events).

Section session.
Context (lines : list Line) (base : string).

(** An edit is added when the program's check accepts it. *)
Definition accepted (events : list Event) (e : Event) : bool :=
  eventIsValidInContextOfLines (event_json e) lines (top_guid base events) events &&
  bool_decide (undoState e = None).

Definition append (events : list Event) (res : outcome (list Event)) : outcome (list Event) :=
  match res with Ok res => Ok (events ++ res) | Raise e => Raise e end.

Definition run_op (o : op) (events : list Event) : outcome (list Event) :=
  match o with
  | EditOp e => Ok (if accepted events e then events ++ [e] else events)
  | UndoOp fresh session => append events (computeUndoEvents fresh events session (top_guid base events))
  | RedoOp fresh session => append events (computeRedoEvents fresh events session (top_guid base events))
  end.

Definition run_ops (ops : list op) : outcome (list Event) :=
  foldl (λ events o, match events with Ok events => run_op o events | Raise e => Raise e end) (Ok []) ops.

(** What the zipper does: an edit is applied or, when it does not fit, refused; an undo goes back
    at least one document if there is one, and as many as the stream of keystrokes has. *)
Inductive zstep (top : string) : op → Zipper → Zipper → Prop :=
  | zstep_edit e d z :
      event_ok e = true → undoState e = None → priorEventGuid e = top → edits (changes e) (present z) d →
      zstep top (EditOp e) z (zedit d z)
  | zstep_refused e z :
      ¬ (event_ok e = true ∧ undoState e = None ∧ priorEventGuid e = top ∧ ∃ d, edits (changes e) (present z) d) →
      zstep top (EditOp e) z z
  | zstep_undo fresh session k z :
      k ≤ length (past z) → (k = 0 ↔ past z = []) → zstep top (UndoOp fresh session) z (Nat.iter k zundo z)
  | zstep_redo fresh session k z :
      k ≤ length (future z) → (k = 0 ↔ future z = []) → zstep top (RedoOp fresh session) z (Nat.iter k zredo z).

(** The zipper's walk for a sequence of operations, next to the history it takes the guids from. *)
Inductive zrun : list op → Zipper → Prop :=
  | zrun_start : zrun [] {| past := []; present := lines; future := [] |}
  | zrun_step ops o z z' events :
      zrun ops z → run_ops ops = Ok events → zstep (top_guid base events) o z z' → zrun (ops ++ [o]) z'.

Lemma accepted_edits events e :
  accepted events e = true ↔
  event_ok e = true ∧ undoState e = None ∧ priorEventGuid e = top_guid base events ∧
  ∃ d, edits (changes e) (applyEventsToLines lines events) d.
Proof using Type.
  unfold accepted, eventIsValidInContextOfLines. rewrite valid_event_encode, as_event_encode.
  rewrite !andb_true_iff, !bool_decide_eq_true. split.
  - intros [[Hok [Hprior [d Hd]]] Hstate]. split_and!; [done..|]. exists d.
    apply check_changes_edits; [by apply event_ok_placed|done].
  - intros (Hok & Hstate & Hprior & d & Hd). split_and!; [done..| |done].
    exists d. by apply edits_check_changes.
Qed.

Lemma run_op_walks o events us rs z :
  walks lines events us rs z →
  ∃ events' us' rs' z', run_op o events = Ok events' ∧ zstep (top_guid base events) o z z' ∧
    walks lines events' us' rs' z'.
Proof using Type.
  intros Hw. pose proof (walks_play _ _ _ _ _ Hw) as Hplay.
  destruct (play_descending _ _ _ Hplay) as [Hus Hrs]. destruct o as [e|fresh session|fresh session]; cbn [run_op].
  - destruct (accepted events e) eqn:Hacc.
    + apply accepted_edits in Hacc as (Hok & Hstate & Hprior & d & Hd).
      rewrite (walks_present _ _ _ _ _ Hw) in Hd. do 4 eexists. split; [done|]. split; [by apply zstep_edit|].
      by eapply walks_edit.
    + do 4 eexists. split; [done|]. split; [|done]. apply zstep_refused. intros Hn.
      rewrite <-(walks_present _ _ _ _ _ Hw), <-accepted_edits in Hn. congruence.
  - destruct (reverse_events_ok computeNextUndoIx fresh events session us
      (λ p, proj1 (search_reads_stack _ _ _ p Hplay)) Hus (top_guid base events)) as (res & Hres & Hrev & Hnil).
    unfold computeUndoEvents. rewrite Hres. cbn [append].
    destruct (walks_undo_all lines events [] fresh session 0 (top_guid base events) us rs z res) as (us' & rs' & Hw' & Hlen);
      [done|by rewrite app_nil_r|]. do 4 eexists. split; [done|]. split; [|exact Hw'].
    constructor; [done|]. rewrite <-(trail_nil_iff _ _ _ _ _ (walks_past _ _ _ _ _ Hw)), <-Hnil.
    by destruct res.
  - destruct (reverse_events_ok computeNextRedoIx fresh events session rs
      (λ p, proj2 (search_reads_stack _ _ _ p Hplay)) Hrs (top_guid base events)) as (res & Hres & Hrev & Hnil).
    unfold computeRedoEvents. rewrite Hres. cbn [append].
    destruct (walks_redo_all lines events [] fresh session 0 (top_guid base events) us rs z res) as (us' & rs' & Hw' & Hlen);
      [done|by rewrite app_nil_r|]. do 4 eexists. split; [done|]. split; [|exact Hw'].
    constructor; [done|]. rewrite <-(trail_nil_iff _ _ _ _ _ (walks_future _ _ _ _ _ Hw)), <-Hnil.
    by destruct res.
Qed.

Lemma run_ops_walks ops :
  ∃ events us rs z, run_ops ops = Ok events ∧ zrun ops z ∧ walks lines events us rs z.
Proof using Type.
  induction ops as [|o ops IH] using rev_ind.
  - do 4 eexists. split; [done|]. split; [constructor|apply walks_start].
  - destruct IH as (events & us & rs & z & Hrun & Hz & Hw).
    destruct (run_op_walks o events us rs z Hw) as (events' & us' & rs' & z' & Ho & Hstep & Hw').
    exists events', us', rs', z'. split; [|split; [by econstructor|done]].
    unfold run_ops in *. by rewrite foldl_app, Hrun.
Qed.
End session.

(** ** Undo events pass the check *)

Lemma event_ok_reverse fresh n e session prior :
  event_ok (reverseEventForUndo fresh n e session prior) = event_ok e.
Proof.
  apply eq_true_iff_eq. unfold event_ok. cbn [changes startCursors newCursors reverseEventForUndo].
  rewrite !andb_true_iff, !List.forallb_forall.
  assert (∀ c, change_ok (reverseChange c) = change_ok c) as Hc.
  { intros c. unfold change_ok. simpl. rewrite <-!andb_assoc, (andb_comm (forallb line_ok (newLines c))). done. }
  split; intros [[H1 H2] H3]; split_and!; auto; intros c Hin.
  - rewrite <-Hc. apply H1. apply list_elem_of_In. apply list_elem_of_fmap. exists c.
    split; [done|]. by apply elem_of_reverse, list_elem_of_In.
  - apply list_elem_of_In, list_elem_of_fmap in Hin as (c' & -> & Hin). rewrite Hc. apply H1.
    by apply list_elem_of_In, elem_of_reverse.
Qed.

Lemma reversals_ok fresh events session n prior stack res :
  reversals fresh events session n prior stack res →
  Forall (λ e, event_ok e = true) events → Forall (λ e, event_ok e = true) res.
Proof.
  intros Hrev Hok. induction Hrev as [|n prior i e stack res He Hrev IH]; constructor; [|done].
  rewrite event_ok_reverse. exact (Forall_lookup_1 _ _ _ _ Hok He).
Qed.

Lemma reversals_guids fresh events session n prior stack res :
  reversals fresh events session n prior stack res →
  eventGuid <$> res = fresh_guid fresh <$> seq n (length res).
Proof. induction 1; [done|]. csimpl. by f_equal. Qed.

Lemma reversals_check fresh events session guids undone d n prior stack ds res :
  reversals fresh events session n prior stack res → trail events undone d stack ds →
  Forall (λ e, eventGuid e ∈ (guids : gset string)) events → check_events guids res prior d = true.
Proof.
  intros Hrev Htrail Hguids. revert d ds Htrail.
  induction Hrev as [|n prior i e stack res He Hrev IH]; intros d0 ds Htrail; [done|].
  inversion Htrail as [|? d ? e' ? ds' He' Hstate Hedits Htrail']; simplify_eq.
  cbn [check_events undoing priorEventGuid changes eventGuid reverseEventForUndo].
  rewrite (edits_check_changes _ _ _ (edits_reverse _ _ _ Hedits)), (IH _ _ Htrail').
  rewrite (bool_decide_true (prior = prior)) by done. rewrite !andb_true_r.
  pose proof (Forall_lookup_1 _ _ _ _ Hguids He : eventGuid e ∈ guids).
  by destruct (eventGuid e); [|rewrite bool_decide_true].
Qed.

(** The guids that a run draws are new and differ from one another. *)
Record fresh_for (fresh : Fresh) (base : string) (events : list Event) : Prop := {
  fresh_inj : ∀ i j, fresh_guid fresh i = fresh_guid fresh j → i = j;
  fresh_new : ∀ i, fresh_guid fresh i ∉ base :: (eventGuid <$> events);
}.

Lemma mapM_encode es : list.mapM as_event (event_json <$> es) = Some es.
Proof. apply (as_records_encode as_event event_json). apply as_event_encode. Qed.

Lemma top_guid_elem base events : top_guid base events ∈ base :: (eventGuid <$> events).
Proof.
  unfold top_guid. destruct (last events) as [e|] eqn:He; simpl; [|by left].
  right. apply list_elem_of_fmap. exists e. split; [done|]. by apply last_Some_elem_of.
Qed.

Lemma reversals_accepted lines base fresh events session undone stack ds res :
  NoDup (eventGuid <$> events) → Forall (λ e, event_ok e = true) events → fresh_for fresh base events →
  trail events undone (applyEventsToLines lines events) stack ds →
  reversals fresh events session 0 (top_guid base events) stack res →
  eventsAreValidInContextOfLines (event_json <$> res) lines (top_guid base events) events = true.
Proof.
  intros Hnodup Hok [Hinj Hnew] Htrail Hrev. unfold eventsAreValidInContextOfLines.
  rewrite mapM_encode. apply andb_true_iff. split.
  { apply List.forallb_forall. intros v Hv. apply list_elem_of_In, list_elem_of_fmap in Hv as (e & -> & He).
    rewrite valid_event_encode. pose proof (reversals_ok _ _ _ _ _ _ _ Hrev Hok) as Hres.
    rewrite Forall_forall in Hres. by apply Hres. }
  unfold check_candidates. destruct res as [|e0 res0] eqn:Heq; [done|]. rewrite <-Heq in *. clear Heq.
  assert (∀ g, g ∈ eventGuid <$> res → g ∉ base :: (eventGuid <$> events)) as Hdisj.
  { intros g Hg. rewrite (reversals_guids _ _ _ _ _ _ _ Hrev) in Hg.
    apply list_elem_of_fmap in Hg as (i & -> & _). apply Hnew. }
  rewrite !andb_true_iff. split_and!.
  - apply negb_true_iff, bool_decide_eq_false. intros Hin. by apply (Hdisj _ Hin), top_guid_elem.
  - apply bool_decide_eq_true. rewrite size_list_to_set, length_app, !length_fmap; [done|].
    apply NoDup_app. split_and!; [done| |].
    + intros g Hg Hg'. apply (Hdisj _ Hg'). by right.
    + rewrite (reversals_guids _ _ _ _ _ _ _ Hrev). apply NoDup_fmap_2; [intros ???; by apply Hinj|].
      apply NoDup_seq.
  - eapply reversals_check; [done..|]. apply Forall_forall. intros e He. apply elem_of_list_to_set.
    apply elem_of_app. left. by apply list_elem_of_fmap_2.
Qed.

Lemma run_ops_events_ok lines base ops events :
  run_ops lines base ops = Ok events → Forall (λ e, event_ok e = true) events.
Proof.
  revert events. induction ops as [|o ops IH] using rev_ind; intros events'.
  { intros [= <-]. constructor. }
  destruct (run_ops_walks lines base ops) as (events & us & rs & z & Hrun & Hz & Hw).
  pose proof (walks_play _ _ _ _ _ Hw) as Hplay. destruct (play_descending _ _ _ Hplay) as [Hus Hrs].
  unfold run_ops in *. rewrite foldl_app, Hrun. specialize (IH _ Hrun). cbn [foldl].
  destruct o as [e|fresh session|fresh session]; cbn [run_op].
  - destruct (accepted lines base events e) eqn:Hacc; intros [= <-]; [|done].
    apply accepted_edits in Hacc as (? & _). apply Forall_app. split; [done|by constructor].
  - destruct (reverse_events_ok computeNextUndoIx fresh events session us
      (λ p, proj1 (search_reads_stack _ _ _ p Hplay)) Hus (top_guid base events)) as (res & Hres & Hrev & _).
    unfold computeUndoEvents. rewrite Hres. cbn [append]. intros [= <-]. apply Forall_app. eauto using reversals_ok.
  - destruct (reverse_events_ok computeNextRedoIx fresh events session rs
      (λ p, proj2 (search_reads_stack _ _ _ p Hplay)) Hrs (top_guid base events)) as (res & Hres & Hrev & _).
    unfold computeRedoEvents. rewrite Hres. cbn [append]. intros [= <-]. apply Forall_app. eauto using reversals_ok.
Qed.
