(* ===== verification/EventTheorems.v ===== *)
(** * Properties of the edit history

    What each part of the event model promises: merging changes, differences between texts,
    undo and redo, the cache of document states, and the checks of incoming events. *)

From Stdlib Require Import Lia QArith.
From stdpp Require Import options.
From S2P Require Import Prelude EventModel EventLemmas EventTypes EventHistory.

Local Open Scope Z_scope.

(** ** Splitting and joining text *)

Lemma split_at_nonempty c s : split_at c s ≠ [].
Proof. induction s as [|c' s IH]; simpl; [done|]. case_bool_decide; [done|]. by destruct (split_at c s). Qed.

Lemma join_cons sep x xs : xs ≠ [] → join sep (x :: xs) = (x ++ sep ++ join sep xs)%string.
Proof. by destruct xs. Qed.

Lemma join_split s : join newline_string (split_at newline s) = s.
Proof.
  induction s as [|c s IH]; [done|]. cbn [split_at]. case_bool_decide as Hc.
  - rewrite join_cons by apply split_at_nonempty. rewrite IH, Hc. done.
  - pose proof (split_at_nonempty newline s) as Hne. destruct (split_at newline s) as [|x xs]; [done|].
    destruct xs as [|y xs]; [simpl in *; congruence|].
    rewrite join_cons in IH |- * by done. rewrite <-IH. done.
Qed.

Lemma split_lines_ok s : forallb line_ok (split_at newline s) = true.
Proof.
  induction s as [|c s IH]; [done|]. cbn [split_at]. case_bool_decide as Hc; [done|].
  destruct (split_at newline s) as [|x xs]; cbn [forallb] in *; unfold line_ok in *; cbn [has_newline];
    by rewrite bool_decide_false.
Qed.

(** ** The difference of two lists *)

Lemma common_prefix_spec cur new :
  let i := common_prefix cur new in
  (i ≤ length cur)%nat ∧ (i ≤ length new)%nat ∧ take i cur = take i new.
Proof.
  revert new. induction cur as [|x cur IH]; intros [|y new]; simpl; [auto with lia..|].
  case_bool_decide as Hxy; simpl; [|auto with lia]. destruct (IH new) as (? & ? & ?). subst.
  split_and!; [lia|lia|congruence].
Qed.

Lemma drop_last_step (l : list Line) j :
  (S j ≤ length l)%nat →
  ∃ x, l !! (length l - 1 - j)%nat = Some x ∧ drop (length l - S j) l = x :: drop (length l - j) l.
Proof.
  intros Hj. destruct (lookup_lt_is_Some_2 l (length l - 1 - j)) as [x Hx]; [lia|].
  exists x. split; [done|]. replace (length l - S j)%nat with (length l - 1 - j)%nat by lia.
  rewrite (drop_S _ _ _ Hx). do 2 f_equal. lia.
Qed.

Lemma common_suffix_spec fuel cur new i j :
  (i + j ≤ length cur)%nat → (i + j ≤ length new)%nat →
  drop (length cur - j) cur = drop (length new - j) new →
  let j' := common_suffix fuel cur new i j in
  (i + j' ≤ length cur)%nat ∧ (i + j' ≤ length new)%nat ∧
  drop (length cur - j') cur = drop (length new - j') new.
Proof.
  revert j. induction fuel as [|fuel IH]; intros j Hc Hn Hd; simpl; [done|].
  repeat case_bool_decide; simpl; try done. apply IH; [lia|lia|].
  destruct (drop_last_step cur j) as (x & Hx & ->); [lia|].
  destruct (drop_last_step new j) as (y & Hy & ->); [lia|]. congruence.
Qed.

Lemma slice_middle (l : list Line) i j :
  (i + j ≤ length l)%nat →
  l = take i l ++ slice (Z.of_nat i) (Z.of_nat (length l) - Z.of_nat j) l ++ drop (length l - j) l.
Proof.
  intros Hij. unfold slice. rewrite !slice_index_nonneg by lia.
  replace (Z.to_nat (Z.of_nat (length l) - Z.of_nat j)) with (length l - j)%nat by lia. rewrite Nat2Z.id.
  rewrite <-(take_drop i l) at 1. f_equal.
  rewrite <-(take_drop (length l - j - i) (drop i l)) at 1. f_equal. rewrite drop_drop. f_equal. lia.
Qed.

Lemma slice_ok f lo hi (l : list Line) : forallb f l = true → forallb f (slice lo hi l) = true.
Proof.
  rewrite !List.forallb_forall. intros Hf x Hx. apply Hf. unfold slice in Hx.
  apply list_elem_of_In in Hx. apply list_elem_of_In.
  eapply elem_of_submseteq; [done|]. apply sublist_submseteq. etrans; [apply sublist_take|apply sublist_drop].
Qed.

(** The change from one list of lines to another, as [computeDeltaEvent] cuts it out. *)
Lemma delta_change cur new :
  let i := common_prefix cur new in
  let j := common_suffix (length cur) cur new i 0 in
  changed {| lineIndex := Z.of_nat i;
             oldLines := slice (Z.of_nat i) (Z.of_nat (length cur) - Z.of_nat j) cur;
             newLines := slice (Z.of_nat i) (Z.of_nat (length new) - Z.of_nat j) new |} cur new.
Proof.
  intros i j. destruct (common_prefix_spec cur new) as (Hc & Hn & Htake). fold i in Hc, Hn, Htake.
  destruct (common_suffix_spec (length cur) cur new i 0) as (Hc' & Hn' & Hdrop); [lia|lia| |].
  { rewrite !Nat.sub_0_r, !drop_all. done. }
  fold j in Hc', Hn', Hdrop.
  exists (take i cur), (drop (length cur - j) cur). simpl. split_and!.
  - by apply slice_middle.
  - rewrite Htake, Hdrop. by apply slice_middle.
  - rewrite length_take. lia.
Qed.

Lemma line_cursor_ok (lines : list Line) (i j : Z) :
  lines ≠ [] → 0 <= i →
  cursor_ok (line_cursor (Z.min (Z.max (Z.of_nat (length lines) - j) 0) (Z.of_nat (length lines) - 1))
                         (Z.min i (Z.of_nat (length lines) - 1))) = true.
Proof.
  intros Hne Hi. assert (length lines ≠ 0%nat) by (by destruct lines).
  unfold cursor_ok, coordinate_ok. simpl. rewrite !bool_decide_true by lia. done.
Qed.

(** The difference of two texts is an event that the check accepts on the first text and that
    turns it into the second; there is none exactly when the texts are equal. *)
Theorem delta_event_reaches_the_text fresh n cur new why top :
  (computeDeltaEvent fresh n cur new why top = None ↔ cur = new) ∧
  ∀ e, computeDeltaEvent fresh n cur new why top = Some e →
    eventIsValidInContextOfLines (event_json e) (split_at newline cur) top [] = true ∧
    computeStateFromEvents (split_at newline cur) [e] = new.
Proof.
  unfold computeDeltaEvent. case_bool_decide as Heq.
  { split; [|done]. split; [|done]. intros _. by rewrite <-(join_split cur), Heq, join_split. }
  split; [split; [done|by intros ->]|]. intros e. set (c := Build_Change _ _ _). intros [= <-].
  assert (changed c (split_at newline cur) (split_at newline new)) as Hc by apply delta_change.
  split.
  - unfold eventIsValidInContextOfLines. rewrite valid_event_encode, as_event_encode.
    rewrite !andb_true_iff, !bool_decide_eq_true. split_and!; [|done|].
    + unfold event_ok. cbn [changes startCursors newCursors forallb].
      rewrite !line_cursor_ok by (try apply split_at_nonempty; lia).
      unfold change_ok, c. cbn [lineIndex oldLines newLines].
      rewrite !slice_ok by apply split_lines_ok. unfold coordinate_ok.
      by rewrite bool_decide_true by lia.
    + eexists. apply edits_check_changes. cbn [changes]. econstructor; [exact Hc|constructor].
  - unfold computeStateFromEvents, applyEventsToLines, apply_changes. cbn [foldl changes].
    by rewrite (changed_replaceLines _ _ _ Hc), join_split.
Qed.

(** C18. Merging changes, and so merging two events, never fails, never makes the list longer, and
    leaves what the changes do as it was: where a list of changes matches a document, the merged
    list matches it too and leads to the same document. *)
Theorem collapsed_changes_are_equivalent cs :
  ∃ cs', collapseChanges cs = Ok cs' ∧ (length cs' ≤ length cs)%nat ∧
    ∀ lines lines', Forall (λ c, 0 <= lineIndex c) cs →
      check_changes cs lines = Some lines' → check_changes cs' lines = Some lines'.
Proof.
  destruct (collapseChanges_ok cs) as (cs' & Hcs & Hlen & He & _). exists cs'. split_and!; [done..|].
  intros lines lines' Hplaced Hcheck. by apply edits_check_changes, He, check_changes_edits.
Qed.

(** C20. A value that the check of incoming events accepts stands for an event with lines, line
    numbers and cursors in range; and such an event, written out, is accepted and reads back as
    itself, while one out of range is refused. *)
Theorem accepted_values_are_events v :
  (isValidEvent v = true → ∃ e, as_event v = Some e ∧ event_ok e = true) ∧
  ∀ e, as_event (event_json e) = Some e ∧ isValidEvent (event_json e) = event_ok e.
Proof. split; [apply decodes_event|]. split; [apply as_event_encode|apply valid_event_encode]. Qed.

(** C17. Whatever edits, undos and redos a session sends, the history walks a zipper: undo and redo
    never fail, an undo leads back to earlier documents (at least one, if there is one), a redo
    forward again, an edit that fits is added and drops what could be redone, and applying the
    whole history to the first lines gives the document the zipper is at. *)
Theorem undo_redo_refine_zipper lines base ops :
  ∃ events z, run_ops lines base ops = Ok events ∧ zrun lines base ops z ∧
    applyEventsToLines lines events = present z.
Proof.
  destruct (run_ops_walks lines base ops) as (events & us & rs & z & Hrun & Hz & Hw).
  exists events, z. split_and!; [done..|]. apply Hw.
Qed.

(** C19. In a session whose guids are distinct, the events computed for an undo or a redo pass the
    check that the other side makes before it adds them. *)
Theorem undo_events_are_accepted lines base ops fresh session events
    (Hrun : run_ops lines base ops = Ok events) (Hguids : NoDup (eventGuid <$> events))
    (Hfresh : fresh_for fresh base events) :
  ∃ undos redos,
    computeUndoEvents fresh events session (top_guid base events) = Ok undos ∧
    eventsAreValidInContextOfLines (event_json <$> undos) lines (top_guid base events) events = true ∧
    computeRedoEvents fresh events session (top_guid base events) = Ok redos ∧
    eventsAreValidInContextOfLines (event_json <$> redos) lines (top_guid base events) events = true.
Proof.
  pose proof (run_ops_events_ok _ _ _ _ Hrun) as Hok.
  destruct (run_ops_walks lines base ops) as (events' & us & rs & z & Hrun' & _ & [Hplay Hpast Hfuture Hpresent]).
  rewrite Hrun in Hrun'. simplify_eq. destruct (play_descending _ _ _ Hplay) as [Hus Hrs].
  destruct (reverse_events_ok computeNextUndoIx fresh events' session us
    (λ p, proj1 (search_reads_stack _ _ _ p Hplay)) Hus (top_guid base events')) as (undos & Hu & Hurev & _).
  destruct (reverse_events_ok computeNextRedoIx fresh events' session rs
    (λ p, proj2 (search_reads_stack _ _ _ p Hplay)) Hrs (top_guid base events')) as (redos & Hr & Hrrev & _).
  rewrite <-Hpresent in Hpast, Hfuture.
  exists undos, redos. split_and!; eauto using reversals_accepted.
Qed.

(** A session with one edit, and guids that are strings of different lengths. *)
Module SessionScenario.
Definition edit : Event :=
  {| changes := [{| oldLines := [""]; newLines := ["a"]; lineIndex := 0 |}]; startCursors := []; newCursors := [];
     timestamp := 0; undoState := None; editSessionId := None; reason := RText "unknown"; eventGuid := "g1";
     priorEventGuid := "g0"; undoing := None |}%string.
Definition fresh : Fresh :=
  {| fresh_guid := λ n, Nat.iter n (String (Ascii.ascii_of_nat 117)) "u"%string; fresh_time := λ _, 0%Q |}.

Lemma fresh_length n : String.length (fresh_guid fresh n) = S n.
Proof. induction n as [|n IH]; [done|]. simpl in *. by rewrite IH. Qed.

Lemma fresh_starts n : ∃ s, fresh_guid fresh n = String (Ascii.ascii_of_nat 117) s.
Proof. destruct n; by eexists. Qed.

Lemma fresh_ok : fresh_for fresh "g0" [edit].
Proof.
  split.
  - intros i j Hij. apply (f_equal String.length) in Hij. rewrite !fresh_length in Hij. lia.
  - intros i Hin. destruct (fresh_starts i) as [s Hs]. rewrite Hs in Hin. set_solver.
Qed.
End SessionScenario.

Lemma undo_events_are_accepted_witness :
  run_ops [""%string] "g0" [EditOp SessionScenario.edit] = Ok [SessionScenario.edit] ∧
  ∃ undos redos,
    computeUndoEvents SessionScenario.fresh [SessionScenario.edit] None "g1" = Ok undos ∧
    eventsAreValidInContextOfLines (event_json <$> undos) [""%string] "g1" [SessionScenario.edit] = true ∧
    computeRedoEvents SessionScenario.fresh [SessionScenario.edit] None "g1" = Ok redos.
Proof.
  split; [vm_compute; reflexivity|].
  destruct (undo_events_are_accepted [""%string] "g0" [EditOp SessionScenario.edit] SessionScenario.fresh None
    [SessionScenario.edit] ltac:(vm_compute; reflexivity) ltac:(apply NoDup_singleton) SessionScenario.fresh_ok)
    as (undos & redos & Hu & Hv & Hr & _).
  exists undos, redos. split; [exact Hu|]. split; [exact Hv|exact Hr].
Defined.
