(* ===== verification/EventCache.v ===== *)
(** * The cache of document states agrees with replaying the events

    [EventStateCache] computes the document after [i] events from an earlier one that it keeps;
    whatever was asked before, the answer is the document that replaying gives. *)

From Stdlib Require Import Lia QArith.
From stdpp Require Import options.
From S2P Require Import Prelude EventModel.

Local Open Scope Z_scope.

Lemma applyEventsToLines_app lines events events' :
  applyEventsToLines lines (events ++ events') = applyEventsToLines (applyEventsToLines lines events) events'.
Proof. unfold applyEventsToLines. by rewrite foldl_app. Qed.

(** The fuel of the loop over the powers of ten is enough: more of it changes nothing. *)
Lemma first_power_enough fuel extra i power :
  0 < power → i < power + Z.of_nat fuel → first_power (fuel + extra) i power = first_power fuel i power.
Proof.
  revert power. induction fuel as [|fuel IH]; intros power Hp Hi.
  - destruct extra; simpl; [done|]. by rewrite bool_decide_false by lia.
  - simpl. case_bool_decide; [|done]. case_bool_decide; [done|]. apply IH; lia.
Qed.

Lemma first_power_some fuel i power p :
  0 < power → first_power fuel i power = Some p → 0 < p ∧ p <= i ∧ i mod p ≠ 0.
Proof.
  revert power. induction fuel as [|fuel IH]; intros power Hp; simpl; [done|].
  case_bool_decide; [|done]. case_bool_decide; [by intros [= <-]|]. apply IH. lia.
Qed.

(** The document after the first [i] events. *)
Definition state_at (lines : list Line) (events : list Event) (i : Z) : list Line :=
  eventsAppliedToLines lines (take (Z.to_nat i) events).

Record cache_ok (lines : list Line) (events : list Event) (c : EventStateCache) : Prop := {
  cache_ok_lines : cache_lines c = lines;
  cache_ok_events : cache_events c = events;
  cache_ok_entries : ∀ i state, _cache c !! i = Some state → state = state_at lines events i;
}.

Lemma state_at_split lines events j i :
  0 <= j <= i → i <= Z.of_nat (length events) →
  eventsAppliedToLines (state_at lines events j) (slice j i events) = state_at lines events i.
Proof.
  intros Hji Hi. unfold state_at, eventsAppliedToLines, slice. rewrite <-applyEventsToLines_app.
  rewrite !slice_index_nonneg by lia. f_equal. rewrite take_take_drop. f_equal. lia.
Qed.

Section cache.
Context (lines : list Line) (events : list Event).

Lemma getitem_range fuel i c :
  (0 < fuel)%nat → cache_ok lines events c → ¬ (0 <= i <= Z.of_nat (length events)) →
  getitem fuel i c = (Raise AssertionError, c).
Proof using Type.
  intros Hfuel [_ Hevents _] Hi. destruct fuel as [|fuel]; [lia|]. cbn [getitem]. rewrite !run_bind.
  cbn [get_state]. rewrite Hevents. unfold assertM.
  destruct (bool_decide (0 <= i)) eqn:H1; destruct (bool_decide (i <= _)) eqn:H2; try done.
  apply bool_decide_eq_true in H1, H2. lia.
Qed.

Lemma getitem_ok fuel i c :
  (Z.to_nat i < fuel)%nat → cache_ok lines events c → 0 <= i <= Z.of_nat (length events) →
  ∃ c', getitem fuel i c = (Ok (state_at lines events i), c') ∧ cache_ok lines events c'.
Proof using Type.
  revert i c. induction fuel as [|fuel IH]; intros i c Hfuel Hc Hi; [lia|].
  cbn [getitem]. rewrite run_bind. cbn [get_state].
  rewrite (cache_ok_events _ _ _ Hc), run_bind. rewrite !bool_decide_true by lia. cbn [andb assertM ret].
  destruct (_cache c !! i) as [state|] eqn:Hhit.
  { exists c. by rewrite (cache_ok_entries _ _ _ Hc _ _ Hhit). }
  rewrite run_bind.
  assert (∃ c', (match first_power (Z.to_nat i + 1) i 10 with
                 | Some power =>
                     prior ← getitem fuel (i - i mod power);
                     ret (eventsAppliedToLines prior (slice (i - i mod power) i events))
                 | None => ret (eventsAppliedToLines (cache_lines c) (slice_to i events))
                 end) c = (Ok (state_at lines events i), c') ∧ cache_ok lines events c') as (c' & -> & Hc').
  { destruct (first_power _ i 10) as [power|] eqn:Hpower.
    - apply first_power_some in Hpower as (Hp & Hle & Hmod); [|lia].
      pose proof (Z.mod_pos_bound i power Hp). pose proof (Z.mod_le i power). 
      destruct (IH (i - i mod power) c) as (c' & Hget & Hc'); [lia|done|lia|].
      exists c'. split; [|done]. rewrite run_bind, Hget. cbn [ret]. rewrite state_at_split by lia. done.
    - exists c. split; [|done]. rewrite (cache_ok_lines _ _ _ Hc). unfold ret, state_at, slice_to.
      by rewrite slice_index_nonneg by lia. }
  eexists. split; [reflexivity|]. destruct Hc' as [Hl He Hentries]. split; [done|done|].
  intros j state. simpl. rewrite lookup_insert. case_decide; [congruence|]. apply Hentries.
Qed.

(** Reads, one after the other; a failed one leaves the cache as it is. *)
Fixpoint read_all (reads : list Z) (c : EventStateCache) : EventStateCache :=
  match reads with
  | [] => c
  | i :: reads => read_all reads (EventStateCache_getitem i c).2
  end.

Lemma read_all_ok reads c : cache_ok lines events c → cache_ok lines events (read_all reads c).
Proof using Type.
  revert c. induction reads as [|i reads IH]; intros c Hc; [done|]. simpl. apply IH.
  unfold EventStateCache_getitem. destruct (decide (0 <= i <= Z.of_nat (length events))) as [Hi|Hi].
  - destruct (getitem_ok (Z.to_nat i + 1) i c) as (c' & -> & ?); [lia|done..].
  - by rewrite getitem_range by (done || lia).
Qed.
End cache.

(** C21. Whatever was read before, reading the cache at an index gives the document that replaying
    the events up to it gives, and an index out of range fails its assertion. *)
Theorem cache_agrees_with_replay lines events reads i :
  (EventStateCache_getitem i (read_all reads (EventStateCache_init lines events))).1 =
    if bool_decide (0 <= i <= Z.of_nat (length events))
    then Ok (eventsAppliedToLines lines (take (Z.to_nat i) events)) else Raise AssertionError.
Proof.
  assert (cache_ok lines events (read_all reads (EventStateCache_init lines events))) as Hc
    by (by apply read_all_ok).
  unfold EventStateCache_getitem. case_bool_decide as Hi.
  - destruct (getitem_ok lines events (Z.to_nat i + 1) i _ ltac:(lia) Hc Hi) as (c' & -> & _). done.
  - by rewrite (getitem_range lines events) by (done || lia).
Qed.
