(* ===== verification/EventCompress.v ===== *)
(** * Compressing an edit history ([event_model.py], from [compressAwayUnreachableEvents] on)

    The program works on dictionaries that the caller's history shares, and changes some of them
    in place, so the events live in a heap here and a history is a list of references. *)

From Stdlib Require Import Lia QArith.
From stdpp Require Import options.
From S2P Require Import Prelude EventModel EventTypes.

Local Open Scope Z_scope.

Abbreviation EventHeap := (list Event).
Abbreviation ref := nat.

Definition deref (r : ref) : M EventHeap Event :=
  heap ← get_state;
  lift_option (UserException "dangling reference") (heap !! r).
Definition alloc (e : Event) : M EventHeap ref :=
  r ← gets length;
  modify (λ heap, heap ++ [e]);;
  ret r.
Definition mutate (r : ref) (f : Event → Event) : M EventHeap unit := modify (λ heap, alter f r heap).

(** [l[i]] *)
Definition index_of {A} (l : list A) (i : Z) : M EventHeap A :=
  lift_option IndexError (if bool_decide (0 <= i) then l !! Z.to_nat i else None).

Definition duplicateEventWithPriorEventGuid (r : ref) (priorGuid : string) : M EventHeap ref :=
  event ← deref r;
  alloc (event <| priorEventGuid := priorGuid |>).

(** ** Removing events that no undo or redo can reach *)

Abbreviation Transitions := (gmap string (string * string)).

(** The key [e["undoing"]], which may be [None] (then no entry has it). *)
Definition undone_transition (transitions : Transitions) (e : Event) : M EventHeap (string * string) :=
  lift_option KeyError (undoing e ≫= λ guid, transitions !! guid).

(** One pass of the loop that pairs each event with the states before and after it. *)
Definition add_transition (e : Event) (acc : Transitions * string) : M EventHeap (Transitions * string) :=
  let '(transitions, curState) := acc in
  match undoState e with
  | None => ret (<[eventGuid e := (curState, eventGuid e)]> transitions, eventGuid e)
  | Some _ =>
      reversed ← undone_transition transitions e;
      ret (<[eventGuid e := (reversed.2, reversed.1)]> transitions, reversed.1)
  end.

Definition guid_indices (evs : list Event) (baseGuid : string) : gmap string Z :=
  <[baseGuid := -1]> (foldl (λ m ie, <[eventGuid ie.2 := ie.1]> m) ∅ (imap (λ i e, (Z.of_nat i, e)) evs)).

Definition computeBaseEventIxFor (guidToIx : gmap string Z) (transitions : Transitions) (e : Event) : M EventHeap Z :=
  transition ← lift_option KeyError (transitions !! eventGuid e);
  lift_option KeyError (guidToIx !! transition.2).

Definition is_undo_or_redo (e : Event) : bool := bool_decide (is_Some (undoState e)).

(** The segments to remove, the last one first. *)
Definition pop_covered (startIx : Z) (segments : list (Z * Z)) : list (Z * Z) :=
  (fix go segments :=
     match segments with
     | (s, t) :: rest => if bool_decide (startIx <= s) then go rest else segments
     | [] => []
     end) segments.

Definition find_segment (guidToIx : gmap string Z) (transitions : Transitions) (maxTimestamp : option Q)
    (evs : list Event) (ix : Z) (acc : bool * list (Z * Z)) : M EventHeap (bool * list (Z * Z)) :=
  let '(maxTsTriggered, segments) := acc in
  e ← index_of evs ix;
  previous ← index_of evs (ix - 1);
  let late := match maxTimestamp with Some m => negb (Qle_bool (timestamp e) m) | None => false end in
  if late || maxTsTriggered then ret (true, segments)
  else if negb (is_undo_or_redo e) && is_undo_or_redo previous then
    baseEventIx ← computeBaseEventIxFor guidToIx transitions previous;
    ret (maxTsTriggered, (baseEventIx + 1, ix) :: pop_covered (baseEventIx + 1) segments)
  else ret (maxTsTriggered, segments).

(** One reference to an event that is gone. *)
Definition redirect (transitions : Transitions) (excised : gset string) (r : ref) : M EventHeap unit :=
  e ← deref r;
  match undoing e with
  | Some guid =>
      if bool_decide (guid ∈ excised) then
        transition ← lift_option KeyError (transitions !! guid);
        mutate r (λ e, e <| undoing := Some transition.2 |>)
      else ret tt
  | None => ret tt
  end.

Record Excision := { ex_out : list ref; ex_cache : EventStateCache; ex_guids : gset string }.

(** [stateCache[i]] *)
Definition read_cache (i : Z) (cache : EventStateCache) : M EventHeap (list Line * EventStateCache) := λ heap,
  match EventStateCache_getitem i cache with
  | (Ok state, cache) => (Ok (state, cache), heap)
  | (Raise e, _) => (Raise e, heap)
  end.

(** One pass of the loop that removes the segments. *)
Definition excise (transitions : Transitions) (basePrior : string) (segment : Z * Z) (acc : Excision) :
    M EventHeap Excision :=
  let '(startIx, stopIx) := segment in
  '(before, cache) ← read_cache startIx (ex_cache acc);
  '(after, cache) ← read_cache stopIx cache;
  assertM (bool_decide (before = after));;
  stopRef ← index_of (ex_out acc) stopIx;
  prior ← (if bool_decide (startIx > 0) then
             r ← index_of (ex_out acc) (startIx - 1);
             e ← deref r;
             ret (eventGuid e)
           else ret basePrior);
  newRef ← duplicateEventWithPriorEventGuid stopRef prior;
  let out := <[Z.to_nat stopIx := newRef]> (ex_out acc) in
  gone ← mapM (slice startIx stopIx out) deref;
  let excised := ex_guids acc ∪ list_to_set (eventGuid <$> gone) in
  let out := slice_assign startIx stopIx [] out in
  forM (slice_from startIx out) (redirect transitions excised);;
  ret {| ex_out := out; ex_cache := cache; ex_guids := excised |}.

Definition compressAwayUnreachableEvents (lines : list Line) (events : list ref) (maxTimestamp : option Q) :
    M EventHeap (list ref) :=
  evs ← mapM events deref;
  match evs with
  | [] => ret events
  | first :: _ =>
      '(transitions, _) ← foldM evs (∅, priorEventGuid first) add_transition;
      '(_, segments) ← foldM (seqZ 1 (Z.of_nat (length evs) - 1)) (false, [])
                         (find_segment (guid_indices evs (priorEventGuid first)) transitions maxTimestamp evs);
      match segments with
      | [] => ret events
      | _ =>
          result ← foldM segments {| ex_out := events; ex_cache := EventStateCache_init lines evs; ex_guids := ∅ |}
                     (excise transitions (priorEventGuid first));
          ret (ex_out result)
      end
  end.

(** ** How far back undo events reach *)

Record UndoScan := { currentEventStack : list nat; currentRedoStack : list nat; minReffedIx : nat }.

(** One pass; the stacks are lists with the top first. *)
Definition scan_event (eventIx : nat) (e : Event) (acc : UndoScan) : outcome UndoScan :=
  match undoState e with
  | None => Ok {| currentEventStack := eventIx :: currentEventStack acc; currentRedoStack := [];
                  minReffedIx := minReffedIx acc |}
  | Some Undo =>
      match currentEventStack acc with
      | [] => Raise IndexError
      | undoEventIx :: stack =>
          Ok {| currentEventStack := stack; currentRedoStack := undoEventIx :: currentRedoStack acc;
                minReffedIx := Nat.min (minReffedIx acc) undoEventIx |}
      end
  | Some Redo =>
      match currentRedoStack acc with
      | [] => Raise IndexError
      | redoEventIx :: stack =>
          Ok {| currentEventStack := redoEventIx :: currentEventStack acc; currentRedoStack := stack;
                minReffedIx := minReffedIx acc |}
      end
  end.

Fixpoint scan_events (eventIx : nat) (evs : list Event) (acc : UndoScan) : outcome UndoScan :=
  match evs with
  | [] => Ok acc
  | e :: evs =>
      match scan_event eventIx e acc with
      | Ok acc => scan_events (S eventIx) evs acc
      | Raise e => Raise e
      end
  end.

Definition computeLowestEventIxReferencedByUndoEvents (evs : list Event) : outcome nat :=
  match evs with
  | [] => Ok 0%nat
  | first :: _ =>
      if bool_decide (undoState first = None) then
        match scan_events 0 evs {| currentEventStack := []; currentRedoStack := []; minReffedIx := length evs |} with
        | Ok scan => Ok (minReffedIx scan)
        | Raise e => Raise e
        end
      else Raise AssertionError
  end.

(** The list is new, the dictionaries in it are the caller's. *)
Definition resetUndoState (events : list ref) : M EventHeap (list ref) :=
  forM events (λ r, mutate r (λ e, e <| undoState := None |> <| undoing := None |>));;
  ret events.

(** ** Compressing a state *)

Record State := { lines : list Line; topEventGuid : string; events : list ref }.

Definition COMPRESS_MAX_WORD_UNDOS : Z := 1000.
Definition COMPRESS_MAX_LINE_UNDOS : Z := 10000.

(** The events of a list whose entries are [None] once they were merged away. *)
Definition slot_event (slots : list (option ref)) (i : Z) : M EventHeap Event :=
  slot ← index_of slots i;
  r ← lift_option TypeError slot;
  deref r.

(** [while i < maxIxModifiable - 1] *)
Fixpoint first_recent (fuel : nat) (evs : list Event) (maxTimestamp : Q) (maxIxModifiable i : Z) : M EventHeap Z :=
  match fuel with
  | O => ret i
  | S fuel =>
      if bool_decide (i < maxIxModifiable - 1) then
        e ← index_of evs i;
        if Qle_bool maxTimestamp (timestamp e) then ret i
        else first_recent fuel evs maxTimestamp maxIxModifiable (i + 1)
      else ret i
  end.

(** The loop that steps out of a stream of keystrokes; [i] falls with each pass. *)
Fixpoint leave_stream (fuel : nat) (evs : list Event) (i : Z) : M EventHeap Z :=
  match fuel with
  | O => ret i
  | S fuel =>
      if bool_decide (i > 0) && bool_decide (i + 1 < Z.of_nat (length evs)) then
        e1 ← index_of evs i;
        e2 ← index_of evs (i + 1);
        if eventsAreInSameUndoStream e1 e2 then leave_stream fuel evs (i - 1) else ret i
      else ret i
  end.

Definition collapse_into (slots : list (option ref)) (i : Z) (e1 e2 : Event) : M EventHeap (list (option ref)) :=
  merged ← (λ heap, (collapseEvents e1 e2, heap));
  r ← alloc merged;
  ret (<[Z.to_nat i := None]> (<[Z.to_nat (i - 1) := Some r]> slots)).

(** The loop that merges events into the ones before them. *)
Fixpoint collapse_down (fuel : nat) (maxWordUndos maxLineUndos : Z) (slots : list (option ref)) (i eventsKept : Z) :
    M EventHeap (list (option ref) * Z) :=
  match fuel with
  | O => ret (slots, i)
  | S fuel =>
      if bool_decide (i > 0) && bool_decide (eventsKept < maxLineUndos) then
        e1 ← slot_event slots (i - 1);
        e2 ← slot_event slots i;
        if eventsAreInSameUndoStream e1 e2 then
          slots ← collapse_into slots i e1 e2;
          collapse_down fuel maxWordUndos maxLineUndos slots (i - 1) eventsKept
        else if eventsAreOnSameLine e1 e2 && bool_decide (eventsKept > maxWordUndos) then
          slots ← collapse_into slots i e1 e2;
          collapse_down fuel maxWordUndos maxLineUndos slots (i - 1) eventsKept
        else collapse_down fuel maxWordUndos maxLineUndos slots (i - 1) (eventsKept + 1)
      else ret (slots, i)
  end.

(** [eventsAreValidInContextOfLines(events, lines, events[0]["priorEventGuid"], [])] *)
Definition history_is_valid (lines : list Line) (evs : list Event) (priorGuid : string) : bool :=
  eventsAreValidInContextOfLines (event_json <$> evs) lines priorGuid [].

(** The index that compression may reach: below what undo events refer to, before
    [maxTimestamp], and at the start of a stream of keystrokes. *)
Definition compression_limit (evs : list Event) (maxTimestamp : option Q) : M EventHeap Z :=
  maxIx ← (λ heap, (computeLowestEventIxReferencedByUndoEvents evs, heap));
  let maxIxModifiable := Z.of_nat maxIx in
  i ← match maxTimestamp with
      | Some m => first_recent maxIx evs m maxIxModifiable 0
      | None => ret (maxIxModifiable - 1)
      end;
  leave_stream (Z.to_nat i) evs i.

(** The events before [i] become part of the lines. *)
Definition fold_below (lines : list Line) (slots : list (option ref)) (i : Z) :
    M EventHeap (list Line * list (option ref)) :=
  if bool_decide (i > 0) then
    evs ← mapM (slice_to i slots) (λ slot, r ← lift_option TypeError slot; deref r);
    ret (split_at newline (computeStateFromEvents lines evs), slice_from i slots)
  else ret (lines, slots).

(** The assertions before the result is returned. *)
Definition finish_compression (state : State) (newLines : list Line) (refs : list ref) (maxIxGuid : string) :
    M EventHeap (State * option string) :=
  evs ← mapM refs deref;
  e0 ← index_of evs 0;
  assertM (history_is_valid newLines evs (priorEventGuid e0));;
  old ← mapM (events state) deref;
  assertM (bool_decide (computeStateFromEvents (lines state) old = computeStateFromEvents newLines evs));;
  assertM (bool_decide (maxIxGuid = priorEventGuid e0) || bool_decide (maxIxGuid ∈ eventGuid <$> evs));;
  e ← index_of evs (Z.of_nat (length evs) - 1);
  ret ({| lines := newLines; topEventGuid := eventGuid e; events := refs |}, Some maxIxGuid).

Definition compressState (state : State) (maxTimestamp : option Q) (maxWordUndos maxLineUndos : Z) :
    M EventHeap (State * option string) :=
  match events state with
  | [] => ret (state, None)
  | firstRef :: _ =>
      first ← deref firstRef;
      evs ← mapM (events state) deref;
      refs ← (if history_is_valid (lines state) evs (priorEventGuid first) then ret (events state)
              else
                refs ← resetUndoState (events state);
                evs ← mapM refs deref;
                assertM (history_is_valid (lines state) evs (priorEventGuid first));;
                ret refs);
      refs ← compressAwayUnreachableEvents (lines state) refs maxTimestamp;
      evs ← mapM refs deref;
      i ← compression_limit evs maxTimestamp;
      guid ← (if bool_decide (i >= 0) then e ← index_of evs i; ret (eventGuid e)
              else e ← index_of evs 0; ret (priorEventGuid e));
      '(slots, i) ← collapse_down (Z.to_nat i) maxWordUndos maxLineUndos (Some <$> refs) i 0;
      '(newLines, slots) ← fold_below (lines state) slots i;
      finish_compression state newLines (omap id slots) guid
  end.

(** ** A document without lines *)

Module CompressScenario.

Definition plain (cs : list Change) (guid prior : string) : Event :=
  {| changes := cs; startCursors := []; newCursors := []; timestamp := 0; undoState := None;
     editSessionId := None; reason := RText "unknown"; eventGuid := guid; priorEventGuid := prior;
     undoing := None |}%string.

(** The only line is removed, then one is added, then that line is changed. *)
Definition history : EventHeap :=
  [plain [{| oldLines := [""]; newLines := []; lineIndex := 0 |}] "g1" "g0";
   plain [{| oldLines := []; newLines := ["a"]; lineIndex := 0 |}] "g2" "g1";
   plain [{| oldLines := ["a"]; newLines := ["b"]; lineIndex := 0 |}] "g3" "g2"]%string.
(** Two keystrokes on one line, which become one event. *)
Definition stroke (c : Change) (guid prior key : string) : Event :=
  plain [c] guid prior <| reason := RDict [("keystroke"%string, key)] |>.
Definition typing : EventHeap :=
  [stroke {| oldLines := [""]; newLines := ["a"]; lineIndex := 0 |} "g1" "g0" "a";
   stroke {| oldLines := ["a"]; newLines := ["ab"]; lineIndex := 0 |} "g2" "g1" "b"]%string.
Definition typing_state : State := {| lines := [""]; topEventGuid := "g2"; events := [0; 1]%nat |}%string.

Definition state : State := {| lines := [""]; topEventGuid := "g3"; events := [0; 1; 2]%nat |}%string.

End CompressScenario.

(** A document whose last line was removed has no lines; compression writes it as text and
    reads it back with one empty line, so that folding events at that point fails the final
    assertions although the history is valid. *)
Theorem folding_an_empty_document_fails :
  history_is_valid (lines CompressScenario.state) CompressScenario.history "g0" = true ∧
  (compressState CompressScenario.state None COMPRESS_MAX_WORD_UNDOS 1 CompressScenario.history).1 =
    Raise AssertionError.
Proof. vm_compute. split; reflexivity. Qed.
