(* ===== verification/EventCompressTheorems.v ===== *)
(** * Compressing a history without undos succeeds

    For a valid history of plain edits whose documents have lines, [compressState] passes all of
    its assertions: the text, the last guid and the caller's events are as they were. *)

From Stdlib Require Import Lia QArith.
From stdpp Require Import options.
From S2P Require Import Prelude EventModel EventLemmas EventTypes EventTheorems EventCompress.

Local Open Scope Z_scope.

(** ** Reading the heap *)

Definition holds (heap : EventHeap) (refs : list ref) (evs : list Event) : Prop :=
  Forall2 (λ r e, heap !! r = Some e) refs evs.

Lemma holds_grow heap extra refs evs : holds heap refs evs → holds (heap ++ extra) refs evs.
Proof. intros H. eapply Forall2_impl; [done|]. intros. by apply lookup_app_l_Some. Qed.

Lemma run_ret {A} (a : A) (heap : EventHeap) : ret a heap = (Ok a, heap).
Proof. done. Qed.

Lemma run_deref heap r e : heap !! r = Some e → deref r heap = (Ok e, heap).
Proof. intros Hr. unfold deref. rewrite run_bind. cbn [get_state]. by rewrite Hr. Qed.

Lemma run_deref_all heap refs evs : holds heap refs evs → mapM refs deref heap = (Ok evs, heap).
Proof.
  induction 1 as [|r e refs evs Hr Hrefs IH]; [done|]. cbn [mapM]. unfold bind.
  by rewrite (run_deref _ _ _ Hr), IH.
Qed.

Lemma run_index {A} (l : list A) i x heap :
  l !! i = Some x → index_of l (Z.of_nat i) heap = (Ok x, heap).
Proof. intros Hi. unfold index_of. by rewrite bool_decide_true, Nat2Z.id, Hi by lia. Qed.

(** ** Chains of plain events *)

Definition plain (e : Event) : Prop := undoState e = None ∧ undoing e = None.

Inductive chain : string → list Line → list Event → list Line → Prop :=
  | chain_nil prior l : chain prior l [] l
  | chain_cons prior l e l1 es d :
      priorEventGuid e = prior → event_ok e = true → plain e → edits (changes e) l l1 →
      chain (eventGuid e) l1 es d → chain prior l (e :: es) d.

(** The guid that the next event of a chain carries on from. *)
Definition end_guid (prior : string) (es : list Event) : string := from_option eventGuid prior (last es).

Lemma end_guid_cons prior e es : end_guid prior (e :: es) = end_guid (eventGuid e) es.
Proof. unfold end_guid. destruct es as [|e' es]; [done|].
  change (last (e :: e' :: es)) with (last (e' :: es)).
  destruct (last (e' :: es)) eqn:H; [done|]. by apply last_None in H.
Qed.

Lemma chain_app prior l es es' d :
  chain prior l (es ++ es') d ↔ ∃ d1, chain prior l es d1 ∧ chain (end_guid prior es) d1 es' d.
Proof.
  revert prior l. induction es as [|e es IH]; intros prior l; simpl.
  - split; [intros; exists l; split; [constructor|done]|]. intros (d1 & H & ?). by inversion H; subst.
  - rewrite end_guid_cons. split.
    + inversion 1 as [|? ? ? l1 ? ? ? ? ? ? Hes]; subst. apply IH in Hes as (d1 & ? & ?).
      exists d1. split; [by econstructor|done].
    + intros (d1 & H & ?). inversion H as [|? ? ? l1 ? ? ? ? ? ? Hes]; subst.
      econstructor; [done..|]. apply IH. eauto.
Qed.

Lemma chain_apply prior l es d : chain prior l es d → applyEventsToLines l es = d.
Proof.
  induction 1 as [|prior l e l1 es d Hp Hok Hplain He Hes IH]; [done|].
  unfold applyEventsToLines in *. cbn [foldl]. by rewrite (edits_apply _ _ _ He).
Qed.

Lemma chain_ok prior l es d : chain prior l es d → Forall (λ e, event_ok e = true) es ∧ Forall plain es.
Proof. induction 1; split; constructor; naive_solver. Qed.

(** *** The check of a history decides whether it is a chain *)

Lemma check_events_chain guids es prior l :
  Forall (λ e, event_ok e = true) es → Forall plain es →
  check_events guids es prior l = true ↔ ∃ d, chain prior l es d.
Proof.
  intros Hok Hplain. revert prior l. induction es as [|e es IH]; intros prior l; simpl.
  { split; [eexists; constructor|done]. }
  apply Forall_cons in Hok as [Hok Hoks], Hplain as [[Hstate Hundoing] Hplains].
  rewrite Hundoing, !andb_true_iff, bool_decide_eq_true. split.
  - intros [[_ Hprior] Hcheck]. destruct (check_changes (changes e) l) as [l1|] eqn:Hl1; [|done].
    apply IH in Hcheck as (d & Hd); [|done..]. exists d. econstructor; [done|done|done| |done].
    apply check_changes_edits; [by apply event_ok_placed|done].
  - intros (d & H). inversion H as [|? ? ? l1 ? ? Hp ? ? He Hes]; subst. split_and!; [done|done|].
    rewrite (edits_check_changes _ _ _ He). apply IH; eauto.
Qed.

Lemma size_list_to_set_le (l : list string) : (size (list_to_set l : gset string) ≤ length l)%nat.
Proof.
  induction l as [|x l IH]; [done|]. rewrite list_to_set_cons. cbn [length].
  assert (size ({[x]} ∪ list_to_set l : gset string) ≤ 1 + size (list_to_set l : gset string))%nat; [|lia].
  rewrite size_union_alt, size_singleton. apply Nat.add_le_mono_l, subseteq_size. set_solver.
Qed.

Lemma size_list_to_set_NoDup (l : list string) : size (list_to_set l : gset string) = length l ↔ NoDup l.
Proof.
  split; [|apply size_list_to_set]. induction l as [|x l IH]; [constructor|].
  rewrite list_to_set_cons. cbn [length]. intros Hsize. pose proof (size_list_to_set_le l).
  destruct (decide (x ∈ l)) as [Hin|Hin].
  - rewrite subseteq_union_1_L in Hsize by (apply singleton_subseteq_l; by apply elem_of_list_to_set). lia.
  - constructor; [done|]. apply IH. rewrite size_union, size_singleton in Hsize; [lia|].
    apply disjoint_singleton_l. by rewrite elem_of_list_to_set.
Qed.

Lemma history_is_valid_chain l es prior :
  es ≠ [] → Forall plain es →
  history_is_valid l es prior = true ↔ (∃ d, chain prior l es d) ∧ NoDup (prior :: (eventGuid <$> es)).
Proof.
  intros Hne Hplain. unfold history_is_valid, eventsAreValidInContextOfLines.
  rewrite (as_records_encode as_event event_json es as_event_encode : list.mapM as_event _ = _).
  assert (forallb isValidEvent (event_json <$> es) = true ↔ Forall (λ e, event_ok e = true) es) as Hvalid.
  { clear. induction es as [|e es IH]; [done|]. rewrite fmap_cons. cbn [forallb].
    by rewrite andb_true_iff, valid_event_encode, IH, Forall_cons. }
  rewrite andb_true_iff, Hvalid. unfold check_candidates. destruct es as [|e0 es0] eqn:Hes; [done|].
  rewrite <-Hes in *. clear Hes e0 es0. cbn [fmap list_fmap app length].
  rewrite !andb_true_iff, negb_true_iff, bool_decide_eq_false, bool_decide_eq_true, NoDup_cons.
  rewrite <-(length_fmap eventGuid es) at 1. rewrite size_list_to_set_NoDup. split.
  - intros (Hok & [Hnew Hnodup] & Hcheck). apply check_events_chain in Hcheck; [|done..]. done.
  - intros [[d Hd] [Hnew Hnodup]]. destruct (chain_ok _ _ _ _ Hd) as [Hok _].
    split_and!; [done..|]. apply check_events_chain; [done..|]. by exists d.
Qed.

(** ** The passes before merging leave a plain history alone *)

Lemma plain_not_undo e : plain e → is_undo_or_redo e = false.
Proof. intros [Hstate _]. unfold is_undo_or_redo. rewrite Hstate. by apply bool_decide_eq_false_2; intros [? ?]. Qed.

Lemma run_add_transitions evs acc heap :
  Forall plain evs → ∃ acc', foldM evs acc add_transition heap = (Ok acc', heap).
Proof.
  intros Hplain. revert acc. induction Hplain as [|e evs [Hstate _] Hevs IH]; intros [transitions cur].
  { by eexists. }
  cbn [foldM add_transition]. unfold bind. rewrite Hstate. cbn [mret]. apply IH.
Qed.

Lemma run_find_segments guidToIx transitions maxTimestamp evs ixs triggered heap :
  Forall plain evs → Forall (λ ix, 1 <= ix < Z.of_nat (length evs)) ixs →
  ∃ triggered', foldM ixs (triggered, []) (find_segment guidToIx transitions maxTimestamp evs) heap =
    (Ok (triggered', []), heap).
Proof.
  intros Hplain Hixs. revert triggered. induction Hixs as [|ix ixs Hix Hixs IH]; intros triggered; [by eexists|].
  cbn [foldM]. unfold bind, find_segment at 1.
  destruct (lookup_lt_is_Some_2 evs (Z.to_nat ix)) as [e He]; [lia|].
  destruct (lookup_lt_is_Some_2 evs (Z.to_nat (ix - 1))) as [e' He']; [lia|].
  pose proof (run_index _ _ _ heap He) as Hrun. rewrite Z2Nat.id in Hrun by lia.
  pose proof (run_index _ _ _ heap He') as Hrun'. rewrite Z2Nat.id in Hrun' by lia.
  rewrite run_bind, Hrun, run_bind, Hrun'.
  rewrite (plain_not_undo e') by exact (Forall_lookup_1 _ _ _ _ Hplain He').
  rewrite andb_false_r. destruct (_ || _); apply IH.
Qed.

Lemma run_compressAway_plain l refs evs maxTimestamp heap :
  holds heap refs evs → Forall plain evs →
  compressAwayUnreachableEvents l refs maxTimestamp heap = (Ok refs, heap).
Proof.
  intros Hrefs Hplain. unfold compressAwayUnreachableEvents.
  rewrite run_bind, (run_deref_all _ _ _ Hrefs). destruct evs as [|first evs'] eqn:Hevs; [done|].
  rewrite <-Hevs in *. rewrite run_bind.
  destruct (run_add_transitions evs (∅, priorEventGuid first) heap Hplain) as ([transitions cur] & ->).
  rewrite run_bind.
  destruct (run_find_segments (guid_indices evs (priorEventGuid first)) transitions maxTimestamp evs
    (seqZ 1 (Z.of_nat (length evs) - 1)) false heap Hplain) as (triggered & ->); [|done].
  apply Forall_forall. intros ix Hix. apply elem_of_seqZ in Hix. lia.
Qed.

Lemma scan_plain evs ix acc :
  Forall plain evs → ∃ acc', scan_events ix evs acc = Ok acc' ∧ minReffedIx acc' = minReffedIx acc.
Proof.
  intros Hplain. revert ix acc. induction Hplain as [|e evs [Hstate _] Hevs IH]; intros ix acc; [by eexists|].
  cbn [scan_events]. unfold scan_event. rewrite Hstate.
  destruct (IH (S ix) {| currentEventStack := ix :: currentEventStack acc; currentRedoStack := [];
                         minReffedIx := minReffedIx acc |}) as (acc' & -> & Hmin). by eexists.
Qed.

Lemma lowest_plain evs :
  Forall plain evs → computeLowestEventIxReferencedByUndoEvents evs = Ok (length evs).
Proof.
  intros Hplain. destruct evs as [|e evs']; [done|]. unfold computeLowestEventIxReferencedByUndoEvents.
  rewrite bool_decide_true by (by apply Forall_cons in Hplain as [[? _] _]).
  edestruct (scan_plain (e :: evs') 0) as (acc' & -> & ->); [done|]. done.
Qed.

Lemma run_first_recent fuel evs m maxIx i heap :
  maxIx <= Z.of_nat (length evs) → 0 <= i → i < Z.of_nat (length evs) →
  ∃ i', first_recent fuel evs m maxIx i heap = (Ok i', heap) ∧ 0 <= i' < Z.of_nat (length evs).
Proof.
  intros Hmax. revert i. induction fuel as [|fuel IH]; intros i H0 Hi; cbn [first_recent]; [by eexists|].
  case_bool_decide; [|by eexists].
  destruct (lookup_lt_is_Some_2 evs (Z.to_nat i)) as [e He]; [lia|].
  pose proof (run_index _ _ _ heap He) as Hrun. rewrite Z2Nat.id in Hrun by lia. rewrite run_bind, Hrun.
  destruct (Qle_bool _ _); [by eexists|]. apply IH; lia.
Qed.

Lemma run_leave_stream fuel evs i heap :
  0 <= i < Z.of_nat (length evs) →
  ∃ i', leave_stream fuel evs i heap = (Ok i', heap) ∧ 0 <= i' < Z.of_nat (length evs).
Proof.
  revert i. induction fuel as [|fuel IH]; intros i Hi; cbn [leave_stream]; [by eexists|].
  destruct (bool_decide (i > 0)) eqn:H0; [|by eexists]. apply bool_decide_eq_true in H0.
  case_bool_decide as H1; [|by eexists]. cbn [andb].
  destruct (lookup_lt_is_Some_2 evs (Z.to_nat i)) as [e He]; [lia|].
  destruct (lookup_lt_is_Some_2 evs (Z.to_nat (i + 1))) as [e' He']; [lia|].
  pose proof (run_index _ _ _ heap He) as Hrun. rewrite Z2Nat.id in Hrun by lia.
  pose proof (run_index _ _ _ heap He') as Hrun'. rewrite Z2Nat.id in Hrun' by lia.
  rewrite run_bind, Hrun, run_bind, Hrun'. destruct (eventsAreInSameUndoStream e e'); [|by eexists].
  apply IH. lia.
Qed.

Lemma run_limit_plain evs maxTimestamp heap :
  Forall plain evs → evs ≠ [] →
  ∃ i, compression_limit evs maxTimestamp heap = (Ok i, heap) ∧ 0 <= i < Z.of_nat (length evs).
Proof.
  intros Hplain Hne. assert (length evs ≠ 0%nat) by (by destruct evs).
  unfold compression_limit. rewrite run_bind, lowest_plain by done. rewrite run_bind.
  destruct maxTimestamp as [m|].
  - destruct (run_first_recent (length evs) evs m (Z.of_nat (length evs)) 0 heap) as (i & -> & Hi); [lia..|].
    by apply run_leave_stream.
  - cbn [mret M_ret ret]. apply run_leave_stream. lia.
Qed.

(** ** Merging events of a chain *)

Lemma change_ok_iff c : change_ok c = true ↔ placed c ∧ lines_satisfy (λ s, line_ok s = true) c.
Proof.
  unfold change_ok, coordinate_ok, placed, lines_satisfy. rewrite !andb_true_iff, bool_decide_eq_true.
  rewrite !List.forallb_forall, !Forall_forall.
  assert (∀ l, (∀ x, In x l → line_ok x = true) ↔ (∀ x, x ∈ l → line_ok x = true)) as Hl
    by (intros l; split; intros H x Hx; apply H; by apply list_elem_of_In).
  rewrite !Hl. tauto.
Qed.

Lemma forallb_Forall {A} (f : A → bool) l : forallb f l = true ↔ Forall (λ x, f x = true) l.
Proof. induction l as [|x l IH]; simpl; [done|]. by rewrite andb_true_iff, Forall_cons, IH. Qed.

Lemma collapse_chain prior l e1 e2 es d :
  chain prior l (e1 :: e2 :: es) d →
  ∃ e, collapseEvents e1 e2 = Ok e ∧ eventGuid e = eventGuid e2 ∧ chain prior l (e :: es) d.
Proof.
  intros H. inversion H as [|? ? ? l1 ? ? Hp1 Hok1 Hpl1 He1 H2]; subst.
  inversion H2 as [|? ? ? l2 ? ? Hp2 Hok2 Hpl2 He2 Hes]; subst.
  unfold collapseEvents. destruct (collapseChanges_ok (changes e1 ++ changes e2)) as (cs & -> & _ & Hedits & Hlines).
  eexists. split; [done|]. split; [done|].
  pose proof (Hedits _ _ (edits_app _ _ _ _ _ He1 He2)) as He.
  unfold event_ok in Hok1, Hok2. rewrite !andb_true_iff in Hok1, Hok2.
  destruct Hok1 as [[Hc1 Hs1] Hn1], Hok2 as [[Hc2 Hs2] Hn2].
  econstructor; [done| |done|done|done].
  unfold event_ok. cbn [changes startCursors newCursors]. rewrite Hs1, Hn2, !andb_true_r.
  apply forallb_Forall. apply forallb_Forall in Hc1, Hc2.
  pose proof (edits_placed _ _ _ He) as Hplaced.
  assert (Forall (lines_satisfy (λ s, line_ok s = true)) cs) as Hcs.
  { apply Hlines, Forall_app. split; (eapply Forall_impl; [done|]); intros c Hc; by apply change_ok_iff in Hc as [_ ?]. }
  apply Forall_forall. intros c Hin. rewrite Forall_forall in Hplaced, Hcs. apply change_ok_iff. auto.
Qed.

(** What the merging loop keeps: the events before [i] are the original ones, those from [i] on
    continue the chain, and [guid] is still among them. *)
Record merging (base : string) (l d : list Line) (guid top : string) (heap : EventHeap)
    (slots : list (option ref)) (pre : list Event) (e : Event) (post : list Event) : Prop := {
  merging_slots : ∃ refs r rest, slots = (Some <$> refs) ++ Some r :: rest ∧ holds heap refs pre ∧
                    heap !! r = Some e ∧ holds heap (omap id rest) post;
  merging_chain : chain base l (pre ++ e :: post) d;
  merging_guid : guid ∈ eventGuid <$> (e :: post);
  merging_top : end_guid base (e :: post) = top;
  merging_nodup : NoDup (base :: (eventGuid <$> (pre ++ e :: post)));
}.

Lemma merging_length base l d guid top heap slots pre e post :
  merging base l d guid top heap slots pre e post → ∃ refs r rest,
    slots = (Some <$> refs) ++ Some r :: rest ∧ length refs = length pre ∧ holds heap refs pre ∧
    heap !! r = Some e ∧ holds heap (omap id rest) post.
Proof.
  intros [(refs & r & rest & ? & Hrefs & ? & ?) _ _ _ _]. exists refs, r, rest.
  split_and!; [done| |done..]. by eapply Forall2_length.
Qed.

Lemma run_slot heap slots i r e :
  slots !! i = Some (Some r) → heap !! r = Some e → slot_event slots (Z.of_nat i) heap = (Ok e, heap).
Proof.
  intros Hi Hr. unfold slot_event. rewrite run_bind, (run_index _ _ _ heap Hi), run_bind.
  cbn [lift_option mret M_ret ret]. by apply run_deref.
Qed.

Lemma merging_shift base l d guid top heap slots pre e0 e post :
  merging base l d guid top heap slots (pre ++ [e0]) e post → merging base l d guid top heap slots pre e0 (e :: post).
Proof.
  intros [(refs & r & rest & -> & Hrefs & Hr & Hrest) Hchain Hguid Htop Hnodup].
  rewrite <-(assoc_L (++)) in Hchain, Hnodup.
  apply Forall2_app_inv_r in Hrefs as (refs0 & refs1 & Hrefs & H1 & ->).
  apply Forall2_cons_inv_r in H1 as (r0 & refs2 & Hr0 & Hnil & ->). apply Forall2_nil_inv_r in Hnil as ->.
  split; [|done|by right|by rewrite end_guid_cons in Htop; rewrite !end_guid_cons|done].
  exists refs0, r0, (Some r :: rest). rewrite fmap_app, <-(assoc_L (++)).
  split_and!; [done..|]. by constructor.
Qed.

Lemma merging_collapse base l d guid top heap slots pre e0 e post :
  merging base l d guid top heap slots (pre ++ [e0]) e post →
  ∃ m slots', collapse_into slots (Z.of_nat (length (pre ++ [e0]))) e0 e heap = (Ok slots', heap ++ [m]) ∧
    merging base l d guid top (heap ++ [m]) slots' pre m post.
Proof.
  intros [(refs & r & rest & -> & Hrefs & Hr & Hrest) Hchain Hguid Htop Hnodup].
  rewrite <-(assoc_L (++)) in Hchain, Hnodup.
  pose proof Hchain as Hchain'. apply chain_app in Hchain' as (d1 & Hpre & Htail).
  destruct (collapse_chain _ _ _ _ _ _ Htail) as (m & Hm & Hmguid & Hmchain).
  apply Forall2_app_inv_r in Hrefs as (refs0 & refs1 & Hrefs & H1 & ->).
  apply Forall2_cons_inv_r in H1 as (r0 & refs2 & Hr0 & Hnil & ->). apply Forall2_nil_inv_r in Hnil as ->.
  pose proof (Forall2_length _ _ _ Hrefs) as Hlen.
  exists m, ((Some <$> refs0) ++ Some (length heap) :: None :: rest). split.
  - unfold collapse_into. rewrite run_bind, Hm. unfold alloc. autorewrite with run.
    rewrite fmap_app, <-(assoc_L (++)), length_app. cbn [length].
    replace (Z.to_nat (Z.of_nat (length pre + 1) - 1)) with (length (Some <$> refs0)) by (rewrite length_fmap; lia).
    replace (Z.to_nat (Z.of_nat (length pre + 1))) with (S (length (Some <$> refs0))) by (rewrite length_fmap; lia).
    cbn [ret]. unfold ret. do 2 f_equal. apply insert_pair.
  - split.
    + exists refs0, (length heap), (None :: rest). split; [done|]. split; [by apply holds_grow|].
      split; [by rewrite lookup_app_r, Nat.sub_diag by lia|]. by apply holds_grow.
    + apply chain_app. by exists d1.
    + cbn [fmap list_fmap] in *. by rewrite Hmguid.
    + rewrite end_guid_cons in Htop. by rewrite end_guid_cons, Hmguid.
    + rewrite fmap_app in *. cbn [fmap list_fmap app] in *. rewrite Hmguid.
      apply NoDup_cons in Hnodup as [Hbase Hnodup]. apply NoDup_app in Hnodup as (Hnd & Hdisj & Hnd').
      apply NoDup_cons in Hnd' as [_ Hnd']. apply NoDup_cons. split; [set_solver|].
      apply NoDup_app. split_and!; [done|set_solver|done].
Qed.

(** The merging loop returns, with the original events before the index that it stopped at. *)
Lemma run_collapse_down fuel maxWord maxLine slots kept base l d guid top heap pre e post :
  merging base l d guid top heap slots pre e post → (length pre ≤ fuel)%nat →
  ∃ slots' extra pre' e' post' k,
    collapse_down fuel maxWord maxLine slots (Z.of_nat (length pre)) kept heap =
      (Ok (slots', Z.of_nat (length pre')), heap ++ extra) ∧
    merging base l d guid top (heap ++ extra) slots' pre' e' post' ∧ pre' = take k pre.
Proof.
  assert (∀ heap slots pre e post, merging base l d guid top heap slots pre e post →
    ∃ slots' extra pre' e' post' k, (Ok (slots, Z.of_nat (length pre)), heap) = (Ok (slots', Z.of_nat (length pre')), heap ++ extra) ∧
      merging base l d guid top (heap ++ extra) slots' pre' e' post' ∧ pre' = take k pre) as Hstop.
  { intros heap' slots' pre' e' post' Hm. exists slots', [], pre', e', post', (length pre').
    rewrite app_nil_r, firstn_all. done. }
  revert slots kept heap pre e post. induction fuel as [|fuel IH]; intros slots kept heap pre e post Hm Hfuel.
  { by eapply Hstop. }
  cbn [collapse_down]. destruct (bool_decide (_ > 0)) eqn:H0; [|by eapply Hstop].
  apply bool_decide_eq_true in H0. case_bool_decide; [|by eapply Hstop]. cbn [andb].
  destruct pre as [|e0 pre _] using rev_ind; [simpl in *; lia|].
  assert (slot_event slots (Z.of_nat (length (pre ++ [e0])) - 1) heap = (Ok e0, heap) ∧
          slot_event slots (Z.of_nat (length (pre ++ [e0]))) heap = (Ok e, heap)) as [Hs0 Hs1].
  { destruct (merging_slots _ _ _ _ _ _ _ _ _ _ Hm) as (refs & r & rest & -> & Hrefs & Hr & _).
    pose proof (Forall2_length _ _ _ Hrefs) as Hlen. split.
    - apply Forall2_app_inv_r in Hrefs as (refs0 & refs1 & Hrefs & H1 & ->).
      apply Forall2_cons_inv_r in H1 as (r0 & refs2 & Hr0 & Hnil & ->). apply Forall2_nil_inv_r in Hnil as ->.
      rewrite length_app. replace (Z.of_nat (length pre + length [e0]) - 1) with (Z.of_nat (length pre)) by (simpl; lia).
      apply (run_slot _ _ _ r0); [|done]. rewrite fmap_app, <-(assoc_L (++)), lookup_app_r;
        rewrite length_fmap, (Forall2_length _ _ _ Hrefs); [by rewrite Nat.sub_diag|done].
    - apply (run_slot _ _ _ r); [|done]. rewrite lookup_app_r; rewrite length_fmap, Hlen; [by rewrite Nat.sub_diag|done]. }
  rewrite run_bind, Hs0, run_bind, Hs1.
  replace (Z.of_nat (length (pre ++ [e0])) - 1) with (Z.of_nat (length pre)) by (rewrite length_app; simpl; lia).
  rewrite length_app in Hfuel. simpl in Hfuel.
  assert (∃ slots' extra pre' e' post' k,
    (slots0 ← collapse_into slots (Z.of_nat (length (pre ++ [e0]))) e0 e;
     collapse_down fuel maxWord maxLine slots0 (Z.of_nat (length pre)) kept) heap =
       (Ok (slots', Z.of_nat (length pre')), heap ++ extra) ∧
    merging base l d guid top (heap ++ extra) slots' pre' e' post' ∧ pre' = take k (pre ++ [e0])) as Hcollapse.
  { destruct (merging_collapse _ _ _ _ _ _ _ _ _ _ _ Hm) as (m & slots1 & Hinto & Hm1).
    rewrite run_bind, Hinto.
    destruct (IH slots1 kept _ _ _ _ Hm1) as (slots' & extra & pre' & e' & post' & k & Hrun & Hm' & Hpre); [lia|].
    exists slots', (m :: extra), pre', e', post', (min k (length pre)). rewrite Hrun.
    rewrite <-(assoc_L (++)) in Hm'. rewrite <-(assoc_L (++)). split_and!; [done..|].
    rewrite Hpre, take_app_le by lia. rewrite <-take_take, firstn_all. done. }
  destruct (eventsAreInSameUndoStream e0 e); [done|]. destruct (_ && _); [done|].
  destruct (IH slots (kept + 1) _ _ _ _ (merging_shift _ _ _ _ _ _ _ _ _ _ _ Hm))
    as (slots' & extra & pre' & e' & post' & k & Hrun & Hm' & Hpre); [lia|].
  exists slots', extra, pre', e', post', (min k (length pre)). split_and!; [done..|].
  rewrite Hpre, take_app_le by lia. rewrite <-take_take, firstn_all. done.
Qed.

(** ** The document at the fold *)

Lemma split_at_line s rest :
  line_ok s = true → split_at newline (s ++ newline_string ++ rest)%string = s :: split_at newline rest.
Proof.
  unfold line_ok. induction s as [|c s IH]; simpl; intros Hs.
  - done.
  - destruct (bool_decide (c = newline)); [done|]. by rewrite IH.
Qed.

Lemma split_at_last s : line_ok s = true → split_at newline s = [s].
Proof.
  unfold line_ok. induction s as [|c s IH]; simpl; intros Hs; [done|].
  destruct (bool_decide (c = newline)); [done|]. by rewrite IH.
Qed.

Lemma split_join l : l ≠ [] → forallb line_ok l = true → split_at newline (join newline_string l) = l.
Proof.
  induction l as [|s l IH]; [done|]. intros _ Hl. simpl in Hl. apply andb_true_iff in Hl as [Hs Hl].
  destruct l as [|s' l]; [by apply split_at_last|].
  rewrite join_cons by done. by rewrite split_at_line, IH.
Qed.

Lemma edits_line_ok cs l l' :
  edits cs l l' → forallb change_ok cs = true → forallb line_ok l = true → forallb line_ok l' = true.
Proof.
  induction 1 as [|c cs l l1 l2 (A & B & -> & -> & _) Hcs IH]; [done|]. cbn [forallb].
  rewrite andb_true_iff. intros [Hc Hok] Hl. apply IH; [done|].
  unfold change_ok in Hc. rewrite !andb_true_iff in Hc. rewrite !forallb_app, !andb_true_iff in *. tauto.
Qed.

Lemma chain_line_ok prior l es d :
  chain prior l es d → forallb line_ok l = true → forallb line_ok d = true.
Proof.
  induction 1 as [|prior l e l1 es d Hp Hok Hplain He Hes IH]; [done|]. intros Hl. apply IH.
  unfold event_ok in Hok. rewrite !andb_true_iff in Hok. eapply edits_line_ok; [done|apply Hok|done].
Qed.

Lemma holds_omap_some heap refs evs : holds heap refs evs → holds heap (omap id (Some <$> refs)) evs.
Proof. induction 1; csimpl; [constructor|]. by constructor. Qed.

Lemma run_folded heap refs evs :
  holds heap refs evs →
  mapM (Some <$> refs) (λ slot, r ← lift_option TypeError slot; deref r) heap = (Ok evs, heap).
Proof.
  induction 1 as [|r e refs evs Hr Hrefs IH]; [done|]. rewrite fmap_cons. cbn [mapM]. unfold bind at 1.
  rewrite run_bind. cbn [lift_option ret]. unfold ret at 1. rewrite (run_deref _ _ _ Hr). unfold bind. by rewrite IH.
Qed.

(** What is left of a chain from some point on is a valid history of its own. *)
Lemma chain_rest_valid base pre e post d1 d :
  chain (end_guid base pre) d1 (e :: post) d → Forall plain (e :: post) →
  NoDup (base :: (eventGuid <$> (pre ++ e :: post))) →
  history_is_valid d1 (e :: post) (priorEventGuid e) = true ∧ priorEventGuid e = end_guid base pre.
Proof.
  intros Hchain Hplain Hnodup. inversion Hchain as [|? ? ? ? ? ? Hprior]; subst. split; [|done].
  apply history_is_valid_chain; [done|done|]. split; [exists d; by rewrite Hprior|].
  rewrite fmap_app in Hnodup. apply (NoDup_app (base :: (eventGuid <$> pre))) in Hnodup as (_ & Hdisj & Hnd).
  apply NoDup_cons. split; [|done]. apply Hdisj. rewrite Hprior. unfold end_guid.
  destruct (last pre) as [x|] eqn:Hx; simpl; [|by left]. right. apply list_elem_of_fmap.
  exists x. split; [done|]. by apply last_Some_elem_of.
Qed.

Lemma slice_to_fmap_app {A B} (f : A → B) xs (n : nat) ys :
  length xs = n → slice_to (Z.of_nat n) ((f <$> xs) ++ ys) = f <$> xs.
Proof. intros <-. rewrite <-(length_fmap f xs). apply slice_to_app. Qed.

Lemma slice_from_fmap_app {A B} (f : A → B) xs (n : nat) ys :
  length xs = n → slice_from (Z.of_nat n) ((f <$> xs) ++ ys) = ys.
Proof.
  intros <-. rewrite <-(length_fmap f xs). unfold slice_from.
  rewrite slice_index_nonneg by (rewrite length_app; lia). by rewrite Nat2Z.id, drop_app_length.
Qed.

(** The lines kept and the events kept after the fold, from the state in which merging stopped. *)
Lemma run_fold l heap d1 refs r rest pre e post :
  holds heap refs pre → heap !! r = Some e → holds heap (omap id rest) post →
  applyEventsToLines l pre = d1 → d1 ≠ [] → forallb line_ok d1 = true →
  fold_below l ((Some <$> refs) ++ Some r :: rest) (Z.of_nat (length pre)) heap = (Ok (d1, Some r :: rest), heap).
Proof.
  intros Hrefs Hr Hrest Happly Hne Hok. pose proof (Forall2_length _ _ _ Hrefs) as Hlen.
  unfold fold_below. case_bool_decide as H0.
  - rewrite slice_to_fmap_app, slice_from_fmap_app by done. rewrite run_bind, (run_folded _ _ _ Hrefs), run_ret.
    unfold computeStateFromEvents. by rewrite Happly, split_join.
  - assert (pre = []) as -> by (destruct pre; simpl in *; [done|lia]).
    destruct refs; [|done]. simpl in *. by rewrite run_ret, <-Happly.
Qed.

(** Merging starts at the event that the limit picks. *)
Lemma merging_start heap refs evs base l d i ei :
  holds heap refs evs → chain base l evs d → NoDup (base :: (eventGuid <$> evs)) → evs !! i = Some ei →
  ∃ pre post, evs = pre ++ ei :: post ∧ length pre = i ∧
    merging base l d (eventGuid ei) (end_guid base evs) heap (Some <$> refs) pre ei post.
Proof.
  intros Hrefs Hchain Hnodup Hei. exists (take i evs), (drop (S i) evs).
  assert (evs = take i evs ++ ei :: drop (S i) evs) as Hevs
    by (by rewrite <-(take_drop i evs) at 1; rewrite (drop_S _ _ _ Hei)).
  apply lookup_lt_Some in Hei. split; [done|]. split; [rewrite length_take; lia|].
  pose proof Hrefs as Hsplit. rewrite Hevs in Hsplit.
  apply Forall2_app_inv_r in Hsplit as (refs0 & refs1 & Hpre & H1 & Heq).
  apply Forall2_cons_inv_r in H1 as (r & refs2 & Hr & Hrest & ->).
  split; [|by rewrite <-Hevs|by left| |by rewrite <-Hevs].
  - exists refs0, r, (Some <$> refs2). rewrite Heq, fmap_app. split_and!; [done..|]. by apply holds_omap_some.
  - rewrite Hevs at 2. unfold end_guid. by rewrite last_app_cons.
Qed.

(** What the merging loop leaves, folded: a valid history with the text and the guids it had. *)
Lemma merging_end base l d guid top heap slots pre e post :
  merging base l d guid top heap slots pre e post → forallb line_ok l = true → applyEventsToLines l pre ≠ [] →
  ∃ refs r rest d1, slots = (Some <$> refs) ++ Some r :: rest ∧
    holds heap refs pre ∧ heap !! r = Some e ∧ holds heap (omap id rest) post ∧
    applyEventsToLines l pre = d1 ∧ d1 ≠ [] ∧ forallb line_ok d1 = true ∧
    history_is_valid d1 (e :: post) (priorEventGuid e) = true ∧ applyEventsToLines d1 (e :: post) = d.
Proof.
  intros [(refs & r & rest & -> & Hpre & Hr & Hrest) Hchain Hguid Htop Hnodup] Hok Hne.
  apply chain_app in Hchain as (d1 & Hd1 & Hd).
  exists refs, r, rest, d1. rewrite (chain_apply _ _ _ _ Hd1) in *.
  split_and!; try done; [by eapply chain_line_ok| |by eapply chain_apply].
  destruct (chain_rest_valid base pre e post d1 d) as [Hvalid _]; [done| |done|done].
  by apply chain_ok in Hd as [_ ?].
Qed.

Lemma run_last_index base e es heap :
  ∃ x, index_of (e :: es) (Z.of_nat (length (e :: es)) - 1) heap = (Ok x, heap) ∧
    eventGuid x = end_guid base (e :: es).
Proof.
  unfold end_guid. destruct (last (e :: es)) as [x|] eqn:Hx; [|by apply last_None in Hx].
  exists x. split; [|done]. rewrite last_lookup in Hx. rewrite <-(run_index _ _ _ heap Hx). f_equal.
  cbn [length Init.Nat.pred]. lia.
Qed.

Lemma run_finish st newLines refs guid heap old e es top base :
  holds heap (events st) old → holds heap refs (e :: es) →
  history_is_valid newLines (e :: es) (priorEventGuid e) = true →
  computeStateFromEvents (lines st) old = computeStateFromEvents newLines (e :: es) →
  guid ∈ eventGuid <$> (e :: es) → end_guid base (e :: es) = top →
  finish_compression st newLines refs guid heap =
    (Ok ({| lines := newLines; topEventGuid := top; events := refs |}, Some guid), heap).
Proof.
  intros Hold Hrefs Hvalid Htext Hguid <-. unfold finish_compression.
  rewrite run_bind, (run_deref_all _ _ _ Hrefs).
  rewrite run_bind, (run_index (e :: es) 0 e _ eq_refl : index_of (e :: es) 0 _ = _).
  rewrite run_bind, run_assertM, Hvalid, run_bind, (run_deref_all _ _ _ Hold).
  rewrite run_bind, run_assertM, (bool_decide_true (_ = computeStateFromEvents _ _)) by done.
  rewrite run_bind, run_assertM, (bool_decide_true (_ ∈ _)), orb_true_r by done.
  destruct (run_last_index base e es heap) as (x & Hx & <-). by rewrite run_bind, Hx.
Qed.

(** Compressing a valid history of plain edits whose documents keep at least one line passes
    every assertion: it leaves the caller's events alone, and what it returns is a valid history
    with the same text and the same last guid. *)
Theorem plain_history_compresses heap st e0 es maxTimestamp maxWordUndos maxLineUndos
    (Hrefs : holds heap (events st) (e0 :: es)) (Hplain : Forall plain (e0 :: es))
    (Hvalid : history_is_valid (lines st) (e0 :: es) (priorEventGuid e0) = true)
    (Hlines : forallb line_ok (lines st) = true)
    (Hdocs : ∀ k, applyEventsToLines (lines st) (take k (e0 :: es)) ≠ []) :
  ∃ st' guid extra e0' es',
    compressState st maxTimestamp maxWordUndos maxLineUndos heap = (Ok (st', Some guid), heap ++ extra) ∧
    holds (heap ++ extra) (events st') (e0' :: es') ∧
    history_is_valid (lines st') (e0' :: es') (priorEventGuid e0') = true ∧
    computeStateFromEvents (lines st') (e0' :: es') = computeStateFromEvents (lines st) (e0 :: es) ∧
    topEventGuid st' = end_guid (priorEventGuid e0) (e0 :: es).
Proof.
  destruct st as [l0 top0 refs0]. cbn [lines events topEventGuid] in *. set (evs := e0 :: es) in *.
  pose proof Hvalid as Hchain. apply history_is_valid_chain in Hchain as [[d Hchain] Hnodup]; [|done..].
  destruct (run_limit_plain evs maxTimestamp heap Hplain) as (i & Hlimit & Hi); [done|].
  destruct (lookup_lt_is_Some_2 evs (Z.to_nat i)) as [ei Hei]; [lia|].
  pose proof (run_index _ _ _ heap Hei) as Hgeti. rewrite Z2Nat.id in Hgeti by lia.
  destruct (merging_start heap refs0 evs (priorEventGuid e0) l0 d (Z.to_nat i) ei)
    as (pre & post & Hevs & Hlen & Hm); [done..|].
  destruct (run_collapse_down (Z.to_nat i) maxWordUndos maxLineUndos _ 0 _ _ _ _ _ _ _ _ _ Hm)
    as (slots' & extra & pre' & e' & post' & k & Hdown & Hm' & Htake); [lia|].
  pose proof (merging_guid _ _ _ _ _ _ _ _ _ _ Hm') as Hguid.
  pose proof (merging_top _ _ _ _ _ _ _ _ _ _ Hm') as Htop.
  destruct (merging_end _ _ _ _ _ _ _ _ _ _ Hm' Hlines)
    as (refs & r & rest & d1 & -> & Hpre' & Hr & Hrest & Happly & Hne & Hok & Hvalid' & Hd).
  { rewrite Htake. specialize (Hdocs (min k (length pre))). rewrite Hevs in Hdocs.
    rewrite take_app_le, <-take_take, firstn_all in Hdocs by lia. done. }
  pose proof (run_fold l0 (heap ++ extra) d1 refs r rest pre' e' post' Hpre' Hr Hrest Happly Hne Hok) as Hfold.
  assert (holds (heap ++ extra) (r :: omap id rest) (e' :: post')) as Hrefs' by (by constructor).
  assert (computeStateFromEvents l0 evs = computeStateFromEvents d1 (e' :: post')) as Htext.
  { unfold computeStateFromEvents. by rewrite Hd, (chain_apply _ _ _ _ Hchain). }
  exists {| lines := d1; topEventGuid := end_guid (priorEventGuid e0) evs; events := r :: omap id rest |},
    (eventGuid ei), extra, e', post'.
  split; [|split_and!; done].
  pose proof Hrefs as Hrefs1. unfold evs in Hrefs1.
  apply Forall2_cons_inv_r in Hrefs1 as (r0 & rs & Hr0 & _ & ->).
  unfold compressState. cbn [events lines].
  rewrite run_bind, (run_deref _ _ _ Hr0), run_bind, (run_deref_all _ _ _ Hrefs).
  rewrite Hvalid, run_bind. rewrite run_ret.
  rewrite run_bind, (run_compressAway_plain _ _ _ _ _ Hrefs Hplain), run_bind, (run_deref_all _ _ _ Hrefs).
  rewrite run_bind, Hlimit, run_bind. rewrite (bool_decide_true (i >= 0)) by lia.
  rewrite run_bind, Hgeti, run_ret.
  replace i with (Z.of_nat (length pre)) by lia. rewrite run_bind.
  rewrite Nat2Z.id. rewrite <-Hlen in Hdown. rewrite Hdown, run_bind, Hfold.
  cbn [omap list_omap id]. eapply run_finish; eauto using holds_grow.
Qed.

Lemma plain_history_compresses_witness :
  ∃ st' guid extra e0' es',
    compressState CompressScenario.typing_state None COMPRESS_MAX_WORD_UNDOS COMPRESS_MAX_LINE_UNDOS
      CompressScenario.typing = (Ok (st', Some guid), CompressScenario.typing ++ extra) ∧
    holds (CompressScenario.typing ++ extra) (events st') (e0' :: es') ∧ topEventGuid st' = "g2"%string.
Proof.
  destruct (plain_history_compresses CompressScenario.typing CompressScenario.typing_state
    _ _ None COMPRESS_MAX_WORD_UNDOS COMPRESS_MAX_LINE_UNDOS
    ltac:(repeat constructor) ltac:(repeat constructor) ltac:(vm_compute; reflexivity) eq_refl
    ltac:(intros [|[|[|k]]]; vm_compute; discriminate)) as (st' & guid & extra & e0' & es' & Hrun & Hrefs & _ & _ & Htop).
  exists st', guid, extra, e0', es'. split; [exact Hrun|]. split; [exact Hrefs|exact Htop].
Defined.
