(* ===== verification/ProxyState.v ===== *)
(** * The proxy: what its clients are subscribed to ([object_database/proxy_server.py])

    A proxy server has one connection to the main server and many clients.  It subscribes to
    whole types, keeps their objects ([SubscriptionState]), and answers its clients from there.

    The typed sets and dictionaries of the program come from a library; two of its calls whose
    result the source does not determine are parameters: [set_pop], which is [s.pop(x)] of a set,
    and [dict_get_None], a lookup with [None] in a dictionary keyed by numbers.  Sets are
    visited in the order of [elements]. *)

From Stdlib Require Import Lia.
From stdpp Require Import options.
From S2P Require Import Prelude Schema Messages.

Local Open Scope Z_scope.

Abbreviation Channel := nat (only parsing).

Record SubscriptionKey := {
  sk_schema : string; sk_typename : string; sk_fieldname_and_value : FieldnameAndValue; sk_isLazy : bool
}.
#[export] Instance SubscriptionKey_eq_dec : EqDecision SubscriptionKey.
Proof. solve_decision. Defined.
#[export] Instance SubscriptionKey_countable : Countable SubscriptionKey.
Proof.
  refine (inj_countable' (λ k, (sk_schema k, sk_typename k, sk_fieldname_and_value k, sk_isLazy k))
            (λ x, {| sk_schema := x.1.1.1; sk_typename := x.1.1.2; sk_fieldname_and_value := x.1.2; sk_isLazy := x.2 |}) _).
  by intros [].
Defined.

(** What a proxy does to the outside. *)
Inductive Sent :=
  | ToClient (channel : Channel) (msg : ServerToClient)
  | ToServer (msg : ClientToServer)
  | ClosedChannel (channel : Channel).

(** ** Merging schema definitions *)

Definition mergeTypeDefinition (typedef1 typedef2 : TypeDefinition) : TypeDefinition :=
  {| td_fields := td_fields typedef1 ++ filter (λ x, x ∉ td_fields typedef1) (td_fields typedef2);
     td_indices := td_indices typedef1 ++ filter (λ x, x ∉ td_indices typedef1) (td_indices typedef2) |}.

Definition mergeSchemaDefinitions (schemaDef1 schemaDef2 : SchemaDefinition) : SchemaDefinition :=
  union_with (λ typedef1 typedef2, Some (mergeTypeDefinition typedef1 typedef2)) schemaDef1 schemaDef2.

(** ** State *)

Record SubscriptionState := {
  fieldIdToSubscribedChannels : gmap FieldId (gset Channel);
  channelToSubscribedFieldIds : gmap Channel (gset FieldId);
  indexIdToSubscribedChannels : gmap IndexId (gset Channel);
  channelToSubscribedIndexIds : gmap Channel (gset IndexId);
  channelToSubscribedOids : gmap Channel (gset ObjectId);
  oidToSubscribedChannels : gmap ObjectId (gset Channel);
  channelToLazilySubscribedFieldIds : gmap Channel (gset FieldId);
  channelToLazilySubscribedIndexIds : gmap Channel (gset IndexId);
  schemaDefs : gmap string (gmap FieldDefinition FieldId);
  _definedSchemas : gmap string SchemaDefinition;
  schemaTypeAndNameToFieldId : gmap string (gmap string (gmap string FieldId));
  fieldIdToDef : gmap FieldId FieldDefinition;
  fieldDefToId : gmap FieldDefinition FieldId;
  channelSubscriptions : gmap Channel (gset SubscriptionKey);
  channelToPendingSubscriptions : gmap Channel (gset SubscriptionKey);
  channelToPendingTransactions : gmap Channel (list ClientToServer);
  subscriptionsPendingSubscriptionOnServer : gmap (string * string) (gset (Channel * SubscriptionKey));
  transactionId : Z;
  completedTypes : gset (string * string);
  objectValues : gmap FieldId (gmap ObjectId bytes);
  indexValues : gmap FieldId (gmap ObjectId IndexValue);
  reverseIndexValues : gmap FieldId (gmap IndexValue (gset ObjectId));
  (* what the proxy sent, in order *)
  sent : list Sent;
}.
#[export] Instance SubscriptionState_settable : Settable SubscriptionState := λ r,
  {| fieldIdToSubscribedChannels := fieldIdToSubscribedChannels r;
     channelToSubscribedFieldIds := channelToSubscribedFieldIds r;
     indexIdToSubscribedChannels := indexIdToSubscribedChannels r;
     channelToSubscribedIndexIds := channelToSubscribedIndexIds r;
     channelToSubscribedOids := channelToSubscribedOids r;
     oidToSubscribedChannels := oidToSubscribedChannels r;
     channelToLazilySubscribedFieldIds := channelToLazilySubscribedFieldIds r;
     channelToLazilySubscribedIndexIds := channelToLazilySubscribedIndexIds r;
     schemaDefs := schemaDefs r; _definedSchemas := _definedSchemas r;
     schemaTypeAndNameToFieldId := schemaTypeAndNameToFieldId r;
     fieldIdToDef := fieldIdToDef r; fieldDefToId := fieldDefToId r;
     channelSubscriptions := channelSubscriptions r;
     channelToPendingSubscriptions := channelToPendingSubscriptions r;
     channelToPendingTransactions := channelToPendingTransactions r;
     subscriptionsPendingSubscriptionOnServer := subscriptionsPendingSubscriptionOnServer r;
     transactionId := transactionId r; completedTypes := completedTypes r;
     objectValues := objectValues r; indexValues := indexValues r; reverseIndexValues := reverseIndexValues r;
     sent := sent r |}.

Definition new_SubscriptionState : SubscriptionState :=
  {| fieldIdToSubscribedChannels := ∅; channelToSubscribedFieldIds := ∅; indexIdToSubscribedChannels := ∅;
     channelToSubscribedIndexIds := ∅; channelToSubscribedOids := ∅; oidToSubscribedChannels := ∅;
     channelToLazilySubscribedFieldIds := ∅; channelToLazilySubscribedIndexIds := ∅; schemaDefs := ∅;
     _definedSchemas := ∅; schemaTypeAndNameToFieldId := ∅; fieldIdToDef := ∅; fieldDefToId := ∅;
     channelSubscriptions := ∅; channelToPendingSubscriptions := ∅; channelToPendingTransactions := ∅;
     subscriptionsPendingSubscriptionOnServer := ∅; transactionId := -1; completedTypes := ∅;
     objectValues := ∅; indexValues := ∅; reverseIndexValues := ∅; sent := [] |}.

(** ** Dictionaries of dictionaries *)

Section nested.
Context {K1 K2 V : Type} `{Countable K1} `{Countable K2}.

(** [d.setdefault(k1)] *)
Definition inner (k1 : K1) (d : gmap K1 (gmap K2 V)) : gmap K2 V := default ∅ (d !! k1).
(** [d.setdefault(k1)[k2] = v], and the same with a removal *)
Definition put2 (k1 : K1) (k2 : K2) (v : V) (d : gmap K1 (gmap K2 V)) : gmap K1 (gmap K2 V) :=
  <[k1 := <[k2 := v]> (inner k1 d)]> d.
Definition remove2 (k1 : K1) (k2 : K2) (d : gmap K1 (gmap K2 V)) : gmap K1 (gmap K2 V) :=
  <[k1 := delete k2 (inner k1 d)]> d.
(** [d[k1][k2]] when both are there *)
Definition get2 (k1 : K1) (k2 : K2) (d : gmap K1 (gmap K2 V)) : option V := d !! k1 ≫= λ m, m !! k2.
End nested.

(** [d.setdefault(k)] alone *)
Definition touch `{Countable K} `{Empty V} (k : K) (d : gmap K V) : gmap K V := <[k := default ∅ (d !! k)]> d.

Definition in_dict `{Countable K} {V} (k : K) (d : gmap K V) : bool := bool_decide (is_Some (d !! k)).

Section subscriptions.
Context `{Serialization}.
Context (set_pop : gset (Channel * SubscriptionKey) → Channel * SubscriptionKey →
                   outcome (gset (Channel * SubscriptionKey))).
Context (dict_get_None : outcome (option bytes)).

Abbreviation MS := (M SubscriptionState).

Definition send (msg : Sent) : MS unit := modify (λ s, s <| sent ::= λ l, l ++ [msg] |>).
Definition sendMessage (channel : Channel) (msg : ServerToClient) : MS unit := send (ToClient channel msg).

(** [d[k]], which raises when there is no entry *)
Definition subscript `{Countable K} {V} (proj : SubscriptionState → gmap K V) (k : K) : MS V :=
  d ← gets proj;
  lift_option KeyError (d !! k).

Definition fieldIdFor (s : SubscriptionState) (schema typename fieldname : string) : option FieldId :=
  fieldDefToId s !! FieldDef schema typename fieldname.

(** [self.schemaTypeAndNameToFieldId[schema][typename]] when both are there *)
Definition type_fields (s : SubscriptionState) (schema typename : string) : option (gmap string FieldId) :=
  get2 schema typename (schemaTypeAndNameToFieldId s).
Definition field_ids (s : SubscriptionState) (schema typename : string) : list FieldId :=
  match type_fields s schema typename with None => [] | Some m => (map_to_list m).*2 end.

(** ** Reading the objects *)

Definition objectIndentitiesForSubscriptionKey (key : SubscriptionKey) : MS (gset ObjectId) :=
  s ← get_state;
  match sk_fieldname_and_value key with
  | Some (fieldname, indexValue) =>
      if bool_decide (fieldname = "_identity"%string) then
        identity ← lift_option DeserializeError (deserialize_ObjectBase indexValue);
        mret {[identity]}
      else
        mret (default ∅ (type_fields s (sk_schema key) (sk_typename key) ≫= λ m,
                         m !! fieldname ≫= λ fieldId, get2 fieldId indexValue (reverseIndexValues s)))
  | None =>
      mret (⋃ ((λ fieldId, default ∅ (dom <$> (objectValues s !! fieldId))) <$>
               field_ids s (sk_schema key) (sk_typename key)))
  end.

(** the entries of a type's fields in one of the two tables, for some objects *)
Definition valuesForOids (table : gmap FieldId (gmap ObjectId bytes)) (isIndex : bool) (fields : list FieldId)
    (oids : list ObjectId) : gmap ObjectFieldId (option bytes) :=
  list_to_map (
    fieldId ← fields;
    oid ← oids;
    match get2 fieldId oid table with
    | Some v => [(OFI oid fieldId isIndex, Some v)]
    | None => []
    end).

Definition objectValuesForOids (s : SubscriptionState) (schema typename : string) (oids : list ObjectId) :=
  valuesForOids (objectValues s) false (field_ids s schema typename) oids.
Definition indexValuesForOids (s : SubscriptionState) (schema typename : string) (oids : list ObjectId) :=
  valuesForOids (indexValues s) true (field_ids s schema typename) oids.

(** every entry of a type's fields in one of the two tables *)
Definition valuesForType (table : gmap FieldId (gmap ObjectId bytes)) (isIndex : bool) (fields : list FieldId) :
    gmap ObjectFieldId (option bytes) :=
  list_to_map (
    fieldId ← fields;
    '(objectId, value) ← map_to_list (inner fieldId table);
    [(OFI objectId fieldId isIndex, Some value)]).

Definition objectValuesForSubscriptionKey (key : SubscriptionKey) : MS (gmap ObjectFieldId (option bytes)) :=
  fields ← gets (λ s, field_ids s (sk_schema key) (sk_typename key));
  forM fields (λ fieldId, modify (λ s, s <| objectValues ::= touch fieldId |>));;
  gets (λ s, valuesForType (objectValues s) false fields).
Definition indexValuesForSubscriptionKey (key : SubscriptionKey) : MS (gmap ObjectFieldId (option bytes)) :=
  fields ← gets (λ s, field_ids s (sk_schema key) (sk_typename key));
  forM fields (λ fieldId, modify (λ s, s <| indexValues ::= touch fieldId |>));;
  gets (λ s, valuesForType (indexValues s) true fields).

Definition getObjectValue (fieldId : FieldId) (identity : option ObjectId) : MS (option bytes) :=
  modify (λ s, s <| objectValues ::= touch fieldId |>);;
  match identity with
  | Some identity => gets (λ s, get2 fieldId identity (objectValues s))
  | None => λ s, (dict_get_None, s)
  end.

(** ** Dropping a channel *)

(** [if channel in self.d: for k in self.d[channel]: body(k); self.d.pop(channel)] *)
Definition each_of_channel {V} `{Countable V} (proj : SubscriptionState → gmap Channel (gset V)) (channel : Channel)
    (body : V → MS unit) (forget : SubscriptionState → SubscriptionState) : MS unit :=
  d ← gets proj;
  match d !! channel with
  | Some vs => forM (elements vs) body;; modify forget
  | None => mret tt
  end.

Definition SubscriptionState_dropConnection (channel : Channel) : MS unit :=
  each_of_channel channelToSubscribedFieldIds channel
    (λ fieldId, subscript fieldIdToSubscribedChannels fieldId;;
                modify (λ s, s <| fieldIdToSubscribedChannels ::= mm_discard fieldId channel |>))
    (λ s, s <| channelToSubscribedFieldIds ::= delete channel |>);;
  each_of_channel channelToSubscribedIndexIds channel
    (λ fieldAndIv, subscript indexIdToSubscribedChannels fieldAndIv;;
                   modify (λ s, s <| indexIdToSubscribedChannels ::= mm_discard fieldAndIv channel |>))
    (λ s, s <| channelToSubscribedIndexIds ::= delete channel |>);;
  each_of_channel channelToSubscribedOids channel
    (λ oid, subscript oidToSubscribedChannels oid;;
            modify (λ s, s <| oidToSubscribedChannels ::= mm_discard_prune oid channel |>))
    (λ s, s <| channelToSubscribedOids ::= delete channel |>);;
  modify (λ s, s <| channelSubscriptions ::= delete channel |>);;
  modify (λ s, s <| channelToPendingTransactions ::= delete channel |>);;
  each_of_channel channelToPendingSubscriptions channel
    (λ subsKey,
       let typ := (sk_schema subsKey, sk_typename subsKey) in
       waiting ← subscript subscriptionsPendingSubscriptionOnServer typ;
       match set_pop waiting (channel, subsKey) with
       | Ok waiting => modify (λ s, s <| subscriptionsPendingSubscriptionOnServer ::= <[typ := waiting]> |>)
       | Raise e => raise e
       end)
    (λ s, s <| channelToPendingSubscriptions ::= delete channel |>);;
  modify (λ s, s <| channelToLazilySubscribedFieldIds ::= delete channel |>);;
  modify (λ s, s <| channelToLazilySubscribedIndexIds ::= delete channel |>).

(** ** Subscribing *)

(** the dictionaries of a subscription to one index value *)
Definition subscribe_to_index (channel : Channel) (key : SubscriptionKey) (fieldname : string) (value : IndexValue) :
    MS unit :=
  types ← subscript schemaTypeAndNameToFieldId (sk_schema key);
  fields ← lift_option KeyError (types !! sk_typename key);
  fieldId ← lift_option KeyError (fields !! fieldname);
  modify (λ s, s <| indexIdToSubscribedChannels ::= mm_add (IXI fieldId value) channel |>
                 <| channelToSubscribedIndexIds ::= mm_add channel (IXI fieldId value) |>);;
  whenM (sk_isLazy key)
    (modify (λ s, s <| channelToLazilySubscribedIndexIds ::= mm_add channel (IXI fieldId value) |>)).

Definition subscribe_to_type (channel : Channel) (key : SubscriptionKey) : MS unit :=
  types ← subscript schemaTypeAndNameToFieldId (sk_schema key);
  fields ← lift_option KeyError (types !! sk_typename key);
  forM (map_to_list fields).*2 (λ fieldId,
    modify (λ s, s <| fieldIdToSubscribedChannels ::= mm_add fieldId channel |>
                   <| channelToSubscribedFieldIds ::= mm_add channel fieldId |>);;
    whenM (sk_isLazy key)
      (modify (λ s, s <| channelToLazilySubscribedFieldIds ::= mm_add channel fieldId |>))).

Definition sendDataForSubscription (channel : Channel) (key : SubscriptionKey) : MS unit :=
  oids ← objectIndentitiesForSubscriptionKey key;
  match sk_fieldname_and_value key with
  | Some (fieldname, value) =>
      whenM (bool_decide (fieldname ≠ "_identity"%string)) (subscribe_to_index channel key fieldname value);;
      modify (λ s, s <| channelToSubscribedOids ::= <[channel := oids]> |>);;
      forM (elements oids) (λ oid, modify (λ s, s <| oidToSubscribedChannels ::= mm_add oid channel |>))
  | None => subscribe_to_type channel key
  end;;
  s ← get_state;
  sendMessage channel
    (let schema := sk_schema key in
     let typename := sk_typename key in
     if sk_isLazy key then
       LazySubscriptionData schema typename (sk_fieldname_and_value key) (elements oids)
         (indexValuesForOids s schema typename (elements oids))
     else
       SubscriptionData schema typename (sk_fieldname_and_value key)
         (objectValuesForOids s schema typename (elements oids))
         (indexValuesForOids s schema typename (elements oids))
         (match sk_fieldname_and_value key with None => None | Some _ => Some (elements oids) end));;
  sendMessage channel
    (SubscriptionComplete (sk_schema key) (sk_typename key) (sk_fieldname_and_value key) (transactionId s)).

Definition addSubscription (channel : Channel) (key : SubscriptionKey) : MS unit :=
  modify (λ s, s <| channelSubscriptions ::= mm_add channel key |>);;
  completed ← gets completedTypes;
  let typ := (sk_schema key, sk_typename key) in
  if bool_decide (typ ∈ completed) then sendDataForSubscription channel key
  else
    modify (λ s, s <| subscriptionsPendingSubscriptionOnServer ::= mm_add typ (channel, key) |>
                   <| channelToPendingSubscriptions ::= mm_add channel key |>).

(** ** What the main server sends *)

Definition mapSchema (schemaName : string) (schemaDef : gmap FieldDefinition FieldId) : MS unit :=
  modify (λ s, s <| schemaDefs ::= <[schemaName := schemaDef]> |>);;
  forM (map_to_list schemaDef) (λ '(fieldDef, fieldId),
    modify (λ s, s
      <| schemaTypeAndNameToFieldId ::= λ d,
           <[fd_schema fieldDef := put2 (fd_typename fieldDef) (fd_fieldname fieldDef) fieldId (inner (fd_schema fieldDef) d)]> d |>
      <| fieldIdToDef ::= <[fieldId := fieldDef]> |>
      <| fieldDefToId ::= <[fieldDef := fieldId]> |>)).

(** [update(d.setdefault(fieldId), objId, valueOrNone)] *)
Definition update_entry (fieldId : FieldId) (objId : ObjectId) (valueOrNone : option bytes)
    (d : gmap FieldId (gmap ObjectId bytes)) : gmap FieldId (gmap ObjectId bytes) :=
  match valueOrNone with
  | None => remove2 fieldId objId d
  | Some v => put2 fieldId objId v d
  end.

(** [self.reverseIndexValues.setdefault(fieldId).setdefault(value).add(objId)] *)
Definition add_reverse (fieldId : FieldId) (value : IndexValue) (objId : ObjectId)
    (d : gmap FieldId (gmap IndexValue (gset ObjectId))) : gmap FieldId (gmap IndexValue (gset ObjectId)) :=
  <[fieldId := mm_add value objId (inner fieldId d)]> d.

Definition handleSubscriptionData (values : gmap ObjectFieldId (option bytes))
    (index_values : gmap ObjectFieldId (option IndexValue)) : MS unit :=
  forM (map_to_list values) (λ '(key, valueData),
    assertM (negb (isIndexValue key));;
    modify (λ s, s <| objectValues ::= update_entry (ofiFieldId key) (objId key) valueData |>));;
  forM (map_to_list index_values) (λ '(key, indexData),
    assertM (isIndexValue key);;
    modify (λ s, s
      <| indexValues ::= update_entry (ofiFieldId key) (objId key) indexData |>
      <| reverseIndexValues ::= match indexData with
                                | Some v => add_reverse (ofiFieldId key) v (objId key)
                                | None => touch (ofiFieldId key)
                                end |>)).

Definition getChannelsForSchemaAndTypename (s : SubscriptionState) (schema typename : string) : gset Channel :=
  ⋃ ((λ fieldId, mm_get (fieldIdToSubscribedChannels s) fieldId) <$> field_ids s schema typename).

(** One waiting subscription, once its type is complete; the channel's deferred messages are
    returned when it was the last one. *)
Definition complete_one (channel : Channel) (key : SubscriptionKey) : MS (list (Channel * list ClientToServer)) :=
  subscript channelToPendingSubscriptions channel;;
  modify (λ s, s <| channelToPendingSubscriptions ::= mm_discard channel key |>);;
  sendDataForSubscription channel key;;
  waiting ← subscript channelToPendingSubscriptions channel;
  if bool_decide (waiting = ∅) then
    modify (λ s, s <| channelToPendingSubscriptions ::= delete channel |>);;
    deferred ← gets channelToPendingTransactions;
    match deferred !! channel with
    | Some messages =>
        modify (λ s, s <| channelToPendingTransactions ::= delete channel |>);;
        mret [(channel, messages)]
    | None => mret []
    end
  else mret [].

Definition handleSubscriptionComplete (schema typename : string) (tid : Z) :
    MS (list (Channel * list ClientToServer)) :=
  modify (λ s, s <| transactionId ::= λ t, if bool_decide (tid > t) then tid else t |>
                 <| completedTypes ::= union {[(schema, typename)]} |>);;
  d ← gets subscriptionsPendingSubscriptionOnServer;
  match d !! (schema, typename) with
  | Some waiting =>
      modify (λ s, s <| subscriptionsPendingSubscriptionOnServer ::= delete (schema, typename) |>);;
      foldM (elements waiting) [] (λ '(channel, key) out,
        more ← complete_one channel key;
        mret (out ++ more))
  | None => mret []
  end.

(** ** Transactions *)

Definition prior_values (writes : gmap ObjectFieldId (option bytes)) : MS (gmap ObjectFieldId (option bytes)) :=
  forM (map_to_list writes) (λ '(ofi, _), modify (λ s, s <| objectValues ::= touch (ofiFieldId ofi) |>));;
  s ← get_state;
  mret (map_imap (λ ofi _, Some (get2 (ofiFieldId ofi) (objId ofi) (objectValues s))) writes).

Definition apply_writes (writes : gmap ObjectFieldId (option bytes)) : MS unit :=
  forM (map_to_list writes) (λ '(ofi, val),
    modify (λ s, s <| objectValues ::= update_entry (ofiFieldId ofi) (objId ofi) val |>)).

Definition apply_set_remove (ix : IndexId) (oids : gset ObjectId) : MS unit :=
  modify (λ s, s
    <| indexValues ::= λ d, <[ixFieldId ix := filter (λ kv, kv.1 ∉ oids) (inner (ixFieldId ix) d)]> d |>
    <| reverseIndexValues ::= λ d,
         let m := inner (ixFieldId ix) d in
         let objectsWithThisIndexVal := mm_get m (indexValue ix) ∖ oids in
         <[ixFieldId ix := if bool_decide (objectsWithThisIndexVal = ∅) then delete (indexValue ix) m
                           else <[indexValue ix := objectsWithThisIndexVal]> m]> d |>).

Definition apply_set_add (ix : IndexId) (oids : gset ObjectId) : MS unit :=
  modify (λ s, s
    <| indexValues ::= λ d, <[ixFieldId ix := gset_to_gmap (indexValue ix) oids ∪ inner (ixFieldId ix) d]> d |>
    <| reverseIndexValues ::= λ d, <[ixFieldId ix := mm_update (indexValue ix) oids (inner (ixFieldId ix) d)]> d |>).

(** One channel that is subscribed to an index value which objects are added to: the objects that
    it did not know, and whether it needs prior values. *)
Definition increase_channel (ix : IndexId) (oids : gset ObjectId) (tid : Z) (channel : Channel) :
    MS (bool * gset ObjectId) :=
  modify (λ s, s <| channelToLazilySubscribedIndexIds ::= touch channel |>);;
  s ← get_state;
  let lazily := bool_decide (ix ∈ mm_get (channelToLazilySubscribedIndexIds s) channel) in
  let newOids := oids ∖ mm_get (channelToSubscribedOids s) channel in
  whenM (bool_decide (newOids ≠ ∅))
    (modify (λ s, s <| channelToSubscribedOids ::= mm_update channel newOids |>);;
     forM (elements newOids) (λ n, modify (λ s, s <| oidToSubscribedChannels ::= mm_add n channel |>));;
     fieldDef ← subscript fieldIdToDef (ixFieldId ix);
     sendMessage channel
       (SubscriptionIncrease (fd_schema fieldDef) (fd_typename fieldDef) (fd_fieldname fieldDef, indexValue ix)
          (elements newOids) tid));;
  mret (lazily, newOids).

(** Channels that need prior values, and the objects to describe for each index value. *)
Abbreviation Increases := (gset Channel * gmap IndexId (gset ObjectId))%type.

Definition increase_for_index (tid : Z) (ix : IndexId) (oids : gset ObjectId) (acc : Increases) : MS Increases :=
  d ← gets indexIdToSubscribedChannels;
  acc ← foldM (elements (mm_get d ix)) acc (λ channel '(triggered, idsToAdd),
    '(lazily, newOids) ← increase_channel ix oids tid channel;
    mret (if lazily : bool then {[channel]} ∪ triggered else triggered,
          if bool_decide (newOids = ∅) then idsToAdd else mm_update ix newOids idsToAdd));
  apply_set_add ix oids;;
  mret acc.

(** [objectValues] entries of the new objects, for one field *)
Definition known_values (s : SubscriptionState) (fieldId : FieldId) (oids : gset ObjectId) : list (ObjectId * bytes) :=
  omap (λ oid, (λ v, (oid, v)) <$> get2 fieldId oid (objectValues s)) (elements oids).

Definition _increaseBroadcastTransactionToInclude (ix : IndexId) (newOids : gset ObjectId)
    (acc : gmap ObjectFieldId (option bytes) * gmap IndexId (gset ObjectId)) :
    MS (gmap ObjectFieldId (option bytes) * gmap IndexId (gset ObjectId)) :=
  indexFieldDef ← subscript fieldIdToDef (ixFieldId ix);
  types ← subscript schemaTypeAndNameToFieldId (fd_schema indexFieldDef);
  fieldnameToFieldId ← lift_option KeyError (types !! fd_typename indexFieldDef);
  definition ← subscript _definedSchemas (fd_schema indexFieldDef);
  typeDefinition ← lift_option KeyError (definition !! fd_typename indexFieldDef);
  s ← get_state;
  acc ← foldM (td_fields typeDefinition) acc (λ fieldname '(writes, set_adds),
    fieldId ← lift_option KeyError (fieldnameToFieldId !! fieldname);
    mret (foldl (λ w '(oid, v), <[OFI oid fieldId false := Some v]> w) writes (known_values s fieldId newOids), set_adds));
  foldM (td_indices typeDefinition) acc (λ indexname '(writes, set_adds),
    fieldId ← lift_option KeyError (fieldnameToFieldId !! indexname);
    mret (writes, foldl (λ a '(oid, v), mm_add (IXI fieldId v) oid a) set_adds (known_values s fieldId newOids))).

(** The channels subscribed to one of the fields or objects of a transaction, and those of them
    that need prior values. *)
Definition affected_channels (fieldIds : gset FieldId) (oidsMentioned : gset ObjectId) (triggered : gset Channel) :
    MS (gset Channel * gset Channel) :=
  '(channels, triggered) ← foldM (elements fieldIds) (∅, triggered) (λ f '(channels, triggered),
    d ← gets fieldIdToSubscribedChannels;
    let subscribed := mm_get d f in
    forM (elements subscribed) (λ c, modify (λ s, s <| channelToLazilySubscribedFieldIds ::= touch c |>));;
    lazily ← gets channelToLazilySubscribedFieldIds;
    mret (channels ∪ subscribed, triggered ∪ filter (λ c, f ∈ mm_get lazily c) subscribed));
  d ← gets oidToSubscribedChannels;
  mret (channels ∪ ⋃ (mm_get d <$> elements oidsMentioned), triggered).

Definition handleTransaction (writes : gmap ObjectFieldId (option bytes)) (set_adds set_removes : gmap IndexId (list ObjectId))
    (tid : Z) : MS unit :=
  priorValues ← prior_values writes;
  let set_adds : gmap IndexId (gset ObjectId) := list_to_set <$> set_adds in
  let set_removes : gmap IndexId (gset ObjectId) := list_to_set <$> set_removes in
  let oidsMentioned : gset ObjectId :=
    list_to_set ((λ kv, objId kv.1) <$> map_to_list writes) ∪
    ⋃ (map_to_list set_removes).*2 ∪ ⋃ (map_to_list set_adds).*2 in
  apply_writes writes;;
  forM (map_to_list set_removes) (λ '(ix, oids), apply_set_remove ix oids);;
  '(triggered, idsToAdd) ← foldM (map_to_list set_adds) (∅, ∅) (λ '(ix, oids), increase_for_index tid ix oids);
  let fieldIdsOfWrites : gset FieldId := list_to_set ((λ kv, ofiFieldId kv.1) <$> map_to_list writes) in
  '(writes, set_adds) ← foldM (map_to_list idsToAdd) (writes, set_adds)
                          (λ '(ix, oids), _increaseBroadcastTransactionToInclude ix oids);
  let fieldIds := fieldIdsOfWrites ∪ list_to_set ((λ kv, ixFieldId kv.1) <$> map_to_list set_adds)
                                  ∪ list_to_set ((λ kv, ixFieldId kv.1) <$> map_to_list set_removes) in
  '(channels, triggered) ← affected_channels fieldIds oidsMentioned triggered;
  modify (λ s, s <| transactionId ::= λ t, if bool_decide (tid > t) then tid else t |>);;
  forM (elements triggered) (λ channel, sendMessage channel (LazyTransactionPriors priorValues));;
  let msg := Transaction writes (elements <$> set_adds) (elements <$> set_removes) tid in
  forM (elements channels) (λ c, sendMessage c msg).

(** ** Requests answered by the proxy itself *)

(** One index value that the client adds objects to. *)
Definition increase_created (channel : Channel) (tid : Z) (ix : IndexId) (oids : list ObjectId) : MS unit :=
  fieldDef ← subscript fieldIdToDef (ixFieldId ix);
  whenM (bool_decide (fd_fieldname fieldDef = " exists"%string))
    (modify (λ s, s <| fieldIdToSubscribedChannels ::= touch (ixFieldId ix) |>);;
     d ← gets fieldIdToSubscribedChannels;
     whenM (bool_decide (channel ∉ mm_get d (ixFieldId ix)))
       (modify (λ s, s <| channelToSubscribedOids ::= if bool_decide (oids = []) then id else touch channel |>);;
        known ← gets channelToSubscribedOids;
        let newIds := filter (λ x, x ∉ mm_get known channel) oids in
        whenM (bool_decide (newIds ≠ []))
          (modify (λ s, s <| channelToSubscribedOids ::= mm_update channel (list_to_set newIds) |>);;
           forM newIds (λ oid, modify (λ s, s <| oidToSubscribedChannels ::= mm_add oid channel |>));;
           sendMessage channel
             (SubscriptionIncrease (fd_schema fieldDef) (fd_typename fieldDef) (fd_fieldname fieldDef, indexValue ix)
                newIds tid)))).

Definition increaseSubscriptionIfNecessary (channel : Channel) (set_adds : gmap IndexId (list ObjectId)) (tid : Z) :
    MS unit :=
  forM (map_to_list set_adds) (λ '(ix, oids), increase_created channel tid ix oids).

Definition lazyLoadObject (channel : Channel) (schema typename : string) (identity : ObjectId) : MS unit :=
  s ← get_state;
  sendMessage channel (LazyLoadResponse identity (objectValuesForOids s schema typename [identity])).

End subscriptions.
