(* ===== verification/Proxy.v ===== *)
(** * The proxy server ([ProxyServer] in [object_database/proxy_server.py])

    Every entry point takes the proxy's lock, so each is one transition.  The identifiers that
    [uuid.uuid4()] draws and the definition of the core schema are parameters, like the two calls
    of the typed containers ([ProxyState]). *)

From Stdlib Require Import Lia.
From stdpp Require Import options.
From S2P Require Import Prelude Schema Messages ProxyState.

Local Open Scope Z_scope.

Record ProxyServer := {
  _authToken : string;
  _downstreamChannels : gset Channel;
  _authenticatedDownstreamChannels : gset Channel;
  _connectionIdentity : option ObjectId;
  _identityRoot : option Z;
  _transactionNum : option Z;
  _deferredMessagesAndEndpoints : list (Channel * ClientToServer);
  _guidToChannelRequestingIdentity : gmap string Channel;
  _channelToMissedHeartbeatCount : gmap Channel Z;
  _channelToConnectionId : gmap Channel ObjectId;
  _channelSchemas : gmap (Channel * string) SchemaDefinition;
  _mappedSchemas : gmap string (gmap Z (gmap FieldDefinition FieldId));
  _requestedSchemaIteration : gmap string Z;
  _receivedSchemaIteration : gmap string Z;
  _unmappedSchemasToChannels : gmap (string * Z) (gset Channel);
  _subscriptionState : SubscriptionState;
  _subscribedTypes : gset (string * string);
  _flushGuidIx : Z;
  _outgoingFlushGuidToChannelAndFlushGuid : gmap Z (Channel * Z);
  _transactionGuidIx : Z;
  _channelAndTransactionGuidToOutgoingTransactionGuid : gmap (Channel * Z) Z;
  _outgoingTransactionGuidToChannelAndTransactionGuid : gmap Z (Channel * Z);
  uuids_drawn : nat;
}.
#[export] Instance ProxyServer_settable : Settable ProxyServer := λ r,
  {| _authToken := _authToken r; _downstreamChannels := _downstreamChannels r;
     _authenticatedDownstreamChannels := _authenticatedDownstreamChannels r;
     _connectionIdentity := _connectionIdentity r; _identityRoot := _identityRoot r;
     _transactionNum := _transactionNum r;
     _deferredMessagesAndEndpoints := _deferredMessagesAndEndpoints r;
     _guidToChannelRequestingIdentity := _guidToChannelRequestingIdentity r;
     _channelToMissedHeartbeatCount := _channelToMissedHeartbeatCount r;
     _channelToConnectionId := _channelToConnectionId r; _channelSchemas := _channelSchemas r;
     _mappedSchemas := _mappedSchemas r; _requestedSchemaIteration := _requestedSchemaIteration r;
     _receivedSchemaIteration := _receivedSchemaIteration r;
     _unmappedSchemasToChannels := _unmappedSchemasToChannels r; _subscriptionState := _subscriptionState r;
     _subscribedTypes := _subscribedTypes r; _flushGuidIx := _flushGuidIx r;
     _outgoingFlushGuidToChannelAndFlushGuid := _outgoingFlushGuidToChannelAndFlushGuid r;
     _transactionGuidIx := _transactionGuidIx r;
     _channelAndTransactionGuidToOutgoingTransactionGuid := _channelAndTransactionGuidToOutgoingTransactionGuid r;
     _outgoingTransactionGuidToChannelAndTransactionGuid := _outgoingTransactionGuidToChannelAndTransactionGuid r;
     uuids_drawn := uuids_drawn r |}.

Definition new_ProxyServer (authToken : string) : ProxyServer :=
  {| _authToken := authToken; _downstreamChannels := ∅; _authenticatedDownstreamChannels := ∅;
     _connectionIdentity := None; _identityRoot := None; _transactionNum := None;
     _deferredMessagesAndEndpoints := []; _guidToChannelRequestingIdentity := ∅;
     _channelToMissedHeartbeatCount := ∅; _channelToConnectionId := ∅; _channelSchemas := ∅;
     _mappedSchemas := ∅; _requestedSchemaIteration := ∅; _receivedSchemaIteration := ∅;
     _unmappedSchemasToChannels := ∅; _subscriptionState := new_SubscriptionState; _subscribedTypes := ∅;
     _flushGuidIx := 0; _outgoingFlushGuidToChannelAndFlushGuid := ∅; _transactionGuidIx := 0;
     _channelAndTransactionGuidToOutgoingTransactionGuid := ∅;
     _outgoingTransactionGuidToChannelAndTransactionGuid := ∅; uuids_drawn := 0 |}.

(** What the proxy has sent so far. *)
Definition sent_of (p : ProxyServer) : list Sent := sent (_subscriptionState p).

Section proxy.
Context `{Serialization}.
Context (set_pop : gset (Channel * SubscriptionKey) → Channel * SubscriptionKey →
                   outcome (gset (Channel * SubscriptionKey))).
Context (dict_get_None : outcome (option bytes)).
Context (uuid4 : nat → string) (core_definition : SchemaDefinition).

Abbreviation MP := (M ProxyServer).

(** A call of a method of [self._subscriptionState]. *)
Definition subs {A} (m : M SubscriptionState A) : MP A := zoom _subscriptionState m.
Definition toServer (msg : ClientToServer) : MP unit := subs (send (ToServer msg)).
Definition toClient (channel : Channel) (msg : ServerToClient) : MP unit := subs (send (ToClient channel msg)).
Definition closeChannel (channel : Channel) : MP unit := subs (send (ClosedChannel channel)).

Definition authenticate : MP unit :=
  token ← gets _authToken;
  toServer (Authenticate token);;
  toServer (DefineSchema "core" core_definition);;
  modify (λ p, p <| _requestedSchemaIteration ::= <["core"%string := 0]> |>);;
  subs (modify (λ s, s <| _definedSchemas ::= <["core"%string := core_definition]> |>)).

Definition addConnection (channel : Channel) : MP unit :=
  modify (λ p, p <| _downstreamChannels ::= union {[channel]} |>
                 <| _channelToMissedHeartbeatCount ::= <[channel := 0]> |>).

Definition dropConnection (channel : Channel) : MP unit :=
  p ← get_state;
  if bool_decide (channel ∉ _downstreamChannels p) then mret tt
  else
    subs (SubscriptionState_dropConnection set_pop channel);;
    modify (λ p, p <| _downstreamChannels ::= λ d, d ∖ {[channel]} |>);;
    counts ← gets _channelToMissedHeartbeatCount;
    lift_option KeyError (counts !! channel);;
    modify (λ p, p <| _channelToMissedHeartbeatCount ::= delete channel |>
                   <| _authenticatedDownstreamChannels ::= λ d, d ∖ {[channel]} |>);;
    ids ← gets _channelToConnectionId;
    match ids !! channel with
    | Some connId =>
        modify (λ p, p <| _channelToConnectionId ::= delete channel |>);;
        toServer (DropDependentConnectionId connId)
    | None => mret tt
    end;;
    closeChannel channel.

Definition _areHeartbeatsSuspended (connIdentity : option ObjectId) : MP bool :=
  s ← gets _subscriptionState;
  match fieldIdFor s "core" "Connection" "heartbeats_suspended" with
  | None => mret false
  | Some fieldId =>
      curData ← subs (getObjectValue dict_get_None fieldId connIdentity);
      mret (bool_decide (curData = Some (serialize_bool true)))
  end.

(** One channel of [checkForDeadConnections]. *)
Definition check_heartbeat (c : Channel) : MP unit :=
  counts ← gets _channelToMissedHeartbeatCount;
  count ← lift_option KeyError (counts !! c);
  modify (λ p, p <| _channelToMissedHeartbeatCount ::= <[c := count + 1]> |>);;
  if bool_decide (count + 1 >= 4) then
    ids ← gets _channelToConnectionId;
    suspended ← _areHeartbeatsSuspended (ids !! c);
    if (suspended : bool) then mret tt
    else
      closeChannel c;;
      dropConnection c
  else mret tt.

Definition checkForDeadConnections : MP unit :=
  counts ← gets _channelToMissedHeartbeatCount;
  forM (elements (dom counts)) check_heartbeat.

(** ** Messages of clients *)

Definition onDefineSchema (channel : Channel) (name : string) (definition : SchemaDefinition) : MP unit :=
  modify (λ p, p <| _channelSchemas ::= <[(channel, name) := definition]> |>);;
  defined ← gets (λ p, _definedSchemas (_subscriptionState p) !! name);
  match defined with
  | None =>
      modify (λ p, p <| _requestedSchemaIteration ::= <[name := 0]> |>);;
      toServer (DefineSchema name definition);;
      subs (modify (λ s, s <| _definedSchemas ::= <[name := definition]> |>))
  | Some known =>
      let biggerSchema := mergeSchemaDefinitions known definition in
      whenM (bool_decide (definition ≠ known) && bool_decide (biggerSchema ≠ known))
        (requested ← gets _requestedSchemaIteration;
         n ← lift_option KeyError (requested !! name);
         modify (λ p, p <| _requestedSchemaIteration ::= <[name := n + 1]> |>);;
         toServer (DefineSchema name biggerSchema);;
         subs (modify (λ s, s <| _definedSchemas ::= <[name := biggerSchema]> |>)))
  end;;
  requested ← gets _requestedSchemaIteration;
  schemaIteration ← lift_option KeyError (requested !! name);
  mapped ← gets _mappedSchemas;
  match get2 name schemaIteration mapped with
  | Some mapping => toClient channel (SchemaMapping name mapping)
  | None => modify (λ p, p <| _unmappedSchemasToChannels ::= mm_add (name, schemaIteration) channel |>)
  end.

(** A type that no client asked for yet is subscribed to on the main server. *)
Definition subscribe_upstream (schema typename : string) : MP unit :=
  subscribed ← gets _subscribedTypes;
  whenM (bool_decide ((schema, typename) ∉ subscribed))
    (toServer (Subscribe schema typename None false);;
     modify (λ p, p <| _subscribedTypes ::= union {[(schema, typename)]} |>)).

Definition onSubscribe (channel : Channel) (schema typename : string) (fnv : FieldnameAndValue) (isLazy : bool) :
    MP unit :=
  schemas ← gets _channelSchemas;
  lift_option (UserException "Can't subscribe to schema") (schemas !! (channel, schema));;
  subscribe_upstream schema typename;;
  subs (addSubscription channel
          {| sk_schema := schema; sk_typename := typename; sk_fieldname_and_value := fnv; sk_isLazy := isLazy |}).

Definition onFlush (channel : Channel) (guid : Z) : MP unit :=
  modify (λ p, p <| _flushGuidIx ::= λ n, n + 1 |>);;
  newGuid ← gets _flushGuidIx;
  modify (λ p, p <| _outgoingFlushGuidToChannelAndFlushGuid ::= <[newGuid := (channel, guid)]> |>);;
  toServer (Flush newGuid).

Definition onLoadLazyObject (channel : Channel) (schema typename : string) (identity : ObjectId) : MP unit :=
  completed ← gets (λ p, completedTypes (_subscriptionState p));
  if bool_decide ((schema, typename) ∉ completed) then dropConnection channel
  else subs (lazyLoadObject channel schema typename identity).

(** A message of a transaction waits while a subscription of its channel is pending. *)
Definition defer_or (channel : Channel) (msg : ClientToServer) (m : MP unit) : MP unit :=
  pending ← gets (λ p, channelToPendingSubscriptions (_subscriptionState p));
  match pending !! channel with
  | Some keys =>
      assertM (bool_decide (keys ≠ ∅));;
      subs (modify (λ s, s <| channelToPendingTransactions ::= λ d, <[channel := default [] (d !! channel) ++ [msg]]> d |>))
  | None => m
  end.

(** The guid under which a client's transaction is known to the main server. *)
Definition outgoing_guid (channel : Channel) (transaction_guid : Z) : MP Z :=
  known ← gets _channelAndTransactionGuidToOutgoingTransactionGuid;
  match known !! (channel, transaction_guid) with
  | Some guid => mret guid
  | None =>
      modify (λ p, p <| _transactionGuidIx ::= λ n, n + 1 |>);;
      guid ← gets _transactionGuidIx;
      modify (λ p, p <| _outgoingTransactionGuidToChannelAndTransactionGuid ::= <[guid := (channel, transaction_guid)]> |>
                     <| _channelAndTransactionGuidToOutgoingTransactionGuid ::= <[(channel, transaction_guid) := guid]> |>);;
      mret guid
  end.

Definition _handleAuthenticatedMessage (channel : Channel) (msg : ClientToServer) : MP unit :=
  match msg with
  | DefineSchema name definition => onDefineSchema channel name definition
  | SubscribeNone schema typename => subscribe_upstream schema typename
  | Subscribe schema typename fnv isLazy => onSubscribe channel schema typename fnv isLazy
  | Flush guid => onFlush channel guid
  | LoadLazyObject schema typename identity => onLoadLazyObject channel schema typename identity
  | TransactionData writes set_adds set_removes key_versions index_versions transaction_guid prerequisites =>
      defer_or channel msg
        (guid ← outgoing_guid channel transaction_guid;
         num ← gets _transactionNum;
         tid ← lift_option TypeError num;
         subs (increaseSubscriptionIfNecessary channel set_adds tid);;
         toServer (TransactionData writes set_adds set_removes key_versions index_versions guid prerequisites))
  | CompleteTransaction as_of_version transaction_guid no_log =>
      defer_or channel msg
        (known ← gets _channelAndTransactionGuidToOutgoingTransactionGuid;
         match known !! (channel, transaction_guid) with
         | None => mret tt
         | Some guid =>
             modify (λ p, p <| _channelAndTransactionGuidToOutgoingTransactionGuid ::= delete (channel, transaction_guid) |>);;
             toServer (CompleteTransaction as_of_version guid no_log)
         end)
  | Heartbeat =>
      live ← gets _downstreamChannels;
      whenM (bool_decide (channel ∈ live)) (modify (λ p, p <| _channelToMissedHeartbeatCount ::= <[channel := 0]> |>))
  | _ => raise (UserException "Don't know how to handle ")
  end.

Definition onAuthenticate (channel : Channel) (token : string) (connectionIdentity : ObjectId) : MP unit :=
  p ← get_state;
  if bool_decide (channel ∈ _authenticatedDownstreamChannels p) then dropConnection channel
  else if bool_decide (token ≠ _authToken p) then dropConnection channel
  else
    modify (λ p, p <| _authenticatedDownstreamChannels ::= union {[channel]} |>);;
    n ← gets uuids_drawn;
    let guid := uuid4 n in
    modify (λ p, p <| uuids_drawn ::= S |> <| _guidToChannelRequestingIdentity ::= <[guid := channel]> |>);;
    toServer (RequestDependentConnectionId connectionIdentity guid).

Definition _handleClientToServerMessage (channel : Channel) (msg : ClientToServer) : MP unit :=
  p ← get_state;
  if bool_decide (channel ∉ _downstreamChannels p) then mret tt
  else
    match _connectionIdentity p with
    | None => modify (λ p, p <| _deferredMessagesAndEndpoints ::= λ l, l ++ [(channel, msg)] |>)
    | Some connectionIdentity =>
        match msg with
        | Authenticate token => onAuthenticate channel token connectionIdentity
        | _ =>
            if bool_decide (channel ∈ _authenticatedDownstreamChannels p) then _handleAuthenticatedMessage channel msg
            else match msg with
                 | Heartbeat => mret tt
                 | _ => dropConnection channel
                 end
        end
    end.

Definition handleClientToServerMessage := _handleClientToServerMessage.

(** ** Messages of the main server *)

Definition onInitialize (transaction_num : Z) (connIdentity : ObjectId) (identity_root : Z) : MP unit :=
  modify (λ p, p <| _connectionIdentity := Some connIdentity |> <| _identityRoot := Some identity_root |>
                 <| _transactionNum := Some transaction_num |>);;
  deferred ← gets _deferredMessagesAndEndpoints;
  forM deferred (λ '(channel, msg), _handleClientToServerMessage channel msg);;
  modify (λ p, p <| _deferredMessagesAndEndpoints := [] |>).

Definition onDependentConnectionId (guid : string) (connIdentity : ObjectId) (identity_root : Z) : MP unit :=
  p ← get_state;
  modify (λ p, p <| _guidToChannelRequestingIdentity ::= delete guid |>);;
  match _guidToChannelRequestingIdentity p !! guid with
  | Some channel =>
      if bool_decide (channel ∈ _downstreamChannels p) then
        modify (λ p, p <| _channelToConnectionId ::= <[channel := connIdentity]> |>);;
        num ← lift_option TypeError (_transactionNum p);
        toClient channel (Initialize num connIdentity identity_root)
      else toServer (DropDependentConnectionId connIdentity)
  | None => toServer (DropDependentConnectionId connIdentity)
  end.

Definition onSchemaMapping (schema : string) (mapping : gmap FieldDefinition FieldId) : MP unit :=
  p ← get_state;
  assertM (in_dict schema (_requestedSchemaIteration p));;
  let schemaIteration := default (-1) (_receivedSchemaIteration p !! schema) + 1 in
  modify (λ p, p <| _receivedSchemaIteration ::= <[schema := schemaIteration]> |>);;
  subs (mapSchema schema mapping);;
  modify (λ p, p <| _mappedSchemas ::= put2 schema schemaIteration mapping |>);;
  waiting ← gets _unmappedSchemasToChannels;
  modify (λ p, p <| _unmappedSchemasToChannels ::= delete (schema, schemaIteration) |>);;
  forM (elements (mm_get waiting (schema, schemaIteration))) (λ channel, toClient channel (SchemaMapping schema mapping)).

Definition onSubscriptionComplete (schema typename : string) (tid : Z) : MP unit :=
  channelsToMessageToSend ← subs (handleSubscriptionComplete schema typename tid);
  forM channelsToMessageToSend (λ '(channel, messages),
    forM messages (λ msg, handleClientToServerMessage channel msg)).

Definition onFlushResponse (guid : Z) : MP unit :=
  d ← gets _outgoingFlushGuidToChannelAndFlushGuid;
  match d !! guid with
  | None => mret tt
  | Some (channel, clientGuid) =>
      modify (λ p, p <| _outgoingFlushGuidToChannelAndFlushGuid ::= delete guid |>);;
      toClient channel (FlushResponse clientGuid)
  end.

Definition onTransactionResult (transaction_guid : Z) (success : bool) (badKey : BadKey) (isException : bool) : MP unit :=
  d ← gets _outgoingTransactionGuidToChannelAndTransactionGuid;
  match d !! transaction_guid with
  | None => mret tt
  | Some (channel, guid) =>
      modify (λ p, p <| _outgoingTransactionGuidToChannelAndTransactionGuid ::= delete transaction_guid |>);;
      toClient channel (TransactionResult guid success badKey isException)
  end.

Definition handleServerToClientMessage (msg : ServerToClient) : MP unit :=
  match msg with
  | Initialize transaction_num connIdentity identity_root => onInitialize transaction_num connIdentity identity_root
  | DependentConnectionId guid connIdentity identity_root => onDependentConnectionId guid connIdentity identity_root
  | SchemaMapping schema mapping => onSchemaMapping schema mapping
  | SubscriptionData _ _ _ values index_values _ => subs (handleSubscriptionData values index_values)
  | SubscriptionComplete schema typename _ tid => onSubscriptionComplete schema typename tid
  | Transaction writes set_adds set_removes tid => subs (handleTransaction writes set_adds set_removes tid)
  | FlushResponse guid => onFlushResponse guid
  | TransactionResult guid success badKey isException => onTransactionResult guid success badKey isException
  | _ => raise (UserException "Don't know how to handle ")
  end.

(** ** Runs *)

(** The calls that reach a proxy: a client connects or is lost, a client or the main server sends a
    message, the heartbeats are checked.  An exception leaves what was done so far. *)
Inductive input :=
  | Connects (channel : Channel)
  | Drops (channel : Channel)
  | FromClient (channel : Channel) (msg : ClientToServer)
  | FromServer (msg : ServerToClient)
  | Checks.

Definition handle_input (i : input) : MP unit :=
  match i with
  | Connects channel => addConnection channel
  | Drops channel => dropConnection channel
  | FromClient channel msg => handleClientToServerMessage channel msg
  | FromServer msg => handleServerToClientMessage msg
  | Checks => checkForDeadConnections
  end.

Definition start (authToken : string) : ProxyServer := (authenticate (new_ProxyServer authToken)).2.
Definition run_inputs (inputs : list input) (p : ProxyServer) : ProxyServer :=
  foldl (λ p i, (handle_input i p).2) p inputs.

End proxy.
