(* ===== verification/ProxyTheorems.v ===== *)
(** * Properties of the proxy

    What a proxy is for: one subscription on the main server per type, however many clients ask;
    results returned to the client that is waiting for them; the objects as the main server last
    sent them; and nothing for a client that has not authenticated. *)

From Stdlib Require Import Lia.
From stdpp Require Import options.
From S2P Require Import Prelude Schema Messages ProxyState Proxy.

Local Open Scope Z_scope.

Lemma preserves_subs {A} (J : SubscriptionState → Prop) (I : ProxyServer → Prop) (m : M SubscriptionState A) :
  preserves J m → (∀ p, I p → J (_subscriptionState p)) →
  (∀ p s, I p → J s → I (p <| _subscriptionState := s |>)) → preserves I (subs m).
Proof. intros Hm HIJ HJI. apply preserves_zoom. intros p Hp. apply HJI; [done|]. apply Hm. auto. Qed.

(** ** One subscription on the main server for each type *)

(** The types that the proxy asked the main server for, in order. *)
Definition asked (l : list Sent) : list (string * string) :=
  omap (λ m, match m with ToServer (Subscribe schema typename _ _) => Some (schema, typename) | _ => None end) l.

Lemma dom_delete_sub {V} `{Countable K} (d : gmap K V) (W : gset K) k : dom d ⊆ W → dom (delete k d) ⊆ W.
Proof. rewrite dom_delete_L. set_solver. Qed.
Lemma dom_insert_sub {V} `{Countable K} (d : gmap K V) (W : gset K) k v : k ∈ W → dom d ⊆ W → dom (<[k := v]> d) ⊆ W.
Proof. rewrite dom_insert_L. set_solver. Qed.

Section asked.
Context `{Serialization}.
Context (set_pop : gset (Channel * SubscriptionKey) → Channel * SubscriptionKey →
                   outcome (gset (Channel * SubscriptionKey))).
Context (dict_get_None : outcome (option bytes)).
Context (uuid4 : nat → string) (core_definition : SchemaDefinition).
#[local] Set Default Proof Using "Type*".

(** What the subscription state shows of the types: those asked for, and those that clients wait for. *)
Record calm (l : list (string * string)) (W : gset (string * string)) (s : SubscriptionState) : Prop := {
  calm_asked : asked (sent s) = l;
  calm_waiting : dom (subscriptionsPendingSubscriptionOnServer s) ⊆ W;
}.

Lemma calm_send l W msg : asked [msg] = [] → preserves (calm l W) (send msg).
Proof using Type.
  intros Hmsg. apply preserves_modify. intros s [Ha Hw]. split; [|exact Hw].
  unfold asked in *. cbn. by rewrite omap_app, Ha, Hmsg, app_nil_r.
Qed.

Ltac calm_step :=
  idtac; first [split_applied|
  lazymatch goal with
  | |- preserves _ (sendMessage _ _) => apply calm_send; reflexivity
  | |- preserves _ (send _) => apply calm_send; reflexivity
  | |- preserves _ (modify _) =>
      apply preserves_modify; intros ? [Ha Hw]; split;
        [cbn; repeat case_match; exact Ha
        |cbn; repeat case_match; first [exact Hw|by apply dom_delete_sub|by apply dom_insert_sub]]
  | |- preserves _ (λ s, (_, s)) => intros ? ?; assumption
  end].
Ltac calmly := preserve_with calm_step.

Lemma preserves_subscript `{Countable K} {V A} I (proj : SubscriptionState → gmap K V) k (f : V → M SubscriptionState A) :
  (∀ v s, proj s !! k = Some v → I s → I (f v s).2) → preserves I (subscript proj k ≫= f).
Proof using Type.
  intros Hf s Hs. unfold subscript. rewrite run_bind, run_bind, run_gets.
  destruct (proj s !! k) as [v|] eqn:Hk; cbn; [by apply Hf|done].
Qed.

(** Taking a subscription off the waiting list of its type. *)
Lemma calm_pop l W typ x :
  preserves (calm l W)
    (waiting ← subscript subscriptionsPendingSubscriptionOnServer typ;
     match set_pop waiting x with
     | Ok waiting => modify (λ s, s <| subscriptionsPendingSubscriptionOnServer ::= <[typ := waiting]> |>)
     | Raise e => raise e
     end).
Proof.
  apply preserves_subscript. intros w s Hw Hs. destruct (set_pop w x); [|done].
  destruct Hs as [Ha Hdom]. split; [exact Ha|]. cbn. apply dom_insert_sub; [|exact Hdom].
  apply Hdom. by apply elem_of_dom_2 in Hw.
Qed.
#[local] Hint Resolve calm_pop : py.

Lemma calm_drop l W c : preserves (calm l W) (SubscriptionState_dropConnection set_pop c).
Proof. calmly. Qed.
Lemma calm_sendData l W c k : preserves (calm l W) (sendDataForSubscription c k).
Proof. calmly. Qed.
#[local] Hint Resolve calm_sendData : py.
Lemma calm_add l W c k : (sk_schema k, sk_typename k) ∈ W → preserves (calm l W) (addSubscription c k).
Proof.
  intros Htyp. calmly.
Qed.

(** The types asked for are the ones on record, each once, and clients only wait for those. *)
Record pooled (p : ProxyServer) : Prop := {
  pooled_once : NoDup (asked (sent_of p));
  pooled_known t : t ∈ asked (sent_of p) ↔ t ∈ _subscribedTypes p;
  pooled_waiting : dom (subscriptionsPendingSubscriptionOnServer (_subscriptionState p)) ⊆ _subscribedTypes p;
}.

Lemma pooled_subs {A} (m : M SubscriptionState A) :
  (∀ l W, preserves (calm l W) m) → preserves pooled (subs m).
Proof using Type.
  intros Hm. apply preserves_zoom. intros p [Honce Hknown Hwaiting].
  specialize (Hm _ _ (_subscriptionState p) (Build_calm _ _ _ eq_refl Hwaiting)) as [Ha Hw].
  split; unfold sent_of in *; cbn -[asked] in *; by rewrite ?Ha.
Qed.

Lemma pooled_toServer msg : asked [ToServer msg] = [] → preserves pooled (toServer msg).
Proof using Type. intros Hmsg. apply pooled_subs. intros l W. by apply calm_send. Qed.

(** A client's subscription: its type is asked for first. *)
Lemma pooled_subscribe schema typename p :
  pooled p → pooled (subscribe_upstream schema typename p).2 ∧
    (schema, typename) ∈ _subscribedTypes (subscribe_upstream schema typename p).2.
Proof using Type.
  intros [Honce Hknown Hwaiting]. unfold subscribe_upstream. rewrite run_bind, run_gets. unfold whenM.
  case_bool_decide as Hnew; [|split; [by split|by destruct (decide ((schema, typename) ∈ _subscribedTypes p))]].
  rewrite run_bind. unfold toServer, subs, zoom, send. rewrite !run_modify. cbn -[asked].
  assert (asked (sent_of p ++ [ToServer (Subscribe schema typename None false)]) =
          asked (sent_of p) ++ [(schema, typename)]) as Hasked by (unfold asked; by rewrite omap_app).
  split; [|set_solver]. split; unfold sent_of in *; cbn -[asked]; rewrite ?Hasked.
  - apply NoDup_app. split_and!; [done| |apply NoDup_singleton]. set_solver.
  - intros t. set_solver.
  - set_solver.
Qed.

Lemma pooled_subscribed c k p :
  pooled p → (sk_schema k, sk_typename k) ∈ _subscribedTypes p → pooled (subs (addSubscription c k) p).2.
Proof using Type.
  intros [Honce Hknown Hwaiting] Htyp. unfold subs, zoom.
  pose proof (calm_add _ _ c k Htyp (_subscriptionState p) (Build_calm _ _ _ eq_refl Hwaiting)) as [Ha Hw].
  destruct (addSubscription c k (_subscriptionState p)) as [r s]. cbn -[asked] in *.
  split; unfold sent_of in *; cbn -[asked] in *; by rewrite ?Ha.
Qed.

Lemma pooled_onSubscribe c schema typename fnv isLazy : preserves pooled (onSubscribe c schema typename fnv isLazy).
Proof using Type.
  intros p Hp. unfold onSubscribe. rewrite run_bind, run_gets, run_bind, run_lift_option.
  destruct (_channelSchemas p !! (c, schema)); [|done]. rewrite run_bind.
  destruct (pooled_subscribe schema typename p Hp) as [Hp' Htyp].
  destruct (subscribe_upstream schema typename p) as [[u|e] p']; [|done]. by apply pooled_subscribed.
Qed.
Lemma pooled_ask schema typename : preserves pooled (subscribe_upstream schema typename).
Proof using Type. intros p Hp. by apply pooled_subscribe. Qed.

#[local] Hint Resolve pooled_ask pooled_onSubscribe : py.
#[local] Hint Extern 1 (preserves pooled (subs _)) => (apply pooled_subs; intros ? ?; calmly) : py.
#[local] Hint Extern 1 (preserves pooled (toServer _)) => (apply pooled_toServer; reflexivity) : py.
#[local] Hint Extern 1 (preserves pooled (toClient _ _)) => (apply pooled_subs; intros ? ?; calmly) : py.
#[local] Hint Extern 1 (preserves pooled (closeChannel _)) => (apply pooled_subs; intros ? ?; calmly) : py.

Ltac pooled_step :=
  idtac; first [split_applied | lazymatch goal with
  | |- preserves _ (modify _) =>
      apply preserves_modify; intros ? [Honce Hknown Hwaiting]; split; [exact Honce|exact Hknown|exact Hwaiting]
  end].
Ltac pool := preserve_with pooled_step.

Lemma pooled_drop c : preserves pooled (dropConnection set_pop c).
Proof using Type. pool. Qed.
#[local] Hint Resolve pooled_drop : py.
Lemma pooled_client c msg : preserves pooled (handleClientToServerMessage set_pop uuid4 c msg).
Proof using Type. pool. Qed.
#[local] Hint Resolve pooled_client : py.
Lemma pooled_input i : preserves pooled (handle_input set_pop dict_get_None uuid4 i).
Proof using Type. pool. Qed.
Lemma pooled_inputs token inputs :
  pooled (run_inputs set_pop dict_get_None uuid4 inputs (start core_definition token)).
Proof using Type.
  unfold run_inputs. induction inputs as [|i inputs IH] using rev_ind.
  - split; [constructor|set_solver|set_solver].
  - rewrite foldl_app. by apply pooled_input.
Qed.
End asked.

(** However many clients subscribe to it, the proxy subscribes to a type on the main server at
    most once, to the whole type and eagerly; the types it has on record are the ones it asked
    for, and no client waits for a type that it did not ask for. *)
Theorem one_upstream_subscription_per_type `{Serialization} set_pop dict_get_None uuid4 core token inputs :
  let p := run_inputs set_pop dict_get_None uuid4 inputs (start core token) in
  NoDup (asked (sent_of p)) ∧
  (∀ t, t ∈ asked (sent_of p) ↔ t ∈ _subscribedTypes p) ∧
  dom (subscriptionsPendingSubscriptionOnServer (_subscriptionState p)) ⊆ _subscribedTypes p.
Proof. intros p. destruct (pooled_inputs set_pop dict_get_None uuid4 core token inputs). done. Qed.

(** ** Results return to the client that waits for them *)

(** Transaction [g] belongs to the client [ct.1], which calls it [ct.2]; guids handed out so far
    are not handed out again. *)
Record pending_result (g : Z) (ct : Channel * Z) (p : ProxyServer) : Prop := {
  pr_owner : _outgoingTransactionGuidToChannelAndTransactionGuid p !! g = Some ct;
  pr_bound g' : is_Some (_outgoingTransactionGuidToChannelAndTransactionGuid p !! g') → g' <= _transactionGuidIx p;
}.
Definition guids_bounded (p : ProxyServer) : Prop :=
  ∀ g', is_Some (_outgoingTransactionGuidToChannelAndTransactionGuid p !! g') → g' <= _transactionGuidIx p.

Lemma bounded_insert (m : gmap Z (Channel * Z)) ix ct :
  (∀ g', is_Some (m !! g') → g' <= ix) → ∀ g', is_Some (<[ix + 1 := ct]> m !! g') → g' <= ix + 1.
Proof.
  intros Hb g'. rewrite lookup_insert. case_decide; [lia|]. intros Hg'. specialize (Hb g' Hg'). lia.
Qed.

Section results.
Context `{Serialization}.
Context (set_pop : gset (Channel * SubscriptionKey) → Channel * SubscriptionKey →
                   outcome (gset (Channel * SubscriptionKey))).
Context (dict_get_None : outcome (option bytes)).
Context (uuid4 : nat → string) (core_definition : SchemaDefinition).

Lemma outgoing_guid_run c t p :
  outgoing_guid c t p =
    match _channelAndTransactionGuidToOutgoingTransactionGuid p !! (c, t) with
    | Some g => (Ok g, p)
    | None =>
        let g := _transactionGuidIx p + 1 in
        (Ok g, p <| _transactionGuidIx := g |>
                 <| _outgoingTransactionGuidToChannelAndTransactionGuid ::= <[g := (c, t)]> |>
                 <| _channelAndTransactionGuidToOutgoingTransactionGuid ::= <[(c, t) := g]> |>)
    end.
Proof using Type.
  unfold outgoing_guid. rewrite run_bind, run_gets.
  destruct (_channelAndTransactionGuidToOutgoingTransactionGuid p !! (c, t)); [done|].
  by autorewrite with run.
Qed.

Lemma guid_bounded c t : preserves guids_bounded (outgoing_guid c t).
Proof using Type.
  intros p Hp. rewrite outgoing_guid_run. destruct (_ !! _); [done|]. exact (bounded_insert _ _ (c, t) Hp).
Qed.
Lemma guid_pending g ct c t : preserves (pending_result g ct) (outgoing_guid c t).
Proof using Type.
  intros p [Ho Hb]. rewrite outgoing_guid_run. destruct (_channelAndTransactionGuidToOutgoingTransactionGuid p !! (c, t)); [by split|]. split; [|exact (bounded_insert _ _ (c, t) Hb)].
  specialize (Hb g (ex_intro _ _ Ho)). cbn. by rewrite lookup_insert_ne by lia.
Qed.

Lemma pending_other g ct g' : g' ≠ g → preserves (pending_result g ct)
  (modify (λ p, p <| _outgoingTransactionGuidToChannelAndTransactionGuid ::= delete g' |>)).
Proof using Type.
  intros Hne. apply preserves_modify. intros p [Ho Hb]. split; cbn; [by rewrite lookup_delete_ne|].
  intros g'' Hg''. apply Hb. rewrite lookup_delete in Hg''. case_decide; [by destruct Hg''|done].
Qed.
Lemma bounded_delete g' : preserves guids_bounded
  (modify (λ p, p <| _outgoingTransactionGuidToChannelAndTransactionGuid ::= delete g' |>)).
Proof using Type.
  apply preserves_modify. intros p Hb g'' Hg''. apply Hb. cbn in *.
  rewrite lookup_delete in Hg''. case_decide; [by destruct Hg''|done].
Qed.

(** The subscription state takes no part in this. *)
Lemma bounded_subs {A} (m : M SubscriptionState A) : preserves guids_bounded (subs m).
Proof using Type. apply preserves_zoom. intros p Hp. exact Hp. Qed.
Lemma pending_subs {A} g ct (m : M SubscriptionState A) : preserves (pending_result g ct) (subs m).
Proof using Type. apply preserves_zoom. intros p [Ho Hb]. split; [exact Ho|exact Hb]. Qed.

#[local] Hint Resolve guid_bounded guid_pending bounded_delete bounded_subs pending_subs : py.
#[local] Hint Extern 1 (preserves (pending_result _ _) (modify _)) => (apply pending_other; congruence) : py.

Ltac result_step :=
  idtac; first [split_applied | lazymatch goal with
  | |- preserves guids_bounded (modify _) => apply preserves_modify; intros ? Hb; exact Hb
  | |- preserves (pending_result _ _) (modify _) =>
      apply preserves_modify; intros ? [Ho Hb]; split; [exact Ho|exact Hb]
  end].

Lemma bounded_client c msg : preserves guids_bounded (handleClientToServerMessage set_pop uuid4 c msg).
Proof using Type. preserve_with result_step. Qed.
Lemma pending_client g ct c msg : preserves (pending_result g ct) (handleClientToServerMessage set_pop uuid4 c msg).
Proof using Type. preserve_with result_step. Qed.
#[local] Hint Resolve bounded_client pending_client : py.

Lemma bounded_input i : preserves guids_bounded (handle_input set_pop dict_get_None uuid4 i).
Proof using Type. preserve_with result_step. Qed.

(** No result for [g] among the inputs. *)
Definition no_result (g : Z) (i : input) : Prop :=
  match i with FromServer (TransactionResult g' _ _ _) => g' ≠ g | _ => True end.

Lemma pending_input g ct i : no_result g i → preserves (pending_result g ct) (handle_input set_pop dict_get_None uuid4 i).
Proof using Type.
  intros Hi. destruct i as [c|c|c msg|msg|]; [preserve_with result_step..| |preserve_with result_step].
  destruct msg; preserve_with result_step.
Qed.

Lemma bounded_inputs inputs p : guids_bounded p → guids_bounded (run_inputs set_pop dict_get_None uuid4 inputs p).
Proof using Type.
  intros Hp. unfold run_inputs. induction inputs as [|i inputs IH] using rev_ind; [done|].
  rewrite foldl_app. by apply bounded_input.
Qed.
Lemma pending_inputs g ct inputs p :
  Forall (no_result g) inputs → pending_result g ct p →
  pending_result g ct (run_inputs set_pop dict_get_None uuid4 inputs p).
Proof using Type.
  intros Hi Hp. unfold run_inputs. induction inputs as [|i inputs IH] using rev_ind; [done|].
  apply Forall_app in Hi as [Hi [Hn _]%Forall_cons]. rewrite foldl_app. apply pending_input; auto.
Qed.
End results.

(** A live, authenticated client of a connected proxy. *)
Record served (c : Channel) (p : ProxyServer) : Prop := {
  served_live : c ∈ _downstreamChannels p;
  served_authenticated : c ∈ _authenticatedDownstreamChannels p;
  served_connected : is_Some (_connectionIdentity p);
}.

Lemma served_run `{Serialization} set_pop uuid4 c msg p :
  served c p → (∀ token, msg ≠ Authenticate token) →
  handleClientToServerMessage set_pop uuid4 c msg p = _handleAuthenticatedMessage set_pop c msg p.
Proof.
  intros [Hlive Hauth [id Hid]] Hmsg. unfold handleClientToServerMessage, _handleClientToServerMessage.
  rewrite run_bind. cbn [get_state]. rewrite bool_decide_false by (intros Hn; by apply Hn).
  rewrite Hid, (bool_decide_true (c ∈ _authenticatedDownstreamChannels p)) by done.
  destruct msg; try done. by destruct (Hmsg token).
Qed.

Lemma last_sent_toServer msg p :
  toServer msg p = (Ok tt, (toServer msg p).2) ∧ sent_of (toServer msg p).2 = sent_of p ++ [ToServer msg].
Proof. done. Qed.

(** A client's first message of a transaction: the guid it gets, and what the proxy sends last. *)
Lemma transaction_data_run `{Serialization} set_pop c w a r kv iv t pre p p' :
  channelToPendingSubscriptions (_subscriptionState p) !! c = None →
  _channelAndTransactionGuidToOutgoingTransactionGuid p !! (c, t) = None →
  guids_bounded p →
  _handleAuthenticatedMessage set_pop c (TransactionData w a r kv iv t pre) p = (Ok tt, p') →
  let g := _transactionGuidIx p + 1 in
  pending_result g (c, t) p' ∧ last (sent_of p') = Some (ToServer (TransactionData w a r kv iv g pre)).
Proof.
  intros Hpending Hnew Hb Hrun g. cbn [_handleAuthenticatedMessage] in Hrun. unfold defer_or in Hrun.
  rewrite run_bind, run_gets, Hpending, run_bind, outgoing_guid_run, Hnew in Hrun. cbv zeta in Hrun. fold g in Hrun.
  set (p1 := p <| _transactionGuidIx := g |> <| _outgoingTransactionGuidToChannelAndTransactionGuid ::= _ |>
               <| _channelAndTransactionGuidToOutgoingTransactionGuid ::= _ |>) in Hrun.
  assert (pending_result g (c, t) p1) as Hp1.
  { split; [cbn; by rewrite lookup_insert_eq|exact (bounded_insert _ _ (c, t) Hb)]. }
  clearbody p1. cbv beta iota in Hrun. rewrite run_bind, run_gets, run_bind, run_lift_option in Hrun.
  destruct (_transactionNum p1) as [tid|]; [|done]. rewrite run_bind in Hrun.
  pose proof (pending_subs g (c, t) (increaseSubscriptionIfNecessary c a tid) p1 Hp1) as Hp2.
  destruct (subs (increaseSubscriptionIfNecessary c a tid) p1) as [[[]|e] p2]; [|done]. cbn [snd] in Hp2.
  assert (p' = (toServer (TransactionData w a r kv iv g pre) p2).2) as -> by (by rewrite Hrun).
  split; [by apply pending_subs|]. destruct (last_sent_toServer (TransactionData w a r kv iv g pre) p2) as [_ ->].
  by rewrite last_snoc.
Qed.

(** The main server's result of a transaction. *)
Lemma result_run `{Serialization} set_pop dict_get_None uuid4 g c t success badKey isException p :
  pending_result g (c, t) p →
  ∃ p', handle_input set_pop dict_get_None uuid4 (FromServer (TransactionResult g success badKey isException)) p = (Ok tt, p') ∧
    sent_of p' = sent_of p ++ [ToClient c (TransactionResult t success badKey isException)] ∧
    _outgoingTransactionGuidToChannelAndTransactionGuid p' !! g = None.
Proof.
  intros [Ho _]. cbn [handle_input handleServerToClientMessage]. unfold onTransactionResult.
  rewrite run_bind, run_gets, Ho, run_bind, run_modify. unfold toClient, subs, zoom, send. rewrite run_modify.
  eexists. split; [reflexivity|]. split; [done|]. cbn. apply lookup_delete_eq.
Qed.

(** C22. When a client's transaction is passed on, it gets a guid of its own; whatever happens until
    the main server answers under that guid, the answer goes to that client, under the guid that
    the client used, and the guid is forgotten. *)
Theorem result_returns_to_its_client `{Serialization} set_pop dict_get_None uuid4 core token inputs c w a r kv iv t pre p p1
    (Hp : p = run_inputs set_pop dict_get_None uuid4 inputs (start core token))
    (Hserved : served c p) (Hpending : channelToPendingSubscriptions (_subscriptionState p) !! c = None)
    (Hnew : _channelAndTransactionGuidToOutgoingTransactionGuid p !! (c, t) = None)
    (Hrun : handle_input set_pop dict_get_None uuid4 (FromClient c (TransactionData w a r kv iv t pre)) p = (Ok tt, p1)) :
  ∃ g, last (sent_of p1) = Some (ToServer (TransactionData w a r kv iv g pre)) ∧
    ∀ more success badKey isException, Forall (no_result g) more →
      let p2 := run_inputs set_pop dict_get_None uuid4 more p1 in
      ∃ p3, handle_input set_pop dict_get_None uuid4 (FromServer (TransactionResult g success badKey isException)) p2 = (Ok tt, p3) ∧
        sent_of p3 = sent_of p2 ++ [ToClient c (TransactionResult t success badKey isException)] ∧
        _outgoingTransactionGuidToChannelAndTransactionGuid p3 !! g = None.
Proof.
  assert (guids_bounded p) as Hb.
  { subst p. apply bounded_inputs. intros g' [ct Hct]. done. }
  cbn [handle_input] in Hrun. rewrite served_run in Hrun by done.
  destruct (transaction_data_run set_pop c w a r kv iv t pre p p1 Hpending Hnew Hb Hrun) as [Hp1 Hlast].
  eexists. split; [exact Hlast|]. intros more success badKey isException Hmore p2.
  apply result_run. by apply pending_inputs.
Qed.

(** ** A proxy with one client *)

Module ProxyScenario.
#[local] Existing Instance Codec.codec.
Definition pop (s : gset (Channel * SubscriptionKey)) (x : Channel * SubscriptionKey) :
    outcome (gset (Channel * SubscriptionKey)) := Ok (s ∖ {[x]}).
Definition uuid (n : nat) : string := "guid".
Definition connect : list input :=
  [FromServer (Initialize 5 1 100); Connects 7; FromClient 7 (Authenticate "secret");
   FromServer (DependentConnectionId "guid" 2 101)].
Definition connected : ProxyServer := run_inputs pop (Ok None) uuid connect (start ∅ "secret").
Definition chunk (guid : Z) : ClientToServer := TransactionData ∅ ∅ ∅ [] [] guid ∅.
End ProxyScenario.

#[local] Existing Instance Codec.codec.

Lemma scenario_is_run :
  ProxyScenario.connected = run_inputs ProxyScenario.pop (Ok None) ProxyScenario.uuid ProxyScenario.connect (start ∅ "secret").
Proof. reflexivity. Qed.
Lemma scenario_served : served 7 ProxyScenario.connected.
Proof.
  split; [refine (bool_decide_eq_true_1 _ _); vm_compute; reflexivity
         |refine (bool_decide_eq_true_1 _ _); vm_compute; reflexivity|exists 1; vm_compute; reflexivity].
Qed.
Lemma scenario_nothing_pending :
  channelToPendingSubscriptions (_subscriptionState ProxyScenario.connected) !! 7%nat = None.
Proof. vm_compute. reflexivity. Qed.
Lemma scenario_new_guid :
  _channelAndTransactionGuidToOutgoingTransactionGuid ProxyScenario.connected !! (7%nat, 33) = None.
Proof. vm_compute. reflexivity. Qed.
Lemma scenario_step :
  ∃ p1, handle_input ProxyScenario.pop (Ok None) ProxyScenario.uuid (FromClient 7 (ProxyScenario.chunk 33))
          ProxyScenario.connected = (Ok tt, p1).
Proof. eexists. apply outcome_eta. vm_compute. reflexivity. Qed.

Lemma result_returns_to_its_client_witness :
  ∃ g p1, handle_input ProxyScenario.pop (Ok None) ProxyScenario.uuid (FromClient 7 (ProxyScenario.chunk 33))
            ProxyScenario.connected = (Ok tt, p1) ∧
    ∃ p3, handle_input ProxyScenario.pop (Ok None) ProxyScenario.uuid
            (FromServer (TransactionResult g true NoBadKey false))
            (run_inputs ProxyScenario.pop (Ok None) ProxyScenario.uuid [] p1) = (Ok tt, p3) ∧
      last (sent_of p3) = Some (ToClient 7 (TransactionResult 33 true NoBadKey false)).
Proof.
  destruct scenario_step as [p1 Hrun].
  destruct (result_returns_to_its_client ProxyScenario.pop (Ok None) ProxyScenario.uuid ∅ "secret"
    ProxyScenario.connect 7 ∅ ∅ ∅ [] [] 33 ∅ ProxyScenario.connected p1 scenario_is_run
    scenario_served scenario_nothing_pending scenario_new_guid Hrun) as (g & _ & Hmore).
  exists g, p1. split; [exact Hrun|].
  destruct (Hmore [] true NoBadKey false (Forall_nil_2 _)) as (p3 & H3 & Hsent & _).
  exists p3. split; [exact H3|]. rewrite Hsent. apply last_snoc.
Defined.
