(* ===== verification/ProxyMirror.v ===== *)
(** * The proxy's copy of the objects

    For every field of every object, the proxy keeps the value that the main server sent last,
    in the data of a subscription or in a transaction, whatever its clients do meanwhile. *)

From Stdlib Require Import Lia.
From stdpp Require Import options.
From S2P Require Import Prelude Schema Messages ProxyState Proxy.

Local Open Scope Z_scope.

(** What one message says about field [f] of object [o]: nothing, or its value ([None]: gone). *)
Definition mention (f : FieldId) (o : ObjectId) (i : input) : option (option bytes) :=
  match i with
  | FromServer (SubscriptionData _ _ _ values _ _) => values !! OFI o f false
  | FromServer (Transaction writes _ _ _) => writes !! OFI o f false
  | _ => None
  end.

(** The value mentioned last. *)
Definition last_value (f : FieldId) (o : ObjectId) (inputs : list input) : option bytes :=
  foldl (λ v i, default v (mention f o i)) None inputs.

(** Keys of values are not marked as keys of index values. *)
Definition proper_keys (m : gmap ObjectFieldId (option bytes)) : Prop :=
  map_Forall (λ k _, isIndexValue k = false) m.
Definition proper_input (i : input) : Prop :=
  match i with
  | FromServer (SubscriptionData _ _ _ values _ _) => proper_keys values
  | FromServer (Transaction writes _ _ _) => proper_keys writes
  | _ => True
  end.

Definition keeps (f : FieldId) (o : ObjectId) (v : option bytes) (s : SubscriptionState) : Prop :=
  get2 f o (objectValues s) = v.

(** ** Entries of the table *)

Lemma get2_touch (f f' : FieldId) (o : ObjectId) (d : gmap FieldId (gmap ObjectId bytes)) :
  get2 f o (touch f' d) = get2 f o d.
Proof.
  unfold get2, touch. rewrite lookup_insert. case_decide as Hf; [|done]. subst.
  destruct (d !! f); cbn; [done|]. apply lookup_empty.
Qed.

Lemma get2_update (f f' : FieldId) (o o' : ObjectId) v (d : gmap FieldId (gmap ObjectId bytes)) :
  get2 f o (update_entry f' o' v d) = if decide (f' = f ∧ o' = o) then v else get2 f o d.
Proof.
  assert (∀ x, get2 f o (<[f' := x]> d) = if decide (f' = f) then x !! o else get2 f o d) as Hins.
  { intros x. unfold get2. rewrite lookup_insert. by case_decide. }
  assert (∀ f, inner f d !! o = get2 f o d) as Hinner.
  { intros g. unfold inner, get2. destruct (d !! g); cbn; [done|]. apply lookup_empty. }
  destruct v as [v|]; cbn [update_entry]; unfold put2, remove2; rewrite Hins.
  - rewrite lookup_insert, Hinner. repeat case_decide; subst; naive_solver.
  - rewrite lookup_delete, Hinner. repeat case_decide; subst; naive_solver.
Qed.

(** One message's entries, put in one after the other. *)
Lemma get2_updates f o (l : list (ObjectFieldId * option bytes)) d :
  NoDup l.*1 → Forall (λ kv, isIndexValue kv.1 = false) l →
  get2 f o (foldl (λ d kv, update_entry (ofiFieldId kv.1) (objId kv.1) kv.2 d) d l) =
    default (get2 f o d) ((list_to_map l : gmap ObjectFieldId (option bytes)) !! OFI o f false).
Proof.
  revert d. induction l as [|[k v] l IH]; intros d Hnd Hproper; [by rewrite list_to_map_nil, lookup_empty|].
  apply NoDup_cons in Hnd as [Hk Hnd]. apply Forall_cons in Hproper as [Hkb Hproper]. cbn [fst snd] in *.
  rewrite list_to_map_cons. cbn [foldl fst snd]. rewrite IH by done. rewrite get2_update, lookup_insert.
  destruct k as [o' f' b]. cbn in *. subst b.
  destruct (decide (OFI o' f' false = OFI o f false)) as [Heq|Hne].
  - injection Heq as -> ->. rewrite decide_True by done.
    rewrite not_elem_of_list_to_map_1 by done. done.
  - rewrite decide_False by naive_solver. done.
Qed.

Lemma get2_message f o (m : gmap ObjectFieldId (option bytes)) d :
  proper_keys m →
  get2 f o (foldl (λ d kv, update_entry (ofiFieldId kv.1) (objId kv.1) kv.2 d) d (map_to_list m)) =
    default (get2 f o d) (m !! OFI o f false).
Proof.
  intros Hm. rewrite get2_updates, list_to_map_to_list; [done|apply NoDup_fst_map_to_list|].
  apply Forall_forall. intros [k v] Hkv. apply elem_of_map_to_list in Hkv. exact (Hm k v Hkv).
Qed.

(** ** Programs that leave the entry alone, and those that write a message to it *)

Section mirror.
Context `{Serialization}.
Context (set_pop : gset (Channel * SubscriptionKey) → Channel * SubscriptionKey →
                   outcome (gset (Channel * SubscriptionKey))).
Context (dict_get_None : outcome (option bytes)).
Context (uuid4 : nat → string) (core_definition : SchemaDefinition).
Context (f : FieldId) (o : ObjectId).

Ltac keep_step :=
  idtac; first [split_applied | lazymatch goal with
  | |- preserves _ (modify _) =>
      apply preserves_modify; intros ? Hv; first [exact Hv|unfold keeps in *; cbn; by rewrite get2_touch]
  | |- preserves _ (λ s, (_, s)) => intros ? Hv; exact Hv
  end].
Ltac keep := preserve_with keep_step.

(** The loop that writes the entries of a message. *)
Lemma run_entries (assertion : ObjectFieldId → bool) l s :
  Forall (λ kv, assertion kv.1 = true) l →
  forM l (λ '(key, valueData),
    assertM (assertion key);;
    modify (λ s, s <| objectValues ::= update_entry (ofiFieldId key) (objId key) valueData |>)) s =
  (Ok tt, s <| objectValues ::= λ d, foldl (λ d kv, update_entry (ofiFieldId kv.1) (objId kv.1) kv.2 d) d l |>).
Proof using Type.
  intros Hl. revert s. induction Hl as [|[k v] l Hk Hl IH]; intros s; [by destruct s|].
  rewrite run_forM_cons. cbn [fst] in Hk. rewrite Hk. rewrite run_bind, run_assertM, run_modify. by rewrite IH.
Qed.

Lemma run_apply_writes w s :
  apply_writes w s =
  (Ok tt, s <| objectValues ::= λ d, foldl (λ d kv, update_entry (ofiFieldId kv.1) (objId kv.1) kv.2 d) d (map_to_list w) |>).
Proof using Type.
  unfold apply_writes. generalize (map_to_list w). intros l. revert s.
  induction l as [|[k v] l IH]; intros s; [by destruct s|]. rewrite run_forM_cons, run_modify. by rewrite IH.
Qed.

Lemma keeps_writes w v s :
  proper_keys w → keeps f o v s →
  keeps f o (default v (w !! OFI o f false)) (s <| objectValues ::= λ d,
    foldl (λ d kv, update_entry (ofiFieldId kv.1) (objId kv.1) kv.2 d) d (map_to_list w) |>).
Proof using Type. unfold keeps. intros Hw <-. cbn. by apply get2_message. Qed.

(** What is left of a program preserves the entry. *)
Lemma keeps_rest {A} v (m : M SubscriptionState A) s : preserves (keeps f o v) m → keeps f o v s → keeps f o v (m s).2.
Proof using Type. auto. Qed.

Lemma data_mirrored values iv v s :
  proper_keys values → keeps f o v s →
  keeps f o (default v (values !! OFI o f false)) (handleSubscriptionData values iv s).2.
Proof using Type.
  intros Hp Hs. unfold handleSubscriptionData. rewrite run_bind, run_entries.
  - apply keeps_rest; [keep|by apply keeps_writes].
  - apply Forall_forall. intros [k x] Hk. apply elem_of_map_to_list in Hk. cbn. by rewrite (Hp k x Hk).
Qed.

Lemma keeps_prior v w : preserves (keeps f o v) (prior_values w).
Proof using Type. keep. Qed.

Lemma transaction_mirrored w a r tid v s :
  proper_keys w → keeps f o v s →
  keeps f o (default v (w !! OFI o f false)) (handleTransaction w a r tid s).2.
Proof using Type.
  intros Hp Hs. unfold handleTransaction. rewrite run_bind.
  pose proof (keeps_prior v w s Hs) as Hs1.
  assert (∃ prior s1, prior_values w s = (Ok prior, s1)) as (prior & s1 & Hprior).
  { unfold prior_values. rewrite run_bind. generalize (map_to_list w). intros l. clear.
    revert s. induction l as [|[k x] l IH]; intros s; [by do 2 eexists|].
    rewrite run_forM_cons, run_modify. apply IH. }
  rewrite Hprior in *. cbn [snd] in Hs1. cbv zeta. rewrite run_bind, run_apply_writes.
  apply keeps_rest; [keep|by apply keeps_writes].
Qed.

(** ** The proxy as a whole *)

Definition mirrors (v : option bytes) (p : ProxyServer) : Prop := keeps f o v (_subscriptionState p).

Lemma mirrors_subs {A} v (m : M SubscriptionState A) : preserves (keeps f o v) m → preserves (mirrors v) (subs m).
Proof using Type. intros Hm. apply preserves_zoom. intros p Hp. exact (Hm _ Hp). Qed.

#[local] Hint Extern 1 (preserves (mirrors _) (subs _)) => (apply mirrors_subs; keep) : py.
#[local] Hint Extern 1 (preserves (mirrors _) (toServer _)) => (apply mirrors_subs; keep) : py.
#[local] Hint Extern 1 (preserves (mirrors _) (toClient _ _)) => (apply mirrors_subs; keep) : py.
#[local] Hint Extern 1 (preserves (mirrors _) (closeChannel _)) => (apply mirrors_subs; keep) : py.

Ltac mirror_step :=
  idtac; first [split_applied | lazymatch goal with
  | |- preserves _ (modify _) => apply preserves_modify; intros ? Hv; exact Hv
  end].
Ltac mirroring := preserve_with mirror_step.

Lemma mirrors_drop v c : preserves (mirrors v) (dropConnection set_pop c).
Proof using Type. mirroring. Qed.
#[local] Hint Resolve mirrors_drop : py.
Lemma mirrors_client v c msg : preserves (mirrors v) (handleClientToServerMessage set_pop uuid4 c msg).
Proof using Type. mirroring. Qed.
#[local] Hint Resolve mirrors_client : py.

Lemma mirrors_input v i p :
  proper_input i → mirrors v p →
  mirrors (default v (mention f o i)) (handle_input set_pop dict_get_None uuid4 i p).2.
Proof using Type.
  intros Hi Hp. unfold mirrors in *.
  assert (mention f o i = None → preserves (mirrors v) (handle_input set_pop dict_get_None uuid4 i) →
    mirrors (default v (mention f o i)) (handle_input set_pop dict_get_None uuid4 i p).2) as Hother
    by (intros -> Hm; by apply Hm).
  destruct i as [c|c|c msg|msg|]; try (apply Hother; [done|mirroring]).
  destruct msg; try (apply Hother; [done|mirroring]); cbn [handle_input handleServerToClientMessage mention proper_input] in *.
  - pose proof (data_mirrored _ index_values v (_subscriptionState p) Hi Hp) as Hd. unfold subs, zoom.
    by destruct (handleSubscriptionData _ _ _).
  - pose proof (transaction_mirrored _ set_adds set_removes transaction_id v (_subscriptionState p) Hi Hp) as Hd.
    unfold subs, zoom. by destruct (handleTransaction _ _ _ _ _).
Qed.

Lemma mirrors_inputs token inputs :
  Forall proper_input inputs →
  mirrors (last_value f o inputs) (run_inputs set_pop dict_get_None uuid4 inputs (start core_definition token)).
Proof using Type.
  unfold run_inputs, last_value. induction inputs as [|i inputs IH] using rev_ind; intros Hproper; [done|].
  apply Forall_app in Hproper as [Hproper [Hi _]%Forall_cons]. rewrite !foldl_app. apply mirrors_input; auto.
Qed.
End mirror.

(** C23. The proxy's copy of a field of an object is the value that the main server sent last in
    subscription data or in a transaction, whatever clients connect, ask for, commit or drop in
    between and whatever exceptions their messages raise. *)
Theorem proxy_mirrors_main_server `{Serialization} set_pop dict_get_None uuid4 core token inputs f o
    (Hproper : Forall proper_input inputs) :
  get2 f o (objectValues (_subscriptionState (run_inputs set_pop dict_get_None uuid4 inputs (start core token)))) =
    last_value f o inputs.
Proof. exact (mirrors_inputs set_pop dict_get_None uuid4 core f o token inputs Hproper). Qed.

(** ** A proxy that holds a field of one object, which then changes *)

Module MirrorScenario.
#[local] Existing Instance Codec.codec.
Definition pop (s : gset (Channel * SubscriptionKey)) (x : Channel * SubscriptionKey) :
    outcome (gset (Channel * SubscriptionKey)) := Ok (s ∖ {[x]}).
Definition values (b : Byte.byte) : gmap ObjectFieldId (option bytes) := {[OFI 100 3 false := Some [b]]}.
Definition inputs : list input :=
  [FromServer (Initialize 5 1 100); Connects 7;
   FromServer (SubscriptionData "s" "T" None (values Byte.x01) ∅ None); Drops 7;
   FromServer (Transaction (values Byte.x02) ∅ ∅ 6)].
End MirrorScenario.

#[local] Existing Instance Codec.codec.

Lemma proxy_mirrors_main_server_witness :
  get2 3 100 (objectValues (_subscriptionState
    (run_inputs MirrorScenario.pop (Ok None) (λ _, "guid"%string) MirrorScenario.inputs (start ∅ "secret")))) =
  Some [Byte.x02].
Proof.
  rewrite (proxy_mirrors_main_server MirrorScenario.pop (Ok None) (λ _, "guid"%string) ∅ "secret"
             MirrorScenario.inputs 3 100).
  - vm_compute. reflexivity.
  - repeat constructor; cbn; unfold proper_keys, MirrorScenario.values; by apply map_Forall_singleton.
Defined.
