(* ===== verification/Views.v ===== *)
(** * Views and transactions ([object_database/view.py])

    A view reads one version of the objects, a transaction is a view that can write.  Which view
    is open is recorded twice, in the thread local [_cur_view] of the module and by the C++ class
    [View] of [View.hpp], whose life cycle is modelled here; the values read and written through
    it are its [Accesses].  The state is that of one thread, with the connection it uses; while
    the thread waits for the result of a commit the rest of the program changes only that
    connection.  Exceptions are without their arguments. *)

From stdpp Require Import options.
From S2P Require Import Prelude Schema Messages Connection.

Local Open Scope Z_scope.

Definition RevisionConflictException : exn := UserException "RevisionConflictException".
Definition ServerError : exn := UserException "ServerError".
Definition RuntimeError : exn := UserException "RuntimeError".
Definition CommitTimedOut : exn := UserException "Failed to get a commit".
Definition AnotherViewIsOpen : exn :=
  UserException "You can't open a view or transaction while another one is open.".

Record Accesses := {
  field_reads : gset ObjectFieldId;
  field_writes : gmap ObjectFieldId (option bytes);
  index_reads : gset IndexId;
  index_adds : gmap IndexId (gset ObjectId);
  index_removes : gmap IndexId (gset ObjectId);
}.
#[export] Instance Accesses_settable : Settable Accesses := λ r,
  {| field_reads := field_reads r; field_writes := field_writes r; index_reads := index_reads r;
     index_adds := index_adds r; index_removes := index_removes r |}.
Definition no_accesses : Accesses :=
  {| field_reads := ∅; field_writes := ∅; index_reads := ∅; index_adds := ∅; index_removes := ∅ |}.

(** The C++ object. *)
Record NativeView := {
  m_tid : Z;
  m_enclosing_view : option nat;
  m_is_entered : bool;
  m_ever_entered : bool;
  m_refcount_released : bool;
  m_accesses : Accesses;
}.
#[export] Instance NativeView_settable : Settable NativeView := λ r,
  {| m_tid := m_tid r; m_enclosing_view := m_enclosing_view r; m_is_entered := m_is_entered r;
     m_ever_entered := m_ever_entered r; m_refcount_released := m_refcount_released r; m_accesses := m_accesses r |}.

(** [View], or [Transaction] when it is writeable *)
Record View := {
  _writeable : bool;
  _transaction_num : Z;
  _view : NativeView;
  _confirmCommitCallback : option nat;
  _commitTimeout : option Z;
  _no_log : bool;
}.
#[export] Instance View_settable : Settable View := λ r,
  {| _writeable := _writeable r; _transaction_num := _transaction_num r; _view := _view r;
     _confirmCommitCallback := _confirmCommitCallback r; _commitTimeout := _commitTimeout r; _no_log := _no_log r |}.

(** What a watcher is shown of a view that is closed; [cv_flag] is the second argument of the
    callback. *)
Record ClosedView := { cv_watcher : nat; cv_view : nat; cv_flag : bool; cv_accesses : Accesses }.

Record Thread := {
  cur_view : option nat;                (* [_cur_view.view] *)
  cur_watchers : option (gset nat);     (* [_cur_view.watchers] *)
  s_current_view : option nat;          (* the C++ thread local *)
  view_objects : gmap nat View;
  next_ref : nat;                       (* for view objects and result queues *)
  identities : nat;                     (* how often [allocateIdentity] was called *)
  closed_views : list ClosedView;       (* the calls of watchers *)
  db : DatabaseConnection;
}.
#[export] Instance Thread_settable : Settable Thread := λ r,
  {| cur_view := cur_view r; cur_watchers := cur_watchers r; s_current_view := s_current_view r;
     view_objects := view_objects r; next_ref := next_ref r; identities := identities r;
     closed_views := closed_views r; db := db r |}.

Definition watchers (s : Thread) : gset nat := default ∅ (cur_watchers s).

Section views.
(** [_connection_state.allocateIdentity()], the n-th time *)
Context (allocateIdentity : nat → Z).
(** [result_queue.get(timeout)] for the queue that is behind a callback, [None] for [queue.Empty],
    with what happens on the connection in the meantime *)
Context (result_queue_get : nat → option Z → M DatabaseConnection (option CommitOutcome)).
(** the callback of [noconfirm] *)
Context (ignoreConfirmResult : nat).
(** What the callback of a watcher raises, if it does, for a view and its second argument.  What it
    does otherwise is left out, but for the call itself. *)
Context (callback_raises : nat → nat → bool → option exn).

Abbreviation MT := (M Thread).

Definition the_view (v : nat) : MT View :=
  objects ← gets view_objects; lift_option AttributeError (objects !! v).
Definition upd_view (v : nat) (f : View → View) : MT unit :=
  modify (λ s, s <| view_objects ::= alter f v |>).

(** ** The C++ class *)

Definition native_enter (v : nat) : MT unit :=
  view ← the_view v;
  let nv := _view view in
  if m_refcount_released nv then raise RuntimeError
  else if m_is_entered nv || m_ever_entered nv then raise RuntimeError
  else
    enclosing ← gets s_current_view;
    upd_view v (λ view, view <| _view ::= λ nv,
      nv <| m_ever_entered := true |> <| m_is_entered := true |> <| m_enclosing_view := enclosing |> |>);;
    modify (λ s, s <| s_current_view := Some v |>).

Definition native_exit (v : nat) : MT unit :=
  view ← the_view v;
  if negb (m_is_entered (_view view)) then raise RuntimeError
  else
    modify (λ s, s <| s_current_view := m_enclosing_view (_view view) |>);;
    upd_view v (λ view, view <| _view ::= λ nv, nv <| m_is_entered := false |> <| m_enclosing_view := None |> |>).

Definition releaseRefcount (v : nat) : MT unit :=
  upd_view v (λ view, view <| _view ::= λ nv, nv <| m_refcount_released := true |> |>).

(** ** What was read and written, and marking something as read *)

Definition native_accesses (v : nat) : MT Accesses := view ← the_view v; mret (m_accesses (_view view)).
Definition markFieldRead (v : nat) (field_id : FieldId) (oid : ObjectId) : MT unit :=
  upd_view v (λ view, view <| _view ::= λ nv, nv <| m_accesses ::= λ a, a <| field_reads ::= union {[OFI oid field_id false]} |> |> |>).
Definition markIndexRead (v : nat) (field_id : FieldId) (value : IndexValue) : MT unit :=
  upd_view v (λ view, view <| _view ::= λ nv, nv <| m_accesses ::= λ a, a <| index_reads ::= union {[IXI field_id value]} |> |> |>).
Definition getFieldReads (v : nat) : MT (gset ObjectFieldId) := a ← native_accesses v; mret (field_reads a).
Definition getFieldWrites (v : nat) : MT (gmap ObjectFieldId (option bytes)) := a ← native_accesses v; mret (field_writes a).
Definition getIndexReads (v : nat) : MT (gset IndexId) := a ← native_accesses v; mret (index_reads a).
Definition getIndexWrites (v : nat) : MT (gset IndexId) :=
  a ← native_accesses v; mret (dom (index_adds a) ∪ dom (index_removes a)).

(** ** Making views: [DatabaseConnection.view] and [transaction] *)

Definition View_init (writeable : bool) (transaction_id : Z) : View :=
  {| _writeable := writeable; _transaction_num := transaction_id;
     _view := {| m_tid := transaction_id; m_enclosing_view := None; m_is_entered := false; m_ever_entered := false;
                 m_refcount_released := false; m_accesses := no_accesses |};
     _confirmCommitCallback := None; _commitTimeout := None; _no_log := false |}.

Definition make_view (writeable : bool) (transaction_id : option Z) : MT nat :=
  conn ← gets db;
  if disconnected conn then raise DisconnectedException
  else
    let tid := default (cur_transaction_num conn) transaction_id in
    assertM (bool_decide (tid <= cur_transaction_num conn));;
    v ← gets next_ref;
    modify (λ s, s <| next_ref ::= S |> <| view_objects ::= <[v := View_init writeable tid]> |>);;
    mret v.

Definition view := make_view false.
Definition transaction := make_view true.

Definition onConfirmed (v : nat) (callback : nat) : MT unit :=
  upd_view v (λ view, view <| _confirmCommitCallback := Some callback |>).
Definition noconfirm (v : nat) : MT unit := onConfirmed v ignoreConfirmResult.
Definition noLog (v : nat) : MT unit := upd_view v (λ view, view <| _no_log := true |>).
Definition withCommitTimeout (v : nat) (timeout : Z) : MT unit :=
  upd_view v (λ view, view <| _commitTimeout := Some timeout |>).

Definition current_transaction : MT (option nat) := gets cur_view.

(** ** Committing *)

(** what the result of a commit means to the thread that waits for it *)
Definition commit_result (res : option CommitOutcome) : MT unit :=
  match res with
  | None => raise CommitTimedOut
  | Some CommitSuccess => mret tt
  | Some CommitDisconnected => raise DisconnectedException
  | Some (RevisionConflict key) => raise RevisionConflictException
  | Some (ServerException traceback) => raise ServerError
  end.

Definition nonempty_sets (m : gmap IndexId (gset ObjectId)) : gmap IndexId (gset ObjectId) :=
  filter (λ kv, kv.2 ≠ ∅) m.

Definition commit (v : nat) : MT unit :=
  view ← the_view v;
  if negb (_writeable view) then raise (UserException "Views are static. Please open a transaction.")
  else
    let a := m_accesses (_view view) in
    if bool_decide (field_writes a = ∅) then mret tt
    else
      q ← gets next_ref;
      let confirmCallback := default q (_confirmCommitCallback view) in
      modify (λ s, s <| next_ref ::= S |>);;
      n ← gets identities;
      modify (λ s, s <| identities ::= S |>);;
      zoom db (_createTransaction (allocateIdentity n) (field_writes a) (nonempty_sets (index_adds a))
                 (nonempty_sets (index_removes a)) (elements (field_reads a)) (elements (index_reads a))
                 (_transaction_num view) confirmCallback (_no_log view));;
      releaseRefcount v;;
      match _confirmCommitCallback view with
      | Some _ => mret tt
      | None =>
          res ← zoom db (result_queue_get confirmCallback (_commitTimeout view));
          commit_result res
      end.

(** ** Opening and closing *)

Definition __enter__ (v : nat) : MT unit :=
  cur ← gets cur_view;
  if bool_decide (is_Some cur) then raise AnotherViewIsOpen
  else
    modify (λ s, s <| cur_view := Some v |>);;
    native_enter v.

(** [del _cur_view.view] *)
Definition del_cur_view : MT unit :=
  cur ← gets cur_view;
  lift_option AttributeError cur;;
  modify (λ s, s <| cur_view := None |>).

Definition call_watcher (v : nat) (flag : bool) (w : nat) : MT unit :=
  view ← the_view v;
  modify (λ s, s <| closed_views ::= λ l, l ++
    [{| cv_watcher := w; cv_view := v; cv_flag := flag; cv_accesses := m_accesses (_view view) |}] |>);;
  match callback_raises w v flag with Some e => raise e | None => mret tt end.

(** [fine]: the block ended without an exception ([type is None]) *)
Definition __exit__ (v : nat) (fine : bool) : MT unit :=
  del_cur_view;;
  native_exit v;;
  ws ← gets watchers;
  forM (elements ws) (call_watcher v fine);;
  view ← the_view v;
  if fine && _writeable view then commit v else releaseRefcount v.

(** [with enter: body], where [leave] is told whether the body ended without an exception *)
Definition withM {A} (enter : MT unit) (leave : bool → MT unit) (body : MT A) : MT A := λ s,
  match enter s with
  | (Raise e, s) => (Raise e, s)
  | (Ok _, s) =>
      match body s with
      | (Ok a, s) => (leave true;; mret a) s
      | (Raise e, s) => (leave false;; raise e) s
      end
  end.

Definition with_view {A} (v : nat) (body : MT A) : MT A := withM (__enter__ v) (__exit__ v) body.

(** [with v.nocommit():] *)
Definition nocommit_enter (v : nat) : MT unit :=
  cur ← gets cur_view;
  assertM (bool_decide (cur = None));;
  modify (λ s, s <| cur_view := Some v |>);;
  native_enter v.
Definition nocommit_exit (v : nat) : MT unit := del_cur_view;; native_exit v.
Definition with_nocommit {A} (v : nat) (body : MT A) : MT A :=
  withM (nocommit_enter v) (λ _, nocommit_exit v) body.

(** [with MaskView():] *)
Definition mask_exit (saved : option nat) : MT unit :=
  match saved with
  | Some v => modify (λ s, s <| cur_view := Some v |>)
  | None => mret tt
  end.
Definition with_mask {A} (body : MT A) : MT A :=
  saved ← gets cur_view;
  withM (modify (λ s, s <| cur_view := None |>)) (λ _, mask_exit saved) body.

(** [with ViewWatcher(callback):] *)
Definition watcher_enter (w : nat) : MT unit :=
  modify (λ s, s <| cur_watchers := Some ({[w]} ∪ watchers s) |>).
Definition watcher_exit (w : nat) : MT unit :=
  ws ← gets cur_watchers;
  ws ← lift_option AttributeError ws;
  modify (λ s, s <| cur_watchers := Some (ws ∖ {[w]}) |>).
Definition with_watcher {A} (w : nat) (body : MT A) : MT A := withM (watcher_enter w) (λ _, watcher_exit w) body.

(** ** Trying again after a conflict *)

Fixpoint retry {S A} (tries : nat) (f : M S A) : M S A := λ s,
  match tries with
  | O => raise RevisionConflictException s
  | Datatypes.S tries =>
      match f s with
      | (Raise e, s') => if bool_decide (e = RevisionConflictException) then retry tries f s' else (Raise e, s')
      | r => r
      end
  end.
Definition MAX_TRIES : nat := 100.
Definition revisionConflictRetry {S A} (f : M S A) : M S A := retry MAX_TRIES f.

(** ** Code that uses views *)

(** Reads and writes go to the view that the C++ side regards as the current one. *)
Definition access (f : Accesses → Accesses) : MT unit :=
  cur ← gets s_current_view;
  v ← lift_option (UserException "Please access properties from within a view or transaction.") cur;
  upd_view v (λ view, view <| _view ::= λ nv, nv <| m_accesses ::= f |> |>).

Inductive block :=
  | BAccess (f : Accesses → Accesses)
  | BRaise (e : exn)
  | BSeq (b1 b2 : block)
  | BTry (b handler : block)                (* [try: b except Exception: handler] *)
  | BView (v : nat) (b : block)
  | BNocommit (v : nat) (b : block)
  | BMask (b : block)
  | BWatch (w : nat) (b : block).

Fixpoint run_block (b : block) : MT unit :=
  match b with
  | BAccess f => access f
  | BRaise e => raise e
  | BSeq b1 b2 => run_block b1;; run_block b2
  | BTry b handler => tryM (run_block b) (λ _, run_block handler)
  | BView v b => with_view v (run_block b)
  | BNocommit v b => with_nocommit v (run_block b)
  | BMask b => with_mask (run_block b)
  | BWatch w b => with_watcher w (run_block b)
  end.

End views.
