(* ===== verification/ViewTheorems.v ===== *)
(** * What views and transactions guarantee

    Blocks of code that open, mask and watch views, in any nesting, restore what they found,
    whatever exceptions they raise; a transaction returns normally exactly when it was accepted;
    and a block that is retried is run a bounded number of times. *)

From Stdlib Require Import Lia.
From stdpp Require Import options.
From S2P Require Import Prelude Schema Messages Connection Views.

Local Open Scope Z_scope.

(** ** The life of a view *)

Record Life := {
  l_entered : bool; l_ever : bool; l_released : bool; l_enclosing : option nat
}.
Definition life_of (view : View) : Life :=
  {| l_entered := m_is_entered (_view view); l_ever := m_ever_entered (_view view);
     l_released := m_refcount_released (_view view); l_enclosing := m_enclosing_view (_view view) |}.
Definition life (s : Thread) (v : nat) : option Life := life_of <$> view_objects s !! v.

(** A view that was never entered. *)
Definition unused (s : Thread) (v : nat) : Prop :=
  ∃ l, life s v = Some l ∧ l_entered l = false ∧ l_ever l = false ∧ l_released l = false.

(** The thread is where it was, and only the views of [own] were entered or released. *)
Record same_scope (own : list nat) (s s' : Thread) : Prop := {
  same_cur : cur_view s' = cur_view s;
  same_native : s_current_view s' = s_current_view s;
  same_watchers : watchers s' = watchers s;
  same_lives : ∀ v, v ∉ own → life s' v = life s v;
}.

Lemma same_scope_refl own s : same_scope own s s.
Proof. by split. Qed.

Lemma same_scope_trans own1 own2 s1 s2 s3 :
  same_scope own1 s1 s2 → same_scope own2 s2 s3 → same_scope (own1 ++ own2) s1 s3.
Proof.
  intros [C1 N1 W1 L1] [C2 N2 W2 L2]. split; [congruence..|].
  intros v [H1 H2]%not_elem_of_app. by rewrite L2, L1.
Qed.

Lemma unused_same own s s' v : same_scope own s s' → v ∉ own → unused s v → unused s' v.
Proof. intros [_ _ _ L] Hv (l & Hl & H). exists l. by rewrite L. Qed.

(** ** The views and watchers of a block *)

Fixpoint views_of (b : block) : list nat :=
  match b with
  | BAccess _ | BRaise _ => []
  | BSeq b1 b2 | BTry b1 b2 => views_of b1 ++ views_of b2
  | BView v b | BNocommit v b => v :: views_of b
  | BMask b | BWatch _ b => views_of b
  end.
Fixpoint watchers_of (b : block) : list nat :=
  match b with
  | BAccess _ | BRaise _ => []
  | BSeq b1 b2 | BTry b1 b2 => watchers_of b1 ++ watchers_of b2
  | BView _ b | BNocommit _ b | BMask b => watchers_of b
  | BWatch w b => w :: watchers_of b
  end.
(** No watcher is set inside its own scope; it may be set again afterwards. *)
Fixpoint unnested (b : block) : bool :=
  match b with
  | BAccess _ | BRaise _ => true
  | BSeq b1 b2 | BTry b1 b2 => unnested b1 && unnested b2
  | BView _ b | BNocommit _ b | BMask b => unnested b
  | BWatch w b => bool_decide (w ∉ watchers_of b) && unnested b
  end.

(** ** Single operations *)

Lemma life_upd s v v' f :
  life (s <| view_objects ::= alter f v |>) v' =
    if decide (v = v') then (λ view, life_of (f view)) <$> view_objects s !! v' else life s v'.
Proof.
  unfold life. cbn. case_decide as Hv; subst.
  - rewrite lookup_alter_eq. by destruct (view_objects s !! v').
  - by rewrite lookup_alter_ne.
Qed.

(** Computations that do not touch what this file is about. *)
Definition quiet {A} (m : M Thread A) : Prop := ∀ own s0, preserves (same_scope own s0) m.

Lemma quiet_modify f :
  (∀ s, cur_view (f s) = cur_view s ∧ s_current_view (f s) = s_current_view s ∧
        cur_watchers (f s) = cur_watchers s ∧ ∀ v, life (f s) v = life s v) → quiet (modify f).
Proof.
  intros Hf own s0. apply preserves_modify. intros s [C N W L]. destruct (Hf s) as (Hc & Hn & Hw & Hl).
  split; [congruence|congruence|unfold watchers in *; congruence|]. intros v Hv. by rewrite Hl, L.
Qed.

Lemma quiet_accesses v (f : Accesses → Accesses) :
  quiet (upd_view v (λ view, view <| _view ::= λ nv, nv <| m_accesses ::= f |> |>)).
Proof.
  apply quiet_modify. intros s. split_and!; try done. intros v'. rewrite life_upd. case_decide; [|done].
  unfold life. by destruct (view_objects s !! v').
Qed.

Section scope.
Context (allocateIdentity : nat → Z).
Context (result_queue_get : nat → option Z → M DatabaseConnection (option CommitOutcome)).
Context (callback_raises : nat → nat → bool → option exn).
Abbreviation run := (run_block allocateIdentity result_queue_get callback_raises).

Lemma quiet_zoom {A} (m : M DatabaseConnection A) : quiet (zoom db m).
Proof using Type.
  intros own s0 s H. unfold zoom. destruct (m (db s)) as [r c]. destruct H as [C N W L]. by split.
Qed.

Lemma releases v own s0 : v ∈ own → preserves (same_scope own s0) (releaseRefcount v).
Proof using Type.
  intros Hv. apply preserves_modify. intros s [C N W L]. split; [done..|].
  intros v' Hv'. rewrite life_upd. rewrite decide_False by (intros ->; done). by apply L.
Qed.

Ltac scope_step :=
  idtac; lazymatch goal with
  | |- preserves _ (zoom db _) => apply quiet_zoom
  | |- preserves _ (releaseRefcount _) => by apply releases
  | |- preserves _ (modify _) => apply quiet_modify; by intros
  end.

Lemma commits v own s0 : v ∈ own → preserves (same_scope own s0) (commit allocateIdentity result_queue_get v).
Proof using Type. intros Hv. unfold commit, the_view, commit_result. preserve_with scope_step. Qed.

Lemma tells v fine own s0 ws : preserves (same_scope own s0) (forM ws (call_watcher callback_raises v fine)).
Proof using Type. unfold call_watcher, the_view. preserve_with scope_step. Qed.

(** ** Entering and leaving *)

Definition entered (v : nat) (outer : option nat) (s : Thread) : Prop :=
  cur_view s = Some v ∧ s_current_view s = Some v ∧
  ∃ l, life s v = Some l ∧ l_entered l = true ∧ l_enclosing l = outer.

(** Entering an unused view, from a thread that has none open. *)
Lemma enters v s :
  unused s v →
  ∃ s1, native_enter v (s <| cur_view := Some v |>) = (Ok tt, s1) ∧ entered v (s_current_view s) s1 ∧
    watchers s1 = watchers s ∧ ∀ v', v' ≠ v → life s1 v' = life s v'.
Proof using Type.
  intros (l & Hl & He & Hv & Hr). unfold life in Hl. apply fmap_Some in Hl as (view & Hview & ->).
  cbn in He, Hv, Hr. unfold native_enter, the_view. rewrite !run_bind, run_gets. cbn [view_objects]. cbn.
  rewrite Hview. cbn. rewrite Hr, He, Hv. cbn. eexists. split; [reflexivity|]. split_and!; cbn.
  - split; [done|]. split; [done|]. eexists. split; [unfold life; cbn; rewrite lookup_alter_eq, Hview; reflexivity|done].
  - done.
  - intros v' Hv'. unfold life. cbn. by rewrite lookup_alter_ne.
Qed.

Lemma native_exits v outer s :
  entered v outer s →
  ∃ s1, native_exit v (s <| cur_view := None |>) = (Ok tt, s1) ∧ cur_view s1 = None ∧ s_current_view s1 = outer ∧
    watchers s1 = watchers s ∧ ∀ v', v' ≠ v → life s1 v' = life s v'.
Proof using Type.
  intros (_ & _ & l & Hl & He & <-). unfold life in Hl. apply fmap_Some in Hl as (view & Hview & ->).
  cbn in He. unfold native_exit, the_view. rewrite !run_bind, run_gets. cbn. rewrite Hview. cbn. rewrite He. cbn.
  eexists. split; [reflexivity|]. split_and!; [done..|]. intros v' Hv'. unfold life. cbn. by rewrite lookup_alter_ne.
Qed.

Lemma leaves v outer s fine :
  entered v outer s →
  let s' := (__exit__ allocateIdentity result_queue_get callback_raises v fine s).2 in
  cur_view s' = None ∧ s_current_view s' = outer ∧ watchers s' = watchers s ∧
  ∀ v', v' ≠ v → life s' v' = life s v'.
Proof using Type.
  intros Hs. destruct (native_exits v outer s Hs) as (s1 & Hrun & Hc & Hn & Hw & Hl). destruct Hs as (Hcur & _ & _).
  unfold __exit__, del_cur_view. rewrite !run_bind, run_gets, Hcur, run_bind, run_lift_option, run_modify, run_bind, Hrun.
  rewrite run_bind, run_gets.
  assert (preserves (same_scope [v] s1) (forM (elements (watchers s1)) (call_watcher callback_raises v fine);; (view ← the_view v;
     if fine && _writeable view then commit allocateIdentity result_queue_get v else releaseRefcount v))) as Hrest.
  { apply preserves_bind; [apply tells|]. intros _. apply preserves_bind; [unfold the_view; preserve_with scope_step|].
    intros view. destruct (fine && _writeable view); [apply commits|apply releases]; set_solver. }
  destruct (Hrest s1 (same_scope_refl _ _)) as [C N W L]. split_and!; [congruence..|].
  intros v' Hv'. rewrite L by set_solver. by apply Hl.
Qed.

(** ** Blocks *)

(** What holds after entering, the body and leaving. *)
Lemma withM_post {A} (P : Thread → Prop) (enter : M Thread unit) leave (body : M Thread A) s :
  (∀ e s1, enter s = (Raise e, s1) → P s1) →
  (∀ s1, enter s = (Ok tt, s1) → ∀ fine, P (leave fine (body s1).2).2) →
  P (withM enter leave body s).2.
Proof using Type.
  intros He Hb. unfold withM. destruct (enter s) as [[[]|e] s1]; [|by apply (He e)].
  specialize (Hb s1 eq_refl). destruct (body s1) as [[a|e] s2]; cbn in Hb.
  - specialize (Hb true). rewrite run_bind. by destruct (leave true s2) as [[[]|?] s3].
  - specialize (Hb false). rewrite run_bind. by destruct (leave false s2) as [[[]|?] s3].
Qed.

(** A view that is entered by [enter], left by [leave], with a body that restores its scope. *)
Lemma scope_of_view {A} v own leave (body : M Thread A) s :
  unused s v → cur_view s = None → v ∉ own →
  (∀ s1, entered v (s_current_view s) s1 → (∀ v', v' ≠ v → life s1 v' = life s v') → watchers s1 = watchers s →
    same_scope own s1 (body s1).2) →
  (∀ fine s2, entered v (s_current_view s) s2 →
    let s3 := (leave fine s2).2 in
    cur_view s3 = None ∧ s_current_view s3 = s_current_view s ∧ watchers s3 = watchers s2 ∧
    ∀ v', v' ≠ v → life s3 v' = life s2 v') →
  same_scope (v :: own) s
    (withM (modify (λ s, s <| cur_view := Some v |>);; native_enter v) leave body s).2.
Proof using Type.
  intros Hv Hcur Hown Hbody Hleave. destruct (enters v s Hv) as (s1 & Hrun & Hs1 & Hw1 & Hl1).
  apply withM_post; rewrite run_bind, run_modify, Hrun; [done|]. intros s' [= <-] fine.
  destruct (Hbody s1 Hs1 Hl1 Hw1) as [C N W L].
  assert (entered v (s_current_view s) (body s1).2) as Hs2.
  { destruct Hs1 as (Hc & Hn & l & Hl & H). split; [congruence|]. split; [congruence|]. exists l. by rewrite L. }
  destruct (Hleave fine _ Hs2) as (C3 & N3 & W3 & L3). split; [congruence..|].
  intros v' [Hne Hv']%not_elem_of_cons. by rewrite L3, L, Hl1.
Qed.

Lemma nocommit_leaves v outer s :
  entered v outer s →
  let s' := (nocommit_exit v s).2 in
  cur_view s' = None ∧ s_current_view s' = outer ∧ watchers s' = watchers s ∧ ∀ v', v' ≠ v → life s' v' = life s v'.
Proof using Type.
  intros Hs. destruct (native_exits v outer s Hs) as (s1 & Hrun & Hc & Hn & Hw & Hl). destruct Hs as (Hcur & _ & _).
  unfold nocommit_exit, del_cur_view. by rewrite !run_bind, run_gets, Hcur, run_bind, run_lift_option, run_modify, Hrun.
Qed.

(** The views of a block are new to the thread and used once; its watchers are not set. *)
Record ready (b : block) (s : Thread) : Prop := {
  ready_views : NoDup (views_of b);
  ready_watchers : unnested b = true;
  ready_unused : ∀ v, v ∈ views_of b → unused s v;
  ready_unwatched : ∀ w, w ∈ watchers_of b → w ∉ watchers s;
}.

Lemma ready_first b1 b2 b s :
  views_of b = views_of b1 ++ views_of b2 → watchers_of b = watchers_of b1 ++ watchers_of b2 →
  unnested b = unnested b1 && unnested b2 → ready b s → ready b1 s.
Proof using Type.
  intros Hv Hw Hu [V W U N]. rewrite Hv in V, U. rewrite Hw in N. rewrite Hu in W. apply andb_prop in W. apply NoDup_app in V.
  split; [naive_solver..| |].
  - intros v Hin. apply U, elem_of_app. by left.
  - intros w Hin. apply N, elem_of_app. by left.
Qed.
Lemma ready_second b1 b2 b s s' :
  views_of b = views_of b1 ++ views_of b2 → watchers_of b = watchers_of b1 ++ watchers_of b2 →
  unnested b = unnested b1 && unnested b2 → ready b s → same_scope (views_of b1) s s' → ready b2 s'.
Proof using Type.
  intros Hv Hw Hu [V W U N] Hs. rewrite Hv in V, U. rewrite Hw in N. rewrite Hu in W. apply andb_prop in W as [_ W].
  apply NoDup_app in V as (_ & Vd & V).
  split; [done..| |].
  - intros v Hin. apply (unused_same _ s s' v Hs); [|apply U, elem_of_app; by right]. intros H1. exact (Vd v H1 Hin).
  - intros w Hin. rewrite (same_watchers _ _ _ Hs). apply N, elem_of_app. by right.
Qed.
Lemma ready_inside v b b' s s1 :
  views_of b' = v :: views_of b → watchers_of b' = watchers_of b → unnested b' = unnested b → ready b' s →
  (∀ v', v' ≠ v → life s1 v' = life s v') → watchers s1 = watchers s → ready b s1.
Proof using Type.
  intros Hv Hw Hu [V W U N] Hl Hws. rewrite Hv in V, U. rewrite Hw in N. rewrite Hu in W. apply NoDup_cons in V as [Hv' V].
  split; [done..| |intros w; rewrite Hws; apply N].
  intros v' Hin. destruct (U v') as (l & Hlife & H); [by right|]. exists l. rewrite Hl; [done|]. by intros ->.
Qed.

Lemma withM_eq {A} (enter enter' : M Thread unit) leave (body : M Thread A) s :
  enter s = enter' s → withM enter leave body s = withM enter' leave body s.
Proof using Type. unfold withM. by intros ->. Qed.

Definition restores (b : block) : Prop := ∀ s, ready b s → same_scope (views_of b) s (run b s).2.

Lemma view_restores v b : restores b → restores (BView v b).
Proof using Type.
  intros IH s Hr. cbn [run_block]. unfold with_view. pose proof (ready_unused _ _ Hr v ltac:(by left)) as Hv.
  pose proof (ready_views _ _ Hr) as [Hnd _]%NoDup_cons. destruct (cur_view s) as [v0|] eqn:Hcur.
  { unfold withM, __enter__. rewrite run_bind, run_gets, Hcur. apply same_scope_refl. }
  rewrite (withM_eq _ (modify (λ s, s <| cur_view := Some v |>);; native_enter v))
    by (unfold __enter__; by rewrite run_bind, run_gets, Hcur).
  apply scope_of_view; [done..| |].
  - intros s1 _ Hl Hw. apply IH. by apply (ready_inside v b (BView v b) s).
  - intros fine s2 Hs2. by apply leaves.
Qed.

Lemma nocommit_restores v b : restores b → restores (BNocommit v b).
Proof using Type.
  intros IH s Hr. cbn [run_block]. unfold with_nocommit. pose proof (ready_unused _ _ Hr v ltac:(by left)) as Hv.
  pose proof (ready_views _ _ Hr) as [Hnd _]%NoDup_cons. destruct (cur_view s) as [v0|] eqn:Hcur.
  { unfold withM, nocommit_enter. rewrite run_bind, run_gets, Hcur. apply same_scope_refl. }
  rewrite (withM_eq _ (modify (λ s, s <| cur_view := Some v |>);; native_enter v))
    by (unfold nocommit_enter; by rewrite run_bind, run_gets, Hcur).
  apply scope_of_view; [done..| |].
  - intros s1 _ Hl Hw. apply IH. by apply (ready_inside v b (BNocommit v b) s).
  - intros fine s2 Hs2. by apply nocommit_leaves.
Qed.

Lemma mask_restores b : restores b → restores (BMask b).
Proof using Type.
  intros IH s Hr. cbn [run_block]. unfold with_mask. rewrite run_bind, run_gets. cbv beta iota.
  apply withM_post; [done|]. intros s1 Hs1 fine. rewrite run_modify in Hs1. injection Hs1 as <-.
  assert (same_scope (views_of b) (s <| cur_view := None |>) (run b (s <| cur_view := None |>)).2) as [C N W L].
  { apply IH. destruct Hr as [V Wr U Nw]. by split. }
  cbn in C, N. unfold mask_exit. destruct (cur_view s) as [v|] eqn:Hcur; [rewrite run_modify|]; split; cbn; try done.
  by rewrite C, Hcur.
Qed.

Lemma watch_restores w b : restores b → restores (BWatch w b).
Proof using Type.
  intros IH s Hr. cbn [run_block]. unfold with_watcher.
  pose proof (ready_unwatched _ _ Hr w ltac:(by left)) as Hw. destruct Hr as [V [Hwb%bool_decide_eq_true Wr]%andb_prop U Nw].
  apply withM_post; [done|]. intros s1 Hs1 fine. unfold watcher_enter in Hs1. rewrite run_modify in Hs1.
  injection Hs1 as <-. set (s1 := s <| cur_watchers := Some ({[w]} ∪ watchers s) |>).
  assert (same_scope (views_of b) s1 (run b s1).2) as [C N W L].
  { apply IH. split; [done..|]. intros w' Hw'. change (watchers s1) with ({[w]} ∪ watchers s).
    intros [->%elem_of_singleton|Hin]%elem_of_union; [done|]. by apply (Nw w'); [right|]. }
  unfold watcher_exit. rewrite run_bind, run_gets.
  assert (∃ ws, cur_watchers (run b s1).2 = Some ws ∧ ws = {[w]} ∪ watchers s) as (ws & Hws & ->).
  { unfold watchers in W at 1. destruct (cur_watchers (run b s1).2) as [ws|]; cbn in W; [by exists ws|set_solver]. }
  change (run b _) with (run b s1). rewrite Hws, run_bind, run_lift_option, run_modify. split; cbn; [done..| |done].
  unfold watchers at 1. cbn. set_solver.
Qed.

Lemma seq_restores b1 b2 : restores b1 → restores b2 → restores (BSeq b1 b2).
Proof using Type.
  intros IH1 IH2 s Hr. cbn [run_block views_of].
  specialize (IH1 s (ready_first b1 b2 (BSeq b1 b2) s eq_refl eq_refl eq_refl Hr)). rewrite run_bind.
  pose proof (ready_second b1 b2 (BSeq b1 b2) s _ eq_refl eq_refl eq_refl Hr IH1) as Hr2.
  destruct (run b1 s) as [[[]|e] s1]; cbn in *; eapply same_scope_trans; try exact IH1; [by apply IH2|].
  apply same_scope_refl.
Qed.

Lemma try_restores b1 b2 : restores b1 → restores b2 → restores (BTry b1 b2).
Proof using Type.
  intros IH1 IH2 s Hr. cbn [run_block views_of].
  specialize (IH1 s (ready_first b1 b2 (BTry b1 b2) s eq_refl eq_refl eq_refl Hr)). unfold tryM.
  pose proof (ready_second b1 b2 (BTry b1 b2) s _ eq_refl eq_refl eq_refl Hr IH1) as Hr2.
  destruct (run b1 s) as [[[]|e] s1]; cbn in *; eapply same_scope_trans; try exact IH1; [|by apply IH2].
  apply same_scope_refl.
Qed.

Lemma access_restores f : restores (BAccess f).
Proof using Type.
  intros s _. assert (preserves (same_scope [] s) (access f)) as Ha; [|apply Ha, same_scope_refl].
  unfold access. preserve_with ltac:(idtac; apply quiet_accesses).
Qed.

Lemma blocks_restore b : restores b.
Proof using Type.
  induction b; auto using access_restores, seq_restores, try_restores, view_restores, nocommit_restores,
    mask_restores, watch_restores. intros s _. apply same_scope_refl.
Qed.

(** ** What a block does to the view that is open *)

(** The blocks without masks and watchers, run on the accesses of the view around them alone. *)
Fixpoint effect (b : block) (a : Accesses) : outcome unit * Accesses :=
  match b with
  | BAccess f => (Ok tt, f a)
  | BRaise e => (Raise e, a)
  | BSeq b1 b2 => match effect b1 a with (Ok _, a) => effect b2 a | r => r end
  | BTry b1 b2 => match effect b1 a with (Raise _, a) => effect b2 a | r => r end
  | BView _ _ => (Raise AnotherViewIsOpen, a)
  | BNocommit _ _ => (Raise AssertionError, a)
  | BMask _ | BWatch _ _ => (Ok tt, a)
  end.
Fixpoint bare (b : block) : bool :=
  match b with
  | BSeq b1 b2 | BTry b1 b2 => bare b1 && bare b2
  | BMask _ | BWatch _ _ => false
  | _ => true
  end.

(** The thread has [v] open, with these accesses; nothing but watchers differs from [s0]. *)
Record working (v : nat) (view0 : View) (s0 : Thread) (a : Accesses) (s : Thread) : Prop := {
  w_cur : cur_view s = Some v;
  w_native : s_current_view s = Some v;
  w_view : view_objects s !! v = Some (view0 <| _view ::= λ nv, nv <| m_accesses := a |> |>);
  w_watchers : watchers s = watchers s0;
  w_db : db s = db s0;
  w_ids : identities s = identities s0;
  w_ref : next_ref s = next_ref s0;
}.

Lemma working_effect v view0 s0 b a s :
  bare b = true → working v view0 s0 a s →
  (run b s).1 = (effect b a).1 ∧ working v view0 s0 (effect b a).2 (run b s).2.
Proof using Type.
  revert a s. induction b as [f|e|b1 IH1 b2 IH2|b1 IH1 b2 IH2|v' b IH|v' b IH|b IH|w b IH]; intros a s Hb Hs;
    cbn [bare] in Hb; cbn [run_block effect].
  - destruct Hs as [C N V Hwt D I R]. unfold access. rewrite !run_bind, run_gets, N, run_bind, run_lift_option.
    unfold upd_view. rewrite run_modify. split; [done|]. split; cbn; try done. by rewrite lookup_alter_eq, V.
  - done.
  - apply andb_prop in Hb as [Hb1 Hb2]. destruct (IH1 a s Hb1 Hs) as [Hr Hs1]. rewrite run_bind.
    destruct (run b1 s) as [[[]|e] s1], (effect b1 a) as [[[]|e'] a1]; cbn in *; try done. by apply IH2.
  - apply andb_prop in Hb as [Hb1 Hb2]. destruct (IH1 a s Hb1 Hs) as [Hr Hs1]. unfold tryM.
    destruct (run b1 s) as [[[]|e] s1], (effect b1 a) as [[[]|e'] a1]; cbn in *; try done. by apply IH2.
  - unfold with_view, withM, __enter__. rewrite run_bind, run_gets, (w_cur _ _ _ _ _ Hs). done.
  - unfold with_nocommit, withM, nocommit_enter. rewrite run_bind, run_gets, (w_cur _ _ _ _ _ Hs). done.
  - done.
  - done.
Qed.

(** ** Committing *)

(** What a commit does to the connection, and what it tells the thread. *)
Definition commit_on (view0 : View) (a : Accesses) (guid : Z) (q : nat) : M DatabaseConnection (outcome unit) :=
  _createTransaction guid (field_writes a) (nonempty_sets (index_adds a)) (nonempty_sets (index_removes a))
    (elements (field_reads a)) (elements (index_reads a)) (_transaction_num view0)
    (default q (_confirmCommitCallback view0)) (_no_log view0);;
  match _confirmCommitCallback view0 with
  | Some _ => mret (Ok tt)
  | None =>
      res ← result_queue_get q (_commitTimeout view0);
      mret (match res with
            | Some CommitSuccess => Ok tt
            | None => Raise CommitTimedOut
            | Some CommitDisconnected => Raise DisconnectedException
            | Some (RevisionConflict _) => Raise RevisionConflictException
            | Some (ServerException _) => Raise ServerError
            end)
  end.

(** The result of a whole block, and the connection it leaves. *)
Definition block_result (view0 : View) (b : block) (guid : Z) (q : nat) (c : DatabaseConnection) :
    outcome unit * DatabaseConnection :=
  match effect b (m_accesses (_view view0)) with
  | (Raise e, _) => (Raise e, c)
  | (Ok _, a) =>
      if _writeable view0 && bool_decide (field_writes a ≠ ∅) then
        match commit_on view0 a guid q c with
        | (Ok r, c) => (r, c)
        | (Raise e, c) => (Raise e, c)
        end
      else (Ok tt, c)
  end.

Lemma tell_runs v fine view0 ws s :
  view_objects s !! v = Some view0 → (∀ w, w ∈ ws → callback_raises w v fine = None) →
  ∃ l, forM ws (call_watcher callback_raises v fine) s = (Ok tt, s <| closed_views ::= λ l', l' ++ l |>).
Proof using Type.
  revert s. induction ws as [|w ws IH]; intros s Hv Hq.
  - exists []. cbn. f_equal. destruct s. cbn. by rewrite app_nil_r.
  - rewrite run_forM_cons. unfold call_watcher at 1, the_view. rewrite !run_bind, run_gets, Hv, run_lift_option, run_bind, run_modify.
    rewrite (Hq w) by (by left). rewrite run_mret.
    match goal with |- context [forM ws _ ?s1] => destruct (IH s1 Hv) as [l ->]; [intros w' Hw'; apply Hq; by right|] end.
    eexists. f_equal. cbn. f_equal. by rewrite <-app_assoc.
Qed.

Lemma zoom_run {A} (m : M DatabaseConnection A) s :
  zoom db m s = ((m (db s)).1, s <| db := (m (db s)).2 |>).
Proof using Type. unfold zoom. by destruct (m (db s)). Qed.

Lemma commit_runs v view1 s :
  view_objects s !! v = Some view1 → _writeable view1 = true →
  let a := m_accesses (_view view1) in
  let r := if bool_decide (field_writes a ≠ ∅) then
             match commit_on view1 a (allocateIdentity (identities s)) (next_ref s) (db s) with
             | (Ok r, c) => (r, c)
             | (Raise e, c) => (Raise e, c)
             end
           else (Ok tt, db s) in
  (commit allocateIdentity result_queue_get v s).1 = r.1 ∧ db (commit allocateIdentity result_queue_get v s).2 = r.2.
Proof using Type.
  intros Hv Hw. cbv zeta. unfold commit, the_view. rewrite !run_bind, run_gets, Hv, run_lift_option, Hw. cbn [negb].
  destruct (decide (field_writes (m_accesses (_view view1)) = ∅)) as [He|He].
  { by rewrite (bool_decide_true _ He), bool_decide_false by naive_solver. }
  rewrite (bool_decide_false _ He), bool_decide_true by done.
  rewrite !run_bind, run_gets, run_bind, run_modify, run_bind, run_gets, run_bind, run_modify, run_bind, zoom_run.
  unfold commit_on. rewrite (run_bind (_createTransaction _ _ _ _ _ _ _ _ _)). cbn [db].
  destruct (_createTransaction _ _ _ _ _ _ _ _ _ _) as [[[]|e] c1]; [|done].
  unfold releaseRefcount, upd_view. rewrite run_bind, run_modify.
  destruct (_confirmCommitCallback view1) as [k|]; [done|]. rewrite !run_bind, zoom_run. cbn.
  by destruct (result_queue_get (next_ref s) (_commitTimeout view1) c1) as [[[[]|]|e] c2].
Qed.

Lemma the_view_run v view s : view_objects s !! v = Some view → the_view v s = (Ok view, s).
Proof using Type. intros Hv. unfold the_view. by rewrite run_bind, run_gets, Hv. Qed.
Lemma del_cur_view_run v s : cur_view s = Some v → del_cur_view s = (Ok tt, s <| cur_view := None |>).
Proof using Type. intros Hc. unfold del_cur_view. by rewrite run_bind, run_gets, Hc. Qed.
Lemma native_exit_run v view s :
  view_objects s !! v = Some view → m_is_entered (_view view) = true →
  native_exit v s = (Ok tt, s <| s_current_view := m_enclosing_view (_view view) |>
    <| view_objects ::= alter (λ view, view <| _view ::= λ nv, nv <| m_is_entered := false |> <| m_enclosing_view := None |> |>) v |>).
Proof using Type. intros Hv He. unfold native_exit. rewrite run_bind, (the_view_run v view s Hv), He. done. Qed.

(** Leaving the view comes down to the commit, or to the release of the version. *)
Lemma exit_runs v view1 s0 a s fine :
  working v view1 s0 a s → m_is_entered (_view view1) = true →
  (∀ w, w ∈ watchers s0 → callback_raises w v fine = None) →
  ∃ s', __exit__ allocateIdentity result_queue_get callback_raises v fine s =
      (if fine && _writeable view1 then commit allocateIdentity result_queue_get v else releaseRefcount v) s' ∧
    view_objects s' !! v = Some (view1 <| _view ::= λ nv,
      nv <| m_accesses := a |> <| m_is_entered := false |> <| m_enclosing_view := None |> |>) ∧
    db s' = db s0 ∧ identities s' = identities s0 ∧ next_ref s' = next_ref s0.
Proof using Type.
  intros [C N V Hwt D I R] He Hq. unfold __exit__. rewrite run_bind, (del_cur_view_run v s C), run_bind.
  erewrite native_exit_run; [|exact V|exact He]. rewrite run_bind, run_gets, run_bind. cbv beta iota.
  match goal with |- context [forM ?ws _ ?s1] => destruct (tell_runs v fine (view1 <| _view ::= λ nv,
    nv <| m_accesses := a |> <| m_is_entered := false |> <| m_enclosing_view := None |> |>) ws s1) as [l ->] end.
  { cbn. by rewrite lookup_alter_eq, V. }
  { intros w Hw%elem_of_elements. apply Hq. by rewrite <-Hwt. }
  rewrite run_bind. erewrite the_view_run by (cbn; by rewrite lookup_alter_eq, V).
  eexists. split; [reflexivity|]. cbn. by rewrite lookup_alter_eq, V.
Qed.

(** C24. A transaction is all or nothing: when the code inside raises an exception, nothing is sent
    and the exception goes on; when it ends normally with something written, everything it read
    and wrote is sent as one transaction.  The block then ends normally exactly when the result
    that comes back is a success; after noconfirm or onConfirmed it waits for no result and ends
    normally once the transaction is sent.  A view that is not writeable sends nothing.  This is
    for a block in a thread that has no view open, with a view that was not used before, around
    code without masks and watchers of its own, while the watchers that are set raise nothing. *)
Theorem transaction_is_all_or_nothing v view0 b s
    (Hview : view_objects s !! v = Some view0) (Hv : unused s v) (Hcur : cur_view s = None) (Hb : bare b = true)
    (Hquiet : ∀ w fine, w ∈ watchers s → callback_raises w v fine = None) :
  let r := block_result view0 b (allocateIdentity (identities s)) (next_ref s) (db s) in
  (run (BView v b) s).1 = r.1 ∧ db (run (BView v b) s).2 = r.2.
Proof using Type.
  destruct Hv as (l & Hl & He & Hev & Hr). unfold life in Hl. rewrite Hview in Hl. injection Hl as <-.
  cbn in He, Hev, Hr. set (view1 := view0 <| _view ::= λ nv,
    nv <| m_ever_entered := true |> <| m_is_entered := true |> <| m_enclosing_view := s_current_view s |> |>).
  assert (∃ s1, __enter__ v s = (Ok tt, s1) ∧ working v view1 s (m_accesses (_view view0)) s1) as (s1 & Hrun & Hs1).
  { unfold __enter__, native_enter, the_view. rewrite run_bind, run_gets, Hcur. cbn.
    rewrite !run_bind, run_modify. rewrite !run_bind, run_gets. cbn. rewrite Hview. cbn. rewrite Hr, He, Hev. cbn. eexists. split; [reflexivity|]. split; cbn; try done.
    rewrite lookup_alter_eq, Hview. done. }
  destruct (working_effect v view1 s b _ s1 Hb Hs1) as [Hout Hs2].
  cbn [run_block]. unfold with_view, withM, block_result. rewrite Hrun.
  destruct (run b s1) as [o s2]. destruct (effect b _) as [o' a]. cbn in Hout, Hs2. subst o'.
  destruct o as [[]|e]; rewrite run_bind.
  2: { destruct (exit_runs v view1 s a s2 false Hs2 eq_refl (λ w, Hquiet w false)) as (s3 & -> & Hv3 & Hd & Hi & Hn).
    cbn [andb]. unfold releaseRefcount, upd_view. by rewrite run_modify. }
  destruct (exit_runs v view1 s a s2 true Hs2 eq_refl (λ w, Hquiet w true)) as (s3 & -> & Hv3 & Hd & Hi & Hn). cbn [andb].
  change (_writeable view1) with (_writeable view0). destruct (_writeable view0) eqn:Hw; cbn [andb].
  - destruct (commit_runs v _ s3 Hv3 Hw) as [Hr1 Hr2]. cbn in Hr1, Hr2. rewrite Hd, Hi, Hn in Hr1, Hr2.
    change (commit_on _ a) with (commit_on view0 a) in Hr1, Hr2. rewrite <-Hr1, <-Hr2.
    by destruct (commit _ _ v s3) as [[[]|e] s4].
  - unfold releaseRefcount, upd_view. by rewrite run_modify.
Qed.

(** C25. Whatever a piece of code does with views, in any nesting of views, masks and watchers and
    with any exceptions raised and caught, also by the callbacks of watchers, the thread is
    afterwards where it was: the same view is current, for the module and for the C++ class alike,
    and the same watchers are set.  The code may use each view once, and views that were not used
    before; and it may not set a watcher while that same watcher is set already, by itself or by
    the code around it (the inner end of its scope would discard it). *)
Theorem scopes_are_restored b s (Hready : ready b s) :
  let s' := (run b s).2 in
  cur_view s' = cur_view s ∧ s_current_view s' = s_current_view s ∧ watchers s' = watchers s.
Proof using Type. by destruct (blocks_restore b s Hready) as [C N W _]. Qed.

(** A view that is used a second time raises an exception while it is being entered, after it
    was made the current view: from then on the thread can open no view at all. *)
Theorem entering_twice_wedges_the_thread v view0 b s
    (Hview : view_objects s !! v = Some view0) (Hused : m_ever_entered (_view view0) = true)
    (Hcur : cur_view s = None) :
  ∃ s1, run (BView v b) s = (Raise RuntimeError, s1) ∧
    ∀ v' b', run (BView v' b') s1 = (Raise AnotherViewIsOpen, s1).
Proof using Type.
  cbn [run_block]. unfold with_view, withM, __enter__, native_enter. rewrite run_bind, run_gets, Hcur.
  cbv beta iota. rewrite bool_decide_false by (by intros [? ?]). rewrite run_bind, run_modify, run_bind.
  rewrite (the_view_run v view0) by done. rewrite Hused, orb_true_r.
  exists (s <| cur_view := Some v |>). split; [by destruct (m_refcount_released (_view view0))|done].
Qed.
End scope.

(** ** Trying again *)

Section retry.
Context {S A : Type} (f : M S A).

(** [n] runs of [f] in a row end with a conflict. *)
Inductive conflicts : nat → S → S → Prop :=
  | no_conflict s : conflicts 0 s s
  | one_conflict n s s1 s2 :
      f s = (Raise RevisionConflictException, s1) → conflicts n s1 s2 → conflicts (Datatypes.S n) s s2.

Lemma retry_spec tries s :
  (∃ n s1, (n < tries)%nat ∧ conflicts n s s1 ∧ retry tries f s = f s1 ∧ (f s1).1 ≠ Raise RevisionConflictException) ∨
  (∃ s1, conflicts tries s s1 ∧ retry tries f s = (Raise RevisionConflictException, s1)).
Proof using Type.
  revert s. induction tries as [|tries IH]; intros s; cbn [retry]; [right; exists s; split; [constructor|done]|].
  destruct (f s) as [[a|e] s1] eqn:Hf; [left; exists 0%nat, s; rewrite Hf; split_and!; [lia|constructor|done..]|].
  case_bool_decide as He; [subst e|left; exists 0%nat, s; rewrite Hf; split_and!; [lia|constructor|done|cbn; congruence]].
  destruct (IH s1) as [(n & s2 & Hn & Hc & Hr)|(s2 & Hc & Hr)].
  - left. exists (Datatypes.S n), s2. split_and!; [lia|by econstructor|apply Hr..].
  - right. exists s2. split; [by econstructor|done].
Qed.
End retry.

(** A function that is retried on conflicts runs at most a hundred times: either one of the
    first hundred runs does not end in a conflict, and its outcome is the outcome, or all of them
    do, and that is reported as a conflict. *)
Theorem retries_are_bounded {S A} (f : M S A) s :
  (∃ n s1, (n < 100)%nat ∧ conflicts f n s s1 ∧ revisionConflictRetry f s = f s1 ∧
    (f s1).1 ≠ Raise RevisionConflictException) ∨
  (∃ s1, conflicts f 100 s s1 ∧ revisionConflictRetry f s = (Raise RevisionConflictException, s1)).
Proof. exact (retry_spec f MAX_TRIES s). Qed.

(** ** A thread with two transactions and a view *)

Module ViewScenario.
Definition identity (n : nat) : Z := 100 + Z.of_nat n.
Definition conflict (q : nat) (timeout : option Z) : M DatabaseConnection (option CommitOutcome) :=
  mret (Some (RevisionConflict NoBadKey)).
Definition quiet (w v : nat) (fine : bool) : option exn := if bool_decide (w = 6%nat) then Some KeyError else None.
Definition write_one : block := BAccess (λ a, a <| field_writes := {[OFI 100 3 false := None]} |>).
Definition thread (views : gmap nat View) : Thread :=
  {| cur_view := None; cur_watchers := None; s_current_view := None; view_objects := views; next_ref := 10;
     identities := 0; closed_views := []; db := new_DatabaseConnection |}.
Definition used : View := View_init true 0 <| _view ::= λ nv, nv <| m_ever_entered := true |> |>.
(* a transaction that is masked while another one commits, under a watcher *)
Definition nested : block :=
  BWatch 5 (BTry (BView 1 (BSeq write_one (BMask (BView 2 write_one)))) (BNocommit 3 (BRaise KeyError))).
Definition three : Thread := thread {[1%nat := View_init true 0; 2%nat := View_init true 0; 3%nat := View_init false 0]}.
End ViewScenario.

Lemma transaction_is_all_or_nothing_witness :
  (run_block ViewScenario.identity ViewScenario.conflict ViewScenario.quiet (BView 1 ViewScenario.write_one) ViewScenario.three).1 =
  Raise RevisionConflictException.
Proof.
  destruct (transaction_is_all_or_nothing ViewScenario.identity ViewScenario.conflict ViewScenario.quiet 1 (View_init true 0)
    ViewScenario.write_one ViewScenario.three) as [H _]; [reflexivity| |reflexivity|reflexivity|intros w fine Hw; by apply not_elem_of_empty in Hw|].
  - eexists. split; [reflexivity|done].
  - rewrite H. vm_compute. reflexivity.
Defined.

Lemma scopes_are_restored_witness :
  (run_block ViewScenario.identity ViewScenario.conflict ViewScenario.quiet ViewScenario.nested ViewScenario.three).1 = Raise KeyError ∧
  cur_view (run_block ViewScenario.identity ViewScenario.conflict ViewScenario.quiet ViewScenario.nested ViewScenario.three).2 = None.
Proof.
  split; [vm_compute; reflexivity|].
  apply (scopes_are_restored ViewScenario.identity ViewScenario.conflict ViewScenario.quiet ViewScenario.nested ViewScenario.three).
  split.
  - cbn. by repeat (constructor; [set_solver|]); constructor.
  - vm_compute. reflexivity.
  - cbn. intros v Hv. assert (v = 1 ∨ v = 2 ∨ v = 3)%nat as [-> | [-> | ->]] by set_solver;
      eexists; (split; [vm_compute; reflexivity|done]).
  - cbn. set_solver.
Defined.

Lemma entering_twice_wedges_the_thread_witness :
  ∃ s1, run_block ViewScenario.identity ViewScenario.conflict ViewScenario.quiet (BView 1 ViewScenario.write_one)
          (ViewScenario.thread {[1%nat := ViewScenario.used]}) = (Raise RuntimeError, s1) ∧
    ∀ v' b', run_block ViewScenario.identity ViewScenario.conflict ViewScenario.quiet (BView v' b') s1 = (Raise AnotherViewIsOpen, s1).
Proof.
  exact (entering_twice_wedges_the_thread ViewScenario.identity ViewScenario.conflict ViewScenario.quiet 1 ViewScenario.used
    ViewScenario.write_one (ViewScenario.thread {[1%nat := ViewScenario.used]}) eq_refl eq_refl eq_refl).
Defined.
