(* ===== verification/Reactor.v ===== *)
(** * Reactors ([object_database/reactor.py])

    A reactor calls a function again whenever a key that its views read has changed.  The function
    runs in a thread of views ([Views.Thread]); [_calculate] watches it.  A reactor is used in one
    of two ways: by calls of [next], where [arrivals] are what the calls of [get] on its queue
    give; or by a thread of its own, which is a system of three threads here, interleaved at every
    access to a shared attribute: the loop, the connection that reports transactions, and the
    thread that starts and stops the loop.  Times are in microseconds; log messages are left out. *)

From Stdlib Require Import Lia.
From stdpp Require Import options.
From S2P Require Import Prelude Schema Messages Connection Views.

Local Open Scope Z_scope.

Inductive Key := KField (k : ObjectFieldId) | KIndex (k : IndexId).
#[export] Instance Key_eq_dec : EqDecision Key.
Proof. solve_decision. Defined.
#[export] Instance Key_countable : Countable Key.
Proof.
  refine (inj_countable' (λ k, match k with KField k => inl k | KIndex k => inr k end)
            (λ x, match x with inl k => KField k | inr k => KIndex k end) _). by intros [].
Defined.

(** What is put into the queue. *)
Inductive Item := Keys (l : list Key) | STOP.

Record Reactor := {
  maxSleepTime : option Z;
  queues : list (list Item);      (* the queue objects made so far *)
  transactionQueue : nat;         (* the present one *)
  wantRecordTransactions : bool;
  has_thread : bool;
  isStarted : bool;
  lastReadKeys : gset Key;
  nextWakeup : option Z;
  isTornDown : bool;
}.
#[export] Instance Reactor_settable : Settable Reactor := λ r,
  {| maxSleepTime := maxSleepTime r; queues := queues r; transactionQueue := transactionQueue r;
     wantRecordTransactions := wantRecordTransactions r; has_thread := has_thread r; isStarted := isStarted r;
     lastReadKeys := lastReadKeys r; nextWakeup := nextWakeup r; isTornDown := isTornDown r |}.

Definition new_Reactor (maxSleepTime : option Z) : Reactor :=
  {| maxSleepTime := maxSleepTime; queues := [[]]; transactionQueue := 0; wantRecordTransactions := false;
     has_thread := false; isStarted := false; lastReadKeys := ∅; nextWakeup := None; isTornDown := false |}.

Definition queue_of (r : Reactor) (q : nat) : list Item := default [] (queues r !! q).
Definition put (q : nat) (x : Item) (r : Reactor) : Reactor := r <| queues ::= alter (λ l, l ++ [x]) q |>.

Definition _drainTransactionQueue (r : Reactor) : Reactor :=
  r <| transactionQueue := length (queues r) |> <| queues ::= λ l, l ++ [[]] |>.

(** ** Running the function *)

(** The dictionaries that [onViewClose] updates. *)
Record Seen := { seenKeys : gset Key; hadWrites : bool }.

Definition keys_read (a : Accesses) : gset Key :=
  set_map KField (field_reads a) ∪ set_map KIndex (index_reads a).

Definition onViewClose (x : Seen) (a : Accesses) : Seen :=
  if hadWrites x then x
  else if bool_decide (field_writes a ≠ ∅) then {| seenKeys := seenKeys x; hadWrites := true |}
  else {| seenKeys := seenKeys x ∪ keys_read a; hadWrites := false |}.

Definition seen_of (views : list Accesses) : Seen := foldl onViewClose {| seenKeys := ∅; hadWrites := false |} views.

(** The end of [_calculate]: what is made of the views that were closed, the wakeup that was asked
    for, and the outcome of the function. *)
Definition calculate_end {R} (catchRevisionConflicts : bool) (currentStartTimestamp : Z) (views : list Accesses)
    (wakeup : option Z) (result : outcome R) : outcome (option R * gset Key * option Z) :=
  let seen := seen_of views in
  match result with
  | Ok r => Ok (Some r, seenKeys seen, if hadWrites seen then Some currentStartTimestamp else wakeup)
  | Raise e =>
      if catchRevisionConflicts && bool_decide (e = RevisionConflictException)
      then Ok (None, seenKeys seen, Some currentStartTimestamp)
      else Raise e
  end.

(** The thread, with the thread local [_currentReactor]. *)
Record ReactorThread := {
  rt_thread : Thread;
  timestamp : option Z;
  wakeup : option Z;
  next_watcher : nat;
}.
#[export] Instance ReactorThread_settable : Settable ReactorThread := λ r,
  {| rt_thread := rt_thread r; timestamp := timestamp r; wakeup := wakeup r; next_watcher := next_watcher r |}.

Definition curTimestamp : M ReactorThread (option Z) := gets timestamp.

Definition curTimestampIsAfter (ts : Z) : M ReactorThread bool :=
  curTime ← curTimestamp;
  curTime ← lift_option (UserException "No reactor is running.") curTime;
  if bool_decide (ts <= curTime) then mret true
  else
    next ← gets wakeup;
    whenM (match next with None => true | Some w => bool_decide (ts < w) end)
      (modify (λ s, s <| wakeup := Some ts |>));;
    mret false.

Definition accesses_seen (w : nat) (l : list ClosedView) : list Accesses :=
  cv_accesses <$> filter (λ c, cv_watcher c = w) l.

Section reactor.
Context {R : Type} (truthy : R → bool).
Context (reactorFunction : M ReactorThread R).

(** The function between the two settings of [_currentReactor]. *)
Definition run_function (currentStartTimestamp : Z) : M ReactorThread (R * option Z) :=
  s ← get_state;
  finallyM
    (modify (λ s, s <| timestamp := Some currentStartTimestamp |> <| wakeup := None |>);;
     functionResult ← reactorFunction;
     next ← gets wakeup;
     mret (functionResult, next))
    (modify (λ s', s' <| wakeup := wakeup s |> <| timestamp := timestamp s |>)).

(** [with ViewWatcher(onViewClose): ...], for a new watcher [w], and the end of [_calculate] *)
Definition watched (catchRevisionConflicts : bool) (currentStartTimestamp : Z) (w : nat) :
    M ReactorThread (option R * gset Key * option Z) := λ s,
  let (result, s) := run_function currentStartTimestamp (s <| rt_thread ::= λ t, (watcher_enter w t).2 |>) in
  let s := s <| rt_thread ::= λ t, (watcher_exit w t).2 |> in
  let views := accesses_seen w (closed_views (rt_thread s)) in
  match result with
  | Ok (r, next) => (calculate_end catchRevisionConflicts currentStartTimestamp views next (Ok r), s)
  | Raise e => (calculate_end catchRevisionConflicts currentStartTimestamp views None (Raise e), s)
  end.

Definition _calculate (catchRevisionConflicts : bool) (currentStartTimestamp : Z) :
    M ReactorThread (option R * gset Key * option Z) :=
  w ← gets next_watcher;
  modify (λ s, s <| next_watcher ::= S |>);;
  watched catchRevisionConflicts currentStartTimestamp w.

(** ** Waiting *)

(** [curTime + (timeout if timeout is not None else 10**8)], or the wakeup if that is earlier *)
Definition final_time (curTime : Z) (next timeout : option Z) : Z :=
  let finalTime := curTime + default (10 ^ 14) timeout in
  match next with
  | Some w => if bool_decide (w < finalTime) then w else finalTime
  | None => finalTime
  end.

Definition would_block_forever (readKeys : gset Key) (next timeout : option Z) : bool :=
  bool_decide (readKeys = ∅) && bool_decide (timeout = None) && bool_decide (next = None).

Definition triggers (readKeys : gset Key) (l : list Key) : bool := existsb (λ k, bool_decide (k ∈ readKeys)) l.

Definition DeadlockException : exn := UserException "DeadlockException".

(** The loop over [get]: each arrival is an item, or [None] for [queue.Empty], with the reading of
    the clock after it; [None] when the arrivals end while the loop waits. *)
Fixpoint wait_loop (readKeys : gset Key) (next : option Z) (finalTime curTime : Z)
    (arrivals : list (option Item * Z)) : option bool :=
  if bool_decide (curTime < finalTime) then
    match arrivals with
    | [] => None
    | (None, _) :: _ | (Some STOP, _) :: _ => Some false
    | (Some (Keys l), t) :: arrivals =>
        if triggers readKeys l then Some true else wait_loop readKeys next finalTime t arrivals
    end
  else Some (match next with Some w => bool_decide (w < curTime) | None => false end).

Definition _blockUntilRecalculate (readKeys : gset Key) (next timeout : option Z) (curTime : Z)
    (arrivals : list (option Item * Z)) : outcome (option bool) :=
  if would_block_forever readKeys next timeout then Raise DeadlockException
  else Ok (wait_loop readKeys next (final_time curTime next timeout) curTime arrivals).

(** ** Calling the reactor *)

Record Sync := { rx : Reactor; rt : ReactorThread }.
#[export] Instance Sync_settable : Settable Sync := λ r, {| rx := rx r; rt := rt r |}.

(** What [next] returns; [Waits]: it has not returned. *)
Inductive NextResult := Waits | Timeout | Value (r : option R).

(** One call of [next]: the clock and the arrivals while it waits, and the clock when it calculates. *)
Record Call := { at_time : Z; arriving : list (option Item * Z); calculate_at : Z }.

Definition calculate_now (env : Call) : M Sync NextResult :=
  modify (λ s, s <| rx ::= λ r, (_drainTransactionQueue r) <| wantRecordTransactions := true |> |>);;
  '(result, keys, next) ← zoom rt (_calculate false (calculate_at env));
  modify (λ s, s <| rx ::= λ r, r <| lastReadKeys := keys |> <| nextWakeup := next |> |>);;
  mret (Value result).

Definition next (timeout : option Z) (env : Call) : M Sync NextResult :=
  r ← gets rx;
  if has_thread r then raise (UserException "Cannot call 'next' if the reactor is being used in threaded mode.")
  else if isTornDown r then raise (UserException "Cannot use reactor after it has been torn down.")
  else if bool_decide (lastReadKeys r ≠ ∅) then
    match _blockUntilRecalculate (lastReadKeys r) (nextWakeup r) timeout (at_time env) (arriving env) with
    | Raise e => raise e
    | Ok None => mret Waits
    | Ok (Some false) => mret Timeout
    | Ok (Some true) => calculate_now env
    end
  else calculate_now env.

(** [Timeout] is a class, and true as a condition. *)
Definition result_is_true (x : NextResult) : bool :=
  match x with Waits => false | Timeout => true | Value r => match r with Some r => truthy r | None => false end end.

(** [blockUntilTrue()]: [None] while it has not returned. *)
Fixpoint blockUntilTrue_forever (calls : list Call) : M Sync (option bool) :=
  match calls with
  | [] => mret None
  | env :: calls =>
      result ← next None env;
      match result with
      | Waits => mret None
      | _ => if result_is_true result then mret (Some true) else blockUntilTrue_forever calls
      end
  end.

(** [blockUntilTrue(timeout)]; the last component of a call is the clock after it. *)
Fixpoint blockUntilTrue_until (timeThreshold curTime : Z) (calls : list (Call * Z)) : M Sync (option bool) :=
  if bool_decide (curTime < timeThreshold) then
    match calls with
    | [] => mret None
    | (env, after) :: calls =>
        result ← next (Some (timeThreshold - curTime)) env;
        match result with
        | Waits => mret None
        | Timeout => mret (Some false)
        | Value _ => if result_is_true result then mret (Some true) else blockUntilTrue_until timeThreshold after calls
        end
    end
  else mret (Some false).
End reactor.
