(* ===== verification/ReactorLoop.v ===== *)
(** * A reactor in its own thread ([_updateLoop], [_onTransaction], [start] and [stop] of reactor.py)

    Three threads share the reactor: the loop; the connection, which applies a transaction to the
    objects and then calls [_onTransaction]; and the thread that calls [start] and [stop].  None of
    them holds a lock, so the step of each is one access to a shared attribute.  The objects are
    represented by the number of the transaction that wrote each key last.  A pass of the function
    is a sequence of views, each closed with the number of the transaction it saw. *)

From Stdlib Require Import Lia.
From stdpp Require Import options.
From S2P Require Import Prelude Schema Messages Connection Views Reactor.

Local Open Scope Z_scope.

(** Where the loop is. *)
Inductive Point :=
  | AtTop                                   (* [while self._isStarted] *)
  | AtDrain | AtRecord | AtCalculate
  | Calculating (start : Z) (base : nat) (closed : list (nat * Accesses))
  | AtSleep (until : Z)                     (* after an exception *)
  | AtResult                                (* [if readKeys is not None] *)
  | AtCheck                                 (* [if not self._isStarted] *)
  | AtQuit | AtQuitDrain
  | AtBlock
  | WaitHead (cur final : Z)                (* [while curTime < finalTime] *)
  | Waiting (cur final : Z)                 (* in [get] *)
  | AtUnrecord | AtDrain2
  | Exited | Died.

(** The local variables of the loop, and the views of the last pass that did not raise. *)
Record Loop := {
  at_point : Point;
  readKeys : option (gset Key);
  loop_wakeup : option Z;
  exceptionsInARow : Z;
  last_base : nat;
  last_views : list (nat * Accesses);
  last_pass_fine : bool;
}.
#[export] Instance Loop_settable : Settable Loop := λ r,
  {| at_point := at_point r; readKeys := readKeys r; loop_wakeup := loop_wakeup r;
     exceptionsInARow := exceptionsInARow r; last_base := last_base r; last_views := last_views r;
     last_pass_fine := last_pass_fine r |}.

(** The connection: between transactions, after it applied one, after it saw that transactions are
    recorded, and with a queue in its hands. *)
Inductive Pump := PIdle | PApplied (l : list Key) | PNoted (l : list Key) | PHolding (q : nat) (l : list Key).
(** The thread in [stop]. *)
Inductive Stopper := SIdle | SCleared | SHolding (q : nat) | SJoining.

Record System := {
  reactor : Reactor;
  loop : Loop;
  pump : Pump;
  stopper : Stopper;
  cur_tid : nat;
  versions : gmap Key nat;
  clock : Z;
}.
#[export] Instance System_settable : Settable System := λ r,
  {| reactor := reactor r; loop := loop r; pump := pump r; stopper := stopper r; cur_tid := cur_tid r;
     versions := versions r; clock := clock r |}.

Definition version (s : System) (k : Key) : nat := default 0%nat (versions s !! k).

Definition new_Loop : Loop :=
  {| at_point := AtTop; readKeys := None; loop_wakeup := None; exceptionsInARow := 0; last_base := 0;
     last_views := []; last_pass_fine := false |}.
Definition new_System (maxSleepTime : option Z) (time : Z) : System :=
  {| reactor := new_Reactor maxSleepTime; loop := new_Loop <| at_point := Exited |>; pump := PIdle; stopper := SIdle;
     cur_tid := 0; versions := ∅; clock := time |}.

Definition goto (p : Point) (s : System) : System := s <| loop ::= λ l, l <| at_point := p |> |>.

(** ** The loop *)

(** [_calculate] has returned or raised. *)
Definition finish_pass (start : Z) (base : nat) (closed : list (nat * Accesses)) (wakeup : option Z)
    (result : outcome unit) (s : System) : System :=
  match calculate_end true start closed.*2 wakeup result with
  | Ok (_, keys, next) =>
      s <| loop ::= λ l, l <| at_point := AtResult |> <| readKeys := Some keys |> <| loop_wakeup := next |>
        <| exceptionsInARow := 0 |> <| last_base := base |> <| last_views := closed |> <| last_pass_fine := true |> |>
  | Raise _ =>
      let n := exceptionsInARow (loop s) + 1 in
      s <| loop ::= λ l, l <| at_point := AtSleep (clock s + 1000 * n) |> <| exceptionsInARow := n |>
        <| last_pass_fine := false |> |>
  end.

(** An item, taken from the queue by [get]. *)
Definition take_item (final : Z) (s : System) : System :=
  let q := transactionQueue (reactor s) in
  match queue_of (reactor s) q with
  | [] => s
  | x :: rest =>
      let s := s <| reactor ::= λ r, r <| queues ::= λ l, <[q := rest]> l |> |> in
      match x with
      | STOP => goto AtUnrecord s
      | Keys l => if triggers (default ∅ (readKeys (loop s))) l then goto AtUnrecord s
                  else goto (WaitHead (clock s) final) s
      end
  end.

(** The next step of the loop; inside of the function, in [sleep] and in [get] on an empty queue
    there is none. *)
Definition loop_step (s : System) : System :=
  let l := loop s in
  match at_point l with
  | AtTop => goto (if isStarted (reactor s) then AtDrain else Exited) s
  | AtDrain => goto AtRecord (s <| reactor ::= _drainTransactionQueue |>)
  | AtRecord => goto AtCalculate (s <| reactor ::= λ r, r <| wantRecordTransactions := true |> |>)
  | AtCalculate => goto (Calculating (clock s) (cur_tid s) []) s
  | Calculating _ _ _ => s
  | AtSleep until => if bool_decide (until <= clock s) then goto AtResult s else s
  | AtResult => goto (match readKeys l with Some _ => AtCheck | None => AtUnrecord end) s
  | AtCheck => goto (if isStarted (reactor s) then AtBlock else AtQuit) s
  | AtQuit => goto AtQuitDrain (s <| reactor ::= λ r, r <| wantRecordTransactions := false |> |>)
  | AtQuitDrain => goto Exited (s <| reactor ::= _drainTransactionQueue |>)
  | AtBlock =>
      if would_block_forever (default ∅ (readKeys l)) (loop_wakeup l) (maxSleepTime (reactor s)) then goto Died s
      else goto (WaitHead (clock s) (final_time (clock s) (loop_wakeup l) (maxSleepTime (reactor s)))) s
  | WaitHead cur final => goto (if bool_decide (cur < final) then Waiting cur final else AtUnrecord) s
  | Waiting _ final => take_item final s
  | AtUnrecord => goto AtDrain2 (s <| reactor ::= λ r, r <| wantRecordTransactions := false |> |>)
  | AtDrain2 => goto AtTop (s <| reactor ::= _drainTransactionQueue |>)
  | Exited | Died => s
  end.

(** ** The connection *)

(** A transaction that writes the keys of [l] is applied. *)
Definition apply_transaction (l : list Key) (s : System) : System :=
  let tid := S (cur_tid s) in
  s <| cur_tid := tid |> <| versions ::= λ m, foldr (λ k m, <[k := tid]> m) m l |> <| pump := PApplied l |>.

(** [_onTransaction] *)
Definition pump_step (s : System) : System :=
  match pump s with
  | PIdle => s
  | PApplied l => s <| pump := if wantRecordTransactions (reactor s) then PNoted l else PIdle |>
  | PNoted l => s <| pump := PHolding (transactionQueue (reactor s)) l |>
  | PHolding q l => s <| reactor ::= put q (Keys l) |> <| pump := PIdle |>
  end.

(** ** Starting and stopping *)

Definition start (s : System) : System :=
  if has_thread (reactor s) || isTornDown (reactor s) then s
  else s <| reactor ::= λ r, r <| has_thread := true |> <| isStarted := true |> |> <| loop := new_Loop |>.

Definition stop (s : System) : System :=
  if has_thread (reactor s) then
    s <| reactor ::= λ r, r <| isStarted := false |> |> <| stopper := SCleared |>
  else s.

Definition stop_step (s : System) : System :=
  match stopper s with
  | SIdle => s
  | SCleared => s <| stopper := SHolding (transactionQueue (reactor s)) |>
  | SHolding q => s <| reactor ::= put q STOP |> <| stopper := SJoining |>
  | SJoining =>
      match at_point (loop s) with
      | Exited | Died => s <| reactor ::= λ r, r <| has_thread := false |> |> <| stopper := SIdle |>
      | _ => s
      end
  end.

Definition teardown (s : System) : System :=
  if has_thread (reactor s) then s else s <| reactor ::= λ r, r <| isTornDown := true |> |>.

(** ** Runs *)

Inductive happening :=
  | LoopSteps
  | ViewCloses (tid : nat) (a : Accesses)            (* inside of the function *)
  | FunctionEnds (wakeup : option Z) (result : outcome unit)
  | GetIsEmpty                                       (* [queue.Empty]: the time is up *)
  | Commits (l : list Key)
  | PumpSteps
  | Start | Stop | StopSteps | Teardown
  | TimePasses (d : N).

(** What happens next; nothing, if it cannot happen in this state. *)
Definition happen (h : happening) (s : System) : System :=
  match h with
  | LoopSteps => loop_step s
  | ViewCloses tid a =>
      match at_point (loop s) with
      | Calculating start base closed =>
          if bool_decide (base <= tid <= cur_tid s)%nat then goto (Calculating start base (closed ++ [(tid, a)])) s else s
      | _ => s
      end
  | FunctionEnds wakeup result =>
      match at_point (loop s) with
      | Calculating start base closed => finish_pass start base closed wakeup result s
      | _ => s
      end
  | GetIsEmpty =>
      match at_point (loop s) with
      | Waiting _ final =>
          if bool_decide (queue_of (reactor s) (transactionQueue (reactor s)) = []) && bool_decide (final <= clock s)
          then goto AtUnrecord s else s
      | _ => s
      end
  | Commits l => match pump s with PIdle => apply_transaction l s | _ => s end
  | PumpSteps => pump_step s
  | Start => match stopper s with SIdle => start s | _ => s end
  | Stop => match stopper s with SIdle => stop s | _ => s end
  | StopSteps => stop_step s
  | Teardown => match stopper s with SIdle => teardown s | _ => s end
  | TimePasses d => s <| clock ::= λ t, t + Z.of_N d |>
  end.

Definition run_system (hs : list happening) (s : System) : System := foldl (λ s h, happen h s) s hs.
