(* ===== verification/ReactorTheorems.v ===== *)
(** * What a reactor guarantees

    In its own thread, a reactor that waits is told of every change to what its function read, and
    a call of [stop] ends it, in every interleaving with the connection.  Used by calls, it takes
    the time at which its function asked to be called again for the end of its patience. *)

From Stdlib Require Import Lia.
From stdpp Require Import options.
From S2P Require Import Prelude Schema Messages Connection Views Reactor ReactorLoop.

Local Open Scope Z_scope.

(** ** What a pass saw *)

Lemma seen_writes views x : hadWrites x = true → hadWrites (foldl onViewClose x views) = true.
Proof.
  revert x. induction views as [|a views IH]; intros x Hx; cbn; [done|]. apply IH. unfold onViewClose. by rewrite Hx.
Qed.

Lemma seen_grows views x :
  hadWrites (foldl onViewClose x views) = false →
  seenKeys x ⊆ seenKeys (foldl onViewClose x views) ∧
  ∀ a, a ∈ views → keys_read a ⊆ seenKeys (foldl onViewClose x views).
Proof.
  revert x. induction views as [|a views IH]; intros x Hx; cbn in *; [split; [done|]; intros a Ha; by apply elem_of_nil in Ha|].
  destruct (IH _ Hx) as [Hs Ha]. unfold onViewClose in Hs at 1.
  destruct (hadWrites x) eqn:Hw; [by rewrite seen_writes in Hx by (unfold onViewClose; by rewrite Hw)|].
  case_bool_decide as Hf; [rewrite seen_writes in Hx; [done|unfold onViewClose; by rewrite Hw, bool_decide_true]|].
  cbn in Hs. split; [set_solver|]. intros a' [->|Ha']%elem_of_cons; [set_solver|by apply Ha].
Qed.

Lemma seen_all views : hadWrites (seen_of views) = false → ∀ a, a ∈ views → keys_read a ⊆ seenKeys (seen_of views).
Proof. intros H. by apply seen_grows. Qed.

(** ** The queue *)

Lemma queue_of_put q x r q' :
  (q < length (queues r))%nat →
  queue_of (put q x r) q' = if decide (q = q') then queue_of r q' ++ [x] else queue_of r q'.
Proof.
  intros Hq. unfold queue_of, put. cbn. case_decide as Heq; subst.
  - destruct (lookup_lt_is_Some_2 _ _ Hq) as [l Hl]. by rewrite list_lookup_alter_eq, Hl.
  - by rewrite list_lookup_alter_ne.
Qed.

Definition present (s : System) : list Item := queue_of (reactor s) (transactionQueue (reactor s)).

(** [k] is mentioned in the queue, or the connection is about to put it there. *)
Definition notified (s : System) (k : Key) : Prop :=
  (∃ l, Keys l ∈ present s ∧ k ∈ l) ∨
  match pump s with
  | PIdle => False
  | PApplied l | PNoted l => k ∈ l
  | PHolding q l => q = transactionQueue (reactor s) ∧ k ∈ l
  end.

(** ** The invariant *)

Definition recording (p : Point) : bool :=
  match p with
  | AtCalculate | Calculating _ _ _ | AtSleep _ | AtResult | AtCheck | AtBlock | WaitHead _ _ | Waiting _ _ => true
  | _ => false
  end.
Definition after_pass (p : Point) : bool :=
  match p with AtResult | AtCheck | AtBlock | WaitHead _ _ | Waiting _ _ => true | _ => false end.
Definition waits (p : Point) : option (Z * Z) :=
  match p with WaitHead cur final | Waiting cur final => Some (cur, final) | _ => None end.

(** What the last pass has left behind. *)
Record pass_known (s : System) : Prop := {
  pk_keys : readKeys (loop s) = Some (seenKeys (seen_of (last_views (loop s)).*2));
  pk_notified : ∀ k, k ∈ default ∅ (readKeys (loop s)) → (last_base (loop s) < version s k)%nat → notified s k;
  pk_views : ∀ v, v ∈ last_views (loop s) → (last_base (loop s) <= v.1)%nat;
  pk_writes : hadWrites (seen_of (last_views (loop s)).*2) = true →
    ∃ w, loop_wakeup (loop s) = Some w ∧ w <= clock s ∧
      ∀ cur final, waits (at_point (loop s)) = Some (cur, final) → w <= cur;
}.

Record loop_ok (s : System) : Prop := {
  lo_queue : (transactionQueue (reactor s) < length (queues (reactor s)))%nat;
  lo_holding : match pump s with PHolding q _ => (q < length (queues (reactor s)))%nat | _ => True end;
  lo_stopper : match stopper s with SHolding q => (q < length (queues (reactor s)))%nat | _ => True end;
  lo_want : recording (at_point (loop s)) = true → wantRecordTransactions (reactor s) = true;
  lo_version : ∀ k, (version s k <= cur_tid s)%nat;
  lo_pass : ∀ start base closed, at_point (loop s) = Calculating start base closed →
    start <= clock s ∧ (base <= cur_tid s)%nat ∧ (∀ v, v ∈ closed → (base <= v.1)%nat) ∧
    ∀ k, (base < version s k)%nat → notified s k;
  lo_last : after_pass (at_point (loop s)) = true → last_pass_fine (loop s) = true → pass_known s;
  lo_wait : ∀ cur final, waits (at_point (loop s)) = Some (cur, final) →
    cur <= clock s ∧ ∀ w, loop_wakeup (loop s) = Some w → final <= w;
  lo_waiting : ∀ cur final, at_point (loop s) = Waiting cur final → cur < final;
  lo_sleep : ∀ until, at_point (loop s) = AtSleep until → last_pass_fine (loop s) = false;
}.

Lemma loop_ok_new m t : loop_ok (new_System m t).
Proof. by split; cbn; try lia; intros. Qed.

(** ** It is kept *)

(** Steps of the other threads. *)
Lemma loop_ok_frame s s' :
  loop_ok s → loop s' = loop s → cur_tid s' = cur_tid s → versions s' = versions s → clock s <= clock s' →
  wantRecordTransactions (reactor s') = wantRecordTransactions (reactor s) →
  (transactionQueue (reactor s') < length (queues (reactor s')))%nat →
  match pump s' with PHolding q _ => (q < length (queues (reactor s')))%nat | _ => True end →
  match stopper s' with SHolding q => (q < length (queues (reactor s')))%nat | _ => True end →
  (recording (at_point (loop s)) = true → ∀ k, notified s k → notified s' k) →
  loop_ok s'.
Proof.
  intros [Q H S W V P L A B Z] Hl Ht Hv Hc Hw HQ HH HS Hn.
  assert (∀ k, version s' k = version s k) as Hver by (intros k; unfold version; by rewrite Hv).
  split; rewrite ?Hl, ?Ht, ?Hw; try done.
  - intros k. rewrite Hver. apply V.
  - intros start base closed Hp. destruct (P start base closed Hp) as (H1 & H2 & H3 & H4). split_and!; [lia|done..|].
    intros k. rewrite Hver. intros Hk. apply Hn; [by rewrite Hp|by apply H4].
  - intros Hp Hf. destruct (L Hp Hf) as [K N Vw Wr]. split; rewrite ?Hl; try done.
    + intros k Hk. rewrite Hver. intros Hlt. apply Hn; [by destruct (at_point (loop s))|by apply N].
    + intros Hh. destruct (Wr Hh) as (w & Hw1 & Hw2 & Hw3). exists w. split_and!; [done|lia|done].
  - intros cur final Hp. destruct (A cur final Hp) as [H1 H2]. split; [lia|done].
Qed.

Lemma present_put s q x s' :
  (q < length (queues (reactor s)))%nat → reactor s' = put q x (reactor s) →
  ∀ y, y ∈ present s → y ∈ present s'.
Proof.
  intros Hq Hs' y Hy. unfold present in *. rewrite Hs'. cbn [transactionQueue put]. rewrite queue_of_put by done.
  case_decide; [apply elem_of_app; by left|done].
Qed.

Lemma pump_step_ok s : loop_ok s → loop_ok (pump_step s).
Proof.
  intros Hs. pose proof Hs as [Q H S W V P L A B Z]. unfold pump_step. destruct (pump s) as [|l|l|q l] eqn:Hp; [done|..].
  - apply (loop_ok_frame s); cbn; try done; [by destruct (wantRecordTransactions (reactor s))|].
    intros Hr k Hk. unfold notified in *. cbn in *. rewrite (W Hr). rewrite Hp in Hk. exact Hk.
  - apply (loop_ok_frame s); cbn; try done. intros Hr k Hk. unfold notified in *. rewrite Hp in Hk. cbn. naive_solver.
  - assert (∀ r, length (queues (put q (Keys l) r)) = length (queues r)) as Hlen
      by (intros r; unfold put; cbn; by rewrite length_alter).
    apply (loop_ok_frame s); cbn [loop cur_tid versions clock reactor pump stopper]; try done; cbn; rewrite ?Hlen, ?length_alter; try done.
    intros Hr k Hk. unfold notified in *. rewrite Hp in Hk. destruct Hk as [(l' & Hl' & Hk)|[-> Hk]]; left.
    + exists l'. split; [|done]. by apply (present_put s q (Keys l)).
    + exists l. split; [|done]. unfold present. cbn. rewrite queue_of_put by done. rewrite decide_True by done.
      apply elem_of_app. right. by left.
Qed.

Lemma stop_step_ok s : loop_ok s → loop_ok (stop_step s).
Proof.
  intros Hs. pose proof Hs as [Q H S W V P L A B Z]. unfold stop_step. destruct (stopper s) as [| |q|] eqn:Hp; [done|..].
  - by apply (loop_ok_frame s).
  - apply (loop_ok_frame s); cbn; rewrite ?length_alter; try done.
    intros _ k [(l' & Hl' & Hk)|Hk]; [left|by right]. exists l'. split; [|done]. by apply (present_put s q STOP).
  - destruct (at_point (loop s)); try done; by apply (loop_ok_frame s).
Qed.

Lemma lookup_writes (l : list Key) (tid : nat) (m : gmap Key nat) k :
  foldr (λ k m, <[k := tid]> m) m l !! k = if decide (k ∈ l) then Some tid else m !! k.
Proof.
  induction l as [|k' l IH]; cbn [foldr]; [by rewrite decide_False by apply not_elem_of_nil|].
  rewrite lookup_insert, IH. destruct (decide (k' = k)) as [->|Hne].
  - by rewrite decide_True by (by left).
  - destruct (decide (k ∈ l)); [by rewrite decide_True by (by right)|].
    by rewrite decide_False by (intros [->|?]%elem_of_cons; done).
Qed.

Lemma commits_ok s l : pump s = PIdle → loop_ok s → loop_ok (apply_transaction l s).
Proof.
  intros Hp [Q H S W V P L A B Z].
  assert (∀ k, version (apply_transaction l s) k = if decide (k ∈ l) then Datatypes.S (cur_tid s) else version s k) as Hver.
  { intros k. unfold version, apply_transaction. cbn [versions cur_tid]. cbn. rewrite lookup_writes. by case_decide. }
  assert (∀ k b, (b < version (apply_transaction l s) k)%nat → ((b < version s k)%nat → notified s k) →
            notified (apply_transaction l s) k) as Hn.
  { intros k b Hk Hold. rewrite Hver in Hk. unfold notified. cbn. case_decide; [by right|]. left.
    destruct (Hold Hk) as [Hq|Hq]; [exact Hq|]. by rewrite Hp in Hq. }
  split; cbn [reactor loop pump stopper cur_tid clock apply_transaction]; try done.
  - intros k. rewrite Hver. specialize (V k). cbn. case_decide; lia.
  - intros start base closed Hc. destruct (P start base closed Hc) as (H1 & H2 & H3 & H4). cbn. split_and!; [done|lia|done|].
    intros k Hk. by apply (Hn k base Hk), H4.
  - intros Hc Hf. destruct (L Hc Hf) as [K N Vw Wr]. split; cbn; try done. intros k Hk Hlt. apply (Hn k _ Hlt). by apply N.
Qed.

(** Steps of the loop that leave the rest alone. *)
Lemma goto_ok s p :
  loop_ok s →
  (recording p = true → recording (at_point (loop s)) = true) →
  (∀ start base closed, p ≠ Calculating start base closed) →
  (after_pass p = true → after_pass (at_point (loop s)) = true) →
  (∀ cur final, waits p = Some (cur, final) →
    cur <= clock s ∧ (∀ w, loop_wakeup (loop s) = Some w → final <= w) ∧
    (cur = clock s ∨ waits (at_point (loop s)) = Some (cur, final))) →
  (∀ cur final, p = Waiting cur final → cur < final) →
  (∀ until, p ≠ AtSleep until) →
  loop_ok (goto p s).
Proof.
  intros [Q H S W V P L A B Z] Hr Hc Ha Hw Hb Hz. split; cbn; try done.
  - intros Hp. by apply W, Hr.
  - intros start base closed Hp. by destruct (Hc start base closed).
  - intros Hp Hf. destruct (L (Ha Hp) Hf) as [K N Vw Wr]. split; cbn; try done.
    intros Hh. destruct (Wr Hh) as (w & Hw1 & Hw2 & Hw3). exists w. split_and!; [done..|].
    intros cur final Hcur. destruct (Hw cur final Hcur) as (_ & _ & [->|Hold]); [done|by apply (Hw3 cur final)].
  - intros cur final Hcur. by destruct (Hw cur final Hcur) as (H1 & H2 & _).
  - intros t Hu. by destruct (Hz t).
Qed.

(** Points of the loop at which nothing is recorded. *)
Lemma quiet_ok s s' :
  loop_ok s → recording (at_point (loop s')) = false →
  cur_tid s' = cur_tid s → versions s' = versions s → pump s' = pump s → stopper s' = stopper s →
  (transactionQueue (reactor s') < length (queues (reactor s')))%nat →
  (length (queues (reactor s)) <= length (queues (reactor s')))%nat →
  loop_ok s'.
Proof.
  intros [Q H S W V P L A B Z] Hr Ht Hv Hp Hs HQ Hlen. split; rewrite ?Hp, ?Hs, ?Ht.
  - done.
  - destruct (pump s); [done..|lia].
  - destruct (stopper s); [done..|lia|done].
  - by rewrite Hr.
  - intros k. unfold version. rewrite Hv. apply V.
  - intros start base closed Hc. by rewrite Hc in Hr.
  - intros Hc. by destruct (at_point (loop s')).
  - intros cur final Hc. by destruct (at_point (loop s')).
  - intros cur final Hc. by rewrite Hc in Hr.
  - intros t Hc. by rewrite Hc in Hr.
Qed.

Lemma take_item_ok cur final s : at_point (loop s) = Waiting cur final → loop_ok s → loop_ok (take_item final s).
Proof.
  intros Hp Hs. unfold take_item. destruct (queue_of _ _) as [|x rest] eqn:Hq; [done|].
  pose proof Hs as [Q H S W V P L A B Z].
  set (s1 := s <| reactor ::= λ r, r <| queues ::= λ l, <[transactionQueue (reactor s) := rest]> l |> |>).
  assert (length (queues (reactor s1)) = length (queues (reactor s))) as Hlen by (cbn; by rewrite length_insert).
  assert (loop_ok (goto AtUnrecord s1)) as Hquiet.
  { apply (quiet_ok s); try done; cbn [goto loop reactor]; cbn in Hlen |- *; rewrite Hlen; [done|lia]. }
  destruct x as [l|]; [|exact Hquiet]. change (readKeys (loop s1)) with (readKeys (loop s)).
  destruct (triggers _ l) eqn:Ht; [exact Hquiet|].
  assert (present s = Keys l :: rest) as Hpres by exact Hq.
  assert (present s1 = rest) as Hpres1.
  { unfold present, queue_of. cbn. by rewrite list_lookup_insert_eq by done. }
  destruct (A cur final ltac:(by rewrite Hp)) as [Hcur Hfin].
  split; cbn [goto loop reactor pump stopper cur_tid clock]; try done.
  - cbn in Hlen |- *. by rewrite Hlen.
  - cbn in Hlen |- *. by rewrite Hlen.
  - cbn in Hlen |- *. by rewrite Hlen.
  - cbn. intros _. apply W. by rewrite Hp.
  - intros _ Hf. destruct (L ltac:(by rewrite Hp) Hf) as [K N Vw Wr]. split; cbn; try done.
    + intros k Hk Hlt. destruct (N k Hk Hlt) as [(l' & Hl' & Hkl)|Hpend]; [left|by right].
      exists l'. split; [|done]. change (present (goto _ s1)) with (present s1). rewrite Hpres1. rewrite Hpres in Hl'.
      apply elem_of_cons in Hl' as [[= ->]|Hl']; [|done]. exfalso. apply not_true_iff_false in Ht. apply Ht.
      unfold triggers. apply existsb_exists. exists k. split; [by apply list_elem_of_In|by apply bool_decide_eq_true].
    + intros Hh. destruct (Wr Hh) as (w & Hw1 & Hw2 & Hw3). exists w. split_and!; [done..|]. by intros ? ? [= <- <-].
  - cbn. intros ? ? [= <- <-]. split; [lia|done].
Qed.

Lemma final_time_wakeup now next timeout w : next = Some w → final_time now next timeout <= w.
Proof. intros ->. unfold final_time. case_bool_decide; lia. Qed.

Lemma drained_ok p s : recording p = false → loop_ok s → loop_ok (goto p (s <| reactor ::= _drainTransactionQueue |>)).
Proof.
  intros Hp Hs. pose proof (lo_queue s Hs). apply (quiet_ok s); try done; cbn; rewrite length_app; cbn; lia.
Qed.

Lemma loop_step_ok s : loop_ok s → loop_ok (loop_step s).
Proof.
  intros Hs. pose proof Hs as [Q H S W V P L A B Z]. unfold loop_step.
  destruct (at_point (loop s)) as [| | | |start base closed|until| | | | | |cur final|cur final| | | |] eqn:Hp; try done.
  - destruct (isStarted (reactor s)); apply (quiet_ok s); done.
  - by apply drained_ok.
  - split; cbn; try done; try exact V. intros ? ? ? [= <- <- <-]. split_and!; [lia|lia|set_solver|].
    intros k Hk. specialize (V k). cbn in Hk, V. unfold version in *. cbn in Hk. lia.
  - case_bool_decide; [|done]. split; cbn; try done; try exact V.
    intros _ Hf. by rewrite (Z until) in Hf.
  - destruct (readKeys (loop s)); [|by apply (quiet_ok s)]. apply goto_ok; rewrite ?Hp; try done.
  - destruct (isStarted (reactor s)); [|by apply (quiet_ok s)]. apply goto_ok; rewrite ?Hp; try done.
  - by apply drained_ok.
  - destruct (would_block_forever _ _ _); [by apply (quiet_ok s)|]. apply goto_ok; rewrite ?Hp; try done.
    cbn. intros ? ? [= <- <-]. split_and!; [lia| |by left]. intros w Hw. by apply final_time_wakeup.
  - destruct (A cur final eq_refl) as [H1 H2]. case_bool_decide; [|by apply (quiet_ok s)].
    apply goto_ok; rewrite ?Hp; try done; cbn; [|by intros ? ? [= <- <-]].
    intros ? ? [= <- <-]. split_and!; [done..|by right].
  - by apply (take_item_ok cur).
  - by apply drained_ok.
Qed.

Lemma finish_pass_ok start base closed wakeup result s :
  at_point (loop s) = Calculating start base closed → loop_ok s → loop_ok (finish_pass start base closed wakeup result s).
Proof.
  intros Hp [Q H S W V P L A B Z]. destruct (P _ _ _ Hp) as (H1 & H2 & H3 & H4). rewrite Hp in W.
  unfold finish_pass. destruct (calculate_end true start closed.*2 wakeup result) as [[[r keys] next]|e] eqn:Hend.
  - assert (keys = seenKeys (seen_of closed.*2) ∧ (hadWrites (seen_of closed.*2) = true → next = Some start)) as [-> Hnext].
    { unfold calculate_end in Hend. destruct result as [x|e].
      - injection Hend as <- <- <-. split; [done|]. by intros ->.
      - destruct (true && _); [|done]. by injection Hend as <- <- <-. }
    split; cbn; try done; try exact V. intros _ _. split; cbn; try done.
    + intros k _ Hk. by apply H4.
    + intros Hh. exists start. split_and!; [by apply Hnext|lia|done].
  - split; cbn; try done; try exact V.
Qed.

Lemma view_closes_ok tid a start base closed s :
  at_point (loop s) = Calculating start base closed → (base <= tid <= cur_tid s)%nat → loop_ok s →
  loop_ok (goto (Calculating start base (closed ++ [(tid, a)])) s).
Proof.
  intros Hp Ht [Q H S W V P L A B Z]. destruct (P _ _ _ Hp) as (H1 & H2 & H3 & H4). rewrite Hp in W.
  split; cbn; try done; try exact V. intros ? ? ? [= <- <- <-]. split_and!; [done..| |done].
  intros v [Hv| ->%list_elem_of_singleton]%elem_of_app; [by apply H3|cbn; lia].
Qed.

Lemma happen_ok h s : loop_ok s → loop_ok (happen h s).
Proof.
  intros Hs. pose proof Hs as [Q H S W V P L A B Z].
  destruct h as [|tid a|wakeup result| |l| | | | | |d]; cbn [happen].
  - by apply loop_step_ok.
  - destruct (at_point (loop s)) eqn:Hp; try done. case_bool_decide; [|done]. by apply view_closes_ok.
  - destruct (at_point (loop s)) eqn:Hp; try done. by apply finish_pass_ok.
  - destruct (at_point (loop s)) eqn:Hp; try done. destruct (_ && _); [|done]. by apply (quiet_ok s).
  - destruct (pump s) eqn:Hp; try done. by apply commits_ok.
  - by apply pump_step_ok.
  - destruct (stopper s) eqn:Hst; try done. unfold start. destruct (_ || _); [done|]. apply (quiet_ok s); done.
  - destruct (stopper s) eqn:Hst; try done. unfold stop. destruct (has_thread _); [|done]. by apply (loop_ok_frame s).
  - by apply stop_step_ok.
  - destruct (stopper s) eqn:Hst; try done. unfold teardown. destruct (has_thread _); [done|]. apply (loop_ok_frame s); try done. cbn. by rewrite Hst.
  - apply (loop_ok_frame s); try done. cbn. lia.
Qed.

Lemma run_system_app hs1 hs2 s : run_system (hs1 ++ hs2) s = run_system hs2 (run_system hs1 s).
Proof. apply foldl_app. Qed.

Lemma run_ok hs s : loop_ok s → loop_ok (run_system hs s).
Proof. revert s. induction hs as [|h hs IH]; intros s Hs; [done|]. by apply IH, happen_ok. Qed.

(** ** Waking up *)

(** A loop that waits, with a key that it read mentioned in its queue, stops waiting. *)
Lemma wakes n : ∀ s cur final l k,
  loop_ok s → at_point (loop s) = Waiting cur final → (length (present s) <= n)%nat →
  Keys l ∈ present s → k ∈ l → k ∈ default ∅ (readKeys (loop s)) →
  ∃ m, at_point (loop (run_system (replicate m LoopSteps) s)) = AtUnrecord.
Proof.
  induction n as [|n IH]; intros s cur final l k Hs Hp Hlen Hl Hk Hread.
  { destruct (present s); [by apply elem_of_nil in Hl|cbn in Hlen; lia]. }
  destruct (present s) as [|x rest] eqn:Hpres; [by apply elem_of_nil in Hl|]. cbn in Hlen.
  pose proof (lo_queue s Hs) as Hq.
  destruct x as [l'|].
  2: { exists 1%nat. cbn. unfold loop_step. rewrite Hp. unfold take_item. unfold present in Hpres. by rewrite Hpres. }
  destruct (triggers (default ∅ (readKeys (loop s))) l') eqn:Ht.
  { exists 1%nat. cbn. unfold loop_step. rewrite Hp. unfold take_item. unfold present in Hpres. rewrite Hpres. cbn. by rewrite Ht. }
  assert (Keys l ∈ rest) as Hrest.
  { apply elem_of_cons in Hl as [[= ->]|Hl]; [|done]. exfalso. apply not_true_iff_false in Ht. apply Ht.
    apply existsb_exists. exists k. split; [by apply list_elem_of_In|by apply bool_decide_eq_true]. }
  set (s1 := loop_step s). assert (loop_ok s1) as Hs1 by by apply loop_step_ok.
  assert (at_point (loop s1) = WaitHead (clock s) final ∧ present s1 = rest ∧ readKeys (loop s1) = readKeys (loop s)) as (Hp1 & Hpres1 & Hr1).
  { unfold s1, loop_step. rewrite Hp. unfold take_item. unfold present in Hpres. rewrite Hpres. cbn. rewrite Ht. cbn.
    split_and!; [done| |done]. unfold present, queue_of. cbn. by rewrite list_lookup_insert_eq. }
  destruct (decide (clock s < final)) as [Hlt|Hge].
  - set (s2 := loop_step s1). assert (loop_ok s2) as Hs2 by by apply loop_step_ok.
    assert (s2 = goto (Waiting (clock s) final) s1) as Hs2eq.
    { unfold s2, loop_step. rewrite Hp1. by rewrite bool_decide_true. }
    destruct (IH s2 (clock s) final l k) as [m Hm]; try done.
    + by rewrite Hs2eq.
    + rewrite Hs2eq. change (present (goto _ s1)) with (present s1). rewrite Hpres1. lia.
    + rewrite Hs2eq. change (present (goto _ s1)) with (present s1). by rewrite Hpres1.
    + rewrite Hs2eq. change (loop (goto _ s1)) with (loop s1 <| at_point := Waiting (clock s) final |>). cbn. by rewrite Hr1.
    + by exists (Datatypes.S (Datatypes.S m)).
  - exists 2%nat. cbn. change (at_point (loop (loop_step s1)) = AtUnrecord). unfold loop_step. rewrite Hp1.
    by rewrite bool_decide_false.
Qed.

(** The connection finishes what it does; the loop stays where it is. *)
Lemma pump_settles s :
  loop_ok s → recording (at_point (loop s)) = true →
  let s' := run_system (replicate 3 PumpSteps) s in
  loop s' = loop s ∧ loop_ok s' ∧ ∀ k, notified s k → ∃ l, Keys l ∈ present s' ∧ k ∈ l.
Proof.
  intros Hs Hr s'.
  assert (loop_ok s') as Hs' by by apply run_ok.
  pose proof (lo_want s Hs Hr) as Hw. pose proof (lo_queue s Hs) as Hq. pose proof (lo_holding s Hs) as Hh.
  assert (∀ q l s0, (q < length (queues (reactor s0)))%nat → pump s0 = PHolding q l →
    ∀ k, notified s0 k → ∃ l, Keys l ∈ present (pump_step s0) ∧ k ∈ l) as Hput.
  { intros q l s0 Hq0 Hp0 k [(l' & Hl' & Hk)|Hk]; unfold pump_step; rewrite Hp0 in *.
    - exists l'. split; [|done]. by apply (present_put s0 q (Keys l)).
    - destruct Hk as [-> Hk]. exists l. split; [|done]. unfold present. cbn. rewrite queue_of_put by done.
      rewrite decide_True by done. apply elem_of_app. right. by left. }
  assert (∀ s0, pump s0 = PIdle → pump_step s0 = s0) as Hidle by (intros s0 H0; unfold pump_step; by rewrite H0).
  change s' with (pump_step (pump_step (pump_step s))) in *. clear s'.
  destruct (pump s) as [|l|l|q l] eqn:Hp.
  - rewrite !(Hidle s Hp). split_and!; [done..|]. intros k [Hk|Hk]; [done|]. by rewrite Hp in Hk.
  - set (s2 := s <| pump := PNoted l |> <| pump := PHolding (transactionQueue (reactor s)) l |>).
    assert (pump_step (pump_step s) = s2) as Heq by (unfold pump_step at 2; by rewrite Hp, Hw).
    rewrite Heq in *. split_and!; [done..|]. intros k Hk. apply (Hput (transactionQueue (reactor s)) l); [done..|].
    unfold notified in *. rewrite Hp in Hk. cbn. destruct Hk as [Hk|Hk]; [by left|by right].
  - set (s2 := s <| pump := PHolding (transactionQueue (reactor s)) l |>).
    assert (pump_step (pump_step (pump_step s)) = pump_step s2) as Heq.
    { rewrite Hidle; unfold pump_step at 2; by rewrite Hp. }
    rewrite Heq in *. split_and!; [done..|]. intros k Hk. apply (Hput (transactionQueue (reactor s)) l); [done..|].
    unfold notified in *. rewrite Hp in Hk. cbn. destruct Hk as [Hk|Hk]; [by left|by right].
  - assert (pump (pump_step s) = PIdle) as Hdone by (unfold pump_step; by rewrite Hp).
    rewrite !(Hidle _ Hdone) in *. split_and!; [unfold pump_step; by rewrite Hp|done|]. by apply (Hput q l).
Qed.

(** C26. A reactor misses no update: when its loop waits after a pass of the function that did not
    raise, and a key that one of the views of the pass read was written since that view, then the
    loop is woken for another pass, as soon as the connection has finished what it is doing. This
    holds in every interleaving of the accesses of the loop, of the connection and of the thread
    that starts and stops the reactor, although none of them holds a lock. *)
Theorem reactor_misses_no_update m t hs cur final tid a k
    (Hwaits : let s := run_system hs (new_System m t) in at_point (loop s) = Waiting cur final ∧ last_pass_fine (loop s) = true)
    (Hread : let s := run_system hs (new_System m t) in (tid, a) ∈ last_views (loop s) ∧ k ∈ keys_read a)
    (Hwritten : (tid < version (run_system hs (new_System m t)) k)%nat) :
  ∃ n, at_point (loop (run_system (hs ++ replicate 3 PumpSteps ++ replicate n LoopSteps) (new_System m t))) = AtUnrecord.
Proof.
  set (s := run_system hs (new_System m t)) in *. cbv zeta in Hwaits, Hread. destruct Hwaits as [Hp Hf], Hread as [Hv Hk].
  assert (loop_ok s) as Hs by (apply run_ok, loop_ok_new).
  destruct (lo_last s Hs ltac:(by rewrite Hp) Hf) as [K N Vw Wr].
  assert (hadWrites (seen_of (last_views (loop s)).*2) = false) as Hwr.
  { apply not_true_iff_false. intros Hh. destruct (Wr Hh) as (w & Hw & _ & Hcur).
    specialize (Hcur cur final ltac:(by rewrite Hp)). pose proof (lo_waiting s Hs cur final Hp).
    destruct (lo_wait s Hs cur final ltac:(by rewrite Hp)) as [_ Hfin]. specialize (Hfin w Hw). lia. }
  assert (k ∈ default ∅ (readKeys (loop s))) as Hkr.
  { rewrite K. cbn. apply (seen_all _ Hwr a); [|done]. apply list_elem_of_fmap. by exists (tid, a). }
  specialize (Vw _ Hv). cbn in Vw. specialize (N k Hkr ltac:(lia)).
  destruct (pump_settles s Hs ltac:(by rewrite Hp)) as (Hl & Hs' & Hn).
  destruct (Hn k N) as (l & Hl' & Hkl).
  destruct (wakes _ _ cur final l k Hs' ltac:(by rewrite Hl) (le_n _) Hl' Hkl ltac:(by rewrite Hl)) as [n Hend].
  exists n. by rewrite !run_system_app.
Qed.

(** ** Stopping *)

(** The loop is in [_blockUntilRecalculate]. *)
Definition in_block (p : Point) : bool := match p with AtBlock | WaitHead _ _ | Waiting _ _ => true | _ => false end.

Record stop_ok (s : System) : Prop := {
  so_stopped : stopper s ≠ SIdle → isStarted (reactor s) = false;
  so_told : in_block (at_point (loop s)) = true → isStarted (reactor s) = false →
    match stopper s with
    | SCleared => True
    | SHolding q => q = transactionQueue (reactor s) ∨ STOP ∈ present s
    | _ => STOP ∈ present s
    end;
}.

Lemma stop_ok_frame s s' :
  stop_ok s → stopper s' = stopper s → isStarted (reactor s') = isStarted (reactor s) →
  (in_block (at_point (loop s')) = true → in_block (at_point (loop s)) = true ∧
    transactionQueue (reactor s') = transactionQueue (reactor s) ∧ (STOP ∈ present s → STOP ∈ present s')) →
  stop_ok s'.
Proof.
  intros [S T] Hst His Hb. split; rewrite ?Hst, ?His; [done|]. intros Hin Hs.
  destruct (Hb Hin) as (Hin0 & Hq & Hp). specialize (T Hin0 Hs). rewrite Hq. destruct (stopper s); naive_solver.
Qed.

(** Steps after which the loop is elsewhere. *)
Lemma stop_ok_elsewhere s s' :
  stop_ok s → stopper s' = stopper s → isStarted (reactor s') = isStarted (reactor s) →
  in_block (at_point (loop s')) = false → stop_ok s'.
Proof. intros Hs H1 H2 H3. apply (stop_ok_frame s); try done. by rewrite H3. Qed.

Lemma loop_step_stop_ok s : loop_ok s → stop_ok s → stop_ok (loop_step s).
Proof.
  intros Hok Hs. pose proof Hs as [S T]. unfold loop_step.
  destruct (at_point (loop s)) as [| | | |start base closed|until| | | | | |cur final|cur final| | | |] eqn:Hp;
    try (by apply (stop_ok_elsewhere s)); try done.
  - destruct (isStarted (reactor s)) eqn:Hst; by apply (stop_ok_elsewhere s).
  - case_bool_decide; [by apply (stop_ok_elsewhere s)|done].
  - destruct (readKeys (loop s)); by apply (stop_ok_elsewhere s).
  - destruct (isStarted (reactor s)) eqn:Hst; [|by apply (stop_ok_elsewhere s)].
    split; cbn; [rewrite Hst; done|]. intros _. by rewrite Hst.
  - destruct (would_block_forever _ _ _); [by apply (stop_ok_elsewhere s)|]. apply (stop_ok_frame s); try done. by rewrite Hp.
  - case_bool_decide; [|by apply (stop_ok_elsewhere s)]. apply (stop_ok_frame s); try done. by rewrite Hp.
  - unfold take_item. destruct (queue_of _ _) as [|x rest] eqn:Hq; [done|].
    pose proof (lo_queue s Hok) as Hlen. destruct x as [l|]; [|by apply (stop_ok_elsewhere s)]. cbn zeta.
    destruct (triggers _ l); [by apply (stop_ok_elsewhere s)|]. apply (stop_ok_frame s); try done. intros _.
    split_and!; [by rewrite Hp|done|]. unfold present. rewrite Hq. unfold queue_of. cbn.
    rewrite list_lookup_insert_eq by done. cbn. by intros [[=]|Hin]%elem_of_cons.
Qed.

Lemma stop_step_stop_ok s : loop_ok s → stop_ok s → stop_ok (stop_step s).
Proof.
  intros Hok Hs. pose proof Hs as [S T]. pose proof (lo_stopper s Hok) as Hq. unfold stop_step.
  destruct (stopper s) as [| |q|] eqn:Hst; [done|..].
  - split; cbn; [intros _; by apply S|]. intros _ _. by left.
  - split; cbn [stopper reactor loop]; [intros _; cbn; by apply S|]. intros Hin His. cbn in His. specialize (T Hin His).
    destruct T as [->|T]; [|by apply (present_put s q STOP)]. unfold present. cbn. rewrite queue_of_put by done.
    rewrite decide_True by done. apply elem_of_app. right. by left.
  - destruct (at_point (loop s)) eqn:Hp; try done; split; cbn; try done; by rewrite Hp.
Qed.

Lemma happen_stop_ok h s : loop_ok s → stop_ok s → stop_ok (happen h s).
Proof.
  intros Hok Hs. pose proof Hs as [S T]. destruct h as [|tid a|wakeup result| |l| | | | | |d]; cbn [happen].
  - by apply loop_step_stop_ok.
  - destruct (at_point (loop s)) eqn:Hp; try done. case_bool_decide; [|done]. by apply (stop_ok_elsewhere s).
  - destruct (at_point (loop s)) eqn:Hp; try done. unfold finish_pass.
    destruct (calculate_end _ _ _ _ _) as [[[r keys] next]|e]; by apply (stop_ok_elsewhere s).
  - destruct (at_point (loop s)) eqn:Hp; try done. destruct (_ && _); [|done]. by apply (stop_ok_elsewhere s).
  - destruct (pump s); try done; by apply (stop_ok_frame s).
  - pose proof (lo_holding s Hok) as Hh. unfold pump_step. destruct (pump s) as [|l|l|q l] eqn:Hp; [done|by apply (stop_ok_frame s)..|].
    apply (stop_ok_frame s); try done. intros Hin. split_and!; [done..|]. by apply (present_put s q (Keys l)).
  - destruct (stopper s) eqn:Hst; try done. unfold start. destruct (_ || _); [done|]. split; cbn; [by rewrite Hst|done].
  - destruct (stopper s) eqn:Hst; try done. unfold stop. destruct (has_thread _); [|done]. by split.
  - by apply stop_step_stop_ok.
  - destruct (stopper s) eqn:Hst; try done. unfold teardown. destruct (has_thread _); [done|]. apply (stop_ok_frame s); try done; cbn; by rewrite Hst.
  - by apply (stop_ok_frame s).
Qed.

Lemma run_stop_ok hs m t : stop_ok (run_system hs (new_System m t)).
Proof.
  induction hs as [|h hs IH] using rev_ind; [by split|]. rewrite run_system_app. apply happen_stop_ok; [|done].
  apply run_ok, loop_ok_new.
Qed.

Lemma loop_step_started s : isStarted (reactor (loop_step s)) = isStarted (reactor s).
Proof.
  unfold loop_step, take_item. destruct (at_point (loop s)); try done; try (by case_bool_decide).
  - by destruct (would_block_forever _ _ _).
  - destruct (queue_of _ _) as [|[l|] rest]; [done| |done]. cbn zeta. by destruct (triggers _ l).
Qed.

(** Which point it is, without the data. *)
Definition place (p : Point) : nat :=
  match p with
  | AtTop => 0 | AtDrain => 1 | AtRecord => 2 | AtCalculate => 3 | Calculating _ _ _ => 4 | AtSleep _ => 5
  | AtResult => 6 | AtCheck => 7 | AtQuit => 8 | AtQuitDrain => 9 | AtBlock => 10 | WaitHead _ _ => 11
  | Waiting _ _ => 12 | AtUnrecord => 13 | AtDrain2 => 14 | Exited => 15 | Died => 16
  end.
Definition position (s : System) : nat := place (at_point (loop s)).
Definition moves_on (h : happening) (s : System) : nat :=
  if decide (position (happen h s) = position s) then 0 else 1.

(** How often the loop moves on. *)
Fixpoint moves (hs : list happening) (s : System) : nat :=
  match hs with [] => 0 | h :: hs => (moves_on h s + moves hs (happen h s))%nat end.

Definition over (p : Point) : Prop := p = Exited ∨ p = Died.

(** What is in the queue before the request to stop. *)
Fixpoint before_stop (l : list Item) : nat := match l with Keys _ :: l => Datatypes.S (before_stop l) | _ => 0 end.

Lemma before_stop_app l x : STOP ∈ l → before_stop (l ++ [x]) = before_stop l.
Proof. induction l as [|[k|] l IH]; cbn; [by intros ?%elem_of_nil| |done]. intros [[=]|Hl]%elem_of_cons. by rewrite IH. Qed.

Lemma before_stop_length l : (before_stop l <= length l)%nat.
Proof. induction l as [|[k|] l IH]; cbn; lia. Qed.

(** How many moves a loop has left that was told to stop. *)
Definition moves_left (s : System) : nat :=
  match at_point (loop s) with
  | Exited | Died => 0
  | AtTop | AtQuitDrain => 1
  | AtDrain2 | AtQuit => 2
  | AtUnrecord | AtCheck => 3
  | AtResult => 4 | AtSleep _ => 5 | Calculating _ _ _ => 6 | AtCalculate => 7 | AtRecord => 8 | AtDrain => 9
  | Waiting _ _ => 4 + 2 * before_stop (present s)
  | WaitHead _ _ => 5 + 2 * before_stop (present s)
  | AtBlock => 6 + 2 * before_stop (present s)
  end.

Lemma moves_left_bound s : (moves_left s <= 9 + 2 * length (present s))%nat.
Proof. pose proof (before_stop_length (present s)). unfold moves_left. destruct (at_point (loop s)); lia. Qed.

(** The thread in [stop] waits for the end of the loop, or has returned. *)
Record told (s : System) : Prop := {
  t_loop : loop_ok s;
  t_stop : stop_ok s;
  t_started : isStarted (reactor s) = false;
  t_stopper : stopper s = SJoining ∨ (stopper s = SIdle ∧ has_thread (reactor s) = false ∧ over (at_point (loop s)));
}.

Lemma told_stop s : told s → in_block (at_point (loop s)) = true → STOP ∈ present s.
Proof.
  intros [_ [_ T] Hs Hst] Hin. specialize (T Hin Hs). destruct Hst as [Hst|(Hst & _)]; by rewrite Hst in T.
Qed.

(** Other threads leave the loop where it is, and only add to the queue. *)
Definition aside (s s' : System) : Prop :=
  loop s' = loop s ∧ (STOP ∈ present s → before_stop (present s') = before_stop (present s)).

Lemma aside_moves s s' : told s → aside s s' → moves_left s' = moves_left s ∧ position s' = position s.
Proof.
  intros Ht [Hl Hb]. unfold moves_left, position. rewrite Hl. split; [|done].
  pose proof (told_stop s Ht) as Hs. destruct (at_point (loop s)); try done; by rewrite Hb by by apply Hs.
Qed.

Lemma pump_aside s : loop_ok s → aside s (pump_step s).
Proof.
  intros Hok. pose proof (lo_holding s Hok) as Hh. unfold pump_step. destruct (pump s) as [|l|l|q l]; try done.
  split; [done|]. intros Hs. unfold present in *. cbn [reactor transactionQueue put]. cbn.
  change (before_stop (queue_of (put q (Keys l) (reactor s)) (transactionQueue (reactor s))) =
    before_stop (queue_of (reactor s) (transactionQueue (reactor s)))).
  rewrite queue_of_put by done. case_decide; [|done]. by apply before_stop_app.
Qed.

(** The loop moves on, or cannot: in the function, in [sleep] and at its end. *)
Definition held (s : System) : Prop :=
  over (at_point (loop s)) ∨ (∃ start base closed, at_point (loop s) = Calculating start base closed) ∨
  ∃ until, at_point (loop s) = AtSleep until ∧ clock s < until.

Lemma take_item_moves cur final s :
  loop_ok s → at_point (loop s) = Waiting cur final → STOP ∈ present s →
  (moves_left (take_item final s) < moves_left s)%nat ∧ position (take_item final s) ≠ position s.
Proof.
  intros Hok Hp Hstop. pose proof (lo_queue s Hok) as Hq.
  assert (moves_left s = 4 + 2 * before_stop (present s) ∧ position s = 12)%nat as [Hm Hpos]
    by (unfold moves_left, position; by rewrite Hp).
  rewrite Hm, Hpos. unfold take_item. unfold present in *.
  destruct (queue_of (reactor s) (transactionQueue (reactor s))) as [|[l|] rest]; [by apply elem_of_nil in Hstop| |].
  - cbn zeta. destruct (triggers _ l); [split; [unfold moves_left; cbn|]; [lia|done]|]. split; [|done].
    unfold moves_left, present, queue_of. cbn. rewrite list_lookup_insert_eq by done. cbn. lia.
  - split; [unfold moves_left; cbn; lia|done].
Qed.

Lemma loop_step_moves s :
  told s → held s ∧ loop_step s = s ∨ (moves_left (loop_step s) < moves_left s)%nat ∧ position (loop_step s) ≠ position s.
Proof.
  intros Ht. pose proof (t_loop s Ht) as Hok. pose proof (t_started s Ht) as Hs. pose proof (told_stop s Ht) as Hstop.
  unfold loop_step, held.
  destruct (at_point (loop s)) as [| | | |start base closed|until| | | | | |cur final|cur final| | | |] eqn:Hp;
    rewrite ?Hs; try (right; unfold moves_left, position; rewrite Hp; cbn; split; [lia|done]).
  - left. split; [|done]. right. left. by eexists _, _, _.
  - case_bool_decide; [right; unfold moves_left, position; rewrite Hp; cbn; split; [lia|done]|].
    left. split; [|done]. right. right. exists until. split; [done|lia].
  - right. unfold moves_left, position. rewrite Hp. destruct (readKeys (loop s)); cbn; split; (lia || done).
  - right. unfold moves_left, position. rewrite Hp. destruct (would_block_forever _ _ _); cbn; split; try lia; try done.
    change (present (goto _ s)) with (present s). lia.
  - right. unfold moves_left, position. rewrite Hp. case_bool_decide; cbn; split; try lia; try done.
    change (present (goto _ s)) with (present s). lia.
  - right. by apply (take_item_moves cur); [|done|apply Hstop].
  - left. split; [|done]. left. by left.
  - left. split; [|done]. left. by right.
Qed.

Lemma told_happen h s : h ≠ Start → told s → told (happen h s).
Proof.
  intros Hh Ht. pose proof Ht as [Hok Hstop Hs Hst].
  split; [by apply happen_ok|by apply happen_stop_ok| |].
  - destruct h; cbn [happen]; try done.
    + by rewrite loop_step_started.
    + destruct (at_point _); try done. by case_bool_decide.
    + destruct (at_point _); try done. unfold finish_pass. by destruct (calculate_end _ _ _ _ _) as [[[? ?] ?]|].
    + destruct (at_point _); try done. by destruct (_ && _).
    + by destruct (pump s).
    + unfold pump_step. by destruct (pump s).
    + destruct (stopper s); try done. unfold stop. by destruct (has_thread _).
    + unfold stop_step. destruct (stopper s); try done. by destruct (at_point _).
    + destruct (stopper s); try done. unfold teardown. by destruct (has_thread _).
  - destruct h; cbn [happen]; try done.
    + assert (stopper (loop_step s) = stopper s ∧ has_thread (reactor (loop_step s)) = has_thread (reactor s)) as [H1 H2].
      { unfold loop_step, take_item. destruct (at_point (loop s)); try done; try (by case_bool_decide).
        - by destruct (would_block_forever _ _ _).
        - destruct (queue_of _ _) as [|[l|] rest]; [done| |done]. cbn zeta. by destruct (triggers _ l). }
      rewrite H1, H2. destruct Hst as [Hst|(Hst & Hth & Hov)]; [by left|right]. split_and!; [done..|].
      assert (loop_step s = s) as -> by (unfold loop_step; by destruct Hov as [-> | ->]). exact Hov.
    + destruct (at_point (loop s)) eqn:Hp; try by rewrite <-Hp in Hst. case_bool_decide; [|by rewrite <-Hp in Hst].
      left. destruct Hst as [Hst|(_ & _ & [?|?])]; [exact Hst|discriminate..].
    + destruct (at_point (loop s)) eqn:Hp; try by rewrite <-Hp in Hst.
      left. destruct Hst as [Hst|(_ & _ & [?|?])]; [|discriminate..].
      unfold finish_pass. by destruct (calculate_end _ _ _ _ _) as [[[? ?] ?]|].
    + destruct (at_point (loop s)) eqn:Hp; try by rewrite <-Hp in Hst. destruct (_ && _); [|by rewrite <-Hp in Hst].
      left. destruct Hst as [Hst|(_ & _ & [?|?])]; [exact Hst|discriminate..].
    + by destruct (pump s).
    + unfold pump_step. by destruct (pump s).
    + destruct Hst as [Hst|(Hst & Hth & Hov)]; rewrite Hst; [by left|]. unfold stop. rewrite Hth. by right.
    + unfold stop_step. destruct Hst as [Hst|(Hst & Hth & Hov)]; rewrite Hst; [|by right].
      destruct (at_point (loop s)) eqn:Hp; cbn; try (by left); right; rewrite Hp; split_and!; try done; [by left|by right].
    + destruct Hst as [Hst|(Hst & Hth & Hov)]; rewrite Hst; [by left|]. unfold teardown. rewrite Hth. by right.
Qed.

Lemma happen_moves h s : h ≠ Start → told s → (moves_on h s + moves_left (happen h s) <= moves_left s)%nat.
Proof.
  intros Hh Ht. pose proof Ht as [Hok _ Hs _]. unfold moves_on.
  assert (∀ s', aside s s' → ((if decide (position s' = position s) then 0 else 1) + moves_left s' <= moves_left s)%nat) as Haside.
  { intros s' Ha. destruct (aside_moves s s' Ht Ha) as [-> ->]. by rewrite decide_True. }
  assert (∀ s', (moves_left s' < moves_left s)%nat →
    ((if decide (position s' = position s) then 0 else 1) + moves_left s' <= moves_left s)%nat) as Hless.
  { intros s' Hlt. case_decide; lia. }
  destruct h as [|tid a|wakeup result| |l| | | | | |d]; cbn [happen]; try done.
  - destruct (loop_step_moves s Ht) as [[_ ->]|[Hlt _]]; [by apply Haside|by apply Hless].
  - destruct (at_point (loop s)) eqn:Hp; try by apply Haside. case_bool_decide; [|by apply Haside].
    unfold position, moves_left. cbn. rewrite Hp. cbn. rewrite decide_True by done. lia.
  - destruct (at_point (loop s)) eqn:Hp; try by apply Haside. apply Hless.
    unfold finish_pass, moves_left. rewrite Hp. destruct (calculate_end _ _ _ _ _) as [[[? ?] ?]|]; cbn; lia.
  - destruct (at_point (loop s)) eqn:Hp; try by apply Haside. destruct (_ && _); [|by apply Haside]. apply Hless.
    unfold moves_left. cbn. rewrite Hp. lia.
  - by destruct (pump s); apply Haside.
  - by apply Haside, pump_aside.
  - destruct (stopper s); try by apply Haside. unfold stop. by destruct (has_thread _); apply Haside.
  - apply Haside. unfold stop_step. destruct (t_stopper s Ht) as [Hst|(Hst & _)]; rewrite Hst; [|done].
    by destruct (at_point (loop s)).
  - destruct (stopper s); try by apply Haside. unfold teardown. by destruct (has_thread _); apply Haside.
  - by apply Haside.
Qed.

Lemma run_moves more s :
  Start ∉ more → told s → told (run_system more s) ∧ (moves more s + moves_left (run_system more s) <= moves_left s)%nat.
Proof.
  revert s. induction more as [|h more IH]; intros s Hno Ht; [by split|].
  apply not_elem_of_cons in Hno as [Hh Hno].
  destruct (IH (happen h s) Hno) as [Ht' Hm]; [by apply told_happen|].
  pose proof (happen_moves h s (not_eq_sym Hh) Ht). split; [exact Ht'|]. cbn [moves].
  change (run_system (h :: more) s) with (run_system more (happen h s)). lia.
Qed.

(** C27. A call of [stop] ends the loop, in every interleaving and however its function behaves.
    Once the thread in [stop] waits for the loop, whatever happens as long as nobody calls [start]
    again (transactions, views, passes of the function that end normally or raise), the loop moves
    on at most nine times and twice for each item in its queue; so it calls the function at most
    once more.  And it never waits for anything but its function and the time that it sleeps after
    an exception: at every moment it has ended, or it is in the function, or it sleeps, or its next
    step moves it on. *)
Theorem stop_reaches_the_loop m t hs more
    (Hjoins : stopper (run_system hs (new_System m t)) = SJoining) (Hstart : Start ∉ more) :
  let s := run_system hs (new_System m t) in
  let s' := run_system more s in
  (moves more s <= 9 + 2 * length (present s))%nat ∧ (held s' ∨ position (loop_step s') ≠ position s').
Proof.
  intros s s'.
  assert (told s) as Ht.
  { pose proof (run_stop_ok hs m t) as Hok. fold s in Hok, Hjoins. split; [apply run_ok, loop_ok_new|done| |by left].
    apply (so_stopped s Hok). by rewrite Hjoins. }
  destruct (run_moves more s Hstart Ht) as [Ht' Hm]. pose proof (moves_left_bound s). split; [lia|].
  destruct (loop_step_moves s' Ht') as [[? _]|[_ ?]]; [by left|by right].
Qed.

(** ** Used by calls *)

(** [blockUntilTrue] without a timeout returns true although its function did not: when the
    function asked to be called again at a certain time, and nothing that it read changes until
    then, the wait ends with [Timeout], which is taken for a true result; the function is not even
    called again. *)
Theorem wakeup_ends_blockUntilTrue {R} (truthy : R → bool) (reactorFunction : M ReactorThread R) env calls s w t
    (Hfree : has_thread (rx s) = false) (Hup : isTornDown (rx s) = false) (Hread : lastReadKeys (rx s) ≠ ∅)
    (Hwakeup : nextWakeup (rx s) = Some w) (Hahead : at_time env < w)
    (Hquiet : arriving env = [(None, t)]) :
  blockUntilTrue_forever truthy reactorFunction (env :: calls) s = (Ok (Some true), s).
Proof.
  assert (at_time env < final_time (at_time env) (Some w) None) as Hlt by (unfold final_time; case_bool_decide; cbn; lia).
  cbn [blockUntilTrue_forever]. unfold next. rewrite !run_bind, run_gets, Hfree, Hup, bool_decide_true by done.
  rewrite Hwakeup, Hquiet. unfold _blockUntilRecalculate, would_block_forever. rewrite (bool_decide_false _ Hread). cbn [andb].
  cbn [wait_loop]. by rewrite bool_decide_true by exact Hlt.
Qed.

(** ** A reactor that watches one field *)

Module ReactorScenario.
Definition key : ObjectFieldId := OFI 100 3 false.
Definition reads : Accesses := no_accesses <| field_reads := {[key]} |>.
(* one pass, then a transaction while the loop waits *)
Definition waiting : list happening :=
  [Start; LoopSteps; LoopSteps; LoopSteps; LoopSteps; ViewCloses 0 reads; FunctionEnds None (Ok tt);
   LoopSteps; LoopSteps; LoopSteps; LoopSteps; Commits [KField key]].
Definition stopping : list happening := [Start; LoopSteps; LoopSteps; Stop; LoopSteps; StopSteps; StopSteps].
Definition thread : Thread :=
  {| cur_view := None; cur_watchers := None; s_current_view := None; view_objects := ∅; next_ref := 0;
     identities := 0; closed_views := []; db := new_DatabaseConnection |}.
Definition sleeping : Sync :=
  {| rx := new_Reactor None <| lastReadKeys := {[KField key]} |> <| nextWakeup := Some 5 |>;
     rt := {| rt_thread := thread; timestamp := None; wakeup := None; next_watcher := 0 |} |}.
Definition call : Call := {| at_time := 0; arriving := [(None, 5)]; calculate_at := 5 |}.
End ReactorScenario.

Lemma reactor_misses_no_update_witness :
  ∃ n, at_point (loop (run_system (ReactorScenario.waiting ++ replicate 3 PumpSteps ++ replicate n LoopSteps)
                         (new_System None 0))) = AtUnrecord.
Proof.
  apply (reactor_misses_no_update None 0 ReactorScenario.waiting 0 (10 ^ 14) 0 ReactorScenario.reads (KField ReactorScenario.key)).
  - split; vm_compute; reflexivity.
  - split; [vm_compute; left|]. refine (bool_decide_eq_true_1 _ _). vm_compute. reflexivity.
  - vm_compute. lia.
Defined.

Lemma stop_reaches_the_loop_witness :
  let s := run_system ReactorScenario.stopping (new_System None 0) in
  let s' := run_system (replicate 5 LoopSteps ++ [FunctionEnds None (Raise TypeError)]) s in
  (moves (replicate 5 LoopSteps ++ [FunctionEnds None (Raise TypeError)]) s <= 9 + 2 * length (present s))%nat ∧
  (held s' ∨ position (loop_step s') ≠ position s').
Proof.
  apply (stop_reaches_the_loop None 0 ReactorScenario.stopping (replicate 5 LoopSteps ++ [FunctionEnds None (Raise TypeError)]));
    [vm_compute; reflexivity|]. cbn. by repeat (apply not_elem_of_cons; split; [done|]); apply not_elem_of_nil.
Defined.

Lemma wakeup_ends_blockUntilTrue_witness :
  blockUntilTrue_forever id (mret false) [ReactorScenario.call] ReactorScenario.sleeping = (Ok (Some true), ReactorScenario.sleeping).
Proof.
  apply (wakeup_ends_blockUntilTrue id (mret false) ReactorScenario.call [] ReactorScenario.sleeping 5 5);
    [reflexivity|reflexivity| |reflexivity|cbn; lia|reflexivity]. cbn. set_solver.
Defined.
