(* ===== verification/Children.v ===== *)
(** * The children of a cell (web/cells/children.py)

    A cell knows its children by name: a child, or a list of such structures, nested as deep as
    one likes.  Beside the dictionary it keeps a flat list of all children, and the name of each.
    Children are compared by identity. *)

From Stdlib Require Import Lia List.
From stdpp Require Import options.
From S2P Require Import Prelude.

#[warnings="-register-all"]
Inductive Structure :=
  | Child (c : nat)
  | Several (l : list Structure).

Record Children := {
  namedChildren : gmap string Structure;
  allChildren : list nat;
  _reverseLookup : gmap nat string;
}.
#[export] Instance Children_settable : Settable Children := λ r,
  {| namedChildren := namedChildren r; allChildren := allChildren r; _reverseLookup := _reverseLookup r |}.

Definition new_Children : Children := {| namedChildren := ∅; allChildren := []; _reverseLookup := ∅ |}.

(** [l.remove(x)]: the first occurrence *)
Fixpoint remove_first (x : nat) (l : list nat) : option (list nat) :=
  match l with
  | [] => None
  | y :: l => if decide (y = x) then Some l else cons y <$> remove_first x l
  end.

Definition add_child (name : string) (c : nat) : M Children unit :=
  modify (λ ch, ch <| allChildren ::= λ l, l ++ [c] |>);;
  modify (λ ch, ch <| _reverseLookup ::= <[c := name]> |>).

Fixpoint _addChildStructure (structure : Structure) (name : string) : M Children unit :=
  match structure with
  | Child c => add_child name c
  | Several l =>
      (fix go l :=
         match l with
         | [] => mret tt
         | s :: l => _addChildStructure s name;; go l
         end) l
  end.

Definition remove_child (c : nat) : M Children unit :=
  l ← gets (λ ch, remove_first c (allChildren ch));
  l ← lift_option ValueError l;
  modify (λ ch, ch <| allChildren := l |>);;
  known ← gets (λ ch, bool_decide (is_Some (_reverseLookup ch !! c)));
  if (known : bool) then modify (λ ch, ch <| _reverseLookup ::= delete c |>) else raise KeyError.

(** The result as a condition: [True], or the list of the results of the parts *)
Fixpoint _removeChildStructure (structure : Structure) : M Children bool :=
  match structure with
  | Child c => remove_child c;; mret true
  | Several l =>
      (fix go l :=
         match l with
         | [] => mret tt
         | s :: l => _ ← _removeChildStructure s; go l
         end) l;;
      mret (negb (bool_decide (length l = 0%nat)))
  end.

Definition removeChildNamed (name : string) : M Children bool :=
  found ← gets (λ ch, namedChildren ch !! name);
  match found with
  | None => mret false
  | Some found =>
      success ← _removeChildStructure found;
      if negb success then mret false
      else modify (λ ch, ch <| namedChildren ::= delete name |>);; mret true
  end.

Definition addChildNamed (name : string) (childStructure : option Structure) : M Children unit :=
  known ← gets (λ ch, bool_decide (is_Some (namedChildren ch !! name)));
  (if (known : bool) then _ ← removeChildNamed name; mret tt else mret tt);;
  match childStructure with
  | None => mret tt
  | Some s => _addChildStructure s name;; modify (λ ch, ch <| namedChildren ::= <[name := s]> |>)
  end.

Definition addFromDict (childrenDict : list (string * option Structure)) : M Children unit :=
  forM childrenDict (λ kv, addChildNamed kv.1 kv.2).

Definition delitem (name : string) : M Children unit :=
  known ← gets (λ ch, bool_decide (is_Some (namedChildren ch !! name)));
  if (known : bool) then _ ← removeChildNamed name; mret tt else mret tt.

Definition removeAll : M Children unit := modify (λ ch, ch <| namedChildren := ∅ |> <| allChildren := [] |>).

Definition hasChild (c : nat) (ch : Children) : bool := bool_decide (c ∈ allChildren ch).
Definition hasChildNamed (name : string) (ch : Children) : bool := bool_decide (is_Some (namedChildren ch !! name)).
Definition findNameFor (c : nat) (ch : Children) : option string := _reverseLookup ch !! c.

(** [None]: the first of an empty list *)
Fixpoint _getDimensions (item : Structure) (dimensions : Z) : option Z :=
  match item with
  | Child _ => Some dimensions
  | Several [] => None
  | Several (s :: _) => _getDimensions s (dimensions + 1)%Z
  end.
Definition dimensionsForChildNamed (name : string) : M Children Z :=
  found ← gets (λ ch, namedChildren ch !! name);
  found ← lift_option KeyError found;
  lift_option IndexError (_getDimensions found 0).

(** ** Structures as lists of children *)

Fixpoint leaves (s : Structure) : list nat :=
  match s with
  | Child c => [c]
  | Several l => (fix go l := match l with [] => [] | s :: l => leaves s ++ go l end) l
  end.

Lemma Structure_nested_ind (P : Structure → Prop) :
  (∀ c, P (Child c)) → (∀ l, Forall P l → P (Several l)) → ∀ s, P s.
Proof.
  intros Hc Hl. fix IH 1. intros [c|l]; [apply Hc|]. apply Hl. induction l as [|s l IHl]; constructor; [apply IH|exact IHl].
Qed.

Lemma add_leaves s name : ∀ ch, _addChildStructure s name ch = forM (leaves s) (add_child name) ch.
Proof.
  induction s as [c|l Hl] using Structure_nested_ind; intros ch; [done|]. cbn [_addChildStructure leaves].
  revert ch. induction Hl as [|s l Hs _ IH]; intros ch; [done|]. rewrite run_bind, Hs.
  destruct (forM (leaves s) (add_child name) ch) as [[[]|e] ch'] eqn:E.
  - rewrite (run_forM_app _ _ _ _ _ E). apply IH.
  - symmetry. clear -E. revert ch E. induction (leaves s) as [|c cs IH]; intros ch; [done|].
    cbn [app]. rewrite !run_forM_cons. by destruct (add_child name c ch) as [[]?]; [apply IH|].
Qed.

Definition answer (s : Structure) : bool :=
  match s with Child _ => true | Several l => negb (bool_decide (length l = 0%nat)) end.

Lemma remove_leaves s : ∀ ch ch',
  forM (leaves s) remove_child ch = (Ok tt, ch') → _removeChildStructure s ch = (Ok (answer s), ch').
Proof.
  induction s as [c|l Hl] using Structure_nested_ind; intros ch ch'; cbn [_removeChildStructure leaves answer].
  - rewrite run_forM_cons, run_bind. destruct (remove_child c ch) as [[[]|e] ch1]; [|done]. by intros [= <-].
  - intros Hrun. rewrite run_bind. enough ((fix go l := match l with [] => mret tt | s :: l => _ ← _removeChildStructure s; go l end) l ch
      = (Ok tt, ch')) as -> by done.
    revert ch Hrun. induction Hl as [|s l Hs _ IH]; intros ch Hrun; [exact Hrun|]. rewrite run_bind.
    destruct (forM (leaves s) remove_child ch) as [[[]|e] ch1] eqn:E.
    + rewrite (Hs _ _ E). cbn beta iota. apply IH. by rewrite (run_forM_app _ _ _ _ _ E) in Hrun.
    + exfalso. clear -E Hrun. revert ch E Hrun. induction (leaves s) as [|c cs IH]; intros ch; [done|]. cbn [app].
      rewrite !run_forM_cons. destruct (remove_child c ch) as [[]?]; [apply IH|done].
Qed.

(** ** The effect on the flat list and on the names *)

Lemma add_all name cs : ∀ ch, ∃ ch', forM cs (add_child name) ch = (Ok tt, ch') ∧ namedChildren ch' = namedChildren ch ∧
  allChildren ch' = allChildren ch ++ cs ∧
  ∀ c, _reverseLookup ch' !! c = if decide (c ∈ cs) then Some name else _reverseLookup ch !! c.
Proof.
  induction cs as [|x cs IH]; intros ch.
  - exists ch. split; [done|]. split; [done|]. split; [by rewrite app_nil_r|]. done.
  - rewrite run_forM_cons. unfold add_child at 1. rewrite run_bind, run_modify. cbn beta iota. rewrite run_modify.
    match goal with |- context [forM cs _ ?s] => destruct (IH s) as (ch' & -> & Hn & Ha & Hr) end. exists ch'. split; [done|].
    split; [done|]. split; [rewrite Ha; cbn; by rewrite <-app_assoc|]. intros c. rewrite Hr. cbn.
    destruct (decide (c = x)) as [-> | Hne].
    + rewrite lookup_insert_eq, (decide_True (P := x ∈ x :: cs)) by set_solver. by destruct (decide (x ∈ cs)).
    + rewrite lookup_insert_ne by done. destruct (decide (c ∈ cs)); [rewrite decide_True by set_solver|rewrite decide_False by set_solver]; done.
Qed.

Lemma remove_first_spec x l : x ∈ l → ∃ l', remove_first x l = Some l' ∧ l ≡ₚ x :: l'.
Proof.
  induction l as [|y l IH]; [by intros ?%not_elem_of_nil|]. intros Hx. cbn [remove_first]. destruct (decide (y = x)) as [-> | Hne].
  - by exists l.
  - destruct IH as (l' & -> & Hp); [set_solver|]. exists (y :: l'). split; [done|]. rewrite Hp. constructor.
Qed.

Lemma remove_all cs : ∀ ch rest,
  NoDup cs → allChildren ch ≡ₚ cs ++ rest → (∀ c, c ∈ cs → is_Some (_reverseLookup ch !! c)) →
  ∃ ch', forM cs remove_child ch = (Ok tt, ch') ∧ namedChildren ch' = namedChildren ch ∧ allChildren ch' ≡ₚ rest ∧
    ∀ c, _reverseLookup ch' !! c = if decide (c ∈ cs) then None else _reverseLookup ch !! c.
Proof.
  induction cs as [|x cs IH]; intros ch rest Hnd Hp Hr; [by exists ch|]. apply NoDup_cons in Hnd as [Hx Hnd].
  destruct (remove_first_spec x (allChildren ch)) as (l & Hl & Hpl); [rewrite Hp; set_solver|].
  rewrite run_forM_cons. unfold remove_child at 1. rewrite run_bind, run_gets. cbn beta iota. rewrite run_bind, run_lift_option, Hl.
  cbn beta iota. rewrite run_bind, run_modify. cbn beta iota. rewrite run_bind, run_gets. cbn beta iota.
  rewrite bool_decide_true by (apply Hr; set_solver). rewrite run_modify.
  match goal with |- context [forM cs _ ?s] => destruct (IH s rest) as (ch' & -> & Hn & Ha & Hr') end; [done|..].
  - cbn. apply (Permutation_cons_inv (a := x)). by rewrite <-Hpl, Hp.
  - intros c Hc. cbn. rewrite lookup_delete_ne by (intros <-; done). apply Hr. set_solver.
  - exists ch'. split; [done|]. split; [done|]. split; [done|]. intros c. rewrite Hr'. cbn.
    destruct (decide (c = x)) as [-> | Hne].
    + rewrite lookup_delete_eq, (decide_True (P := x ∈ x :: cs)) by set_solver. by destruct (decide (x ∈ cs)).
    + rewrite lookup_delete_ne by done. destruct (decide (c ∈ cs)); [rewrite decide_True by set_solver|rewrite decide_False by set_solver]; done.
Qed.

(** ** The tables agree *)

Definition all_leaves (named : gmap string Structure) : list nat := concat (leaves <$> (map_to_list named).*2).

Record children_ok (ch : Children) : Prop := {
  c_flat : allChildren ch ≡ₚ all_leaves (namedChildren ch);
  c_nodup : NoDup (allChildren ch);
  c_names : ∀ c name, _reverseLookup ch !! c = Some name ↔ ∃ s, namedChildren ch !! name = Some s ∧ c ∈ leaves s;
}.

Lemma all_leaves_insert named name s : named !! name = None → all_leaves (<[name := s]> named) ≡ₚ leaves s ++ all_leaves named.
Proof. intros Hn. unfold all_leaves. by rewrite (map_to_list_insert named name s Hn). Qed.

Lemma all_leaves_delete named name s : named !! name = Some s → all_leaves named ≡ₚ leaves s ++ all_leaves (delete name named).
Proof. intros Hn. rewrite <-(all_leaves_insert _ name s) by apply lookup_delete_eq. by rewrite insert_delete_id. Qed.

Lemma removeChildNamed_spec name ch :
  children_ok ch →
  ∃ b ch', removeChildNamed name ch = (Ok b, ch') ∧ children_ok ch' ∧
    (∀ s, namedChildren ch !! name = Some s → answer s = true → b = true) ∧
    namedChildren ch' = (if b then delete name (namedChildren ch) else namedChildren ch) ∧
    (b = false → from_option leaves [] (namedChildren ch !! name) = []).
Proof.
  intros [Hf Hnd Hn]. unfold removeChildNamed. rewrite run_bind, run_gets. cbn beta iota.
  destruct (namedChildren ch !! name) as [s|] eqn:Hs; [|by exists false, ch].
  pose proof (all_leaves_delete _ _ _ Hs) as Hp. pose proof Hnd as Hnd'. rewrite Hf, Hp in Hnd'. apply NoDup_app in Hnd' as (Hnds & Hdis & Hndr).
  destruct (remove_all (leaves s) ch (all_leaves (delete name (namedChildren ch)))) as (ch1 & Hrun & Hn1 & Ha1 & Hr1); [done|by rewrite Hf|..].
  { intros c Hc. exists name. apply Hn. by exists s. }
  rewrite run_bind, (remove_leaves _ _ _ Hrun). cbn beta iota. destruct (answer s) eqn:Hans; cbn [negb].
  - rewrite run_bind, run_modify. cbn beta iota. rewrite run_mret. eexists true, _. split; [done|]. split; [|split_and!; [done|by cbn; rewrite Hn1|done]].
    split; cbn.
    + by rewrite Hn1.
    + by rewrite Ha1.
    + intros c name'. rewrite Hr1, Hn1. destruct (decide (c ∈ leaves s)) as [Hc | Hc].
      * split; [done|]. intros (s' & [Hne Hs']%lookup_delete_Some & Hc'). exfalso. apply Hne.
        assert (_reverseLookup ch !! c = Some name) as E by (apply Hn; by exists s).
        assert (_reverseLookup ch !! c = Some name') as E' by (apply Hn; exists s'; split; [exact Hs'|exact Hc']). congruence.
      * rewrite Hn. split; intros (s' & Hs' & Hc'); exists s'; (split; [|done]).
        -- apply lookup_delete_Some. split; [|done]. intros ->. congruence.
        -- by apply lookup_delete_Some in Hs' as [_ ?].
  - assert (leaves s = []) as He by (destruct s as [c|[|? ?]]; done). rewrite He in Hrun. injection Hrun as ->.
    rewrite run_mret. eexists false, ch1. split; [done|]. split_and!; [by split| |done|done]. intros s' [= <-]. congruence.
Qed.

(** What may be done to the children: a child that is added has no other place yet. *)
Definition fresh_for (name : string) (s : Structure) (ch : Children) : Prop :=
  NoDup (leaves s) ∧ ∀ c name' s', c ∈ leaves s → namedChildren ch !! name' = Some s' → c ∈ leaves s' → name' = name.

Lemma clear_name name ch :
  children_ok ch →
  ∃ ch', (known ← gets (λ ch, bool_decide (is_Some (namedChildren ch !! name)));
          if (known : bool) then _ ← removeChildNamed name; mret tt else mret tt) ch = (Ok tt, ch') ∧ children_ok ch' ∧
    from_option leaves [] (namedChildren ch' !! name) = [] ∧
    ∀ name', name' ≠ name → namedChildren ch' !! name' = namedChildren ch !! name'.
Proof.
  intros Hok. rewrite run_bind, run_gets. cbn beta iota. destruct (namedChildren ch !! name) as [s|] eqn:Hs.
  - rewrite bool_decide_true by done. destruct (removeChildNamed_spec name ch Hok) as (b & ch' & Hrun & Hok' & _ & Hn & He).
    exists ch'. rewrite run_bind, Hrun. split; [done|]. split; [done|]. rewrite Hn. destruct b.
    + rewrite lookup_delete_eq. split; [done|]. intros name' Hne. by rewrite lookup_delete_ne.
    + split; [by apply He|done].
  - rewrite bool_decide_false by (by intros []). exists ch. split; [done|]. by rewrite Hs.
Qed.

Lemma addChildNamed_spec name s ch :
  children_ok ch → from_option (λ s, fresh_for name s ch) True s →
  ∃ ch', addChildNamed name s ch = (Ok tt, ch') ∧ children_ok ch' ∧
    ∀ s', s = Some s' → ∀ name', namedChildren ch' !! name' = if decide (name' = name) then Some s' else namedChildren ch !! name'.
Proof.
  intros Hok Hfr. destruct (clear_name name ch Hok) as (ch1 & Hrun & [Hf Hnd Hn] & He & Hother).
  assert (addChildNamed name s ch = (match s with
      | None => mret tt
      | Some s => _addChildStructure s name;; modify (λ ch, ch <| namedChildren ::= <[name := s]> |>)
      end) ch1) as ->.
  { unfold addChildNamed. rewrite run_bind in Hrun |- *. rewrite run_gets in Hrun |- *. cbn beta iota in *.
    rewrite run_bind, Hrun. done. }
  destruct s as [s|]; [|by exists ch1]. destruct Hfr as [Hnds Hfr].
  destruct (add_all name (leaves s) ch1) as (ch2 & Hrun2 & Hn2 & Ha2 & Hr2).
  rewrite run_bind, add_leaves, Hrun2. cbn beta iota. rewrite run_modify. eexists. split; [done|].
  assert (all_leaves (namedChildren ch1) ≡ₚ all_leaves (delete name (namedChildren ch1))) as Hd.
  { destruct (namedChildren ch1 !! name) as [s1|] eqn:Hs1; [|by rewrite delete_id].
    rewrite (all_leaves_delete _ _ _ Hs1). cbn in He. by rewrite He. }
  split; [split; cbn|].
  - rewrite Ha2, Hn2, <-insert_delete_eq, all_leaves_insert by apply lookup_delete_eq. rewrite <-Hd, <-Hf. apply Permutation_app_comm.
  - rewrite Ha2. apply NoDup_app. split; [done|]. split; [|done]. intros c Hc Hcs.
    rewrite Hf, Hd in Hc. unfold all_leaves in Hc. apply list_elem_of_In, in_concat in Hc as (ls & Hls & Hc).
    apply list_elem_of_In in Hls, Hc. apply list_elem_of_fmap in Hls as (s' & -> & Hs').
    apply list_elem_of_fmap in Hs' as ([name' s2] & -> & Hk%elem_of_map_to_list).
    apply lookup_delete_Some in Hk as [Hne Hk]. rewrite Hother in Hk by done. apply Hne. symmetry. by eapply Hfr.
  - intros c name'. rewrite Hr2, Hn2. destruct (decide (c ∈ leaves s)) as [Hc | Hc].
    + split.
      * intros [= <-]. exists s. by rewrite lookup_insert_eq.
      * intros (s' & [[<- _] | [Hne Hs']]%lookup_insert_Some & Hc'); [done|]. rewrite Hother in Hs' by done.
        f_equal. symmetry. by eapply Hfr.
    + rewrite Hn. split; intros (s' & Hs' & Hc').
      * exists s'. split; [|done]. apply lookup_insert_Some. right. split; [|done]. intros <-. rewrite Hs' in He. cbn in He.
        rewrite He in Hc'. by apply not_elem_of_nil in Hc'.
      * apply lookup_insert_Some in Hs' as [[<- <-] | [Hne Hs']]; [done|]. by exists s'.
  - intros s' [= <-] name'. cbn. rewrite Hn2. destruct (decide (name' = name)) as [-> | Hne]; [by rewrite lookup_insert_eq|].
    rewrite lookup_insert_ne by done. by apply Hother.
Qed.

(** ** Any sequence of operations *)

Inductive child_op :=
  | AddNamed (name : string) (s : option Structure)
  | RemoveNamed (name : string)
  | DelItem (name : string).

Definition run_op (o : child_op) : M Children unit :=
  match o with
  | AddNamed name s => addChildNamed name s
  | RemoveNamed name => _ ← removeChildNamed name; mret tt
  | DelItem name => delitem name
  end.

Definition op_fresh (o : child_op) (ch : Children) : Prop :=
  match o with AddNamed name (Some s) => fresh_for name s ch | _ => True end.

Inductive child_step (ch : Children) : Children → Prop :=
  | child_step_op o ch' : op_fresh o ch → run_op o ch = (Ok tt, ch') → child_step ch ch'.

Lemma run_op_ok o ch : children_ok ch → op_fresh o ch → ∃ ch', run_op o ch = (Ok tt, ch') ∧ children_ok ch'.
Proof.
  intros Hok Hfr. destruct o as [name s|name|name]; cbn [run_op].
  - destruct (addChildNamed_spec name s ch Hok) as (ch' & Hrun & Hok' & _); [by destruct s|]. by exists ch'.
  - destruct (removeChildNamed_spec name ch Hok) as (b & ch' & Hrun & Hok' & _). exists ch'. by rewrite run_bind, Hrun.
  - destruct (clear_name name ch Hok) as (ch' & Hrun & Hok' & _). by exists ch'.
Qed.

(** C40. However children are added (each child in one place only), replaced and removed, no
    operation raises, and the three tables tell the same: the flat list holds exactly the children
    of the structures in the dictionary, each once, and the name that is found for a child is the
    name under which it is. *)
Theorem children_tables_agree (ch : Children) (Hreach : rtc child_step new_Children ch) :
  allChildren ch ≡ₚ all_leaves (namedChildren ch) ∧ NoDup (allChildren ch) ∧
  (∀ c name, findNameFor c ch = Some name ↔ ∃ s, namedChildren ch !! name = Some s ∧ c ∈ leaves s) ∧
  ∀ o, op_fresh o ch → ∃ ch', run_op o ch = (Ok tt, ch').
Proof.
  assert (children_ok ch) as Hok.
  { assert (children_ok new_Children) as Hnew.
    { split; cbn; [done|constructor|]. intros c name. rewrite lookup_empty. split; [done|]. by intros (s & ? & _). }
    revert Hnew. induction Hreach as [|ch1 ch2 ch3 [o ch2' Hfr Hrun] _ IH]; [done|]. intros Hok. apply IH.
    destruct (run_op_ok o ch1 Hok Hfr) as (ch' & Hrun' & Hok'). congruence. }
  destruct Hok as [Hf Hnd Hn]. split_and!; [done..|]. intros o Hfr.
  destruct (run_op_ok o ch) as (ch' & Hrun & _); [by split|done|]. by exists ch'.
Qed.

(** ** Examples *)

Definition nested : Structure := Several [Child 1; Several [Child 2; Child 3]].
Definition with_header : Children := (run_op (AddNamed "header" (Some (Child 4))) new_Children).2.
Definition with_rows : Children := (run_op (AddNamed "rows" (Some nested)) with_header).2.

Lemma with_rows_reachable : rtc child_step new_Children with_rows.
Proof.
  assert (∀ o ch, op_fresh o ch → (run_op o ch).1 = Ok tt → child_step ch (run_op o ch).2) as Hstep.
  { intros o ch Hfr Hrun. apply (child_step_op _ o); [done|by apply outcome_eta]. }
  apply (rtc_l _ _ with_header); [apply Hstep; [|done]|apply rtc_once, Hstep; [|done]].
  - split; [by apply (bool_decide_eq_true_1 _)|]. intros c name s _. cbn. by rewrite lookup_empty.
  - split; [by apply (bool_decide_eq_true_1 _)|]. intros c name s Hc Hs Hcs. exfalso.
    change (namedChildren with_header) with (<["header"%string := Child 4]> (∅ : gmap string Structure)) in Hs.
    apply lookup_insert_Some in Hs as [[_ <-] | [_ Hs]]; [cbn in Hc, Hcs; set_solver|by rewrite lookup_empty in Hs].
Qed.

Example children_tables_agree_witness :
  rtc child_step new_Children with_rows ∧
  allChildren with_rows ≡ₚ all_leaves (namedChildren with_rows) ∧ NoDup (allChildren with_rows) ∧
  (∀ c name, findNameFor c with_rows = Some name ↔ ∃ s, namedChildren with_rows !! name = Some s ∧ c ∈ leaves s) ∧
  ∀ o, op_fresh o with_rows → ∃ ch', run_op o with_rows = (Ok tt, ch').
Proof. split; [exact with_rows_reachable|exact (children_tables_agree with_rows with_rows_reachable)]. Defined.

Example rows_are_flat : allChildren with_rows = [4; 1; 2; 3]%nat ∧ findNameFor 3 with_rows = Some "rows"%string.
Proof. by vm_compute. Qed.

(** An empty list is not removed, and the name stays. *)
Example empty_list_stays :
  let ch := (addChildNamed "rows" (Some (Several [])) new_Children).2 in removeChildNamed "rows" ch = (Ok false, ch).
Proof. by vm_compute. Qed.

(** [removeAll] forgets the children, but not their names. *)
Example removeAll_keeps_names : findNameFor 3 (removeAll with_rows).2 = Some "rows"%string ∧ hasChild 3 (removeAll with_rows).2 = false.
Proof. by vm_compute. Qed.
