(* ===== verification/CellGraph.v ===== *)
(** * The dependency graph of the user interface

    [Slot] (web/cells/slot.py), [ComputedSlot] (computed_slot.py), the read-only use of
    [DependencyContext] (dependency_context.py) and [CellDependencies] (cell_dependencies.py).
    Cells, computed slots and reactors are calculations: they read slots, other computed slots and
    keys of the database, and are marked dirty when something that they read changes.

    The function of a computed slot is a program that reads through [get]; what it does with an
    exception is up to the program.  Exceptions are objects, equal only to themselves.  A program
    reads the database in a view of the transaction that was handled last when it was started.
    When it finds that something is not subscribed ([ensureSubscribedType] and its relatives), it
    is given up, the subscription is made, the transactions that have arrived are handled, and it
    starts again.  A slot may lose its last reader while its function runs; then it has no [cells]
    any more, and the end of its calculation raises AttributeError.  [last_reads] is the only part
    of the state that the code does not have: what each calculation read directly, with the
    values, when its dependencies were recorded. *)

From stdpp Require Import options.
From S2P Require Import Prelude Schema Messages Connection Views Reactor.

Local Open Scope Z_scope.

Inductive Ref := RSlot (s : nat) | RComputed (c : nat).
#[export] Instance Ref_eq_dec : EqDecision Ref.
Proof. solve_decision. Defined.
#[export] Instance Ref_countable : Countable Ref.
Proof.
  refine (inj_countable' (λ r, match r with RSlot s => inl s | RComputed c => inr c end)
            (λ x, match x with inl s => RSlot s | inr c => RComputed c end) _). by intros [].
Defined.

Inductive Calc := CSlot (c : nat) | CCell (n : nat) | CReactor (r : nat).
#[export] Instance Calc_eq_dec : EqDecision Calc.
Proof. solve_decision. Defined.
#[export] Instance Calc_countable : Countable Calc.
Proof.
  refine (inj_countable' (λ x, match x with CSlot c => inl c | CCell n => inr (inl n) | CReactor r => inr (inr r) end)
            (λ x, match x with inl c => CSlot c | inr (inl n) => CCell n | inr (inr r) => CReactor r end) _).
  by intros [].
Defined.

(** [_valueAndIsException]: a value, or an exception object *)
Inductive Result := RValue (v : Z) | RExn (e : nat).
#[export] Instance Result_eq_dec : EqDecision Result.
Proof. solve_decision. Defined.

(** The code that computes a slot. *)
Inductive program :=
  | PReturn (v : Z)
  | PRaise                                       (* a new exception *)
  | PReraise (e : nat)
  | PSlot (s : nat) (k : Z → program)            (* [slot.get()] *)
  | PComputed (c : nat) (k : Result → program)   (* [computedSlot.get()] *)
  | POdb (key : Key) (k : option Z → program)    (* reading the database *)
  | PSubscribe (t : nat) (k : program).          (* [ensureSubscribedType(t)] *)

(** What a calculation read directly, with the values. *)
Inductive Observation := OSlot (s : nat) (v : Z) | OOdb (key : Key) (v : option Z).

(** What a [DependencyContext] collects. *)
Record Reads := { slots_read : gset Ref; keys_seen : gset Key; observed : list Observation }.
Definition no_reads : Reads := {| slots_read := ∅; keys_seen := ∅; observed := [] |}.
Definition read_ref (r : Ref) (o : list Observation) (context : Reads) : Reads :=
  {| slots_read := {[r]} ∪ slots_read context; keys_seen := keys_seen context; observed := o ++ observed context |}.
Definition read_key (key : Key) (v : option Z) (context : Reads) : Reads :=
  {| slots_read := slots_read context; keys_seen := {[key]} ∪ keys_seen context;
     observed := OOdb key v :: observed context |}.

Record ComputedSlot := {
  valueAndIsException : option Result;
  valueUpToDate : bool;
  has_cells : bool;
  isExecuting : bool;
}.
#[export] Instance ComputedSlot_settable : Settable ComputedSlot := λ r,
  {| valueAndIsException := valueAndIsException r; valueUpToDate := valueUpToDate r; has_cells := has_cells r;
     isExecuting := isExecuting r |}.
Definition new_ComputedSlot : ComputedSlot :=
  {| valueAndIsException := None; valueUpToDate := false; has_cells := false; isExecuting := false |}.

Record Graph := {
  slot_values : gmap nat Z;
  computed : gmap nat ComputedSlot;
  odb : gmap Key Z;                      (* at [currentTransactionId] *)
  unsubscribed : gset nat;               (* what the connection is not subscribed to *)
  reactors : gmap nat (gset nat);        (* [cell.reactors]; cells only add to it *)
  next_exception : nat;
  last_reads : gmap Calc (list Observation);
  (* CellDependencies *)
  subscriptions : gmap Calc (gset Key);
  cellReactors : gset nat;               (* the cells in it; the value of a cell is the set [cell.reactors] itself *)
  subscribedCells : gmap Key (gset Calc);
  slotsRead : gmap Calc (gset Ref);
  slotToReaders : gmap Ref (gset Calc);
  dirtyComputedSlots : gset nat;
  dirtyNodes : gset nat;
  dirtyReactors : gset nat;
}.
#[export] Instance Graph_settable : Settable Graph := λ r,
  {| slot_values := slot_values r; computed := computed r; odb := odb r; unsubscribed := unsubscribed r; reactors := reactors r;
     next_exception := next_exception r; last_reads := last_reads r;
     subscriptions := subscriptions r; cellReactors := cellReactors r; subscribedCells := subscribedCells r;
     slotsRead := slotsRead r; slotToReaders := slotToReaders r; dirtyComputedSlots := dirtyComputedSlots r;
     dirtyNodes := dirtyNodes r; dirtyReactors := dirtyReactors r |}.
Definition new_Graph (types : gset nat) : Graph :=
  {| slot_values := ∅; computed := ∅; odb := ∅; unsubscribed := types; reactors := ∅; next_exception := 0; last_reads := ∅;
     subscriptions := ∅; cellReactors := ∅; subscribedCells := ∅; slotsRead := ∅; slotToReaders := ∅;
     dirtyComputedSlots := ∅; dirtyNodes := ∅; dirtyReactors := ∅ |}.

Abbreviation MG := (M Graph).
Definition RecursionError : exn := UserException "RecursionError".

Definition slot_value (g : Graph) (s : nat) : Z := default 0 (slot_values g !! s).
Definition the_slot (g : Graph) (c : nat) : ComputedSlot := default new_ComputedSlot (computed g !! c).
Definition upd_slot (c : nat) (f : ComputedSlot → ComputedSlot) : MG unit :=
  modify (λ g, g <| computed ::= <[c := f (the_slot g c)]> |>).

(** ** Marking *)

Definition markDirty (c : nat) : MG unit := upd_slot c (λ x, x <| valueUpToDate := false |>).

Definition _markCalcDirty (calculation : Calc) : MG unit :=
  match calculation with
  | CSlot c => modify (λ g, g <| dirtyComputedSlots ::= union {[c]} |>);; markDirty c
  | CCell n => modify (λ g, g <| dirtyNodes ::= union {[n]} |>)
  | CReactor r => modify (λ g, g <| dirtyReactors ::= union {[r]} |>)
  end.

Definition markSlotsDirty (slots : list Ref) : MG unit :=
  forM slots (λ slot,
    readers ← gets (λ g, mm_get (slotToReaders g) slot);
    forM (elements readers) _markCalcDirty).

Definition odbValuesChanged (keys : list Key) : MG unit :=
  forM keys (λ key,
    readers ← gets (λ g, mm_get (subscribedCells g) key);
    forM (elements readers) _markCalcDirty).

Definition markCellDirty (n : nat) : MG unit := modify (λ g, g <| dirtyNodes ::= union {[n]} |>).

(** ** Discarding *)

Definition orphan (c : nat) : MG unit :=
  upd_slot c (λ x, x <| valueUpToDate := false |> <| valueAndIsException := None |> <| has_cells := false |>).

Definition discard_dirty (calculation : Calc) : MG unit :=
  match calculation with
  | CSlot c => modify (λ g, g <| dirtyComputedSlots ::= λ x, x ∖ {[c]} |>)
  | CCell _ => mret tt
  | CReactor r => modify (λ g, g <| dirtyReactors ::= λ x, x ∖ {[r]} |>)
  end.

(** [self._subscribedCells[key].discard(calculation)], and the entry goes with its last element *)
Definition drop_subscription (calculation : Calc) (key : Key) : MG unit :=
  known ← gets (λ g, subscribedCells g !! key);
  _ ← lift_option KeyError known;
  modify (λ g, g <| subscribedCells ::= mm_discard_prune key calculation |>).

(** The same for a slot; a computed slot that nobody reads any more is discarded. *)
Definition drop_reader (discard : Calc → MG unit) (calculation : Calc) (slot : Ref) : MG unit :=
  known ← gets (λ g, slotToReaders g !! slot : option (gset Calc));
  readers ← lift_option KeyError known;
  modify (λ g, g <| slotToReaders ::= mm_discard_prune slot calculation |>);;
  match slot with
  | RComputed c => whenM (bool_decide (readers ∖ {[calculation]} = ∅)) (discard (CSlot c);; orphan c)
  | RSlot _ => mret tt
  end.

Definition reactors_of (g : Graph) (calculation : Calc) : gset nat :=
  match calculation with
  | CCell n => if bool_decide (n ∈ cellReactors g) then mm_get (reactors g) n else ∅
  | _ => ∅
  end.
Definition forget_reactors (calculation : Calc) : MG unit :=
  match calculation with CCell n => modify (λ g, g <| cellReactors ::= λ x, x ∖ {[n]} |>) | _ => mret tt end.

Fixpoint calculationDiscarded_rec (fuel : nat) (calculation : Calc) : MG unit :=
  match fuel with
  | O => raise RecursionError
  | S fuel =>
      discard_dirty calculation;;
      keys ← gets (λ g, mm_get (subscriptions g) calculation);
      slots ← gets (λ g, mm_get (slotsRead g) calculation);
      modify (λ g, g <| subscriptions ::= delete calculation |> <| slotsRead ::= delete calculation |>
                     <| last_reads ::= delete calculation |>);;
      forM (elements keys) (drop_subscription calculation);;
      forM (elements slots) (drop_reader (calculationDiscarded_rec fuel) calculation);;
      rs ← gets (λ g, reactors_of g calculation);
      forget_reactors calculation;;
      forM (elements rs) (λ r, calculationDiscarded_rec fuel (CReactor r))
  end.

(** Every nested call was preceded by the removal of an entry of one of the two tables. *)
Definition entries (g : Graph) : nat := (size (slotsRead g) + size (cellReactors g))%nat.
Definition calculationDiscarded (calculation : Calc) : MG unit :=
  n ← gets entries;
  calculationDiscarded_rec (S n) calculation.

(** ** Updating *)

Definition updateDependencies (calculation : Calc) (context : Reads) : MG unit :=
  existingSubscriptions ← gets (λ g, mm_get (subscriptions g) calculation);
  modify (λ g, g <| subscriptions ::= <[calculation := keys_seen context]> |>
                 <| last_reads ::= <[calculation := observed context]> |>);;
  forM (elements (keys_seen context ∖ existingSubscriptions))
    (λ key, modify (λ g, g <| subscribedCells ::= mm_add key calculation |>));;
  forM (elements (existingSubscriptions ∖ keys_seen context)) (drop_subscription calculation);;
  existingSlots ← gets (λ g, mm_get (slotsRead g) calculation);
  modify (λ g, g <| slotsRead ::= <[calculation := slots_read context]> |>);;
  forM (elements (slots_read context ∖ existingSlots))
    (λ slot, modify (λ g, g <| slotToReaders ::= mm_add slot calculation |>));;
  forM (elements (existingSlots ∖ slots_read context)) (drop_reader calculationDiscarded calculation);;
  match calculation with
  | CSlot c => modify (λ g, g <| dirtyComputedSlots ::= λ x, x ∖ {[c]} |>)
  | CCell n => modify (λ g, g <| dirtyNodes ::= λ x, x ∖ {[n]} |>)
  | CReactor _ => mret tt
  end.

(** The set of [_cellReactors] is the set of the cell, so [oldReactors] is either empty or the
    present one. *)
Definition updateCellReactors (cell : nat) : MG unit :=
  newReactors ← gets (λ g, mm_get (reactors g) cell);
  known ← gets (λ g, bool_decide (cell ∈ cellReactors g));
  if bool_decide (newReactors = ∅) && negb known then mret tt
  else
    let oldReactors := if known then newReactors else ∅ in
    modify (λ g, g <| cellReactors ::= if bool_decide (newReactors = ∅) then λ x, x ∖ {[cell]} else union {[cell]} |>);;
    forM (elements (newReactors ∖ oldReactors)) (λ r, modify (λ g, g <| dirtyReactors ::= union {[r]} |>));;
    forM (elements (oldReactors ∖ newReactors)) (λ r, calculationDiscarded (CReactor r)).

(** ** Calculating *)

Definition new_exception : MG nat :=
  e ← gets next_exception;
  modify (λ g, g <| next_exception ::= S |>);;
  mret e.

Definition write_slots (writes : list (nat * Z)) : MG unit :=
  modify (λ g, g <| slot_values ::= λ m, foldr (λ kv m, <[kv.1 := kv.2]> m) m writes |>).
Definition write_odb (writes : list (Key * Z)) : MG unit :=
  modify (λ g, g <| odb ::= λ m, foldr (λ kv m, <[kv.1 := kv.2]> m) m writes |>).

(** [Cells._handleTransaction]: views show the transaction from now on *)
Definition _handleTransaction (writes : list (Key * Z)) : MG unit :=
  write_odb writes;; odbValuesChanged writes.*1.

(** Whether it ended; an AttributeError is caught. *)
Definition ended (m : MG unit) : MG bool :=
  tryM (m;; mret true) (λ e, match e with AttributeError => mret false | _ => raise e end).

Inductive Ending := Finished (r : Result) (context : Reads) | SubscribeAndRetry (t : nat).

(** One run of a program in a [DependencyContext(cells, readOnly=True)], with its view of the
    database; [ensure] is [ensureCalculated].  What [ensure] raises is raised in the program,
    before the read is noted; a slot without a value raises after it. *)
Fixpoint run_program (ensure : nat → MG unit) (view : gmap Key Z) (p : program) (context : Reads) : MG Ending :=
  match p with
  | PReturn v => mret (Finished (RValue v) context)
  | PRaise => e ← new_exception; mret (Finished (RExn e) context)
  | PReraise e => mret (Finished (RExn e) context)
  | PSlot s k =>
      v ← gets (λ g, slot_value g s);
      run_program ensure view (k v) (read_ref (RSlot s) [OSlot s v] context)
  | PComputed c k =>
      slot ← gets (λ g, the_slot g c);
      if isExecuting slot then e ← new_exception; run_program ensure view (k (RExn e)) context
      else
        calculated ← ended (ensure c);
        if negb calculated then e ← new_exception; run_program ensure view (k (RExn e)) context
        else
          slot ← gets (λ g, the_slot g c);
          match valueAndIsException slot with
          | Some r => run_program ensure view (k r) (read_ref (RComputed c) [] context)
          | None => e ← new_exception; run_program ensure view (k (RExn e)) (read_ref (RComputed c) [] context)
          end
  | POdb key k => run_program ensure view (k (view !! key)) (read_key key (view !! key) context)
  | PSubscribe t k =>
      missing ← gets (λ g, bool_decide (t ∈ unsubscribed g));
      if (missing : bool) then mret (SubscribeAndRetry t) else run_program ensure view k context
  end.

(** The end of [ensureCalculated].  [self.cells] is None when the slot was orphaned meanwhile:
    while its function ran, or by [updateDependencies] itself. *)
Definition with_cells (c : nat) (m : MG unit) : MG unit :=
  slot ← gets (λ g, the_slot g c);
  if has_cells slot then m else raise AttributeError.
Definition record_calculation (c : nat) (oldVal : option Result) (context : Reads) : MG unit :=
  with_cells c (updateDependencies (CSlot c) context);;
  slot ← gets (λ g, the_slot g c);
  whenM (bool_decide (oldVal ≠ valueAndIsException slot)) (with_cells c (markSlotsDirty [RComputed c])).

Section functions.
(** the functions of the computed slots *)
Context (valueFunction : nat → program).
(** the transactions that have arrived when the subscription to a type is there *)
Context (arriving : nat → list (list (Key * Z))).

(** The loop of [DependencyContext(cells, readOnly=True).calculate(func)]. *)
Fixpoint attempts (tries : nat) (ensure : nat → MG unit) (p : program) : MG (Result * Reads) :=
  match tries with
  | O => raise RecursionError
  | S tries =>
      view ← gets odb;
      e ← run_program ensure view p no_reads;
      match e with
      | Finished r context => mret (r, context)
      | SubscribeAndRetry t =>
          modify (λ g, g <| unsubscribed ::= λ x, x ∖ {[t]} |>);;
          forM (arriving t) _handleTransaction;;
          attempts tries ensure p
      end
  end.

(** Every attempt but the last makes a subscription. *)
Definition calculate_reading (ensure : nat → MG unit) (p : program) : MG (Result * Reads) :=
  n ← gets (λ g, size (unsubscribed g));
  attempts (S n) ensure p.

(** [ComputedSlot.ensureCalculated]; the fuel bounds the depth of nested calculations *)
Fixpoint ensureCalculated (fuel : nat) (c : nat) : MG unit :=
  match fuel with
  | O => raise RecursionError
  | S fuel =>
      slot ← gets (λ g, the_slot g c);
      if isExecuting slot then raise (UserException "ComputedSlot definition is cyclic.")
      else
        upd_slot c (λ x, x <| has_cells := true |>);;
        if valueUpToDate slot then mret tt
        else
          upd_slot c (λ x, x <| isExecuting := true |>);;
          '(r, context) ← calculate_reading (ensureCalculated fuel) (valueFunction c);
          upd_slot c (λ x, x <| isExecuting := false |> <| valueAndIsException := Some r |>
                             <| valueUpToDate := true |>);;
          record_calculation c (valueAndIsException slot) context
  end.

(** One turn of the loop of [recalculateDirtyComputedSlots], when [pop] gives [c]. *)
Definition recalculate_one (fuel : nat) (c : nat) : MG unit :=
  dirty ← gets dirtyComputedSlots;
  whenM (bool_decide (c ∈ dirty))
    (modify (λ g, g <| dirtyComputedSlots ::= λ x, x ∖ {[c]} |>);;
     ensureCalculated fuel c).

(** [recalculateDirtyComputedSlots], when the calls of [pop] give these slots *)
Definition recalculateDirtyComputedSlots (fuel : nat) (pops : list nat) : MG unit :=
  forM pops (recalculate_one fuel).

(** ** The user interface at work *)

(** A function that writes, in a [DependencyContext(cells, readOnly=False)]: the marking of
    [updateFromWriteableDependencyContext].  [slots] are slots that existed before. *)
Definition updateFromWriteableDependencyContext (slots : list nat) (keys : list Key) : MG unit :=
  markSlotsDirty (RSlot <$> slots);;
  odbValuesChanged keys.

(** The reads of a reactor, with the values they give. *)
Definition reads_now (g : Graph) (refs : list Ref) (keys : list Key) : Reads :=
  {| slots_read := list_to_set refs; keys_seen := list_to_set keys;
     observed := omap (λ r, match r with RSlot s => Some (OSlot s (slot_value g s)) | RComputed _ => None end) refs
                 ++ ((λ key, OOdb key (odb g !! key)) <$> keys) |}.

Inductive activity :=
  | Transaction (writes : list (Key * Z))             (* a transaction of the database is handled *)
  | Callback (slots : list (nat * Z)) (keys : list (Key * Z))
  | Recalculates (pops : list nat)
  | CellRecalculated (n : nat) (p : program)          (* [calculate] and [updateDependencies] of [_recalculateCell] *)
  | CellReactors (n : nat)                            (* its [updateCellReactors] *)
  | CellDone (n : nat)                                (* its end, in [_updateAllDirtyCells] *)
  | CellMarked (n : nat)
  | AddsReactor (n r : nat)
  | ReactorRan (r : nat) (refs : list Ref) (read : list Key) (result : bool)
               (slots : list (nat * Z)) (keys : list (Key * Z))
  | CellDiscarded (n : nat).

(** It reads only computed slots with a smaller number. *)
Fixpoint reads_below (p : program) (bound : nat) : Prop :=
  match p with
  | PReturn _ | PRaise | PReraise _ => True
  | PSlot _ k => ∀ v, reads_below (k v) bound
  | PComputed c k => (c < bound)%nat ∧ ∀ r, reads_below (k r) bound
  | POdb _ k => ∀ v, reads_below (k v) bound
  | PSubscribe _ k => reads_below k bound
  end.

Definition _executeCallback (slots : list (nat * Z)) (keys : list (Key * Z)) : MG unit :=
  write_slots slots;; write_odb keys;;
  updateFromWriteableDependencyContext slots.*1 keys.*1.

(** [fuel] is that of the calculations. *)
Definition recalculate_cell (fuel : nat) (n : nat) (p : program) : MG unit :=
  '(_, context) ← calculate_reading (ensureCalculated fuel) p;
  updateDependencies (CCell n) context.

(** One turn of the loop of [recalculateDirtyReactors], when [pop] gives [r]. *)
Definition recalculate_reactor (r : nat) (refs : list Ref) (read : list Key) (result : bool)
    (slots : list (nat * Z)) (keys : list (Key * Z)) : MG unit :=
  modify (λ g, g <| dirtyReactors ::= λ x, x ∖ {[r]} |>);;
  context ← gets (λ g, reads_now g refs read);
  write_slots slots;; write_odb keys;;
  updateDependencies (CReactor r) context;;
  whenM result (updateFromWriteableDependencyContext slots.*1 keys.*1).

Definition cell_done (n : nat) : MG unit := modify (λ g, g <| dirtyNodes ::= λ x, x ∖ {[n]} |>).

Definition act (fuel : nat) (a : activity) : MG unit :=
  match a with
  | Transaction writes => _handleTransaction writes
  | Callback slots keys => _executeCallback slots keys
  | Recalculates pops => recalculateDirtyComputedSlots fuel pops
  | CellRecalculated n p => recalculate_cell fuel n p
  | CellReactors n => updateCellReactors n
  | CellDone n => cell_done n
  | CellMarked n => markCellDirty n
  | AddsReactor n r => modify (λ g, g <| reactors ::= mm_add n r |>)
  | ReactorRan r refs read result slots keys => recalculate_reactor r refs read result slots keys
  | CellDiscarded n => calculationDiscarded (CCell n)
  end.

(** An activity that raises AttributeError is given up where it is, and others follow. *)
Definition acts (fuel : nat) (l : list activity) : MG unit :=
  forM l (λ a, _ ← ended (act fuel a); mret tt).
End functions.
