(* ===== verification/CellInvariant.v ===== *)
(** * What the operations of the dependency graph keep true

    The invariant [inv]: the tables of [CellDependencies] mirror each other, and what a
    calculation read last is current unless the calculation is marked.  It is relative to a
    valuation of the slots and of the database, to the calculations that are being worked on, and
    to the entries of [slotToReaders] that are about to go. *)

From Stdlib Require Import Lia.
From stdpp Require Import options.
From S2P Require Import Prelude Schema Messages Connection Views Reactor CellGraph.

Local Open Scope Z_scope.

(** ** The tables *)

Section tables.
Context {K V : Type} `{Countable K} `{Countable V}.
Implicit Types (m : gmap K (gset V)).

Definition no_empty m : Prop := ∀ k, m !! k ≠ Some ∅.

Lemma no_empty_get m k : no_empty m → k ∈ dom m → mm_get m k ≠ ∅.
Proof. intros He [vs Hk]%elem_of_dom. unfold mm_get. rewrite Hk. cbn. intros ->. by apply (He k). Qed.

Lemma no_empty_add m k v : no_empty m → no_empty (mm_add k v m).
Proof.
  intros He k'. unfold mm_add, mm_update. rewrite lookup_insert. case_decide; [|apply He].
  intros [= E]. set_solver.
Qed.

Lemma no_empty_discard_prune m k v : no_empty m → no_empty (mm_discard_prune k v m).
Proof.
  intros He k'. unfold mm_discard_prune, mm_prune. case_decide as Hk.
  - rewrite lookup_delete. case_decide; [done|]. unfold mm_discard. rewrite lookup_alter_ne by done. apply He.
  - destruct (decide (k' = k)) as [-> | ?]; [done|]. unfold mm_discard. rewrite lookup_alter_ne by done. apply He.
Qed.

Lemma elem_of_mm_lookup m k v : v ∈ mm_get m k → ∃ vs, m !! k = Some vs ∧ v ∈ vs.
Proof. unfold mm_get. destruct (m !! k) as [vs|] eqn:E; [by eexists|set_solver]. Qed.

Lemma elem_of_mm_get_insert m k vs k' v :
  v ∈ mm_get (<[k := vs]> m) k' ↔ if decide (k = k') then v ∈ vs else v ∈ mm_get m k'.
Proof. unfold mm_get. rewrite lookup_insert. by case_decide. Qed.

Lemma elem_of_mm_get_delete m k k' v :
  v ∈ mm_get (delete k m) k' ↔ k ≠ k' ∧ v ∈ mm_get m k'.
Proof. unfold mm_get. rewrite lookup_delete. case_decide; set_solver. Qed.

(** The loops over the keys of one value. *)
Definition add_all (v : V) (l : list K) m : gmap K (gset V) := foldl (λ m k, mm_add k v m) m l.
Definition drop_all (v : V) (l : list K) m : gmap K (gset V) := foldl (λ m k, mm_discard_prune k v m) m l.

Lemma elem_of_add_all v l m k v' : v' ∈ mm_get (add_all v l m) k ↔ v' ∈ mm_get m k ∨ (k ∈ l ∧ v' = v).
Proof.
  revert m. induction l as [|x l IH]; intros m; cbn; [set_solver|].
  unfold add_all in IH. rewrite IH, elem_of_mm_add. set_solver.
Qed.

Lemma elem_of_drop_all v l m k v' : v' ∈ mm_get (drop_all v l m) k ↔ v' ∈ mm_get m k ∧ ¬ (k ∈ l ∧ v' = v).
Proof.
  revert m. induction l as [|x l IH]; intros m; cbn; [set_solver|].
  unfold drop_all in IH. rewrite IH, elem_of_mm_discard_prune. set_solver.
Qed.

Lemma no_empty_add_all v l m : no_empty m → no_empty (add_all v l m).
Proof. revert m. induction l as [|x l IH]; intros m He; [done|]. by apply IH, no_empty_add. Qed.

Lemma no_empty_drop_all v l m : no_empty m → no_empty (drop_all v l m).
Proof. revert m. induction l as [|x l IH]; intros m He; [done|]. by apply IH, no_empty_discard_prune. Qed.
End tables.

Lemma run_add_subscriptions calculation l g :
  forM l (λ key, modify (λ g, g <| subscribedCells ::= mm_add key calculation |>)) g =
    (Ok tt, g <| subscribedCells ::= add_all calculation l |>).
Proof.
  revert g. induction l as [|k l IH]; intros g; cbn [forM]; [by destruct g|].
  unfold bind. rewrite run_modify. cbn beta iota. rewrite IH. by destruct g.
Qed.

Lemma run_add_readers calculation l g :
  forM l (λ slot, modify (λ g, g <| slotToReaders ::= mm_add slot calculation |>)) g =
    (Ok tt, g <| slotToReaders ::= add_all calculation l |>).
Proof.
  revert g. induction l as [|k l IH]; intros g; cbn [forM]; [by destruct g|].
  unfold bind. rewrite run_modify. cbn beta iota. rewrite IH. by destruct g.
Qed.

Lemma run_drop_subscription calculation key g :
  calculation ∈ mm_get (subscribedCells g) key →
  drop_subscription calculation key g =
    (Ok tt, g <| subscribedCells ::= mm_discard_prune key calculation |>).
Proof.
  intros (vs & Hk & Hv)%elem_of_mm_lookup. unfold drop_subscription.
  rewrite run_bind, run_gets. cbn beta iota. by rewrite Hk.
Qed.

Lemma run_drop_subscriptions calculation l g :
  NoDup l → (∀ key, key ∈ l → calculation ∈ mm_get (subscribedCells g) key) →
  forM l (drop_subscription calculation) g = (Ok tt, g <| subscribedCells ::= drop_all calculation l |>).
Proof.
  revert g. induction l as [|k l IH]; intros g Hnd Hl; cbn [forM]; [by destruct g|].
  apply NoDup_cons in Hnd as [Hk Hnd]. unfold bind.
  rewrite run_drop_subscription by (apply Hl; set_solver). cbn beta iota.
  rewrite IH; [by destruct g|done|]. intros key Hkey. cbn.
  apply elem_of_mm_discard_prune. split; [apply Hl; set_solver|]. intros [-> _]. done.
Qed.

(** ** The invariant *)

Record Valuation := { val_slot : nat → Z; val_odb : Key → option Z }.
Definition valuation (g : Graph) : Valuation := {| val_slot := slot_value g; val_odb := λ key, odb g !! key |}.

Definition holds (V : Valuation) (o : Observation) : Prop :=
  match o with OSlot s v => val_slot V s = v | OOdb key v => val_odb V key = v end.

Definition reads_of (g : Graph) (c : Calc) : list Observation := default [] (last_reads g !! c).
Definition current (V : Valuation) (g : Graph) (c : Calc) : Prop := ∀ o, o ∈ reads_of g c → holds V o.

(** The calculation depends on what it observed. *)
Definition recorded (g : Graph) (c : Calc) (o : Observation) : Prop :=
  match o with
  | OSlot s _ => RSlot s ∈ mm_get (slotsRead g) c
  | OOdb key _ => key ∈ mm_get (subscriptions g) c
  end.

Definition registered (g : Graph) (c : Calc) : Prop := c ∈ dom (slotsRead g).

(** It will be calculated again. *)
Definition marked (g : Graph) (c : Calc) : Prop :=
  match c with
  | CSlot c => valueUpToDate (the_slot g c) = false ∧ c ∈ dirtyComputedSlots g
  | CCell n => n ∈ dirtyNodes g
  | CReactor r => r ∈ dirtyReactors g
  end.
Definition up_to_date (g : Graph) (c : Calc) : Prop :=
  match c with CSlot c => valueUpToDate (the_slot g c) = true | _ => True end.
Definition fresh (V : Valuation) (g : Graph) (c : Calc) : Prop := up_to_date g c ∧ current V g c.

Record inv (V : Valuation) (X : Calc → Prop) (P : Calc → Ref → Prop) (g : Graph) : Prop := {
  i_subs : ∀ key c, c ∈ mm_get (subscribedCells g) key ↔ key ∈ mm_get (subscriptions g) c;
  i_slots : ∀ slot c, c ∈ mm_get (slotToReaders g) slot ↔ slot ∈ mm_get (slotsRead g) c ∨ P c slot;
  i_pending : ∀ c slot, P c slot → slot ∉ mm_get (slotsRead g) c;
  i_keys_full : no_empty (subscribedCells g);
  i_slots_full : no_empty (slotToReaders g);
  i_recorded : ∀ c o, o ∈ reads_of g c → recorded g c o;
  i_registered : ∀ c, ¬ X (CSlot c) → valueUpToDate (the_slot g c) = true → registered g (CSlot c);
  i_sound : ∀ c, ¬ X c → registered g c → marked g c ∨ fresh V g c;
}.
Arguments i_subs {_ _ _ _}.
Arguments i_slots {_ _ _ _}.
Arguments i_pending {_ _ _ _}.
Arguments i_keys_full {_ _ _ _}.
Arguments i_slots_full {_ _ _ _}.
Arguments i_recorded {_ _ _ _}.
Arguments i_registered {_ _ _ _}.
Arguments i_sound {_ _ _ _}.

Definition nothing {A} : A → Prop := λ _, False.
Definition no_pending : Calc → Ref → Prop := λ _ _, False.
Definition also (X : Calc → Prop) (c : Calc) : Calc → Prop := λ c', X c' ∨ c' = c.

(** What the bookkeeping does not change. *)
Record frame (g g' : Graph) : Prop := {
  f_slots : slot_values g' = slot_values g;
  f_odb : odb g' = odb g;
  f_unsubscribed : unsubscribed g' = unsubscribed g;
  f_reactors : reactors g' = reactors g;
  f_executing : ∀ c, isExecuting (the_slot g' c) = isExecuting (the_slot g c);
}.
Lemma frame_refl g : frame g g.
Proof. by split. Qed.
Lemma frame_trans g1 g2 g3 : frame g1 g2 → frame g2 g3 → frame g1 g3.
Proof. intros [S1 O1 U1 R1 E1] [S2 O2 U2 R2 E2]. split; congruence. Qed.
Lemma frame_valuation g g' : frame g g' → valuation g' = valuation g.
Proof. intros [Hs Ho _ _ _]. unfold valuation, slot_value. by rewrite Hs, Ho. Qed.

(** Discarding only removes calculations, and leaves those that stay as they were. *)
Record shrunk (g g' : Graph) : Prop := {
  s_frame : frame g g';
  s_slots : slotsRead g' ⊆ slotsRead g;
  s_cells : cellReactors g' ⊆ cellReactors g;
  s_last : last_reads g' ⊆ last_reads g;
  s_reads : ∀ c, registered g' c → last_reads g' !! c = last_reads g !! c;
  s_up : ∀ c, registered g' (CSlot c) → valueUpToDate (the_slot g' c) = valueUpToDate (the_slot g c);
}.
Lemma registered_mono g g' c : slotsRead g' ⊆ slotsRead g → registered g' c → registered g c.
Proof. unfold registered. intros Hs%subseteq_dom. set_solver. Qed.
Lemma shrunk_refl g : shrunk g g.
Proof. by split. Qed.
Lemma shrunk_trans g1 g2 g3 : shrunk g1 g2 → shrunk g2 g3 → shrunk g1 g3.
Proof.
  intros [F1 S1 C1 L1 R1 U1] [F2 S2 C2 L2 R2 U2]. split.
  - by eapply frame_trans.
  - by etrans.
  - by etrans.
  - by etrans.
  - intros c Hc. rewrite R2 by done. apply R1. by eapply registered_mono.
  - intros c Hc. rewrite U2 by done. apply U1. by eapply registered_mono.
Qed.
Lemma shrunk_entries g g' : shrunk g g' → (entries g' ≤ entries g)%nat.
Proof.
  intros [_ Hs Hc _ _ _]. unfold entries. apply map_subseteq_size in Hs. apply subseteq_size in Hc. lia.
Qed.
Lemma shrunk_fresh V g g' c : shrunk g g' → registered g' c → fresh V g c → fresh V g' c.
Proof.
  intros [_ _ _ _ R U] Hc [Hu Hf]. split.
  - destruct c as [c| |]; try done. cbn in *. by rewrite U.
  - intros o. unfold reads_of. rewrite R by done. apply Hf.
Qed.

Lemma inv_weaken V (X X' : Calc → Prop) P g : (∀ c, X c → X' c) → inv V X P g → inv V X' P g.
Proof. intros HX [??????]. split; auto. Qed.

Lemma inv_pending V X (P P' : Calc → Ref → Prop) g :
  (∀ c s, P c s ↔ P' c s) → inv V X P g → inv V X P' g.
Proof. intros HP [? Hs Hp ?????]. split; try done; [by intros; rewrite Hs, HP|by intros c s Hc; apply Hp, HP]. Qed.

(** A computed slot after an assignment to its fields. *)
Definition with_slot (c : nat) (f : ComputedSlot → ComputedSlot) (g : Graph) : Graph :=
  g <| computed ::= <[c := f (the_slot g c)]> |>.

Lemma run_upd_slot c f g : upd_slot c f g = (Ok tt, with_slot c f g).
Proof. done. Qed.

Lemma the_slot_upd c f g c' :
  the_slot (with_slot c f g) c' = if decide (c = c') then f (the_slot g c) else the_slot g c'.
Proof. unfold the_slot. cbn. rewrite lookup_insert. by case_decide. Qed.

(** ** Orphans *)

Definition gone (c : Calc) (g : Graph) : Prop := ¬ registered g c ∧ reads_of g c = [].

Lemma upd_slot_frame c f g :
  (∀ x, isExecuting (f x) = isExecuting x) → frame g (with_slot c f g).
Proof. intros Hf. split; try done. intros c'. rewrite the_slot_upd. case_decide; [subst; apply Hf|done]. Qed.

Lemma orphan_inv V X P c g :
  gone (CSlot c) g → inv V (also X (CSlot c)) P g →
  wp (orphan c) (λ _ g', inv V X P g' ∧ shrunk g g') (λ _ _, False) g.
Proof.
  intros [Hgone Hreads] [Hs Hr Hp Hk He Ho Hg Hf]. unfold orphan, wp. rewrite run_upd_slot.
  split; [split; try done|].
  - intros c' HX. rewrite the_slot_upd. case_decide as Hc; [done|].
    intros Hu. apply Hg; [|done]. intros [? | [=]]; congruence.
  - intros c' HX Hc'. assert (c' ≠ CSlot c) as Hne by (intros ->; done).
    destruct (Hf c') as [Hm | [Hu Hc]]; [intros [? | ->]; done|done| |].
    + left. destruct c' as [d| |]; try done. cbn in *. rewrite the_slot_upd. case_decide; [congruence|done].
    + right. split; [|done]. destruct c' as [d| |]; try done. cbn in *. rewrite the_slot_upd. case_decide; [congruence|done].
  - split; try done; [by apply upd_slot_frame|].
    intros c' Hc'. rewrite the_slot_upd. case_decide; [|done]. subst. done.
Qed.

(** ** Dropping readers *)

Definition discards (discard : Calc → MG unit) (n : nat) : Prop := ∀ V X P c g,
  inv V X P g → (entries g < n)%nat →
  wp (discard c) (λ _ g', inv V (also X c) P g' ∧ gone c g' ∧ shrunk g g') (λ _ _, False) g.

Lemma drop_reader_inv discard n V X P calculation slot g :
  discards discard n →
  inv V X P g → (entries g < n)%nat → P calculation slot →
  wp (drop_reader discard calculation slot)
    (λ _ g', inv V X (λ c s, P c s ∧ ¬ (c = calculation ∧ s = slot)) g' ∧ shrunk g g') (λ _ _, False) g.
Proof.
  intros Hd [Hs Hr Hp Hk He Ho Hg Hf] Hn HP.
  destruct (elem_of_mm_lookup (slotToReaders g) slot calculation) as (vs & Hvs & Hin); [apply Hr; by right|].
  unfold drop_reader. eapply wp_bind_ok; [apply run_gets|]. rewrite Hvs. cbn [lift_option].
  eapply wp_bind_ok; [reflexivity|]. eapply wp_bind_ok; [apply run_modify|].
  set (g1 := g <| slotToReaders ::= mm_discard_prune slot calculation |>).
  set (P' := λ c s, P c s ∧ ¬ (c = calculation ∧ s = slot)).
  assert (shrunk g g1) as Hsh by (split; try done; split; done).
  assert (inv V X P' g1) as Hinv.
  { split; try done.
    - intros s c. cbn. rewrite elem_of_mm_discard_prune, Hr. unfold P'.
      destruct (decide (c = calculation ∧ s = slot)) as [[-> ->] | Hne]; [|naive_solver].
      specialize (Hp _ _ HP). naive_solver.
    - intros c s [HPc _]. by apply Hp.
    - by apply no_empty_discard_prune. }
  destruct slot as [s | c]; [by split|].
  unfold whenM. case_bool_decide; [|by split].
  apply wp_bind. eapply wp_mono; [apply (Hd V X P' (CSlot c) g1 Hinv); by cbn| |done].
  cbn beta. intros _ g2 (Hi2 & Hg2 & Hs2). eapply wp_mono; [by apply orphan_inv| |done].
  cbn beta. intros _ g3 [Hi3 Hs3]. split; [done|]. eauto using shrunk_trans.
Qed.

Lemma drop_readers_inv discard n V X calculation slots P g :
  discards discard n →
  inv V X (λ c s, P c s ∨ (c = calculation ∧ s ∈ slots)) g → (entries g < n)%nat →
  NoDup slots → (∀ s, s ∈ slots → ¬ P calculation s) →
  wp (forM slots (drop_reader discard calculation)) (λ _ g', inv V X P g' ∧ shrunk g g') (λ _ _, False) g.
Proof.
  intros Hd Hinv Hn Hnd HP.
  eapply wp_mono; [apply (wp_forM _ _ (λ pre g', inv V X (λ c s, P c s ∨ (c = calculation ∧ s ∈ slots ∧ s ∉ pre)) g' ∧ shrunk g g') (λ _ _, False))| |done].
  - split; [|apply shrunk_refl]. eapply inv_pending; [|exact Hinv]. set_solver.
  - intros pre s post g1 -> [Hi1 Hs1].
    apply NoDup_app in Hnd as (_ & Hpre & [Hpost _]%NoDup_cons).
    eapply wp_mono; [eapply (drop_reader_inv _ _ _ _ _ _ _ _ Hd Hi1)| |done].
    + pose proof (shrunk_entries _ _ Hs1). lia.
    + right. split_and!; [done|set_solver|]. intros Hs. apply (Hpre s Hs). set_solver.
    + cbn beta. intros _ g2 [Hi2 Hs2]. split; [|by eapply shrunk_trans].
      eapply inv_pending; [|exact Hi2]. intros c x. cbn.
      rewrite not_elem_of_app, list_elem_of_singleton.
      destruct (decide (c = calculation ∧ x = s)) as [[-> ->] | Hne]; [|naive_solver].
      pose proof (HP s ltac:(set_solver)). naive_solver.
  - cbn beta. intros _ g1 [Hi1 Hs1]. split; [|done]. eapply inv_pending; [|exact Hi1]. naive_solver.
Qed.

(** ** Discarding *)

Lemma drop_exclusion V X P c g :
  inv V (also X c) P g → gone c g → (match c with CSlot _ => False | _ => True end) → inv V X P g.
Proof.
  intros [????? ? Hg Hf] [Hc _] Hnot. split; try done.
  - intros c' HX. apply Hg. intros [? | <-]; done.
  - intros c' HX Hc'. apply Hf; [|done]. intros [? | ->]; done.
Qed.

Lemma gone_shrunk c g g' : gone c g → last_reads g !! c = None → shrunk g g' → gone c g'.
Proof.
  intros [Hc _] Hl [_ Hs _ Hr _ _]. split; [intros H; apply Hc; by eapply registered_mono|].
  unfold reads_of. destruct (last_reads g' !! c) as [o|] eqn:E; [|done].
  by rewrite (lookup_weaken _ _ _ _ E Hr) in Hl.
Qed.

(** [calculationDiscarded] up to the loop over the slots. *)
Definition popped (calculation : Calc) (g : Graph) : Graph :=
  (discard_dirty calculation g).2 <| subscriptions ::= delete calculation |> <| slotsRead ::= delete calculation |>
    <| last_reads ::= delete calculation |>
    <| subscribedCells ::= drop_all calculation (elements (mm_get (subscriptions g) calculation)) |>.

Lemma popped_slotsRead c g : slotsRead (popped c g) = delete c (slotsRead g).
Proof. by destruct c. Qed.
Lemma popped_last_reads c g : last_reads (popped c g) = delete c (last_reads g).
Proof. by destruct c. Qed.
Lemma popped_the_slot c g d : the_slot (popped c g) d = the_slot g d.
Proof. by destruct c. Qed.
Lemma popped_marked c g c' : c' ≠ c → marked g c' → marked (popped c g) c'.
Proof.
  intros Hne. destruct c, c'; cbn; try done; rewrite elem_of_difference, not_elem_of_singleton; naive_solver.
Qed.

Lemma popped_shrunk c g : shrunk g (popped c g).
Proof.
  assert (∀ c', registered (popped c g) c' → c' ≠ c) as Hne.
  { intros c' Hc' ->. unfold registered in Hc'. rewrite popped_slotsRead in Hc'. set_solver. }
  split.
  - split; by destruct c.
  - rewrite popped_slotsRead. apply delete_subseteq.
  - by destruct c.
  - rewrite popped_last_reads. apply delete_subseteq.
  - intros c' Hc'%Hne. rewrite popped_last_reads. by rewrite lookup_delete_ne.
  - intros d _. by rewrite popped_the_slot.
Qed.

Lemma popped_gone c g : gone c (popped c g).
Proof.
  split; [unfold registered; rewrite popped_slotsRead; set_solver|].
  unfold reads_of. by rewrite popped_last_reads, lookup_delete_eq.
Qed.

Lemma popped_inv V X P c g :
  inv V X P g →
  inv V (also X c) (λ c' s, P c' s ∨ (c' = c ∧ s ∈ elements (mm_get (slotsRead g) c))) (popped c g).
Proof.
  intros [Hs Hr Hp Hk He Ho Hg Hf]. split.
  - intros key c'. replace (subscribedCells (popped c g)) with
      (drop_all c (elements (mm_get (subscriptions g) c)) (subscribedCells g)) by by destruct c.
    replace (subscriptions (popped c g)) with (delete c (subscriptions g)) by by destruct c.
    rewrite elem_of_drop_all, elem_of_mm_get_delete, elem_of_elements, Hs.
    destruct (decide (c = c')) as [-> |]; naive_solver.
  - intros s c'. replace (slotToReaders (popped c g)) with (slotToReaders g) by by destruct c.
    rewrite popped_slotsRead, elem_of_mm_get_delete, elem_of_elements, Hr.
    destruct (decide (c = c')) as [-> |]; naive_solver.
  - intros c' s HP. rewrite popped_slotsRead, elem_of_mm_get_delete. intros [Hne Hc'].
    destruct HP as [HP | [-> _]]; [by apply (Hp _ _ HP)|done].
  - replace (subscribedCells (popped c g)) with
      (drop_all c (elements (mm_get (subscriptions g) c)) (subscribedCells g)) by by destruct c.
    by apply no_empty_drop_all.
  - by destruct c.
  - intros c' o. unfold reads_of. rewrite popped_last_reads, lookup_delete.
    case_decide as Hc; [set_solver|]. intros Ho'%Ho. unfold recorded in *. destruct o.
    + by rewrite popped_slotsRead, elem_of_mm_get_delete.
    + replace (subscriptions (popped c g)) with (delete c (subscriptions g)) by by destruct c.
      by rewrite elem_of_mm_get_delete.
  - intros d HX. rewrite popped_the_slot. intros Hu. unfold registered.
    rewrite popped_slotsRead, dom_delete, elem_of_difference, not_elem_of_singleton.
    split; [apply Hg; [|done]|]; intros H; apply HX; [by left|by right].
  - intros c' HX Hc'. assert (c' ≠ c) as Hne by (intros ->; apply HX; by right).
    destruct (Hf c') as [Hm | [Hu Hc]].
    + intros H. apply HX. by left.
    + unfold registered in *. rewrite popped_slotsRead in Hc'. set_solver.
    + left. by apply popped_marked.
    + right. split; [destruct c'; cbn in *; rewrite ?popped_the_slot; done|].
      intros o. unfold reads_of. rewrite popped_last_reads, lookup_delete_ne by done. apply Hc.
Qed.

(** The number of entries goes down whenever a nested call can follow. *)
Lemma popped_entries c g :
  elements (mm_get (slotsRead g) c) ≠ [] → (entries (popped c g) < entries g)%nat.
Proof.
  intros Hne. unfold entries. rewrite popped_slotsRead.
  replace (cellReactors (popped c g)) with (cellReactors g) by by destruct c.
  destruct (slotsRead g !! c) as [x|] eqn:E.
  - rewrite map_size_delete_Some by by rewrite E. assert (size (slotsRead g) ≠ 0)%nat; [|lia].
    rewrite map_size_non_empty_iff. intros H. by rewrite H, lookup_empty in E.
  - exfalso. apply Hne. unfold mm_get. by rewrite E.
Qed.

Lemma calculationDiscarded_unfold n c g V X P Q :
  inv V X P g →
  wp (forM (elements (mm_get (slotsRead g) c)) (drop_reader (calculationDiscarded_rec n) c);;
      rs ← gets (λ g, reactors_of g c);
      forget_reactors c;;
      forM (elements rs) (λ r, calculationDiscarded_rec n (CReactor r))) Q (λ _ _, False) (popped c g) →
  wp (calculationDiscarded_rec (S n) c) Q (λ _ _, False) g.
Proof.
  intros [Hs _ _ _ _ _ _ _] Hwp. cbn [calculationDiscarded_rec].
  apply (wp_bind_ok _ _ _ _ _ tt (discard_dirty c g).2); [by destruct c|]. eapply wp_bind_ok; [apply run_gets|].
  eapply wp_bind_ok; [apply run_gets|]. eapply wp_bind_ok; [apply run_modify|].
  eapply wp_bind_ok; [apply run_drop_subscriptions; [apply NoDup_elements|]|].
  - intros key Hkey%elem_of_elements. destruct c; by apply Hs.
  - destruct c; exact Hwp.
Qed.

Lemma reactors_discarded discard n V X P l g :
  discards discard n →
  inv V X P g → (l ≠ [] → (entries g < n)%nat) →
  wp (forM l (λ r, discard (CReactor r))) (λ _ g', inv V X P g' ∧ shrunk g g') (λ _ _, False) g.
Proof.
  intros Hd Hinv Hn.
  apply (wp_forM _ _ (λ _ g', inv V X P g' ∧ shrunk g g') (λ _ _, False)); [split; [done|apply shrunk_refl]|].
  intros pre r post g1 -> [Hi1 Hs1]. eapply wp_mono; [apply (Hd V X P (CReactor r) g1 Hi1)| |done].
  - pose proof (shrunk_entries _ _ Hs1). enough (entries g < n)%nat by lia. apply Hn. by destruct pre.
  - intros _ g2 (Hi2 & Hg2 & Hs2). split; [|by eapply shrunk_trans]. by apply (drop_exclusion _ _ _ _ _ Hi2 Hg2).
Qed.

Lemma forget_reactors_inv V X P c g :
  inv V X P g →
  ∃ g', forget_reactors c g = (Ok tt, g') ∧ inv V X P g' ∧ shrunk g g' ∧
        (elements (reactors_of g c) ≠ [] → entries g' < entries g)%nat.
Proof.
  intros Hinv. destruct c as [c|n|r]; cbn.
  - exists g. split_and!; [done..|apply shrunk_refl|]. by rewrite elements_empty.
  - eexists. split_and!; [apply run_modify| | |].
    + by destruct Hinv.
    + split; try done; cbn; set_solver.
    + unfold entries. cbn. intros Hne. apply Nat.add_lt_mono_l, subset_size.
      case_bool_decide; [set_solver|by rewrite elements_empty in Hne].
  - exists g. split_and!; [done..|apply shrunk_refl|]. by rewrite elements_empty.
Qed.

Lemma discarded_rec n : discards (calculationDiscarded_rec n) n.
Proof.
  induction n as [|n IH]; intros V X P c g Hinv Hn; [lia|].
  eapply calculationDiscarded_unfold; [exact Hinv|].
  set (slots := elements (mm_get (slotsRead g) c)) in *.
  apply wp_bind.
  apply (wp_mono _ (λ _ g', inv V (also X c) P g' ∧ shrunk (popped c g) g') _ (λ _ _, False)); [| |done].
  - pose proof (popped_inv _ _ _ c _ Hinv) as Hi. fold slots in Hi.
    destruct (decide (slots = [])) as [He | Hne].
    + rewrite He in *. split; [|apply shrunk_refl]. eapply inv_pending; [|exact Hi]. set_solver.
    + eapply drop_readers_inv; [exact IH|exact Hi|pose proof (popped_entries c g Hne); lia|apply NoDup_elements|].
      intros s Hs%elem_of_elements HP. by apply (i_pending Hinv _ _ HP).
  - intros _ g1 [Hi1 Hs1]. eapply wp_bind_ok; [apply run_gets|].
    destruct (forget_reactors_inv V (also X c) P c g1 Hi1) as (g2 & Hrun & Hi2 & Hs2 & Hlt).
    eapply wp_bind_ok; [exact Hrun|].
    eapply wp_mono; [apply (reactors_discarded _ n _ _ _ _ _ IH Hi2)| |done].
    + intros Hne%Hlt. pose proof (shrunk_entries _ _ Hs1). pose proof (shrunk_entries _ _ (popped_shrunk c g)). lia.
    + intros _ g3 [Hi3 Hs3].
      assert (shrunk (popped c g) g3) as Hs by eauto using shrunk_trans.
      split; [done|]. split; [|eauto using shrunk_trans, popped_shrunk].
      apply (gone_shrunk _ _ _ (popped_gone c g)); [|done]. by rewrite popped_last_reads, lookup_delete_eq.
Qed.

Lemma calculationDiscarded_inv n : discards calculationDiscarded n.
Proof.
  intros V X P c g Hinv _. eapply wp_bind_ok; [apply run_gets|]. by apply discarded_rec; [|lia].
Qed.

(** ** Recording *)

(** The context contains what was observed, and if [strict] this is what [V] says. *)
Definition reads_ok (strict : Prop) (V : Valuation) (context : Reads) : Prop := ∀ o, o ∈ observed context →
  (strict → holds V o) ∧ match o with OSlot s _ => RSlot s ∈ slots_read context | OOdb key _ => key ∈ keys_seen context end.

(** [updateDependencies] up to the loop over the slots that are not read any more. *)
Definition rewired (c : Calc) (context : Reads) (g : Graph) : Graph :=
  let known := mm_get (subscriptions g) c in
  g <| subscriptions ::= <[c := keys_seen context]> |> <| last_reads ::= <[c := observed context]> |>
    <| subscribedCells ::= λ m, drop_all c (elements (known ∖ keys_seen context))
                                  (add_all c (elements (keys_seen context ∖ known)) m) |>
    <| slotsRead ::= <[c := slots_read context]> |>
    <| slotToReaders ::= add_all c (elements (slots_read context ∖ mm_get (slotsRead g) c)) |>.

Lemma rewired_inv V X c context g :
  inv V (also X c) no_pending g → reads_ok (¬ X c) V context → (¬ X c → up_to_date g c) →
  inv V X
    (λ c' s, False ∨ (c' = c ∧ s ∈ elements (mm_get (slotsRead g) c ∖ slots_read context))) (rewired c context g) ∧
  (¬ X c → fresh V (rewired c context g) c).
Proof.
  intros [Hs Hr Hp Hk He Ho Hg Hf] Hc Hu.
  assert (¬ X c → fresh V (rewired c context g) c) as Hfresh.
  { intros HX. split; [by apply Hu|]. intros o. unfold reads_of. cbn. rewrite lookup_insert_eq. cbn.
    intros Ho'. by apply Hc. }
  split; [|done]. split; cbn.
    + intros key c'. rewrite elem_of_drop_all, elem_of_add_all, elem_of_mm_get_insert, Hs, !elem_of_elements,
        !elem_of_difference. destruct (decide (c = c')) as [<- |]; [|naive_solver].
      destruct (decide (key ∈ keys_seen context)), (decide (key ∈ mm_get (subscriptions g) c)); naive_solver.
    + intros s c'. rewrite elem_of_add_all, elem_of_mm_get_insert, Hr, !elem_of_elements, !elem_of_difference.
      unfold no_pending. destruct (decide (c = c')) as [<- |]; [|naive_solver].
      destruct (decide (s ∈ slots_read context)), (decide (s ∈ mm_get (slotsRead g) c)); naive_solver.
    + intros c' s [[] | [-> Hin]]. rewrite elem_of_mm_get_insert, decide_True by done. set_solver.
    + by apply no_empty_drop_all, no_empty_add_all.
    + by apply no_empty_add_all.
    + intros c' o. unfold reads_of, recorded. cbn. rewrite lookup_insert. case_decide as Hcc; cbn.
      * subst. intros Ho'. destruct (Hc _ Ho') as [_ Hrec]. destruct o; by rewrite elem_of_mm_get_insert, decide_True.
      * intros Ho'. specialize (Ho _ _ Ho'). destruct o; by rewrite elem_of_mm_get_insert, decide_False.
    + intros d HX Hd. unfold registered. cbn. rewrite dom_insert.
      destruct (decide (CSlot d = c)) as [<- | Hne]; [set_solver|].
      apply elem_of_union_r, Hg; [intros [? | ?]; done|done].
    + intros c' HX. unfold registered. cbn. rewrite dom_insert. intros Hc'.
      destruct (decide (c' = c)) as [-> | Hne]; [right; by apply Hfresh|].
      destruct (Hf c') as [Hm | [Hu' Hcur]]; [intros [? | ?]; done|unfold registered; set_solver|by left|right].
      split; [done|]. intros o. unfold reads_of. cbn. rewrite lookup_insert_ne by done. apply Hcur.
Qed.

Lemma rewired_frame c context g : frame g (rewired c context g).
Proof. by split. Qed.

Lemma updateDependencies_unfold V X c context g Q :
  inv V X no_pending g →
  wp (forM (elements (mm_get (slotsRead g) c ∖ slots_read context)) (drop_reader calculationDiscarded c);;
      match c with
      | CSlot c => modify (λ g, g <| dirtyComputedSlots ::= λ x, x ∖ {[c]} |>)
      | CCell n => modify (λ g, g <| dirtyNodes ::= λ x, x ∖ {[n]} |>)
      | CReactor _ => mret tt
      end) Q (λ _ _, False) (rewired c context g) →
  wp (updateDependencies c context) Q (λ _ _, False) g.
Proof.
  intros [Hs _ _ _ _ _ _ _] Hwp. unfold updateDependencies.
  eapply wp_bind_ok; [apply run_gets|]. eapply wp_bind_ok; [apply run_modify|].
  eapply wp_bind_ok; [apply run_add_subscriptions|].
  eapply wp_bind_ok; [apply run_drop_subscriptions; [apply NoDup_elements|]|].
  - intros key Hkey%elem_of_elements. cbn. rewrite elem_of_add_all, Hs. set_solver.
  - eapply wp_bind_ok; [apply run_gets|]. eapply wp_bind_ok; [apply run_modify|].
    eapply wp_bind_ok; [apply run_add_readers|]. exact Hwp.
Qed.

(** A calculation that is current is not dirty any more. *)
Definition unmark (c : Calc) (g : Graph) : Graph :=
  match c with
  | CSlot c => g <| dirtyComputedSlots ::= λ x, x ∖ {[c]} |>
  | CCell n => g <| dirtyNodes ::= λ x, x ∖ {[n]} |>
  | CReactor r => g <| dirtyReactors ::= λ x, x ∖ {[r]} |>
  end.

Lemma unmark_inv V X P c g :
  inv V X P g → (¬ X c → registered g c → fresh V g c) → inv V X P (unmark c g).
Proof.
  intros [Hs Hr Hp Hk He Ho Hg Hf] Hc.
  assert (slotsRead (unmark c g) = slotsRead g) as Hread by by destruct c.
  split; try by destruct c.
  intros c' HX. unfold registered. rewrite Hread. intros Hc'.
  destruct (decide (c' = c)) as [-> | Hne]; [right; destruct (Hc HX Hc'); by destruct c|].
  destruct (Hf c' HX Hc') as [Hm | Hfr]; [left|right; by destruct c].
  destruct c, c'; cbn in *; try done; set_solver.
Qed.

Lemma unmark_frame c g : frame g (unmark c g).
Proof. split; by destruct c. Qed.

Lemma updateDependencies_inv V X c context g :
  inv V (also X c) no_pending g → reads_ok (¬ X c) V context → (¬ X c → up_to_date g c) →
  wp (updateDependencies c context) (λ _ g', inv V X no_pending g' ∧ frame g g') (λ _ _, False) g.
Proof.
  intros Hinv Hc Hu. eapply updateDependencies_unfold; [exact Hinv|].
  destruct (rewired_inv _ _ _ _ _ Hinv Hc Hu) as [Hi Hf].
  apply wp_bind. eapply wp_mono;
    [eapply (drop_readers_inv _ (S (entries (rewired c context g))) _ _ _ _ no_pending _ (calculationDiscarded_inv _))| |done].
  - eapply inv_pending; [|exact Hi]. done.
  - lia.
  - apply NoDup_elements.
  - intros s _ [].
  - intros _ g1 [Hi1 Hs1].
    assert (inv V X no_pending (unmark c g1)) as Hi2.
    { apply unmark_inv; [done|]. intros HX Hr. eapply shrunk_fresh; [done..|by apply Hf]. }
    assert (frame g g1) as Hfr.
    { apply (frame_trans _ (rewired c context g)); [apply rewired_frame|exact (s_frame _ _ Hs1)]. }
    assert (frame g (unmark c g1)) by (eapply frame_trans; [exact Hfr|apply unmark_frame]).
    by destruct c.
Qed.

(** ** Marking *)

Record remarked (g g' : Graph) : Prop := {
  m_frame : frame g g';
  m_subscribed : subscribedCells g' = subscribedCells g;
  m_readers : slotToReaders g' = slotToReaders g;
  m_read : slotsRead g' = slotsRead g;
  m_subscriptions : subscriptions g' = subscriptions g;
  m_last : last_reads g' = last_reads g;
  m_marked : ∀ c, marked g c → marked g' c;
  m_up : ∀ c, up_to_date g' c → up_to_date g c;
  m_other : ∀ c, up_to_date g c → marked g' c ∨ up_to_date g' c;
}.
Lemma remarked_refl g : remarked g g.
Proof. split; try done. by right. Qed.
Lemma remarked_trans g1 g2 g3 : remarked g1 g2 → remarked g2 g3 → remarked g1 g3.
Proof.
  intros [F1 S1 R1 D1 P1 L1 M1 U1 O1] [F2 S2 R2 D2 P2 L2 M2 U2 O2].
  split; try congruence; [by eapply frame_trans|auto..|].
  intros c [Hm | Hu]%O1; [by left; apply M2|by apply O2].
Qed.

Lemma remarked_inv V X P g g' : remarked g g' → inv V X P g → inv V X P g'.
Proof.
  intros [F S R D S' L Hm Hu Ho] [Hs Hr Hp Hk He Hrec Hg Hf].
  split; unfold registered, reads_of, recorded in *; rewrite ?S, ?R, ?D, ?S', ?L; try done.
  - intros c HX Hc. apply Hg; [done|]. apply (Hu (CSlot c)), Hc.
  - intros c HX Hc. destruct (Hf c HX Hc) as [Hmk | [Hup Hcur]]; [left; auto|].
    destruct (Ho c Hup); [by left|right]. split; [done|]. intros o. unfold reads_of. rewrite L. apply Hcur.
Qed.

Lemma markCalcDirty_spec c g :
  ∃ g', _markCalcDirty c g = (Ok tt, g') ∧ remarked g g' ∧ marked g' c.
Proof.
  destruct c as [c|n|r].
  - set (g1 := g <| dirtyComputedSlots ::= union {[c]} |>).
    exists (with_slot c (λ x, x <| valueUpToDate := false |>) g1). split; [done|].
    assert (∀ d, the_slot (with_slot c (λ x, x <| valueUpToDate := false |>) g1) d =
                 if decide (c = d) then the_slot g c <| valueUpToDate := false |> else the_slot g d) as Hslot
      by (intros d; by rewrite the_slot_upd).
    split; [split; try done|].
    + split; [done..|]. intros d. rewrite Hslot. case_decide; by subst.
    + intros [d| |]; try done. cbn [marked]. rewrite Hslot. cbn. intros [Hu Hd]. case_decide; set_solver.
    + intros [d| |]; try done. cbn [up_to_date]. rewrite Hslot. by case_decide.
    + intros [d| |]; try by right. cbn [up_to_date marked]. rewrite Hslot. cbn. case_decide; subst; [left; set_solver|by right].
    + cbn [marked]. rewrite Hslot, decide_True by done. cbn. set_solver.
  - eexists. split; [reflexivity|]. split; [|cbn; set_solver]. split; try done; [|by right].
    intros [d| |]; cbn; set_solver.
  - eexists. split; [reflexivity|]. split; [|cbn; set_solver]. split; try done; [|by right].
    intros [d| |]; cbn; set_solver.
Qed.

Lemma markAll_spec l g :
  ∃ g', forM l _markCalcDirty g = (Ok tt, g') ∧ remarked g g' ∧ ∀ c, c ∈ l → marked g' c.
Proof.
  revert g. induction l as [|c l IH]; intros g.
  - exists g. split; [done|]. split; [apply remarked_refl|]. set_solver.
  - destruct (markCalcDirty_spec c g) as (g1 & Hrun & Hr1 & Hc).
    destruct (IH g1) as (g2 & Hrun2 & Hr2 & Hl). exists g2. cbn [forM]. unfold bind. rewrite Hrun.
    split; [done|]. split; [by eapply remarked_trans|].
    intros c' [-> | Hc']%elem_of_cons; [by apply (m_marked _ _ Hr2)|by apply Hl].
Qed.

(** Marking the readers of some entries of a table. *)
Lemma mark_table_spec `{Countable K} (table : Graph → gmap K (gset Calc)) (keys : list K) g :
  (∀ g g', remarked g g' → table g' = table g) →
  ∃ g', forM keys (λ key, readers ← gets (λ g, mm_get (table g) key); forM (elements readers) _markCalcDirty) g =
          (Ok tt, g') ∧
    remarked g g' ∧ ∀ key c, key ∈ keys → c ∈ mm_get (table g) key → marked g' c.
Proof.
  intros Htable. revert g. induction keys as [|s l IH]; intros g.
  - exists g. split; [done|]. split; [apply remarked_refl|]. set_solver.
  - destruct (markAll_spec (elements (mm_get (table g) s)) g) as (g1 & Hrun & Hr1 & Hc).
    destruct (IH g1) as (g2 & Hrun2 & Hr2 & Hl). exists g2. cbn [forM]. unfold bind at 1.
    rewrite run_bind, run_gets. cbn beta iota. rewrite Hrun. split; [done|].
    split; [by eapply remarked_trans|]. intros key c [-> | Hs]%elem_of_cons Hin.
    + apply (m_marked _ _ Hr2), Hc. by apply elem_of_elements.
    + apply (Hl key); [done|]. by rewrite (Htable _ _ Hr1).
Qed.

Lemma markSlotsDirty_spec slots g :
  ∃ g', markSlotsDirty slots g = (Ok tt, g') ∧ remarked g g' ∧
    ∀ slot c, slot ∈ slots → c ∈ mm_get (slotToReaders g) slot → marked g' c.
Proof. apply (mark_table_spec slotToReaders). apply m_readers. Qed.

Lemma odbValuesChanged_spec keys g :
  ∃ g', odbValuesChanged keys g = (Ok tt, g') ∧ remarked g g' ∧
    ∀ key c, key ∈ keys → c ∈ mm_get (subscribedCells g) key → marked g' c.
Proof. apply (mark_table_spec subscribedCells). apply m_subscribed. Qed.
