(* ===== verification/CellOrder.v ===== *)
(** * Computed slots in order

    When the function of every computed slot reads only slots with a smaller number, discarding
    what a slot does not read any more never takes away a slot with a larger number: no slot is
    orphaned while its function runs. *)

From Stdlib Require Import Lia.
From stdpp Require Import options.
From S2P Require Import Prelude Schema Messages Connection Views Reactor CellGraph CellInvariant.

Local Open Scope Z_scope.

(** No slot read a slot with the same or a larger number. *)
Definition ordered (g : Graph) : Prop := ∀ c d, RComputed d ∈ mm_get (slotsRead g) (CSlot c) → (d < c)%nat.

(** The slots of [kept] are used by somebody or not, as before. *)
Definition keeps (kept : nat → Prop) (h : nat → bool) (g : Graph) : Prop :=
  ordered g ∧ ∀ d, kept d → has_cells (the_slot g d) = h d.

Definition reads_ordered (calculation : Calc) (context : Reads) : Prop :=
  match calculation with
  | CSlot c => ∀ d, RComputed d ∈ slots_read context → (d < c)%nat
  | _ => True
  end.

(** Discarding the calculation does not reach the slots of [kept]. *)
Definition apart (kept : nat → Prop) (calculation : Calc) : Prop :=
  match calculation with
  | CSlot c => ∀ d, (d < c)%nat → ¬ kept d
  | _ => ∀ d, ¬ kept d
  end.

Lemma apart_smaller kept c d : apart kept (CSlot c) → (d < c)%nat → apart kept (CSlot d).
Proof. intros Hc Hd e He. apply Hc. lia. Qed.

(** What [I] says of a value that is read. *)
Lemma preserves_gets_fact {S A B} (I : S → Prop) (P : A → Prop) (f : S → A) (k : A → M S B) :
  (∀ s, I s → P (f s)) → (∀ x, P x → preserves I (k x)) → preserves I (gets f ≫= k).
Proof. intros Hf Hk s HI. rewrite run_bind, run_gets. by apply (Hk (f s) (Hf s HI)). Qed.

Lemma wp_preserves' {S A} (I : S → Prop) (m : M S A) s : wp m (λ _, I) (λ _, I) s → I (m s).2.
Proof. unfold wp. by destruct (m s) as [[?|?] ?]. Qed.

Section keeping.
Context (kept : nat → Prop) (h : nat → bool).
Abbreviation I := (keeps kept h).

Lemma keeps_upd_slot c f :
  (kept c → ∀ x, has_cells (f x) = has_cells x) → preserves I (upd_slot c f).
Proof using Type.
  intros Hf g [Ho Hh]. split; [exact Ho|]. intros d Hd. change (upd_slot c f g).2 with (with_slot c f g).
  rewrite the_slot_upd. case_decide; [subst; rewrite Hf by done|]; by apply Hh.
Qed.

Lemma keeps_slotsRead g (f : gmap Calc (gset Ref) → gmap Calc (gset Ref)) :
  I g → ordered (g <| slotsRead ::= f |>) → I (g <| slotsRead ::= f |>).
Proof using Type. intros [_ Hh] Ho. by split. Qed.

Lemma keeps_mark calculation : preserves I (_markCalcDirty calculation).
Proof using Type.
  destruct calculation as [c| |]; [|by intros g..].
  apply preserves_bind; [by intros g|]. intros _. by apply keeps_upd_slot.
Qed.

Lemma keeps_markSlotsDirty slots : preserves I (markSlotsDirty slots).
Proof using Type.
  apply preserves_forM. intros s _. apply preserves_bind; [by intros g|]. intros rs.
  apply preserves_forM. intros c _. apply keeps_mark.
Qed.

Lemma keeps_odbValuesChanged keys : preserves I (odbValuesChanged keys).
Proof using Type.
  apply preserves_forM. intros s _. apply preserves_bind; [by intros g|]. intros rs.
  apply preserves_forM. intros c _. apply keeps_mark.
Qed.

Lemma keeps_drop_subscription calculation key : preserves I (drop_subscription calculation key).
Proof using Type.
  apply preserves_bind; [by intros g|]. intros known. apply preserves_bind; [by apply preserves_lift_option|]. by intros _ g.
Qed.

Lemma keeps_drop_reader discard calculation slot :
  (∀ c, slot = RComputed c → ¬ kept c ∧ preserves I (discard (CSlot c))) →
  preserves I (drop_reader discard calculation slot).
Proof using Type.
  intros Hd. apply preserves_bind; [by intros g|]. intros known.
  apply preserves_lift_option_bind. intros readers _. apply preserves_bind; [by intros g|]. intros _.
  destruct slot as [s|c]; [by intros g|]. apply preserves_whenM. intros _. destruct (Hd c eq_refl) as [Hc Hdc].
  apply preserves_bind; [done|]. intros _. by apply keeps_upd_slot.
Qed.

(** The slots that a calculation read can be discarded. *)
Definition can_go (slots : gset Ref) : Prop := ∀ c, RComputed c ∈ slots → ¬ kept c ∧ apart kept (CSlot c).
Lemma read_can_go calculation g : apart kept calculation → I g → can_go (mm_get (slotsRead g) calculation).
Proof using Type.
  intros Ha [Ho _] c Hc. destruct calculation as [d| |]; [|split; [apply Ha|by intros e _; apply Ha]..].
  specialize (Ho _ _ Hc). split; [by apply Ha|by eapply apart_smaller].
Qed.

Lemma keeps_discarded_rec n calculation :
  apart kept calculation → preserves I (calculationDiscarded_rec n calculation).
Proof using Type.
  revert calculation. induction n as [|n IH]; intros calculation Ha; [by intros g|]. cbn [calculationDiscarded_rec].
  apply preserves_bind; [by destruct calculation; intros g|]. intros _.
  apply preserves_bind; [by intros g|]. intros keys.
  apply (preserves_gets_fact _ can_go); [intros ?; by apply read_can_go|]. intros slots Hslots.
  apply preserves_bind.
  { intros g [Ho Hh]. split; [|exact Hh]. intros c d. cbn. rewrite elem_of_mm_get_delete. intros [_ Hd]. by apply Ho. }
  intros _. apply preserves_bind; [by apply preserves_forM; intros key _; apply keeps_drop_subscription|].
  intros _. apply preserves_bind.
  { apply preserves_forM. intros s Hs%elem_of_elements. apply keeps_drop_reader. intros c ->.
    destruct (Hslots c Hs) as [Hc Hac]. split; [done|by apply IH]. }
  intros _. destruct calculation as [c|m|r]; cbn [reactors_of forget_reactors].
  - intros g Hg. exact Hg.
  - apply preserves_bind; [by intros g|]. intros rs. apply preserves_bind; [by intros g|]. intros _.
    apply preserves_forM. intros r _. by apply IH.
  - intros g Hg. exact Hg.
Qed.

Lemma keeps_calculationDiscarded calculation :
  apart kept calculation → preserves I (calculationDiscarded calculation).
Proof using Type. intros Ha. apply preserves_bind; [by intros g|]. intros n. by apply keeps_discarded_rec. Qed.

Lemma keeps_updateDependencies calculation context :
  apart kept calculation → reads_ordered calculation context → preserves I (updateDependencies calculation context).
Proof using Type.
  intros Ha Hctx. unfold updateDependencies.
  apply preserves_bind; [by intros g|]. intros existing. apply preserves_bind; [by intros g|]. intros _.
  apply preserves_bind; [by apply preserves_forM; intros key _ g'|]. intros _.
  apply preserves_bind; [by apply preserves_forM; intros key _; apply keeps_drop_subscription|]. intros _.
  apply (preserves_gets_fact _ can_go); [intros ?; by apply read_can_go|]. intros slots Hslots.
  apply preserves_bind.
  { intros g [Ho Hh]. split; [|exact Hh]. intros c d. cbn. rewrite elem_of_mm_get_insert.
    case_decide as Hc; [|apply Ho]. intros Hd. subst calculation. by apply Hctx. }
  intros _. apply preserves_bind; [by apply preserves_forM; intros s _ g'|]. intros _.
  apply preserves_bind; [|by intros _; destruct calculation; intros g].
  apply preserves_forM. intros s Hs%elem_of_elements. apply keeps_drop_reader. intros c ->.
  destruct (Hslots c) as [Hc Hac]; [set_solver|]. split; [done|by apply keeps_calculationDiscarded].
Qed.

Lemma keeps_handleTransaction writes : preserves I (_handleTransaction writes).
Proof using Type. apply preserves_bind; [by intros g|]. intros _. apply keeps_odbValuesChanged. Qed.

Lemma keeps_ended m : preserves I m → preserves I (ended m).
Proof using Type.
  intros Hm. apply preserves_tryM; [|by intros []; intros ?]. apply preserves_bind; [done|]. by intros _ ?.
Qed.

(** ** Calculating *)

Definition context_below (b : nat) (context : Reads) : Prop := ∀ d, RComputed d ∈ slots_read context → (d < b)%nat.
Definition ending_below (b : nat) (e : Ending) : Prop :=
  match e with Finished _ context => context_below b context | SubscribeAndRetry _ => True end.

Lemma keeps_new_exception {A} (k : nat → MG A) Q E g :
  (∀ e g', I g' → wp (k e) Q E g') → I g → wp (e ← new_exception; k e) Q E g.
Proof using Type. intros Hk Hg. eapply wp_bind_ok; [reflexivity|]. by apply Hk. Qed.

Lemma keeps_run_program ensure b view p context g :
  (∀ c, (c < b)%nat → preserves I (ensure c)) → reads_below p b → context_below b context → I g →
  wp (run_program ensure view p context) (λ e g', I g' ∧ ending_below b e) (λ _, I) g.
Proof using Type.
  intros He. revert context g.
  induction p as [v| |e|s k IH|c k IH|key k IH|t k IH]; intros context g Hb Hc Hg; cbn [run_program].
  - done.
  - by apply keeps_new_exception.
  - done.
  - apply wp_gets_bind. apply IH; [done| |done]. intros d. cbn. rewrite elem_of_union, elem_of_singleton. naive_solver.
  - destruct Hb as [Hlt Hb].
    assert (context_below b (read_ref (RComputed c) [] context)) as Hc'.
    { intros d. cbn. rewrite elem_of_union, elem_of_singleton. naive_solver. }
    apply wp_gets_bind. destruct (isExecuting _); [apply keeps_new_exception; [|done]; intros e g' Hg'; by apply IH|].
    apply (wp_bind_preserves I); [by apply keeps_ended, He|done| |done]. intros calculated g1 Hg1.
    destruct calculated; cbn [negb]; [|apply keeps_new_exception; [|done]; intros e g' Hg'; by apply IH].
    apply wp_gets_bind. destruct (valueAndIsException _); [by apply IH|].
    apply keeps_new_exception; [|done]. intros e g' Hg'. by apply IH.
  - apply IH; [done| |done]. exact Hc.
  - apply wp_gets_bind. case_bool_decide; [done|]. by apply IH.
Qed.

Context (valueFunction : nat → program) (arriving : nat → list (list (Key * Z))).

Lemma keeps_attempts tries ensure b p g :
  (∀ c, (c < b)%nat → preserves I (ensure c)) → reads_below p b → I g →
  wp (attempts arriving tries ensure p) (λ rc g', I g' ∧ context_below b rc.2) (λ _, I) g.
Proof using Type.
  intros He Hb. revert g. induction tries as [|tries IH]; intros g Hg; [done|]. cbn [attempts].
  apply wp_gets_bind, wp_bind.
  eapply wp_mono; [apply (keeps_run_program _ b); [done|done|by intros d ?%elem_of_empty|done]| |done].
  intros [r context|t] g1 [Hg1 Hctx]; [done|].
  apply (wp_bind_preserves I); [by intros ?|done| |done]. intros _ g2 Hg2.
  apply (wp_bind_preserves I); [by apply preserves_forM; intros; apply keeps_handleTransaction|done| |done].
  intros _ g3 Hg3. by apply IH.
Qed.

Lemma keeps_calculate ensure b p g :
  (∀ c, (c < b)%nat → preserves I (ensure c)) → reads_below p b → I g →
  wp (calculate_reading arriving ensure p) (λ rc g', I g' ∧ context_below b rc.2) (λ _, I) g.
Proof using Type. intros He Hb Hg. apply wp_gets_bind. by apply keeps_attempts. Qed.

Lemma keeps_with_cells c m : preserves I m → preserves I (with_cells c m).
Proof using Type. intros Hm. apply preserves_bind; [by intros ?|]. intros slot. destruct (has_cells slot); [done|by intros ?]. Qed.

Lemma keeps_record c old context :
  apart kept (CSlot c) → context_below c context → preserves I (record_calculation c old context).
Proof using Type.
  intros Ha Hc. unfold record_calculation.
  apply preserves_bind; [by apply keeps_with_cells, keeps_updateDependencies|]. intros _.
  apply preserves_bind; [by intros ?|]. intros slot. apply preserves_whenM. intros _.
  apply keeps_with_cells, keeps_markSlotsDirty.
Qed.

Context (functions_ordered : ∀ c, reads_below (valueFunction c) c).

Lemma keeps_ensureCalculated n c :
  (∀ d, (d ≤ c)%nat → ¬ kept d) → preserves I (ensureCalculated valueFunction arriving n c).
Proof using functions_ordered.
  revert c. induction n as [|n IH]; intros c Hc; [by intros ?|]. cbn [ensureCalculated].
  apply preserves_bind; [by intros ?|]. intros slot. destruct (isExecuting slot); [by intros ?|].
  assert (¬ kept c) as Hk by by apply Hc.
  apply preserves_bind; [by apply keeps_upd_slot|]. intros _. destruct (valueUpToDate slot); [by intros ?|].
  apply preserves_bind; [by apply keeps_upd_slot|]. intros _.
  intros g Hg. apply (wp_preserves' I). apply wp_bind.
  eapply wp_mono; [apply (keeps_calculate _ c); [|apply functions_ordered|done]| |done].
  - intros d Hd. apply IH. intros e He. apply Hc. lia.
  - intros [r context] g1 [Hg1 Hctx]. cbn beta iota.
    apply (wp_bind_preserves I); [by apply keeps_upd_slot|done| |done]. intros _ g2 Hg2.
    apply (preserves_wp I); [|done]. apply keeps_record; [|done]. intros d Hd. apply Hc. lia.
Qed.
End keeping.

(** ** Everything that happens *)

(** There are [N] computed slots. *)
Definition activity_below (N : nat) (a : activity) : Prop :=
  match a with
  | Recalculates pops => Forall (λ c, (c < N)%nat) pops
  | CellRecalculated _ p => reads_below p N
  | _ => True
  end.

Lemma apart_nothing calculation : apart nothing calculation.
Proof. destruct calculation; cbn; unfold nothing; tauto. Qed.

Lemma keeps_reactors_discarded h (l : list nat) :
  preserves (keeps nothing h) (forM l (λ r, calculationDiscarded (CReactor r))).
Proof. apply preserves_forM. intros r _. apply keeps_calculationDiscarded, apart_nothing. Qed.

Lemma keeps_act valueFunction arriving N fuel h a :
  (∀ c, reads_below (valueFunction c) c) → activity_below N a →
  preserves (keeps nothing h) (act valueFunction arriving fuel a).
Proof.
  intros Hf Ha.
  assert (∀ slots keys, preserves (keeps nothing h) (updateFromWriteableDependencyContext slots keys)) as Hup.
  { intros slots keys. apply preserves_bind; [apply keeps_markSlotsDirty|]. intros _. apply keeps_odbValuesChanged. }
  assert (∀ calculation context, reads_ordered calculation context →
    preserves (keeps nothing h) (updateDependencies calculation context)) as Hdep.
  { intros calculation context. apply keeps_updateDependencies, apart_nothing. }
  destruct a as [writes|slots keys|pops|n p|n|n|n|n r|r refs read result slots keys|n]; cbn [act].
  - apply keeps_handleTransaction.
  - apply preserves_bind; [by intros ?|]. intros _. by apply preserves_bind; [intros ?|].
  - apply preserves_forM. intros c _. apply preserves_bind; [by intros ?|]. intros dirty.
    apply preserves_whenM. intros _. apply preserves_bind; [by intros ?|]. intros _. apply keeps_ensureCalculated; [done|]. by intros d _ [].
  - intros g Hg. apply wp_preserves', wp_bind.
    eapply wp_mono; [apply (keeps_calculate nothing h arriving _ N); [|exact Ha|exact Hg]| |done].
    + intros c _. apply keeps_ensureCalculated; [done|]. by intros d _ [].
    + intros [r context] g1 [Hg1 _]. apply (preserves_wp (keeps nothing h)); [|done]. by apply Hdep.
  - apply preserves_bind; [by intros ?|]. intros news. apply preserves_bind; [by intros ?|]. intros known.
    destruct (_ && _); [by intros ?|]. apply preserves_bind; [by intros ?|]. intros _.
    apply preserves_bind; [by apply preserves_forM; intros ? _ ?|]. intros _. apply keeps_reactors_discarded.
  - by intros ?.
  - by intros ?.
  - by intros ?.
  - apply preserves_bind; [by intros ?|]. intros _. apply preserves_bind; [by intros ?|]. intros context.
    apply preserves_bind; [by intros ?|]. intros _. apply preserves_bind; [by intros ?|]. intros _.
    apply preserves_bind; [by apply Hdep|]. intros _. by apply preserves_whenM.
  - apply keeps_calculationDiscarded, apart_nothing.
Qed.

Lemma act_ordered valueFunction arriving N fuel a :
  (∀ c, reads_below (valueFunction c) c) → activity_below N a →
  preserves ordered (act valueFunction arriving fuel a).
Proof.
  intros Hf Ha g Hg.
  apply (keeps_act valueFunction arriving N fuel (λ _, true) a Hf Ha g). split; [exact Hg|]. by intros d [].
Qed.
