(* ===== verification/CellTheorems.v ===== *)
(** * What the dependency graph of the user interface guarantees

    The tables never disagree and no operation raises an exception, also when the functions of
    computed slots are cyclic; and whatever a calculation read directly is current unless the
    calculation is going to be made again.  Two histories show where that promise ends: values of
    other computed slots, and cells that are changed while their children are drawn. *)

From Stdlib Require Import Lia.
From stdpp Require Import options.
From S2P Require Import Prelude Schema Messages Connection Views Reactor CellGraph CellInvariant CellOrder.

Local Open Scope Z_scope.

Section calculating.
(** the number of computed slots *)
Context (N : nat).

(** The computed slots that are not being calculated: each nested calculation takes one. *)
Fixpoint idle (n : nat) (g : Graph) : nat :=
  match n with
  | O => O
  | S n => ((if isExecuting (the_slot g n) then 0 else 1) + idle n g)%nat
  end.

Lemma idle_le n g : (idle n g ≤ n)%nat.
Proof using Type. induction n as [|n IH]; cbn; [lia|]. destruct (isExecuting _); lia. Qed.

Lemma idle_ext n g g' :
  (∀ c, isExecuting (the_slot g' c) = isExecuting (the_slot g c)) → idle n g' = idle n g.
Proof using Type. intros Hg. induction n as [|n IH]; cbn; [done|]. by rewrite Hg, IH. Qed.

Lemma idle_executing n g c f :
  (∀ x, isExecuting (f x) = true) → isExecuting (the_slot g c) = false →
  (idle n (with_slot c f g) + (if decide (c < n)%nat then 1 else 0) = idle n g)%nat.
Proof using Type.
  intros Hf Hc. induction n as [|n IH]; [done|]. cbn [idle]. rewrite the_slot_upd.
  destruct (decide (c = n)) as [-> | Hne].
  - rewrite Hf, Hc. repeat case_decide; lia.
  - repeat case_decide; lia.
Qed.

Lemma with_slot_inv V (X : Calc → Prop) P c f g :
  X (CSlot c) ∨ (∀ x, valueUpToDate (f x) = valueUpToDate x) → inv V X P g → inv V X P (with_slot c f g).
Proof using Type.
  intros HX [Hs Hr Hp Hk He Hrec Hg Hf].
  assert (∀ d, ¬ X (CSlot d) → valueUpToDate (the_slot (with_slot c f g) d) = valueUpToDate (the_slot g d)) as Hup.
  { intros d Hd. rewrite the_slot_upd. case_decide; [subst|done]. destruct HX; [done|auto]. }
  split; try done.
  - intros d Hd. rewrite Hup by done. by apply Hg.
  - intros d Hd Hreg. destruct (Hf d Hd Hreg) as [Hm | [Hu Hc]]; [left|right; split; [|done]].
    + destruct d; cbn in *; try done. by rewrite Hup.
    + destruct d; cbn in *; try done. by rewrite Hup.
Qed.

(** ** Being strict

    With [strict], functions are ordered and everything is subscribed: then calculations neither
    raise nor change the database, and what they read is current.  Otherwise the promises are
    about the tables only. *)

Context (strict : Prop).

Definition covers (X : Calc → Prop) : Prop := ∀ c, ¬ X c → strict.
Definition orderly (g : Graph) : Prop := strict → ordered g.
Definition still (V : Valuation) (g : Graph) : Prop := strict → unsubscribed g = ∅ ∧ valuation g = V.

Lemma inv_covered V V' X P g : covers X → (strict → V = V') → inv V X P g → inv V' X P g.
Proof using Type.
  intros HX HV [Hs Hr Hp Hk He Hrec Hg Hf]. split; try done. intros c Hc. rewrite <-(HV (HX c Hc)). by apply Hf.
Qed.

Lemma inv_lax V X X' P g : ¬ strict → covers X → inv V X' P g → inv V X P g.
Proof using Type.
  intros Hlax HX [Hs Hr Hp Hk He Hrec Hg Hf]. split; try done; intros c Hc; by destruct Hlax; eapply HX.
Qed.

Lemma covers_also X c : covers X → covers (also X c).
Proof using Type. intros HX d Hd. apply (HX d). intros Hx. apply Hd. by left. Qed.

(** What calculations do to the rest of the state. *)
Record progress (g g' : Graph) : Prop := {
  p_slots : slot_values g' = slot_values g;
  p_odb : unsubscribed g = ∅ → odb g' = odb g;
  p_unsubscribed : unsubscribed g' ⊆ unsubscribed g;
  p_executing : ∀ c, isExecuting (the_slot g' c) = isExecuting (the_slot g c);
}.
Lemma frame_progress g g' : frame g g' → progress g g'.
Proof using Type. intros [Hs Ho Hu Hr Hx]. split; [done|done|by rewrite Hu|done]. Qed.
Lemma progress_refl g : progress g g.
Proof using Type. by split. Qed.
Lemma progress_trans g1 g2 g3 : progress g1 g2 → progress g2 g3 → progress g1 g3.
Proof using Type.
  intros [S1 O1 U1 E1] [S2 O2 U2 E2]. split; [congruence| |by etrans|congruence].
  intros He. rewrite O2, O1; [done..|]. rewrite He in U1. set_solver.
Qed.
Lemma progress_still V g g' : progress g g' → still V g → still V g'.
Proof using Type.
  intros [Hs Ho Hu _] Hg Hst. destruct (Hg Hst) as [He <-]. rewrite He in Hu. split; [set_solver|].
  unfold valuation, slot_value. by rewrite Hs, Ho.
Qed.

(** What is only promised to the strict. *)
Lemma wp_strict {A} (m : MG A) Q E Q' E' g :
  wp m Q E g → (strict → wp m Q' E' g) →
  wp m (λ a g', Q a g' ∧ (strict → Q' a g')) (λ e g', E e g' ∧ (strict → E' e g')) g.
Proof using Type. unfold wp. destruct (m g) as [[a|e] g']; tauto. Qed.

Lemma wp_ended (m : MG unit) Q E g :
  wp m (λ _, Q true) (λ e g', e = AttributeError ∧ Q false g') g → wp (ended m) Q E g.
Proof using Type.
  unfold ended, wp, tryM. rewrite run_bind. destruct (m g) as [[[]|e] g']; [done|]. by intros [-> HQ].
Qed.

(** What a nested calculation may rely on. *)
Definition calculates_well (V : Valuation) (X : Calc → Prop) (m : MG unit) (g : Graph) : Prop :=
  wp m (λ _ g', inv V X no_pending g' ∧ progress g g')
    (λ e g', e = AttributeError ∧ ¬ strict ∧ inv V X no_pending g' ∧ progress g g') g.
Definition ensures (ensure : nat → MG unit) (n : nat) : Prop := ∀ V X c g,
  covers X → inv V X no_pending g → still V g → orderly g → (c < N)%nat →
  isExecuting (the_slot g c) = false → (idle N g < n)%nat →
  calculates_well V X (ensure c) g.

Lemma reads_ok_ref V r o context :
  (∀ x, x ∈ o → (strict → holds V x) ∧ match x with OSlot s _ => RSlot s = r | OOdb _ _ => False end) →
  reads_ok strict V context → reads_ok strict V (read_ref r o context).
Proof using Type.
  intros Ho Hc x. cbn. intros [Hx | Hx]%elem_of_app.
  - destruct (Ho x Hx) as [Hh Hr]. split; [done|]. destruct x; [set_solver|done].
  - destruct (Hc x Hx) as [Hh Hr]. split; [done|]. destruct x; set_solver.
Qed.

Lemma reads_ok_key V key v context :
  (strict → val_odb V key = v) → reads_ok strict V context → reads_ok strict V (read_key key v context).
Proof using Type.
  intros Hv Hc x. cbn. intros [-> | Hx]%elem_of_cons.
  - split; [done|]. set_solver.
  - destruct (Hc x Hx) as [Hh Hr]. split; [done|]. destruct x; set_solver.
Qed.

Lemma reads_ok_mono (s s' : Prop) V context : (s' → s) → reads_ok s V context → reads_ok s' V context.
Proof using Type. intros Hs Hc o Ho. destruct (Hc o Ho). auto. Qed.

Lemma no_reads_ok V : reads_ok strict V no_reads.
Proof using Type. by intros ? ?%elem_of_nil. Qed.

Lemma new_exception_spec V X P g :
  inv V X P g →
  ∃ e g', new_exception g = (Ok e, g') ∧ inv V X P g' ∧ progress g g' ∧ (orderly g → orderly g').
Proof using Type. intros Hi. eexists _, _. split; [reflexivity|]. split; [by destruct Hi|by split]. Qed.

(** How a run of a program ends. *)
Definition ending_ok (V : Valuation) (X : Calc → Prop) (g : Graph) (e : Ending) (g' : Graph) : Prop :=
  inv V X no_pending g' ∧ progress g g' ∧ orderly g' ∧
  match e with
  | Finished _ context => reads_ok strict V context
  | SubscribeAndRetry t => t ∈ unsubscribed g'
  end.

Lemma ending_ok_later V X g g1 e g' : progress g g1 → ending_ok V X g1 e g' → ending_ok V X g e g'.
Proof using Type. intros Hp (Hi & Hp' & Ho & He). split_and!; [done|by eapply progress_trans|done..]. Qed.

Lemma run_program_inv ensure n V X p view context g :
  ensures ensure n → (∀ c, preserves orderly (ensure c)) → reads_below p N → covers X →
  inv V X no_pending g → still V g → (strict → view = odb g) → orderly g → (idle N g < n)%nat →
  reads_ok strict V context →
  wp (run_program ensure view p context) (ending_ok V X g) (λ _ _, False) g.
Proof using Type.
  intros He Hkeep Hb HX. revert context g Hb.
  induction p as [v| |e|s k IH|c k IH|key k IH|t k IH]; intros context g Hb Hinv Hst Hview Ho Hn Hc; cbn [run_program].
  - split_and!; [done|apply progress_refl|done..].
  - destruct (new_exception_spec _ _ _ _ Hinv) as (e & g1 & Hrun & Hi & Hp & Ho1).
    eapply wp_bind_ok; [exact Hrun|]. split_and!; auto.
  - split_and!; [done|apply progress_refl|done..].
  - apply wp_gets_bind. apply IH; try done.
    apply reads_ok_ref; [|done]. intros x ->%list_elem_of_singleton. split; [|done].
    intros [_ HV]%Hst. by rewrite <-HV.
  - destruct Hb as [Hlt Hb]. apply wp_gets_bind.
    assert (∀ r context g', inv V X no_pending g' → progress g g' → orderly g' → reads_ok strict V context →
      wp (run_program ensure view (k r) context) (ending_ok V X g) (λ _ _, False) g') as Hgo.
    { intros r context' g' Hi Hp Ho' Hc'. eapply wp_mono; [apply IH; try done| |done].
      - by eapply progress_still.
      - intros Hs. rewrite (p_odb _ _ Hp); [by apply Hview|by apply Hst].
      - by rewrite (idle_ext _ _ _ (p_executing _ _ Hp)).
      - intros e g2. by apply ending_ok_later. }
    assert (∀ context g', inv V X no_pending g' → progress g g' → orderly g' → reads_ok strict V context →
      wp (e ← new_exception; run_program ensure view (k (RExn e)) context) (ending_ok V X g) (λ _ _, False) g') as Hraise.
    { intros context' g' Hi Hp Ho' Hc'. destruct (new_exception_spec _ _ _ _ Hi) as (e & g2 & Hrun & Hi2 & Hp2 & Ho2).
      eapply wp_bind_ok; [exact Hrun|]. apply Hgo; [done|by eapply progress_trans|auto|done]. }
    destruct (isExecuting (the_slot g c)) eqn:Hex; [apply Hraise; [done|apply progress_refl|done..]|].
    apply wp_bind, wp_ended.
    eapply wp_mono; [eapply wp_strict; [by apply (He V X)|]| |].
    + intros Hs. apply (preserves_wp orderly); [by apply Hkeep|done].
    + cbn beta. intros _ g1 [[Hi1 Hp1] Ho1']. cbn [negb]. apply wp_gets_bind.
      assert (orderly g1) as Ho1 by (intros Hs; by apply Ho1').
      assert (reads_ok strict V (read_ref (RComputed c) [] context)) as Hc1 by (apply reads_ok_ref; [set_solver|done]).
      destruct (valueAndIsException (the_slot g1 c)); [by apply Hgo|by apply Hraise].
    + cbn beta. intros e g1 [(-> & _ & Hi1 & Hp1) Ho1]. split; [done|]. cbn [negb]. apply Hraise; try done. intros Hs. by apply Ho1.
  - apply IH; try done. apply reads_ok_key; [|done]. intros Hs. destruct (Hst Hs) as [_ <-]. by rewrite (Hview Hs).
  - apply wp_gets_bind. case_bool_decide; [|by apply IH]. split_and!; [done|apply progress_refl|done..].
Qed.

(** ** Starting again *)

Context (arriving : nat → list (list (Key * Z))).

(** The transactions that have arrived are handled. *)
Lemma handled_inv V X P writes g :
  inv V X P g → ∃ g', _handleTransaction writes g = (Ok tt, g') ∧ inv V X P g' ∧
    slot_values g' = slot_values g ∧ unsubscribed g' = unsubscribed g ∧
    ∀ c, isExecuting (the_slot g' c) = isExecuting (the_slot g c).
Proof using Type.
  intros Hi. set (g1 := (write_odb writes g).2).
  destruct (odbValuesChanged_spec writes.*1 g1) as (g2 & Hrun & Hr & _). pose proof (m_frame _ _ Hr) as Hf.
  exists g2. split; [exact Hrun|].
  split; [eapply remarked_inv; [exact Hr|]; by destruct Hi|]. split; [by rewrite (f_slots _ _ Hf)|].
  split; [by rewrite (f_unsubscribed _ _ Hf)|]. intros c. by rewrite (f_executing _ _ Hf).
Qed.

Lemma all_handled_inv V X P l g :
  inv V X P g → ∃ g', forM l _handleTransaction g = (Ok tt, g') ∧ inv V X P g' ∧
    slot_values g' = slot_values g ∧ unsubscribed g' = unsubscribed g ∧
    ∀ c, isExecuting (the_slot g' c) = isExecuting (the_slot g c).
Proof using Type.
  revert g. induction l as [|writes l IH]; intros g Hi; [by exists g|].
  destruct (handled_inv V X P writes g Hi) as (g1 & Hrun1 & Hi1 & Hs1 & Hu1 & Hx1).
  destruct (IH g1 Hi1) as (g2 & Hrun2 & Hi2 & Hs2 & Hu2 & Hx2).
  exists g2. cbn [forM]. unfold bind at 1. rewrite Hrun1. split; [exact Hrun2|]. split; [done|].
  split_and!; [congruence..|intros d; by rewrite Hx2, Hx1].
Qed.

Lemma attempts_inv ensure n V X p tries g :
  ensures ensure n → (∀ c, preserves orderly (ensure c)) → reads_below p N → covers X →
  inv V X no_pending g → still V g → orderly g → (idle N g < n)%nat → (size (unsubscribed g) < tries)%nat →
  wp (attempts arriving tries ensure p)
    (λ rc g', inv V X no_pending g' ∧ progress g g' ∧ reads_ok strict V rc.2) (λ _ _, False) g.
Proof using Type.
  intros He Hkeep Hb HX. revert g. induction tries as [|tries IH]; intros g Hinv Hst Ho Hn Hsize; [lia|].
  cbn [attempts]. apply wp_gets_bind, wp_bind.
  eapply wp_mono; [apply (run_program_inv _ n V X); try done; apply no_reads_ok| |done].
  intros [r context|t] g1 (Hi1 & Hp1 & Ho1 & Hend); [by split_and!|].
  assert (¬ strict) as Hlax.
  { intros Hs. destruct (progress_still _ _ _ Hp1 Hst Hs) as [Hu _]. rewrite Hu in Hend. set_solver. }
  assert (unsubscribed g1 ⊆ unsubscribed g) as Hu1 by apply Hp1.
  eapply wp_bind_ok; [apply run_modify|]. set (g2 := g1 <| unsubscribed ::= _ |>).
  destruct (all_handled_inv V X no_pending (arriving t) g2) as (g3 & Hrun & Hi3 & Hs3 & Hu3 & Hx3); [by destruct Hi1|].
  eapply wp_bind_ok; [exact Hrun|].
  assert (unsubscribed g3 = unsubscribed g1 ∖ {[t]}) as Hu by done.
  assert (progress g g3) as Hp3.
  { split; [by rewrite Hs3, <-(p_slots _ _ Hp1)| |set_solver|].
    - intros Hempty. set_solver.
    - intros c. rewrite Hx3. apply (p_executing _ _ Hp1). }
  eapply wp_mono; [apply IH; try done| |done].
  - by intros ?.
  - by rewrite (idle_ext _ _ _ (p_executing _ _ Hp3)).
  - apply subseteq_size in Hu1. rewrite Hu, size_difference by set_solver. rewrite size_singleton.
    enough (size (unsubscribed g1) ≠ 0)%nat by lia. rewrite size_non_empty_iff. set_solver.
  - intros [r context] g4 (Hi4 & Hp4 & Hc4). split_and!; [done|by eapply progress_trans|done].
Qed.

Lemma calculate_inv ensure n V X p g :
  ensures ensure n → (∀ c, preserves orderly (ensure c)) → reads_below p N → covers X →
  inv V X no_pending g → still V g → orderly g → (idle N g < n)%nat →
  wp (calculate_reading arriving ensure p)
    (λ rc g', inv V X no_pending g' ∧ progress g g' ∧ reads_ok strict V rc.2) (λ _ _, False) g.
Proof using Type. intros He Hkeep Hb HX Hinv Hst Ho Hn. apply wp_gets_bind. eapply attempts_inv; try done. lia. Qed.

(** ** Computed slots *)

Context (valueFunction : nat → program).
Context (functions_below : ∀ c, reads_below (valueFunction c) N).
Context (functions_ordered : strict → ∀ c, reads_below (valueFunction c) c).

Lemma orderly_ensure n c : preserves orderly (ensureCalculated valueFunction arriving n c).
Proof using functions_ordered.
  intros g Ho Hs. apply (keeps_ensureCalculated nothing (λ _, true) valueFunction arriving (functions_ordered Hs) n c).
  - by intros d _ [].
  - split; [by apply Ho|by intros d []].
Qed.

(** With ordered functions, a slot keeps its cells while its function runs, and so do the larger ones. *)
Definition above (c d : nat) : Prop := (c ≤ d)%nat.

Lemma kept_while_running n c g :
  strict → ordered g →
  wp (calculate_reading arriving (ensureCalculated valueFunction arriving n) (valueFunction c))
    (λ rc g', keeps (above c) (λ d, has_cells (the_slot g d)) g' ∧ context_below c rc.2)
    (λ _ g', keeps (above c) (λ d, has_cells (the_slot g d)) g') g.
Proof using functions_ordered.
  intros Hs Ho. apply keeps_calculate; [|by apply functions_ordered|by split].
  intros d Hd. apply keeps_ensureCalculated; [by apply functions_ordered|]. intros e He. unfold above. lia.
Qed.

Lemma record_inv V X c old context g :
  covers X → inv V (also X (CSlot c)) no_pending g → reads_ok strict V context → up_to_date g (CSlot c) →
  (strict → has_cells (the_slot g c) = true ∧ ordered g ∧ context_below c context) →
  calculates_well V X (record_calculation c old context) g.
Proof using Type.
  intros HX Hi Hc Hu Hs. unfold calculates_well, record_calculation, with_cells.
  apply wp_bind, wp_gets_bind. destruct (has_cells (the_slot g c)) eqn:Hcells.
  - eapply wp_mono; [eapply (wp_strict _ _ _ (λ _ g', has_cells (the_slot g' c) = true) (λ _ _, True));
      [apply (updateDependencies_inv V X (CSlot c) context g); [done| |done]|]| |by intros ? ? []].
    + eapply reads_ok_mono; [|exact Hc]. apply HX.
    + intros Hst. destruct (Hs Hst) as (_ & Ho & Hb).
      eapply wp_mono; [apply (preserves_wp (keeps (above c) (λ d, has_cells (the_slot g d))))| |done].
      * apply keeps_updateDependencies; [|exact Hb]. intros d Hd. unfold above. lia.
      * by split.
      * intros _ g1 [_ Hk]. rewrite Hk; [done|]. unfold above. lia.
    + intros _ g1 [[Hi1 Hf1] Hk]. apply wp_gets_bind. unfold whenM. case_bool_decide.
      * apply wp_gets_bind. destruct (has_cells (the_slot g1 c)) eqn:Hc1.
        -- destruct (markSlotsDirty_spec [RComputed c] g1) as (g2 & Hrun & Hr & _). unfold wp. rewrite Hrun.
           split; [by eapply remarked_inv|]. apply frame_progress. eapply frame_trans; [exact Hf1|apply Hr].
        -- assert (¬ strict) as Hlax by (intros Hst; specialize (Hk Hst); congruence).
           split_and!; [done|done|done|by apply frame_progress].
      * split; [done|by apply frame_progress].
  - assert (¬ strict) as Hlax by (intros Hst; destruct (Hs Hst); congruence).
    split_and!; [done|done|by eapply inv_lax|apply progress_refl].
Qed.

Lemma progress_run c g g2 f :
  isExecuting (the_slot g c) = false → (∀ x, isExecuting (f x) = false) →
  progress (with_slot c (λ x, x <| isExecuting := true |>) g) g2 → progress g (with_slot c f g2).
Proof using Type.
  intros Hex Hf [Hs Ho Hu Hx]. split; [exact Hs|exact Ho|exact Hu|].
  intros d. rewrite the_slot_upd. case_decide; [subst; by rewrite Hf, Hex|]. by rewrite Hx, the_slot_upd, decide_False.
Qed.

(** The calculation proper, of a slot that is not up to date. *)
Lemma calculates n V X c g old :
  ensures (ensureCalculated valueFunction arriving n) n →
  covers X → inv V (also X (CSlot c)) no_pending g → still V g → orderly g → (c < N)%nat →
  isExecuting (the_slot g c) = false → has_cells (the_slot g c) = true → (idle N g < S n)%nat →
  calculates_well V X (upd_slot c (λ x, x <| isExecuting := true |>);;
      '(r, context) ← calculate_reading arriving (ensureCalculated valueFunction arriving n) (valueFunction c);
      upd_slot c (λ x, x <| isExecuting := false |> <| valueAndIsException := Some r |> <| valueUpToDate := true |>);;
      record_calculation c old context) g.
Proof using functions_below functions_ordered.
  intros He HX Hinv Hst Ho Hlt Hex Hcells Hn. unfold calculates_well. eapply wp_bind_ok; [apply run_upd_slot|].
  set (g1 := with_slot c _ g).
  assert (inv V (also X (CSlot c)) no_pending g1) as Hi1 by (apply with_slot_inv; [by right|done]).
  assert (has_cells (the_slot g1 c) = true) as Hc1 by (unfold g1; by rewrite the_slot_upd, decide_True).
  assert (idle N g1 < n)%nat as Hn1.
  { pose proof (idle_executing N g c (λ x, x <| isExecuting := true |>) (λ _, eq_refl) Hex) as Hid.
    rewrite decide_True in Hid by done. unfold g1. lia. }
  apply wp_bind. eapply wp_mono; [eapply wp_strict; [apply (calculate_inv _ n V (also X (CSlot c))); try done|]| |by intros ? ? []].
  - intros d. apply orderly_ensure.
  - by apply covers_also.
  - intros Hs. by apply (kept_while_running n c g1 Hs), Ho.
  - intros [r context] g2 [(Hi2 & Hp2 & Hc2) Hs2]. cbn beta iota in *.
    eapply wp_bind_ok; [apply run_upd_slot|]. set (g3 := with_slot c _ g2).
    assert (progress g g3) as Hp3 by by apply progress_run.
    eapply wp_mono; [apply (record_inv V X c old context g3 HX)| |].
    + apply with_slot_inv; [left; by right|done].
    + done.
    + cbn [up_to_date]. unfold g3. by rewrite the_slot_upd, decide_True.
    + intros Hs. destruct (Hs2 Hs) as [[Ho2 Hk2] Hb2]. split_and!; [|done|done].
      unfold g3. rewrite the_slot_upd, decide_True by done. cbn. rewrite Hk2; [done|]. unfold above. lia.
    + cbn beta. intros _ g4 [Hi4 Hp4]. split; [done|by eapply progress_trans].
    + cbn beta. intros e g4 (-> & Hlax & Hi4 & Hp4). split_and!; [done|done|done|by eapply progress_trans].
Qed.

Lemma ensureCalculated_inv n V X c g :
  covers X → inv V (also X (CSlot c)) no_pending g →
  (valueUpToDate (the_slot g c) = true → inv V X no_pending g) →
  still V g → orderly g → (c < N)%nat → isExecuting (the_slot g c) = false → (idle N g < n)%nat →
  calculates_well V X (ensureCalculated valueFunction arriving n c) g.
Proof using functions_below functions_ordered.
  revert V X c g. induction n as [|n IH]; intros V X c g HX Hinv Hup Hst Ho Hlt Hex Hn; [lia|].
  unfold calculates_well. cbn [ensureCalculated]. apply wp_gets_bind. rewrite Hex.
  eapply wp_bind_ok; [apply run_upd_slot|]. set (g1 := with_slot c _ g).
  assert (frame g g1) as Hf1 by (by apply upd_slot_frame). pose proof (frame_progress _ _ Hf1) as Hp1.
  destruct (valueUpToDate (the_slot g c)) eqn:Hu.
  - split; [|done]. apply with_slot_inv; auto.
  - eapply wp_mono; [apply (calculates n V X c g1 (valueAndIsException (the_slot g c)))| |]; try done.
    + intros V' X' d g' HX' Hi HV' Ho' Hd Hx Hn'. apply IH; try done. eapply inv_weaken; [|exact Hi]. by left.
    + apply with_slot_inv; auto.
    + by rewrite (f_executing _ _ Hf1).
    + unfold g1. by rewrite the_slot_upd, decide_True.
    + by rewrite (idle_ext _ _ _ (f_executing _ _ Hf1)).
    + cbn beta. intros _ g2 [Hi2 Hp2]. split; [done|]. by eapply progress_trans.
    + cbn beta. intros e g2 (-> & Hlax & Hi2 & Hp2). split_and!; [done|done|done|by eapply progress_trans].
Qed.

Lemma ensureCalculated_ensures n : ensures (ensureCalculated valueFunction arriving n) n.
Proof using functions_below functions_ordered.
  intros V X c g HX Hi HV Ho Hlt Hex Hn. apply ensureCalculated_inv; try done. eapply inv_weaken; [|exact Hi]. by left.
Qed.

(** ** Writing *)

(** The values differ at most at these slots and keys. *)
Definition agree (slots : list nat) (keys : list Key) (V V' : Valuation) : Prop :=
  (∀ s, s ∉ slots → val_slot V' s = val_slot V s) ∧ (∀ key, key ∉ keys → val_odb V' key = val_odb V key).

Lemma lookup_written `{Countable K} (writes : list (K * Z)) (m : gmap K Z) k :
  k ∉ writes.*1 → foldr (λ kv m, <[kv.1 := kv.2]> m) m writes !! k = m !! k.
Proof using Type.
  induction writes as [|[k' v] l IH]; [done|]. cbn. intros [Hne Hk]%not_elem_of_cons.
  rewrite lookup_insert_ne by congruence. by apply IH.
Qed.

(** It observed a value that may have changed. *)
Definition affected (slots : list nat) (keys : list Key) (o : Observation) : Prop :=
  match o with OSlot s _ => s ∈ slots | OOdb key _ => key ∈ keys end.
#[local] Instance affected_dec slots keys o : Decision (affected slots keys o).
Proof using Type. destruct o; unfold affected; apply _. Defined.

Lemma writes_agree slots keys g :
  agree slots.*1 keys.*1 (valuation g) (valuation (write_odb keys (write_slots slots g).2).2).
Proof using Type.
  split; intros k Hk; cbn; [unfold slot_value; cbn|]; by rewrite lookup_written.
Qed.

Lemma revalue V V' X P g :
  inv V X P g →
  (∀ c, ¬ X c → registered g c → marked g c ∨ ∀ o, o ∈ reads_of g c → holds V o → holds V' o) →
  inv V' X P g.
Proof using Type.
  intros [Hs Hr Hp Hk He Hrec Hg Hf] HV. split; try done.
  intros c HX Hc. destruct (Hf c HX Hc) as [? | [Hu Hcur]]; [by left|].
  destruct (HV c HX Hc) as [? | Hh]; [by left|right]. split; [done|]. intros o Ho. apply Hh; [done|by apply Hcur].
Qed.

Lemma written_inv slots keys V X g :
  inv V X no_pending g → agree slots keys V (valuation g) →
  wp (updateFromWriteableDependencyContext slots keys)
    (λ _ g', inv (valuation g) X no_pending g' ∧ frame g g') (λ _ _, False) g.
Proof using Type.
  intros Hinv [HAs HAk].
  destruct (markSlotsDirty_spec (RSlot <$> slots) g) as (g1 & Hrun1 & Hr1 & Hm1).
  destruct (odbValuesChanged_spec keys g1) as (g2 & Hrun2 & Hr2 & Hm2).
  assert (remarked g g2) as Hr by by eapply remarked_trans.
  unfold updateFromWriteableDependencyContext. eapply wp_bind_ok; [exact Hrun1|]. unfold wp. rewrite Hrun2.
  split; [|apply Hr]. assert (inv V X no_pending g2) as Hi2 by by eapply remarked_inv.
  eapply revalue; [exact Hi2|]. intros c _ _.
  destruct (decide (Exists (affected slots keys) (reads_of g2 c))) as [Hex | Hno].
  - left. apply Exists_exists in Hex as (o & Ho & Hin). apply (i_recorded Hi2) in Ho. destruct o as [s v|key v]; cbn in Ho.
    + apply (m_marked _ _ Hr2), (Hm1 (RSlot s)); [by apply list_elem_of_fmap_2|].
      rewrite <-(m_readers _ _ Hr). apply (i_slots Hi2). by left.
    + apply (Hm2 key); [done|]. rewrite <-(m_subscribed _ _ Hr2). by apply (i_subs Hi2).
  - right. intros o Ho Hh. apply not_Exists_Forall in Hno; [|apply _].
    rewrite Forall_forall in Hno. specialize (Hno o Ho). destruct o as [s v|key v]; cbn in *.
    + by rewrite <-Hh, <-HAs.
    + by rewrite <-Hh, <-HAk.
Qed.

(** ** The activities *)

(** The user interface at rest. *)
Definition at_rest (X : Calc → Prop) (g : Graph) : Prop :=
  inv (valuation g) X no_pending g ∧ (∀ c, isExecuting (the_slot g c) = false) ∧
  (strict → unsubscribed g = ∅).

(** How an activity may end. *)
Definition rests (X : Calc → Prop) (m : MG unit) (g : Graph) : Prop :=
  wp m (λ _ g', at_rest X g') (λ e g', e = AttributeError ∧ at_rest X g') g.

(** A cell is only declared clean if it was not marked meanwhile, and a reactor that reports that
    it did nothing wrote nothing. *)
Definition careful (a : activity) (g : Graph) : Prop :=
  match a with
  | CellDone n => n ∉ dirtyNodes g
  | ReactorRan _ _ _ result slots keys => result = true ∨ (slots = [] ∧ keys = [])
  | _ => True
  end.

Lemma comes_to_rest (m : MG unit) X g :
  covers X → (∀ c, isExecuting (the_slot g c) = false) → (strict → unsubscribed g = ∅) →
  calculates_well (valuation g) X m g → rests X m g.
Proof using Type.
  intros HX Hx Hu Hm.
  assert (∀ g', inv (valuation g) X no_pending g' → progress g g' → at_rest X g') as Hr.
  { intros g' Hi Hp. assert (still (valuation g) g') as Hst by (eapply progress_still; [exact Hp|]; intros Hs; auto).
    split; [|split].
    - eapply inv_covered; [exact HX| |exact Hi]. intros Hs. by destruct (Hst Hs).
    - intros c. by rewrite (p_executing _ _ Hp).
    - intros Hs. by destruct (Hst Hs). }
  eapply wp_mono; [exact Hm| |]; cbn beta; [|intros e g' (-> & _ & ? & ?)]; intros; destruct_and?; auto.
Qed.

Lemma rests_frame (m : MG unit) X g :
  covers X → (∀ c, isExecuting (the_slot g c) = false) → (strict → unsubscribed g = ∅) →
  wp m (λ _ g', inv (valuation g) X no_pending g' ∧ frame g g') (λ _ _, False) g → rests X m g.
Proof using Type.
  intros HX Hx Hu Hm. apply comes_to_rest; [done..|].
  eapply wp_mono; [exact Hm| |by intros ? ? []]. intros _ g' [Hi Hf]. split; [done|by apply frame_progress].
Qed.

Lemma idle_at_rest fuel g : (N < fuel)%nat → (idle N g < fuel)%nat.
Proof using Type. pose proof (idle_le N g). lia. Qed.

Lemma recalculate_one_rest fuel X c g :
  (N < fuel)%nat → (c < N)%nat → covers X → at_rest X g → orderly g →
  rests X (recalculate_one valueFunction arriving fuel c) g.
Proof using functions_below functions_ordered.
  intros Hfuel Hc HX (Hi & Hx & Hu) Ho. apply comes_to_rest; [done..|].
  unfold calculates_well, recalculate_one. apply wp_gets_bind. unfold whenM. case_bool_decide as Hd.
  - apply (wp_bind_ok _ _ _ _ _ tt (unmark (CSlot c) g)); [done|].
    pose proof (frame_progress _ _ (unmark_frame (CSlot c) g)) as Hp.
    eapply wp_mono; [apply (ensureCalculated_inv fuel (valuation g) X c (unmark (CSlot c) g))| |]; try done.
    + apply unmark_inv; [eapply inv_weaken; [|exact Hi]; by left|]. intros Hno. destruct Hno. by right.
    + change (the_slot (unmark (CSlot c) g) c) with (the_slot g c). intros Hup. apply (unmark_inv _ _ _ (CSlot c)); [done|]. intros HXc Hreg.
      destruct (i_sound Hi _ HXc Hreg) as [[Hm _] | Hf]; [congruence|done].
    + intros Hs. split; [by apply Hu|done].
    + apply Hx.
    + by apply idle_at_rest.
    + cbn beta. intros _ g' [Hi' Hp']. split; [done|by eapply progress_trans].
    + cbn beta. intros e g' (-> & Hlax & Hi' & Hp'). split_and!; [done|done|done|by eapply progress_trans].
  - split; [done|apply progress_refl].
Qed.

Lemma orderly_act fuel a : activity_below N a → preserves orderly (act valueFunction arriving fuel a).
Proof using functions_ordered. intros Ha g Ho Hs. by eapply act_ordered; [apply functions_ordered| |apply Ho]. Qed.

Lemma orderly_recalculate fuel c : preserves orderly (recalculate_one valueFunction arriving fuel c).
Proof using functions_ordered.
  apply preserves_bind; [by intros ?|]. intros dirty. apply preserves_whenM. intros _.
  apply preserves_bind; [by intros ?|]. intros _. apply orderly_ensure.
Qed.

Lemma recalculate_rest fuel X pops g :
  (N < fuel)%nat → Forall (λ c, (c < N)%nat) pops → covers X → at_rest X g → orderly g →
  rests X (recalculateDirtyComputedSlots valueFunction arriving fuel pops) g.
Proof using functions_below functions_ordered.
  intros Hfuel Hb HX Hr Ho.
  eapply wp_mono; [apply (wp_forM _ _ (λ _ g', at_rest X g' ∧ orderly g') (λ e g', e = AttributeError ∧ at_rest X g'))| |done].
  - done.
  - intros pre c post g1 -> [Hr1 Ho1]. rewrite Forall_app, Forall_cons in Hb. destruct Hb as (_ & Hc & _).
    pose proof (recalculate_one_rest fuel X c g1 Hfuel Hc HX Hr1 Ho1) as Hone.
    pose proof (orderly_recalculate fuel c g1 Ho1) as Hkept. unfold rests, wp in *.
    by destruct (recalculate_one _ _ _ _ _) as [[[]|e] g2].
  - by intros _ g1 [Hr1 _].
Qed.

Lemma reads_now_ok sure g refs keys : reads_ok sure (valuation g) (reads_now g refs keys).
Proof using Type.
  intros o. cbn. intros [Ho | Ho]%elem_of_app.
  - apply list_elem_of_omap in Ho as ([s|c] & Hs & [= <-]). split; [done|]. cbn. by apply elem_of_list_to_set.
  - apply list_elem_of_fmap in Ho as (key & -> & Hk). split; [done|]. cbn. by apply elem_of_list_to_set.
Qed.

Lemma updateCellReactors_inv V X n g :
  inv V X no_pending g →
  wp (updateCellReactors n) (λ _ g', inv V X no_pending g' ∧ frame g g') (λ _ _, False) g.
Proof using Type.
  intros Hi. unfold updateCellReactors. eapply wp_bind_ok; [apply run_gets|]. eapply wp_bind_ok; [apply run_gets|].
  set (news := mm_get (reactors g) n). set (known := bool_decide (n ∈ cellReactors g)).
  destruct (bool_decide (news = ∅) && negb known); [split; [done|apply frame_refl]|].
  eapply wp_bind_ok; [apply run_modify|]. set (g1 := g <| cellReactors ::= _ |>).
  assert (inv V X no_pending g1) as Hi1 by by destruct Hi.
  assert (frame g g1) as Hf1 by by split.
  set (added := elements (news ∖ if known then news else ∅)).
  assert (∃ g2, forM added (λ r, modify (λ g, g <| dirtyReactors ::= union {[r]} |>)) g1 = (Ok tt, g2) ∧ remarked g1 g2)
    as (g2 & Hrun & Hr).
  { clearbody added g1. clear. revert g1. induction added as [|r l IH]; intros g0.
    - exists g0. split; [done|apply remarked_refl].
    - destruct (markCalcDirty_spec (CReactor r) g0) as (g1 & Hrun & Hr & _). destruct (IH g1) as (g2 & Hrun2 & Hr2).
      exists g2. split; [|by eapply remarked_trans]. cbn [forM]. unfold bind at 1. cbn in Hrun. by injection Hrun as <-. }
  eapply wp_bind_ok; [exact Hrun|]. pose proof (remarked_inv _ _ _ _ _ Hr Hi1) as Hi2.
  eapply wp_mono; [apply (reactors_discarded _ (S (entries g2)) _ _ _ _ _ (calculationDiscarded_inv _) Hi2); lia| |done].
  intros _ g3 [Hi3 Hs3]. split; [done|]. eapply frame_trans; [exact Hf1|].
  eapply frame_trans; [apply Hr|apply Hs3].
Qed.

Lemma write_slots_inv V X P slots g : inv V X P g → inv V X P (write_slots slots g).2.
Proof using Type. intros []. by split. Qed.
Lemma write_odb_inv V X P keys g : inv V X P g → inv V X P (write_odb keys g).2.
Proof using Type. intros []. by split. Qed.

Lemma transaction_rest X writes g : covers X → at_rest X g → rests X (_handleTransaction writes) g.
Proof using Type.
  intros HX (Hi & Hx & Hu). eapply wp_bind_ok; [apply run_modify|]. apply rests_frame; [done..|].
  apply (written_inv [] writes.*1 (valuation g) X (write_odb writes g).2); [by apply write_odb_inv|].
  split; intros k Hk; cbn; [done|by rewrite lookup_written].
Qed.

Lemma callback_rest X slots keys g : covers X → at_rest X g → rests X (_executeCallback slots keys) g.
Proof using Type.
  intros HX (Hi & Hx & Hu).
  eapply wp_bind_ok; [apply run_modify|]. eapply wp_bind_ok; [apply run_modify|]. apply rests_frame; [done..|].
  apply (written_inv slots.*1 keys.*1 (valuation g)); [by apply write_odb_inv, write_slots_inv|apply writes_agree].
Qed.

Lemma cell_rest fuel X n p g :
  (N < fuel)%nat → reads_below p N → covers X → at_rest X g → orderly g →
  rests X (recalculate_cell valueFunction arriving fuel n p) g.
Proof using functions_below functions_ordered.
  intros Hfuel Hb HX (Hi & Hx & Hu) Ho. apply comes_to_rest; [done..|]. apply wp_bind.
  eapply wp_mono; [apply (calculate_inv _ fuel (valuation g) X); try done| |by intros ? ? []].
  - by apply ensureCalculated_ensures.
  - intros c. apply orderly_ensure.
  - intros Hs. split; [by apply Hu|done].
  - by apply idle_at_rest.
  - intros [v context] g1 (Hi1 & Hp1 & Hc1). cbn beta iota in *.
    eapply wp_mono; [apply (updateDependencies_inv (valuation g) X (CCell n))| |by intros ? ? []].
    + eapply inv_weaken; [|exact Hi1]. by left.
    + eapply reads_ok_mono; [|exact Hc1]. apply HX.
    + done.
    + intros _ g2 [Hi2 Hf2]. split; [done|]. eapply progress_trans; [exact Hp1|by apply frame_progress].
Qed.

Lemma done_rest X n g : covers X → at_rest X g → n ∉ dirtyNodes g ∨ ¬ strict → rests X (cell_done n) g.
Proof using Type.
  intros HX (Hi & Hx & Hu) Hcareful. apply rests_frame; [done..|]. split; [|apply (unmark_frame (CCell n))].
  apply (unmark_inv _ _ _ (CCell n)); [done|]. intros HXn Hreg.
  destruct Hcareful as [Hn | Hlax]; [|by destruct (Hlax (HX _ HXn))].
  by destruct (i_sound Hi _ HXn Hreg).
Qed.

Lemma reactor_rest X r refs read (result : bool) slots keys g :
  covers X → at_rest X g → (result = true ∨ (slots = [] ∧ keys = [])) ∨ ¬ strict →
  rests X (recalculate_reactor r refs read result slots keys) g.
Proof using Type.
  intros HX (Hi & Hx & Hu) Hcareful.
  apply (wp_bind_ok _ _ _ _ _ tt (unmark (CReactor r) g)); [done|]. set (g1 := unmark (CReactor r) g).
  eapply wp_bind_ok; [apply run_gets|]. eapply wp_bind_ok; [apply run_modify|]. eapply wp_bind_ok; [apply run_modify|].
  set (g2 := g1 <| slot_values ::= _ |> <| odb ::= _ |>). apply wp_bind.
  eapply wp_mono; [apply (updateDependencies_inv (valuation g1) X (CReactor r) _ g2)| |by intros ? ? []].
  - apply (write_odb_inv _ _ _ keys), (write_slots_inv _ _ _ slots).
    apply unmark_inv; [eapply inv_weaken; [|exact Hi]; by left|]. intros Hno. destruct Hno. by right.
  - apply reads_now_ok.
  - done.
  - intros _ g3 [Hi3 Hf3].
    assert (agree slots.*1 keys.*1 (valuation g1) (valuation g3)) as Hag.
    { rewrite (frame_valuation _ _ Hf3). apply writes_agree. }
    assert (∀ c, isExecuting (the_slot g3 c) = false) as Hx3 by (intros c; rewrite (f_executing _ _ Hf3); apply Hx).
    assert (strict → unsubscribed g3 = ∅) as Hu3 by (rewrite (f_unsubscribed _ _ Hf3); exact Hu).
    unfold whenM. destruct result; [apply rests_frame; [done..|by eapply written_inv]|].
    split_and!; [|done|done]. eapply revalue; [exact Hi3|]. intros c HXc _. right. intros o _ Ho.
    destruct Hcareful as [[? | [-> ->]] | Hlax]; [done| |by destruct (Hlax (HX _ HXc))].
    destruct Hag as [As Ak]. destruct o as [s v|k v]; (etrans; [|exact Ho]); [apply As|apply Ak]; apply not_elem_of_nil.
Qed.

Lemma act_rest fuel X a g :
  (N < fuel)%nat → activity_below N a → covers X → at_rest X g → orderly g → careful a g ∨ ¬ strict →
  rests X (act valueFunction arriving fuel a) g.
Proof using functions_below functions_ordered.
  intros Hfuel Hb HX Hrest Ho Hcareful. pose proof Hrest as (Hi & Hx & Hu).
  destruct a as [writes|slots keys|pops|n p|n|n|n|n r|r refs read result slots keys|n]; cbn [act].
  - by apply transaction_rest.
  - by apply callback_rest.
  - by apply recalculate_rest.
  - by apply cell_rest.
  - apply rests_frame; [done..|]. by apply updateCellReactors_inv.
  - by apply done_rest.
  - apply rests_frame; [done..|]. destruct (markCalcDirty_spec (CCell n) g) as (g1 & [= <-] & Hr & _).
    split; [|apply Hr]. eapply remarked_inv; [exact Hr|done].
  - split; [by destruct Hi|done].
  - by apply reactor_rest.
  - apply rests_frame; [done..|].
    eapply wp_mono; [apply (calculationDiscarded_inv _ _ _ _ _ _ Hi (Nat.lt_succ_diag_r _))| |done].
    intros _ g1 (Hi1 & Hg1 & Hs1). split; [by apply (drop_exclusion _ _ _ _ _ Hi1 Hg1)|apply Hs1].
Qed.

(** ** Histories *)

Fixpoint cautious (fuel : nat) (l : list activity) (g : Graph) : Prop :=
  match l with
  | [] => True
  | a :: l => careful a g ∧ cautious fuel l (act valueFunction arriving fuel a g).2
  end.

Lemma acts_rest fuel X l g :
  (N < fuel)%nat → Forall (activity_below N) l → covers X → at_rest X g → orderly g →
  cautious fuel l g ∨ ¬ strict →
  ∃ g', acts valueFunction arriving fuel l g = (Ok tt, g') ∧ at_rest X g'.
Proof using functions_below functions_ordered.
  intros Hfuel Hb HX. revert g. induction Hb as [|a l Ha Hl IH]; intros g Hrest Ho Hc; [by exists g|].
  assert (careful a g ∨ ¬ strict) as Hca by (destruct Hc as [[? _] | ?]; auto).
  pose proof (act_rest _ _ _ _ Hfuel Ha HX Hrest Ho Hca) as Hact. unfold rests in Hact.
  pose proof (orderly_act fuel a Ha g Ho) as Ho1. cbn [cautious] in Hc.
  unfold acts. cbn [forM]. unfold bind at 1. rewrite run_bind. unfold ended, tryM. rewrite run_bind.
  unfold wp in Hact. destruct (act valueFunction arriving fuel a g) as [[[]|e] g1]; [|destruct Hact as [-> Hact]];
    apply IH; try done; destruct Hc as [[_ ?] | ?]; auto.
Qed.

End calculating.

Lemma new_Graph_rests (strict : Prop) X types : (strict → types = ∅) → at_rest strict X (new_Graph types).
Proof.
  intros Hu. split; [|by split]. split; try done.
  - intros slot c. change (c ∈ mm_get ∅ slot ↔ slot ∈ mm_get ∅ c ∨ False). rewrite !mm_get_empty. set_solver.
  - intros c o. change (o ∈ [] → recorded (new_Graph types) c o). by intros ?%elem_of_nil.
Qed.

Lemma new_Graph_ordered types : ordered (new_Graph types).
Proof. by intros c d. Qed.

(** ** Three computed slots

    [0] is a key of the database, [1] is twice [0], and [2] reads the key, [1], [0] and [1] again. *)

Definition the_key : Key := KField {| objId := 7; ofiFieldId := 1; isIndexValue := false |}.
Definition number (r : Result) : Z := match r with RValue v => v | RExn _ => -1 end.
Definition diamond (c : nat) : program :=
  match c with
  | 0%nat => POdb the_key (λ v, PReturn (default 0 v))
  | 1%nat => PComputed 0 (λ r, PReturn (2 * number r))
  | 2%nat => POdb the_key (λ _, PComputed 1 (λ r1, PComputed 0 (λ _, PComputed 1 (λ r2,
               PReturn (100 * number r1 + number r2)))))
  | _ => PReturn 0
  end.
Definition shows_2 : program := PComputed 2 (λ r, PReturn (number r)).

Lemma diamond_below c : reads_below (diamond c) 3.
Proof. destruct c as [|[|[|c]]]; cbn; repeat (split || intros _ || intros ?); lia. Qed.
Lemma diamond_ordered c : reads_below (diamond c) c.
Proof. destruct c as [|[|[|c]]]; cbn; repeat (split || intros _ || intros ?); lia. Qed.
Definition nothing_arrives : nat → list (list (Key * Z)) := λ _, [].

(** A cell shows slot 2; the key changes; the slots are recalculated, slot 2 first. *)
Definition drawn : list activity := [Transaction [(the_key, 1)]; CellRecalculated 0 shows_2; CellReactors 0; CellDone 0].
Definition redrawn : list activity := drawn ++ [Transaction [(the_key, 5)]; Recalculates [2; 1; 0]%nat; CellRecalculated 0 shows_2; CellDone 0].

(** A cell that reads the key is drawn; a transaction is handled while its child is. *)
Definition interrupted : list activity :=
  [Transaction [(the_key, 1)]; CellRecalculated 0 (POdb the_key (λ v, PReturn (default 0 v)));
   Transaction [(the_key, 2)]; CellDone 0].

Definition after (l : list activity) : Graph := (acts diamond nothing_arrives 4 l (new_Graph ∅)).2.

(** Slot 0 shows 1 or what slot 1 shows, and slot 1 shows 0 or what slot 0 shows, as a slot tells;
    slot 0 is calculated first after the slot has changed. *)
Definition flip (c : nat) : program :=
  match c with
  | 0%nat => PSlot 0 (λ v, if decide (v = 0) then PReturn 1 else PComputed 1 (λ r, PReturn (10 * v + number r)))
  | 1%nat => PSlot 0 (λ v, if decide (v = 0) then PComputed 0 (λ r, PReturn (number r)) else PReturn 0)
  | _ => PReturn 0
  end.
Definition shows (c : nat) : program := PComputed c (λ r, PReturn (number r)).
Definition before_flip : list activity := [CellRecalculated 0 (shows 1); Callback [(0%nat, 1)] []].
Definition flipped : Graph := (act flip nothing_arrives 3 (Recalculates [0%nat]) (acts flip nothing_arrives 3 before_flip (new_Graph ∅)).2).2.
Definition much_later : Graph := (acts flip nothing_arrives 3 [Callback [(0%nat, 2)] []; CellRecalculated 1 (shows 0)] flipped).2.

(** Slot 0 reads the key and then slot 1, whose function subscribes to something. *)
Definition subscribing (c : nat) : program :=
  match c with
  | 0%nat => POdb the_key (λ v, PComputed 1 (λ _, PReturn (default 0 v)))
  | _ => PSubscribe 0 (PReturn 0)
  end.
Definition subscribed : Graph :=
  (acts subscribing (λ _, [[(the_key, 2)]]) 3 [Transaction [(the_key, 1)]; CellRecalculated 0 (shows 0)] (new_Graph {[0%nat]})).2.

(** ** The properties *)


(** C29. In a user interface that is subscribed to everything, whose computed slots are numbered so
    that the function of each reads only computed slots with a smaller number, and provided that
    cells are not declared clean after having been marked and that reactors report their writes:
    after any history, an up-to-date computed slot is known to the dependency graph and what it
    read directly (slots and keys of the database) has the value that it read, and so has what
    any other calculation in the graph read, unless it is going to be made again; and a computed
    slot of the graph that is not up to date is in the set of those that are recalculated. *)
Theorem direct_reads_are_current (valueFunction : nat → program) (arriving : nat → list (list (Key * Z)))
    (N fuel : nat) (l : list activity) (g : Graph)
    (Hfunctions : ∀ c, reads_below (valueFunction c) N) (Hordered : ∀ c, reads_below (valueFunction c) c)
    (Hl : Forall (activity_below N) l) (Hfuel : (N < fuel)%nat)
    (Hcautious : cautious arriving valueFunction fuel l (new_Graph ∅))
    (Hrun : acts valueFunction arriving fuel l (new_Graph ∅) = (Ok tt, g)) :
  (∀ c, valueUpToDate (the_slot g c) = true → registered g (CSlot c) ∧ current (valuation g) g (CSlot c)) ∧
  (∀ c, registered g c → ¬ marked g c → current (valuation g) g c) ∧
  (∀ c, registered g (CSlot c) → valueUpToDate (the_slot g c) = false → c ∈ dirtyComputedSlots g).
Proof.
  destruct (acts_rest N True arriving valueFunction Hfunctions (λ _, Hordered) fuel nothing l (new_Graph ∅) Hfuel Hl)
    as (g' & Hrun' & Hinv & _); [done|by apply new_Graph_rests|by intros _; apply new_Graph_ordered|by left|].
  rewrite Hrun in Hrun'. injection Hrun' as <-.
  assert (∀ c, registered g c → marked g c ∨ fresh (valuation g) g c) as Hsound by (intros c; apply (i_sound Hinv); intros []).
  assert (∀ c, valueUpToDate (the_slot g c) = true → registered g (CSlot c)) as Hreg by (intros c; apply (i_registered Hinv); intros []).
  split_and!.
  - intros c Hu. split; [by apply Hreg|]. destruct (Hsound (CSlot c)) as [[Hm _] | [_ Hc]]; [by apply Hreg|congruence|done].
  - intros c Hc Hm. by destruct (Hsound c Hc) as [? | [_ ?]].
  - intros c Hc Hu. destruct (Hsound _ Hc) as [[_ ?] | [Hu' _]]; [done|cbn in Hu'; congruence].
Qed.

(** ** Where these promises end *)

(** A computed slot that reads a key, then a second slot, then the slot that the second one
    depends on: when the key changes and it is recalculated first, it is marked while it executes,
    and the mark is erased when it ends.  Nothing is dirty any more, and the cell goes on showing
    a value calculated from a slot that has changed (it should show 1010).  And a cell whose child
    is drawn after it: a transaction handled meanwhile (the child subscribed to something) marks
    the cell, and the end of its drawing erases the mark. *)
Example marks_are_lost :
  (acts diamond nothing_arrives 4 redrawn (new_Graph ∅)).1 = Ok tt ∧
  dirtyComputedSlots (after redrawn) = ∅ ∧ dirtyNodes (after redrawn) = ∅ ∧
  valueAndIsException (the_slot (after redrawn) 1) = Some (RValue 10) ∧
  valueUpToDate (the_slot (after redrawn) 2) = true ∧
  valueAndIsException (the_slot (after redrawn) 2) = Some (RValue 210) ∧
  (calculate_reading nothing_arrives (ensureCalculated diamond nothing_arrives 4) shows_2 (after [Transaction [(the_key, 5)]])).1
    = Ok (RValue 1010, read_ref (RComputed 2) [] no_reads) ∧
  dirtyNodes (after interrupted) = ∅ ∧ reads_of (after interrupted) (CCell 0) = [OOdb the_key (Some 1)] ∧
  odb (after interrupted) !! the_key = Some 2.
Proof. split_and!; by vm_compute. Qed.

(** Slot 0 loses its only reader, slot 1, while its function runs: its calculation ends with
    AttributeError, but it stays up to date without being in the graph.  When the slot changes
    again, it is not marked, and a cell that reads it is given the value 10 of before, not 20. *)
Example orphaned_while_executing :
  (act flip nothing_arrives 3 (Recalculates [0%nat]) (acts flip nothing_arrives 3 before_flip (new_Graph ∅)).2).1 = Raise AttributeError ∧
  the_slot flipped 0 = {| valueAndIsException := Some (RValue 10); valueUpToDate := true; has_cells := false; isExecuting := false |} ∧
  slotsRead flipped !! CSlot 0 = None ∧
  (calculate_reading nothing_arrives (ensureCalculated flip nothing_arrives 3) (shows 0) much_later).1
    = Ok (RValue 10, read_ref (RComputed 0) [] no_reads).
Proof. split_and!; by vm_compute. Qed.

(** Slot 1 subscribes to something while slot 0 is calculated, and a transaction that is handled
    then changes the key that slot 0 has read: slot 0 is not known to depend on the key yet, is not
    marked, and stays up to date with the old value. *)
Example subscribed_while_executing :
  valueAndIsException (the_slot subscribed 0) = Some (RValue 1) ∧ valueUpToDate (the_slot subscribed 0) = true ∧
  elements (mm_get (subscriptions subscribed) (CSlot 0)) = [the_key] ∧
  dirtyComputedSlots subscribed = ∅ ∧ dirtyNodes subscribed = ∅ ∧ odb subscribed !! the_key = Some 2.
Proof. split_and!; by vm_compute. Qed.

(** ** The witnesses *)

Lemma drawn_below : Forall (activity_below 3) drawn.
Proof. unfold drawn. rewrite !Forall_cons. cbn. split_and!; try exact I; [lia|by intros _|by constructor]. Qed.
Lemma drawn_cautiously : cautious nothing_arrives diamond 4 drawn (new_Graph ∅).
Proof.
  refine (conj I (conj I (conj I (conj _ I)))). refine (bool_decide_eq_true_1 _ _). by vm_compute.
Qed.
Lemma drawn_runs : acts diamond nothing_arrives 4 drawn (new_Graph ∅) = (Ok tt, after drawn).
Proof. refine (outcome_eta (acts diamond nothing_arrives 4 drawn (new_Graph ∅)) (Ok tt) _). by vm_compute. Qed.



Example direct_reads_are_current_witness :
  (∀ c, valueUpToDate (the_slot (after drawn) c) = true →
        registered (after drawn) (CSlot c) ∧ current (valuation (after drawn)) (after drawn) (CSlot c)) ∧
  (∀ c, registered (after drawn) c → ¬ marked (after drawn) c → current (valuation (after drawn)) (after drawn) c) ∧
  (∀ c, registered (after drawn) (CSlot c) → valueUpToDate (the_slot (after drawn) c) = false →
        c ∈ dirtyComputedSlots (after drawn)).
Proof.
  exact (direct_reads_are_current diamond nothing_arrives 3 4 drawn (after drawn) diamond_below diamond_ordered drawn_below
           (Nat.lt_succ_diag_r 3) drawn_cautiously drawn_runs).
Defined.
