(* ===== verification/WriteContext.v ===== *)
(** * Functions that write, and the computed slots that they read

    The writeable use of [DependencyContext] (web/cells/dependency_context.py).  While a callback
    or a reactor runs it may write slots and the database, and must see computed slots as they are
    after its own writes, although nothing of this is known to the dependency graph yet.  The
    context keeps a copy of the computed slots that were read, marks the ones of them that depend
    on something written, and takes over values of the graph where nothing that they depend on
    was written.

    Computed slots are those of [CellGraph]; [real] are the ones that are up to date there.
    A conflict of the transaction starts the function again; [SubscribeAndRetry], which does so too,
    is left out (what functions need is subscribed here, so [PSubscribe] goes on), and so is what is reported to the view at the end ([markTransitiveReadsInto]). *)

From stdpp Require Import options.
From S2P Require Import Prelude Schema Messages Connection Views Reactor CellGraph.

Local Open Scope Z_scope.

Record ComputedSlotDeps := { subSlots : gset Ref; dep_keys : gset Key }.
#[export] Instance ComputedSlotDeps_settable : Settable ComputedSlotDeps := λ r,
  {| subSlots := subSlots r; dep_keys := dep_keys r |}.
Definition no_deps : ComputedSlotDeps := {| subSlots := ∅; dep_keys := ∅ |}.

Record Context := {
  w_slots : gmap nat Z;                          (* [Slot._value] *)
  w_odb : gmap Key Z;                            (* what the transaction shows *)
  real : gmap nat (Result * ComputedSlotDeps);   (* up to date: [_valueAndIsException], [dependencies] *)
  executing : gset nat;                          (* [_isExecuting] *)
  fresh_exn : nat;
  (* DependencyContext *)
  w_slotsRead : gset Ref;
  slotsCreated : gset nat;
  writtenSlotOriginalValues : gmap nat Z;
  unmodifiedComputedSlots : gset nat;
  modifiedComputedSlots : gset nat;
  computedSlotValues : gmap nat Result;
  computedSlotDependencies : gmap nat ComputedSlotDeps;
  subscriptionToComputedSlots : gmap Key (gset nat);
  slotToComputedSlots : gmap Ref (gset nat);
  executingDependencyStack : list ComputedSlotDeps;
}.
#[export] Instance Context_settable : Settable Context := λ r,
  {| w_slots := w_slots r; w_odb := w_odb r; real := real r; executing := executing r; fresh_exn := fresh_exn r;
     w_slotsRead := w_slotsRead r; slotsCreated := slotsCreated r;
     writtenSlotOriginalValues := writtenSlotOriginalValues r; unmodifiedComputedSlots := unmodifiedComputedSlots r;
     modifiedComputedSlots := modifiedComputedSlots r; computedSlotValues := computedSlotValues r;
     computedSlotDependencies := computedSlotDependencies r;
     subscriptionToComputedSlots := subscriptionToComputedSlots r; slotToComputedSlots := slotToComputedSlots r;
     executingDependencyStack := executingDependencyStack r |}.
Abbreviation MC := (M Context).

(** A new context over the given slots, database and graph *)
Definition new_Context (slots : gmap nat Z) (db : gmap Key Z) (graph : gmap nat (Result * ComputedSlotDeps)) : Context :=
  {| w_slots := slots; w_odb := db; real := graph; executing := ∅; fresh_exn := 0; w_slotsRead := ∅; slotsCreated := ∅;
     writtenSlotOriginalValues := ∅; unmodifiedComputedSlots := ∅; modifiedComputedSlots := ∅; computedSlotValues := ∅;
     computedSlotDependencies := ∅; subscriptionToComputedSlots := ∅; slotToComputedSlots := ∅;
     executingDependencyStack := [] |}.

Definition w_slot_value (g : Context) (s : nat) : Z := default 0 (w_slots g !! s).

(** [if self.executingDependencyStack: self.executingDependencyStack[-1]...]; the top comes first here *)
Definition note (f : ComputedSlotDeps → ComputedSlotDeps) : MC unit :=
  modify (λ g, g <| executingDependencyStack ::= λ st, match st with [] => [] | d :: st => f d :: st end |>).

(** ** The copy of the computed slots *)

(** [mapping[key].discard(x)], and the entry goes with its last element; for both tables *)
Definition drop_entry {K} `{Countable K} (proj : Context → gmap K (gset nat)) `{!Setter proj} (key : K) (x : nat) : MC unit :=
  known ← gets (λ g, proj g !! key);
  _ ← lift_option KeyError known;
  modify (λ g, g <| proj ::= mm_discard_prune key x |>).

Definition setComputedSlotValue (slot : nat) (new : option (Result * ComputedSlotDeps)) (isUnmodified : bool) : MC unit :=
  (if isUnmodified then
     changed ← gets (λ g, bool_decide (slot ∈ modifiedComputedSlots g));
     assertM (negb changed);;
     modify (λ g, g <| unmodifiedComputedSlots ::= union {[slot]} |>)
   else
     modify (λ g, g <| unmodifiedComputedSlots ::= λ x, x ∖ {[slot]} |> <| modifiedComputedSlots ::= union {[slot]} |>));;
  existing ← gets (λ g, default no_deps (computedSlotDependencies g !! slot));
  modify (λ g,
    match new with
    | None => g <| computedSlotValues ::= delete slot |> <| computedSlotDependencies ::= delete slot |>
    | Some (r, d) => g <| computedSlotValues ::= <[slot := r]> |> <| computedSlotDependencies ::= <[slot := d]> |>
    end);;
  let new := from_option snd no_deps new in
  forM (elements (dep_keys new ∖ dep_keys existing))
    (λ key, modify (λ g, g <| subscriptionToComputedSlots ::= mm_add key slot |>));;
  forM (elements (dep_keys existing ∖ dep_keys new)) (λ key, drop_entry subscriptionToComputedSlots key slot);;
  forM (elements (subSlots new ∖ subSlots existing))
    (λ ref, modify (λ g, g <| slotToComputedSlots ::= mm_add ref slot |>));;
  forM (elements (subSlots existing ∖ subSlots new)) (λ ref, drop_entry slotToComputedSlots ref slot).

(** The fuel is the number of values: each nested call was preceded by the removal of one. *)
Fixpoint markComputedSlotDirty (fuel : nat) (slot : nat) : MC unit :=
  known ← gets (λ g, bool_decide (is_Some (computedSlotValues g !! slot)));
  if negb known then mret tt
  else
    match fuel with
    | O => raise RecursionError
    | S fuel =>
        upstreams ← gets (λ g, mm_get (slotToComputedSlots g) (RComputed slot));
        setComputedSlotValue slot None false;;
        forM (elements upstreams) (markComputedSlotDirty fuel)
    end.
Definition mark_dirty (slots : gset nat) : MC unit :=
  forM (elements slots) (λ slot, n ← gets (λ g, size (computedSlotValues g)); markComputedSlotDirty n slot).

(** ** Reading *)

Definition w_slotRead (s : nat) : MC unit :=
  modify (λ g, g <| w_slotsRead ::= union {[RSlot s]} |>);;
  note (λ d, d <| subSlots ::= union {[RSlot s]} |>).

(** [_onViewEvent] of a read *)
Definition odb_read (key : Key) : MC unit := note (λ d, d <| dep_keys ::= union {[key]} |>).

(** The first part of [getComputedSlotValue] *)
Definition read_cached (c : nat) : MC (option Result) :=
  r ← gets (λ g, computedSlotValues g !! c);
  match r with
  | None => mret None
  | Some r =>
      modify (λ g, g <| w_slotsRead ::= union {[RComputed c]} |>);;
      note (λ d, d <| subSlots ::= union {[RComputed c]} |>);;
      mret (Some r)
  end.

Definition w_new_exception : MC nat :=
  e ← gets fresh_exn;
  modify (λ g, g <| fresh_exn ::= S |>);;
  mret e.

(** Running the function of a computed slot; [get] is [getComputedSlotValue] *)
Fixpoint run_function (get : nat → MC Result) (p : program) : MC Result :=
  match p with
  | PReturn v => mret (RValue v)
  | PRaise => e ← w_new_exception; mret (RExn e)
  | PReraise e => mret (RExn e)
  | PSlot s k => w_slotRead s;; v ← gets (λ g, w_slot_value g s); run_function get (k v)
  | PComputed c k =>
      cyclic ← gets (λ g, bool_decide (c ∈ executing g));
      if (cyclic : bool) then e ← w_new_exception; run_function get (k (RExn e))
      else r ← get c; run_function get (k r)
  | POdb key k => odb_read key;; v ← gets (λ g, w_odb g !! key); run_function get (k v)
  | PSubscribe _ k => run_function get k
  end.

(** [_areComputedSlotDepsAllUnmodified]: [inl] if reading one of them raised *)
Fixpoint are_unmodified (get : nat → MC Result) (deps : list Ref) : MC (nat + bool) :=
  match deps with
  | [] => mret (inr true)
  | RSlot s :: deps =>
      written ← gets (λ g, bool_decide (is_Some (writtenSlotOriginalValues g !! s)));
      if (written : bool) then mret (inr false) else are_unmodified get deps
  | RComputed c :: deps =>
      unknown ← gets (λ g, bool_decide (c ∉ unmodifiedComputedSlots g) && bool_decide (c ∉ modifiedComputedSlots g));
      raised ← (if (unknown : bool) then r ← get c; mret (match r with RExn e => Some e | RValue _ => None end) else mret None);
      match raised with
      | Some e => mret (inl e)
      | None =>
          changed ← gets (λ g, bool_decide (c ∈ modifiedComputedSlots g));
          if (changed : bool) then mret (inr false) else are_unmodified get deps
      end
  end.

Section functions.
(** the functions of the computed slots *)
Context (valueFunction : nat → program).

(** Calculating a slot anew *)
Definition recompute (get : nat → MC Result) (c : nat) : MC Result :=
  modify (λ g, g <| modifiedComputedSlots ::= union {[c]} |>);;
  modify (λ g, g <| executingDependencyStack ::= cons no_deps |>);;
  modify (λ g, g <| executing ::= union {[c]} |>);;
  r ← run_function get (valueFunction c);
  modify (λ g, g <| executing ::= λ x, x ∖ {[c]} |>);;
  newDeps ← gets (λ g, head (executingDependencyStack g));
  newDeps ← lift_option IndexError newDeps;
  modify (λ g, g <| executingDependencyStack ::= tail |>);;
  setComputedSlotValue c (Some (r, newDeps)) false;;
  o ← read_cached c;
  lift_option RecursionError o.

(** [getComputedSlotValue]; the fuel bounds the depth of nested calculations *)
Fixpoint getComputedSlotValue (fuel : nat) (c : nat) : MC Result :=
  match fuel with
  | O => raise RecursionError
  | S fuel =>
      cached ← read_cached c;
      match cached with
      | Some r => mret r
      | None =>
          known ← gets (λ g, bool_decide (c ∈ unmodifiedComputedSlots g));
          assertM (negb known);;
          usable ← gets (λ g, if bool_decide (c ∈ modifiedComputedSlots g) then None else real g !! c);
          match usable with
          | None => recompute (getComputedSlotValue fuel) c
          | Some (r, d) =>
              unmodified ← are_unmodified (getComputedSlotValue fuel) (elements (subSlots d));
              match unmodified with
              | inl e => mret (RExn e)
              | inr false => recompute (getComputedSlotValue fuel) c
              | inr true =>
                  setComputedSlotValue c (Some (r, d)) true;;
                  o ← read_cached c;
                  lift_option RecursionError o
              end
          end
      end
  end.

(** ** Writing *)

(** [Slot.set], with [slotValueModified] *)
Definition set_slot (s : nat) (val : Z) : MC unit :=
  old ← gets (λ g, w_slot_value g s);
  if bool_decide (old = val) then mret tt
  else
    inside ← gets (λ g, bool_decide (executingDependencyStack g ≠ []));
    if (inside : bool) then raise (UserException "Can't modify a slot in a read-only dependency context.")
    else
      readers ← gets (λ g, mm_get (slotToComputedSlots g) (RSlot s));
      mark_dirty readers;;
      created ← gets (λ g, bool_decide (s ∈ slotsCreated g));
      whenM (negb created)
        (modify (λ g, g <| writtenSlotOriginalValues ::= λ m, match m !! s with Some _ => m | None => <[s := old]> m end |>));;
      modify (λ g, g <| w_slots ::= <[s := val]> |>).

(** [Slot(value)] *)
Definition create_slot (s : nat) (val : Z) : MC unit :=
  modify (λ g, g <| w_slots ::= <[s := val]> |>);;
  modify (λ g, g <| slotsCreated ::= union {[s]} |>).

(** Writing to the database, with [_onViewEvent] *)
Definition write_key (key : Key) (val : Z) : MC unit :=
  inside ← gets (λ g, bool_decide (executingDependencyStack g ≠ []));
  if (inside : bool) then raise (UserException "Can't write into the ODB during a ComputedSlot calc")
  else
    readers ← gets (λ g, mm_get (subscriptionToComputedSlots g) key);
    mark_dirty readers;;
    modify (λ g, g <| w_odb ::= <[key := val]> |>).

(** A function that reads and writes; it does not catch exceptions. *)
Inductive action :=
  | AReturn (v : Z)
  | ARaise
  | ASlot (s : nat) (k : Z → action)
  | AComputed (c : nat) (k : Z → action)
  | AOdb (key : Key) (k : option Z → action)
  | ASet (s : nat) (v : Z) (k : action)
  | ANew (s : nat) (v : Z) (k : action)
  | AWrite (key : Key) (v : Z) (k : action).

(** [None]: it raised *)
Fixpoint run_action (fuel : nat) (a : action) : MC (option Z) :=
  match a with
  | AReturn v => mret (Some v)
  | ARaise => mret None
  | ASlot s k => w_slotRead s;; v ← gets (λ g, w_slot_value g s); run_action fuel (k v)
  | AComputed c k =>
      r ← getComputedSlotValue fuel c;
      match r with
      | RValue v => run_action fuel (k v)
      | RExn _ => mret None
      end
  | AOdb key k => odb_read key;; v ← gets (λ g, w_odb g !! key); run_action fuel (k v)
  | ASet s v k => set_slot s v;; run_action fuel k
  | ANew s v k => create_slot s v;; run_action fuel k
  | AWrite key v k => write_key key v;; run_action fuel k
  end.

(** The values from before the writes *)
Definition slots_restored (g : Context) : gmap nat Z := writtenSlotOriginalValues g ∪ w_slots g.

Definition resetWrites : MC unit :=
  modify (λ g, g <| slotsCreated := ∅ |> <| w_slots := slots_restored g |>
                 <| writtenSlotOriginalValues := ∅ |> <| executingDependencyStack := [] |>).

Definition reset : MC unit :=
  modify (λ g, new_Context (slots_restored g) (w_odb g) (real g) <| executing := executing g |> <| fresh_exn := fresh_exn g |>).

(** The last branch: the exception is the result, and the transaction is not committed. *)
Definition function_raised (before : gmap Key Z) : MC (option Z) :=
  resetWrites;;
  modify (λ g, g <| w_odb := before |>);;
  mret None.

(** The branch of a conflict, the first in [conflicts]: [_handleAllTransactions] brings the
    database and the graph up to date. *)
Definition conflict (again : nat → MC (option Z)) (revisionConflicts : nat) (before : gmap Key Z)
    (now : gmap Key Z * gmap nat (Result * ComputedSlotDeps)) : MC (option Z) :=
  let revisionConflicts := S revisionConflicts in
  if bool_decide (100 < revisionConflicts)%nat then
    modify (λ g, g <| w_odb := before |>);;
    mret None
  else
    reset;;
    modify (λ g, g <| w_odb := now.1 |> <| real := now.2 |>);;
    again revisionConflicts.

(** [calculate] of a function that writes.  [conflicts] says with which of the commits there is a
    conflict, and what the database is then. *)
Fixpoint calculate (fuel : nat) (a : action) (conflicts : list (gmap Key Z * gmap nat (Result * ComputedSlotDeps)))
    (revisionConflicts : nat) : MC (option Z) :=
  before ← gets w_odb;
  r ← run_action fuel a;
  match r, conflicts with
  | None, _ => function_raised before
  | Some v, [] => mret (Some v)
  | Some _, now :: conflicts => conflict (calculate fuel a conflicts) revisionConflicts before now
  end.
End functions.
