(* ===== verification/WriteContextTheorems.v ===== *)
(** * A writing function sees computed slots as they are

    Whatever a function writes and reads, in whatever order: each computed slot that it reads has
    the value that calculating everything anew would give; and a function that raises leaves the
    slots and the database as they were. *)

From Stdlib Require Import Lia.
From stdpp Require Import options.
From S2P Require Import Prelude Schema Messages Connection Views Reactor CellGraph WriteContext.

Local Open Scope Z_scope.

(** ** Calculating everything anew *)

Section reference.
Context (valueFunction : nat → program).
Implicit Types (σ : nat → Z) (δ : Key → option Z) (ν : nat → Z).

(** The value of a function, where slots, the database and computed slots have these values. *)
Fixpoint peval σ δ ν (p : program) : Z :=
  match p with
  | PReturn v => v
  | PRaise | PReraise _ => 0
  | PSlot s k => peval σ δ ν (k (σ s))
  | PComputed c k => peval σ δ ν (k (RValue (ν c)))
  | POdb key k => peval σ δ ν (k (δ key))
  | PSubscribe _ k => peval σ δ ν k
  end.

Fixpoint value_at σ δ (fuel : nat) (c : nat) : Z :=
  match fuel with
  | O => 0
  | S fuel => peval σ δ (value_at σ δ fuel) (valueFunction c)
  end.
Definition value_of σ δ (c : nat) : Z := value_at σ δ (S c) c.

(** Everything that a function reads is in [d]. *)
Fixpoint within (d : ComputedSlotDeps) σ δ ν (p : program) : Prop :=
  match p with
  | PReturn _ => True
  | PRaise | PReraise _ => False
  | PSlot s k => RSlot s ∈ subSlots d ∧ within d σ δ ν (k (σ s))
  | PComputed c k => RComputed c ∈ subSlots d ∧ within d σ δ ν (k (RValue (ν c)))
  | POdb key k => key ∈ dep_keys d ∧ within d σ δ ν (k (δ key))
  | PSubscribe _ k => within d σ δ ν k
  end.

(** A function that raises nothing, and reads slots below [n]. *)
Fixpoint quiet (n : nat) (p : program) : Prop :=
  match p with
  | PReturn _ => True
  | PRaise | PReraise _ => False
  | PSlot s k => (s < n)%nat ∧ ∀ v, quiet n (k v)
  | PComputed _ k => ∀ v, quiet n (k (RValue v))
  | POdb _ k => ∀ v, quiet n (k v)
  | PSubscribe _ k => quiet n k
  end.

Definition agree (d : ComputedSlotDeps) σ δ ν σ' δ' ν' : Prop :=
  (∀ s, RSlot s ∈ subSlots d → σ' s = σ s) ∧ (∀ key, key ∈ dep_keys d → δ' key = δ key) ∧
  (∀ c, RComputed c ∈ subSlots d → ν' c = ν c).

Lemma within_agree d σ δ ν σ' δ' ν' p :
  agree d σ δ ν σ' δ' ν' → within d σ δ ν p → within d σ' δ' ν' p ∧ peval σ' δ' ν' p = peval σ δ ν p.
Proof.
  intros (Hs & Hk & Hc). induction p as [v| |e|s k IH|c k IH|key k IH|t k IH]; cbn; try done.
  - intros [Hin Hw]. rewrite (Hs s Hin). split; [split; [done|]|]; by apply IH.
  - intros [Hin Hw]. rewrite (Hc c Hin). split; [split; [done|]|]; by apply IH.
  - intros [Hin Hw]. rewrite (Hk key Hin). split; [split; [done|]|]; by apply IH.
Qed.

Lemma within_mono d d' σ δ ν p :
  subSlots d ⊆ subSlots d' → dep_keys d ⊆ dep_keys d' → within d σ δ ν p → within d' σ δ ν p.
Proof. intros Hs Hk. induction p; cbn; try done; try (intros [? ?]; split; auto). Qed.

Lemma peval_below σ δ ν ν' p b :
  reads_below p b → (∀ c, (c < b)%nat → ν' c = ν c) → peval σ δ ν' p = peval σ δ ν p.
Proof.
  intros Hp Hν. induction p as [v| |e|s k IH|c k IH|key k IH|t k IH]; cbn in *; try done; [by apply IH| |by apply IH|by apply IH].
  destruct Hp as [Hc Hp]. rewrite (Hν c Hc). by apply IH.
Qed.

Context (acyclic : ∀ c, reads_below (valueFunction c) c).

Lemma value_at_enough σ δ c : ∀ fuel, (c < fuel)%nat → value_at σ δ fuel c = value_of σ δ c.
Proof using acyclic.
  unfold value_of. induction (lt_wf c) as [c _ IH]. intros [|fuel] Hf; [lia|]. cbn [value_at].
  apply (peval_below _ _ _ _ _ c); [apply acyclic|]. intros c' Hc'. rewrite (IH c' Hc' fuel), (IH c' Hc' c) by lia. done.
Qed.

Lemma value_of_eq σ δ c : value_of σ δ c = peval σ δ (value_of σ δ) (valueFunction c).
Proof using acyclic.
  unfold value_of at 1. cbn [value_at]. apply (peval_below _ _ _ _ _ c); [apply acyclic|].
  intros c' Hc'. by apply value_at_enough.
Qed.
End reference.

(** ** The tables of the copy *)

Lemma run_adds `{Countable K} (proj : Context → gmap K (gset nat)) `{!Setter proj} (x : nat) keys : ∀ g,
  (∀ f f' g, (g <| proj ::= f |>) <| proj ::= f' |> = g <| proj ::= λ m, f' (f m) |>) → (∀ g, g <| proj ::= λ m, m |> = g) →
  forM keys (λ k, modify (λ g, g <| proj ::= mm_add k x |>)) g =
    (Ok tt, g <| proj ::= λ m, foldl (λ m k, mm_add k x m) m keys |>).
Proof.
  induction keys as [|k keys IH]; intros g Hcomp Hid; cbn [foldl]; [by rewrite Hid|].
  rewrite run_forM_cons, run_modify. by rewrite IH, Hcomp.
Qed.

Lemma run_drops `{Countable K} (proj : Context → gmap K (gset nat)) `{!Setter proj} (x : nat) keys : ∀ g,
  (∀ f f' g, (g <| proj ::= f |>) <| proj ::= f' |> = g <| proj ::= λ m, f' (f m) |>) → (∀ g, g <| proj ::= λ m, m |> = g) →
  (∀ f g, proj (g <| proj ::= f |>) = f (proj g)) →
  NoDup keys → (∀ k, k ∈ keys → x ∈ mm_get (proj g) k) →
  forM keys (λ k, drop_entry proj k x) g = (Ok tt, g <| proj ::= λ m, foldl (λ m k, mm_discard_prune k x m) m keys |>).
Proof.
  induction keys as [|k keys IH]; intros g Hcomp Hid Hget Hnd Hin; cbn [foldl]; [by rewrite Hid|]. apply NoDup_cons in Hnd as [Hk Hnd].
  assert (x ∈ mm_get (proj g) k) as Hx by (apply Hin; set_solver). apply mm_get_dom, elem_of_dom in Hx as [v Hv].
  rewrite run_forM_cons. unfold drop_entry at 1. rewrite run_bind, run_gets. cbn beta iota.
  rewrite run_bind, run_lift_option, Hv. cbn beta iota. rewrite run_modify.
  rewrite IH, Hcomp; [done|done..|]. intros k' Hk'. rewrite Hget, elem_of_mm_discard_prune. split; [apply Hin; set_solver|].
  intros [-> _]. done.
Qed.

Lemma elem_of_adds `{Countable K} (x : nat) keys : ∀ (m : gmap K (gset nat)) k v,
  v ∈ mm_get (foldl (λ m k, mm_add k x m) m keys) k ↔ (v = x ∧ k ∈ keys) ∨ v ∈ mm_get m k.
Proof.
  induction keys as [|k' keys IH]; intros m k v; cbn [foldl]; [set_solver|]. rewrite IH, elem_of_mm_add, elem_of_cons. naive_solver.
Qed.

Lemma elem_of_drops `{Countable K} (x : nat) keys : ∀ (m : gmap K (gset nat)) k v,
  v ∈ mm_get (foldl (λ m k, mm_discard_prune k x m) m keys) k ↔ v ∈ mm_get m k ∧ ¬ (v = x ∧ k ∈ keys).
Proof.
  induction keys as [|k' keys IH]; intros m k v; cbn [foldl]; [set_solver|].
  rewrite IH, elem_of_mm_discard_prune, elem_of_cons. naive_solver.
Qed.

(** The parts of the state that the copy does not touch. *)
Record same_outer (g g' : Context) : Prop := {
  o_slots : w_slots g' = w_slots g;
  o_odb : w_odb g' = w_odb g;
  o_real : real g' = real g;
  o_executing : executing g' = executing g;
  o_written : writtenSlotOriginalValues g' = writtenSlotOriginalValues g;
  o_created : slotsCreated g' = slotsCreated g;
}.

Record tables_ok (g : Context) : Prop := {
  t_dom : ∀ c, is_Some (computedSlotValues g !! c) ↔ is_Some (computedSlotDependencies g !! c);
  t_refs : ∀ ref c, c ∈ mm_get (slotToComputedSlots g) ref ↔ ∃ d, computedSlotDependencies g !! c = Some d ∧ ref ∈ subSlots d;
  t_keys : ∀ key c, c ∈ mm_get (subscriptionToComputedSlots g) key ↔ ∃ d, computedSlotDependencies g !! c = Some d ∧ key ∈ dep_keys d;
  t_unmodified : ∀ c, c ∈ unmodifiedComputedSlots g → (c ∉ modifiedComputedSlots g) ∧
    ∃ r d, real g !! c = Some (r, d) ∧ computedSlotValues g !! c = Some r ∧ computedSlotDependencies g !! c = Some d;
}.

Lemma same_outer_refl g : same_outer g g.
Proof. done. Qed.
Lemma same_outer_trans g1 g2 g3 : same_outer g1 g2 → same_outer g2 g3 → same_outer g1 g3.
Proof. intros [] []. split; congruence. Qed.

(** What [setComputedSlotValue] does with the two tables, all loops taken together. *)
Definition retable (slot : nat) (old new : ComputedSlotDeps) (g : Context) : Context :=
  g <| subscriptionToComputedSlots ::= λ m, foldl (λ m k, mm_add k slot m) m (elements (dep_keys new ∖ dep_keys old)) |>
    <| subscriptionToComputedSlots ::= λ m, foldl (λ m k, mm_discard_prune k slot m) m (elements (dep_keys old ∖ dep_keys new)) |>
    <| slotToComputedSlots ::= λ m, foldl (λ m k, mm_add k slot m) m (elements (subSlots new ∖ subSlots old)) |>
    <| slotToComputedSlots ::= λ m, foldl (λ m k, mm_discard_prune k slot m) m (elements (subSlots old ∖ subSlots new)) |>.

Lemma retable_run slot old new g :
  (∀ key, key ∈ dep_keys old → slot ∈ mm_get (subscriptionToComputedSlots g) key) →
  (∀ ref, ref ∈ subSlots old → slot ∈ mm_get (slotToComputedSlots g) ref) →
  (forM (elements (dep_keys new ∖ dep_keys old)) (λ key, modify (λ g, g <| subscriptionToComputedSlots ::= mm_add key slot |>));;
   forM (elements (dep_keys old ∖ dep_keys new)) (λ key, drop_entry subscriptionToComputedSlots key slot);;
   forM (elements (subSlots new ∖ subSlots old)) (λ ref, modify (λ g, g <| slotToComputedSlots ::= mm_add ref slot |>));;
   forM (elements (subSlots old ∖ subSlots new)) (λ ref, drop_entry slotToComputedSlots ref slot)) g =
    (Ok tt, retable slot old new g).
Proof.
  intros Hk Hr. rewrite run_bind, (run_adds subscriptionToComputedSlots) by (by intros [] || done). cbn beta iota.
  rewrite run_bind, (run_drops subscriptionToComputedSlots); [cbn beta iota|done|by intros []|done|apply NoDup_elements|].
  2: { intros key Hkey. cbn. apply elem_of_adds. right. apply Hk. set_solver. }
  rewrite run_bind, (run_adds slotToComputedSlots) by (by intros [] || done). cbn beta iota.
  rewrite (run_drops slotToComputedSlots); [done|done|by intros []|done|apply NoDup_elements|].
  intros ref Href. cbn. apply elem_of_adds. right. apply Hr. set_solver.
Qed.

(** The state in which the values are already set, but not the tables. *)
Definition with_value (slot : nat) (new : option (Result * ComputedSlotDeps)) (isUnmodified : bool) (g : Context) : Context :=
  let g := if isUnmodified then g <| unmodifiedComputedSlots ::= union {[slot]} |>
           else g <| unmodifiedComputedSlots ::= λ x, x ∖ {[slot]} |> <| modifiedComputedSlots ::= union {[slot]} |> in
  match new with
  | None => g <| computedSlotValues ::= delete slot |> <| computedSlotDependencies ::= delete slot |>
  | Some (r, d) => g <| computedSlotValues ::= <[slot := r]> |> <| computedSlotDependencies ::= <[slot := d]> |>
  end.

Lemma setComputedSlotValue_run slot new isUnmodified g :
  tables_ok g → (isUnmodified = true → slot ∉ modifiedComputedSlots g) →
  setComputedSlotValue slot new isUnmodified g =
    (Ok tt, retable slot (default no_deps (computedSlotDependencies g !! slot)) (from_option snd no_deps new)
              (with_value slot new isUnmodified g)).
Proof.
  intros [Hdom Hrefs Hkeys Hunm] Hmod. unfold setComputedSlotValue.
  assert ((if isUnmodified then
     changed ← gets (λ g, bool_decide (slot ∈ modifiedComputedSlots g));
     assertM (negb changed);;
     modify (λ g, g <| unmodifiedComputedSlots ::= union {[slot]} |>)
   else
     modify (λ g, g <| unmodifiedComputedSlots ::= λ x, x ∖ {[slot]} |> <| modifiedComputedSlots ::= union {[slot]} |>)) g =
    (Ok tt, if isUnmodified then g <| unmodifiedComputedSlots ::= union {[slot]} |>
            else g <| unmodifiedComputedSlots ::= λ x, x ∖ {[slot]} |> <| modifiedComputedSlots ::= union {[slot]} |>)) as Hfirst.
  { destruct isUnmodified; [|done]. rewrite run_bind, run_gets. cbn beta iota. rewrite bool_decide_false by (by apply Hmod).
    rewrite run_bind, run_assertM. cbn beta iota. by rewrite run_modify. }
  rewrite run_bind, Hfirst. cbn beta iota. rewrite run_bind, run_gets. cbn beta iota. rewrite run_bind, run_modify. cbn beta iota.
  cbv zeta. rewrite retable_run.
  - f_equal. by destruct isUnmodified, new as [[r d]|].
  - intros key Hkey. assert (slot ∈ mm_get (subscriptionToComputedSlots g) key) as Hin.
    { apply Hkeys. destruct isUnmodified; cbn in Hkey; destruct (computedSlotDependencies g !! slot) as [d|]; [by exists d|done|by exists d|done]. }
    by destruct isUnmodified, new as [[r d]|].
  - intros ref Href. assert (slot ∈ mm_get (slotToComputedSlots g) ref) as Hin.
    { apply Hrefs. destruct isUnmodified; cbn in Href; destruct (computedSlotDependencies g !! slot) as [d|]; [by exists d|done|by exists d|done]. }
    by destruct isUnmodified, new as [[r d]|].
Qed.

Lemma retable_refs slot old new g ref c :
  c ∈ mm_get (slotToComputedSlots (retable slot old new g)) ref ↔
  ((c = slot ∧ ref ∈ subSlots new ∖ subSlots old) ∨ c ∈ mm_get (slotToComputedSlots g) ref) ∧
  ¬ (c = slot ∧ ref ∈ subSlots old ∖ subSlots new).
Proof. unfold retable. cbn. by rewrite elem_of_drops, elem_of_adds, !elem_of_elements. Qed.

Lemma retable_keys slot old new g key c :
  c ∈ mm_get (subscriptionToComputedSlots (retable slot old new g)) key ↔
  ((c = slot ∧ key ∈ dep_keys new ∖ dep_keys old) ∨ c ∈ mm_get (subscriptionToComputedSlots g) key) ∧
  ¬ (c = slot ∧ key ∈ dep_keys old ∖ dep_keys new).
Proof. unfold retable. cbn. by rewrite elem_of_drops, elem_of_adds, !elem_of_elements. Qed.

(** A value for a slot that has none. *)
Lemma add_value_tables g c r d isUnmodified :
  tables_ok g → computedSlotDependencies g !! c = None →
  (isUnmodified = true → (c ∉ modifiedComputedSlots g) ∧ real g !! c = Some (r, d)) →
  tables_ok (retable c no_deps d (with_value c (Some (r, d)) isUnmodified g)).
Proof.
  intros [Hdom Hrefs Hkeys Hunm] Hc Hu.
  assert (∀ x, x ∈ unmodifiedComputedSlots g → x ≠ c) as Hne by (intros x Hx ->; destruct (Hunm c Hx) as (_ & ? & ? & _ & _ & ?); congruence).
  split.
  - intros x. destruct isUnmodified; cbn; rewrite !lookup_insert_is_Some'; by rewrite Hdom.
  - intros ref x. rewrite retable_refs. assert (slotToComputedSlots (with_value c (Some (r, d)) isUnmodified g) = slotToComputedSlots g) as -> by (by destruct isUnmodified).
    assert (computedSlotDependencies (retable c no_deps d (with_value c (Some (r, d)) isUnmodified g)) = <[c := d]> (computedSlotDependencies g)) as ->
      by (by destruct isUnmodified).
    rewrite Hrefs. cbn [subSlots no_deps]. setoid_rewrite lookup_insert_Some. set_solver.
  - intros key x. rewrite retable_keys. assert (subscriptionToComputedSlots (with_value c (Some (r, d)) isUnmodified g) = subscriptionToComputedSlots g) as -> by (by destruct isUnmodified).
    assert (computedSlotDependencies (retable c no_deps d (with_value c (Some (r, d)) isUnmodified g)) = <[c := d]> (computedSlotDependencies g)) as ->
      by (by destruct isUnmodified).
    rewrite Hkeys. cbn [dep_keys no_deps]. setoid_rewrite lookup_insert_Some. set_solver.
  - intros x. destruct isUnmodified; cbn; intros Hx.
    + apply elem_of_union in Hx as [->%elem_of_singleton | Hx].
      * destruct Hu as [Hm Hr]; [done|]. split; [done|]. exists r, d. by rewrite !lookup_insert_eq.
      * destruct (Hunm x Hx) as (? & r' & d' & ? & ? & ?). split; [done|]. exists r', d'.
        by rewrite !lookup_insert_ne by (symmetry; by apply Hne).
    + apply elem_of_difference in Hx as [Hx Hxc]. destruct (Hunm x Hx) as (? & r' & d' & ? & ? & ?).
      split; [set_solver|]. exists r', d'. by rewrite !lookup_insert_ne by (symmetry; by apply Hne).
Qed.

Lemma drop_value_tables g c d :
  tables_ok g → computedSlotDependencies g !! c = Some d → tables_ok (retable c d no_deps (with_value c None false g)).
Proof.
  intros [Hdom Hrefs Hkeys Hunm] Hc. split.
  - intros x. cbn. rewrite !lookup_delete_is_Some. by rewrite Hdom.
  - intros ref x. rewrite retable_refs. cbn. rewrite Hrefs. setoid_rewrite lookup_delete_Some. set_solver.
  - intros key x. rewrite retable_keys. cbn. rewrite Hkeys. setoid_rewrite lookup_delete_Some. set_solver.
  - intros x. cbn. intros [Hx Hxc]%elem_of_difference. destruct (Hunm x Hx) as (? & r' & d' & ? & ? & ?).
    split; [set_solver|]. exists r', d'. rewrite !lookup_delete_ne by set_solver. done.
Qed.

(** ** Marking *)

(** [g'] is [g] without the values of [C] and all that was computed from a value that is gone. *)
Record pruned (C : nat → Prop) (g g' : Context) : Prop := {
  sh_outer : same_outer g g';
  sh_tables : tables_ok g';
  sh_values : computedSlotValues g' ⊆ computedSlotValues g;
  sh_deps : computedSlotDependencies g' ⊆ computedSlotDependencies g;
  sh_gone : ∀ c, C c → computedSlotValues g' !! c = None;
  sh_upward : ∀ x y d, is_Some (computedSlotValues g !! x) → computedSlotValues g' !! x = None →
    computedSlotDependencies g !! y = Some d → RComputed x ∈ subSlots d → computedSlotValues g' !! y = None;
  sh_stack : executingDependencyStack g' = executingDependencyStack g;
  sh_known : ∀ c, is_Some (computedSlotValues g' !! c) → c ∈ unmodifiedComputedSlots g ∨ c ∈ modifiedComputedSlots g →
    c ∈ unmodifiedComputedSlots g' ∨ c ∈ modifiedComputedSlots g';
}.

Lemma pruned_refl g : tables_ok g → pruned (λ _, False) g g.
Proof. intros Ht. split; try done. intros x y d [r Hx]. congruence. Qed.

Lemma no_value_sub (m m' : gmap nat Result) c : m' ⊆ m → m !! c = None → m' !! c = None.
Proof. intros Hsub Hc. destruct (m' !! c) as [r|] eqn:E; [|done]. eapply lookup_weaken in E; [|done]. congruence. Qed.

Lemma pruned_trans C1 C2 g1 g2 g3 : pruned C1 g1 g2 → pruned C2 g2 g3 → pruned (λ c, C1 c ∨ C2 c) g1 g3.
Proof.
  intros [Ho1 Ht1 Hv1 Hd1 Hg1 Hu1 Hs1 Hn1] [Ho2 Ht2 Hv2 Hd2 Hg2 Hu2 Hs2 Hn2]. split.
  - by eapply same_outer_trans.
  - done.
  - by etrans.
  - by etrans.
  - intros c [Hc | Hc]; [eapply no_value_sub; [done|by apply Hg1]|by apply Hg2].
  - intros x y d Hx Hx3 Hy Hxy. destruct (computedSlotValues g2 !! x) as [r|] eqn:Hx2.
    + destruct (computedSlotValues g2 !! y) as [r'|] eqn:Hy2; [|by eapply no_value_sub].
      destruct (proj1 (t_dom _ Ht1 y)) as [d' Hd']; [by rewrite Hy2|]. assert (d' = d) as ->.
      { pose proof (lookup_weaken _ _ _ _ Hd' Hd1). congruence. }
      apply (Hu2 x y d); [by rewrite Hx2|done|exact Hd'|done].
    + eapply no_value_sub; [done|]. by eapply Hu1.
  - congruence.
  - intros c [r Hc] Hk. apply Hn2; [by exists r|]. apply Hn1; [|done]. exists r. by eapply lookup_weaken.
Qed.

Lemma pruned_weaken (C C' : nat → Prop) g g' : (∀ c, C' c → C c) → pruned C g g' → pruned C' g g'.
Proof. intros HC []. split; auto. Qed.

Lemma drop_value_run g c d :
  tables_ok g → computedSlotDependencies g !! c = Some d →
  setComputedSlotValue c None false g = (Ok tt, retable c d no_deps (with_value c None false g)).
Proof. intros Ht Hd. rewrite setComputedSlotValue_run by done. by rewrite Hd. Qed.

Lemma mark_loop fuel l : ∀ g,
  tables_ok g → (size (computedSlotValues g) ≤ fuel)%nat →
  (∀ g c, tables_ok g → (size (computedSlotValues g) ≤ fuel)%nat →
     ∃ g', markComputedSlotDirty fuel c g = (Ok tt, g') ∧ pruned (eq c) g g') →
  ∃ g', forM l (markComputedSlotDirty fuel) g = (Ok tt, g') ∧ pruned (λ c, c ∈ l) g g'.
Proof.
  induction l as [|c l IH]; intros g Ht Hf Hmark.
  - exists g. split; [done|]. eapply pruned_weaken; [|by apply pruned_refl]. intros c. apply not_elem_of_nil.
  - rewrite run_forM_cons. destruct (Hmark g c Ht Hf) as (g1 & -> & Hs1).
    destruct (IH g1) as (g2 & -> & Hs2); [apply Hs1| |done|].
    + etrans; [|done]. apply map_subseteq_size, Hs1.
    + exists g2. split; [done|]. eapply pruned_weaken; [|by eapply pruned_trans]. intros x [-> | Hx]%elem_of_cons; auto.
Qed.

Lemma mark_spec fuel : ∀ g c,
  tables_ok g → (size (computedSlotValues g) ≤ fuel)%nat →
  ∃ g', markComputedSlotDirty fuel c g = (Ok tt, g') ∧ pruned (eq c) g g'.
Proof.
  induction fuel as [|fuel IH]; intros g c Ht Hf; cbn [markComputedSlotDirty]; rewrite run_bind, run_gets; cbn beta iota.
  all: destruct (computedSlotValues g !! c) as [r|] eqn:Hc;
    [|rewrite bool_decide_false by (by intros []); cbn [negb]; exists g; split; [done|];
      destruct (pruned_refl g Ht); split; try done; by intros ? <-].
  all: rewrite bool_decide_true by done; cbn [negb].
  - exfalso. apply Nat.le_0_r, map_size_empty_inv in Hf. by rewrite Hf, lookup_empty in Hc.
  - destruct (proj1 (t_dom _ Ht c)) as [d Hd]; [by rewrite Hc|].
    rewrite run_bind, run_gets. cbn beta iota. rewrite run_bind, (drop_value_run _ _ _ Ht Hd). cbn beta iota.
    set (g1 := retable c d no_deps (with_value c None false g)).
    pose proof (drop_value_tables _ _ _ Ht Hd : tables_ok g1) as Ht1.
    assert (size (computedSlotValues g1) ≤ fuel)%nat as Hf1.
    { cbn. rewrite map_size_delete_Some by done. lia. }
    destruct (mark_loop fuel (elements (mm_get (slotToComputedSlots g) (RComputed c))) g1 Ht1 Hf1 IH) as (g2 & Hrun & [Ho2 Ht2 Hv2 Hd2 Hg2 Hu2 Hs2 Hn2]).
    exists g2. split; [exact Hrun|]. assert (same_outer g g1) as Ho1 by done. split.
    + by eapply same_outer_trans.
    + done.
    + etrans; [exact Hv2|]. apply delete_subseteq.
    + etrans; [exact Hd2|]. apply delete_subseteq.
    + intros x <-. eapply no_value_sub; [done|]. apply lookup_delete_eq.
    + intros x y d' Hx Hx2 Hy Hxy. destruct (decide (x = c)) as [-> | Hxc].
      * apply Hg2, elem_of_elements, (t_refs _ Ht). by exists d'.
      * destruct (decide (y = c)) as [-> | Hyc]; [eapply no_value_sub; [done|]; apply lookup_delete_eq|].
        apply (Hu2 x y d'); [cbn; by rewrite lookup_delete_ne|done|cbn; by rewrite lookup_delete_ne|done].
    + done.
    + intros x [r' Hx] Hk. apply Hn2; [by exists r'|]. assert (x ≠ c) as Hxc.
      { intros ->. eapply lookup_weaken in Hx; [|exact Hv2]. cbn in Hx. by rewrite lookup_delete_eq in Hx. }
      cbn. set_solver.
Qed.

Lemma mark_dirty_spec slots g :
  tables_ok g → ∃ g', mark_dirty slots g = (Ok tt, g') ∧ pruned (λ c, c ∈ slots) g g'.
Proof.
  unfold mark_dirty. intros Ht. enough (∀ l g, tables_ok g →
      ∃ g', forM l (λ slot, n ← gets (λ g, size (computedSlotValues g)); markComputedSlotDirty n slot) g = (Ok tt, g') ∧ pruned (λ c, c ∈ l) g g') as Hl.
  { destruct (Hl (elements slots) g Ht) as (g' & Hrun & Hs). exists g'. split; [done|]. eapply pruned_weaken; [|done].
    intros c. by rewrite elem_of_elements. }
  clear g Ht. intros l. induction l as [|c l IH]; intros g Ht.
  - exists g. split; [done|]. eapply pruned_weaken; [|by apply pruned_refl]. intros c. apply not_elem_of_nil.
  - rewrite run_forM_cons, run_bind, run_gets. cbn beta iota. destruct (mark_spec _ g c Ht (Nat.le_refl _)) as (g1 & -> & Hs1).
    destruct (IH g1) as (g2 & -> & Hs2); [apply Hs1|]. exists g2. split; [done|].
    eapply pruned_weaken; [|by eapply pruned_trans]. intros x [-> | Hx]%elem_of_cons; auto.
Qed.

(** ** Reading *)

Section consistency.
Context (valueFunction : nat → program).
Context (acyclic : ∀ c, reads_below (valueFunction c) c).
(** Slots from [n] on are created by the function. *)
Context (n : nat).
Context (total : ∀ c, quiet n (valueFunction c)).
Context (slots0 : gmap nat Z) (db0 : gmap Key Z) (graph : gmap nat (Result * ComputedSlotDeps)).

Definition σ_of (slots : gmap nat Z) : nat → Z := λ s, default 0 (slots !! s).
Definition δ_of (db : gmap Key Z) : Key → option Z := λ key, db !! key.
Definition value_in (slots : gmap nat Z) (db : gmap Key Z) : nat → Z := value_of valueFunction (σ_of slots) (δ_of db).
Definition all_within (slots : gmap nat Z) (db : gmap Key Z) (d : ComputedSlotDeps) (c : nat) : Prop :=
  within d (σ_of slots) (δ_of db) (value_in slots db) (valueFunction c).

(** The computed slots that are up to date are so, and depend on what is recorded. *)
Definition graph_ok : Prop := ∀ c r d, graph !! c = Some (r, d) →
  r = RValue (value_in slots0 db0 c) ∧ all_within slots0 db0 d c ∧
  (∀ s, RSlot s ∈ subSlots d → (s < n)%nat) ∧ (∀ c', RComputed c' ∈ subSlots d → (c' < c)%nat).
Context (Hgraph : graph_ok).

Record Inv (g : Context) : Prop := {
  v_tables : tables_ok g;
  v_real : real g = graph;
  v_cached : ∀ c r d, computedSlotValues g !! c = Some r → computedSlotDependencies g !! c = Some d →
    r = RValue (value_in (w_slots g) (w_odb g) c) ∧ all_within (w_slots g) (w_odb g) d c;
  v_below : ∀ c c' d, computedSlotDependencies g !! c = Some d → RComputed c' ∈ subSlots d →
    (c' < c)%nat ∧ is_Some (computedSlotValues g !! c');
  v_slots : ∀ c s d, computedSlotDependencies g !! c = Some d → RSlot s ∈ subSlots d → (s < n)%nat;
  v_known : ∀ c, is_Some (computedSlotValues g !! c) → c ∈ unmodifiedComputedSlots g ∨ c ∈ modifiedComputedSlots g;
  v_written : ∀ s, (s < n)%nat → writtenSlotOriginalValues g !! s = None → σ_of (w_slots g) s = σ_of slots0 s;
  v_odb : ∀ c r d key, graph !! c = Some (r, d) → key ∈ dep_keys d → δ_of (w_odb g) key = δ_of db0 key;
  v_original : ∀ s o, (s < n)%nat → writtenSlotOriginalValues g !! s = Some o → o = σ_of slots0 s;
  v_created : ∀ s, s ∈ slotsCreated g → (n ≤ s)%nat;
}.

(** The part of the state that [Inv] speaks of. *)
Definition core (g : Context) :=
  (w_slots g, w_odb g, real g, writtenSlotOriginalValues g, slotsCreated g,
   (unmodifiedComputedSlots g, modifiedComputedSlots g, computedSlotValues g, computedSlotDependencies g,
    subscriptionToComputedSlots g, slotToComputedSlots g)).

Lemma Inv_same_core g g' : core g' = core g → Inv g → Inv g'.
Proof using Type.
  destruct g, g'. unfold core. cbn. intros [= -> -> -> -> -> -> -> -> -> -> ->] [[] ]. split; [split|..]; assumption.
Qed.

(** What reading a computed slot below [b] changes, apart from the stack. *)
Record read_step (b : nat) (g g' : Context) : Prop := {
  r_outer : same_outer g g';
  r_values : computedSlotValues g ⊆ computedSlotValues g';
  r_deps : computedSlotDependencies g ⊆ computedSlotDependencies g';
  r_unmodified : unmodifiedComputedSlots g ⊆ unmodifiedComputedSlots g';
  r_high : ∀ x, (b ≤ x)%nat → (x ∈ modifiedComputedSlots g' ↔ x ∈ modifiedComputedSlots g) ∧
    computedSlotValues g' !! x = computedSlotValues g !! x;
}.

(** What it does to the dependencies on top of the stack: the references are new, or read now. *)
Definition top_grows (b : nat) (g g' : Context) : Prop :=
  match executingDependencyStack g, executingDependencyStack g' with
  | [], [] => True
  | d :: st, d' :: st' => st' = st ∧ subSlots d ⊆ subSlots d' ∧ dep_keys d ⊆ dep_keys d' ∧
      ∀ ref, ref ∈ subSlots d' → ref ∈ subSlots d ∨ ∃ c, ref = RComputed c ∧ (c < b)%nat ∧ is_Some (computedSlotValues g' !! c)
  | _, _ => False
  end.

Lemma read_step_refl b g : read_step b g g.
Proof using Type. split; done. Qed.

Lemma read_step_trans b g1 g2 g3 : read_step b g1 g2 → read_step b g2 g3 → read_step b g1 g3.
Proof using Type.
  intros [Ho1 Hv1 Hd1 Hu1 Hh1] [Ho2 Hv2 Hd2 Hu2 Hh2]. split; [by eapply same_outer_trans|by etrans..|].
  intros x Hx. destruct (Hh1 x Hx) as [Hm1 He1], (Hh2 x Hx) as [Hm2 He2]. split; [by rewrite Hm2|by rewrite He2].
Qed.

Lemma read_step_weaken b b' g g' : (b ≤ b')%nat → read_step b g g' → read_step b' g g'.
Proof using Type. intros Hb [Ho Hv Hd Hu Hh]. split; try done. intros x Hx. apply Hh. lia. Qed.

Lemma still_cached b g g' c : read_step b g g' → is_Some (computedSlotValues g !! c) → is_Some (computedSlotValues g' !! c).
Proof using Type. intros [_ Hv _ _ _] [r Hr]. exists r. by eapply lookup_weaken. Qed.

Lemma top_grows_refl b g : top_grows b g g.
Proof using Type. unfold top_grows. destruct (executingDependencyStack g) as [|d st]; [done|]. split_and!; [done..|]. auto. Qed.

Lemma top_grows_trans b g1 g2 g3 : top_grows b g1 g2 → top_grows b g2 g3 → read_step b g2 g3 → top_grows b g1 g3.
Proof using Type.
  unfold top_grows. intros H1 H2 Hstep. destruct (executingDependencyStack g1) as [|d1 st1], (executingDependencyStack g2) as [|d2 st2],
    (executingDependencyStack g3) as [|d3 st3]; try done. destruct H1 as (-> & Hs1 & Hk1 & Hr1), H2 as (-> & Hs2 & Hk2 & Hr2).
  split_and!; [done|by etrans..|]. intros ref [Href | ?]%Hr2; [|by right].
  apply Hr1 in Href as [? | (c & -> & Hc & Hin)]; [by left|right]. exists c. split_and!; [done..|]. by eapply still_cached.
Qed.

Lemma top_grows_weaken b b' g g' : (b ≤ b')%nat → top_grows b g g' → top_grows b' g g'.
Proof using Type.
  unfold top_grows. intros Hb. destruct (executingDependencyStack g), (executingDependencyStack g'); try done.
  intros (? & ? & ? & Hr). split_and!; [done..|]. intros ref [? | (c' & ? & ? & ?)]%Hr; [by left|right]. exists c'. split_and!; [done|lia|done].
Qed.

Definition on_top (ref : Ref) (g : Context) : Prop :=
  match executingDependencyStack g with d :: _ => ref ∈ subSlots d | [] => True end.

(** What reading the computed slot [c] gives and does. *)
Definition reads (c : nat) (m : MC Result) (g : Context) : Prop :=
  ∃ g', m g = (Ok (RValue (value_in (w_slots g) (w_odb g) c)), g') ∧ Inv g' ∧ read_step (S c) g g' ∧
    is_Some (computedSlotValues g' !! c) ∧ top_grows (S c) g g' ∧ on_top (RComputed c) g'.

Lemma read_cached_spec g c r :
  Inv g → computedSlotValues g !! c = Some r →
  ∃ g', read_cached c g = (Ok (Some r), g') ∧ core g' = core g ∧ executing g' = executing g ∧
    top_grows (S c) g g' ∧ on_top (RComputed c) g'.
Proof using acyclic total Hgraph.
  intros Hinv Hc. unfold read_cached. rewrite run_bind, run_gets. cbn beta iota. rewrite Hc. unfold note.
  rewrite run_bind, run_modify. cbn beta iota. rewrite run_bind, run_modify. cbn beta iota. rewrite run_mret.
  eexists. split; [done|]. split; [done|]. split; [done|]. unfold top_grows, on_top. cbn.
  destruct (executingDependencyStack g) as [|d st]; [done|]. split; [|set_solver]. split_and!; [done|set_solver|done|].
  intros ref Href. cbn in Href. apply elem_of_union in Href as [->%elem_of_singleton | ?]; [right|by left].
  exists c. split_and!; [done|lia|by exists r].
Qed.

Lemma core_outer g g' : core g' = core g → executing g' = executing g → same_outer g g'.
Proof using Type. unfold core. intros [= ] ?. by split. Qed.

Lemma core_step b g g' : core g' = core g → executing g' = executing g → read_step b g g'.
Proof using Type.
  intros Hcore He. pose proof (core_outer _ _ Hcore He). unfold core in Hcore. injection Hcore as H1 H2 H3 H4 H5 H6 H7 H8 H9 H10 H11.
  split; [done|by rewrite H8|by rewrite H9|by rewrite H6|]. intros x _. by rewrite H7, H8.
Qed.

(** Reading a value that is there. *)
Lemma reads_cached g c r (m : MC Result) :
  Inv g → computedSlotValues g !! c = Some r →
  (∀ g', read_cached c g = (Ok (Some r), g') → m g = (Ok r, g')) → reads c m g.
Proof using acyclic total Hgraph.
  intros Hinv Hc Hm. destruct (read_cached_spec g c r Hinv Hc) as (g' & Hrun & Hcore & He & Htop & Hon).
  destruct (proj1 (t_dom _ (v_tables _ Hinv) c)) as [d Hd]; [by exists r|].
  destruct (v_cached _ Hinv c r d Hc Hd) as [-> _]. exists g'. split; [by apply Hm|]. split; [by eapply Inv_same_core|].
  split; [by apply core_step|]. split_and!; [|done..]. unfold core in Hcore. injection Hcore as H1 H2 H3 H4 H5 H6 H7 H8 H9 H10 H11.
  rewrite H8. by eexists.
Qed.

(** A value is recorded. *)
Lemma record_value g c r d isUnmodified :
  Inv g → computedSlotValues g !! c = None →
  r = RValue (value_in (w_slots g) (w_odb g) c) → all_within (w_slots g) (w_odb g) d c →
  (∀ c', RComputed c' ∈ subSlots d → (c' < c)%nat ∧ is_Some (computedSlotValues g !! c')) →
  (∀ s, RSlot s ∈ subSlots d → (s < n)%nat) →
  (isUnmodified = true → (c ∉ modifiedComputedSlots g) ∧ graph !! c = Some (r, d)) →
  ∃ g', setComputedSlotValue c (Some (r, d)) isUnmodified g = (Ok tt, g') ∧ Inv g' ∧ read_step (S c) g g' ∧
    computedSlotValues g' !! c = Some r ∧ executingDependencyStack g' = executingDependencyStack g.
Proof using acyclic total Hgraph.
  intros [Ht Hreal Hcached Hbelow Hslots Hknown Hwritten Hodb Horig Hcreated] Hc Hr Hd Hb Hs Hu.
  assert (computedSlotDependencies g !! c = None) as Hcd.
  { apply eq_None_not_Some. rewrite <-(t_dom _ Ht). by rewrite Hc; intros []. }
  eexists. split; [rewrite setComputedSlotValue_run; [rewrite Hcd; done|done|intros E; by apply Hu]|].
  cbn [default from_option snd id]. set (g' := retable c no_deps d (with_value c (Some (r, d)) isUnmodified g)).
  assert (tables_ok g') as Ht'.
  { apply add_value_tables; [done..|]. intros E. rewrite Hreal. by apply Hu. }
  assert (computedSlotValues g' = <[c := r]> (computedSlotValues g)) as Ev by (by destruct isUnmodified).
  assert (computedSlotDependencies g' = <[c := d]> (computedSlotDependencies g)) as Ed by (by destruct isUnmodified).
  assert (same_outer g g') as Ho by (by destruct isUnmodified).
  assert (∀ x, x ≠ c → (x ∈ modifiedComputedSlots g' ↔ x ∈ modifiedComputedSlots g)) as Hmod.
  { intros x Hx. destruct isUnmodified; cbn; set_solver. }
  assert (unmodifiedComputedSlots g ⊆ unmodifiedComputedSlots g') as Hunm.
  { assert (c ∉ unmodifiedComputedSlots g) by (intros Hx; destruct (t_unmodified _ Ht c Hx) as (_ & ? & ? & _ & ? & _); congruence).
    destruct isUnmodified; cbn; set_solver. }
  split; [|split; [|split]].
  - split; rewrite ?(o_slots _ _ Ho), ?(o_odb _ _ Ho), ?(o_real _ _ Ho), ?(o_written _ _ Ho), ?(o_created _ _ Ho), ?Ev, ?Ed; try done.
    + intros x r' d'. rewrite !lookup_insert_Some. intros [[<- <-] | [Hne Hx]] [[? <-] | [? Hx']]; try done. by apply Hcached.
    + intros x c' d'. rewrite lookup_insert_Some, lookup_insert_is_Some'. intros [[<- <-] | [Hne Hx]] Hin.
      * destruct (Hb c' Hin). auto.
      * destruct (Hbelow x c' d' Hx Hin). auto.
    + intros x s d'. rewrite lookup_insert_Some. intros [[<- <-] | [Hne Hx]] Hin; [by apply Hs|by eapply Hslots].
    + intros x. rewrite lookup_insert_is_Some'. destruct (decide (x = c)) as [-> | Hne].
      * intros _. destruct isUnmodified; cbn; set_solver.
      * intros [? | Hx]; [done|]. apply Hknown in Hx as [Hx | Hx]; [left; by apply Hunm|right; by apply Hmod].
  - split; [done|rewrite Ev; by apply insert_subseteq|rewrite Ed; by apply insert_subseteq|done|].
    intros x Hx. split; [apply Hmod; lia|]. rewrite Ev, lookup_insert_ne by lia. done.
  - by rewrite Ev, lookup_insert_eq.
  - by destruct isUnmodified.
Qed.

(** *** Running the function of a computed slot *)

Record body_ok (b : nat) (d : ComputedSlotDeps) (g : Context) : Prop := {
  b_below : ∀ c, RComputed c ∈ subSlots d → (c < b)%nat ∧ is_Some (computedSlotValues g !! c);
  b_slots : ∀ s, RSlot s ∈ subSlots d → (s < n)%nat;
}.

Definition runs (b : nat) (p : program) (m : MC Result) (g : Context) (d : ComputedSlotDeps) (st : list ComputedSlotDeps) : Prop :=
  ∃ g' d', m g = (Ok (RValue (peval (σ_of (w_slots g)) (δ_of (w_odb g)) (value_in (w_slots g) (w_odb g)) p)), g') ∧
    Inv g' ∧ read_step b g g' ∧ executingDependencyStack g' = d' :: st ∧ subSlots d ⊆ subSlots d' ∧ dep_keys d ⊆ dep_keys d' ∧
    body_ok b d' g' ∧ within d' (σ_of (w_slots g)) (δ_of (w_odb g)) (value_in (w_slots g) (w_odb g)) p.

Lemma runs_after b p p' m m' g g1 d d1 st :
  m g = m' g1 → Inv g1 → read_step b g g1 → subSlots d ⊆ subSlots d1 → dep_keys d ⊆ dep_keys d1 →
  (∀ d', subSlots d1 ⊆ subSlots d' → dep_keys d1 ⊆ dep_keys d' →
     within d' (σ_of (w_slots g)) (δ_of (w_odb g)) (value_in (w_slots g) (w_odb g)) p' →
     within d' (σ_of (w_slots g)) (δ_of (w_odb g)) (value_in (w_slots g) (w_odb g)) p) →
  peval (σ_of (w_slots g)) (δ_of (w_odb g)) (value_in (w_slots g) (w_odb g)) p =
    peval (σ_of (w_slots g)) (δ_of (w_odb g)) (value_in (w_slots g) (w_odb g)) p' →
  runs b p' m' g1 d1 st → runs b p m g d st.
Proof using Type.
  intros Hm Hinv1 Hstep Hs Hk Hw Hp (g' & d' & Hrun & Hinv' & Hstep' & Hst & Hs' & Hk' & Hb & Hw').
  destruct (r_outer _ _ _ Hstep) as [Es Eo _ _ _ _]. rewrite Es, Eo in Hrun, Hw'.
  exists g', d'. rewrite Hm, Hrun, Hp. split_and!; try done.
  - by eapply read_step_trans.
  - by etrans.
  - by etrans.
  - by apply Hw.
Qed.

Lemma run_function_spec get b p : ∀ g d st,
  (∀ c g, (c < b)%nat → Inv g → (∀ x, x ∈ executing g → (c < x)%nat) → reads c (get c) g) →
  reads_below p b → quiet n p → Inv g → executingDependencyStack g = d :: st → body_ok b d g →
  (∀ x, x ∈ executing g → (b ≤ x)%nat) →
  runs b p (run_function get p) g d st.
Proof using acyclic total Hgraph.
  induction p as [v| |e|s k IH|c k IH|key k IH|t k IH]; intros g d st Hget Hb Hq Hinv Hst Hok Hex; cbn in Hb, Hq; cbn [run_function]; try done.
  - exists g, d. rewrite run_mret. by split_and!.
  - destruct Hq as [Hs Hq]. set (g1 := g <| w_slotsRead ::= union {[RSlot s]} |> <| executingDependencyStack := (d <| subSlots ::= union {[RSlot s]} |>) :: st |>).
    apply (runs_after b _ (k (σ_of (w_slots g) s)) _ (run_function get (k (σ_of (w_slots g) s))) g g1 d (d <| subSlots ::= union {[RSlot s]} |>) st).
    + unfold w_slotRead, note. rewrite !run_bind, run_modify. cbn beta iota. rewrite run_modify. cbn beta iota.
      rewrite run_bind, run_gets. cbn beta iota. cbn [executingDependencyStack set_field]. rewrite Hst. done.
    + by apply (Inv_same_core g).
    + by apply core_step.
    + cbn. set_solver.
    + done.
    + intros d' Hs' _ Hw. cbn. split; [|done]. apply Hs'. cbn. set_solver.
    + done.
    + apply IH; try done; [by apply (Inv_same_core g)|]. split.
      * intros c. cbn. intros [Hc | Hc]%elem_of_union; [set_solver|by apply (b_below _ _ _ Hok)].
      * intros s'. cbn. intros [Hc | Hc]%elem_of_union; [|by apply (b_slots _ _ _ Hok)]. assert (s' = s) as -> by set_solver. done.
  - destruct Hb as [Hc Hb].
    destruct (Hget c g Hc Hinv) as (g1 & Hrun & Hinv1 & Hstep & Hin & Htop & Hon); [intros x Hx; specialize (Hex x Hx); lia|].
    unfold top_grows, on_top in Htop, Hon. rewrite Hst in Htop. destruct (executingDependencyStack g1) as [|d1 st1] eqn:Hst1; [done|].
    destruct Htop as (-> & Hs1 & Hk1 & Hr1). set (v := value_in (w_slots g) (w_odb g) c) in *.
    apply (runs_after b _ (k (RValue v)) _ (run_function get (k (RValue v))) g g1 d d1 st); try done.
    + rewrite run_bind, run_gets. cbn beta iota. rewrite bool_decide_false by (intros Hx; specialize (Hex c Hx); lia).
      by rewrite run_bind, Hrun.
    + apply (read_step_weaken (S c)); [lia|done].
    + intros d' Hs' _ Hw. cbn. split; [by apply Hs'|done].
    + apply IH; try done.
      * split; intros x Hx; apply Hr1 in Hx as [Hx | (c' & E & Hc' & Hin')]; try done.
        -- destruct (b_below _ _ _ Hok x Hx). split; [done|]. by eapply still_cached.
        -- injection E as <-. split; [lia|done].
        -- by apply (b_slots _ _ _ Hok).
      * intros x. rewrite (o_executing _ _ (r_outer _ _ _ Hstep)). apply Hex.
  - set (g1 := g <| executingDependencyStack := (d <| dep_keys ::= union {[key]} |>) :: st |>).
    apply (runs_after b _ (k (δ_of (w_odb g) key)) _ (run_function get (k (δ_of (w_odb g) key))) g g1 d (d <| dep_keys ::= union {[key]} |>) st).
    + unfold odb_read, note. rewrite !run_bind, run_modify. cbn beta iota. rewrite run_bind, run_gets. cbn beta iota.
      cbn [executingDependencyStack set_field]. rewrite Hst. done.
    + by apply (Inv_same_core g).
    + by apply core_step.
    + done.
    + cbn. set_solver.
    + intros d' _ Hk' Hw. cbn. split; [|done]. apply Hk'. cbn. set_solver.
    + done.
    + apply IH; try done; [by apply (Inv_same_core g)|]. destruct Hok. by split.
  - by apply IH.
Qed.

(** *** Looking at the dependencies of a slot *)

Lemma unknown_becomes_unmodified g c : Inv g → is_Some (computedSlotValues g !! c) → c ∉ modifiedComputedSlots g → c ∈ unmodifiedComputedSlots g.
Proof using Type. intros Hinv Hc Hm. by destruct (v_known _ Hinv c Hc). Qed.

Lemma are_unmodified_spec get b deps : ∀ g,
  (∀ c g, (c < b)%nat → Inv g → (∀ x, x ∈ executing g → (c < x)%nat) → reads c (get c) g) →
  (∀ c, RComputed c ∈ deps → (c < b)%nat) → Inv g → (∀ x, x ∈ executing g → (b ≤ x)%nat) →
  ∃ u g', are_unmodified get deps g = (Ok (inr u), g') ∧ Inv g' ∧ read_step b g g' ∧ top_grows b g g' ∧
    (u = true → (∀ s, RSlot s ∈ deps → writtenSlotOriginalValues g !! s = None) ∧
                (∀ c, RComputed c ∈ deps → c ∈ unmodifiedComputedSlots g')).
Proof using acyclic total Hgraph.
  induction deps as [|[s|c] deps IH]; intros g Hget Hdeps Hinv Hex; cbn [are_unmodified].
  - exists true, g. rewrite run_mret. split; [done|]. split; [done|]. split; [done|]. split; [apply top_grows_refl|].
    intros _. split; intros x Hx; by apply not_elem_of_nil in Hx.
  - rewrite run_bind, run_gets. cbn beta iota. destruct (writtenSlotOriginalValues g !! s) as [v|] eqn:Hw.
    + rewrite bool_decide_true by done. exists false, g. rewrite run_mret. split; [done|]. split; [done|]. split; [done|].
      split; [apply top_grows_refl|done].
    + rewrite bool_decide_false by (by intros []). destruct (IH g Hget) as (u & g' & Hrun & Hinv' & Hstep & Htop & Hu); [set_solver|done..|].
      exists u, g'. split_and!; [done..|]. intros E. destruct (Hu E) as [Hs Hc]. split; [|set_solver].
      intros s' [[= ->] | Hs']%elem_of_cons; [done|by apply Hs].
  - assert (c < b)%nat as Hcb by (apply Hdeps; set_solver). rewrite run_bind, run_gets. cbn beta iota.
    set (unknown := bool_decide (c ∉ unmodifiedComputedSlots g) && bool_decide (c ∉ modifiedComputedSlots g)).
    assert (∃ g1, (if unknown then r ← get c; mret (match r with RExn e => Some e | RValue _ => None end) else mret None) g = (Ok None, g1) ∧
      Inv g1 ∧ read_step b g g1 ∧ top_grows b g g1 ∧ (c ∉ modifiedComputedSlots g1 → c ∈ unmodifiedComputedSlots g1)) as (g1 & Hrun1 & Hinv1 & Hstep1 & Htop1 & Hmod1).
    { unfold unknown. destruct (bool_decide (c ∉ unmodifiedComputedSlots g) && bool_decide (c ∉ modifiedComputedSlots g)) eqn:Hun.
      - destruct (Hget c g Hcb Hinv) as (g1 & Hrun & Hinv1 & Hstep & Hin & Htop & _); [intros x Hx; specialize (Hex x Hx); lia|].
        exists g1. rewrite run_bind, Hrun. cbn beta iota. rewrite run_mret. split; [done|]. split; [done|].
        split; [by apply (read_step_weaken (S c))|]. split; [by apply (top_grows_weaken (S c))|]. by apply unknown_becomes_unmodified.
      - exists g. rewrite run_mret. split; [done|]. split; [done|]. split; [done|]. split; [apply top_grows_refl|].
        intros Hm. apply andb_false_iff in Hun as [Hun | Hun]; apply bool_decide_eq_false in Hun; [|done]. by apply dec_stable. }
    rewrite run_bind, Hrun1. cbn beta iota. rewrite run_bind, run_gets. cbn beta iota.
    destruct (bool_decide (c ∈ modifiedComputedSlots g1)) eqn:Hm.
    + exists false, g1. rewrite run_mret. by split_and!.
    + apply bool_decide_eq_false in Hm. destruct (IH g1 Hget) as (u & g' & Hrun & Hinv' & Hstep & Htop & Hu); [set_solver|done| |].
      { intros x. rewrite (o_executing _ _ (r_outer _ _ _ Hstep1)). apply Hex. }
      exists u, g'. split; [done|]. split; [done|]. split; [by eapply read_step_trans|]. split; [by eapply top_grows_trans|].
      intros E. destruct (Hu E) as [Hs Hc]. split.
      * intros s Hin. rewrite <-(o_written _ _ (r_outer _ _ _ Hstep1)). apply Hs. set_solver.
      * intros c' [[= ->] | Hc']%elem_of_cons; [|by apply Hc]. apply (r_unmodified _ _ _ Hstep). by apply Hmod1.
Qed.

(** A slot of the graph, none of whose dependencies was written, still has its value. *)
Lemma still_current g c r d :
  Inv g → graph !! c = Some (r, d) → (∀ s, RSlot s ∈ subSlots d → writtenSlotOriginalValues g !! s = None) →
  (∀ c', RComputed c' ∈ subSlots d → c' ∈ unmodifiedComputedSlots g) →
  r = RValue (value_in (w_slots g) (w_odb g) c) ∧ all_within (w_slots g) (w_odb g) d c ∧
  (∀ c', RComputed c' ∈ subSlots d → (c' < c)%nat ∧ is_Some (computedSlotValues g !! c')) ∧
  (∀ s, RSlot s ∈ subSlots d → (s < n)%nat).
Proof using acyclic total Hgraph.
  intros Hinv Hg Hs Hc. destruct (Hgraph c r d Hg) as (-> & Hw & Hsl & Hbel).
  assert (agree d (σ_of slots0) (δ_of db0) (value_in slots0 db0) (σ_of (w_slots g)) (δ_of (w_odb g)) (value_in (w_slots g) (w_odb g))) as Hagree.
  { split_and!.
    - intros s Hin. apply (v_written _ Hinv); [by apply Hsl|by apply Hs].
    - intros key Hin. by eapply (v_odb _ Hinv).
    - intros c' Hin. destruct (t_unmodified _ (v_tables _ Hinv) c' (Hc c' Hin)) as (_ & r' & d' & Hr' & Hv' & Hd').
      rewrite (v_real _ Hinv) in Hr'. destruct (Hgraph _ _ _ Hr') as (E & _). destruct (v_cached _ Hinv _ _ _ Hv' Hd') as [E' _].
      congruence. }
  destruct (within_agree _ _ _ _ _ _ _ _ Hagree Hw) as [Hw' Hp]. split_and!.
  - unfold value_in. rewrite !(value_of_eq valueFunction acyclic). f_equal. symmetry. exact Hp.
  - exact Hw'.
  - intros c' Hin. split; [by apply Hbel|]. destruct (t_unmodified _ (v_tables _ Hinv) c' (Hc c' Hin)) as (_ & r' & d' & _ & Hv' & _). by exists r'.
  - done.
Qed.

(** *** The whole of [getComputedSlotValue] *)

(** Reading what has just been recorded. *)
Lemma reads_recorded g g1 c r (m : MC Result) :
  Inv g1 → read_step (S c) g g1 → executingDependencyStack g1 = executingDependencyStack g → computedSlotValues g1 !! c = Some r →
  m g = (o ← read_cached c; lift_option RecursionError o) g1 → reads c m g.
Proof using acyclic total Hgraph.
  intros Hinv1 Hstep Hst Hc Hm. destruct (read_cached_spec g1 c r Hinv1 Hc) as (g2 & Hrun & Hcore & He & Htop & Hon).
  destruct (proj1 (t_dom _ (v_tables _ Hinv1) c)) as [d Hd]; [by exists r|].
  destruct (v_cached _ Hinv1 c r d Hc Hd) as [Hr _]. pose proof (Inv_same_core _ _ Hcore Hinv1) as Hinv2.
  pose proof (core_step (S c) _ _ Hcore He) as Hstep2. destruct (r_outer _ _ _ Hstep) as [Es Eo _ _ _ _].
  rewrite Es, Eo in Hr. exists g2. rewrite Hm, run_bind, Hrun. cbn beta iota. rewrite run_lift_option, Hr.
  split; [done|]. split; [done|]. split; [by eapply read_step_trans|]. split; [by eapply still_cached, mk_is_Some|].
  split; [|done]. unfold top_grows in *. by rewrite <-Hst.
Qed.

Lemma recompute_spec get c g :
  (∀ c' g, (c' < c)%nat → Inv g → (∀ x, x ∈ executing g → (c' < x)%nat) → reads c' (get c') g) →
  Inv g → computedSlotValues g !! c = None → (∀ x, x ∈ executing g → (c < x)%nat) → reads c (recompute valueFunction get c) g.
Proof using acyclic total Hgraph.
  intros Hget Hinv Hc Hex.
  set (g1 := g <| modifiedComputedSlots ::= union {[c]} |>).
  assert (c ∉ unmodifiedComputedSlots g) as Hnu.
  { intros Hx. destruct (t_unmodified _ (v_tables _ Hinv) c Hx) as (_ & ? & ? & _ & ? & _). congruence. }
  assert (Inv g1) as Hinv1.
  { destruct Hinv as [[Hdom Hrefs Hkeys Hunm] ? ? ? ? Hknown ? ? ? ?]. split; [split|..]; try done.
    - intros x. cbn. intros Hx. destruct (Hunm x Hx) as [? ?]. split; [set_solver|done].
    - intros x Hx. destruct (Hknown x Hx); [by left|right]. cbn. set_solver. }
  assert (read_step (S c) g g1) as Hstep1.
  { split; [done..|]. intros x Hx. split; [cbn; set_unfold; split; [intros [? | ?]; [lia|done]|by right]|done]. }
  set (g2 := g1 <| executingDependencyStack ::= cons no_deps |> <| executing ::= union {[c]} |>).
  destruct (run_function_spec get c (valueFunction c) g2 no_deps (executingDependencyStack g)) as (g3 & d & Hrun & Hinv3 & Hstep3 & Hst3 & _ & _ & Hok3 & Hw3);
    [done|apply acyclic|apply total|by apply (Inv_same_core g1)|done|split; cbn; set_solver| |].
  { intros x. cbn. intros [->%elem_of_singleton | Hx]%elem_of_union; [done|]. specialize (Hex x Hx). lia. }
  set (g4 := g3 <| executing ::= λ x, x ∖ {[c]} |> <| executingDependencyStack ::= tail |>).
  assert (Inv g4) as Hinv4 by (by apply (Inv_same_core g3)).
  assert (executing g4 = executing g) as Hex4.
  { cbn. rewrite (o_executing _ _ (r_outer _ _ _ Hstep3)). cbn. apply set_eq. intros x. set_unfold. split; [naive_solver|].
    intros Hx. split; [by right|]. specialize (Hex x Hx). lia. }
  assert (read_step (S c) g g4) as Hstep4.
  { destruct Hstep3 as [[Es Eo Er _ Ew Ec] Hv Hd Hu Hh], Hstep1 as [_ _ _ _ Hh1]. split; [by split|done..|].
    intros x Hx. destruct (Hh x) as [Hm He]; [lia|]. destruct (Hh1 x) as [Hm1 He1]; [done|]. cbn. rewrite Hm. split; [exact Hm1|by rewrite He]. }
  assert (computedSlotValues g4 !! c = None) as Hc4.
  { change (computedSlotValues g3 !! c = None). destruct (r_high _ _ _ Hstep3 c (Nat.le_refl _)) as [_ E]. rewrite E. exact Hc. }
  destruct (r_outer _ _ _ Hstep4) as [Es Eo _ _ _ _].
  destruct (record_value g4 c (RValue (value_in (w_slots g) (w_odb g) c)) d false) as (g5 & Hset & Hinv5 & Hstep5 & Hc5 & Hst5).
  - done.
  - done.
  - by rewrite Es, Eo.
  - rewrite Es, Eo. exact Hw3.
  - intros c' Hin. by apply (b_below _ _ _ Hok3).
  - apply (b_slots _ _ _ Hok3).
  - done.
  - apply (reads_recorded g g5 c (RValue (value_in (w_slots g) (w_odb g) c)) _ Hinv5); [by eapply read_step_trans| |exact Hc5|].
    + rewrite Hst5. cbn. by rewrite Hst3.
    + unfold recompute. rewrite run_bind, run_modify. cbn beta iota. rewrite run_bind, run_modify. cbn beta iota.
      rewrite run_bind, run_modify. cbn beta iota. rewrite run_bind. fold g1. fold g2. rewrite Hrun. cbn beta iota.
      rewrite run_bind, run_modify. cbn beta iota. rewrite run_bind, run_gets. cbn beta iota.
      assert (head (executingDependencyStack (g3 <| executing ::= λ x, x ∖ {[c]} |>)) = Some d) as -> by (cbn; by rewrite Hst3).
      rewrite run_bind, run_lift_option. cbn beta iota. rewrite run_bind, run_modify. cbn beta iota. fold g4.
      rewrite run_bind. assert (RValue (value_in (w_slots g) (w_odb g) c) =
        RValue (peval (σ_of (w_slots g2)) (δ_of (w_odb g2)) (value_in (w_slots g2) (w_odb g2)) (valueFunction c))) as <-.
      { f_equal. unfold value_in at 1. apply (value_of_eq valueFunction acyclic). }
      rewrite Hset. done.
Qed.

Lemma reads_after g g1 c (m m' : MC Result) :
  m g = m' g1 → read_step (S c) g g1 → top_grows (S c) g g1 → reads c m' g1 → reads c m g.
Proof using Type.
  intros Hm Hstep Htop (g' & Hrun & Hinv' & Hstep' & Hin & Htop' & Hon). destruct (r_outer _ _ _ Hstep) as [Es Eo _ _ _ _].
  rewrite Es, Eo in Hrun. exists g'. rewrite Hm. split; [done|]. split; [done|]. split; [by eapply read_step_trans|].
  split; [done|]. split; [by eapply top_grows_trans|done].
Qed.

(** The second half, for a slot that the context has no value of. *)
Lemma reads_uncached get c g :
  (∀ c' g, (c' < c)%nat → Inv g → (∀ x, x ∈ executing g → (c' < x)%nat) → reads c' (get c') g) →
  Inv g → computedSlotValues g !! c = None → (∀ x, x ∈ executing g → (c < x)%nat) →
  reads c
    (usable ← gets (λ g, if bool_decide (c ∈ modifiedComputedSlots g) then None else real g !! c);
     match usable with
     | None => recompute valueFunction get c
     | Some (r, d) =>
         unmodified ← are_unmodified get (elements (subSlots d));
         match unmodified with
         | inl e => mret (RExn e)
         | inr false => recompute valueFunction get c
         | inr true => setComputedSlotValue c (Some (r, d)) true;; o ← read_cached c; lift_option RecursionError o
         end
     end) g.
Proof using acyclic total Hgraph.
  intros Hget Hinv Hc Hex. pose proof (recompute_spec get c g Hget Hinv Hc Hex) as Hre.
  assert (∀ m, (∀ g1, m g1 = recompute valueFunction get c g1) → reads c m g) as Hre' by
    (intros m Hm; destruct Hre as (g' & Hrun & Hr); exists g'; by rewrite Hm).
  unfold reads. rewrite run_bind, run_gets. cbn beta iota. rewrite (v_real _ Hinv).
  destruct (bool_decide (c ∈ modifiedComputedSlots g)) eqn:Hm; [by apply Hre'|].
  apply bool_decide_eq_false in Hm. destruct (graph !! c) as [[r d]|] eqn:Hg; [|by apply Hre'].
  destruct (Hgraph c r d Hg) as (_ & _ & _ & Hbel).
  destruct (are_unmodified_spec get c (elements (subSlots d)) g Hget) as (u & g1 & Hrun & Hinv1 & Hstep1 & Htop1 & Hu).
  { intros c'. rewrite elem_of_elements. apply Hbel. }
  { done. }
  { intros x Hx. specialize (Hex x Hx). lia. }
  assert (read_step (S c) g g1) as HstepS by (apply (read_step_weaken c); [lia|done]).
  assert (top_grows (S c) g g1) as HtopS by (apply (top_grows_weaken c); [lia|done]).
  destruct (r_high _ _ _ Hstep1 c (Nat.le_refl _)) as [Hm1 Hc1]. rewrite Hc in Hc1.
  rewrite run_bind, Hrun. cbn beta iota. destruct u.
  - destruct (Hu eq_refl) as [Hs Hcs]. destruct (still_current g1 c r d Hinv1 Hg) as (Hr & Hw & Hb & Hsl).
    { intros s Hin. rewrite (o_written _ _ (r_outer _ _ _ Hstep1)). apply Hs. by apply elem_of_elements. }
    { intros c' Hin. apply Hcs. by apply elem_of_elements. }
    destruct (record_value g1 c r d true Hinv1 Hc1 Hr Hw Hb Hsl) as (g2 & Hset & Hinv2 & Hstep2 & Hc2 & Hst2).
    { intros _. split; [by rewrite Hm1|done]. }
    apply (reads_after g g1 c (λ _, (setComputedSlotValue c (Some (r, d)) true;; o ← read_cached c; lift_option RecursionError o) g1)
      (setComputedSlotValue c (Some (r, d)) true;; o ← read_cached c; lift_option RecursionError o)); [done..|].
    apply (reads_recorded g1 g2 c r _ Hinv2 Hstep2 Hst2 Hc2). by rewrite run_bind, Hset.
  - apply (reads_after g g1 c (λ _, recompute valueFunction get c g1) (recompute valueFunction get c)); [done..|].
    apply recompute_spec; [done..|]. intros x. rewrite (o_executing _ _ (r_outer _ _ _ Hstep1)). apply Hex.
Qed.

Lemma get_spec fuel : ∀ c g,
  (c < fuel)%nat → Inv g → (∀ x, x ∈ executing g → (c < x)%nat) → reads c (getComputedSlotValue valueFunction fuel c) g.
Proof using acyclic total Hgraph.
  induction fuel as [|fuel IH]; intros c g Hf Hinv Hex; [lia|]. cbn [getComputedSlotValue].
  destruct (computedSlotValues g !! c) as [r|] eqn:Hc.
  { apply (reads_cached g c r); [done..|]. intros g' Hrun. by rewrite run_bind, Hrun. }
  assert (c ∉ unmodifiedComputedSlots g) as Hnu.
  { intros Hx. destruct (t_unmodified _ (v_tables _ Hinv) c Hx) as (_ & ? & ? & _ & ? & _). congruence. }
  destruct (reads_uncached (getComputedSlotValue valueFunction fuel) c g) as (g' & Hrun & Hr); [|done..|].
  { intros c' g' Hc'. apply IH. lia. }
  exists g'. split; [|done]. rewrite run_bind. unfold read_cached at 1.
  rewrite run_bind, run_gets. cbn beta iota. rewrite Hc, run_mret. cbn beta iota. rewrite run_bind, run_gets. cbn beta iota.
  rewrite bool_decide_false by done. rewrite run_bind, run_assertM. cbn beta iota. exact Hrun.
Qed.

(** ** Writing *)

(** After marking, what is left does not see the change. *)
Lemma survivors C g g1 slots' db' :
  Inv g → pruned C g g1 →
  (∀ c d s, computedSlotDependencies g1 !! c = Some d → RSlot s ∈ subSlots d → σ_of slots' s = σ_of (w_slots g) s) →
  (∀ c d key, computedSlotDependencies g1 !! c = Some d → key ∈ dep_keys d → δ_of db' key = δ_of (w_odb g) key) →
  ∀ c r d, computedSlotValues g1 !! c = Some r → computedSlotDependencies g1 !! c = Some d →
    r = RValue (value_in slots' db' c) ∧ all_within slots' db' d c ∧
    ∀ c', RComputed c' ∈ subSlots d → is_Some (computedSlotValues g1 !! c').
Proof using acyclic total Hgraph.
  intros Hinv [_ Ht Hv Hd _ Hup _ _] Hs Hk c. induction (lt_wf c) as [c _ IH]. intros r d Hc Hcd.
  pose proof (lookup_weaken _ _ _ _ Hc Hv) as Hcg. pose proof (lookup_weaken _ _ _ _ Hcd Hd) as Hcdg.
  destruct (v_cached _ Hinv c r d Hcg Hcdg) as [-> Hw].
  assert (∀ c', RComputed c' ∈ subSlots d → is_Some (computedSlotValues g1 !! c')) as Hclosed.
  { intros c' Hin. destruct (v_below _ Hinv c c' d Hcdg Hin) as [_ Hin']. apply not_eq_None_Some. intros E.
    pose proof (Hup c' c d Hin' E Hcdg Hin). congruence. }
  assert (agree d (σ_of (w_slots g)) (δ_of (w_odb g)) (value_in (w_slots g) (w_odb g)) (σ_of slots') (δ_of db') (value_in slots' db')) as Hagree.
  { split_and!; [intros s; by eapply Hs|intros key; by eapply Hk|]. intros c' Hin.
    destruct (v_below _ Hinv c c' d Hcdg Hin) as [Hlt _]. destruct (Hclosed c' Hin) as [r' Hr'].
    destruct (proj1 (t_dom _ Ht c')) as [d' Hd']; [by exists r'|]. destruct (IH c' Hlt r' d' Hr' Hd') as [E _].
    destruct (v_cached _ Hinv c' r' d' (lookup_weaken _ _ _ _ Hr' Hv) (lookup_weaken _ _ _ _ Hd' Hd)) as [E' _]. congruence. }
  destruct (within_agree _ _ _ _ _ _ _ _ Hagree Hw) as [Hw' Hp]. split_and!; [|exact Hw'|done].
  f_equal. unfold value_in. rewrite !(value_of_eq valueFunction acyclic). symmetry. exact Hp.
Qed.

(** The state after marking and writing. *)
Lemma Inv_after_write C g g1 g2 :
  Inv g → pruned C g g1 →
  computedSlotValues g2 = computedSlotValues g1 → computedSlotDependencies g2 = computedSlotDependencies g1 →
  real g2 = real g1 → unmodifiedComputedSlots g2 = unmodifiedComputedSlots g1 → modifiedComputedSlots g2 = modifiedComputedSlots g1 →
  subscriptionToComputedSlots g2 = subscriptionToComputedSlots g1 → slotToComputedSlots g2 = slotToComputedSlots g1 →
  (∀ c d s, computedSlotDependencies g1 !! c = Some d → RSlot s ∈ subSlots d → σ_of (w_slots g2) s = σ_of (w_slots g) s) →
  (∀ c d key, computedSlotDependencies g1 !! c = Some d → key ∈ dep_keys d → δ_of (w_odb g2) key = δ_of (w_odb g) key) →
  (∀ s, (s < n)%nat → writtenSlotOriginalValues g2 !! s = None → σ_of (w_slots g2) s = σ_of slots0 s) →
  (∀ c r d key, graph !! c = Some (r, d) → key ∈ dep_keys d → δ_of (w_odb g2) key = δ_of db0 key) →
  (∀ s o, (s < n)%nat → writtenSlotOriginalValues g2 !! s = Some o → o = σ_of slots0 s) →
  (∀ s, s ∈ slotsCreated g2 → (n ≤ s)%nat) → Inv g2.
Proof using acyclic total Hgraph.
  intros Hinv Hsh Ev Ed Er Eu Em Ek Es Hs Hk H1 H2 H3 H4. pose proof (survivors C g g1 _ _ Hinv Hsh Hs Hk) as Hsurv.
  destruct Hsh as [Ho [Hdom Hrefs Hkeys Hunm] Hv Hd _ _ _ Hknown]. split; try done.
  - split; rewrite ?Ev, ?Ed, ?Er, ?Eu, ?Em, ?Ek, ?Es; done.
  - rewrite Er, (o_real _ _ Ho). apply Hinv.
  - rewrite Ev, Ed. intros c r d Hc Hcd. destruct (Hsurv c r d Hc Hcd) as (? & ? & _). done.
  - rewrite Ev, Ed. intros c c' d Hcd Hin. destruct (proj2 (Hdom c)) as [r Hr]; [by exists d|].
    destruct (Hsurv c r d Hr Hcd) as (_ & _ & Hcl). split; [|by apply Hcl].
    by destruct (v_below _ Hinv c c' d (lookup_weaken _ _ _ _ Hcd Hd) Hin).
  - rewrite Ed. intros c s d Hcd. apply (v_slots _ Hinv c s d (lookup_weaken _ _ _ _ Hcd Hd)).
  - rewrite Ev, Eu, Em. intros c [r Hc]. apply Hknown; [by exists r|]. apply (v_known _ Hinv). exists r. by eapply lookup_weaken.
Qed.

Definition set_map (s : nat) (v : Z) (slots : gmap nat Z) : gmap nat Z :=
  if bool_decide (σ_of slots s = v) then slots else <[s := v]> slots.

Lemma set_slot_spec g s v :
  Inv g → executingDependencyStack g = [] →
  ∃ g', set_slot s v g = (Ok tt, g') ∧ Inv g' ∧ w_slots g' = set_map s v (w_slots g) ∧ w_odb g' = w_odb g ∧
    executingDependencyStack g' = [] ∧ executing g' = executing g.
Proof using acyclic total Hgraph.
  intros Hinv Hst. unfold set_slot, set_map. rewrite run_bind, run_gets. cbn beta iota.
  change (w_slot_value g s) with (σ_of (w_slots g) s). destruct (bool_decide (σ_of (w_slots g) s = v)); [exists g; by rewrite run_mret|].
  rewrite run_bind, run_gets. cbn beta iota. rewrite bool_decide_false by (rewrite Hst; auto).
  rewrite run_bind, run_gets. cbn beta iota.
  destruct (mark_dirty_spec (mm_get (slotToComputedSlots g) (RSlot s)) g (v_tables _ Hinv)) as (g1 & Hrun & Hsh).
  rewrite run_bind, Hrun. cbn beta iota. rewrite run_bind, run_gets. cbn beta iota.
  destruct (sh_outer _ _ _ Hsh) as [Es Eo Er Ee Ew Ec]. rewrite Ec.
  set (written := if bool_decide (s ∈ slotsCreated g) then writtenSlotOriginalValues g
                  else match writtenSlotOriginalValues g !! s with Some _ => writtenSlotOriginalValues g | None => <[s := σ_of (w_slots g) s]> (writtenSlotOriginalValues g) end).
  set (g2 := g1 <| writtenSlotOriginalValues := written |> <| w_slots := <[s := v]> (w_slots g) |>).
  exists g2. split; [|split; [|split_and!; [done|by cbn|by cbn; rewrite (sh_stack _ _ _ Hsh)|by cbn]]].
  - rewrite run_bind. assert (whenM (negb (bool_decide (s ∈ slotsCreated g)))
      (modify (λ g0, g0 <| writtenSlotOriginalValues ::= λ m, match m !! s with Some _ => m | None => <[s := σ_of (w_slots g) s]> m end |>)) g1 =
      (Ok tt, g1 <| writtenSlotOriginalValues := written |>)) as ->.
    { unfold written. destruct (bool_decide (s ∈ slotsCreated g)); destruct g1; cbn in *; by subst. }
    cbn beta iota. rewrite run_modify. unfold g2. destruct g1; cbn in *; by subst.
  - apply (Inv_after_write _ g g1 g2 Hinv Hsh); try done; cbn.
    + intros c d s' Hcd Hin. destruct (decide (s' = s)) as [-> | Hne]; [|unfold σ_of; by rewrite lookup_insert_ne].
      exfalso. destruct (proj2 (t_dom _ (sh_tables _ _ _ Hsh) c)) as [r Hr]; [by exists d|].
      assert (computedSlotValues g1 !! c = None) as E; [|congruence]. apply (sh_gone _ _ _ Hsh).
      apply (t_refs _ (v_tables _ Hinv)). exists d. split; [by eapply lookup_weaken, (sh_deps _ _ _ Hsh)|done].
    + intros c d key _ _. by rewrite Eo.
    + intros s' Hs' Hw. assert (s' ≠ s) as Hne.
      { intros ->. unfold written in Hw. destruct (bool_decide (s ∈ slotsCreated g)) eqn:Hcr.
        - apply bool_decide_eq_true in Hcr. pose proof (v_created _ Hinv s Hcr). lia.
        - destruct (writtenSlotOriginalValues g !! s) eqn:E; [congruence|by rewrite lookup_insert_eq in Hw]. }
      unfold σ_of at 1. rewrite lookup_insert_ne by done. apply (v_written _ Hinv); [done|]. unfold written in Hw.
      destruct (bool_decide (s ∈ slotsCreated g)); [done|]. destruct (writtenSlotOriginalValues g !! s); [done|]. by rewrite lookup_insert_ne in Hw.
    + intros c r d key Hg Hin. rewrite Eo. by eapply (v_odb _ Hinv).
    + intros s' o Hs'. unfold written. destruct (bool_decide (s ∈ slotsCreated g)); [by apply (v_original _ Hinv)|].
      destruct (writtenSlotOriginalValues g !! s) eqn:E; [by apply (v_original _ Hinv)|].
      intros [[<- <-] | [_ Ho]]%lookup_insert_Some; [by apply (v_written _ Hinv)|by apply (v_original _ Hinv)].
    + rewrite Ec. apply (v_created _ Hinv).
Qed.

Lemma create_slot_spec g s v :
  Inv g → (n ≤ s)%nat →
  ∃ g', create_slot s v g = (Ok tt, g') ∧ Inv g' ∧ w_slots g' = <[s := v]> (w_slots g) ∧ w_odb g' = w_odb g ∧
    executingDependencyStack g' = executingDependencyStack g ∧ executing g' = executing g.
Proof using acyclic total Hgraph.
  intros Hinv Hs. unfold create_slot. rewrite run_bind, run_modify. cbn beta iota. rewrite run_modify.
  eexists. split; [done|]. split; [|done].
  assert (∀ s', (s' < n)%nat → σ_of (<[s := v]> (w_slots g)) s' = σ_of (w_slots g) s') as Hσ.
  { intros s' Hs'. unfold σ_of. rewrite lookup_insert_ne by lia. done. }
  eapply (Inv_after_write _ g g _ Hinv (pruned_refl g (v_tables _ Hinv))); try done; cbn.
  - intros c d s' Hcd Hin. apply Hσ. by eapply (v_slots _ Hinv).
  - intros s' Hs' Hw. rewrite Hσ by done. by apply (v_written _ Hinv).
  - apply (v_odb _ Hinv).
  - apply (v_original _ Hinv).
  - intros s' [->%elem_of_singleton | Hin]%elem_of_union; [done|by apply (v_created _ Hinv)].
Qed.

Lemma write_key_spec g key v :
  Inv g → executingDependencyStack g = [] → (∀ c r d, graph !! c = Some (r, d) → key ∉ dep_keys d) →
  ∃ g', write_key key v g = (Ok tt, g') ∧ Inv g' ∧ w_slots g' = w_slots g ∧ w_odb g' = <[key := v]> (w_odb g) ∧
    executingDependencyStack g' = [] ∧ executing g' = executing g.
Proof using acyclic total Hgraph.
  intros Hinv Hst Hkey. unfold write_key. rewrite run_bind, run_gets. cbn beta iota. rewrite bool_decide_false by (rewrite Hst; auto).
  rewrite run_bind, run_gets. cbn beta iota.
  destruct (mark_dirty_spec (mm_get (subscriptionToComputedSlots g) key) g (v_tables _ Hinv)) as (g1 & Hrun & Hsh).
  rewrite run_bind, Hrun. cbn beta iota. rewrite run_modify. destruct (sh_outer _ _ _ Hsh) as [Es Eo Er Ee Ew Ec].
  eexists. split; [done|]. split; [|split_and!; cbn; rewrite ?Es, ?Eo, ?(sh_stack _ _ _ Hsh); done].
  eapply (Inv_after_write _ g g1 _ Hinv Hsh); try done; cbn.
  - intros c d s Hcd Hin. by rewrite Es.
  - intros c d key' Hcd Hin. rewrite Eo. destruct (decide (key' = key)) as [-> | Hne]; [|unfold δ_of; by rewrite lookup_insert_ne].
    exfalso. destruct (proj2 (t_dom _ (sh_tables _ _ _ Hsh) c)) as [r Hr]; [by exists d|].
    assert (computedSlotValues g1 !! c = None) as E; [|congruence]. apply (sh_gone _ _ _ Hsh).
    apply (t_keys _ (v_tables _ Hinv)). exists d. split; [by eapply lookup_weaken, (sh_deps _ _ _ Hsh)|done].
  - rewrite Es, Ew. apply (v_written _ Hinv).
  - intros c r d key' Hg Hin. rewrite Eo. unfold δ_of at 1. rewrite lookup_insert_ne; [by eapply (v_odb _ Hinv)|].
    intros <-. by apply (Hkey c r d).
  - rewrite Ew. apply (v_original _ Hinv).
  - rewrite Ec. apply (v_created _ Hinv).
Qed.

(** ** The whole function *)

(** What the function does when every computed slot is calculated anew at each read. *)
Fixpoint ref_action (a : action) (slots : gmap nat Z) (db : gmap Key Z) : option (Z * gmap nat Z * gmap Key Z) :=
  match a with
  | AReturn v => Some (v, slots, db)
  | ARaise => None
  | ASlot s k => ref_action (k (σ_of slots s)) slots db
  | AComputed c k => ref_action (k (value_in slots db c)) slots db
  | AOdb key k => ref_action (k (δ_of db key)) slots db
  | ASet s v k => ref_action k (set_map s v slots) db
  | ANew s v k => ref_action k (<[s := v]> slots) db
  | AWrite key v k => ref_action k slots (<[key := v]> db)
  end.

(** New slots are new, and no slot of the graph depends on a key that is written. *)
Fixpoint permitted (fuel : nat) (a : action) : Prop :=
  match a with
  | AReturn _ | ARaise => True
  | ASlot _ k => ∀ v, permitted fuel (k v)
  | AComputed c k => (c < fuel)%nat ∧ ∀ v, permitted fuel (k v)
  | AOdb _ k => ∀ v, permitted fuel (k v)
  | ASet _ _ k => permitted fuel k
  | ANew s _ k => (n ≤ s)%nat ∧ permitted fuel k
  | AWrite key _ k => (∀ c r d, graph !! c = Some (r, d) → key ∉ dep_keys d) ∧ permitted fuel k
  end.

(** Between two steps of the function, no computed slot is being calculated. *)
Definition idle (g : Context) : Prop := Inv g ∧ executingDependencyStack g = [] ∧ executing g = ∅.

Lemma idle_new : idle (new_Context slots0 db0 graph).
Proof using acyclic total Hgraph.
  split; [|done]. split; cbn; try done; [split; cbn; try done|].
  - intros c. rewrite !lookup_empty. done.
  - intros ref c. split; [set_solver|]. by intros (d & E & _).
  - intros key c. split; [set_solver|]. by intros (d & E & _).
  - by intros c [].
Qed.

Lemma note_idle f g : executingDependencyStack g = [] → note f g = (Ok tt, g).
Proof using Type. unfold note. rewrite run_modify. destruct g. cbn. by intros ->. Qed.

Lemma run_action_spec fuel a : ∀ g,
  permitted fuel a → idle g →
  ∃ g', run_action valueFunction fuel a g = (Ok (fst ∘ fst <$> ref_action a (w_slots g) (w_odb g)), g') ∧ idle g' ∧
    ∀ r, ref_action a (w_slots g) (w_odb g) = Some r → w_slots g' = r.1.2 ∧ w_odb g' = r.2.
Proof using acyclic total Hgraph.
  induction a as [v| |s k IH|c k IH|key k IH|s v k IH|s v k IH|key v k IH]; intros g Hp (Hinv & Hst & Hex); cbn in Hp; cbn [run_action ref_action].
  - exists g. rewrite run_mret. split_and!; try done. by intros r [= <-].
  - exists g. by rewrite run_mret.
  - unfold w_slotRead. rewrite !run_bind, run_modify. cbn beta iota. rewrite note_idle by done. cbn beta iota. rewrite run_bind, run_gets. cbn beta iota.
    assert (w_slot_value (g <| w_slotsRead ::= union {[RSlot s]} |>) s = σ_of (w_slots g) s) as -> by done.
    change (ref_action (k (σ_of (w_slots g) s)) (w_slots g) (w_odb g)) with
      (ref_action (k (σ_of (w_slots g) s)) (w_slots (g <| w_slotsRead ::= union {[RSlot s]} |>)) (w_odb (g <| w_slotsRead ::= union {[RSlot s]} |>))).
    apply IH; [done|]. split; [by apply (Inv_same_core g)|done].
  - destruct Hp as [Hc Hp]. destruct (get_spec fuel c g Hc Hinv) as (g1 & Hrun & Hinv1 & Hstep & _ & Htop & _); [by rewrite Hex|].
    rewrite run_bind, Hrun. cbn beta iota. destruct (r_outer _ _ _ Hstep) as [Es Eo _ Ee _ _]. rewrite <-Es, <-Eo. apply IH; [apply Hp|].
    split; [done|]. rewrite Ee. split; [|done]. unfold top_grows in Htop. rewrite Hst in Htop. by destruct (executingDependencyStack g1).
  - unfold odb_read. rewrite run_bind, note_idle by done. cbn beta iota. rewrite run_bind, run_gets. cbn beta iota. by apply IH.
  - destruct (set_slot_spec g s v Hinv Hst) as (g1 & Hrun & Hinv1 & <- & <- & Hst1 & Hex1).
    rewrite run_bind, Hrun. cbn beta iota. apply IH; [done|]. split; [done|]. by rewrite Hex1.
  - destruct Hp as [Hs Hp]. destruct (create_slot_spec g s v Hinv Hs) as (g1 & Hrun & Hinv1 & <- & <- & Hst1 & Hex1).
    rewrite run_bind, Hrun. cbn beta iota. apply IH; [done|]. split; [done|]. by rewrite Hst1, Hex1.
  - destruct Hp as [Hk Hp]. destruct (write_key_spec g key v Hinv Hst Hk) as (g1 & Hrun & Hinv1 & <- & <- & Hst1 & Hex1).
    rewrite run_bind, Hrun. cbn beta iota. apply IH; [done|]. split; [done|]. by rewrite Hex1.
Qed.

(** What the slots are after undoing the writes. *)
Lemma restored_below g s : Inv g → (s < n)%nat → σ_of (slots_restored g) s = σ_of slots0 s.
Proof using Type.
  intros Hinv Hs. unfold slots_restored, σ_of at 1. destruct (writtenSlotOriginalValues g !! s) as [o|] eqn:E.
  - rewrite (lookup_union_Some_l _ _ _ o) by done. by apply (v_original _ Hinv).
  - rewrite lookup_union_r by done. by apply (v_written _ Hinv).
Qed.
End consistency.

(** ** Starting again after a conflict *)

Section attempts.
Context (valueFunction : nat → program) (acyclic : ∀ c, reads_below (valueFunction c) c).
Context (n : nat) (total : ∀ c, quiet n (valueFunction c)) (slots0 : gmap nat Z).
Context (fuel : nat) (a : action).

Definition same_below (slots : gmap nat Z) : Prop := ∀ s, (s < n)%nat → σ_of slots s = σ_of slots0 s.

(** Slots that the function creates do not matter to computed slots. *)
Lemma peval_quiet σ σ' δ ν ν' b p :
  (∀ s, (s < n)%nat → σ' s = σ s) → (∀ c, (c < b)%nat → ν' c = ν c) → reads_below p b → quiet n p →
  peval σ' δ ν' p = peval σ δ ν p.
Proof using Type.
  intros Hσ Hν. induction p as [v| |e|s k IH|c k IH|key k IH|t k IH]; cbn; try done; intros Hb Hq.
  - destruct Hq as [Hs Hq]. rewrite (Hσ s Hs). by apply IH.
  - destruct Hb as [Hc Hb]. rewrite (Hν c Hc). by apply IH.
  - by apply IH.
Qed.

Lemma value_in_below slots db c : same_below slots → value_in valueFunction slots db c = value_in valueFunction slots0 db c.
Proof using acyclic total.
  intros Hs. unfold value_in. induction (lt_wf c) as [c _ IH]. rewrite !(value_of_eq valueFunction acyclic).
  by apply (peval_quiet _ _ _ _ _ c).
Qed.

Lemma graph_ok_below slots db graph :
  same_below slots → graph_ok valueFunction n slots0 db graph → graph_ok valueFunction n slots db graph.
Proof using acyclic total.
  intros Hs Hg c r d Hc. destruct (Hg c r d Hc) as (-> & Hw & Hsl & Hb). split_and!; [by rewrite (value_in_below slots)| |done..].
  eapply within_agree; [|exact Hw]. split_and!; [intros s Hin; by apply Hs, Hsl|done|]. intros c' _. by apply value_in_below.
Qed.

(** What is assumed of the database and the graph at an attempt. *)
Definition attempt_ok (now : gmap Key Z * gmap nat (Result * ComputedSlotDeps)) : Prop :=
  graph_ok valueFunction n slots0 now.1 now.2 ∧ permitted n now.2 fuel a.

(** An attempt decides: the last one, or one in which the function raises. *)
Definition decided (slots : gmap nat Z) (db last_db : gmap Key Z) (o : outcome (option Z)) (g' : Context) : Prop :=
  o = Ok (fst ∘ fst <$> ref_action valueFunction a slots db) ∧
  match ref_action valueFunction a slots db with
  | Some (_, slots', db') => db = last_db ∧ w_slots g' = slots' ∧ w_odb g' = db'
  | None => w_odb g' = db ∧ same_below (w_slots g')
  end.

Definition last_db (db : gmap Key Z) (conflicts : list (gmap Key Z * gmap nat (Result * ComputedSlotDeps))) : gmap Key Z :=
  default db (last conflicts.*1).

(** One attempt, from a context that has just been made or reset. *)
Lemma attempt_spec graph g :
  attempt_ok (w_odb g, graph) → same_below (w_slots g) → idle valueFunction n (w_slots g) (w_odb g) graph g →
  ∃ g', run_action valueFunction fuel a g = (Ok (fst ∘ fst <$> ref_action valueFunction a (w_slots g) (w_odb g)), g') ∧
    same_below (slots_restored g') ∧ executing g' = ∅ ∧
    ∀ r, ref_action valueFunction a (w_slots g) (w_odb g) = Some r → w_slots g' = r.1.2 ∧ w_odb g' = r.2.
Proof using acyclic total.
  intros [Hg Hp] Hs Hidle. cbn in Hg, Hp. pose proof (graph_ok_below _ _ _ Hs Hg) as Hg'.
  destruct (run_action_spec valueFunction acyclic n total (w_slots g) (w_odb g) graph Hg' fuel a g Hp Hidle) as (g' & Hrun & (Hinv & _ & Hex) & Hr).
  exists g'. split; [exact Hrun|]. split; [|by split]. intros s Hs'.
  rewrite (restored_below valueFunction n (w_slots g) (w_odb g) graph g' s Hinv Hs'). by apply Hs.
Qed.

Lemma calculate_spec conflicts : ∀ count graph g,
  attempt_ok (w_odb g, graph) → Forall attempt_ok conflicts → (count + length conflicts ≤ 100)%nat →
  same_below (w_slots g) → idle valueFunction n (w_slots g) (w_odb g) graph g →
  ∃ slots db g', decided slots db (last_db (w_odb g) conflicts) (calculate valueFunction fuel a conflicts count g).1 g' ∧
    (calculate valueFunction fuel a conflicts count g).2 = g' ∧ same_below slots ∧ db ∈ w_odb g :: conflicts.*1 ∧
    (conflicts = [] → slots = w_slots g).
Proof using acyclic total.
  induction conflicts as [|[db1 graph1] conflicts IH]; intros count graph g Hok Hoks Hcount Hs Hidle;
    destruct (attempt_spec graph g Hok Hs Hidle) as (g1 & Hrun & Hs1 & Hex1 & Hr); cbn [calculate];
    rewrite run_bind, run_gets; cbn beta iota; rewrite run_bind, Hrun; cbn beta iota;
    destruct (ref_action valueFunction a (w_slots g) (w_odb g)) as [[[v slots'] db']|] eqn:Href; cbn [fmap option_fmap option_map].
  - exists (w_slots g), (w_odb g), g1. unfold decided. rewrite Href. split_and!; [done|..]; try done; [by apply (Hr (v, slots', db'))..|set_solver].
  - exists (w_slots g), (w_odb g). eexists. unfold decided. rewrite Href. split_and!; [done|..|done|done|set_solver|done]; done.
  - apply Forall_cons in Hoks as [Hok1 Hoks]. cbn [length] in Hcount. unfold conflict. rewrite bool_decide_false by lia.
    unfold reset. rewrite run_bind, run_modify. cbn beta iota. rewrite run_bind, run_modify. cbn beta iota.
    set (g2 := _ <| w_odb := _ |> <| real := _ |>).
    assert (graph_ok valueFunction n (w_slots g2) db1 graph1) as Hg2 by (apply graph_ok_below; [exact Hs1|apply Hok1]).
    assert (idle valueFunction n (w_slots g2) (w_odb g2) graph1 g2) as Hidle2.
    { destruct (idle_new valueFunction acyclic n total (w_slots g2) db1 graph1 Hg2) as (Hinv & _ & _).
      split; [exact (Inv_same_core valueFunction n _ _ _ (new_Context (w_slots g2) db1 graph1) g2 eq_refl Hinv)|]. split; [done|exact Hex1]. }
    destruct (IH (S count) graph1 g2 Hok1 Hoks) as (slots & db & g' & Hdec & Hg' & Hsl & Hdb & _); [lia|exact Hs1|exact Hidle2|].
    exists slots, db, g'. split; [|split; [exact Hg'|split; [done|split; [|done]]]].
    + assert (last_db (w_odb g) ((db1, graph1) :: conflicts) = last_db (w_odb g2) conflicts) as ->; [|exact Hdec].
      unfold last_db. cbn [fmap list_fmap fst]. rewrite last_cons. by destruct (last _).
    + cbn [fmap list_fmap fst]. right. exact Hdb.
  - exists (w_slots g), (w_odb g). eexists. unfold decided. rewrite Href. split_and!; [done|..|done|done|set_solver|done]; done.
Qed.

(** C31. A function that reads and writes in any order gets, for every computed slot, the value that
    calculating it anew from what is written so far would give, although the context reuses values
    of the dependency graph and values of its own.  Up to a hundred conflicts start it again, each
    time on the slots as they were, with what is in the database then; it ends with the slots and
    the database that the writes of its last run make, and if it raises, the database of that run
    and every slot that existed before are as they were.  The computed slots raise nothing and are
    acyclic, the graph is up to date at each start, and no slot of it depends on a key of the
    database that is written. *)
Theorem writing_functions_see_their_writes db0 graph conflicts :
  Forall attempt_ok ((db0, graph) :: conflicts) → (length conflicts ≤ 100)%nat →
  ∃ slots db g', calculate valueFunction fuel a conflicts 0 (new_Context slots0 db0 graph) =
      (Ok (fst ∘ fst <$> ref_action valueFunction a slots db), g') ∧
    same_below slots ∧ db ∈ db0 :: conflicts.*1 ∧ (conflicts = [] → slots = slots0) ∧
    match ref_action valueFunction a slots db with
    | Some (_, slots', db') => db = last_db db0 conflicts ∧ w_slots g' = slots' ∧ w_odb g' = db'
    | None => w_odb g' = db ∧ same_below (w_slots g')
    end.
Proof using acyclic total.
  intros [Hok Hoks]%Forall_cons Hlen.
  destruct (calculate_spec conflicts 0 graph (new_Context slots0 db0 graph) Hok Hoks Hlen) as (slots & db & g' & [Ho Hd] & Hg' & Hs & Hdb & Hnil).
  { done. }
  { apply (idle_new valueFunction acyclic n total), Hok. }
  exists slots, db, g'. split; [rewrite <-Ho, <-Hg'; apply surjective_pairing|]. by split_and!.
Qed.
End attempts.

(** ** An example, and two reads that are not as calculating anew would give *)

Module WriteExamples.

Definition the_key : Key := KField {| objId := 7; ofiFieldId := 1; isIndexValue := false |}.

(** Slot 0 is a value plus one, slot 1 twice that, slot 2 a field. *)
Definition functions (c : nat) : program :=
  match c with
  | 0%nat => PSlot 0 (λ v, PReturn (v + 1))
  | 1%nat => PComputed 0 (λ r, match r with RValue v => PReturn (2 * v) | RExn e => PReraise e end)
  | 2%nat => POdb the_key (λ v, PReturn (default 0 v))
  | _ => PReturn 0
  end.

Definition on_slot : ComputedSlotDeps := {| subSlots := {[RSlot 0]}; dep_keys := ∅ |}.
Definition on_computed : ComputedSlotDeps := {| subSlots := {[RComputed 0]}; dep_keys := ∅ |}.
Definition on_key : ComputedSlotDeps := {| subSlots := ∅; dep_keys := {[the_key]} |}.

Definition drawn_graph : gmap nat (Result * ComputedSlotDeps) :=
  <[0%nat := (RValue 6, on_slot)]> (<[1%nat := (RValue 12, on_computed)]> ∅).

(** Read slot 1 from the graph, write slot 0 from it, and read it again; read slot 2, write its
    field, and read it again. *)
Definition handler : action :=
  AComputed 1 (λ v, ASet 0 v (AComputed 1 (λ w,
  AComputed 2 (λ x, AWrite the_key (x + w) (AComputed 2 (λ y, ANew 1 y (ASlot 1 AReturn))))))).

Definition slots_before : gmap nat Z := {[0%nat := 5]}.
Definition db_before : gmap Key Z := {[the_key := 3]}.

Lemma functions_acyclic c : reads_below (functions c) c.
Proof. destruct c as [|[|[|c]]]; cbn; try done. split; [lia|]. by intros []. Qed.
Lemma functions_quiet c : quiet 1 (functions c).
Proof. destruct c as [|[|[|c]]]; cbn; try done. split; [lia|done]. Qed.

Lemma drawn_graph_cases c r d :
  drawn_graph !! c = Some (r, d) →
  (c = 0%nat ∧ r = RValue 6 ∧ d = on_slot) ∨ (c = 1%nat ∧ r = RValue 12 ∧ d = on_computed).
Proof.
  unfold drawn_graph. intros [[<- [= <- <-]] | [_ [[<- [= <- <-]] | [_ E]]%lookup_insert_Some]]%lookup_insert_Some; [by left|by right|].
  by rewrite lookup_empty in E.
Qed.

Lemma drawn_graph_ok : graph_ok functions 1 slots_before db_before drawn_graph.
Proof.
  intros c r d [(-> & -> & ->) | (-> & -> & ->)]%drawn_graph_cases; (split; [by vm_compute|]); (split; [cbn; set_solver|]);
    split; intros x; cbn; intros E%elem_of_singleton; try done; injection E as ->; lia.
Qed.

Lemma handler_permitted : permitted 1 drawn_graph 3 handler.
Proof.
  cbn. split; [lia|]. intros _. split; [lia|]. intros _. split; [lia|]. intros x. split; [|split; [lia|]; intros; split; [lia|done]].
  intros c r d [(_ & _ & ->) | (_ & _ & ->)]%drawn_graph_cases; cbn; set_solver.
Qed.

(** At the first commit somebody else has written the field. *)
Definition one_conflict : list (gmap Key Z * gmap nat (Result * ComputedSlotDeps)) := [({[the_key := 40]}, ∅)].

Lemma attempts_permitted : Forall (attempt_ok functions 1 slots_before 3 handler) ((db_before, drawn_graph) :: one_conflict).
Proof.
  apply Forall_cons. split; [split; [exact drawn_graph_ok|exact handler_permitted]|]. apply Forall_singleton. split; [done|].
  cbn. split; [lia|]. intros _. split; [lia|]. intros _. split; [lia|]. intros x. split; [done|split; [lia|]; intros; split; [lia|done]].
Qed.

Example writing_functions_see_their_writes_witness :
  (length one_conflict ≤ 100)%nat ∧
  ∃ slots db g', calculate functions 3 handler one_conflict 0 (new_Context slots_before db_before drawn_graph) =
      (Ok (fst ∘ fst <$> ref_action functions handler slots db), g') ∧
    same_below 1 slots_before slots ∧ db ∈ db_before :: one_conflict.*1 ∧ (one_conflict = [] → slots = slots_before) ∧
    match ref_action functions handler slots db with
    | Some (_, slots', db') => db = last_db db_before one_conflict ∧ w_slots g' = slots' ∧ w_odb g' = db'
    | None => w_odb g' = db ∧ same_below 1 slots_before (w_slots g')
    end.
Proof.
  split; [cbn; lia|]. apply (writing_functions_see_their_writes functions functions_acyclic 1 functions_quiet slots_before 3 handler
    db_before drawn_graph one_conflict attempts_permitted). cbn. lia.
Defined.

Example the_second_run_counts :
  let run := calculate functions 3 handler one_conflict 0 (new_Context slots_before db_before drawn_graph) in
  run.1 = Ok (Some 66) ∧ w_odb run.2 !! the_key = Some 66 ∧ w_slots run.2 !! 0%nat = Some 12 ∧ w_slots run.2 !! 1%nat = Some 66.
Proof. split_and!; by vm_compute. Qed.

(** A computed slot of the graph that has not been read is taken over although the function has
    written a field that it read: only slots among its dependencies are looked at. *)
Definition field_graph : gmap nat (Result * ComputedSlotDeps) := {[2%nat := (RValue 3, on_key)]}.
Definition write_then_read : action := AWrite the_key 8 (AComputed 2 AReturn).

Example writes_before_the_first_read_are_missed :
  (calculate functions 3 write_then_read [] 0 (new_Context slots_before db_before field_graph)).1 = Ok (Some 3) ∧
  fst ∘ fst <$> ref_action functions write_then_read slots_before db_before = Some 8.
Proof. split; by vm_compute. Qed.

(** Slot 0 raises at one value, and slot 1 catches that. *)
Definition catching (c : nat) : program :=
  match c with
  | 0%nat => PSlot 0 (λ v, if bool_decide (v = 5) then PReturn v else PRaise)
  | 1%nat => PComputed 0 (λ r, match r with RValue v => PReturn v | RExn _ => PReturn 0 end)
  | _ => PReturn 0
  end.
Definition catching_graph : gmap nat (Result * ComputedSlotDeps) :=
  <[0%nat := (RValue 5, on_slot)]> (<[1%nat := (RValue 5, on_computed)]> ∅).
Definition set_then_read : action := ASet 0 6 (AComputed 1 AReturn).

(** Whether slot 1 is up to date is found out by reading slot 0, and the exception of slot 0 ends
    the function; without a value in the graph, slot 1 catches it. *)
Example exception_of_a_dependency_escapes :
  (calculate catching 3 set_then_read [] 0 (new_Context slots_before ∅ catching_graph)).1 = Ok None ∧
  (calculate catching 3 set_then_read [] 0 (new_Context slots_before ∅ ∅)).1 = Ok (Some 0).
Proof. split; by vm_compute. Qed.

(** After a hundred conflicts the next one ends the function, and what it wrote to slots stays. *)
Example giving_up_keeps_slots :
  let run := calculate functions 3 (ASet 0 9 (AReturn 1)) [(db_before, ∅)] 100 (new_Context slots_before db_before ∅) in
  run.1 = Ok None ∧ w_slots run.2 !! 0%nat = Some 9 ∧ slots_before !! 0%nat = Some 5.
Proof. split_and!; by vm_compute. Qed.
End WriteExamples.
