(* ===== verification/CellTree.v ===== *)
(** * The tree of cells, and the frames sent to the browser

    [Cells] (web/cells/cells.py) with the part of [Cell] (web/cells/cell.py) that it relies on.
    Recalculating a cell gives it new children; cells that were not in the tree are installed
    under a new identity and calculated in turn, others move, and those that nobody has as a child
    any more are cleaned up afterwards, when it is known that no other cell has taken them over.
    [renderMessages] brings everything up to date and produces a frame: what the browser has to
    create, update, move and discard.

    Cell objects are numbers, with [root] for the [RootCell].  What the code of a cell computes is
    an [Outcome], an argument: its data, the exception if it raised, the cells marked dirty
    meanwhile (by transactions handled in between), and its children; with each child comes the
    outcome of calculating it, which is used if the child is new.  Children change in
    [recalculate] only; the child that [withRoot] sets is among those that the recalculation of the
    root reports.  Focus, callbacks, packets and the types of cells are left out, and dependencies
    are the subject of [CellGraph]. *)

From stdpp Require Import options.
From S2P Require Import Prelude CellGraph.

Definition root : nat := 0.

Inductive Ident := PageRoot | Numbered (k : nat).
#[export] Instance Ident_eq_decision : EqDecision Ident.
Proof. solve_decision. Defined.
#[export] Instance Ident_countable : Countable Ident.
Proof.
  refine (inj_countable' (λ i, match i with PageRoot => None | Numbered k => Some k end)
    (λ o, match o with None => PageRoot | Some k => Numbered k end) _). by intros [].
Defined.

(** [exportData] *)
Record Data := { body : Z; exception : option Z }.
#[export] Instance Data_settable : Settable Data := λ r, {| body := body r; exception := exception r |}.

Record Cell := {
  in_cells : bool;                  (* [cells is not None] *)
  parent : option nat;
  knownParent : option nat;
  allParents : gset (option nat);
  level : nat;
  children : list nat;              (* [children.allChildren] *)
  identity_ : option nat;           (* [_identity] *)
  exportData : Data;
}.
#[export] Instance Cell_settable : Settable Cell := λ r,
  {| in_cells := in_cells r; parent := parent r; knownParent := knownParent r; allParents := allParents r;
     level := level r; children := children r; identity_ := identity_ r; exportData := exportData r |}.
Definition new_Cell : Cell :=
  {| in_cells := false; parent := None; knownParent := None; allParents := ∅; level := 0; children := [];
     identity_ := None; exportData := {| body := 0; exception := None |} |}.

(** A message, or a function that makes one or raises *)
Inductive Message := Plain (m : Z) | Function (m : option Z).

Record Cells := {
  heap : gmap nat Cell;
  _cells : gmap Ident nat;
  _cellsKnownChildren : gmap Ident (gset nat);
  _dirtyNodes : gset nat;
  _nodesToBroadcast : gset nat;
  _nodesToBroadcastAsMoved : gset nat;
  _nodeIdsToDiscard : gset Ident;
  _orphanedCells : gset nat;
  _movedCells : gset nat;
  _nodesKnownToChannel : gset Ident;
  _id : nat;
  _pendingOutgoingMessages : list (nat * list Message);
}.
#[export] Instance Cells_settable : Settable Cells := λ r,
  {| heap := heap r; _cells := _cells r; _cellsKnownChildren := _cellsKnownChildren r; _dirtyNodes := _dirtyNodes r;
     _nodesToBroadcast := _nodesToBroadcast r; _nodesToBroadcastAsMoved := _nodesToBroadcastAsMoved r;
     _nodeIdsToDiscard := _nodeIdsToDiscard r; _orphanedCells := _orphanedCells r; _movedCells := _movedCells r;
     _nodesKnownToChannel := _nodesKnownToChannel r; _id := _id r;
     _pendingOutgoingMessages := _pendingOutgoingMessages r |}.
Abbreviation MT := (M Cells).

Definition the_cell (t : Cells) (c : nat) : Cell := default new_Cell (heap t !! c).
Definition set_cell (c : nat) (f : Cell → Cell) : MT unit :=
  modify (λ t, t <| heap := <[c := f (the_cell t c)]> (heap t) |>).

(** ** Cells *)

Definition isActive (t : Cells) (c : nat) : bool :=
  bool_decide (c = root) ||
  in_cells (the_cell t c) && bool_decide (is_Some (identity_ (the_cell t c))) && bool_decide (is_Some (parent (the_cell t c))).
Definition isOrphaned (t : Cells) (c : nat) : bool :=
  bool_decide (c ≠ root) && in_cells (the_cell t c) && bool_decide (parent (the_cell t c) = None).
Definition isMoved (t : Cells) (c : nat) : bool :=
  bool_decide (c ≠ root) && isActive t c && bool_decide (parent (the_cell t c) ≠ knownParent (the_cell t c)).

(** [cell.identity], if it has one *)
Definition identity_of (t : Cells) (c : nat) : option Ident :=
  if bool_decide (c = root) then Some PageRoot else Numbered <$> identity_ (the_cell t c).
Definition identity (c : nat) : MT Ident :=
  o ← gets (λ t, identity_of t c);
  lift_option (UserException "Can't ask for identity as it's not part of a cells package") o.

Definition moveToParent (c newParent : nat) : MT bool :=
  if bool_decide (c = root) then raise (UserException "We can't move the RootCell")
  else
    active ← gets (λ t, isActive t newParent);
    assertM active;;
    set_cell c (λ x, x <| allParents ::= union {[Some newParent]} |> <| parent := Some newParent |>);;
    gets (λ t, bool_decide (parent (the_cell t c) ≠ knownParent (the_cell t c))).

(** The cell without a parent; [list(self.allParents)[0]] is its next one. *)
Definition without_parent (oldParent : nat) (x : Cell) : Cell :=
  let others := allParents x ∖ {[Some oldParent]} in
  x <| allParents := others |>
    <| parent ::= λ p, if bool_decide (p = Some oldParent) then default None (head (elements others)) else p |>.
Definition removeParent (c oldParent : nat) : MT unit :=
  if bool_decide (c = root) then raise (UserException "We can't move the RootCell")
  else set_cell c (without_parent oldParent).

Definition onError (c : nat) (e : Z) : MT unit := set_cell c (λ x, x <| exportData ::= λ d, d <| exception := Some e |> |>).

Definition install (c : nat) (p : option nat) (k : nat) : MT unit :=
  outside ← gets (λ t, negb (in_cells (the_cell t c)));
  assertM outside;;
  l ← gets (λ t, match p with Some p => S (level (the_cell t p)) | None => 0%nat end);
  set_cell c (λ x, x <| in_cells := true |> <| parent := p |> <| knownParent := p |> <| allParents ::= union {[p]} |>
                     <| level := l |> <| identity_ := Some k |>).
Definition uninstall (c : nat) : MT unit :=
  set_cell c (λ x, x <| in_cells := false |> <| identity_ := None |> <| parent := None |>).

(** [isAncestorOf]; [None]: the loop is still running after that many steps *)
Fixpoint isAncestorOf (fuel : nat) (t : Cells) (c : nat) (child : option nat) : option bool :=
  match fuel, child with
  | _, None => Some false
  | O, Some _ => None
  | S fuel, Some x => if bool_decide (x = c) then Some true else isAncestorOf fuel t c (parent (the_cell t x))
  end.

Definition two_parents : Z := 2.
Definition onMoved (c : nat) : MT unit :=
  p ← gets (λ t, parent (the_cell t c));
  assertM (bool_decide (is_Some p));;
  parents ← gets (λ t, allParents (the_cell t c));
  whenM (bool_decide (1 < size parents)%nat)
    (forM (elements parents) (λ p, p ← lift_option AttributeError p; onError p two_parents));;
  above ← gets (λ t, isAncestorOf (S (S (_id t))) t c p);
  above ← lift_option RecursionError above;
  if (above : bool) then raise (UserException "Somehow a cell is an ancestor of its parent which would create a cycle.")
  else set_cell c (λ x, x <| knownParent := p |>).

(** ** The tree *)

Definition markDirty (c : nat) : MT unit :=
  modify (λ t, if bool_decide (is_Some (identity_ (the_cell t c))) && in_cells (the_cell t c)
               then t <| _dirtyNodes ::= union {[c]} |> else t).

Definition markToBroadcast (c : nat) : MT unit :=
  inside ← gets (λ t, in_cells (the_cell t c));
  assertM inside;;
  modify (λ t, t <| _nodesToBroadcast ::= union {[c]} |>).

Definition _newID : MT nat :=
  modify (λ t, t <| _id ::= S |>);;
  gets _id.

Definition _addCell (c : nat) (p : option nat) : MT unit :=
  inside ← gets (λ t, in_cells (the_cell t c));
  if (inside : bool) then raise (UserException "Cell is already installed")
  else
    k ← _newID;
    install c p k;;
    i ← identity c;
    t ← gets (λ t, t);
    assertM (bool_decide (_cellsKnownChildren t !! i = None));;
    modify (λ t, t <| _cellsKnownChildren ::= <[i := ∅]> |>);;
    assertM (bool_decide (_cells t !! i = None));;
    modify (λ t, t <| _cells ::= <[i := c]> |>).

(** What the code of a cell computes *)
#[local] Set Warnings "-register-all".
Inductive Outcome :=
  | Recalculated (data : Z) (raised : option Z) (dirtied : list nat) (new : list (nat * Outcome)).

(** [depContext.calculate(recalcNode)] and what follows an exception: [prepareForCalculation] takes
    the old exception away. *)
Definition run_code (c : nat) (data : Z) (raised : option Z) (dirtied new : list nat) : MT unit :=
  set_cell c (λ x, x <| exportData := {| body := data; exception := None |} |> <| children := new |>);;
  forM dirtied markDirty;;
  match raised with Some e => onError c e | None => mret tt end.

(** ... and [updateDependencies], which takes the cell off those that are dirty, also if it was
    marked by its own code. *)
Definition calculated (c : nat) (data : Z) (raised : option Z) (dirtied new : list nat) : MT unit :=
  run_code c data raised dirtied new;;
  modify (λ t, t <| _dirtyNodes ::= λ s, s ∖ {[c]} |>).

(** A child that the cell no longer has *)
Definition drop_child (c child : nat) : MT unit :=
  active ← gets (λ t, isActive t child);
  assertM active;;
  removeParent child c;;
  orphaned ← gets (λ t, isOrphaned t child);
  whenM orphaned (modify (λ t, t <| _orphanedCells ::= union {[child]} |>)).

(** A child that comes from somewhere else in the tree *)
Definition adopt_child (c child : nat) : MT unit :=
  moved ← moveToParent child c;
  if (moved : bool) then
    modify (λ t, t <| _movedCells ::= union {[child]} |> <| _orphanedCells ::= λ s, s ∖ {[child]} |>)
  else
    modify (λ t, t <| _movedCells ::= λ s, s ∖ {[child]} |> <| _orphanedCells ::= λ s, s ∖ {[child]} |>).

(** The children that the cell had not before are those outside of [seen]. *)
Section new_children.
Context (recalculate : Outcome → nat → MT unit).
Definition new_child (c child : nat) (o : Outcome) : MT unit :=
  inside ← gets (λ t, isActive t child || isOrphaned t child);
  if (inside : bool) then adopt_child c child
  else
    _addCell child (Some c);;
    recalculate o child.
Fixpoint new_children (c : nat) (seen : gset nat) (new : list (nat * Outcome)) : MT unit :=
  match new with
  | [] => mret tt
  | (child, o) :: new =>
      (if bool_decide (child ∈ seen) then mret tt else new_child c child o);;
      new_children c ({[child]} ∪ seen) new
  end.
End new_children.

Fixpoint _recalculateCell (o : Outcome) (c : nat) : MT unit :=
  match o with
  | Recalculated data raised dirtied new =>
      active ← gets (λ t, isActive t c);
      assertM active;;
      i ← identity c;
      origChildren ← gets (λ t, default ∅ (_cellsKnownChildren t !! i));
      calculated c data raised dirtied new.*1;;
      markToBroadcast c;;
      let newChildren : gset nat := list_to_set new.*1 in
      forM (elements (origChildren ∖ newChildren)) (drop_child c);;
      new_children _recalculateCell c origChildren new;;
      modify (λ t, t <| _cellsKnownChildren ::= <[i := newChildren]> |>)
  end.

(** The fuel bounds the depth of the tree: it is more than the number of identities given out. *)
Fixpoint _cellOutOfScope (fuel : nat) (c : nat) : MT unit :=
  match fuel with
  | O => raise RecursionError
  | S fuel =>
      inside ← gets (λ t, in_cells (the_cell t c));
      assertM inside;;
      below ← gets (λ t, children (the_cell t c));
      forM below (λ x,
        mine ← gets (λ t, bool_decide (parent (the_cell t x) = Some c));
        whenM mine (_cellOutOfScope fuel x);;
        removeParent x c);;
      i ← identity c;
      modify (λ t, if bool_decide (i ∈ _nodesKnownToChannel t) then t <| _nodeIdsToDiscard ::= union {[i]} |> else t);;
      modify (λ t, t <| _nodesToBroadcast ::= λ s, s ∖ {[c]} |> <| _nodesToBroadcastAsMoved ::= λ s, s ∖ {[c]} |>);;
      t ← gets (λ t, t);
      _ ← lift_option KeyError (_cells t !! i);
      modify (λ t, t <| _cells ::= delete i |>);;
      _ ← lift_option KeyError (_cellsKnownChildren t !! i);
      modify (λ t, t <| _cellsKnownChildren ::= delete i |>);;
      uninstall c
  end.

(** Each turn of the loop empties the set, unless something is added meanwhile. *)
Fixpoint _cleanUpAllOrphans (fuel : nat) : MT unit :=
  orphans ← gets _orphanedCells;
  if bool_decide (orphans = ∅) then mret tt
  else
    match fuel with
    | O => raise RecursionError
    | S fuel =>
        forM (elements orphans) (λ c,
          orphaned ← gets (λ t, isOrphaned t c);
          assertM orphaned;;
          modify (λ t, t <| _orphanedCells ::= λ s, s ∖ {[c]} |>);;
          n ← gets _id;
          _cellOutOfScope (S (S n)) c);;
        _cleanUpAllOrphans fuel
    end.

Definition move_one (c : nat) : MT unit :=
  t ← gets (λ t, t);
  assertM (negb (isOrphaned t c));;
  assertM (isActive t c);;
  assertM (isMoved t c);;
  modify (λ t, t <| _movedCells ::= λ s, s ∖ {[c]} |>);;
  onMoved c;;
  modify (λ t, t <| _nodesToBroadcastAsMoved ::= union {[c]} |>).

Fixpoint _updateAllMovedCells (fuel : nat) (didAnything : bool) : MT bool :=
  moved ← gets _movedCells;
  if bool_decide (moved = ∅) then mret didAnything
  else
    match fuel with
    | O => raise RecursionError
    | S fuel => forM (elements moved) move_one;; _updateAllMovedCells fuel true
    end.

(** ** Recalculating what is dirty *)

(** One turn of the loop of [_updateAllDirtyCells]: the dirty cells by level, and each that is
    still active when it comes to it. *)
Definition level_le (t : Cells) : relation nat := λ x y, (level (the_cell t x) ≤ level (the_cell t y))%nat.
#[export] Instance level_le_dec t : RelDecision (level_le t).
Proof. intros x y. unfold level_le. apply _. Defined.
Definition by_level (t : Cells) (nodes : list nat) : list nat := merge_sort (level_le t) nodes.

Definition dirty_round (outcome : Cells → nat → Outcome) : MT bool :=
  nodes ← gets (λ t, by_level t (filter (λ c, isActive t c = true) (elements (_dirtyNodes t))));
  foldM nodes false (λ c didAnything,
    active ← gets (λ t, isActive t c);
    if (active : bool) then
      o ← gets (λ t, outcome t c);
      _recalculateCell o c;;
      modify (λ t, t <| _dirtyNodes ::= λ s, s ∖ {[c]} |>);;
      mret true
    else mret didAnything).

(** A cell whose code computes what it did before *)
Definition keep (t : Cells) (c : nat) : Outcome :=
  let x := the_cell t c in
  Recalculated (body (exportData x)) (exception (exportData x)) [] ((λ y, (y, Recalculated 0 None [] [])) <$> children x).

(** The loop of [_updateAllDirtyCells].  [rounds] says what the code of each cell computes in each
    turn; after them, as long as anything is dirty, cells compute what they did before, so that one
    more turn does something. *)
Fixpoint dirty_rounds (rounds : list (nat → Outcome)) : MT unit :=
  match rounds with
  | [] => _ ← dirty_round keep; modify (λ t, t <| _dirtyNodes := ∅ |>)
  | round :: rounds =>
      didAnything ← dirty_round (λ _, round);
      if (didAnything : bool) then dirty_rounds rounds else modify (λ t, t <| _dirtyNodes := ∅ |>)
  end.
Definition _updateAllDirtyCells (rounds : list (nat → Outcome)) : MT unit :=
  none ← gets (λ t, bool_decide (_dirtyNodes t = ∅));
  if (none : bool) then mret tt else dirty_rounds rounds.

(** One turn of [_recalculateAll]: [_handleAllTransactions] marks cells, their code computes what
    [rounds] says, and [more] tells if reactors or callbacks ran. *)
Record Pass := { marked : list nat; rounds : list (nat → Outcome); more : bool }.

Definition update_dirty (p : Pass) : MT unit :=
  forM (marked p) markDirty;;
  _updateAllDirtyCells (rounds p).
Definition clean_and_move : MT bool :=
  n ← gets (λ t, size (_orphanedCells t));
  _cleanUpAllOrphans n;;
  n ← gets (λ t, size (_movedCells t));
  _updateAllMovedCells n false.
Definition one_pass (p : Pass) : MT bool :=
  update_dirty p;;
  clean_and_move.

(** After [passes], nothing is marked any more. *)
Definition quiet_pass : Pass := {| marked := []; rounds := []; more := false |}.
Fixpoint _recalculateAll (passes : list Pass) : MT unit :=
  match passes with
  | [] => _ ← one_pass quiet_pass; mret tt
  | p :: passes =>
      hadMoves ← one_pass p;
      if hadMoves || more p then _recalculateAll passes else mret tt
  end.

(** ** Frames *)

(** A node as the frame describes it; the parent is sent with new nodes only. *)
Record Node := { extraData : Data; node_children : list Ident; node_parent : option Ident }.

Record Frame := {
  nodesToDiscard : list Ident;
  nodesMoved : gmap Ident Ident;
  nodesUpdated : gmap Ident Node;
  nodesCreated : gmap Ident Node;
  messages : gmap Ident (list Z);
}.

(** The first loop *)
Definition check_parent (node : nat) : MT unit :=
  t ← gets (λ t, t);
  match parent (the_cell t node) with
  | None => assertM (bool_decide (node = root))
  | Some p =>
      if bool_decide (p ∈ _nodesToBroadcast t) then mret tt
      else i ← identity p; assertM (bool_decide (i ∈ _nodesKnownToChannel t))
  end.

(** [nodesMoved] *)
Definition moved_entry (node : nat) : MT (Ident * Ident) :=
  i ← identity node;
  p ← gets (λ t, parent (the_cell t node));
  p ← lift_option AttributeError p;
  j ← identity p;
  mret (i, j).

(** The parent is left out of an update. *)
Definition broadcast_entry (node : nat) : MT (bool * (Ident * Node)) :=
  i ← identity node;
  x ← gets (λ t, the_cell t node);
  known ← gets (λ t, bool_decide (i ∈ _nodesKnownToChannel t));
  whenM (negb known) (modify (λ t, t <| _nodesKnownToChannel ::= union {[i]} |>));;
  below ← mapM (children x) identity;
  p ← (if (known : bool) then mret None
       else match parent x with None => mret None | Some p => j ← identity p; mret (Some j) end);
  forM (children x) (λ child,
    i ← identity child;
    t ← gets (λ t, t);
    assertM (bool_decide (i ∈ _nodesKnownToChannel t) || bool_decide (child ∈ _nodesToBroadcast t)));;
  mret (known, (i, {| extraData := exportData x; node_children := below; node_parent := p |})).

Definition discard_entry (updated created : gmap Ident Node) (i : Ident) : MT unit :=
  t ← gets (λ t, t);
  assertM (bool_decide (i ∈ _nodesKnownToChannel t));;
  assertM (bool_decide (updated !! i = None));;
  assertM (bool_decide (created !! i = None));;
  modify (λ t, t <| _nodesKnownToChannel ::= λ s, s ∖ {[i]} |>).

Definition unpackMessage (m : Message) : option Z := match m with Plain m => Some m | Function m => m end.
Definition message_entries (t : Cells) : list (Ident * list Z) :=
  omap (λ '((c, ms) : nat * list Message), if isActive t c then
      match identity_of t c with
      | Some i => if bool_decide (i ∈ _nodesKnownToChannel t) then Some (i, omap unpackMessage ms) else None
      | None => None
      end
    else None) (_pendingOutgoingMessages t).

Definition renderMessages (passes : list Pass) : MT Frame :=
  _recalculateAll passes;;
  nodes ← gets (λ t, elements (_nodesToBroadcast t));
  forM nodes check_parent;;
  nodesMoved ← gets (λ t, elements (_nodesToBroadcastAsMoved t));
  nodesMoved ← mapM nodesMoved moved_entry;
  entries ← mapM nodes broadcast_entry;
  let updated := list_to_map (filter (λ e, e.1 = true) entries).*2 in
  let created := list_to_map (filter (λ e, e.1 = false) entries).*2 in
  discarded ← gets (λ t, elements (_nodeIdsToDiscard t));
  forM discarded (discard_entry updated created);;
  messages ← gets message_entries;
  modify (λ t, t <| _pendingOutgoingMessages := [] |> <| _nodesToBroadcast := ∅ |> <| _nodesToBroadcastAsMoved := ∅ |>
                 <| _nodeIdsToDiscard := ∅ |>);;
  mret {| nodesToDiscard := discarded; nodesMoved := list_to_map nodesMoved; nodesUpdated := updated;
          nodesCreated := created; messages := list_to_map messages |}.

(** [_scheduleMessages] *)
Definition schedule_message (pending : list (nat * list Message)) (m : nat * Message) : list (nat * list Message) :=
  if bool_decide (m.1 ∈ pending.*1) then (λ '(c, ms), if bool_decide (c = m.1) then (c, ms ++ [m.2]) else (c, ms)) <$> pending
  else pending ++ [(m.1, [m.2])].
Definition _scheduleMessages (ms : list (nat * Message)) : MT unit :=
  modify (λ t, t <| _pendingOutgoingMessages ::= λ pending, foldl schedule_message pending ms |>).

(** [Cells()] *)
Definition blank_Cells : Cells :=
  {| heap := ∅; _cells := ∅; _cellsKnownChildren := ∅; _dirtyNodes := ∅; _nodesToBroadcast := ∅;
     _nodesToBroadcastAsMoved := ∅; _nodeIdsToDiscard := ∅; _orphanedCells := ∅; _movedCells := ∅;
     _nodesKnownToChannel := ∅; _id := 1; _pendingOutgoingMessages := [] |}.
Definition Cells_init : MT unit := _addCell root None.
(** [Cells().withRoot(...)] *)
Definition withRoot : MT unit := Cells_init;; markDirty root.

(** A session: for each frame the messages that were scheduled before, and the turns of
    [_recalculateAll], of which there is at least one. *)
Record FrameInput := { scheduled : list (nat * Message); first_pass : Pass; further_passes : list Pass }.
Definition one_frame (i : FrameInput) : MT Frame :=
  _scheduleMessages (scheduled i);;
  renderMessages (first_pass i :: further_passes i).
Definition session (inputs : list FrameInput) : MT (list Frame) := withRoot;; mapM inputs one_frame.

(** ** What is promised

    The browser ([handleFrame] of web/content/src/CellHandler.js) keeps the nodes that are active.
    A frame that it cannot use is [None]: a node is created twice or updated, discarded or moved
    without being there; a new node is below no node of the frame; a child does not exist; a message is for a node that is not there. *)
Definition update_node (new : option Node) (old : option Node) : option Node :=
  match new, old with
  | Some new, Some old => Some {| extraData := extraData new; node_children := node_children new; node_parent := node_parent old |}
  | _, old => old
  end.
Definition move_node (new : option Ident) (old : option Node) : option Node :=
  match new, old with
  | Some p, Some old => Some {| extraData := extraData old; node_children := node_children old; node_parent := Some p |}
  | _, old => old
  end.

Definition usable (f : Frame) (active : gmap Ident Node) : Prop :=
  map_Forall (λ i nd, active !! i = None ∧
    match node_parent nd with None => i = PageRoot | Some p => is_Some (nodesCreated f !! p) ∨ is_Some (nodesUpdated f !! p) end) (nodesCreated f) ∧
  map_Forall (λ i _, is_Some (active !! i)) (nodesUpdated f) ∧
  Forall (λ i, is_Some (active !! i)) (nodesToDiscard f) ∧
  map_Forall (λ _ nd, Forall (λ i, is_Some (active !! i) ∨ is_Some (nodesCreated f !! i)) (node_children nd)) (nodesCreated f ∪ nodesUpdated f).
#[export] Instance usable_dec f active : Decision (usable f active).
Proof.
  unfold usable. repeat apply and_dec; try apply _. apply map_Forall_dec. intros i nd.
  apply and_dec; [apply _|]. destruct (node_parent nd); apply _.
Defined.

Definition page_before_moves (f : Frame) (active : gmap Ident Node) : gmap Ident Node :=
  foldr delete (nodesCreated f ∪ merge update_node (nodesUpdated f) active) (nodesToDiscard f).
Definition handleFrame (f : Frame) (active : gmap Ident Node) : option (gmap Ident Node) :=
  if bool_decide (usable f active) then
    let active := page_before_moves f active in
    if bool_decide (map_Forall (λ i p, is_Some (active !! i) ∧ is_Some (active !! p)) (nodesMoved f) ∧
                    map_Forall (λ i _, is_Some (active !! i)) (messages f))
    then Some (merge move_node (nodesMoved f) active)
    else None
  else None.

Fixpoint handleFrames (fs : list Frame) (active : gmap Ident Node) : option (gmap Ident Node) :=
  match fs with
  | [] => Some active
  | f :: fs => handleFrame f active ≫= handleFrames fs
  end.

(** The tree as a browser should show it *)
Definition node_of (t : Cells) (c : nat) : Node :=
  {| extraData := exportData (the_cell t c);
     node_children := (λ y, default PageRoot (identity_of t y)) <$> children (the_cell t c);
     node_parent := parent (the_cell t c) ≫= identity_of t |}.
Definition picture (t : Cells) : gmap Ident Node := node_of t <$> _cells t.

(** ** What the code of cells has to respect

    When the dirty cells have been calculated: no cell is a child of two, nor below itself; and a
    cell that was moved is still in the tree, under another parent than it was before. *)
Fixpoint top_of (fuel : nat) (t : Cells) (c : nat) : option nat :=
  match fuel with
  | O => None
  | S fuel => match parent (the_cell t c) with None => Some c | Some p => top_of fuel t p end
  end.
Definition top (t : Cells) (c : nat) : option nat := top_of (S (_id t)) t c.
Definition installed (t : Cells) : list nat := (map_to_list (_cells t)).*2.

Definition settled (t : Cells) : Prop :=
  Forall (λ c, is_Some (top t c) ∧
    (c ≠ root → (size (allParents (the_cell t c)) ≤ 1)%nat ∧
       (top t c = Some root → parent (the_cell t c) ≠ knownParent (the_cell t c) → c ∈ _movedCells t))) (installed t) ∧
  Forall (λ c, c ≠ root ∧ top t c = Some root ∧ parent (the_cell t c) ≠ knownParent (the_cell t c)) (elements (_movedCells t)).
#[export] Instance settled_dec t : Decision (settled t).
Proof. unfold settled. apply _. Defined.

Fixpoint settles (passes : list Pass) (t : Cells) : Prop :=
  match passes with
  | [] => True
  | p :: passes =>
      settled (update_dirty p t).2 ∧
      match one_pass p t with
      | (Ok hadMoves, t') => hadMoves || CellTree.more p = true → settles passes t'
      | (Raise _, _) => True
      end
  end.

(** The root is nobody's child, and no cell its own. *)
Fixpoint outcome_ok (c : nat) (o : Outcome) : Prop :=
  match o with
  | Recalculated _ _ _ new =>
      (fix ok l := match l with [] => True | (x, o) :: l => (x ≠ root ∧ x ≠ c) ∧ outcome_ok x o ∧ ok l end) new
  end.
Definition pass_ok (p : Pass) : Prop := Forall (λ round, ∀ c, outcome_ok c (round c)) (rounds p).
Definition input_ok (i : FrameInput) : Prop := pass_ok (first_pass i) ∧ Forall pass_ok (further_passes i).

Fixpoint frames_settle (inputs : list FrameInput) (t : Cells) : Prop :=
  match inputs with
  | [] => True
  | i :: inputs =>
      let t := (_scheduleMessages (scheduled i) t).2 in
      settles (first_pass i :: further_passes i) t ∧
      match renderMessages (first_pass i :: further_passes i) t with
      | (Ok _, t') => frames_settle inputs t'
      | (Raise _, _) => True
      end
  end.
Definition disciplined (inputs : list FrameInput) : Prop :=
  Forall input_ok inputs ∧ frames_settle inputs (withRoot blank_Cells).2.
