(* ===== verification/CellTreeInvariant.v ===== *)
(** * The invariant of the tree of cells

    What holds of the tree and of what was sent, also while cells are being calculated ([Inv]), and
    what the calculation of a cell leaves alone ([grows]). *)

From Stdlib Require Import Lia.
From stdpp Require Import options.
From S2P Require Import Prelude CellGraph CellTree.

Definition inst (t : Cells) (c : nat) : Prop := in_cells (the_cell t c) = true.
Abbreviation parents t c := (allParents (the_cell t c)).
Abbreviation par t c := (parent (the_cell t c)).

(** The cells of [F] are being calculated: the children they are known to have are not yet those
    that they will have. *)
Record Inv (F : gset nat) (t : Cells) : Prop := {
  v_root : inst t root ∧ par t root = None ∧ ∀ q, Some q ∉ parents t root;
  v_ident : ∀ c, inst t c ↔ is_Some (identity_ (the_cell t c));
  v_range : ∀ c k, identity_ (the_cell t c) = Some k → (k ≤ _id t)%nat;
  v_inj : ∀ c c' k, identity_ (the_cell t c) = Some k → identity_ (the_cell t c') = Some k → c = c';
  v_cells : ∀ i c, _cells t !! i = Some c ↔ inst t c ∧ identity_of t c = Some i;
  v_dom : ∀ i, is_Some (_cellsKnownChildren t !! i) ↔ is_Some (_cells t !! i);
  v_children : ∀ c i, inst t c → c ∉ F → identity_of t c = Some i →
    _cellsKnownChildren t !! i = Some (list_to_set (children (the_cell t c)));
  v_below : ∀ c, inst t c → c ∉ F → ∀ x, x ∈ children (the_cell t c) ↔ Some c ∈ parents t x;
  v_parents : ∀ c p, c ≠ root → p ∈ parents t c → ∃ q, p = Some q ∧ inst t q ∧ inst t c;
  v_parent : ∀ c, c ≠ root → match par t c with None => inst t c → parents t c = ∅ | Some p => Some p ∈ parents t c end;
  v_self : ∀ c, Some c ∉ parents t c;
  v_orphans : ∀ c, c ∈ _orphanedCells t ↔ c ≠ root ∧ inst t c ∧ par t c = None;
  v_channel : ∀ i, i ∈ _nodesKnownToChannel t → (i ∈ _nodeIdsToDiscard t ↔ _cells t !! i = None);
  v_discard : _nodeIdsToDiscard t ⊆ _nodesKnownToChannel t;
  v_sent : ∀ k, Numbered k ∈ _nodesKnownToChannel t → (k ≤ _id t)%nat;
  v_broadcast : ∀ c, c ∈ _nodesToBroadcast t → inst t c;
  v_shown : ∀ c i, inst t c → c ≠ root → c ∉ F → identity_of t c = Some i → c ∈ _nodesToBroadcast t ∨ i ∈ _nodesKnownToChannel t;
  v_asmoved : ∀ c, c ∈ _nodesToBroadcastAsMoved t → c ≠ root ∧ inst t c;
  v_new : ∀ c i p, inst t c → c ≠ root → identity_of t c = Some i → i ∉ _nodesKnownToChannel t →
    Some p ∈ parents t c → p ∈ _nodesToBroadcast t;
}.

(** ** Changing one cell *)

Definition heap_set (c : nat) (f : Cell → Cell) (t : Cells) : Cells := t <| heap := <[c := f (the_cell t c)]> (heap t) |>.

Lemma the_cell_set c f t x : the_cell (heap_set c f t) x = if decide (x = c) then f (the_cell t c) else the_cell t x.
Proof.
  unfold the_cell, heap_set. cbn. destruct (decide (x = c)) as [-> | Hne]; [by rewrite lookup_insert_eq|by rewrite lookup_insert_ne].
Qed.

Lemma the_cell_heap t t' x : heap t' = heap t → the_cell t' x = the_cell t x.
Proof. unfold the_cell. by intros ->. Qed.

Lemma identity_of_eq t t' c : identity_ (the_cell t' c) = identity_ (the_cell t c) → identity_of t' c = identity_of t c.
Proof. unfold identity_of. by intros ->. Qed.

Lemma Inv_mono F F' t : F ⊆ F' → Inv F t → Inv F' t.
Proof. intros HF []. split; auto. Qed.

Lemma inst_ident F t c : Inv F t → inst t c → ∃ i, identity_of t c = Some i ∧ _cells t !! i = Some c.
Proof.
  intros Hinv Hc. destruct (proj1 (v_ident _ _ Hinv c) Hc) as [k Hk].
  assert (∃ i, identity_of t c = Some i) as [i Hi]; [|exists i; split; [done|by apply (v_cells _ _ Hinv)]].
  unfold identity_of. case_bool_decide; [by eexists|]. rewrite Hk. by eexists.
Qed.

Lemma ident_inj F t c c' i : Inv F t → inst t c → inst t c' → identity_of t c = Some i → identity_of t c' = Some i → c = c'.
Proof.
  intros Hinv Hc Hc' Hi Hi'. assert (_cells t !! i = Some c) as E by (by apply (v_cells _ _ Hinv)).
  assert (_cells t !! i = Some c') as E' by (by apply (v_cells _ _ Hinv)). congruence.
Qed.

(** A cell without an identity is not installed. *)
Lemma ident_inst F t c i : Inv F t → identity_of t c = Some i → inst t c.
Proof.
  intros Hinv Hi. unfold identity_of in Hi. case_bool_decide as Hc; [subst; apply (v_root _ _ Hinv)|].
  apply (v_ident _ _ Hinv). destruct (identity_ (the_cell t c)); [by eexists|done].
Qed.

(** Changing the parents of a cell, with the set of orphans. *)
Record reparents (F : gset nat) (x : nat) (p : option nat) (ps : gset (option nat)) (t t' : Cells) : Prop := {
  rp_cell : the_cell t' x = the_cell t x <| parent := p |> <| allParents := ps |>;
  rp_other : ∀ y, y ≠ x → the_cell t' y = the_cell t y;
  rp_cells : _cells t' = _cells t;
  rp_known : _cellsKnownChildren t' = _cellsKnownChildren t;
  rp_broadcast : _nodesToBroadcast t' = _nodesToBroadcast t;
  rp_asmoved : _nodesToBroadcastAsMoved t' = _nodesToBroadcastAsMoved t;
  rp_discard : _nodeIdsToDiscard t' = _nodeIdsToDiscard t;
  rp_channel : _nodesKnownToChannel t' = _nodesKnownToChannel t;
  rp_id : _id t' = _id t;
  rp_dirty : _dirtyNodes t' = _dirtyNodes t;
  rp_orphans : _orphanedCells t' = (match p with None => _orphanedCells t ∪ {[x]} | Some _ => _orphanedCells t ∖ {[x]} end);
}.

Section reparents.
Context {F : gset nat} {x : nat} {p : option nat} {ps : gset (option nat)} {t t' : Cells} (Hr : reparents F x p ps t t').

Lemma rp_same y : in_cells (the_cell t' y) = in_cells (the_cell t y) ∧ identity_ (the_cell t' y) = identity_ (the_cell t y) ∧
  children (the_cell t' y) = children (the_cell t y) ∧ exportData (the_cell t' y) = exportData (the_cell t y) ∧
  knownParent (the_cell t' y) = knownParent (the_cell t y).
Proof using Hr. destruct (decide (y = x)) as [-> | Hne]; [by rewrite (rp_cell _ _ _ _ _ _ Hr)|by rewrite (rp_other _ _ _ _ _ _ Hr)]. Qed.
Lemma rp_inst y : inst t' y ↔ inst t y.
Proof using Hr. unfold inst. by destruct (rp_same y) as [-> _]. Qed.
Lemma rp_ident y : identity_of t' y = identity_of t y.
Proof using Hr. apply identity_of_eq. by destruct (rp_same y) as (_ & -> & _). Qed.
Lemma rp_parents y : parents t' y = if decide (y = x) then ps else parents t y.
Proof using Hr.
  destruct (decide (y = x)) as [-> | Hne]; [by rewrite (rp_cell _ _ _ _ _ _ Hr)|by rewrite (rp_other _ _ _ _ _ _ Hr)].
Qed.
Lemma rp_par y : par t' y = if decide (y = x) then p else par t y.
Proof using Hr.
  destruct (decide (y = x)) as [-> | Hne]; [by rewrite (rp_cell _ _ _ _ _ _ Hr)|by rewrite (rp_other _ _ _ _ _ _ Hr)].
Qed.

Lemma Inv_reparents :
  Inv F t → x ≠ root → inst t x →
  (∀ q, q ∈ ps → ∃ q', q = Some q' ∧ inst t q') →
  match p with None => ps = ∅ | Some q => Some q ∈ ps end →
  (∀ c, inst t c → c ∉ F → Some c ∈ ps ↔ Some c ∈ parents t x) →
  (∀ i q, identity_of t x = Some i → i ∉ _nodesKnownToChannel t → Some q ∈ ps → q ∈ _nodesToBroadcast t) →
  Some x ∉ ps → Inv F t'.
Proof using Hr.
  intros [] Hx Hix Hps Hp Hbelow Hnew Hself. destruct Hr as [Hrc Hro H1 H2 H3 H4 H5 H6 H7 H8 H9].
  split; rewrite ?H1, ?H2, ?H3, ?H4, ?H5, ?H6, ?H7; try done.
  - rewrite rp_inst, rp_par, rp_parents, !decide_False by done. done.
  - intros c. rewrite rp_inst. by destruct (rp_same c) as (_ & -> & _).
  - intros c k. destruct (rp_same c) as (_ & -> & _). by apply v_range0.
  - intros c c' k. destruct (rp_same c) as (_ & -> & _), (rp_same c') as (_ & -> & _). by apply v_inj0.
  - intros i c. by rewrite rp_inst, rp_ident.
  - intros c i. rewrite rp_inst, rp_ident. destruct (rp_same c) as (_ & _ & -> & _). by apply v_children0.
  - intros c. rewrite rp_inst. intros Hc HF y. destruct (rp_same c) as (_ & _ & -> & _). rewrite rp_parents.
    destruct (decide (y = x)) as [-> | Hne]; [|by apply v_below0]. rewrite Hbelow by done. by apply v_below0.
  - intros c q Hc. rewrite rp_parents. setoid_rewrite rp_inst. destruct (decide (c = x)) as [-> | Hne]; [|by apply v_parents0].
    intros Hq. destruct (Hps q Hq) as (q' & -> & Hq'). by exists q'.
  - intros c Hc. rewrite rp_par, rp_parents. destruct (decide (c = x)) as [-> | Hne].
    + by destruct p.
    + specialize (v_parent0 c Hc). destruct (par t c); [done|]. by rewrite rp_inst.
  - intros c. rewrite rp_parents. by destruct (decide (c = x)) as [-> | ].
  - intros c. rewrite H9, rp_inst, rp_par. destruct (decide (c = x)) as [-> | Hne]; destruct p; set_solver.
  - intros c. rewrite rp_inst. by apply v_broadcast0.
  - intros c i. rewrite rp_inst, rp_ident. by apply v_shown0.
  - intros c. rewrite rp_inst. by apply v_asmoved0.
  - intros c i q. rewrite rp_inst, rp_ident, rp_parents. destruct (decide (c = x)) as [-> | Hne]; [|by apply v_new0].
    intros _ _. apply Hnew.
Qed.
End reparents.

(** The part of the state that the invariant speaks of *)
Definition core (t : Cells) :=
  (heap t, _cells t, _cellsKnownChildren t, _nodesToBroadcast t, _nodesToBroadcastAsMoved t, _nodeIdsToDiscard t,
   _orphanedCells t, _nodesKnownToChannel t, _id t).

Lemma Inv_core F t t' : core t' = core t → Inv F t → Inv F t'.
Proof. destruct t, t'. unfold core. cbn. intros [= -> -> -> -> -> -> -> -> ->] []. split; assumption. Qed.

(** Changing what a cell shows *)
Section showing.
Context (c : nat) (f : Cell → Cell) (t : Cells).
Context (Hsame : ∀ x, in_cells (f x) = in_cells x ∧ identity_ (f x) = identity_ x ∧ parent (f x) = parent x ∧
  allParents (f x) = allParents x ∧ knownParent (f x) = knownParent x).

Lemma show_same y : in_cells (the_cell (heap_set c f t) y) = in_cells (the_cell t y) ∧
  identity_ (the_cell (heap_set c f t) y) = identity_ (the_cell t y) ∧ par (heap_set c f t) y = par t y ∧
  parents (heap_set c f t) y = parents t y ∧ knownParent (the_cell (heap_set c f t) y) = knownParent (the_cell t y).
Proof using Hsame. rewrite the_cell_set. destruct (decide (y = c)) as [-> | ]; [apply Hsame|done]. Qed.

Lemma Inv_show F : Inv F t → c ∈ F → Inv F (heap_set c f t).
Proof using Hsame.
  intros [] HF. assert (∀ y, inst (heap_set c f t) y ↔ inst t y) as Hi.
  { intros y. unfold inst. by destruct (show_same y) as (-> & _). }
  assert (∀ y, identity_of (heap_set c f t) y = identity_of t y) as Hd.
  { intros y. apply identity_of_eq. apply show_same. }
  assert (∀ y, y ∉ F → the_cell (heap_set c f t) y = the_cell t y) as Ho.
  { intros y Hy. rewrite the_cell_set, decide_False by set_solver. done. }
  assert (∀ y, par (heap_set c f t) y = par t y ∧ parents (heap_set c f t) y = parents t y) as Hp by (intros y; split; apply show_same).
  split; cbn [heap_set set_field _cells _cellsKnownChildren _nodesToBroadcast _nodesToBroadcastAsMoved _nodeIdsToDiscard
    _orphanedCells _nodesKnownToChannel _id]; try done.
  - rewrite Hi. by destruct (Hp root) as [-> ->].
  - intros y. rewrite Hi. by destruct (show_same y) as (_ & -> & _).
  - intros y k. destruct (show_same y) as (_ & -> & _). by apply v_range0.
  - intros y y' k. destruct (show_same y) as (_ & -> & _), (show_same y') as (_ & -> & _). by apply v_inj0.
  - intros i y. by rewrite Hi, Hd.
  - intros y i. rewrite Hi, Hd. intros Hy HyF. rewrite Ho by done. by apply v_children0.
  - intros y. rewrite Hi. intros Hy HyF x. rewrite Ho by done. destruct (Hp x) as [_ ->]. by apply v_below0.
  - intros y q Hy. destruct (Hp y) as [_ ->]. setoid_rewrite Hi. by apply v_parents0.
  - intros y Hy. destruct (Hp y) as [-> ->]. specialize (v_parent0 y Hy). destruct (par t y); [done|by rewrite Hi].
  - intros y. by destruct (Hp y) as [_ ->].
  - intros y. rewrite Hi. by destruct (Hp y) as [-> _].
  - intros y. rewrite Hi. by apply v_broadcast0.
  - intros y i. rewrite Hi, Hd. by apply v_shown0.
  - intros y. rewrite Hi. by apply v_asmoved0.
  - intros y i q. rewrite Hi, Hd. destruct (Hp y) as [_ ->]. by apply v_new0.
Qed.
End showing.

(** ** What calculating the cell [c] leaves alone *)

Record grows (c : nat) (t t' : Cells) : Prop := {
  g_inst : ∀ x, inst t x → inst t' x ∧ identity_ (the_cell t' x) = identity_ (the_cell t x) ∧
    knownParent (the_cell t' x) = knownParent (the_cell t x);
  g_cell : ∀ x, inst t x → x ≠ c →
    children (the_cell t' x) = children (the_cell t x) ∧ exportData (the_cell t' x) = exportData (the_cell t x);
  g_parents : ∀ m x, inst t m → m ≠ c → Some m ∈ parents t' x ↔ Some m ∈ parents t x;
  g_cells : _cells t ⊆ _cells t';
  g_known : ∀ i x, x ≠ c → _cells t !! i = Some x → _cellsKnownChildren t' !! i = _cellsKnownChildren t !! i;
  g_broadcast : _nodesToBroadcast t ⊆ _nodesToBroadcast t';
  g_asmoved : _nodesToBroadcastAsMoved t' = _nodesToBroadcastAsMoved t;
  g_discard : _nodeIdsToDiscard t' = _nodeIdsToDiscard t;
  g_channel : _nodesKnownToChannel t' = _nodesKnownToChannel t;
}.

(** Who had a parent still has one. *)
Definition stays (t t' : Cells) : Prop := ∀ m, par t m ≠ None → par t' m ≠ None.

Lemma grows_refl c t : grows c t t.
Proof. by split. Qed.

Lemma grows_trans c t1 t2 t3 : grows c t1 t2 → grows c t2 t3 → grows c t1 t3.
Proof.
  intros [Hi1 Hc1 Hp1 Hs1 Hk1 Hb1 Ha1 Hd1 Hn1] [Hi2 Hc2 Hp2 Hs2 Hk2 Hb2 Ha2 Hd2 Hn2]. split; try (by etrans).
  - intros x Hx. destruct (Hi1 x Hx) as (Hx' & <- & <-). by apply Hi2.
  - intros x Hx Hne. destruct (Hc1 x Hx Hne) as [<- <-]. apply Hc2; [by apply Hi1|done].
  - intros m x Hm Hne. rewrite Hp2 by (done || by apply Hi1). by apply Hp1.
  - intros i x Hne Hx. rewrite (Hk2 i x Hne) by (by eapply lookup_weaken). by eapply Hk1.
Qed.

Lemma stays_refl t : stays t t.
Proof. by intros m. Qed.
Lemma stays_trans t1 t2 t3 : stays t1 t2 → stays t2 t3 → stays t1 t3.
Proof. intros H1 H2 m Hm. by apply H2, H1. Qed.

(** Calculating a cell that was not there leaves alone all that was. *)
Lemma grows_new F c x t t1 t2 : Inv F t → ¬ inst t x → grows c t t1 → grows x t1 t2 → inst t c → grows c t t2.
Proof.
  intros Hinv Hx [Hi1 Hc1 Hp1 Hs1 Hk1 Hb1 Ha1 Hd1 Hn1] [Hi2 Hc2 Hp2 Hs2 Hk2 Hb2 Ha2 Hd2 Hn2] Hc. split; try (by etrans).
  - intros y Hy. destruct (Hi1 y Hy) as (Hy' & <- & <-). by apply Hi2.
  - intros y Hy Hne. destruct (Hc1 y Hy Hne) as [<- <-]. apply Hc2; [by apply Hi1|by intros ->].
  - intros m y Hm Hne. rewrite Hp2 by (by apply Hi1 || by intros ->). by apply Hp1.
  - intros i y Hne Hy. destruct (decide (y = x)) as [-> | Hyx]; [|rewrite (Hk2 i y Hyx) by (by eapply lookup_weaken); by eapply Hk1].
    exfalso. apply Hx. by destruct (proj1 (v_cells _ _ Hinv i x) Hy).
Qed.

(** ** The steps of a calculation *)

Lemma run_set_cell c f t : set_cell c f t = (Ok tt, heap_set c f t).
Proof. done. Qed.

Lemma identity_run c t i : identity_of t c = Some i → identity c t = (Ok i, t).
Proof. intros Hi. unfold identity. rewrite run_bind, run_gets. cbn beta iota. by rewrite Hi, run_lift_option. Qed.

Lemma marks_run F c l : ∀ t, Inv F t →
  ∃ t', forM l markDirty t = (Ok tt, t') ∧ core t' = core t ∧ _movedCells t' = _movedCells t ∧
    _dirtyNodes t ⊆ _dirtyNodes t' ∧ grows c t t'.
Proof.
  induction l as [|x l IH]; intros t Hinv; [exists t; split_and!; [done..|apply grows_refl]|].
  rewrite run_forM_cons. unfold markDirty at 1. rewrite run_modify.
  set (t1 := if bool_decide (is_Some (identity_ (the_cell t x))) && in_cells (the_cell t x) then t <| _dirtyNodes ::= union {[x]} |> else t).
  assert (core t1 = core t ∧ _movedCells t1 = _movedCells t ∧ _dirtyNodes t ⊆ _dirtyNodes t1 ∧ grows c t t1) as (Hc1 & Hm1 & Hd1 & Hg1).
  { unfold t1. destruct (_ && _); [|split_and!; [done..|apply grows_refl]].
    assert (_dirtyNodes t ⊆ _dirtyNodes (t <| _dirtyNodes ::= union {[x]} |>)) by (cbn; set_solver). by split_and!. }
  destruct (IH t1) as (t' & Hrun & Hc & Hm & Hd & Hg); [by eapply Inv_core|]. exists t'.
  split_and!; [done|congruence|congruence|by etrans|by eapply grows_trans].
Qed.

Lemma core_cell t t' x : core t' = core t → the_cell t' x = the_cell t x.
Proof. unfold core. intros [= H1 _ _ _ _ _ _ _ _]. by apply the_cell_heap. Qed.

Lemma grows_show c f t :
  (∀ x, in_cells (f x) = in_cells x ∧ identity_ (f x) = identity_ x ∧ parent (f x) = parent x ∧
    allParents (f x) = allParents x ∧ knownParent (f x) = knownParent x) → grows c t (heap_set c f t).
Proof.
  intros Hsame. split; try done.
  - intros x. unfold inst. destruct (show_same c f t Hsame x) as (-> & -> & _ & _ & ->). done.
  - intros x _ Hne. by rewrite the_cell_set, decide_False.
  - intros m x _ _. by destruct (show_same c f t Hsame x) as (_ & _ & _ & -> & _).
Qed.

Lemma run_code_spec F c data raised dirtied new t :
  Inv F t → c ∈ F → inst t c →
  ∃ t', run_code c data raised dirtied new t = (Ok tt, t') ∧ Inv F t' ∧ grows c t t' ∧ children (the_cell t' c) = new ∧
    (∀ x, par t' x = par t x ∧ parents t' x = parents t x) ∧ _cellsKnownChildren t' = _cellsKnownChildren t ∧
    _cells t' = _cells t ∧ _movedCells t' = _movedCells t.
Proof.
  intros Hinv HF Hc. unfold run_code. rewrite run_bind, run_set_cell. cbn beta iota.
  set (f := λ x : Cell, _ <| children := new |>).
  assert (∀ x, in_cells (f x) = in_cells x ∧ identity_ (f x) = identity_ x ∧ parent (f x) = parent x ∧
    allParents (f x) = allParents x ∧ knownParent (f x) = knownParent x) as Hf by done.
  pose proof (Inv_show c f t Hf F Hinv HF) as Hinv1. pose proof (grows_show c f t Hf) as Hg1.
  destruct (marks_run F c dirtied _ Hinv1) as (t2 & Hrun2 & Hcore2 & Hm2 & _ & Hg2). rewrite run_bind, Hrun2. cbn beta iota.
  pose proof (Inv_core F _ _ Hcore2 Hinv1) as Hinv2.
  assert (∀ x, the_cell t2 x = the_cell (heap_set c f t) x) as Hcell2 by (intros x; by apply core_cell).
  assert (_cellsKnownChildren t2 = _cellsKnownChildren t ∧ _cells t2 = _cells t) as [Hk2 Hs2] by (unfold core in Hcore2; by injection Hcore2).
  destruct raised as [e|].
  - unfold onError. rewrite run_set_cell. set (h := λ x : Cell, x <| exportData ::= _ |>).
    assert (∀ x, in_cells (h x) = in_cells x ∧ identity_ (h x) = identity_ x ∧ parent (h x) = parent x ∧
      allParents (h x) = allParents x ∧ knownParent (h x) = knownParent x) as Hh by done.
    eexists. split; [done|]. split; [by apply Inv_show|]. split; [eapply grows_trans; [done|]; eapply grows_trans; [done|by apply grows_show]|].
    split; [rewrite the_cell_set, decide_True by done; cbn; by rewrite Hcell2, the_cell_set, decide_True|].
    split; [|split_and!; [done..|exact Hm2]].
    intros x. destruct (show_same c h t2 Hh x) as (_ & _ & -> & -> & _). rewrite Hcell2.
    by destruct (show_same c f t Hf x) as (_ & _ & -> & -> & _).
  - exists t2. rewrite run_mret. split; [done|]. split; [done|]. split; [by eapply grows_trans|].
    split; [by rewrite Hcell2, the_cell_set, decide_True|]. split; [|by split_and!].
    intros x. rewrite Hcell2. by destruct (show_same c f t Hf x) as (_ & _ & -> & -> & _).
Qed.

Lemma calculated_spec F c data raised dirtied new t :
  Inv F t → c ∈ F → inst t c →
  ∃ t', calculated c data raised dirtied new t = (Ok tt, t') ∧ Inv F t' ∧ grows c t t' ∧ children (the_cell t' c) = new ∧
    (∀ x, par t' x = par t x ∧ parents t' x = parents t x) ∧ _cellsKnownChildren t' = _cellsKnownChildren t ∧
    _cells t' = _cells t ∧ _movedCells t' = _movedCells t.
Proof.
  intros Hinv HF Hc. destruct (run_code_spec F c data raised dirtied new t Hinv HF Hc) as (t1 & Hrun & Hinv1 & Hg & H1 & H2 & H3 & H4 & H5).
  exists (t1 <| _dirtyNodes ::= λ s, s ∖ {[c]} |>). unfold calculated. rewrite run_bind, Hrun. split; [done|]. split; [by apply (Inv_core F t1)|].
  split; [eapply grows_trans; [exact Hg|by split]|]. by split_and!.
Qed.

(** [markToBroadcast] of a cell that is being calculated *)
Lemma broadcast_spec F c t :
  Inv F t → inst t c →
  ∃ t', markToBroadcast c t = (Ok tt, t') ∧ Inv F t' ∧ grows c t t' ∧ c ∈ _nodesToBroadcast t' ∧
    heap t' = heap t ∧ _cellsKnownChildren t' = _cellsKnownChildren t ∧ _cells t' = _cells t ∧ _movedCells t' = _movedCells t.
Proof.
  intros Hinv Hc. unfold markToBroadcast. rewrite run_bind, run_gets. cbn beta iota. rewrite Hc, run_bind, run_assertM. cbn beta iota.
  rewrite run_modify. eexists. split; [done|]. split; [|split; [|split; [cbn; set_solver|done]]].
  - destruct Hinv. split; try done; cbn.
    + intros x [->%elem_of_singleton | Hx]%elem_of_union; [done|by apply v_broadcast0].
    + intros x i Hx Hne HF Hi. destruct (v_shown0 x i Hx Hne HF Hi); set_solver.
    + intros x i q Hx Hne Hi Hk Hq. apply elem_of_union. right. exact (v_new0 x i q Hx Hne Hi Hk Hq).
  - split; try done. cbn. set_solver.
Qed.

Lemma removeParent_run c q t : c ≠ root → removeParent c q t = (Ok tt, heap_set c (without_parent q) t).
Proof. intros Hc. unfold removeParent. by rewrite bool_decide_false. Qed.

Lemma without_parent_ok q x :
  match parent x with None => allParents x = ∅ | Some p => Some p ∈ allParents x end → Some q ∈ allParents x →
  (∀ p, p ∈ allParents x → is_Some p) →
  match parent (without_parent q x) with
  | None => allParents x ∖ {[Some q]} = ∅
  | Some p => Some p ∈ allParents x ∖ {[Some q]}
  end.
Proof.
  intros Hp Hq Hs. unfold without_parent. cbn. destruct (parent x) as [p|]; [|set_solver].
  case_bool_decide as E; [|set_solver]. destruct (head (elements (allParents x ∖ {[Some q]}))) as [o|] eqn:Hh; cbn.
  - assert (o ∈ allParents x ∖ {[Some q]}) as Ho.
    { apply elem_of_elements. destruct (elements _); [done|]. cbn in Hh. injection Hh as ->. set_solver. }
    destruct (Hs o) as [p' ->]; [set_solver|done].
  - apply leibniz_equiv, elements_empty_inv. by destruct (elements (allParents x ∖ {[Some q]})).
Qed.

Lemma isActive_inst F t c : Inv F t → inst t c → par t c ≠ None → isActive t c = true.
Proof.
  intros Hinv Hc Hp. unfold isActive. rewrite Hc. destruct (proj1 (v_ident _ _ Hinv c) Hc) as [k ->].
  destruct (par t c); [|done]. by destruct (bool_decide (c = root)).
Qed.

Lemma isActive_root t : isActive t root = true.
Proof. done. Qed.

Lemma isActive_true F t c : Inv F t → isActive t c = true → inst t c ∧ (c = root ∨ par t c ≠ None).
Proof.
  intros Hinv. unfold isActive. case_bool_decide as Hc; [intros _; subst; split; [apply (v_root _ _ Hinv)|by left]|].
  cbn [orb]. intros [[Hi _]%andb_true_iff Hp]%andb_true_iff. split; [done|right]. apply bool_decide_eq_true in Hp. by destruct (par t c).
Qed.

Lemma isOrphaned_true F t c : Inv F t → isOrphaned t c = true ↔ c ∈ _orphanedCells t.
Proof.
  intros Hinv. rewrite (v_orphans _ _ Hinv). unfold isOrphaned, inst. rewrite !andb_true_iff, !bool_decide_eq_true. tauto.
Qed.

(** The parents of [x] with or without [c] *)
Definition parents_after (t t' : Cells) (x c : nat) (has : Prop) : Prop :=
  ∀ y m, Some m ∈ parents t' y ↔ (y = x ∧ m = c ∧ has) ∨ (Some m ∈ parents t y ∧ ¬ (y = x ∧ m = c)).

Lemma grows_reparents F x p ps t t' c :
  reparents F x p ps t t' → (∀ m, m ≠ c → Some m ∈ ps ↔ Some m ∈ parents t x) → grows c t t'.
Proof.
  intros Hr Hps. pose proof Hr as [_ _ H1 H2 H3 H4 H5 H6 _ H8 _]. split; rewrite ?H1, ?H2, ?H3, ?H4, ?H5, ?H6, ?H8; try done.
  - intros y Hy. rewrite (rp_inst Hr). by destruct (rp_same Hr y) as (_ & -> & _ & _ & ->).
  - intros y _ _. by destruct (rp_same Hr y) as (_ & _ & -> & -> & _).
  - intros m y _ Hm. rewrite (rp_parents Hr). destruct (decide (y = x)) as [-> | ]; [by apply Hps|done].
Qed.

(** The state after parents of a cell changed *)
Definition adjusted (x : nat) (f : Cell → Cell) (orphans moved : gset nat → gset nat) (t : Cells) : Cells :=
  heap_set x f t <| _orphanedCells ::= orphans |> <| _movedCells ::= moved |>.

Lemma adjusted_reparents F x p ps f orphans moved t :
  f (the_cell t x) = the_cell t x <| parent := p |> <| allParents := ps |> →
  orphans (_orphanedCells t) = match p with None => _orphanedCells t ∪ {[x]} | Some _ => _orphanedCells t ∖ {[x]} end →
  reparents F x p ps t (adjusted x f orphans moved t).
Proof.
  intros Hf Ho. split; try done.
  - change (the_cell (adjusted x f orphans moved t) x) with (the_cell (heap_set x f t) x). by rewrite the_cell_set, decide_True.
  - intros y Hy. change (the_cell (adjusted x f orphans moved t) y) with (the_cell (heap_set x f t) y). by rewrite the_cell_set, decide_False.
Qed.

Lemma some_parents F t x : Inv F t → x ≠ root → ∀ p, p ∈ parents t x → is_Some p.
Proof. intros Hinv Hx p Hp. destruct (v_parents _ _ Hinv x p Hx Hp) as (q & -> & _). by exists q. Qed.

Lemma has_parent F t x q : Inv F t → x ≠ root → Some q ∈ parents t x → inst t x ∧ inst t q ∧ par t x ≠ None.
Proof.
  intros Hinv Hx Hq. destruct (v_parents _ _ Hinv x _ Hx Hq) as (q' & [= <-] & Hiq & Hix). split_and!; [done..|].
  intros E. pose proof (v_parent _ _ Hinv x Hx) as Hp. rewrite E in Hp. rewrite (Hp Hix) in Hq. set_solver.
Qed.

Lemma drop_spec F c x t :
  Inv F t → c ∈ F → x ≠ root → Some c ∈ parents t x →
  ∃ t', drop_child c x t = (Ok tt, t') ∧ Inv F t' ∧ grows c t t' ∧ parents_after t t' x c False ∧
    (∀ m, m ≠ x → par t' m = par t m) ∧ _nodesToBroadcast t' = _nodesToBroadcast t ∧ _cellsKnownChildren t' = _cellsKnownChildren t ∧
    (∀ y, children (the_cell t' y) = children (the_cell t y)).
Proof.
  intros Hinv HF Hx Hc. destruct (has_parent _ _ _ _ Hinv Hx Hc) as (Hix & Hic & Hpx). unfold drop_child.
  rewrite run_bind, run_gets. cbn beta iota. rewrite (isActive_inst F) by done. rewrite run_bind, run_assertM. cbn beta iota.
  rewrite run_bind, removeParent_run by done. cbn beta iota. rewrite run_bind, run_gets. cbn beta iota.
  set (f := without_parent c). set (p := parent (f (the_cell t x))). set (ps := parents t x ∖ {[Some c]}).
  assert (x ∉ _orphanedCells t) as Hno by (rewrite (v_orphans _ _ Hinv); tauto).
  assert (isOrphaned (heap_set x f t) x = bool_decide (p = None)) as ->.
  { unfold isOrphaned. rewrite bool_decide_true by done. rewrite !the_cell_set, !decide_True by done.
    change (in_cells (f (the_cell t x))) with (in_cells (the_cell t x)). by rewrite Hix. }
  set (add := if bool_decide (p = None) then (λ s : gset nat, {[x]} ∪ s) else (λ s, s)).
  exists (adjusted x f add (λ s, s) t).
  assert (reparents F x p ps t (adjusted x f add (λ s, s) t)) as Hr.
  { apply adjusted_reparents; [by destruct (the_cell t x)|]. unfold add. destruct p; cbn.
    - apply set_eq. set_solver.
    - apply set_eq. set_solver. }
  assert (∀ y m, Some m ∈ parents (adjusted x f add (λ s, s) t) y ↔ (y = x ∧ m = c ∧ False) ∨ (Some m ∈ parents t y ∧ ¬ (y = x ∧ m = c))) as Hafter.
  { intros y m. rewrite (rp_parents Hr). destruct (decide (y = x)) as [-> | ]; [|tauto]. unfold ps. set_solver. }
  assert (match p with None => ps = ∅ | Some q => Some q ∈ ps end) as Hp.
  { apply without_parent_ok; [|done|by apply (some_parents F)]. pose proof (v_parent _ _ Hinv x Hx). destruct (par t x); [done|auto]. }
  split; [|split_and!].
  - unfold add. by destruct (bool_decide (p = None)); destruct t.
  - apply (Inv_reparents Hr); try done.
    + intros q Hq. destruct (v_parents _ _ Hinv x q Hx) as (q' & ? & ? & _); [set_solver|]. by exists q'.
    + intros m _ Hm. unfold ps. assert (m ≠ c) by (by intros ->). set_solver.
    + intros i q Hi Hk Hq. apply (v_new _ _ Hinv x i); [done..|set_solver].
    + pose proof (v_self _ _ Hinv x). unfold ps. set_solver.
  - apply (grows_reparents _ _ _ _ _ _ _ Hr). intros m Hm. unfold ps. set_solver.
  - exact Hafter.
  - intros m Hm. by rewrite (rp_par Hr), decide_False.
  - done.
  - done.
  - intros y. by destruct (rp_same Hr y) as (_ & _ & -> & _).
Qed.

Lemma adopt_spec F c x t :
  Inv F t → c ∈ F → x ≠ root → x ≠ c → inst t x → isActive t c = true → c ∈ _nodesToBroadcast t →
  ∃ t', adopt_child c x t = (Ok tt, t') ∧ Inv F t' ∧ grows c t t' ∧ parents_after t t' x c True ∧ stays t t' ∧
    _cellsKnownChildren t' = _cellsKnownChildren t ∧ (∀ y, children (the_cell t' y) = children (the_cell t y)).
Proof.
  intros Hinv HF Hx Hxc Hix Hact Hb. destruct (isActive_true _ _ _ Hinv Hact) as [Hic _]. unfold adopt_child, moveToParent.
  rewrite run_bind, bool_decide_false by done. rewrite run_bind, run_gets. cbn beta iota. rewrite Hact, run_bind, run_assertM. cbn beta iota.
  rewrite run_bind, run_set_cell. cbn beta iota. rewrite run_gets. cbn beta iota. rewrite the_cell_set, decide_True by done.
  set (f := λ y : Cell, _ <| parent := Some c |>). set (moved := bool_decide _).
  set (upd := if moved then (λ s : gset nat, {[x]} ∪ s) else (λ s, s ∖ {[x]})).
  set (t' := adjusted x f (λ s, s ∖ {[x]}) upd t). exists t'. set (ps := {[Some c]} ∪ parents t x : gset (option nat)).
  assert (reparents F x (Some c) ps t t') as Hr by (by apply adjusted_reparents).
  split; [|split_and!].
  - unfold t', upd. by destruct moved; destruct t.
  - apply (Inv_reparents Hr); try done.
    + intros q [->%elem_of_singleton | Hq]%elem_of_union; [by exists c|].
      destruct (v_parents _ _ Hinv x q Hx Hq) as (q' & ? & ? & _). by exists q'.
    + unfold ps. set_solver.
    + intros m _ Hm. unfold ps. assert (m ≠ c) by (by intros ->). set_solver.
    + intros i q Hi Hk [[= ->]%elem_of_singleton | Hq]%elem_of_union; [done|]. by apply (v_new _ _ Hinv x i).
    + intros [[= ->]%elem_of_singleton | Hq]%elem_of_union; [done|]. by apply (v_self _ _ Hinv x).
  - apply (grows_reparents _ _ _ _ _ _ _ Hr). intros m Hm. unfold ps. set_solver.
  - intros y m. rewrite (rp_parents Hr). destruct (decide (y = x)) as [-> | ]; [|tauto]. unfold ps.
    rewrite elem_of_union, elem_of_singleton. destruct (decide (m = c)) as [-> | ]; [tauto|]. assert (Some m ≠ Some c) by congruence. tauto.
  - intros m Hm. rewrite (rp_par Hr). by destruct (decide (m = x)).
  - done.
  - intros y. by destruct (rp_same Hr y) as (_ & _ & -> & _).
Qed.

(** A cell that comes into the tree *)
Definition newcomer (c k l : nat) (x : Cell) : Cell :=
  x <| in_cells := true |> <| parent := Some c |> <| knownParent := Some c |> <| allParents ::= union {[Some c]} |>
    <| level := l |> <| identity_ := Some k |>.

Definition added (x c : nat) (t : Cells) : Cells :=
  heap_set x (newcomer c (S (_id t)) (S (level (the_cell t c)))) t <| _id := S (_id t) |>
    <| _cellsKnownChildren ::= <[Numbered (S (_id t)) := ∅]> |> <| _cells ::= <[Numbered (S (_id t)) := x]> |>.

Lemma new_id_free F t : Inv F t → _cells t !! Numbered (S (_id t)) = None.
Proof.
  intros Hinv. destruct (_cells t !! Numbered (S (_id t))) as [c|] eqn:E; [|done]. apply (v_cells _ _ Hinv) in E as [_ Hi].
  unfold identity_of in Hi. case_bool_decide; [done|]. destruct (identity_ (the_cell t c)) as [k|] eqn:Hk; [|done].
  injection Hi as ->. pose proof (v_range _ _ Hinv c _ Hk). lia.
Qed.

Lemma outside F t x : Inv F t → x ≠ root → ¬ inst t x → in_cells (the_cell t x) = false ∧ parents t x = ∅ ∧ par t x = None.
Proof.
  intros Hinv Hx Hn. split; [by apply not_true_is_false|]. assert (parents t x = ∅) as Hp.
  { apply set_eq. intros p. split; [|set_solver]. intros Hp. by destruct (v_parents _ _ Hinv x p Hx Hp) as (_ & _ & _ & ?). }
  split; [done|]. pose proof (v_parent _ _ Hinv x Hx) as H. rewrite Hp in H. destruct (par t x); [set_solver|done].
Qed.

Lemma add_run F x c t : Inv F t → x ≠ root → ¬ inst t x → _addCell x (Some c) t = (Ok tt, added x c t).
Proof.
  intros Hinv Hx Hn. destruct (outside _ _ _ Hinv Hx Hn) as (Hout & _). unfold _addCell.
  rewrite run_bind, run_gets. cbn beta iota. rewrite Hout. unfold _newID. rewrite !run_bind, run_modify. cbn beta iota.
  rewrite run_gets. cbn beta iota. rewrite run_bind. set (t1 := t <| _id ::= S |>).
  assert (∀ y, the_cell t1 y = the_cell t y) as H1 by done. unfold install.
  rewrite run_bind, run_gets. cbn beta iota. rewrite H1, Hout. rewrite run_bind, run_assertM. cbn [negb]. cbn beta iota.
  rewrite run_bind, run_gets. cbn beta iota. rewrite run_set_cell, H1.
  set (t2 := heap_set x (λ y, y <| in_cells := true |> <| parent := Some c |> <| knownParent := Some c |> <| allParents ::= union {[Some c]} |>
    <| level := S (level (the_cell t c)) |> <| identity_ := Some (_id t1) |>) t1).
  assert (identity_of t2 x = Some (Numbered (S (_id t)))) as Hi.
  { unfold identity_of. rewrite bool_decide_false by done. unfold t2. by rewrite the_cell_set, decide_True. }
  rewrite run_bind, (identity_run _ _ _ Hi). cbn beta iota. rewrite run_bind, run_gets. cbn beta iota.
  assert (_cells t2 = _cells t ∧ _cellsKnownChildren t2 = _cellsKnownChildren t) as [E1 E2] by done.
  rewrite E1, E2. pose proof (new_id_free _ _ Hinv) as Hfree.
  assert (_cellsKnownChildren t !! Numbered (S (_id t)) = None) as Hfree'.
  { apply eq_None_not_Some. intros H. apply (v_dom _ _ Hinv) in H. rewrite Hfree in H. by destruct H. }
  rewrite !bool_decide_true by done. rewrite run_bind, run_assertM. cbn beta iota. rewrite run_bind, run_modify. cbn beta iota.
  rewrite run_bind, run_assertM. cbn beta iota. by rewrite run_modify.
Qed.

Lemma added_cell x c t y : the_cell (added x c t) y =
  if decide (y = x) then newcomer c (S (_id t)) (S (level (the_cell t c))) (the_cell t x) else the_cell t y.
Proof. apply (the_cell_set x (newcomer c (S (_id t)) (S (level (the_cell t c)))) t y). Qed.

Lemma added_ident x c t y : x ≠ root → identity_of (added x c t) y = if decide (y = x) then Some (Numbered (S (_id t))) else identity_of t y.
Proof.
  intros Hx. unfold identity_of. rewrite added_cell. destruct (decide (y = x)) as [-> | ]; [by rewrite bool_decide_false|done].
Qed.

Lemma added_inst x c t y : inst (added x c t) y ↔ y = x ∨ inst t y.
Proof. unfold inst. rewrite added_cell. destruct (decide (y = x)) as [-> | ]; [naive_solver|tauto]. Qed.

Lemma added_parents F x c t y : Inv F t → x ≠ root → ¬ inst t x →
  parents (added x c t) y = if decide (y = x) then {[Some c]} else parents t y.
Proof.
  intros Hinv Hx Hn. rewrite added_cell. destruct (decide (y = x)) as [-> | ]; [|done]. unfold newcomer. cbn.
  destruct (outside _ _ _ Hinv Hx Hn) as (_ & -> & _). apply set_eq. set_solver.
Qed.

Lemma Inv_added F x c t :
  Inv F t → c ∈ F → x ≠ root → ¬ inst t x → inst t c → c ∈ _nodesToBroadcast t → Inv ({[x]} ∪ F) (added x c t).
Proof.
  intros Hinv HF Hx Hn Hc Hb. pose proof (new_id_free _ _ Hinv) as Hfree. pose proof (outside _ _ _ Hinv Hx Hn) as (_ & Hpx & _).
  pose proof (λ y, added_parents F x c t y Hinv Hx Hn) as Hpar.
  assert (∀ y, par (added x c t) y = if decide (y = x) then Some c else par t y) as Hp.
  { intros y. rewrite added_cell. by destruct (decide (y = x)). }
  pose proof Hinv as []. split; cbn [added heap_set set_field _cells _cellsKnownChildren _nodesToBroadcast _nodesToBroadcastAsMoved
    _nodeIdsToDiscard _orphanedCells _nodesKnownToChannel _id]; try done.
  - rewrite added_inst, Hp, Hpar, !decide_False by done. destruct v_root0 as (? & ? & ?). auto.
  - intros y. rewrite added_inst, added_cell. destruct (decide (y = x)) as [-> | ]; [split; [by eexists|by left]|].
    rewrite <-v_ident0. split; [intros [? | ?]; done|intros ?; by right].
  - intros y k. rewrite added_cell. destruct (decide (y = x)) as [-> | ]; [by intros [= <-]|]. intros Hk%v_range0. lia.
  - assert (∀ y, identity_ (the_cell t y) ≠ Some (S (_id t))) as Hne by (intros y Hk%v_range0; lia).
    intros y y' k. rewrite !added_cell. destruct (decide (y = x)) as [-> | ], (decide (y' = x)) as [-> | ]; [done|..|by apply v_inj0];
      intros H1 H2; cbn in H1, H2; exfalso; [injection H1 as <-|injection H2 as <-]; by eapply Hne.
  - intros i y. rewrite lookup_insert_Some, added_inst, added_ident by done. destruct (decide (y = x)) as [-> | Hne].
    + split; [|intros [_ [= <-]]; by left]. intros [[<- _] | [_ Hy]]; [auto|]. by destruct (proj1 (v_cells0 _ _) Hy).
    + rewrite v_cells0. split; [intros [[_ E] | (_ & ? & ?)]; [by destruct Hne|auto]|]. intros [[? | Hy] Hi]; [done|right]. split; [|done].
      intros <-. by rewrite (proj2 (v_cells0 _ _) (conj Hy Hi)) in Hfree.
  - intros i. by rewrite !lookup_insert_is_Some', v_dom0.
  - intros y i. rewrite added_inst, added_ident by done. rewrite added_cell.
    intros Hy [Hyx%not_elem_of_singleton HyF]%not_elem_of_union. rewrite !decide_False by done. intros Hi.
    destruct Hy as [Hy | Hy]; [done|]. rewrite lookup_insert_ne; [by apply v_children0|]. intros <-.
    by rewrite (proj2 (v_cells0 _ _) (conj Hy Hi)) in Hfree.
  - intros y. rewrite added_inst, added_cell. intros Hy [Hyx%not_elem_of_singleton HyF]%not_elem_of_union z.
    rewrite decide_False by done. destruct Hy as [Hy | Hy]; [done|]. rewrite Hpar, v_below0 by done.
    destruct (decide (z = x)) as [-> | ]; [|done]. rewrite Hpx, elem_of_singleton. split; [by intros ?%not_elem_of_empty|].
    intros [= ->]. done.
  - intros y p Hy. rewrite Hpar. setoid_rewrite added_inst. destruct (decide (y = x)) as [-> | ].
    + intros ->%elem_of_singleton. exists c. auto.
    + intros Hq. destruct (v_parents0 y p Hy Hq) as (q & -> & ? & ?). exists q. auto.
  - intros y Hy. rewrite Hp, Hpar. destruct (decide (y = x)) as [-> | Hne]; [by apply elem_of_singleton|]. specialize (v_parent0 y Hy).
    destruct (par t y); [done|]. rewrite added_inst. by intros [? | ?]; [|apply v_parent0].
  - intros y. rewrite Hpar. destruct (decide (y = x)) as [-> | ]; [|done]. intros [= ->]%elem_of_singleton. done.
  - intros y. rewrite added_inst, Hp, v_orphans0. destruct (decide (y = x)) as [-> | Hne].
    + split; [tauto|]. by intros (_ & _ & ?).
    + split; [tauto|]. by intros (? & [? | ?] & ?).
  - intros i Hi. rewrite lookup_insert_ne; [by apply v_channel0|]. intros <-. apply v_sent0 in Hi. lia.
  - intros k Hk%v_sent0. lia.
  - intros y Hy%v_broadcast0. apply added_inst. by right.
  - intros y i. rewrite added_inst, added_ident by done. intros Hy Hne [Hyx%not_elem_of_singleton HyF]%not_elem_of_union.
    rewrite decide_False by done. destruct Hy as [Hy | Hy]; [done|]. by apply v_shown0.
  - intros y [Hy ?]%v_asmoved0. split; [done|]. apply added_inst. by right.
  - intros y i q. rewrite added_inst, added_ident, Hpar by done. destruct (decide (y = x)) as [-> | ].
    + intros _ _ _ _ [= ->]%elem_of_singleton. done.
    + intros [? | Hy]; [done|]. by apply v_new0.
Qed.

Lemma added_grows F x c t : Inv F t → x ≠ root → ¬ inst t x → grows c t (added x c t) ∧ stays t (added x c t) ∧
  parents_after t (added x c t) x c True.
Proof.
  intros Hinv Hx Hn. pose proof (λ y, added_parents F x c t y Hinv Hx Hn) as Hpar. pose proof (new_id_free _ _ Hinv) as Hfree.
  destruct (outside _ _ _ Hinv Hx Hn) as (_ & Hpx & _). split; [|split].
  - split; try done.
    + intros y Hy. rewrite added_inst, added_cell. rewrite decide_False by (by intros ->). auto.
    + intros y Hy _. rewrite added_cell. by rewrite decide_False by (by intros ->).
    + intros m y Hm Hne. rewrite Hpar. destruct (decide (y = x)) as [-> | ]; [|done]. rewrite Hpx. set_solver.
    + cbn. by apply insert_subseteq.
    + intros i y _ Hy. cbn. rewrite lookup_insert_ne; [done|]. intros <-. congruence.
  - intros m Hm. rewrite added_cell. by destruct (decide (m = x)).
  - intros y m. rewrite Hpar. destruct (decide (y = x)) as [-> | ]; [|tauto]. rewrite Hpx. set_solver.
Qed.
