(* ===== verification/CellTreePasses.v ===== *)
(** * Calculating, cleaning up and moving

    The calculation of a cell, with that of the cells it brings into the tree, raises nothing and
    keeps the invariant; so do the removal of orphans and the announcement of moves. *)

From Stdlib Require Import Lia.
From stdpp Require Import options.
From S2P Require Import Prelude CellGraph CellTree CellTreeInvariant.

(** ** Calculating a cell *)

Lemma Outcome_nested_ind (P : Outcome → Prop) :
  (∀ data raised dirtied new, Forall (λ e, P e.2) new → P (Recalculated data raised dirtied new)) → ∀ o, P o.
Proof.
  intros Hstep. fix IH 1. intros [data raised dirtied new]. apply Hstep.
  induction new as [|[x o] new IHnew]; constructor; [apply IH|exact IHnew].
Qed.

Lemma recalculateCell_eq data raised dirtied new c :
  _recalculateCell (Recalculated data raised dirtied new) c =
    (active ← gets (λ t, isActive t c);
     assertM active;;
     i ← identity c;
     origChildren ← gets (λ t, default ∅ (_cellsKnownChildren t !! i));
     calculated c data raised dirtied new.*1;;
     markToBroadcast c;;
     forM (elements (origChildren ∖ list_to_set new.*1)) (drop_child c);;
     new_children _recalculateCell c origChildren new;;
     modify (λ t, t <| _cellsKnownChildren ::= <[i := list_to_set new.*1]> |>)).
Proof. done. Qed.

Lemma outcome_ok_new c data raised dirtied new :
  outcome_ok c (Recalculated data raised dirtied new) →
  Forall (λ e, e.1 ≠ root ∧ e.1 ≠ c ∧ outcome_ok e.1 e.2) new.
Proof.
  induction new as [|[x o] new IH]; [constructor|]. intros ((? & ?) & ? & Hn). constructor; [by split_and!|by apply IH].
Qed.

(** The children that are gone *)
Lemma drops_spec F c l : ∀ t,
  Inv F t → c ∈ F → NoDup l → (∀ x, x ∈ l → Some c ∈ parents t x) →
  ∃ t', forM l (drop_child c) t = (Ok tt, t') ∧ Inv F t' ∧ grows c t t' ∧
    (∀ y, Some c ∈ parents t' y ↔ Some c ∈ parents t y ∧ y ∉ l) ∧ (∀ m, m ∉ l → par t' m = par t m) ∧
    _nodesToBroadcast t' = _nodesToBroadcast t ∧ _cellsKnownChildren t' = _cellsKnownChildren t ∧
    children (the_cell t' c) = children (the_cell t c).
Proof.
  induction l as [|x l IH]; intros t Hinv HF Hnd Hl.
  { exists t. split_and!; try done; try apply grows_refl. intros y. pose proof (not_elem_of_nil y). tauto. }
  apply NoDup_cons in Hnd as [Hxl Hnd]. assert (Some c ∈ parents t x) as Hcx by (apply Hl; by left).
  assert (x ≠ root) as Hx by (intros ->; by apply (proj2 (proj2 (v_root _ _ Hinv)) c)).
  destruct (drop_spec F c x t Hinv HF Hx Hcx) as (t1 & Hrun & Hinv1 & Hg1 & Hp1 & Hpar1 & Hb1 & Hk1 & Hc1).
  destruct (IH t1 Hinv1 HF Hnd) as (t' & Hrun' & Hinv' & Hg' & Hp' & Hpar' & Hb' & Hk' & Hc').
  { intros y Hy. apply Hp1. right. split; [apply Hl; by right|]. by intros [-> _]. }
  exists t'. rewrite run_forM_cons, Hrun. split; [done|]. split; [done|]. split; [by eapply grows_trans|].
  split; [|split; [|split_and!; congruence]].
  - intros y. rewrite Hp', not_elem_of_cons. unfold parents_after in Hp1. rewrite Hp1. tauto.
  - intros m [Hmx Hml]%not_elem_of_cons. rewrite Hpar' by done. by apply Hpar1.
Qed.

(** What [_recalculateCell] does, for an outcome *)
Definition calculates (o : Outcome) : Prop := ∀ F x t i orig,
  Inv ({[x]} ∪ F) t → x ∉ F → (∀ y, y ∈ F → inst t y) → isActive t x = true → outcome_ok x o →
  identity_of t x = Some i → _cellsKnownChildren t !! i = Some orig → (∀ y, y ∈ orig ↔ Some x ∈ parents t y) →
  ∃ t', _recalculateCell o x t = (Ok tt, t') ∧ Inv F t' ∧ grows x t t' ∧ x ∈ _nodesToBroadcast t' ∧ (orig = ∅ → stays t t').

Lemma active_stays F t t' c : Inv F t → Inv F t' → grows c t t' → stays t t' → isActive t c = true → isActive t' c = true.
Proof.
  intros Hinv Hinv' Hg Hs Hact. destruct (isActive_true _ _ _ Hinv Hact) as [Hc [-> | Hp]]; [done|].
  apply (isActive_inst F); [done|by apply (g_inst _ _ _ Hg)|by apply Hs].
Qed.

(** One child that the cell did not have *)
Lemma new_child_spec F c x o t :
  calculates o → x ≠ root → x ≠ c → outcome_ok x o →
  Inv ({[c]} ∪ F) t → (∀ y, y ∈ F → inst t y) → isActive t c = true → c ∈ _nodesToBroadcast t →
  ∃ t', new_child _recalculateCell c x o t = (Ok tt, t') ∧ Inv ({[c]} ∪ F) t' ∧ grows c t t' ∧ stays t t' ∧
    (∀ y, Some c ∈ parents t' y ↔ Some c ∈ parents t y ∨ y = x) ∧ children (the_cell t' c) = children (the_cell t c) ∧
    (∀ i, _cells t !! i = Some c → _cellsKnownChildren t' !! i = _cellsKnownChildren t !! i).
Proof.
  intros Ho Hx Hxc Hok Hinv HF Hact Hb. destruct (isActive_true _ _ _ Hinv Hact) as [Hic _]. unfold new_child.
  rewrite run_bind, run_gets. cbn beta iota. destruct (isActive t x || isOrphaned t x) eqn:Hin.
  - assert (inst t x) as Hix.
    { apply orb_true_iff in Hin as [Hin | Hin]; [by apply (isActive_true _ _ _ Hinv) in Hin as [? _]|].
      apply (isOrphaned_true _ _ _ Hinv), (v_orphans _ _ Hinv) in Hin. tauto. }
    destruct (adopt_spec ({[c]} ∪ F) c x t) as (t' & Hrun & Hinv' & Hg & Hp & Hs & Hk & Hc); [set_solver..|].
    exists t'. split_and!; try done; [|by intros i _; rewrite Hk]. intros y. rewrite (Hp y c). assert (c = c) by done. destruct (decide (y = x)); tauto.
  - assert (¬ inst t x) as Hix.
    { intros Hix. apply orb_false_iff in Hin as [Hna Hno]. destruct (decide (par t x = None)) as [E | E].
      - assert (isOrphaned t x = true); [|congruence]. by apply (isOrphaned_true _ _ _ Hinv), (v_orphans _ _ Hinv).
      - assert (isActive t x = true); [|congruence]. by apply (isActive_inst ({[c]} ∪ F)). }
    rewrite run_bind, (add_run _ _ _ _ Hinv Hx Hix). cbn beta iota. set (t1 := added x c t).
    assert (Inv ({[x]} ∪ ({[c]} ∪ F)) t1) as Hinv1 by (apply Inv_added; [done|set_solver|done..]).
    destruct (added_grows _ x c t Hinv Hx Hix) as (Hg1 & Hs1 & Hp1).
    assert (x ∉ F) as HxF by (intros H; by apply Hix, HF).
    destruct (Ho ({[c]} ∪ F) x t1 (Numbered (S (_id t))) ∅) as (t2 & Hrun & Hinv2 & Hg2 & _ & Hs2).
    + done.
    + set_solver.
    + intros y Hy. apply added_inst. right. apply elem_of_union in Hy as [->%elem_of_singleton | Hy]; [done|by apply HF].
    + apply (isActive_inst _ _ _ Hinv1); [apply added_inst; by left|]. unfold t1. rewrite added_cell. by rewrite decide_True.
    + done.
    + unfold t1. rewrite added_ident by done. by rewrite decide_True.
    + unfold t1. cbn. by rewrite lookup_insert_eq.
    + intros y. split; [set_solver|]. intros Hy. apply (Hp1 y x) in Hy as [(_ & ? & _) | [Hy _]]; [done|].
      destruct (decide (y = root)) as [-> | Hyr]; [by destruct (proj2 (proj2 (v_root _ _ Hinv)) x)|].
      destruct (has_parent _ _ _ _ Hinv Hyr Hy) as (_ & ? & _). done.
    + exists t2. split; [done|]. split; [done|]. assert (inst t1 c) as Hic1 by (apply added_inst; by right). assert (c ≠ x) as Hcx by done.
      split; [by eapply grows_new|]. split; [by eapply stays_trans; [|apply Hs2]|]. split_and!.
      * intros y. rewrite (g_parents _ _ _ Hg2 c y Hic1 Hcx). pose proof (Hp1 y c : Some c ∈ parents t1 y ↔ _) as Hy.
        rewrite Hy. assert (c = c) by done. destruct (decide (y = x)); tauto.
      * destruct (g_cell _ _ _ Hg2 c Hic1 Hcx) as [-> _]. unfold t1. rewrite added_cell. by rewrite decide_False.
      * intros i Hi. rewrite (g_known _ _ _ Hg2 i c Hcx); [|by eapply lookup_weaken, (g_cells _ _ _ Hg1)].
        unfold t1. cbn. rewrite lookup_insert_ne; [done|]. intros <-. pose proof (new_id_free _ _ Hinv). congruence.
Qed.

Lemma new_children_spec F c l : ∀ seen t,
  Forall (λ e, calculates e.2) l → Forall (λ e, e.1 ≠ root ∧ e.1 ≠ c ∧ outcome_ok e.1 e.2) l →
  Inv ({[c]} ∪ F) t → (∀ y, y ∈ F → inst t y) → isActive t c = true → c ∈ _nodesToBroadcast t →
  ∃ t', new_children _recalculateCell c seen l t = (Ok tt, t') ∧ Inv ({[c]} ∪ F) t' ∧ grows c t t' ∧ stays t t' ∧
    (∀ y, Some c ∈ parents t' y ↔ Some c ∈ parents t y ∨ (y ∈ l.*1 ∧ y ∉ seen)) ∧ children (the_cell t' c) = children (the_cell t c) ∧
    (∀ i, _cells t !! i = Some c → _cellsKnownChildren t' !! i = _cellsKnownChildren t !! i).
Proof.
  induction l as [|[x o] l IH]; intros seen t Hl Hoks Hinv HF Hact Hb; cbn [new_children].
  { exists t. rewrite run_mret. split_and!; try done; try apply grows_refl; try apply stays_refl. intros y. cbn. pose proof (not_elem_of_nil y). tauto. }
  apply Forall_cons in Hl as [Ho Hl], Hoks as [(Hx & Hxc & Hok) Hoks]. cbn [fst snd] in *.
  assert (∃ t1, (if bool_decide (x ∈ seen) then mret tt else new_child _recalculateCell c x o) t = (Ok tt, t1) ∧
    Inv ({[c]} ∪ F) t1 ∧ grows c t t1 ∧ stays t t1 ∧ (∀ y, Some c ∈ parents t1 y ↔ Some c ∈ parents t y ∨ (y = x ∧ y ∉ seen)) ∧
    children (the_cell t1 c) = children (the_cell t c) ∧
    (∀ i, _cells t !! i = Some c → _cellsKnownChildren t1 !! i = _cellsKnownChildren t !! i)) as (t1 & Hrun1 & Hinv1 & Hg1 & Hs1 & Hp1 & Hc1 & Hk1).
  { case_bool_decide as Hseen.
    - exists t. split_and!; try done; try apply grows_refl; try apply stays_refl. intros y. split; [by left|]. intros [? | [-> ?]]; done.
    - destruct (new_child_spec F c x o t) as (t1 & Hrun1 & Hinv1 & Hg1 & Hs1 & Hp1 & Hc1 & Hk1); [done..|].
      exists t1. split_and!; try done. intros y. rewrite Hp1. split; [|tauto]. intros [? | ->]; tauto. }
  rewrite run_bind, Hrun1. cbn beta iota.
  destruct (IH ({[x]} ∪ seen) t1) as (t' & Hrun & Hinv' & Hg & Hs & Hp & Hc & Hk); [done..| | | |].
  - intros y Hy. by apply (g_inst _ _ _ Hg1), HF.
  - by apply (active_stays ({[c]} ∪ F) t).
  - by apply (g_broadcast _ _ _ Hg1).
  - exists t'. split; [done|]. split; [done|]. split; [by eapply grows_trans|]. split; [by eapply stays_trans|]. split; [|split].
    + intros y. rewrite Hp, Hp1. rewrite fmap_cons, elem_of_cons, not_elem_of_union, not_elem_of_singleton. cbn [fst].
      destruct (decide (y = x)); tauto.
    + congruence.
    + intros i Hi. rewrite Hk by (by eapply lookup_weaken, (g_cells _ _ _ Hg1)). by apply Hk1.
Qed.

Lemma calculates_all o : calculates o.
Proof.
  induction o as [data raised dirtied new IH] using Outcome_nested_ind. intros F c t i orig Hinv HcF HF Hact Hok Hi Hk Horig.
  destruct (isActive_true _ _ _ Hinv Hact) as [Hic Hroot]. assert (c ∈ {[c]} ∪ F) as HcF' by set_solver.
  rewrite recalculateCell_eq, run_bind, run_gets. cbn beta iota. rewrite Hact, run_bind, run_assertM. cbn beta iota.
  rewrite run_bind, (identity_run _ _ _ Hi). cbn beta iota. rewrite run_bind, run_gets. cbn beta iota. rewrite Hk. cbn [default id].
  destruct (calculated_spec _ c data raised dirtied new.*1 t Hinv HcF' Hic) as (t1 & Hrun1 & Hinv1 & Hg1 & Hc1 & Hp1 & Hk1 & Hs1 & _).
  rewrite run_bind, Hrun1. cbn beta iota. assert (inst t1 c) as Hic1 by (by apply (g_inst _ _ _ Hg1)).
  destruct (broadcast_spec _ c t1 Hinv1 Hic1) as (t2 & Hrun2 & Hinv2 & Hg2 & Hb2 & Hh2 & Hk2 & Hs2 & _).
  rewrite run_bind, Hrun2. cbn beta iota.
  assert (∀ y, the_cell t2 y = the_cell t1 y) as Hcell2 by (intros y; by apply the_cell_heap).
  assert (∀ y, Some c ∈ parents t2 y ↔ y ∈ orig) as Hp2 by (intros y; rewrite Hcell2; destruct (Hp1 y) as [_ ->]; by rewrite Horig).
  destruct (drops_spec _ c (elements (orig ∖ list_to_set new.*1)) t2 Hinv2 HcF') as (t3 & Hrun3 & Hinv3 & Hg3 & Hp3 & Hpar3 & Hb3 & Hk3 & Hc3).
  { apply NoDup_elements. }
  { intros x Hx. apply Hp2. set_solver. }
  rewrite run_bind, Hrun3. cbn beta iota.
  pose proof (outcome_ok_new _ _ _ _ _ Hok) as Hoks.
  assert (∀ x, x ∈ elements (orig ∖ list_to_set new.*1) → x ≠ c) as Hnc.
  { intros x Hx ->. apply (v_self _ _ Hinv2 c). apply Hp2. set_solver. }
  assert (grows c t t3) as Hgt3 by (eapply grows_trans; [done|]; by eapply grows_trans).
  assert (par t3 c = par t c) as Hparc.
  { rewrite Hpar3 by (intros H; by apply (Hnc c H)). rewrite Hcell2. apply Hp1. }
  assert (isActive t3 c = true) as Hact3.
  { destruct Hroot as [-> | Hpc]; [done|]. apply (isActive_inst _ _ _ Hinv3); [by apply (g_inst _ _ _ Hgt3)|by rewrite Hparc]. }
  destruct (new_children_spec F c new orig t3 IH Hoks Hinv3) as (t4 & Hrun4 & Hinv4 & Hg4 & Hs4 & Hp4 & Hc4 & Hk4); [|done|by rewrite Hb3|].
  { intros y Hy. by apply (g_inst _ _ _ Hgt3), HF. }
  rewrite run_bind, Hrun4. cbn beta iota. rewrite run_modify. set (t5 := t4 <| _cellsKnownChildren ::= <[i := list_to_set new.*1]> |>).
  assert (grows c t t4) as Hgt4 by (by eapply grows_trans).
  assert (identity_of t4 c = Some i) as Hi4.
  { rewrite <-Hi. apply identity_of_eq. by destruct (g_inst _ _ _ Hgt4 c Hic) as (_ & -> & _). }
  assert (inst t4 c) as Hic4 by (by apply (g_inst _ _ _ Hgt4)).
  assert (c ∈ _nodesToBroadcast t4) as Hb4 by (apply (g_broadcast _ _ _ Hg4); by rewrite Hb3).
  assert (children (the_cell t4 c) = new.*1) as Hch by (rewrite Hc4, Hc3, Hcell2; exact Hc1).
  exists t5. split; [done|]. split; [|split; [|split; [done|]]].
  - assert (_cells t4 !! i = Some c) as Hci by (by apply (v_cells _ _ Hinv4)).
    destruct (Hinv4) as [V1 V2 V3 V4 V5 v_dom0 v_children0 v_below0 V6 V7 V8 V9 V10 V11 V12 V13 v_shown0 V14 V15].
    split; try done; cbn [t5 set_field _cellsKnownChildren].
    + intros i'. change (_cells t5) with (_cells t4). rewrite lookup_insert_is_Some', v_dom0. split; [|by right]. intros [<- | ?]; [by eexists|done].
    + intros y i' Hy HyF Hi'. change (inst t4 y) in Hy. change (identity_of t4 y = Some i') in Hi'.
      change (the_cell t5 y) with (the_cell t4 y). destruct (decide (y = c)) as [-> | Hne].
      * assert (i' = i) as -> by congruence. by rewrite lookup_insert_eq, Hch.
      * rewrite lookup_insert_ne; [apply v_children0; [done|set_solver|done]|]. intros <-. apply Hne. by apply (ident_inj _ _ _ _ _ Hinv4 Hy Hic4 Hi').
    + intros y Hy HyF z. change (inst t4 y) in Hy. change (the_cell t5) with (the_cell t4). destruct (decide (y = c)) as [-> | Hne].
      * rewrite Hch, Hp4, Hp3, Hp2, elem_of_elements, elem_of_difference, elem_of_list_to_set. destruct (decide (z ∈ orig)), (decide (z ∈ new.*1)); tauto.
      * apply v_below0; [done|set_solver].
    + intros y i' Hy Hyr HyF Hi'. change (inst t4 y) in Hy. change (identity_of t4 y = Some i') in Hi'. destruct (decide (y = c)) as [-> | Hne]; [by left|].
      apply (v_shown0 y i'); [done..|set_solver|done].
  - destruct (Hgt4) as [G1 G2 G3 G4 G5 G6 G7 G8 G9]. split; try done. intros i' y Hne Hy. cbn. rewrite lookup_insert_ne; [by eapply G5|].
    intros <-. apply (v_cells _ _ Hinv) in Hy as [Hy Hyi]. by apply Hne, (ident_inj _ _ _ _ _ Hinv Hy Hic Hyi).
  - intros ->. intros m Hm. change (par t5 m) with (par t4 m). apply Hs4. rewrite Hpar3.
    + rewrite Hcell2. by destruct (Hp1 m) as [-> _].
    + set_solver.
Qed.

Lemma recalculate_spec o c t :
  Inv ∅ t → isActive t c = true → outcome_ok c o →
  ∃ t', _recalculateCell o c t = (Ok tt, t') ∧ Inv ∅ t' ∧ grows c t t' ∧ c ∈ _nodesToBroadcast t'.
Proof.
  intros Hinv Hact Hok. destruct (isActive_true _ _ _ Hinv Hact) as [Hic _]. destruct (inst_ident _ _ _ Hinv Hic) as (i & Hi & _).
  destruct (calculates_all o ∅ c t i (list_to_set (children (the_cell t c)))) as (t' & Hrun & Hinv' & Hg & Hb & _); try done.
  - apply (Inv_mono ∅); [set_solver|done].
  - by apply (v_children _ _ Hinv).
  - intros y. rewrite elem_of_list_to_set. by apply (v_below _ _ Hinv).
  - by exists t'.
Qed.

(** ** Calculating what is dirty *)

(** What the calculation of several cells leaves alone *)
Record grown (t t' : Cells) : Prop := {
  gr_inst : ∀ x, inst t x → inst t' x ∧ identity_ (the_cell t' x) = identity_ (the_cell t x) ∧
    knownParent (the_cell t' x) = knownParent (the_cell t x);
  gr_cell : ∀ x, inst t x → x ∉ _nodesToBroadcast t' →
    children (the_cell t' x) = children (the_cell t x) ∧ exportData (the_cell t' x) = exportData (the_cell t x);
  gr_broadcast : _nodesToBroadcast t ⊆ _nodesToBroadcast t';
  gr_asmoved : _nodesToBroadcastAsMoved t' = _nodesToBroadcastAsMoved t;
  gr_discard : _nodeIdsToDiscard t' = _nodeIdsToDiscard t;
  gr_channel : _nodesKnownToChannel t' = _nodesKnownToChannel t;
}.

Lemma grown_core t t' : core t' = core t → grown t t'.
Proof.
  intros Hc. assert (∀ x, the_cell t' x = the_cell t x) as H by (intros x; by apply core_cell).
  unfold core in Hc. injection Hc as _ _ _ H4 H5 H6 _ H8 _. split; rewrite ?H4, ?H5, ?H6, ?H8; try done.
  - intros x. unfold inst. by rewrite H.
  - intros x _ _. by rewrite H.
Qed.

Lemma grown_trans t1 t2 t3 : grown t1 t2 → grown t2 t3 → grown t1 t3.
Proof.
  intros [Hi1 Hc1 Hb1 Ha1 Hd1 Hn1] [Hi2 Hc2 Hb2 Ha2 Hd2 Hn2]. split; try (by etrans).
  - intros x Hx. destruct (Hi1 x Hx) as (Hx' & <- & <-). by apply Hi2.
  - intros x Hx Hn. destruct (Hc1 x Hx) as [<- <-]; [by intros H; apply Hn, Hb2|]. apply Hc2; [by apply Hi1|done].
Qed.

Lemma grown_grows c t t' : grows c t t' → c ∈ _nodesToBroadcast t' → grown t t'.
Proof. intros [] Hc. split; try done. intros x Hx Hn. apply g_cell; [done|]. by intros ->. Qed.

(** The outcomes of a turn *)
Definition good_outcomes (outcome : Cells → nat → Outcome) : Prop :=
  ∀ t c, Inv ∅ t → inst t c → outcome_ok c (outcome t c).

Lemma keep_good : good_outcomes keep.
Proof.
  intros t c Hinv Hc. unfold keep. cbn.
  assert (∀ y, y ∈ children (the_cell t c) → y ≠ root ∧ y ≠ c) as Hch.
  { intros y Hy%(v_below _ _ Hinv); [|done|set_solver]. split; intros ->; [|by apply (v_self _ _ Hinv c)].
    by apply (proj2 (proj2 (v_root _ _ Hinv)) c). }
  induction (children (the_cell t c)) as [|y l IH]; cbn; [done|].
  split; [apply Hch; by left|]. split; [done|]. apply IH. intros z Hz. apply Hch. by right.
Qed.

Definition dirty_step (outcome : Cells → nat → Outcome) (c : nat) (didAnything : bool) : MT bool :=
  active ← gets (λ t, isActive t c);
  if (active : bool) then
    o ← gets (λ t, outcome t c);
    _recalculateCell o c;;
    modify (λ t, t <| _dirtyNodes ::= λ s, s ∖ {[c]} |>);;
    mret true
  else mret didAnything.

Lemma dirty_steps outcome nodes : good_outcomes outcome → ∀ did t, Inv ∅ t →
  ∃ b t', foldM nodes did (dirty_step outcome) t = (Ok b, t') ∧ Inv ∅ t' ∧ grown t t' ∧ (did = true → b = true) ∧
    (root ∈ nodes → root ∈ _nodesToBroadcast t' ∧ b = true).
Proof.
  intros Hgood. induction nodes as [|c nodes IH]; intros did t Hinv; cbn [foldM].
  { exists did, t. split_and!; try done; try by apply grown_core. intros H. by apply not_elem_of_nil in H. }
  assert (∃ b t1, dirty_step outcome c did t = (Ok b, t1) ∧ Inv ∅ t1 ∧ grown t t1 ∧ (did = true → b = true) ∧
    (root = c → root ∈ _nodesToBroadcast t1 ∧ b = true)) as (b & t1 & Hrun & Hinv1 & Hg1 & Hb1 & Hr1).
  { unfold dirty_step. rewrite run_bind, run_gets. cbn beta iota. destruct (isActive t c) eqn:Hact.
    - destruct (isActive_true _ _ _ Hinv Hact) as [Hc _]. rewrite run_bind, run_gets. cbn beta iota.
      destruct (recalculate_spec (outcome t c) c t Hinv Hact (Hgood t c Hinv Hc)) as (t1 & Hrun & Hinv1 & Hg & Hb).
      rewrite run_bind, Hrun. cbn beta iota. rewrite run_bind, run_modify. cbn beta iota. rewrite run_mret.
      set (t2 := t1 <| _dirtyNodes ::= _ |>). exists true, t2. split; [done|]. split; [by apply (Inv_core _ t1)|].
      split; [|by split; [|intros ->]]. apply (grown_trans _ t1); [by eapply grown_grows|by apply grown_core].
    - exists did, t. rewrite run_mret. split_and!; try done; try by apply grown_core. intros <-. done. }
  change (bind (dirty_step outcome c did) (λ acc', foldM nodes acc' (dirty_step outcome)) t) with
    ((dirty_step outcome c did ≫= λ acc', foldM nodes acc' (dirty_step outcome)) t).
  rewrite run_bind, Hrun. cbn beta iota. destruct (IH b t1 Hinv1) as (b' & t' & Hrun' & Hinv' & Hg' & Hb' & Hr').
  exists b', t'. split_and!; try done; [by eapply grown_trans|auto|].
  intros [Hc | Hc]%elem_of_cons; [|by apply Hr']. destruct (Hr1 Hc) as [? ?]. split; [by apply (gr_broadcast _ _ Hg')|auto].
Qed.

Lemma dirty_round_spec outcome t : good_outcomes outcome → Inv ∅ t →
  ∃ b t', dirty_round outcome t = (Ok b, t') ∧ Inv ∅ t' ∧ grown t t' ∧
    (root ∈ _dirtyNodes t → root ∈ _nodesToBroadcast t' ∧ b = true).
Proof.
  intros Hgood Hinv. unfold dirty_round. rewrite run_bind, run_gets. cbn beta iota.
  set (nodes := by_level _ _). destruct (dirty_steps outcome nodes Hgood false t Hinv) as (b & t' & Hrun & Hinv' & Hg & _ & Hr).
  exists b, t'. split; [exact Hrun|]. split_and!; [done..|]. intros Hroot. apply Hr. unfold nodes, by_level.
  rewrite merge_sort_Permutation. apply list_elem_of_filter. split; [done|]. by apply elem_of_elements.
Qed.

Lemma dirty_rounds_spec rounds : Forall (λ round, ∀ c, outcome_ok c (round c)) rounds → ∀ t, Inv ∅ t →
  ∃ t', dirty_rounds rounds t = (Ok tt, t') ∧ Inv ∅ t' ∧ grown t t' ∧ _dirtyNodes t' = ∅ ∧
    (root ∈ _dirtyNodes t → root ∈ _nodesToBroadcast t').
Proof.
  intros Hok. induction Hok as [|round rounds Hround Hok IH]; intros t Hinv; cbn [dirty_rounds].
  - destruct (dirty_round_spec keep t keep_good Hinv) as (b & t1 & Hrun & Hinv1 & Hg1 & Hr1).
    rewrite run_bind, Hrun. cbn beta iota. rewrite run_modify. eexists. split; [done|]. split; [by apply (Inv_core _ t1)|].
    split; [eapply grown_trans; [done|by apply grown_core]|]. split; [done|]. apply Hr1.
  - destruct (dirty_round_spec (λ _, round) t) as (b & t1 & Hrun & Hinv1 & Hg1 & Hr1); [by intros ? ? _ _|done|].
    rewrite run_bind, Hrun. cbn beta iota. destruct b.
    + destruct (IH t1 Hinv1) as (t' & Hrun' & Hinv' & Hg' & Hd' & Hr'). exists t'. split_and!; [done..|by eapply grown_trans|done|].
      intros Hroot. apply (gr_broadcast _ _ Hg'). by apply Hr1.
    + rewrite run_modify. eexists. split; [done|]. split; [by apply (Inv_core _ t1)|].
      split; [eapply grown_trans; [done|by apply grown_core]|]. split; [done|]. intros Hroot. by destruct (Hr1 Hroot).
Qed.

Lemma update_dirty_spec p t : pass_ok p → Inv ∅ t →
  ∃ t', update_dirty p t = (Ok tt, t') ∧ Inv ∅ t' ∧ grown t t' ∧ _dirtyNodes t' = ∅ ∧
    (root ∈ _dirtyNodes t → root ∈ _nodesToBroadcast t').
Proof.
  intros Hok Hinv. unfold update_dirty. destruct (marks_run ∅ root (marked p) t Hinv) as (t1 & Hrun & Hcore & _ & Hd & _).
  rewrite run_bind, Hrun. cbn beta iota. unfold _updateAllDirtyCells. rewrite run_bind, run_gets. cbn beta iota.
  pose proof (Inv_core _ _ _ Hcore Hinv) as Hinv1. case_bool_decide as Hnone.
  - exists t1. rewrite run_mret. split_and!; try done; try by apply grown_core. intros Hroot%Hd. rewrite Hnone in Hroot. set_solver.
  - destruct (dirty_rounds_spec (rounds p) Hok t1 Hinv1) as (t' & Hrun' & Hinv' & Hg' & Hd' & Hr').
    exists t'. split_and!; try done; [eapply grown_trans; [by apply grown_core|done]|]. intros Hroot. by apply Hr', Hd.
Qed.

Lemma quiet_update t : _dirtyNodes t = ∅ → update_dirty quiet_pass t = (Ok tt, t).
Proof.
  intros Hd. unfold update_dirty. cbn [marked rounds quiet_pass]. rewrite run_bind. cbn [forM]. change (ret tt t) with (Ok tt, t).
  cbn beta iota. unfold _updateAllDirtyCells. rewrite run_bind, run_gets. cbn beta iota. by rewrite Hd, bool_decide_true.
Qed.
