(* ===== verification/CellTreeClean.v ===== *)
(** * Cleaning up and announcing moves

    [_cellOutOfScope] takes a cell out of the tree with all that is below it, once each;
    [_cleanUpAllOrphans] does so for every orphan, and leaves exactly the cells that hang under the
    root ([clean_spec]); [_updateAllMovedCells] announces each cell that moved to its new parent
    ([moves_spec]). *)

From Stdlib Require Import Lia.
From stdpp Require Import options.
From S2P Require Import Prelude CellGraph CellTree CellTreeInvariant CellTreePasses.

(** ** One cell and what is below it *)


Lemma small_set {A} `{Countable A} (X : gset A) x y : (size X ≤ 1)%nat → x ∈ X → y ∈ X → x = y.
Proof.
  intros HX Hx Hy. apply (size_singleton_inv X); [|done..]. apply Nat.le_antisymm; [done|].
  destruct (size X) eqn:E; [|lia]. apply size_empty_inv in E. set_solver.
Qed.

(** ** The cells below a cell *)

Inductive under (t : Cells) (x : nat) : nat → Prop :=
  | under_refl : under t x x
  | under_step y p : par t y = Some p → under t x p → under t x y.

Lemma top_of_mono t c r k : top_of k t c = Some r → ∀ k', (k ≤ k')%nat → top_of k' t c = Some r.
Proof.
  revert c. induction k as [|k IH]; intros c Hc [|k'] Hk; [done|done|lia|]. cbn in *. destruct (par t c) as [p|]; [|done].
  apply IH; [done|lia].
Qed.

(** A chain of parents that ends has no cycle. *)
Lemma no_cycle t k x c r : top_of k t x = Some r → par t x = Some c → ¬ under t x c.
Proof.
  intros Hk Hx Hc. assert (∀ k y, under t x y → top_of k t y = None) as Hnone; [|by rewrite Hnone in Hk by constructor].
  clear k Hk. induction k as [|k IH]; [done|]. intros y Hy. cbn. inversion Hy as [|? p Hp Hu]; subst; [by rewrite Hx, IH|by rewrite Hp, IH].
Qed.

Lemma under_top t x c k r : under t x c → par t x = None → top_of k t c = Some r → r = x.
Proof.
  intros Hu Hx. revert k. induction Hu as [|y p Hy Hu IH]; intros [|k]; cbn; [done|by rewrite Hx; intros [= <-]|done|].
  rewrite Hy. by apply IH.
Qed.

Lemma under_split t x y : under t x y ↔ y = x ∨ ∃ z, par t z = Some x ∧ under t z y.
Proof.
  split.
  - induction 1 as [|y p Hp Hu IH]; [by left|right]. destruct IH as [-> | (z & Hz & Hu')].
    + exists y. split; [done|constructor].
    + exists z. split; [done|]. by eapply under_step.
  - intros [-> | (z & Hz & Hu)]; [constructor|]. induction Hu as [|y p Hp Hu IH]; [eapply under_step; [done|constructor]|by eapply under_step].
Qed.

(** ** Taking cells out of the tree

    [t] is [t0] without the cells of [D]; those of [E] still have the parents they had. *)
Record removed (t0 : Cells) (D E : nat → Prop) (t : Cells) : Prop := {
  rm_dec : ∀ y, D y ∨ ¬ D y;
  rm_dead : ∀ y, D y → inst t0 y ∧ y ≠ root ∧ in_cells (the_cell t y) = false ∧ identity_ (the_cell t y) = None ∧ par t y = None;
  rm_parents : ∀ y, D y → ¬ E y → parents t y = ∅;
  rm_late : ∀ y, D y → E y → parents t y = parents t0 y;
  rm_out : ∀ y, ¬ D y → the_cell t y = the_cell t0 y;
  rm_closed : ∀ y p, D p → par t0 y = Some p → D y;
  rm_cells : ∀ i c, _cells t !! i = Some c ↔ _cells t0 !! i = Some c ∧ ¬ D c;
  rm_known : ∀ i, _cellsKnownChildren t !! i = match _cells t !! i with Some _ => _cellsKnownChildren t0 !! i | None => None end;
  rm_broadcast : ∀ c, c ∈ _nodesToBroadcast t ↔ c ∈ _nodesToBroadcast t0 ∧ ¬ D c;
  rm_asmoved : ∀ c, c ∈ _nodesToBroadcastAsMoved t ↔ c ∈ _nodesToBroadcastAsMoved t0 ∧ ¬ D c;
  rm_discard : ∀ i, i ∈ _nodeIdsToDiscard t ↔
    i ∈ _nodeIdsToDiscard t0 ∨ (i ∈ _nodesKnownToChannel t0 ∧ ∃ d, D d ∧ identity_of t0 d = Some i);
  rm_channel : _nodesKnownToChannel t = _nodesKnownToChannel t0;
  rm_id : _id t = _id t0;
  rm_moved : _movedCells t = _movedCells t0;
  rm_dirty : _dirtyNodes t = _dirtyNodes t0;
}.

Lemma removed_ext t0 D D' E E' t : (∀ y, D y ↔ D' y) → (∀ y, E y ↔ E' y) → removed t0 D E t → removed t0 D' E' t.
Proof.
  intros HD HE []. split; try done.
  - intros y. by rewrite <-HD.
  - intros y. rewrite <-HD. apply rm_dead0.
  - intros y. rewrite <-HD, <-HE. apply rm_parents0.
  - intros y. rewrite <-HD, <-HE. apply rm_late0.
  - intros y. rewrite <-HD. apply rm_out0.
  - intros y p. rewrite <-!HD. apply rm_closed0.
  - intros i c. by rewrite <-HD.
  - intros c. by rewrite <-HD.
  - intros c. by rewrite <-HD.
  - intros i. setoid_rewrite <-HD. apply rm_discard0.
Qed.

Lemma removed_refl t : Inv ∅ t → removed t (λ _, False) (λ _, False) t.
Proof.
  intros Hinv. split; try done; try tauto.
  - intros i. destruct (_cells t !! i) eqn:E; [done|]. apply eq_None_not_Some. rewrite (v_dom _ _ Hinv). by rewrite E; intros [].
  - intros i. split; [by left|]. by intros [? | (_ & _ & [] & _)].
Qed.

(** The heap of a state in which only the set of orphans differs *)
Lemma removed_orphans t0 D E t f : removed t0 D E t → removed t0 D E (t <| _orphanedCells ::= f |>).
Proof. intros []. by split. Qed.

Section cleaning.
Context (t0 : Cells) (Hinv : Inv ∅ t0).
Context (Hone : ∀ c, inst t0 c → c ≠ root → (size (parents t0 c) ≤ 1)%nat).
Context (Htop : ∀ c, inst t0 c → is_Some (top t0 c)).

Lemma one_parent c x : inst t0 c → x ∈ children (the_cell t0 c) → x ≠ root ∧ inst t0 x ∧ par t0 x = Some c.
Proof using Hinv Hone Htop.
  intros Hc Hx%(v_below _ _ Hinv c Hc (not_elem_of_empty c)).
  assert (x ≠ root) as Hxr by (intros ->; by apply (proj2 (proj2 (v_root _ _ Hinv)) c)).
  destruct (has_parent _ _ _ _ Hinv Hxr Hx) as (Hix & _ & Hp). split_and!; [done..|].
  pose proof (v_parent _ _ Hinv x Hxr) as Hv. destruct (par t0 x) as [p|] eqn:E; [|done].
  apply (small_set (parents t0 x)); [by apply Hone|done..].
Qed.

Lemma parents_one c x : inst t0 c → x ∈ children (the_cell t0 c) → parents t0 x ∖ {[Some c]} = ∅.
Proof using Hinv Hone Htop.
  intros Hc Hx. destruct (one_parent c x Hc Hx) as (Hxr & Hix & Hp). apply set_eq. intros p.
  rewrite elem_of_difference, elem_of_singleton. split; [|by intros ?%not_elem_of_empty]. intros [Hpx []].
  apply (small_set (parents t0 x)); [by apply Hone|done|]. by apply (v_below _ _ Hinv c Hc (not_elem_of_empty c)).
Qed.

Lemma child_of c x : par t0 x = Some c → x ≠ root → inst t0 c ∧ x ∈ children (the_cell t0 c).
Proof using Hinv Hone Htop.
  intros Hp Hx. pose proof (v_parent _ _ Hinv x Hx) as Hv. rewrite Hp in Hv.
  destruct (has_parent _ _ _ _ Hinv Hx Hv) as (_ & Hc & _). split; [done|].
  by apply (v_below _ _ Hinv c Hc (not_elem_of_empty c)).
Qed.

Lemma root_no_parent x : par t0 x ≠ None → x ≠ root.
Proof using Hinv Hone Htop. intros Hp ->. by apply Hp, (v_root _ _ Hinv). Qed.

Lemma closed_under D E t x y : removed t0 D E t → D x → under t0 x y → D y.
Proof using Hinv Hone Htop. intros Hr Hx. induction 1 as [|y p Hp Hu IH]; [done|]. by eapply (rm_closed _ _ _ _ Hr). Qed.

Lemma removed_heap D E E' t c f :
  removed t0 D E t → (∀ y, in_cells (the_cell (heap_set c f t) y) = in_cells (the_cell t y) ∧
    identity_ (the_cell (heap_set c f t) y) = identity_ (the_cell t y) ∧ par (heap_set c f t) y = par t y) →
  (∀ y, D y → ¬ E' y → parents (heap_set c f t) y = ∅) → (∀ y, D y → E' y → parents (heap_set c f t) y = parents t0 y) →
  (∀ y, ¬ D y → the_cell (heap_set c f t) y = the_cell t0 y) → removed t0 D E' (heap_set c f t).
Proof using Hinv Hone Htop.
  intros [] Hs H1 H2 H3. split; try done. intros y Hy. destruct (Hs y) as (-> & -> & ->). by apply rm_dead0.
Qed.

(** A dead child loses its dead parent. *)
Lemma removed_finish D E t x c :
  removed t0 D E t → D x → (∀ y, E y ↔ y = x ∧ E y) → (E x → parents t0 x ∖ {[Some c]} = ∅) → (E x ∨ ¬ E x) →
  removed t0 D (λ _, False) (heap_set x (without_parent c) t).
Proof using Hinv Hone Htop.
  intros Hr Hx HE Hp Hdec. destruct (rm_dead _ _ _ _ Hr x Hx) as (_ & _ & _ & _ & Hparx).
  assert (parents (heap_set x (without_parent c) t) x = ∅) as Hpx.
  { rewrite the_cell_set, decide_True by done. unfold without_parent. cbn. destruct Hdec as [He | He].
    - rewrite (rm_late _ _ _ _ Hr x Hx He). by apply Hp.
    - rewrite (rm_parents _ _ _ _ Hr x Hx He). set_solver. }
  apply (removed_heap D E); [done|..].
  - intros y. rewrite the_cell_set. destruct (decide (y = x)) as [-> | ]; [|done]. split_and!; [done..|]. unfold without_parent. cbn.
    rewrite Hparx. by rewrite bool_decide_false.
  - intros y Hy _. destruct (decide (y = x)) as [-> | Hne]; [done|]. rewrite the_cell_set, decide_False by done.
    apply (rm_parents _ _ _ _ Hr); [done|]. by intros [? _]%HE.
  - done.
  - intros y Hy. rewrite the_cell_set, decide_False by (by intros ->). by apply (rm_out _ _ _ _ Hr).
Qed.

(** The spec of taking one cell out with all below it *)
Definition takes_out (fuel : nat) : Prop := ∀ j x t D,
  removed t0 D (λ _, False) t → ¬ D x → inst t0 x → x ≠ root → top_of j t0 x = None → (S (_id t0) < fuel + j)%nat →
  ∃ t', _cellOutOfScope fuel x t = (Ok tt, t') ∧ removed t0 (λ y, D y ∨ under t0 x y) (λ y, y = x) t' ∧ _orphanedCells t' = _orphanedCells t.

Definition below_step (fuel c x : nat) : MT unit :=
  mine ← gets (λ t, bool_decide (parent (the_cell t x) = Some c));
  whenM mine (_cellOutOfScope fuel x);;
  removeParent x c.

Lemma below_step_spec fuel j c x t D :
  takes_out fuel → removed t0 D (λ _, False) t → inst t0 c → x ∈ children (the_cell t0 c) →
  top_of j t0 c = None → (S (_id t0) < fuel + S j)%nat →
  ∃ t', below_step fuel c x t = (Ok tt, t') ∧ removed t0 (λ y, D y ∨ under t0 x y) (λ _, False) t' ∧ _orphanedCells t' = _orphanedCells t.
Proof using Hinv Hone Htop.
  intros Hout Hr Hc Hx Hj Hf. destruct (one_parent c x Hc Hx) as (Hxr & Hix & Hp). unfold below_step.
  rewrite run_bind, run_gets. cbn beta iota. destruct (rm_dec _ _ _ _ Hr x) as [Hd | Hd].
  - destruct (rm_dead _ _ _ _ Hr x Hd) as (_ & _ & _ & _ & ->). rewrite bool_decide_false by done. rewrite run_bind. cbn [whenM].
    change (ret tt t) with (Ok tt, t). cbn beta iota. rewrite removeParent_run by done. eexists. split; [done|]. split; [|done].
    apply (removed_ext _ D _ (λ _, False)); [|done|].
    + intros y. split; [by left|]. intros [? | Hu]; [done|]. by eapply closed_under.
    + apply (removed_finish D (λ _, False)); [done|done|tauto|done|right; by intros []].
  - rewrite (rm_out _ _ _ _ Hr x Hd), Hp. rewrite bool_decide_true by done. cbn [whenM].
    destruct (Hout (S j) x t D) as (t1 & Hrun & Hr1 & Ho1); [done..|cbn; by rewrite Hp|done|].
    rewrite run_bind, Hrun. cbn beta iota. rewrite removeParent_run by done. eexists. split; [done|]. split; [|done].
    apply (removed_finish _ (λ y, y = x)); [done|right; constructor|tauto| |by left]. intros _. by apply parents_one.
Qed.

Lemma below_steps_spec fuel j c l : ∀ t D,
  takes_out fuel → removed t0 D (λ _, False) t → inst t0 c → l ⊆ children (the_cell t0 c) →
  top_of j t0 c = None → (S (_id t0) < fuel + S j)%nat →
  ∃ t', forM l (below_step fuel c) t = (Ok tt, t') ∧
    removed t0 (λ y, D y ∨ ∃ z, z ∈ l ∧ under t0 z y) (λ _, False) t' ∧ _orphanedCells t' = _orphanedCells t.
Proof using Hinv Hone Htop.
  induction l as [|x l IH]; intros t D Hout Hr Hc Hl Hj Hf.
  - exists t. split; [done|]. split; [|done]. apply (removed_ext _ D _ (λ _, False)); [|done..]. intros y. split; [by left|].
    intros [? | (z & Hz & _)]; [done|]. by apply not_elem_of_nil in Hz.
  - rewrite run_forM_cons. destruct (below_step_spec fuel j c x t D) as (t1 & Hrun & Hr1 & Ho1); [done|done|done|apply Hl; by left|done|done|].
    rewrite Hrun. destruct (IH t1 _ Hout Hr1 Hc) as (t' & Hrun' & Hr' & Ho'); [intros z Hz; apply Hl; by right|done|done|].
    exists t'. split; [done|]. split; [|congruence]. apply (removed_ext _ (λ y, (D y ∨ under t0 x y) ∨ ∃ z, z ∈ l ∧ under t0 z y) _ (λ _, False)); [|done|exact Hr'].
    intros y. setoid_rewrite elem_of_cons. split.
    + intros [[? | ?] | (z & ? & ?)]; [by left|right; exists x; auto|right; exists z; auto].
    + intros [? | (z & [-> | ?] & ?)]; [auto|auto|right; exists z; auto].
Qed.

(** Taking out a cell below which nothing is left *)
Definition taken (x : nat) (i : Ident) (t : Cells) : Cells :=
  heap_set x (λ y, y <| in_cells := false |> <| identity_ := None |> <| parent := None |>)
    ((if bool_decide (i ∈ _nodesKnownToChannel t) then t <| _nodeIdsToDiscard ::= union {[i]} |> else t)
       <| _nodesToBroadcast ::= λ s, s ∖ {[x]} |> <| _nodesToBroadcastAsMoved ::= λ s, s ∖ {[x]} |>
       <| _cells ::= delete i |> <| _cellsKnownChildren ::= delete i |>).

Lemma removed_taken D t x i :
  removed t0 D (λ _, False) t → ¬ D x → inst t0 x → x ≠ root → identity_of t0 x = Some i →
  (∀ y, par t0 y = Some x → D y) → removed t0 (λ y, D y ∨ y = x) (λ y, y = x) (taken x i t).
Proof using Hinv Hone Htop.
  intros Hr Hx Hix Hxr Hi Hchild. pose proof Hr as [].
  assert (∀ y, the_cell (taken x i t) y = if decide (y = x) then
      the_cell t x <| in_cells := false |> <| identity_ := None |> <| parent := None |> else the_cell t y) as Hcell.
  { intros y. unfold taken. rewrite the_cell_set. by destruct (bool_decide (i ∈ _nodesKnownToChannel t)). }
  assert (∀ y, identity_of t0 y = Some i → y = x) as Hinj.
  { intros y Hy. apply (ident_inj _ _ _ _ _ Hinv (ident_inst _ _ _ _ Hinv Hy) Hix Hy Hi). }
  assert (_cells (taken x i t) = delete i (_cells t) ∧ _cellsKnownChildren (taken x i t) = delete i (_cellsKnownChildren t) ∧
    _nodesToBroadcast (taken x i t) = _nodesToBroadcast t ∖ {[x]} ∧ _nodesToBroadcastAsMoved (taken x i t) = _nodesToBroadcastAsMoved t ∖ {[x]} ∧
    _nodesKnownToChannel (taken x i t) = _nodesKnownToChannel t ∧ _id (taken x i t) = _id t ∧ _movedCells (taken x i t) = _movedCells t ∧
    _dirtyNodes (taken x i t) = _dirtyNodes t) as (E1 & E2 & E3 & E4 & E5 & E6 & E7 & E8).
  { unfold taken. by destruct (bool_decide (i ∈ _nodesKnownToChannel t)). }
  split; rewrite ?E1, ?E2, ?E3, ?E4, ?E5, ?E6, ?E7, ?E8; try done.
  - intros y. destruct (decide (y = x)) as [-> | ]; [left; by right|]. destruct (rm_dec0 y); [left; by left|right]. by intros [? | ?].
  - intros y Hy. rewrite Hcell. destruct (decide (y = x)) as [-> | ]; [by split_and!|]. destruct Hy as [Hy | ?]; [|done]. by apply rm_dead0.
  - intros y Hy Hne. rewrite Hcell, decide_False by done. destruct Hy as [Hy | ?]; [|done]. apply rm_parents0; tauto.
  - intros y _ ->. rewrite Hcell, decide_True by done. cbn. by rewrite rm_out0.
  - intros y Hy. rewrite Hcell, decide_False by tauto. apply rm_out0. tauto.
  - intros y p [Hp | ->] Hy; left; [by eapply rm_closed0|by apply Hchild].
  - intros i' c. rewrite lookup_delete_Some, rm_cells0. split; [|intros [H1 H2]; split_and!; [|done|tauto]].
    + intros (Hne & Hc & HD). split; [done|]. intros [? | ->]; [done|]. apply (v_cells _ _ Hinv) in Hc as [_ Hc]. congruence.
    + intros <-. apply H2. right. apply Hinj. by destruct (proj1 (v_cells _ _ Hinv i c) H1).
  - intros i'. destruct (decide (i' = i)) as [-> | Hne]; [by rewrite !lookup_delete_eq|]. rewrite !lookup_delete_ne by done. apply rm_known0.
  - intros c. rewrite elem_of_difference, elem_of_singleton, rm_broadcast0. tauto.
  - intros c. rewrite elem_of_difference, elem_of_singleton, rm_asmoved0. tauto.
  - intros i'. assert (i' ∈ _nodeIdsToDiscard (taken x i t) ↔ i' ∈ _nodeIdsToDiscard t ∨ (i' = i ∧ i ∈ _nodesKnownToChannel t0)) as ->.
    { rewrite <-rm_channel0. unfold taken. case_bool_decide; cbn; set_solver. }
    rewrite rm_discard0. split.
    + intros [[? | (? & d & ? & ?)] | [-> ?]]; [by left|right..]; [split; [done|exists d; auto]|split; [done|exists x; auto]].
    + intros [? | (? & d & [? | ->] & Hd)]; [auto|left; right; eauto|right]. rewrite Hi in Hd. injection Hd as <-. done.
Qed.

Lemma scope_spec fuel : takes_out fuel.
Proof using Hinv Hone Htop.
  induction fuel as [|fuel IH]; intros j x t D Hr Hx Hix Hxr Hj Hf.
  { exfalso. destruct (Htop x Hix) as [r Hr']. unfold top in Hr'. apply (top_of_mono _ _ _ _) with (k' := j) in Hr'; [congruence|lia]. }
  cbn [_cellOutOfScope]. rewrite run_bind, run_gets. cbn beta iota. rewrite (rm_out _ _ _ _ Hr x Hx), Hix.
  rewrite run_bind, run_assertM. cbn beta iota. rewrite run_bind, run_gets. cbn beta iota. rewrite (rm_out _ _ _ _ Hr x Hx).
  destruct (below_steps_spec fuel j x (children (the_cell t0 x)) t D IH Hr Hix) as (t1 & Hrun1 & Hr1 & Ho1); [done|done|lia|].
  rewrite run_bind. change (forM (children (the_cell t0 x)) _ t) with (forM (children (the_cell t0 x)) (below_step fuel x) t). rewrite Hrun1. cbn beta iota.
  set (D1 := λ y, D y ∨ ∃ z, z ∈ children (the_cell t0 x) ∧ under t0 z y) in *.
  assert (¬ D1 x) as Hx1.
  { intros [? | (z & Hz & Hu)]; [done|]. destruct (one_parent x z Hix Hz) as (_ & Hiz & Hpz). destruct (Htop z Hiz) as [r Hr'].
    by apply (no_cycle _ _ _ _ _ Hr' Hpz). }
  destruct (inst_ident _ _ _ Hinv Hix) as (i & Hi & Hci).
  assert (identity_of t1 x = Some i) as Hi1 by (rewrite <-Hi; apply identity_of_eq; by rewrite (rm_out _ _ _ _ Hr1 x Hx1)).
  rewrite run_bind, (identity_run _ _ _ Hi1). cbn beta iota. rewrite run_bind, run_modify. cbn beta iota. rewrite run_bind, run_modify. cbn beta iota.
  rewrite run_bind, run_gets. cbn beta iota.
  set (t2 := (if bool_decide (i ∈ _nodesKnownToChannel t1) then _ else t1) <| _nodesToBroadcast ::= _ |> <| _nodesToBroadcastAsMoved ::= _ |>).
  assert (_cells t2 = _cells t1 ∧ _cellsKnownChildren t2 = _cellsKnownChildren t1) as [E1 E2] by (unfold t2; by destruct (bool_decide _)).
  rewrite E1, E2. assert (_cells t1 !! i = Some x) as Hci1 by (by apply (rm_cells _ _ _ _ Hr1)).
  rewrite Hci1. rewrite run_bind, run_lift_option. cbn beta iota. rewrite run_bind, run_modify. cbn beta iota.
  assert (is_Some (_cellsKnownChildren t1 !! i)) as [K HK].
  { rewrite (rm_known _ _ _ _ Hr1), Hci1. by apply (v_dom _ _ Hinv). }
  rewrite HK, run_bind, run_lift_option. cbn beta iota. rewrite run_bind, run_modify. cbn beta iota.
  exists (taken x i t1). split; [done|]. split.
  - apply (removed_ext _ (λ y, D1 y ∨ y = x) _ (λ y, y = x)); [|done|].
    + intros y. unfold D1. rewrite (under_split t0 x y). split.
      * intros [[? | (z & Hz & Hu)] | ->]; [by left|right; right; exists z|right; by left]. split; [|done]. by apply (one_parent x z Hix Hz).
      * intros [? | [-> | (z & Hz & Hu)]]; [by left; left|by right|]. left. right. exists z. split; [|done].
        apply (child_of x z); [done|]. apply root_no_parent. by rewrite Hz.
    + apply removed_taken; try done. intros y Hy. right. exists y. split; [|constructor].
      apply (child_of x y); [done|]. apply root_no_parent. by rewrite Hy.
  - rewrite <-Ho1. unfold taken. by destruct (bool_decide (i ∈ _nodesKnownToChannel t1)).
Qed.
End cleaning.

(** ** Orphans *)

Section orphans.
Context (t0 : Cells) (Hinv : Inv ∅ t0).
Context (Hone : ∀ c, inst t0 c → c ≠ root → (size (parents t0 c) ≤ 1)%nat).
Context (Htop : ∀ c, inst t0 c → is_Some (top t0 c)).

Definition clean_step (c : nat) : MT unit :=
  orphaned ← gets (λ t, isOrphaned t c);
  assertM orphaned;;
  modify (λ t, t <| _orphanedCells ::= λ s, s ∖ {[c]} |>);;
  n ← gets _id;
  _cellOutOfScope (S (S n)) c.

Lemma clean_steps_spec l : ∀ t D,
  removed t0 D (λ _, False) t → NoDup l → (∀ c, c ∈ l → c ∈ _orphanedCells t0 ∧ ¬ D c) →
  ∃ t', forM l clean_step t = (Ok tt, t') ∧ removed t0 (λ y, D y ∨ ∃ o, o ∈ l ∧ under t0 o y) (λ _, False) t' ∧
    (∀ y, y ∈ _orphanedCells t' ↔ y ∈ _orphanedCells t ∧ y ∉ l).
Proof using Hinv Hone Htop.
  induction l as [|c l IH]; intros t D Hr Hnd Hl.
  - exists t. split; [done|]. split.
    + apply (removed_ext _ D _ (λ _, False)); [|done..]. intros y. split; [by left|].
      intros [? | (z & Hz & _)]; [done|]. by apply not_elem_of_nil in Hz.
    + intros y. pose proof (not_elem_of_nil y). tauto.
  - apply NoDup_cons in Hnd as [Hcl Hnd]. destruct (Hl c) as [Ho Hd]; [by left|].
    pose proof Ho as (Hcr & Hic & Hpc)%(v_orphans _ _ Hinv).
    assert (isOrphaned t c = true) as Horph.
    { unfold isOrphaned. rewrite (rm_out _ _ _ _ Hr c Hd). unfold inst in Hic. rewrite Hic. by rewrite !bool_decide_true. }
    set (t1 := t <| _orphanedCells ::= λ s, s ∖ {[c]} |>).
    assert (removed t0 D (λ _, False) t1) as Hr1 by (by apply removed_orphans).
    destruct (scope_spec t0 Hinv Hone Htop (S (S (_id t1))) 0 c t1 D Hr1) as (t2 & Hrun & Hr2 & Ho2); [done..|rewrite (rm_id _ _ _ _ Hr1); lia|].
    assert (clean_step c t = (Ok tt, t2)) as Hstep.
    { unfold clean_step. rewrite run_bind, run_gets. cbn beta iota. rewrite Horph, run_bind, run_assertM. cbn beta iota.
      rewrite run_bind, run_modify. cbn beta iota. rewrite run_bind, run_gets. exact Hrun. }
    rewrite run_forM_cons, Hstep.
    destruct (IH t2 (λ y, D y ∨ under t0 c y)) as (t' & Hrun' & Hr' & Ho').
    + assert (parents t0 c = ∅) as Hps by (pose proof (v_parent _ _ Hinv c Hcr) as Hv; rewrite Hpc in Hv; by apply Hv).
      destruct (Hr2) as [R1 R2 R3 R4 R5 R6 R7 R8 R9 R10 R11 R12 R13 R14 R15]. split; try done.
      intros y Hy _. destruct (decide (y = c)) as [-> | Hne]; [by rewrite R4|by apply R3].
    + done.
    + intros o Hol. destruct (Hl o) as [Hoo Hod]; [by right|]. split; [done|]. intros [? | Hu]; [done|].
      apply (v_orphans _ _ Hinv) in Hoo as (_ & _ & Hpo). inversion Hu as [|? p Hp]; subst; [done|congruence].
    + exists t'. split; [done|]. split.
      * apply (removed_ext _ (λ y, (D y ∨ under t0 c y) ∨ ∃ o, o ∈ l ∧ under t0 o y) _ (λ _, False)); [|done|exact Hr'].
        intros y. setoid_rewrite elem_of_cons. split.
        -- intros [[? | ?] | (z & ? & ?)]; [by left|right; exists c; auto|right; exists z; auto].
        -- intros [? | (z & [-> | ?] & ?)]; [auto|auto|right; exists z; auto].
      * intros y. rewrite Ho', Ho2, not_elem_of_cons. unfold t1. cbn. rewrite elem_of_difference, elem_of_singleton. tauto.
Qed.

Lemma clean_spec :
  ∃ t', _cleanUpAllOrphans (size (_orphanedCells t0)) t0 = (Ok tt, t') ∧
    removed t0 (λ y, ∃ o, o ∈ _orphanedCells t0 ∧ under t0 o y) (λ _, False) t' ∧ _orphanedCells t' = ∅.
Proof using Hinv Hone Htop.
  assert (∀ fuel t, _orphanedCells t = ∅ → _cleanUpAllOrphans fuel t = (Ok tt, t)) as Hdone.
  { intros fuel t Ht. destruct fuel; cbn [_cleanUpAllOrphans]; rewrite run_bind, run_gets; cbn beta iota; by rewrite Ht. }
  destruct (decide (_orphanedCells t0 = ∅)) as [He | He].
  - exists t0. rewrite Hdone by done. split; [done|]. split; [|done].
    apply (removed_ext _ (λ _, False) _ (λ _, False)); [|done|by apply removed_refl]. intros y. rewrite He. split; [done|].
    intros (o & Ho & _). by apply not_elem_of_empty in Ho.
  - destruct (size (_orphanedCells t0)) as [|n] eqn:Hn; [by apply size_empty_inv, leibniz_equiv in Hn|]. cbn [_cleanUpAllOrphans].
    rewrite run_bind, run_gets. cbn beta iota. rewrite bool_decide_false by done.
    destruct (clean_steps_spec (elements (_orphanedCells t0)) t0 (λ _, False)) as (t' & Hrun & Hr & Ho).
    + by apply removed_refl.
    + apply NoDup_elements.
    + intros c Hc. split; [by apply elem_of_elements|by intros []].
    + assert (_orphanedCells t' = ∅) as Ho'.
      { apply set_eq. intros y. rewrite Ho, elem_of_elements. split; [tauto|by intros ?%not_elem_of_empty]. }
      exists t'. rewrite run_bind. change (forM (elements (_orphanedCells t0)) _ t0) with (forM (elements (_orphanedCells t0)) clean_step t0).
      rewrite Hrun. cbn beta iota. rewrite Hdone by done. split; [done|]. split; [|done].
      apply (removed_ext _ (λ y, False ∨ ∃ o, o ∈ elements (_orphanedCells t0) ∧ under t0 o y) _ (λ _, False)); [|done|exact Hr].
      intros y. setoid_rewrite elem_of_elements. tauto.
Qed.

(** Without the orphans and what is below them, the tree is in order. *)
Lemma Inv_removed D t :
  removed t0 D (λ _, False) t → _orphanedCells t = ∅ →
  (∀ y, D y → ∀ p, par t0 y = Some p → D p) → (∀ y, inst t0 y → y ≠ root → par t0 y = None → D y) → Inv ∅ t.
Proof using Hinv Hone Htop.
  intros Hr Ho Hup Horph.
  pose proof Hr as [rm_dec0 rm_dead0 rm_parents0 _ rm_out0 rm_closed0 rm_cells0 rm_known0 rm_broadcast0 rm_asmoved0 rm_discard0 rm_channel0 rm_id0 _ _].
  assert (∀ y, inst t y ↔ inst t0 y ∧ ¬ D y) as Hi.
  { intros y. destruct (rm_dec0 y) as [Hd | Hd].
    - destruct (rm_dead0 y Hd) as (_ & _ & Hin & _). unfold inst at 1. rewrite Hin. split; [done|tauto].
    - unfold inst. rewrite rm_out0 by done. tauto. }
  assert (∀ y, ¬ D y → identity_of t y = identity_of t0 y) as Hid by (intros y Hy; apply identity_of_eq; by rewrite rm_out0).
  assert (∀ y k, identity_ (the_cell t y) = Some k → ¬ D y ∧ identity_ (the_cell t0 y) = Some k) as Hk.
  { intros y k Hy. destruct (rm_dec0 y) as [Hd | Hd]; [|by rewrite rm_out0 in Hy]. destruct (rm_dead0 y Hd) as (_ & _ & _ & E & _). congruence. }
  assert (∀ y p, y ≠ root → p ∈ parents t y → ¬ D y ∧ p ∈ parents t0 y) as Hp.
  { intros y p Hy Hin. destruct (rm_dec0 y) as [Hd | Hd]; [|by rewrite rm_out0 in Hin]. rewrite rm_parents0 in Hin by (done || by intros []). set_solver. }
  assert (¬ D root) as Hroot by (intros Hd; by destruct (rm_dead0 root Hd) as (_ & ? & _)).
  assert (∀ y q, Some q ∈ parents t0 y → inst t0 y ∧ inst t0 q ∧ par t0 y = Some q) as Hpar.
  { intros y q Hq. destruct (decide (y = root)) as [-> | Hy]; [by destruct (proj2 (proj2 (v_root _ _ Hinv)) q)|].
    destruct (has_parent _ _ _ _ Hinv Hy Hq) as (? & Hiq & _). apply (v_below _ _ Hinv q Hiq (not_elem_of_empty q)) in Hq.
    split_and!; [done..|]. by apply (one_parent t0 Hinv Hone Htop q y Hiq Hq). }
  split; rewrite ?rm_channel0, ?rm_id0.
  - rewrite Hi, !rm_out0 by done. destruct (v_root _ _ Hinv) as (? & ? & ?). auto.
  - intros y. rewrite Hi. destruct (rm_dec0 y) as [Hd | Hd].
    + destruct (rm_dead0 y Hd) as (_ & _ & _ & -> & _). split; [tauto|by intros []].
    + rewrite rm_out0, <-(v_ident _ _ Hinv) by done. tauto.
  - intros y k [_ Hy]%Hk. by apply (v_range _ _ Hinv y).
  - intros y y' k [_ Hy]%Hk [_ Hy']%Hk. by apply (v_inj _ _ Hinv y y' k).
  - intros i y. rewrite rm_cells0, (v_cells _ _ Hinv), Hi. split; [intros ([? E] & Hd); by rewrite Hid|].
    intros [[? Hd] E]. by rewrite Hid in E.
  - intros i. rewrite rm_known0. destruct (_cells t !! i) as [c|] eqn:E; [|done].
    apply rm_cells0 in E as [E _]. rewrite (v_dom _ _ Hinv), E. split; intros _; by eexists.
  - intros c i [Hc Hd]%Hi Hn Hci. rewrite Hid in Hci by done. rewrite rm_known0, rm_out0 by done.
    assert (_cells t !! i = Some c) as -> by (apply rm_cells0; split; [by apply (v_cells _ _ Hinv)|done]). by apply (v_children _ _ Hinv).
  - intros c [Hc Hd]%Hi Hn x. rewrite rm_out0 by done. rewrite (v_below _ _ Hinv c Hc Hn x).
    destruct (rm_dec0 x) as [Hx | Hx]; [|by rewrite rm_out0]. rewrite rm_parents0 by (done || by intros []). split; [|set_solver].
    intros Hcx. destruct Hd. destruct (Hpar x c Hcx) as (_ & _ & Hpx). by apply (Hup x Hx c).
  - intros c p Hc Hin. destruct (Hp c p Hc Hin) as [Hd Hin0]. destruct (v_parents _ _ Hinv c p Hc Hin0) as (q & -> & Hq & Hic).
    exists q. split; [done|]. rewrite !Hi. split_and!; try done. intros Hdq. destruct (Hpar c q Hin0) as (_ & _ & Hpc).
    by apply Hd, (rm_closed0 c q).
  - intros c Hc. destruct (rm_dec0 c) as [Hd | Hd].
    + destruct (rm_dead0 c Hd) as (_ & _ & Hin & _ & ->). unfold inst. by rewrite Hin.
    + rewrite rm_out0 by done. pose proof (v_parent _ _ Hinv c Hc) as Hv. destruct (par t0 c); [done|]. intros [? _]%Hi. by apply Hv.
  - intros c Hin. destruct (decide (c = root)) as [-> | Hc].
    + rewrite rm_out0 in Hin by done. by apply (v_self _ _ Hinv root).
    + destruct (Hp c _ Hc Hin) as [_ ?]. by apply (v_self _ _ Hinv c).
  - intros c. rewrite Ho, Hi. split; [by intros ?%not_elem_of_empty|]. intros (Hc & [Hic Hd] & Hpc). rewrite rm_out0 in Hpc by done.
    by destruct Hd; apply Horph.
  - intros i Hin. rewrite rm_discard0, (v_channel _ _ Hinv i Hin). split.
    + intros [E | (_ & d & Hd & Hdi)].
      * apply eq_None_not_Some. intros [c Hc]. apply rm_cells0 in Hc as [Hc _]. congruence.
      * apply eq_None_not_Some. intros [c Hc]. apply rm_cells0 in Hc as [Hc Hcd].
        apply (v_cells _ _ Hinv) in Hc as [Hc Hci]. apply Hcd. destruct (rm_dead0 d Hd) as [Hid' _].
        by rewrite <-(ident_inj _ _ _ _ _ Hinv Hid' Hc Hdi Hci).
    + intros E. destruct (_cells t0 !! i) as [c|] eqn:Hc; [right|by left]. split; [done|].
      destruct (rm_dec0 c) as [Hd | Hd]; [|by rewrite (proj2 (rm_cells0 i c) (conj Hc Hd)) in E]. exists c. split; [done|].
      by destruct (proj1 (v_cells _ _ Hinv i c) Hc).
  - intros i [Hin | [Hin _]]%rm_discard0; [by apply (v_discard _ _ Hinv)|done].
  - apply (v_sent _ _ Hinv).
  - intros c [Hc Hd]%rm_broadcast0. apply Hi. split; [by apply (v_broadcast _ _ Hinv)|done].
  - intros c i [Hc Hd]%Hi Hcr Hn Hci. rewrite Hid in Hci by done. rewrite rm_broadcast0.
    destruct (v_shown _ _ Hinv c i Hc Hcr Hn Hci); [left|right]; done.
  - intros c [Hc Hd]%rm_asmoved0. rewrite Hi. destruct (v_asmoved _ _ Hinv c Hc). done.
  - intros c i p [Hc Hd]%Hi Hcr Hci Hni Hin. rewrite Hid in Hci by done. rewrite rm_out0 in Hin by done. rewrite rm_broadcast0.
    split; [by apply (v_new _ _ Hinv c i)|]. intros Hdp. destruct (Hpar c p Hin) as (_ & _ & Hpc). by apply Hd, (rm_closed0 c p).
Qed.
End orphans.

(** ** Announcing moves *)

Lemma top_of_ext t t' k c : (∀ y, par t' y = par t y) → top_of k t' c = top_of k t c.
Proof. intros Hp. revert c. induction k as [|k IH]; [done|]. intros c. cbn. rewrite Hp. destruct (par t c); [apply IH|done]. Qed.

Lemma isAncestorOf_ext t t' k c p : (∀ y, par t' y = par t y) → isAncestorOf k t' c p = isAncestorOf k t c p.
Proof. intros Hp. revert p. induction k as [|k IH]; [done|]. intros [x|]; [|done]. cbn. by rewrite Hp, IH. Qed.

Lemma not_above t k c p r : top_of k t p = Some r → ¬ under t c p → isAncestorOf k t c (Some p) = Some false.
Proof.
  revert p. induction k as [|k IH]; intros p Hk Hu; [done|]. cbn in *.
  rewrite bool_decide_false by (intros ->; apply Hu; constructor). destruct (par t p) as [q|] eqn:Hq; [|by destruct k].
  apply IH; [done|]. intros Hu'. apply Hu. by eapply under_step.
Qed.

Definition movable (t : Cells) (c : nat) : Prop :=
  c ≠ root ∧ inst t c ∧ is_Some (identity_ (the_cell t c)) ∧ par t c ≠ None ∧ par t c ≠ knownParent (the_cell t c) ∧ (size (parents t c) ≤ 1)%nat ∧
  is_Some (top_of (S (_id t)) t c).

Definition moved_state (c : nat) (t : Cells) : Cells :=
  heap_set c (λ x, x <| knownParent := parent x |>) (t <| _movedCells ::= λ s, s ∖ {[c]} |>) <| _nodesToBroadcastAsMoved ::= union {[c]} |>.

Lemma move_one_run t c : movable t c → move_one c t = (Ok tt, moved_state c t).
Proof.
  intros (Hc & Hic & Hid & Hp & Hk & Hs & [r Hr]). unfold move_one. rewrite run_bind, run_gets. cbn beta iota.
  destruct (par t c) as [p|] eqn:Hpc; [|done]. unfold inst in Hic.
  assert (isOrphaned t c = false) as -> by (unfold isOrphaned; rewrite Hpc; rewrite (bool_decide_false (Some p = None)) by done; apply andb_false_r).
  assert (isActive t c = true) as Hact.
  { unfold isActive. destruct Hid as [k Hid]. rewrite Hic, Hpc, Hid. by destruct (bool_decide (c = root)). }
  assert (isMoved t c = true) as -> by (unfold isMoved; rewrite Hact, Hpc, !bool_decide_true by done; done).
  rewrite Hact. cbn [negb]. rewrite run_bind, run_assertM. cbn beta iota. rewrite run_bind, run_assertM. cbn beta iota.
  rewrite run_bind, run_assertM. cbn beta iota. rewrite run_bind, run_modify. cbn beta iota. rewrite run_bind.
  set (t1 := t <| _movedCells ::= _ |>). unfold onMoved. rewrite run_bind, run_gets. cbn beta iota.
  change (the_cell t1) with (the_cell t). rewrite Hpc, bool_decide_true by done. rewrite run_bind, run_assertM. cbn beta iota.
  rewrite run_bind, run_gets. cbn beta iota. change (the_cell t1) with (the_cell t). rewrite bool_decide_false by lia. rewrite run_bind. cbn [whenM].
  change (ret tt t1) with (@Ok unit tt, t1). cbn beta iota. rewrite run_bind, run_gets. cbn beta iota.
  assert (isAncestorOf (S (S (_id t1))) t1 c (Some p) = Some false) as ->.
  { change (_id t1) with (_id t). rewrite (isAncestorOf_ext t) by done. apply (not_above _ _ _ _ r).
    - cbn in Hr. rewrite Hpc in Hr. apply (top_of_mono _ _ _ _ Hr). lia.
    - by apply (no_cycle _ _ _ _ _ Hr). }
  rewrite run_bind, run_lift_option. cbn beta iota. rewrite run_set_cell. cbn beta iota. rewrite run_modify.
  unfold moved_state, heap_set. fold t1. change (the_cell t1 c) with (the_cell t c). cbv beta. by rewrite Hpc.
Qed.

(** [t] is [t0] after the moves of [l] *)
Record announced (t0 : Cells) (l : list nat) (t : Cells) : Prop := {
  an_in : ∀ y, y ∈ l → the_cell t y = the_cell t0 y <| knownParent := par t0 y |>;
  an_out : ∀ y, y ∉ l → the_cell t y = the_cell t0 y;
  an_moved : ∀ y, y ∈ _movedCells t ↔ y ∈ _movedCells t0 ∧ y ∉ l;
  an_asmoved : ∀ y, y ∈ _nodesToBroadcastAsMoved t ↔ y ∈ _nodesToBroadcastAsMoved t0 ∨ y ∈ l;
  an_rest : (_cells t, _cellsKnownChildren t, _nodesToBroadcast t, _nodeIdsToDiscard t, _orphanedCells t,
    _nodesKnownToChannel t, _id t, _dirtyNodes t) = (_cells t0, _cellsKnownChildren t0, _nodesToBroadcast t0, _nodeIdsToDiscard t0,
    _orphanedCells t0, _nodesKnownToChannel t0, _id t0, _dirtyNodes t0);
}.

Lemma an_same t0 l t y : announced t0 l t → in_cells (the_cell t y) = in_cells (the_cell t0 y) ∧ identity_ (the_cell t y) = identity_ (the_cell t0 y) ∧
  par t y = par t0 y ∧ parents t y = parents t0 y ∧ children (the_cell t y) = children (the_cell t0 y) ∧ exportData (the_cell t y) = exportData (the_cell t0 y).
Proof. intros Ha. destruct (decide (y ∈ l)) as [Hy | Hy]; [by rewrite (an_in _ _ _ Ha)|by rewrite (an_out _ _ _ Ha)]. Qed.

Lemma announced_step t0 l t c : announced t0 l t → c ∉ l → announced t0 (l ++ [c]) (moved_state c t).
Proof.
  intros Ha Hc. pose proof Ha as [Hin Hout Hm Has Hrest].
  assert (∀ y, the_cell (moved_state c t) y = if decide (y = c) then the_cell t c <| knownParent := par t c |> else the_cell t y) as Hcell.
  { intros y. rewrite (the_cell_heap (heap_set c (λ x, x <| knownParent := parent x |>) t)) by done. by rewrite the_cell_set. }
  split.
  - intros y. rewrite Hcell, elem_of_app, list_elem_of_singleton. destruct (decide (y = c)) as [-> | ]; [by rewrite Hout|]. intros [? | ?]; [by apply Hin|done].
  - intros y. rewrite Hcell, not_elem_of_app. intros [Hy Hyc]. rewrite decide_False by (intros ->; apply Hyc; by left). by apply Hout.
  - intros y. rewrite not_elem_of_app. cbn. rewrite elem_of_difference, elem_of_singleton, list_elem_of_singleton, Hm. tauto.
  - intros y. cbn. rewrite elem_of_union, elem_of_singleton, elem_of_app, list_elem_of_singleton, Has. tauto.
  - exact Hrest.
Qed.

Lemma moves_run t0 l : ∀ pre t, announced t0 pre t → NoDup (pre ++ l) → Forall (movable t0) l →
  ∃ t', forM l move_one t = (Ok tt, t') ∧ announced t0 (pre ++ l) t'.
Proof.
  induction l as [|c l IH]; intros pre t Ha Hnd Hl; [exists t; by rewrite app_nil_r|].
  apply Forall_cons in Hl as [Hc Hl]. assert (c ∉ pre) as Hcp by (apply NoDup_app in Hnd as (_ & Hd & _); intros H; apply (Hd c H); by left).
  assert (movable t c) as Hmc.
  { unfold movable, inst in *. rewrite (an_out _ _ _ Ha) by done. pose proof (an_rest _ _ _ Ha) as [= _ _ _ _ _ _ Hid _].
    rewrite Hid. by rewrite (top_of_ext t0) by (intros y; by destruct (an_same _ _ _ y Ha) as (_ & _ & ? & _)). }
  rewrite run_forM_cons, (move_one_run t c Hmc). destruct (IH (pre ++ [c]) (moved_state c t)) as (t' & Hrun & Ha').
  - by apply announced_step.
  - by rewrite <-(assoc_L (++)).
  - done.
  - exists t'. split; [done|]. by rewrite <-(assoc_L (++)) in Ha'.
Qed.

Lemma moves_spec t0 : (∀ c, c ∈ _movedCells t0 → movable t0 c) →
  ∃ t', _updateAllMovedCells (size (_movedCells t0)) false t0 = (Ok (negb (bool_decide (_movedCells t0 = ∅))), t') ∧
    announced t0 (elements (_movedCells t0)) t'.
Proof.
  intros Hm. assert (∀ fuel b t, _movedCells t = ∅ → _updateAllMovedCells fuel b t = (Ok b, t)) as Hdone.
  { intros fuel b t Ht. destruct fuel; cbn [_updateAllMovedCells]; rewrite run_bind, run_gets; cbn beta iota; by rewrite Ht. }
  assert (announced t0 [] t0) as H0.
  { split; try done; intros y; [by intros ?%not_elem_of_nil|pose proof (not_elem_of_nil y); tauto..]. }
  destruct (decide (_movedCells t0 = ∅)) as [He | He].
  - exists t0. rewrite Hdone by done. rewrite bool_decide_true by done. split; [done|]. by rewrite He, elements_empty.
  - rewrite bool_decide_false by done.
    destruct (size (_movedCells t0)) as [|n] eqn:Hn; [by apply size_empty_inv, leibniz_equiv in Hn|]. cbn [_updateAllMovedCells].
    rewrite run_bind, run_gets. cbn beta iota. rewrite bool_decide_false by done.
    destruct (moves_run t0 (elements (_movedCells t0)) [] t0 H0) as (t' & Hrun & Ha).
    + apply NoDup_elements.
    + apply Forall_forall. intros c Hc. apply Hm. by apply elem_of_elements.
    + cbn [app] in Ha. exists t'. rewrite run_bind, Hrun. cbn beta iota. split; [|done]. apply Hdone. apply set_eq. intros y.
      rewrite (an_moved _ _ _ Ha), elem_of_elements. split; [tauto|by intros ?%not_elem_of_empty].
Qed.

Lemma Inv_announced t0 l t : Inv ∅ t0 → announced t0 l t → (∀ c, c ∈ l → c ≠ root ∧ inst t0 c) → Inv ∅ t.
Proof.
  intros Hinv Ha Hl. pose proof Hinv as [V1 V2 V3 V4 V5 V6 V7 V8 V9 V10 V11 V12 V13 V14 V15 V16 V17 V18 V19].
  assert (∀ y, inst t y ↔ inst t0 y) as Hi by (intros y; unfold inst; by destruct (an_same _ _ _ y Ha) as (-> & _)).
  assert (∀ y, identity_ (the_cell t y) = identity_ (the_cell t0 y)) as Hk by (intros y; by destruct (an_same _ _ _ y Ha) as (_ & -> & _)).
  assert (∀ y, identity_of t y = identity_of t0 y) as Hid by (intros y; by apply identity_of_eq).
  assert (∀ y, par t y = par t0 y ∧ parents t y = parents t0 y ∧ children (the_cell t y) = children (the_cell t0 y)) as Hp.
  { intros y. by destruct (an_same _ _ _ y Ha) as (_ & _ & -> & -> & -> & _). }
  pose proof (an_rest _ _ _ Ha) as [= E1 E2 E3 E4 E5 E6 E7 E8].
  split; rewrite ?E1, ?E2, ?E3, ?E4, ?E5, ?E6, ?E7; try done.
  - rewrite Hi. by destruct (Hp root) as (-> & -> & _).
  - intros c. by rewrite Hi, Hk.
  - intros c k. rewrite Hk. apply V3.
  - intros c c' k. rewrite !Hk. apply V4.
  - intros i c. by rewrite Hi, Hid.
  - intros c i. rewrite Hi, Hid. destruct (Hp c) as (_ & _ & ->). apply V7.
  - intros c. rewrite Hi. intros Hc Hn x. destruct (Hp c) as (_ & _ & ->), (Hp x) as (_ & -> & _). by apply V8.
  - intros c p Hc. destruct (Hp c) as (_ & -> & _). setoid_rewrite Hi. by apply V9.
  - intros c Hc. destruct (Hp c) as (-> & -> & _). specialize (V10 c Hc). destruct (par t0 c); [done|by rewrite Hi].
  - intros c. destruct (Hp c) as (_ & -> & _). apply V11.
  - intros c. rewrite Hi. destruct (Hp c) as (-> & _). apply V12.
  - intros c. rewrite Hi. apply V16.
  - intros c i. rewrite Hi, Hid. apply V17.
  - intros c [Hc | Hc]%(an_asmoved _ _ _ Ha); rewrite Hi; [by apply V18|by apply Hl].
  - intros c i p. rewrite Hi, Hid. destruct (Hp c) as (_ & -> & _). apply V19.
Qed.
