(* ===== verification/CellTreeTurns.v ===== *)
(** * A turn of [_recalculateAll]

    A turn that does all there is to do leaves the tree in order ([Steady]), and what the sets of
    pending cells say, applied to the browser's page, is the tree again ([Mirror]). *)

From Stdlib Require Import Lia.
From stdpp Require Import options.
From S2P Require Import Prelude CellGraph CellTree CellTreeInvariant CellTreePasses CellTreeClean.

(** ** A turn of [_recalculateAll] *)

(** The state between two turns *)
Record Steady (t : Cells) : Prop := {
  s_inv : Inv ∅ t;
  s_orphans : _orphanedCells t = ∅;
  s_moved : _movedCells t = ∅;
  s_parent : ∀ c, inst t c → c ≠ root → par t c ≠ None ∧ knownParent (the_cell t c) = par t c;
}.

(** What cleaning up and moving leaves of the cells that stay *)
Record cleaned (t t' : Cells) : Prop := {
  cl_cell : ∀ c, inst t' c → inst t c ∧ identity_ (the_cell t' c) = identity_ (the_cell t c) ∧ par t' c = par t c ∧
    children (the_cell t' c) = children (the_cell t c) ∧ exportData (the_cell t' c) = exportData (the_cell t c);
  cl_known : ∀ c, inst t' c → c ∈ _movedCells t ∨ knownParent (the_cell t' c) = knownParent (the_cell t c);
  cl_moved : ∀ c, c ∈ _movedCells t → c ∈ _nodesToBroadcastAsMoved t';
  cl_broadcast : ∀ c, inst t' c → c ∈ _nodesToBroadcast t' ↔ c ∈ _nodesToBroadcast t;
  cl_asmoved : ∀ c, inst t' c → c ∈ _nodesToBroadcastAsMoved t → c ∈ _nodesToBroadcastAsMoved t';
  cl_channel : _nodesKnownToChannel t' = _nodesKnownToChannel t;
  cl_dirty : _dirtyNodes t' = _dirtyNodes t;
}.

Lemma settled_inst t c : Inv ∅ t → settled t → inst t c → is_Some (top t c) ∧
  (c ≠ root → (size (parents t c) ≤ 1)%nat ∧ (top t c = Some root → par t c ≠ knownParent (the_cell t c) → c ∈ _movedCells t)).
Proof.
  intros Hinv [Hs _] Hc. rewrite Forall_forall in Hs. apply Hs. unfold installed.
  destruct (inst_ident _ _ _ Hinv Hc) as (i & _ & Hi). apply list_elem_of_fmap. exists (i, c). split; [done|]. by apply elem_of_map_to_list.
Qed.

Lemma settled_moved t c : settled t → c ∈ _movedCells t → c ≠ root ∧ top t c = Some root ∧ par t c ≠ knownParent (the_cell t c).
Proof. intros [_ Hs] Hc. rewrite Forall_forall in Hs. apply Hs. by apply elem_of_elements. Qed.

(** The end of a chain of parents *)
Lemma top_of_under t k c r : Inv ∅ t → inst t c → top_of k t c = Some r → under t r c ∧ par t r = None ∧ inst t r.
Proof.
  intros Hinv. revert c. induction k as [|k IH]; intros c Hc Hk; [done|]. cbn in Hk. destruct (par t c) as [p|] eqn:Hp.
  - assert (c ≠ root) as Hcr by (intros ->; by rewrite (proj1 (proj2 (v_root _ _ Hinv))) in Hp).
    pose proof (v_parent _ _ Hinv c Hcr) as Hv. rewrite Hp in Hv. destruct (has_parent _ _ _ _ Hinv Hcr Hv) as (_ & Hip & _).
    destruct (IH p Hip Hk) as (Hu & ? & ?). split; [by eapply under_step|done].
  - injection Hk as ->. split; [constructor|done].
Qed.

Lemma removed_top t0 D E t k c : removed t0 D E t → ¬ D c → top_of k t c = top_of k t0 c.
Proof.
  intros Hr. revert c. induction k as [|k IH]; intros c Hc; [done|]. cbn. rewrite (rm_out _ _ _ _ Hr c Hc).
  destruct (par t0 c) as [p|] eqn:Hp; [|done]. apply IH. intros Hd. by apply Hc, (rm_closed _ _ _ _ Hr c p).
Qed.

Section turn.
Context (t0 : Cells) (Hinv : Inv ∅ t0) (Hset : settled t0).

Lemma settled_parents c : inst t0 c → c ≠ root → (size (parents t0 c) ≤ 1)%nat.
Proof using Hinv Hset. intros Hc. by apply (settled_inst t0 c). Qed.
Lemma has_top c : inst t0 c → is_Some (top t0 c).
Proof using Hinv Hset. intros Hc. by apply (settled_inst t0 c). Qed.

(** Who hangs under an orphan, and who under the root *)
Definition gone (y : nat) : Prop := ∃ o, o ∈ _orphanedCells t0 ∧ under t0 o y.

Lemma not_gone_top y : inst t0 y → ¬ gone y → top t0 y = Some root.
Proof using Hinv Hset.
  intros Hy Hd. destruct (has_top y Hy) as [r Hk]. destruct (top_of_under _ _ _ _ Hinv Hy Hk) as (Hu & Hpr & Hir).
  destruct (decide (r = root)) as [-> | Hne]; [done|]. destruct Hd. exists r. split; [by apply (v_orphans _ _ Hinv)|done].
Qed.
Lemma top_not_gone y : top t0 y = Some root → ¬ gone y.
Proof using Hinv Hset.
  intros Hk (o & Ho & Hu). apply (v_orphans _ _ Hinv) in Ho as (Hor & _ & Hpo). by pose proof (under_top _ _ _ _ _ Hu Hpo Hk).
Qed.

(** After the orphans *)
Context (t1 : Cells) (Hr : removed t0 gone (λ _, False) t1) (Ho1 : _orphanedCells t1 = ∅).

Lemma cleaned_inv : Inv ∅ t1.
Proof using Hinv Hset Hr Ho1.
  apply (Inv_removed t0 Hinv settled_parents has_top gone); [done..| |].
  - intros y (o & Ho & Hu) p Hp. exists o. split; [done|]. inversion Hu as [|? q Hq Hu']; subst; [|congruence].
    apply (v_orphans _ _ Hinv) in Ho as (_ & _ & ?). congruence.
  - intros y Hy Hyr Hp. exists y. split; [by apply (v_orphans _ _ Hinv)|constructor].
Qed.

Lemma kept y : inst t1 y → inst t0 y ∧ ¬ gone y.
Proof using Hinv Hset Hr.
  intros Hy. destruct (rm_dec _ _ _ _ Hr y) as [Hd | Hd].
  - destruct (rm_dead _ _ _ _ Hr y Hd) as (_ & _ & Hin & _). unfold inst in Hy. congruence.
  - unfold inst in Hy. by rewrite (rm_out _ _ _ _ Hr y Hd) in Hy.
Qed.

Lemma can_move c : c ∈ _movedCells t1 → movable t1 c.
Proof using Hinv Hset Hr.
  intros Hc. rewrite (rm_moved _ _ _ _ Hr) in Hc. destruct (settled_moved t0 c Hset Hc) as (Hcr & Hk & Hp). pose proof (top_not_gone c Hk) as Hd.
  assert (par t0 c ≠ None) as Hpc by (intros E; unfold top in Hk; cbn in Hk; rewrite E in Hk; congruence).
  assert (inst t0 c) as Hic.
  { pose proof (v_parent _ _ Hinv c Hcr) as Hv. destruct (par t0 c) as [p|]; [|done]. by destruct (has_parent _ _ _ _ Hinv Hcr Hv). }
  unfold movable, inst. rewrite (rm_out _ _ _ _ Hr c Hd), (rm_id _ _ _ _ Hr), (removed_top _ _ _ _ _ _ Hr Hd).
  split_and!; try done; [by apply (v_ident _ _ Hinv)|by apply settled_parents].
Qed.

(** After the moves *)
Context (t' : Cells) (Ha : announced t1 (elements (_movedCells t1)) t').

Lemma after_inst y : inst t' y → inst t1 y ∧ inst t0 y ∧ ¬ gone y.
Proof using Hinv Hset Hr Ha.
  intros Hy. assert (inst t1 y) as Hy1 by (unfold inst in *; by destruct (an_same _ _ _ y Ha) as (<- & _)).
  destruct (kept y Hy1). done.
Qed.
Lemma moved_cells c : c ∈ elements (_movedCells t1) ↔ c ∈ _movedCells t0.
Proof using Hr. by rewrite elem_of_elements, (rm_moved _ _ _ _ Hr). Qed.

Lemma steady_after : Steady t'.
Proof using Hinv Hset Hr Ho1 Ha.
  assert (Inv ∅ t') as Hinv'.
  { apply (Inv_announced t1 (elements (_movedCells t1))); [apply cleaned_inv|done|]. intros c Hc%elem_of_elements. by destruct (can_move c Hc) as (? & ? & _). }
  pose proof (an_rest _ _ _ Ha) as [= _ _ _ _ E5 _ _ _].
  assert (_movedCells t' = ∅) as Hm'.
  { apply set_eq. intros y. rewrite (an_moved _ _ _ Ha), moved_cells, (rm_moved _ _ _ _ Hr). split; [tauto|by intros ?%not_elem_of_empty]. }
  assert (_orphanedCells t' = ∅) as Ho' by congruence. split; try done.
  intros c Hc Hcr. split.
  { intros Hp. assert (c ∈ _orphanedCells t') as Hin by (by apply (v_orphans _ _ Hinv')). rewrite Ho' in Hin. by apply not_elem_of_empty in Hin. }
  destruct (an_same _ _ _ c Ha) as (_ & _ & Hpar & _). destruct (decide (c ∈ elements (_movedCells t1))) as [Hcl | Hcl].
  - by rewrite (an_in _ _ _ Ha c Hcl).
  - rewrite (an_out _ _ _ Ha c Hcl). destruct (after_inst c Hc) as (_ & Hc0 & Hd). rewrite (rm_out _ _ _ _ Hr c Hd).
    destruct (decide (par t0 c = knownParent (the_cell t0 c))) as [E | E]; [done|]. destruct Hcl. apply moved_cells.
    destruct (settled_inst t0 c Hinv Hset Hc0) as [_ Hs]. apply Hs; [done|by apply not_gone_top|done].
Qed.

Lemma cleaned_after : cleaned t0 t'.
Proof using Hinv Hset Hr Ha.
  pose proof (an_rest _ _ _ Ha) as [= _ _ E3 _ _ E6 _ E8]. split.
  - intros c (_ & Hc0 & Hd)%after_inst. split; [done|]. destruct (an_same _ _ _ c Ha) as (_ & -> & -> & _ & -> & ->). by rewrite (rm_out _ _ _ _ Hr c Hd).
  - intros c (_ & Hc0 & Hd)%after_inst. destruct (decide (c ∈ elements (_movedCells t1))) as [Hcl | Hcl]; [left; by apply moved_cells|right].
    by rewrite (an_out _ _ _ Ha c Hcl), (rm_out _ _ _ _ Hr c Hd).
  - intros c Hc. apply (an_asmoved _ _ _ Ha). right. by apply moved_cells.
  - intros c (_ & _ & Hd)%after_inst. rewrite E3, (rm_broadcast _ _ _ _ Hr). tauto.
  - intros c (_ & _ & Hd)%after_inst Hin. apply (an_asmoved _ _ _ Ha). left. by apply (rm_asmoved _ _ _ _ Hr).
  - rewrite E6. apply (rm_channel _ _ _ _ Hr).
  - rewrite E8. apply (rm_dirty _ _ _ _ Hr).
Qed.
End turn.

Lemma clean_and_move_spec t0 : Inv ∅ t0 → settled t0 →
  ∃ b t', clean_and_move t0 = (Ok b, t') ∧ Steady t' ∧ cleaned t0 t' ∧ (_movedCells t0 = ∅ → b = false).
Proof.
  intros Hinv Hset. destruct (clean_spec t0 Hinv (settled_parents t0 Hinv Hset) (has_top t0 Hinv Hset)) as (t1 & Hrun1 & Hr & Ho1).
  destruct (moves_spec t1 (can_move t0 Hinv Hset t1 Hr)) as (t' & Hrun' & Ha).
  exists (negb (bool_decide (_movedCells t1 = ∅))), t'. split_and!.
  - unfold clean_and_move. rewrite run_bind, run_gets. cbn beta iota. rewrite run_bind, Hrun1. cbn beta iota.
    rewrite run_bind, run_gets. exact Hrun'.
  - exact (steady_after t0 Hinv Hset t1 Hr Ho1 t' Ha).
  - exact (cleaned_after t0 Hinv Hset t1 Hr t' Ha).
  - intros He. rewrite (rm_moved _ _ _ _ Hr), He. by rewrite bool_decide_true.
Qed.

(** ** What the browser has between two turns *)

Abbreviation idents t l := ((λ y, default PageRoot (identity_of t y)) <$> l).

Record Mirror (active : gmap Ident Node) (t : Cells) : Prop := {
  m_dom : ∀ i, is_Some (active !! i) ↔ i ∈ _nodesKnownToChannel t;
  m_node : ∀ c i nd, inst t c → identity_of t c = Some i → active !! i = Some nd →
    (c ∉ _nodesToBroadcast t → extraData nd = exportData (the_cell t c) ∧ node_children nd = idents t (children (the_cell t c))) ∧
    (c = root → node_parent nd = None) ∧
    (c ≠ root → c ∉ _nodesToBroadcastAsMoved t → node_parent nd = par t c ≫= identity_of t);
}.

(** What has been sent and is still in the tree was there before. *)
Lemma sent_inst t t' c i :
  Inv ∅ t → Inv ∅ t' → grown t t' → inst t' c → identity_of t' c = Some i → i ∈ _nodesKnownToChannel t → inst t c.
Proof.
  intros Hinv Hinv' Hg Hc Hi Hin. destruct (_cells t !! i) as [c0|] eqn:E.
  - apply (v_cells _ _ Hinv) in E as [Hc0 Hi0]. destruct (gr_inst _ _ Hg c0 Hc0) as (Hc0' & Hk & _).
    assert (identity_of t' c0 = Some i) as Hi0' by (rewrite <-Hi0; by apply identity_of_eq).
    by rewrite (ident_inj _ _ _ _ _ Hinv' Hc Hc0' Hi Hi0').
  - apply (v_channel _ _ Hinv i Hin) in E. rewrite <-(gr_discard _ _ Hg) in E. rewrite <-(gr_channel _ _ Hg) in Hin.
    apply (v_channel _ _ Hinv' i Hin) in E. by rewrite (proj2 (v_cells _ _ Hinv' i c) (conj Hc Hi)) in E.
Qed.

Lemma Mirror_turn active t t1 t2 :
  Steady t → Inv ∅ t1 → grown t t1 → cleaned t1 t2 → Steady t2 → Mirror active t → Mirror active t2.
Proof.
  intros [Hinv _ _ Hpar] Hinv1 Hg Hcl [Hinv2 _ _ Hpar2] [Hdom Hnode]. split.
  { intros i. by rewrite Hdom, (cl_channel _ _ Hcl), (gr_channel _ _ Hg). }
  intros c i nd Hc2 Hi2 Hnd. destruct (cl_cell _ _ Hcl c Hc2) as (Hc1 & Hk1 & Hp1 & Hch1 & He1).
  assert (identity_of t1 c = Some i) as Hi1 by (rewrite <-Hi2; symmetry; by apply identity_of_eq).
  assert (inst t c) as Hc by (apply (sent_inst t t1 c i); [done..|by apply Hdom; eexists]).
  destruct (gr_inst _ _ Hg c Hc) as (_ & Hk & Hkn). assert (identity_of t c = Some i) as Hi by (rewrite <-Hi1; symmetry; by apply identity_of_eq).
  destruct (Hnode c i nd Hc Hi Hnd) as (N1 & N2 & N3).
  assert (∀ y, inst t y → inst t2 y → identity_of t2 y = identity_of t y) as Hid.
  { intros y Hy Hy2. destruct (cl_cell _ _ Hcl y Hy2) as (_ & E2 & _), (gr_inst _ _ Hg y Hy) as (_ & E1 & _). apply identity_of_eq. congruence. }
  split; [|split; [done|]].
  - intros Hb2. assert (c ∉ _nodesToBroadcast t1) as Hb1 by (by rewrite <-(cl_broadcast _ _ Hcl c Hc2)).
    assert (c ∉ _nodesToBroadcast t) as Hb by (intros H; by apply Hb1, (gr_broadcast _ _ Hg)).
    destruct (gr_cell _ _ Hg c Hc Hb1) as [E1 E2]. destruct (N1 Hb) as [-> ->]. rewrite He1, E2. split; [done|]. rewrite Hch1, E1.
    apply list_fmap_ext. intros j x Hx. apply list_elem_of_lookup_2 in Hx. f_equal. symmetry. apply Hid.
    + pose proof Hx as Hx'%(v_below _ _ Hinv c Hc (not_elem_of_empty c)).
      destruct (decide (x = root)) as [-> | Hxr]; [apply (v_root _ _ Hinv)|]. by destruct (has_parent _ _ _ _ Hinv Hxr Hx').
    + rewrite <-E1, <-Hch1 in Hx. apply (v_below _ _ Hinv2 c Hc2 (not_elem_of_empty c)) in Hx.
      destruct (decide (x = root)) as [-> | Hxr]; [apply (v_root _ _ Hinv2)|]. by destruct (has_parent _ _ _ _ Hinv2 Hxr Hx).
  - intros Hcr Hm2. destruct (cl_known _ _ Hcl c Hc2) as [Hm | Hkn2]; [by destruct Hm2; apply (cl_moved _ _ Hcl)|].
    destruct (Hpar c Hc Hcr) as [Hpc Hpk], (Hpar2 c Hc2 Hcr) as [Hpc2 Hpk2].
    assert (par t2 c = par t c) as E by congruence. rewrite E. rewrite (N3 Hcr).
    + destruct (par t c) as [p|] eqn:Ep; [|done]. cbn. symmetry. apply Hid.
      * pose proof (v_parent _ _ Hinv c Hcr) as Hv. rewrite Ep in Hv. by destruct (has_parent _ _ _ _ Hinv Hcr Hv) as (_ & ? & _).
      * pose proof (v_parent _ _ Hinv2 c Hcr) as Hv. rewrite E in Hv. by destruct (has_parent _ _ _ _ Hinv2 Hcr Hv) as (_ & ? & _).
    + rewrite <-(gr_asmoved _ _ Hg). intros H. by apply Hm2, (cl_asmoved _ _ Hcl).
Qed.

(** The root is in the frame, or was in an earlier one. *)
Definition root_shown (t : Cells) : Prop := root ∈ _nodesToBroadcast t ∨ PageRoot ∈ _nodesKnownToChannel t.

Lemma one_pass_spec active p t :
  pass_ok p → Steady t → Mirror active t → root ∈ _dirtyNodes t ∨ root_shown t → settled (update_dirty p t).2 →
  ∃ b t', one_pass p t = (Ok b, t') ∧ Steady t' ∧ Mirror active t' ∧ root_shown t' ∧ _dirtyNodes t' = ∅.
Proof.
  intros Hok Hst Hmir Hroot Hset. destruct (update_dirty_spec p t Hok (s_inv _ Hst)) as (t1 & Hrun1 & Hinv1 & Hg & Hd1 & Hr1).
  rewrite Hrun1 in Hset. cbn [snd] in Hset. destruct (clean_and_move_spec t1 Hinv1 Hset) as (b & t2 & Hrun2 & Hst2 & Hcl & _).
  exists b, t2. split; [unfold one_pass; by rewrite run_bind, Hrun1|]. split; [done|]. split; [exact (Mirror_turn active t t1 t2 Hst Hinv1 Hg Hcl Hst2 Hmir)|].
  split; [|by rewrite (cl_dirty _ _ Hcl)]. unfold root_shown. rewrite (cl_channel _ _ Hcl), (gr_channel _ _ Hg).
  rewrite (cl_broadcast _ _ Hcl) by apply (v_root _ _ (s_inv _ Hst2)). destruct Hroot as [Hroot | [Hroot | Hroot]]; [left..|by right].
  - by apply Hr1.
  - by apply (gr_broadcast _ _ Hg).
Qed.

(** A turn in which nothing is dirty changes nothing. *)
Lemma quiet_pass_spec t : Steady t → _dirtyNodes t = ∅ → one_pass quiet_pass t = (Ok false, t).
Proof.
  intros Hst Hd. unfold one_pass. rewrite run_bind, quiet_update by done. cbn beta iota. unfold clean_and_move.
  rewrite run_bind, run_gets. cbn beta iota. rewrite (s_orphans _ Hst), size_empty. cbn [_cleanUpAllOrphans].
  rewrite run_bind, run_bind, run_gets. cbn beta iota. rewrite (s_orphans _ Hst), bool_decide_true by done. rewrite run_mret. cbn beta iota.
  rewrite run_bind, run_gets. cbn beta iota. rewrite (s_moved _ Hst), size_empty. cbn [_updateAllMovedCells].
  rewrite run_bind, run_gets. cbn beta iota. by rewrite (s_moved _ Hst), bool_decide_true.
Qed.

Lemma recalculateAll_spec active passes : ∀ p t,
  Forall pass_ok (p :: passes) → Steady t → Mirror active t → root ∈ _dirtyNodes t ∨ root_shown t → settles (p :: passes) t →
  ∃ t', _recalculateAll (p :: passes) t = (Ok tt, t') ∧ Steady t' ∧ Mirror active t' ∧ root_shown t' ∧ _dirtyNodes t' = ∅.
Proof.
  induction passes as [|p' passes IH]; intros p t [Hp Hps]%Forall_cons Hst Hmir Hroot [Hset Hrest];
    destruct (one_pass_spec active p t Hp Hst Hmir Hroot Hset) as (b & t1 & Hrun & Hst1 & Hmir1 & Hroot1 & Hd1);
    cbn [_recalculateAll]; rewrite run_bind, Hrun; cbn beta iota; rewrite Hrun in Hrest.
  - exists t1. destruct (b || more p); [|by rewrite run_mret; split_and!]. rewrite run_bind, quiet_pass_spec by done. by split_and!.
  - destruct (b || more p) eqn:Hmore; [|exists t1; by rewrite run_mret; split_and!].
    apply IH; [done..|by right|]. by apply Hrest.
Qed.
