(* ===== verification/CellTreeFrames.v ===== *)
(** * Frames

    [renderMessages] raises nothing when the tree is in order, and the page of a browser that
    handles the frame is the tree ([sent_mirror]); it also keeps the moves, discards and broadcasts
    of what comes next apart from those that it sent. *)

From Stdlib Require Import Lia.
From stdpp Require Import options.
From S2P Require Import Prelude CellGraph CellTree CellTreeInvariant CellTreePasses CellTreeClean CellTreeTurns.

(** ** Making a frame *)

Abbreviation ident t c := (default PageRoot (identity_of t c)).

Lemma ident_inst' t c : Inv ∅ t → inst t c → identity_of t c = Some (ident t c) ∧ _cells t !! ident t c = Some c.
Proof. intros Hinv Hc. destruct (inst_ident _ _ _ Hinv Hc) as (i & Hi & E). by rewrite Hi. Qed.

Lemma lookup_foldr_delete {A} (m : gmap Ident A) l i : foldr delete m l !! i = if bool_decide (i ∈ l) then None else m !! i.
Proof.
  induction l as [|j l IH]; cbn [foldr]; [by rewrite bool_decide_false by apply not_elem_of_nil|].
  destruct (decide (j = i)) as [-> | Hne].
  - rewrite lookup_delete_eq, bool_decide_true; [done|by left].
  - rewrite lookup_delete_ne, IH by done.
    destruct (decide (i ∈ l)); [rewrite !bool_decide_true; [done|by right|done]|].
    rewrite !bool_decide_false; [done|rewrite not_elem_of_cons; split; [by apply not_eq_sym|done]|done].
Qed.

(** All but the calculation *)
Definition send_frame : MT Frame :=
  nodes ← gets (λ t, elements (_nodesToBroadcast t));
  forM nodes check_parent;;
  nodesMoved ← gets (λ t, elements (_nodesToBroadcastAsMoved t));
  nodesMoved ← mapM nodesMoved moved_entry;
  entries ← mapM nodes broadcast_entry;
  let updated := list_to_map (filter (λ e, e.1 = true) entries).*2 in
  let created := list_to_map (filter (λ e, e.1 = false) entries).*2 in
  discarded ← gets (λ t, elements (_nodeIdsToDiscard t));
  forM discarded (discard_entry updated created);;
  messages ← gets message_entries;
  modify (λ t, t <| _pendingOutgoingMessages := [] |> <| _nodesToBroadcast := ∅ |> <| _nodesToBroadcastAsMoved := ∅ |>
                 <| _nodeIdsToDiscard := ∅ |>);;
  mret {| nodesToDiscard := discarded; nodesMoved := list_to_map nodesMoved; nodesUpdated := updated;
          nodesCreated := created; messages := list_to_map messages |}.

Lemma renderMessages_eq passes : renderMessages passes = (_recalculateAll passes;; send_frame).
Proof. done. Qed.

Section frame.
Context (t : Cells) (Hst : Steady t) (Hroot : root_shown t).

Lemma steady_parent c : inst t c → c ≠ root → ∃ p, par t c = Some p ∧ inst t p.
Proof using Hst.
  intros Hc Hcr. pose proof (s_inv _ Hst) as Hinv. destruct (s_parent _ Hst c Hc Hcr) as [Hp _]. pose proof (v_parent _ _ Hinv c Hcr) as Hv.
  destruct (par t c) as [p|]; [|done]. exists p. split; [done|]. by destruct (has_parent _ _ _ _ Hinv Hcr Hv) as (_ & ? & _).
Qed.

Lemma child_inst c x : inst t c → x ∈ children (the_cell t c) → inst t x.
Proof using Hst.
  intros Hc Hx. pose proof (s_inv _ Hst) as Hinv. apply (v_below _ _ Hinv c Hc (not_elem_of_empty c)) in Hx.
  destruct (decide (x = root)) as [-> | Hxr]; [apply (v_root _ _ Hinv)|]. by destruct (has_parent _ _ _ _ Hinv Hxr Hx).
Qed.

Lemma shown c : inst t c → c ∈ _nodesToBroadcast t ∨ ident t c ∈ _nodesKnownToChannel t.
Proof using Hst Hroot.
  intros Hc. destruct (decide (c = root)) as [-> | Hcr]; [exact Hroot|]. destruct (ident_inst' t c (s_inv _ Hst) Hc) as [Hi _].
  by apply (v_shown _ _ (s_inv _ Hst) c (ident t c) Hc Hcr (not_elem_of_empty c)).
Qed.

Lemma check_parents l : (∀ c, c ∈ l → inst t c) → forM l check_parent t = (Ok tt, t).
Proof using Hst Hroot.
  induction l as [|c l IH]; intros Hl; [done|]. rewrite run_forM_cons. unfold check_parent at 1. rewrite run_bind, run_gets. cbn beta iota.
  assert (inst t c) as Hc by (apply Hl; by left). destruct (decide (c = root)) as [-> | Hcr].
  - rewrite (proj1 (proj2 (v_root _ _ (s_inv _ Hst)))), bool_decide_true by done. apply IH. intros y Hy. apply Hl. by right.
  - destruct (steady_parent c Hc Hcr) as (p & -> & Hp). case_bool_decide as Hb.
    + rewrite run_mret. apply IH. intros y Hy. apply Hl. by right.
    + destruct (ident_inst' t p (s_inv _ Hst) Hp) as [Hi _]. rewrite run_bind, (identity_run _ _ _ Hi). cbn beta iota.
      destruct (shown p Hp) as [? | Hk]; [done|]. rewrite bool_decide_true by done. apply IH. intros y Hy. apply Hl. by right.
Qed.

Definition moved_of (c : nat) : Ident * Ident := (ident t c, ident t (default root (par t c))).

Lemma moved_entries l : (∀ c, c ∈ l → inst t c ∧ c ≠ root) → mapM l moved_entry t = (Ok (moved_of <$> l), t).
Proof using Hst.
  induction l as [|c l IH]; intros Hl; [done|]. rewrite run_mapM_cons. destruct (Hl c) as [Hc Hcr]; [by left|].
  destruct (steady_parent c Hc Hcr) as (p & Hp & Hip). destruct (ident_inst' t c (s_inv _ Hst) Hc) as [Hi _], (ident_inst' t p (s_inv _ Hst) Hip) as [Hj _].
  assert (moved_entry c t = (Ok (moved_of c), t)) as ->.
  { unfold moved_entry. rewrite run_bind, (identity_run _ _ _ Hi). cbn beta iota. rewrite run_bind, run_gets. cbn beta iota.
    rewrite Hp, run_bind, run_lift_option. cbn beta iota. rewrite run_bind, (identity_run _ _ _ Hj). cbn beta iota. unfold moved_of. by rewrite Hp. }
  rewrite IH; [done|]. intros y Hy. apply Hl. by right.
Qed.

(** The state when [pre] has been taken down *)
Definition with_known (pre : list nat) : Cells := t <| _nodesKnownToChannel ::= λ s, s ∪ list_to_set ((λ c, ident t c) <$> pre) |>.

Definition entry_of (c : nat) : bool * (Ident * Node) :=
  let known := bool_decide (ident t c ∈ _nodesKnownToChannel t) in
  (known, (ident t c, {| extraData := exportData (the_cell t c); node_children := idents t (children (the_cell t c));
                         node_parent := if (known : bool) then None else par t c ≫= identity_of t |})).

Lemma identities_run t' l : (∀ c, identity_of t' c = identity_of t c) → (∀ c, c ∈ l → inst t c) → mapM l identity t' = (Ok (idents t l), t').
Proof using Hst.
  intros Hid. induction l as [|c l IH]; intros Hl; [done|]. rewrite run_mapM_cons. assert (inst t c) as Hc by (apply Hl; by left).
  destruct (ident_inst' t c (s_inv _ Hst) Hc) as [Hi _]. rewrite (identity_run _ _ (ident t c)) by (by rewrite Hid).
  rewrite IH; [done|]. intros y Hy. apply Hl. by right.
Qed.

Lemma broadcast_entry_run pre c :
  inst t c → c ∉ pre → (∀ y, y ∈ pre → inst t y) → broadcast_entry c (with_known pre) = (Ok (entry_of c), with_known (pre ++ [c])).
Proof using Hst Hroot.
  intros Hc Hcp Hpre. pose proof (s_inv _ Hst) as Hinv. destruct (ident_inst' t c Hinv Hc) as [Hi Hci].
  assert (∀ pre y, identity_of (with_known pre) y = identity_of t y) as Hid by done.
  unfold broadcast_entry. rewrite run_bind, (identity_run _ _ (ident t c)) by (by rewrite Hid). cbn beta iota.
  rewrite run_bind, run_gets. cbn beta iota. rewrite run_bind, run_gets. cbn beta iota.
  change (the_cell (with_known pre) c) with (the_cell t c).
  assert (bool_decide (ident t c ∈ _nodesKnownToChannel (with_known pre)) = bool_decide (ident t c ∈ _nodesKnownToChannel t)) as ->.
  { apply bool_decide_ext. unfold with_known. cbn. rewrite elem_of_union, elem_of_list_to_set. split; [|by left]. intros [? | Hin]; [done|].
    apply list_elem_of_fmap in Hin as (y & E & Hy). pose proof (Hpre y Hy) as Hiy. destruct (ident_inst' t y Hinv Hiy) as [Hj _]. rewrite <-E in Hj.
    by rewrite (ident_inj _ _ _ _ _ Hinv Hc Hiy Hi Hj) in Hcp. }
  set (known := bool_decide (ident t c ∈ _nodesKnownToChannel t)).
  assert (whenM (negb known) (modify (λ t0, t0 <| _nodesKnownToChannel ::= union {[ident t c]} |>)) (with_known pre) = (Ok tt, with_known (pre ++ [c]))) as Hadd.
  { unfold known. case_bool_decide as Hk; cbn [negb whenM]; [change (ret tt (with_known pre)) with (@Ok unit tt, with_known pre)|rewrite run_modify]; f_equal;
      unfold with_known; destruct t; cbn in *; f_equal; rewrite fmap_app, list_to_set_app_L; cbn; apply set_eq; intros i; set_unfold; naive_solver. }
  rewrite run_bind, Hadd. cbn beta iota. rewrite run_bind, (identities_run (with_known (pre ++ [c]))) by (done || intros y; by apply child_inst). cbn beta iota.
  set (t1 := with_known (pre ++ [c])).
  assert ((if known then mret None else match par t c with None => mret None | Some p => j ← identity p; mret (Some j) end) t1 =
    (Ok (if known then None else par t c ≫= identity_of t), t1)) as Hpar.
  { destruct known; [done|]. destruct (decide (c = root)) as [-> | Hcr]; [by rewrite (proj1 (proj2 (v_root _ _ Hinv)))|].
    destruct (steady_parent c Hc Hcr) as (p & -> & Hp). destruct (ident_inst' t p Hinv Hp) as [Hj _].
    rewrite run_bind, (identity_run _ _ (ident t p)) by (unfold t1; by rewrite Hid). cbn beta iota. cbn [mbind option_bind]. by rewrite Hj. }
  rewrite run_bind, Hpar. cbn beta iota. rewrite run_bind.
  assert (∀ l, (∀ y, y ∈ l → inst t y) → forM l (λ child, i ← identity child; t ← gets (λ t, t);
    assertM (bool_decide (i ∈ _nodesKnownToChannel t) || bool_decide (child ∈ _nodesToBroadcast t))) t1 = (Ok tt, t1)) as ->.
  { induction l as [|y l IH]; intros Hl; [done|]. rewrite run_forM_cons. assert (inst t y) as Hy by (apply Hl; by left).
    destruct (ident_inst' t y Hinv Hy) as [Hj _]. rewrite run_bind, (identity_run _ _ (ident t y)) by (unfold t1; by rewrite Hid). cbn beta iota.
    rewrite run_bind, run_gets. cbn beta iota.
    assert (bool_decide (ident t y ∈ _nodesKnownToChannel t1) || bool_decide (y ∈ _nodesToBroadcast t1) = true) as ->.
    { apply orb_true_iff. rewrite !bool_decide_eq_true. unfold t1, with_known. cbn. rewrite elem_of_union. destruct (shown y Hy); tauto. }
    rewrite run_assertM. apply IH. intros z Hz. apply Hl. by right. }
  - cbn beta iota. by rewrite run_mret.
  - intros y. by apply child_inst.
Qed.

Lemma broadcast_entries l : ∀ pre, NoDup (pre ++ l) → (∀ c, c ∈ pre ++ l → inst t c) →
  mapM l broadcast_entry (with_known pre) = (Ok (entry_of <$> l), with_known (pre ++ l)).
Proof using Hst Hroot.
  induction l as [|c l IH]; intros pre Hnd Hl; [by rewrite app_nil_r|]. rewrite run_mapM_cons.
  assert (c ∉ pre) as Hcp by (apply NoDup_app in Hnd as (_ & Hd & _); intros H; apply (Hd c H); by left).
  rewrite broadcast_entry_run; [|apply Hl; set_solver|done|intros y Hy; apply Hl; set_solver].
  rewrite IH; [by rewrite <-(assoc_L (++))|by rewrite <-(assoc_L (++))|]. intros y. rewrite <-(assoc_L (++)). apply Hl.
Qed.

(** The entries of one kind, as a dictionary *)
Definition entries_map (b : bool) (l : list nat) : gmap Ident Node := list_to_map (filter (λ e, e.1 = b) (entry_of <$> l)).*2.

Lemma lookup_entries b l i nd : NoDup l → (∀ c, c ∈ l → inst t c) →
  entries_map b l !! i = Some nd ↔ ∃ c, c ∈ l ∧ entry_of c = (b, (i, nd)).
Proof using Hst.
  intros Hnd Hl. unfold entries_map. rewrite <-elem_of_list_to_map.
  - rewrite list_elem_of_fmap. split.
    + intros ([b' [i' nd']] & [= <- <-] & [Hb Hin]%list_elem_of_filter). cbn in Hb. subst b'. apply list_elem_of_fmap in Hin as (c & E & Hc). by exists c.
    + intros (c & Hc & E). exists (b, (i, nd)). split; [done|]. apply list_elem_of_filter. split; [done|]. apply list_elem_of_fmap. by exists c.
  - assert (∀ l, NoDup l → (∀ c, c ∈ l → inst t c) → NoDup ((filter (λ e, e.1 = b) (entry_of <$> l)).*2.*1)) as H; [|by apply H].
    clear l Hnd Hl. induction l as [|c l IH]; intros Hnd Hl; [constructor|]. apply NoDup_cons in Hnd as [Hc Hnd]. rewrite fmap_cons, filter_cons.
    assert (∀ y, y ∈ l → inst t y) as Hl' by (intros y Hy; apply Hl; by right). case_decide; [|by apply IH]. rewrite !fmap_cons. constructor; [|by apply IH].
    intros (e & E & (e' & -> & [_ Hin]%list_elem_of_filter)%list_elem_of_fmap)%list_elem_of_fmap. apply list_elem_of_fmap in Hin as (y & -> & Hy).
    cbn in E. assert (inst t c) as Hic by (apply Hl; by left). destruct (ident_inst' t c (s_inv _ Hst) Hic) as [Hi _], (ident_inst' t y (s_inv _ Hst) (Hl' y Hy)) as [Hj _].
    rewrite <-E in Hj. by rewrite (ident_inj _ _ _ _ _ (s_inv _ Hst) Hic (Hl' y Hy) Hi Hj) in Hc.
Qed.
End frame.

(** ** What a frame is *)

Section sending.
Context (t : Cells) (Hst : Steady t) (Hroot : root_shown t).
Abbreviation broadcast := (elements (_nodesToBroadcast t)).
Abbreviation updated := (entries_map t true broadcast).
Abbreviation created := (entries_map t false broadcast).
Abbreviation moved := (list_to_map (moved_of t <$> elements (_nodesToBroadcastAsMoved t)) : gmap Ident Ident).

Lemma broadcast_inst c : c ∈ broadcast → inst t c.
Proof using Hst. intros Hc%elem_of_elements. by apply (v_broadcast _ _ (s_inv _ Hst)). Qed.

Lemma lookup_updated i nd : updated !! i = Some nd ↔ ∃ c, c ∈ _nodesToBroadcast t ∧ i = ident t c ∧ i ∈ _nodesKnownToChannel t ∧
  nd = {| extraData := exportData (the_cell t c); node_children := idents t (children (the_cell t c)); node_parent := None |}.
Proof using Hst Hroot.
  rewrite (lookup_entries t Hst) by (apply NoDup_elements || apply broadcast_inst). setoid_rewrite elem_of_elements. unfold entry_of. split.
  - intros (c & Hc & [= Hk <- <-]). exists c. rewrite Hk. apply bool_decide_eq_true in Hk. done.
  - intros (c & Hc & -> & Hk & ->). exists c. split; [done|]. by rewrite bool_decide_true.
Qed.

Lemma lookup_created i nd : created !! i = Some nd ↔ ∃ c, c ∈ _nodesToBroadcast t ∧ i = ident t c ∧ (i ∉ _nodesKnownToChannel t) ∧ nd = node_of t c.
Proof using Hst Hroot.
  rewrite (lookup_entries t Hst) by (apply NoDup_elements || apply broadcast_inst). setoid_rewrite elem_of_elements. unfold entry_of. split.
  - intros (c & Hc & [= Hk <- <-]). exists c. rewrite Hk. apply bool_decide_eq_false in Hk. done.
  - intros (c & Hc & -> & Hk & ->). exists c. split; [done|]. by rewrite bool_decide_false.
Qed.

Lemma lookup_moved i p : moved !! i = Some p ↔ ∃ c, c ∈ _nodesToBroadcastAsMoved t ∧ i = ident t c ∧ p = ident t (default root (par t c)).
Proof using Hst Hroot.
  rewrite <-elem_of_list_to_map.
  - rewrite list_elem_of_fmap. unfold moved_of. setoid_rewrite elem_of_elements. split; [intros (c & [= -> ->] & Hc); eauto|intros (c & Hc & -> & ->); eauto].
  - rewrite <-list_fmap_compose. apply NoDup_fmap_2_strong; [|apply NoDup_elements]. intros c c' Hc Hc' E.
    apply elem_of_elements, (v_asmoved _ _ (s_inv _ Hst)) in Hc as [_ Hc], Hc' as [_ Hc']. cbn in E.
    destruct (ident_inst' t c (s_inv _ Hst) Hc) as [Hi _], (ident_inst' t c' (s_inv _ Hst) Hc') as [Hi' _]. rewrite <-E in Hi'.
    by apply (ident_inj _ _ _ _ _ (s_inv _ Hst) Hc Hc' Hi Hi').
Qed.

(** The state afterwards *)
Definition sent : Cells :=
  with_known t broadcast <| _nodesKnownToChannel ::= λ s, s ∖ _nodeIdsToDiscard t |> <| _pendingOutgoingMessages := [] |>
    <| _nodesToBroadcast := ∅ |> <| _nodesToBroadcastAsMoved := ∅ |> <| _nodeIdsToDiscard := ∅ |>.

Lemma sent_known i : i ∈ _nodesKnownToChannel sent ↔ is_Some (_cells t !! i).
Proof using Hst Hroot.
  pose proof (s_inv _ Hst) as Hinv. unfold sent, with_known. cbn. rewrite elem_of_difference, elem_of_union, elem_of_list_to_set, list_elem_of_fmap.
  setoid_rewrite elem_of_elements. split.
  - intros [[Hk | (c & -> & Hc)] Hd].
    + apply not_eq_None_Some. intros E. by apply Hd, (v_channel _ _ Hinv i Hk).
    + apply (v_broadcast _ _ Hinv) in Hc. destruct (ident_inst' t c Hinv Hc) as [_ E]. by eexists.
  - intros [c Hc]. split.
    + apply (v_cells _ _ Hinv) in Hc as [Hc Hi]. destruct (shown t Hst Hroot c Hc) as [Hb | Hk]; [right; exists c; by rewrite Hi|left; by rewrite Hi in Hk].
    + intros Hd. pose proof (v_discard _ _ Hinv i Hd) as Hk. apply (v_channel _ _ Hinv i Hk) in Hd. congruence.
Qed.

Lemma sent_steady : Steady sent.
Proof using Hst Hroot.
  pose proof (s_inv _ Hst) as [V1 V2 V3 V4 V5 V6 V7 V8 V9 V10 V11 V12 V13 V14 V15 V16 V17 V18 V19]. pose proof sent_known as Hk.
  split; [|apply Hst..]. split; try done.
  - intros i [c Hc]%Hk. split; [by intros ?%not_elem_of_empty|]. intros E. change (_cells sent) with (_cells t) in E. congruence.
  - intros k [c Hc]%Hk. apply V5 in Hc as [_ Hi]. unfold identity_of in Hi. case_bool_decide; [done|].
    destruct (identity_ (the_cell t c)) as [k'|] eqn:E; [|done]. injection Hi as ->. by apply (V3 c).
  - intros c i Hc Hcr _ Hi. right. apply Hk. exists c. by apply V5.
  - intros c i p Hc Hcr Hi Hn. destruct Hn. apply Hk. exists c. by apply V5.
Qed.

Lemma discards_run l : ∀ t', NoDup l → (∀ i, i ∈ l → i ∈ _nodesKnownToChannel t' ∧ updated !! i = None ∧ created !! i = None) →
  forM l (discard_entry updated created) t' = (Ok tt, t' <| _nodesKnownToChannel ::= λ s, s ∖ list_to_set l |>).
Proof using Hst Hroot.
  induction l as [|i l IH]; intros t' Hnd Hl.
  - change (forM [] (discard_entry updated created) t') with (@Ok unit tt, t'). f_equal. destruct t'. cbn. f_equal. set_solver.
  - apply NoDup_cons in Hnd as [Hil Hnd]. destruct (Hl i) as (Hk & Hu & Hc); [by left|]. rewrite run_forM_cons. unfold discard_entry at 1.
    rewrite run_bind, run_gets. cbn beta iota. rewrite !bool_decide_true by done. rewrite run_bind, run_assertM. cbn beta iota.
    rewrite run_bind, run_assertM. cbn beta iota. rewrite run_bind, run_assertM. cbn beta iota. rewrite run_modify. rewrite IH.
    + f_equal. destruct t'. cbn. f_equal. set_solver.
    + done.
    + intros j Hj. destruct (Hl j) as (Hkj & ? & ?); [by right|]. split; [|done]. cbn. apply elem_of_difference. split; [done|].
      rewrite elem_of_singleton. by intros ->.
Qed.

Lemma discards_out i : i ∈ _nodeIdsToDiscard t → i ∈ _nodesKnownToChannel t ∧ _cells t !! i = None ∧ updated !! i = None ∧ created !! i = None.
Proof using Hst Hroot.
  intros Hd. pose proof (s_inv _ Hst) as Hinv. pose proof (v_discard _ _ Hinv i Hd) as Hk. pose proof (proj1 (v_channel _ _ Hinv i Hk) Hd) as E.
  split_and!; [done..| |].
  - destruct (updated !! i) as [nd|] eqn:Hu; [|done]. apply lookup_updated in Hu as (c & Hc & -> & _). apply (v_broadcast _ _ Hinv) in Hc.
    destruct (ident_inst' t c Hinv Hc) as [_ ?]. congruence.
  - destruct (created !! i) as [nd|] eqn:Hu; [|done]. apply lookup_created in Hu as (c & Hc & -> & _). apply (v_broadcast _ _ Hinv) in Hc.
    destruct (ident_inst' t c Hinv Hc) as [_ ?]. congruence.
Qed.

Lemma send_frame_run : ∃ ms, map_Forall (λ i _, is_Some (_cells t !! i)) ms ∧ send_frame t = (Ok {| nodesToDiscard := elements (_nodeIdsToDiscard t); nodesMoved := moved;
  nodesUpdated := updated; nodesCreated := created; messages := ms |}, sent).
Proof using Hst Hroot.
  unfold send_frame. rewrite run_bind, run_gets. cbn beta iota. rewrite run_bind, (check_parents t Hst Hroot) by apply broadcast_inst. cbn beta iota.
  rewrite run_bind, run_gets. cbn beta iota. rewrite run_bind, (moved_entries t Hst).
  2: { intros c Hc%elem_of_elements. by apply (v_asmoved _ _ (s_inv _ Hst)) in Hc as [? ?]. }
  cbn beta iota. rewrite run_bind.
  pose proof (broadcast_entries t Hst Hroot broadcast [] (NoDup_elements _) broadcast_inst) as Hrun.
  assert (with_known t [] = t) as E by (unfold with_known; destruct t; cbn; f_equal; set_solver). rewrite E in Hrun. cbn [app] in Hrun.
  rewrite Hrun. cbn beta iota. cbv zeta. fold (entries_map t true broadcast). fold (entries_map t false broadcast).
  rewrite run_bind, run_gets. cbn beta iota. change (_nodeIdsToDiscard (with_known t broadcast)) with (_nodeIdsToDiscard t).
  rewrite run_bind, discards_run.
  - cbn beta iota. rewrite run_bind, run_gets. cbn beta iota. rewrite run_bind, run_modify. cbn beta iota. rewrite run_mret.
    eexists. split; [|unfold sent; do 2 f_equal; by rewrite list_to_set_elements_L].
    intros i x Hx%elem_of_list_to_map_2. apply sent_known. unfold message_entries in Hx. apply list_elem_of_omap in Hx as ([c xs] & _ & Hx).
    destruct (isActive _ c); [|done]. destruct (identity_of _ c) as [j|]; [|done]. case_bool_decide as Hk; [|done]. injection Hx as -> _.
    unfold sent. cbn in *. by rewrite list_to_set_elements_L in Hk.
  - apply NoDup_elements.
  - intros i Hi%elem_of_elements. destruct (discards_out i Hi) as (Hk & _ & ? & ?). split; [|done]. cbn. apply elem_of_union. by left.
Qed.

Section browser.
Context (active : gmap Ident Node) (Hmir : Mirror active t).
Context (ms : gmap Ident (list Z)) (Hms : map_Forall (λ i _, is_Some (_cells t !! i)) ms).
Abbreviation frame := {| nodesToDiscard := elements (_nodeIdsToDiscard t); nodesMoved := moved;
  nodesUpdated := updated; nodesCreated := created; messages := ms |}.

Lemma frame_usable : usable frame active.
Proof using Hst Hroot Hmir Hms.
  pose proof (s_inv _ Hst) as Hinv. unfold usable. cbn [nodesCreated nodesUpdated nodesToDiscard]. split_and!.
  - intros i nd (c & Hc & -> & Hk & ->)%lookup_created. split.
    + apply eq_None_not_Some. by rewrite (m_dom _ _ Hmir).
    + pose proof (v_broadcast _ _ Hinv c Hc) as Hic. cbn. destruct (decide (c = root)) as [-> | Hcr].
      * rewrite (proj1 (proj2 (v_root _ _ Hinv))). done.
      * destruct (steady_parent t Hst c Hic Hcr) as (p & Hp & Hip). rewrite Hp. cbn. destruct (ident_inst' t p Hinv Hip) as [Hj _]. rewrite Hj.
        destruct (ident_inst' t c Hinv Hic) as [Hi _].
        assert (p ∈ _nodesToBroadcast t) as Hpb.
        { apply (v_new _ _ Hinv c (ident t c)); [done..|]. pose proof (v_parent _ _ Hinv c Hcr) as Hv. by rewrite Hp in Hv. }
        destruct (decide (ident t p ∈ _nodesKnownToChannel t)) as [Hpk | Hpk]; [right|left]; eexists; [apply lookup_updated|apply lookup_created]; eauto.
  - intros i nd (c & _ & _ & Hk & _)%lookup_updated. by apply (m_dom _ _ Hmir).
  - apply Forall_forall. intros i Hi%elem_of_elements. apply (m_dom _ _ Hmir). by apply (v_discard _ _ Hinv).
  - intros i nd Hnd. assert (∃ c, c ∈ _nodesToBroadcast t ∧ node_children nd = idents t (children (the_cell t c))) as (c & Hc & ->).
    { apply lookup_union_Some_raw in Hnd as [(c & Hc & _ & _ & ->)%lookup_created | [_ (c & Hc & _ & _ & ->)%lookup_updated]]; by exists c. }
    pose proof (v_broadcast _ _ Hinv c Hc) as Hic. apply Forall_fmap, Forall_forall. intros x Hx. cbn.
    pose proof (child_inst t Hst c x Hic Hx) as Hix. destruct (decide (ident t x ∈ _nodesKnownToChannel t)) as [Hk | Hk]; [left; by apply (m_dom _ _ Hmir)|].
    right. destruct (shown t Hst Hroot x Hix) as [Hb | ?]; [|done]. eexists. apply lookup_created. eauto.
Qed.

(** The page before the moves *)
Abbreviation base := (page_before_moves frame active).
Lemma frame_base : ∀ i, base !! i = match _cells t !! i with None => None | Some c =>
  Some (match moved !! i with
        | Some _ => {| extraData := exportData (the_cell t c); node_children := idents t (children (the_cell t c));
                       node_parent := match base !! i with Some nd => node_parent nd | None => None end |}
        | None => node_of t c end) end.
Proof using Hst Hroot Hmir Hms.
  pose proof (s_inv _ Hst) as Hinv. intros i. unfold page_before_moves. cbn [nodesCreated nodesUpdated nodesToDiscard]. rewrite lookup_foldr_delete. case_bool_decide as Hd.
  { apply elem_of_elements in Hd. by destruct (discards_out i Hd) as (_ & -> & _). }
  rewrite elem_of_elements in Hd. rewrite lookup_union, lookup_merge.
  destruct (_cells t !! i) as [c|] eqn:Hci.
  - pose proof (proj1 (v_cells _ _ Hinv i c) Hci) as [Hc Hi]. assert (ident t c = i) as Hic by (by rewrite Hi).
    assert (∀ c', c' ∈ _nodesToBroadcast t → i = ident t c' → c' = c) as Hsame.
    { intros c' Hc' E. apply (v_broadcast _ _ Hinv) in Hc'. destruct (ident_inst' t c' Hinv Hc') as [Hi' _]. rewrite <-E in Hi'.
      by apply (ident_inj _ _ _ _ _ Hinv Hc' Hc Hi' Hi). }
    assert (moved !! i = None → c ∉ _nodesToBroadcastAsMoved t) as Hnm.
    { intros E Hm. assert (moved !! i = Some (ident t (default root (par t c)))) as E' by (apply lookup_moved; eauto). congruence. }
    destruct (created !! i) as [nd|] eqn:Hcr.
    + apply lookup_created in Hcr as (c' & Hc' & E & _ & ->). rewrite (Hsame c' Hc' E). rewrite union_Some_l. destruct (moved !! i); [|done]. done.
    + destruct (active !! i) as [nd|] eqn:Hact.
      * destruct (m_node _ _ Hmir c i nd Hc Hi Hact) as (N1 & N2 & N3).
        assert (moved !! i = None → node_parent nd = par t c ≫= identity_of t) as N3'.
        { intros E. destruct (decide (c = root)) as [-> | Hcroot]; [rewrite N2 by done; by rewrite (proj1 (proj2 (v_root _ _ Hinv)))|]. by apply N3; [|apply Hnm]. }
        destruct (updated !! i) as [nd'|] eqn:Hu.
        -- apply lookup_updated in Hu as (c' & Hc' & E & _ & ->). rewrite (Hsame c' Hc' E) in *. cbn. rewrite ?left_id_L. f_equal.
           destruct (moved !! i) eqn:Hm; [done|]. unfold node_of. by rewrite <-N3'.
        -- assert (c ∉ _nodesToBroadcast t) as Hnb.
           { intros Hb. assert (i ∈ _nodesKnownToChannel t) as Hk by (apply (m_dom _ _ Hmir); by eexists).
             assert (updated !! i = Some {| extraData := exportData (the_cell t c); node_children := idents t (children (the_cell t c));
               node_parent := None |}) as E by (apply lookup_updated; by exists c). congruence. }
           destruct (N1 Hnb) as [E1 E2]. cbn. rewrite ?left_id_L. f_equal. destruct (moved !! i) eqn:Hm; destruct nd; cbn in *; subst; [done|].
           unfold node_of. by rewrite <-N3'.
      * exfalso. assert (i ∉ _nodesKnownToChannel t) as Hk by (rewrite <-(m_dom _ _ Hmir), Hact; by intros []).
        destruct (shown t Hst Hroot c Hc) as [Hb | ?]; [|congruence].
        rewrite (proj2 (lookup_created i (node_of t c))) in Hcr; [done|]. eauto.
  - assert (created !! i = None) as ->.
    { destruct (created !! i) as [nd|] eqn:E; [|done]. apply lookup_created in E as (c & Hc & -> & _). apply (v_broadcast _ _ Hinv) in Hc.
      destruct (ident_inst' t c Hinv Hc) as [_ ?]. congruence. }
    assert (active !! i = None) as ->.
    { apply eq_None_not_Some. rewrite (m_dom _ _ Hmir). intros Hk. by apply Hd, (v_channel _ _ Hinv i Hk). }
    by destruct (updated !! i).
Qed.

Lemma frame_shows : handleFrame frame active = Some (picture t).
Proof using Hst Hroot Hmir Hms.
  pose proof (s_inv _ Hst) as Hinv. pose proof frame_base as Hbase. unfold handleFrame. rewrite bool_decide_true by apply frame_usable.
  cbn [nodesMoved messages].
  assert (∀ c, inst t c → is_Some (base !! ident t c)) as Hthere.
  { intros c Hc. destruct (ident_inst' t c Hinv Hc) as [_ E]. rewrite Hbase, E. by eexists. }
  rewrite bool_decide_true.
  - f_equal. apply map_eq. intros i. unfold picture. rewrite lookup_merge, lookup_fmap. rewrite Hbase.
    destruct (_cells t !! i) as [c|] eqn:Hci; [|by destruct (moved !! i)]. destruct (moved !! i) as [p|] eqn:Hm; [|done].
    cbn. f_equal. unfold node_of. f_equal. apply lookup_moved in Hm as (c' & Hc' & E & ->). destruct (v_asmoved _ _ Hinv c' Hc') as [Hcr' Hic'].
    pose proof (proj1 (v_cells _ _ Hinv i c) Hci) as [Hc Hi]. destruct (ident_inst' t c' Hinv Hic') as [Hi' _]. rewrite <-E in Hi'.
    rewrite (ident_inj _ _ _ _ _ Hinv Hic' Hc Hi' Hi) in *. destruct (steady_parent t Hst c Hc Hcr') as (p & -> & Hp). cbn.
    by destruct (ident_inst' t p Hinv Hp) as [-> _].
  - split.
    + intros i p (c & Hc & -> & ->)%lookup_moved. destruct (v_asmoved _ _ Hinv c Hc) as [Hcr Hic]. split; [by apply Hthere|].
      destruct (steady_parent t Hst c Hic Hcr) as (q & -> & Hq). by apply Hthere.
    + intros i x Hx. destruct (Hms i x Hx) as [c Hc]. rewrite Hbase, Hc. by eexists.
Qed.

Lemma sent_mirror : Mirror (picture t) sent.
Proof using Hst Hroot Hmir Hms.
  pose proof (s_inv _ Hst) as Hinv. split.
  - intros i. unfold picture. by rewrite lookup_fmap, fmap_is_Some, sent_known.
  - intros c i nd Hc Hi. unfold picture. rewrite lookup_fmap, (proj2 (v_cells _ _ Hinv i c) (conj Hc Hi)). intros [= <-]. split_and!; [done| |done].
    intros ->. cbn. by rewrite (proj1 (proj2 (v_root _ _ Hinv))).
Qed.
End browser.
End sending.
