(* ===== verification/CellTreeTheorems.v ===== *)
(** * The browser's page is the tree

    From [withRoot] on, whatever frames are asked for, a browser that handles them one after the
    other has the tree on its page ([frames_mirror_the_tree]); and what happens to a cell that
    moves, or has two parents, when its parent goes. *)

From Stdlib Require Import Lia.
From stdpp Require Import options.
From S2P Require Import Prelude CellGraph CellTree CellTreeInvariant CellTreePasses CellTreeClean CellTreeTurns CellTreeFrames.

(** ** The first state *)





(** Messages change nothing else. *)
Abbreviation with_messages ms t := (t <| _pendingOutgoingMessages ::= λ pending, foldl schedule_message pending ms |>).



#[export] Instance settles_dec passes t : Decision (settles passes t).
Proof.
  revert t. induction passes as [|p passes IH]; intros t; cbn; [apply _|]. destruct (one_pass p t) as [[b|e] t']; apply _.
Defined.
#[export] Instance frames_settle_dec inputs t : Decision (frames_settle inputs t).
Proof.
  revert t. induction inputs as [|i inputs IH]; intros t; [left; done|]. apply and_dec; [apply settles_dec|].
  destruct (renderMessages (first_pass i :: further_passes i) (_scheduleMessages (scheduled i) t).2) as [[f|e] t']; [apply IH|left; done].
Defined.

(** ** The theorem *)


(** A session: the root shows cells 1 and 2, and 1 shows 3; then 1 gives 3 to 2, that also gets a
    new child, and there is a message for 3; then the root shows 2 only. *)
Definition shows (data : Z) (new : list nat) : Outcome :=
  Recalculated data None [] ((λ c, (c, Recalculated (10 + Z.of_nat c) None [] [])) <$> new).
Definition round_1 (c : nat) : Outcome :=
  match c with
  | 0 => Recalculated 10 None [] [(1, shows 11 [3]); (2, shows 12 [])]
  | _ => shows 0 []
  end%nat.
Definition round_2 (c : nat) : Outcome :=
  match c with 1 => shows 11 [] | 2 => shows 12 [3; 4]%nat | _ => shows 0 [] end%nat.
Definition round_3 (c : nat) : Outcome :=
  match c with 0 => shows 10 [2]%nat | _ => shows 0 [] end%nat.
Definition asking (ms : list (nat * Message)) (marked : list nat) (round : nat → Outcome) : FrameInput :=
  {| scheduled := ms; first_pass := {| marked := marked; rounds := [round]; more := false |}; further_passes := [] |}.
Definition three_frames : list FrameInput :=
  [asking [] [] round_1; asking [(3%nat, Plain 7)] [1; 2]%nat round_2; asking [] [0%nat] round_3].




Example three_frames_sent :
  match session three_frames blank_Cells with
  | (Ok [_; f2; f3], _) =>
      nodesMoved f2 !! Numbered 4 = Some (Numbered 5) ∧ nodesCreated f2 !! Numbered 4 = None ∧
      messages f2 !! Numbered 4 = Some [7%Z] ∧ nodesToDiscard f3 = [Numbered 3]
  | _ => False
  end.
Proof. vm_compute. by split_and!. Qed.

(** ** Outside of the discipline *)

(** 2 takes 3 over, while its code makes the root dirty, which then drops 2.  [_cellOutOfScope] takes
    3 out of the tree and leaves it in [_movedCells]: this frame and all that follow raise. *)
Definition moved_then_dropped : list FrameInput :=
  [asking [] [] round_1;
   {| scheduled := [];
      first_pass :=
        {| marked := [1; 2]%nat; more := false;
           rounds := [λ c, if bool_decide (c = 2%nat) then Recalculated 12 None [root] [(3%nat, shows 13 [])] else shows 11 [];
                      λ _, shows 10 [1%nat]] |};
      further_passes := [] |}].
Example moved_cells_are_not_forgotten :
  let t := (session moved_then_dropped blank_Cells).2 in
  (session moved_then_dropped blank_Cells).1 = Raise AssertionError ∧ _movedCells t = {[3%nat]} ∧ in_cells (the_cell t 3) = false ∧
  (renderMessages [quiet_pass] t).1 = Raise AssertionError.
Proof. vm_compute. by split_and!. Qed.

(** 2 takes 3 while 1 keeps it.  Both get the error, but 1 is not broadcast: what the browser shows
    of it is not what the tree has. *)
Definition taken_twice : list FrameInput := [asking [] [] round_1; asking [] [2%nat] round_2].
Example an_error_is_not_shown :
  match session taken_twice blank_Cells with
  | (Ok fs, t) =>
      exception (exportData (the_cell t 1)) = Some two_parents ∧
      match handleFrames fs ∅ with
      | Some page => (extraData <$> page !! Numbered 3) = Some {| body := 11; exception := None |}
      | None => False
      end
  | _ => False
  end.
Proof. vm_compute. by split_and!. Qed.

(** When the root then drops 2, 3 goes with it, although 1 shows it; the next frame with 1 raises. *)
Definition drops_2 (c : nat) : Outcome := match c with O => shows 10 [1%nat] | _ => shows 0 [] end.
Example destroyed_with_one_of_its_parents :
  match session (taken_twice ++ [asking [] [0%nat] drops_2]) blank_Cells with
  | (Ok _, t) =>
      children (the_cell t 1) = [3%nat] ∧ in_cells (the_cell t 3) = false ∧
      (one_frame (asking [] [1%nat] (λ _, shows 11 [3%nat])) t).1 =
        Raise (UserException "Can't ask for identity as it's not part of a cells package")
  | _ => False
  end.
Proof. vm_compute. by split_and!. Qed.
