(* ===== verification/Doubles.v ===== *)
(** * Floating-point numbers

    A finite double is a multiple of 2^-1074 with at most 53 significant bits; it is modelled by
    that multiple.  A sum is the exact one rounded to the nearest double, ties to even.  Infinities,
    NaN, the sign of zero and overflow are left out. *)

From Stdlib Require Import Lia.
From stdpp Require Import options.
From S2P Require Import Prelude.

Local Open Scope Z_scope.

(** ** Rounding *)

(** The nearest multiple of [2 ^ e] *)
Definition nearest (e n : Z) : Z :=
  let q := n / 2 ^ e in
  let r := n mod 2 ^ e in
  2 ^ e * (if bool_decide (2 * r < 2 ^ e) then q
           else if bool_decide (2 ^ e < 2 * r) then q + 1
           else if Z.even q then q else q + 1).

(** How many bits of a number are too many *)
Definition excess (n : Z) : Z := Z.max 0 (Z.log2 n - 52).
Definition round_abs (n : Z) : Z := nearest (excess n) n.
Definition round53 (n : Z) : Z := if bool_decide (n < 0) then - round_abs (- n) else round_abs n.

Lemma nearest_bounds e n : 0 <= e → 2 ^ e * (n / 2 ^ e) <= nearest e n <= 2 ^ e * (n / 2 ^ e + 1).
Proof.
  intros He. pose proof (Z.pow_pos_nonneg 2 e ltac:(lia) He). unfold nearest. repeat case_match; nia.
Qed.

Lemma nearest_exact e n : 0 <= e → (2 ^ e | n) → nearest e n = n.
Proof.
  intros He [q ->]. pose proof (Z.pow_pos_nonneg 2 e ltac:(lia) He). unfold nearest.
  rewrite Z.mod_mul, Z.div_mul by lia. rewrite bool_decide_true by lia. lia.
Qed.

Lemma nearest_mono e m n : 0 <= e → m <= n → nearest e m <= nearest e n.
Proof.
  intros He Hmn. pose proof (Z.pow_pos_nonneg 2 e ltac:(lia) He) as Hp.
  assert (m / 2 ^ e <= n / 2 ^ e) as Hq by (by apply Z.div_le_mono).
  destruct (decide (m / 2 ^ e = n / 2 ^ e)) as [E | E].
  - assert (m mod 2 ^ e <= n mod 2 ^ e) as Hr.
    { pose proof (Z.div_mod m (2 ^ e) ltac:(lia)). pose proof (Z.div_mod n (2 ^ e) ltac:(lia)). nia. }
    unfold nearest. rewrite E. repeat case_bool_decide; try lia; destruct (Z.even _); nia.
  - pose proof (nearest_bounds e m He). pose proof (nearest_bounds e n He). nia.
Qed.

(** A number of at most 53 bits is not rounded, wherever they are. *)
Lemma round_abs_exact k n : 0 <= k → 0 <= n < 2 ^ (53 + k) → (2 ^ k | n) → round_abs n = n.
Proof.
  intros Hk [Hn Hlt] Hdiv. unfold round_abs. apply nearest_exact; [unfold excess; lia|].
  destruct (decide (n = 0)) as [-> | Hne]; [apply Z.divide_0_r|].
  assert (Z.log2 n < 53 + k) as Hlog by (apply Z.log2_lt_pow2; lia).
  transitivity (2 ^ k); [|done]. unfold excess. exists (2 ^ (k - Z.max 0 (Z.log2 n - 52))).
  rewrite <-Z.pow_add_r by lia. f_equal. lia.
Qed.

(** The first bits of a number *)
Lemma high_bits n : 0 < n → 0 < excess n → 2 ^ 52 <= n / 2 ^ excess n < 2 ^ 53.
Proof.
  intros Hn He. unfold excess in *. destruct (Z.log2_spec n Hn) as [H1 H2]. set (l := Z.log2 n) in *.
  rewrite Z.max_r in * by lia. split.
  - apply Z.div_le_lower_bound; [apply Z.pow_pos_nonneg; lia|]. rewrite <-Z.pow_add_r by lia. by replace (l - 52 + 52) with l by lia.
  - apply Z.div_lt_upper_bound; [apply Z.pow_pos_nonneg; lia|]. rewrite <-Z.pow_add_r by lia. by replace (l - 52 + 53) with (Z.succ l) by lia.
Qed.

Lemma round_abs_bits n : 0 < n → 2 ^ Z.log2 n <= round_abs n <= 2 ^ Z.succ (Z.log2 n).
Proof.
  intros Hn. destruct (Z.log2_spec n Hn) as [H1 H2]. pose proof (Z.log2_nonneg n) as Hl.
  destruct (decide (Z.log2 n <= 52)) as [Hs | Hs].
  - rewrite (round_abs_exact 0); [lia|lia| |exists n; lia]. split; [lia|].
    eapply Z.lt_le_trans; [exact H2|]. apply Z.pow_le_mono_r; lia.
  - assert (0 < excess n) as He by (unfold excess; lia). pose proof (high_bits n Hn He) as [Q1 Q2].
    pose proof (nearest_bounds (excess n) n ltac:(lia)) as [B1 B2]. fold (round_abs n) in B1, B2.
    assert (excess n = Z.log2 n - 52) as Hx by (unfold excess; lia).
    assert (2 ^ Z.log2 n = 2 ^ excess n * 2 ^ 52) as -> by (rewrite <-Z.pow_add_r by lia; f_equal; lia).
    assert (2 ^ Z.succ (Z.log2 n) = 2 ^ excess n * 2 ^ 53) as -> by (rewrite <-Z.pow_add_r by lia; f_equal; lia).
    pose proof (Z.pow_pos_nonneg 2 (excess n) ltac:(lia) ltac:(lia)). split; [etrans; [|exact B1]|etrans; [exact B2|]]; apply Z.mul_le_mono_nonneg_l; lia.
Qed.

Lemma round_abs_nonneg n : 0 <= n → 0 <= round_abs n.
Proof.
  intros Hn. destruct (decide (n = 0)) as [-> | Hne]; [done|]. pose proof (round_abs_bits n ltac:(lia)) as [H _].
  etrans; [|exact H]. apply Z.pow_nonneg. lia.
Qed.

Lemma round_abs_mono m n : 0 <= m <= n → round_abs m <= round_abs n.
Proof.
  intros [Hm Hmn]. destruct (decide (m = 0)) as [-> | Hne]; [by apply round_abs_nonneg|].
  destruct (decide (Z.log2 m = Z.log2 n)) as [E | E].
  - unfold round_abs, excess. rewrite E. apply nearest_mono; lia.
  - pose proof (Z.log2_le_mono m n Hmn). pose proof (round_abs_bits m ltac:(lia)) as [_ H1]. pose proof (round_abs_bits n ltac:(lia)) as [H2 _].
    etrans; [exact H1|]. etrans; [|exact H2]. apply Z.pow_le_mono_r; lia.
Qed.

Lemma round_abs_idem n : 0 <= n → round_abs (round_abs n) = round_abs n.
Proof.
  intros Hn. destruct (decide (0 < excess n)) as [He | He].
  2: { assert (round_abs n = n) as E; [|by rewrite E]. unfold round_abs. apply nearest_exact; [unfold excess; lia|].
    assert (excess n = 0) as -> by (unfold excess in *; lia). exists n. lia. }
  assert (0 < n) as Hpos by (destruct (decide (n = 0)) as [-> | ?]; [done|lia]).
  pose proof (high_bits n Hpos He) as [Q1 Q2]. pose proof (Z.pow_pos_nonneg 2 (excess n) ltac:(lia) ltac:(lia)) as Hp.
  assert (∃ q, round_abs n = 2 ^ excess n * q ∧ 0 <= q <= 2 ^ 53) as (q & -> & Hq).
  { unfold round_abs, nearest. eexists. split; [reflexivity|]. repeat case_match; lia. }
  destruct (decide (q = 2 ^ 53)) as [-> | Hne].
  - apply (round_abs_exact (excess n + 1)); [lia|split; [lia|]|].
    + rewrite <-Z.pow_add_r by lia. apply Z.pow_lt_mono_r; lia.
    + exists (2 ^ 52). rewrite <-!Z.pow_add_r by lia. f_equal. lia.
  - apply (round_abs_exact (excess n)); [lia|split; [lia|]|].
    + replace (53 + excess n) with (excess n + 53) by lia. rewrite Z.pow_add_r by lia. apply Z.mul_lt_mono_pos_l; lia.
    + exists q. lia.
Qed.

Lemma round53_mono m n : m <= n → round53 m <= round53 n.
Proof.
  intros Hmn. unfold round53. repeat case_bool_decide; try lia.
  - pose proof (round_abs_mono (- n) (- m) ltac:(lia)). lia.
  - pose proof (round_abs_nonneg (- m) ltac:(lia)). pose proof (round_abs_nonneg n ltac:(lia)). lia.
  - apply round_abs_mono. lia.
Qed.

Lemma round53_idem n : round53 (round53 n) = round53 n.
Proof.
  unfold round53 at 2 3. case_bool_decide as Hn.
  - pose proof (round_abs_nonneg (- n) ltac:(lia)). unfold round53. case_bool_decide.
    + by rewrite Z.opp_involutive, round_abs_idem by lia.
    + replace (round_abs (- n)) with 0 by lia. done.
  - pose proof (round_abs_nonneg n ltac:(lia)). unfold round53. rewrite bool_decide_false by lia. apply round_abs_idem. lia.
Qed.

(** ** Doubles *)

Record double := Double { units : Z; units_ok : round53 units = units }.
Definition to_double (n : Z) : double := Double (round53 n) (round53_idem n).

Lemma double_eq x y : units x = units y → x = y.
Proof. destruct x as [x Hx], y as [y Hy]. cbn. intros ->. f_equal. apply proof_irrel. Qed.
#[export] Instance double_eq_dec : EqDecision double.
Proof.
  intros x y. destruct (decide (units x = units y)) as [E | E]; [left; by apply double_eq|right; by intros ->].
Defined.

(** [x + y] *)
Definition dadd (x y : double) : double := to_double (units x + units y).
Definition dzero : double := to_double 0.
(** How many units make one *)
Definition one_unit : Z := 2 ^ 1074.
(** [float(n)] *)
Definition of_int (n : Z) : double := to_double (n * one_unit).
Arguments one_unit : simpl never.
Arguments of_int : simpl never.

Lemma dadd_mono x x' y : units x <= units x' → units (dadd x y) <= units (dadd x' y).
Proof. intros Hx. apply round53_mono. lia. Qed.

Lemma dadd_grows x y : 0 <= units y → units x <= units (dadd x y).
Proof. intros Hy. rewrite <-(units_ok x) at 1. apply round53_mono. lia. Qed.

Lemma dadd_zero x : dadd dzero x = x.
Proof. apply double_eq. apply (units_ok x). Qed.

(** ** Sums that are exact *)

Section exact.
Context (k : Z) (Hk : 0 <= k).

Lemma dadd_exact x y :
  0 <= units x + units y < 2 ^ (53 + k) → (2 ^ k | units x) → (2 ^ k | units y) → units (dadd x y) = units x + units y.
Proof using Hk.
  intros Hlt Hx Hy. cbn. unfold round53. rewrite bool_decide_false by lia.
  apply (round_abs_exact k); [done|done|]. by apply Z.divide_add_r.
Qed.

(** A sum that is within a small bound is exact. *)
Lemma dadd_within x y most :
  0 <= units x + units y → (2 ^ k | units x) → (2 ^ k | units y) → most < 2 ^ (53 + k) → units (dadd x y) <= most →
  units (dadd x y) = units x + units y.
Proof using Hk.
  intros Hpos Hx Hy Hmost Hle. apply dadd_exact; [|done..]. split; [done|].
  apply Z.nle_gt. intros Hbig. assert (0 < 2 ^ (53 + k)) as Hp by (apply Z.pow_pos_nonneg; lia).
  pose proof (round53_mono _ _ Hbig) as Hr. change (round53 (units x + units y)) with (units (dadd x y)) in Hr.
  assert (round53 (2 ^ (53 + k)) = 2 ^ (53 + k)) as E; [|lia].
  unfold round53. rewrite bool_decide_false by lia. apply (round_abs_exact (k + 1)); [lia| |].
  - split; [lia|]. apply Z.pow_lt_mono_r; lia.
  - exists (2 ^ 52). rewrite <-Z.pow_add_r by lia. f_equal. lia.
Qed.
End exact.

(** Ten times a tenth is less than one. *)
Definition tenth : double := to_double (2 ^ 1074 / 10).
Example ten_tenths : units (foldr dadd dzero (replicate 10 tenth)) < one_unit ∧ one_unit <= 10 * units tenth.
Proof. vm_compute. split; [reflexivity|discriminate]. Qed.
