(* ===== verification/Services.v ===== *)
(** * Services, hosts and instances

    The objects of the database that the service manager works on (ServiceInstance.py), and the
    methods of [Service] and [ServiceInstance].  Objects are known by their identity; reading or
    writing an attribute of an object that does not exist raises an exception.  A transaction is
    a computation on the whole database that is undone if it raises.  Amounts of memory and of
    cores are floats in the code; here they are integer numbers of some unit, so sums are exact. *)

From stdpp Require Import options.
From S2P Require Import Prelude Doubles.

Local Open Scope Z_scope.

Inductive codebase_status := PREPARED | LOCKED | UNLOCKED.
#[export] Instance codebase_status_eq_dec : EqDecision codebase_status.
Proof. solve_decision. Defined.

Record Service := {
  s_name : string;
  _codebase : option nat;
  _codebaseStatus : codebase_status;
  service_module_name : string;
  service_class_name : string;
  gbRamUsed : double;
  coresUsed : double;
  validPlacementGroups : list string;
  isSingleton : bool;
  target_count : Z;
  unbootable_count : Z;
  timesBootedUnsuccessfully : Z;
  timesCrashed : Z;
  lastFailureReason : option string;
}.
#[export] Instance Service_settable : Settable Service := λ r,
  {| s_name := s_name r; _codebase := _codebase r; _codebaseStatus := _codebaseStatus r;
     service_module_name := service_module_name r; service_class_name := service_class_name r;
     gbRamUsed := gbRamUsed r; coresUsed := coresUsed r; validPlacementGroups := validPlacementGroups r;
     isSingleton := isSingleton r; target_count := target_count r; unbootable_count := unbootable_count r;
     timesBootedUnsuccessfully := timesBootedUnsuccessfully r; timesCrashed := timesCrashed r;
     lastFailureReason := lastFailureReason r |}.

(** [Service(name=name, validPlacementGroups=groups)]: the other fields get their default values *)
Definition new_Service (name : string) (groups : list string) : Service :=
  {| s_name := name; _codebase := None; _codebaseStatus := PREPARED; service_module_name := "";
     service_class_name := ""; gbRamUsed := dzero; coresUsed := dzero; validPlacementGroups := groups;
     isSingleton := false; target_count := 0; unbootable_count := 0; timesBootedUnsuccessfully := 0;
     timesCrashed := 0; lastFailureReason := None |}.

Record ServiceHost := {
  h_connection : nat;
  placementGroup : string;
  hostname : string;
  maxGbRam : double;
  maxCores : Z;
  h_gbRamUsed : double;
  h_coresUsed : double;
  maxServiceInstances : option Z;
}.
#[export] Instance ServiceHost_settable : Settable ServiceHost := λ r,
  {| h_connection := h_connection r; placementGroup := placementGroup r; hostname := hostname r;
     maxGbRam := maxGbRam r; maxCores := maxCores r; h_gbRamUsed := h_gbRamUsed r; h_coresUsed := h_coresUsed r;
     maxServiceInstances := maxServiceInstances r |}.

Inductive instance_state := Booting | Initializing | Running | Stopped | FailedToStart | Crashed.
#[export] Instance instance_state_eq_dec : EqDecision instance_state.
Proof. solve_decision. Defined.

Record ServiceInstance := {
  i_host : nat;
  i_service : nat;
  i_codebase : option nat;
  i_connection : option nat;
  owner : option nat;
  shouldShutdown : bool;
  shutdownTimestamp : option Z;
  i_state : instance_state;
  boot_timestamp : option Z;
  start_timestamp : option Z;
  end_timestamp : option Z;
  failureReason : string;
}.
#[export] Instance ServiceInstance_settable : Settable ServiceInstance := λ r,
  {| i_host := i_host r; i_service := i_service r; i_codebase := i_codebase r; i_connection := i_connection r;
     owner := owner r; shouldShutdown := shouldShutdown r; shutdownTimestamp := shutdownTimestamp r;
     i_state := i_state r; boot_timestamp := boot_timestamp r; start_timestamp := start_timestamp r;
     end_timestamp := end_timestamp r; failureReason := failureReason r |}.

Definition booting_instance (service host : nat) (now : Z) (own : option nat) : ServiceInstance :=
  {| i_host := host; i_service := service; i_codebase := None; i_connection := None; owner := own;
     shouldShutdown := false; shutdownTimestamp := None; i_state := Booting; boot_timestamp := None;
     start_timestamp := Some now; end_timestamp := None; failureReason := "" |}.

Record TerminalSession := { t_host : nat; t_connection : option nat }.

Record DB := {
  services : gmap nat Service;
  hosts : gmap nat ServiceHost;
  instances : gmap nat ServiceInstance;
  terminals : gmap nat TerminalSession;
  connections : gset nat;        (* the connections that exist *)
  next_identity : nat;
}.
#[export] Instance DB_settable : Settable DB := λ r,
  {| services := services r; hosts := hosts r; instances := instances r; terminals := terminals r;
     connections := connections r; next_identity := next_identity r |}.

Abbreviation MD := (M DB).
Definition ObjectDoesntExistException : exn := UserException "ObjectDoesntExistException".
Definition CodebaseLockedException : exn := UserException "CodebaseLockedException".

(** [with db.transaction(): m] *)
Definition transaction {A} (m : MD A) : MD A := λ db,
  match m db with
  | (Ok a, db') => (Ok a, db')
  | (Raise e, _) => (Raise e, db)
  end.

Definition the_service (s : nat) : MD Service :=
  o ← gets (λ db, services db !! s); lift_option ObjectDoesntExistException o.
Definition the_host (h : nat) : MD ServiceHost :=
  o ← gets (λ db, hosts db !! h); lift_option ObjectDoesntExistException o.
Definition the_instance (i : nat) : MD ServiceInstance :=
  o ← gets (λ db, instances db !! i); lift_option ObjectDoesntExistException o.

(** Assigning attributes. *)
Definition set_service (s : nat) (f : Service → Service) : MD unit :=
  service ← the_service s; modify (λ db, db <| services ::= <[s := f service]> |>).
Definition set_host (h : nat) (f : ServiceHost → ServiceHost) : MD unit :=
  host ← the_host h; modify (λ db, db <| hosts ::= <[h := f host]> |>).
Definition set_instance (i : nat) (f : ServiceInstance → ServiceInstance) : MD unit :=
  inst ← the_instance i; modify (λ db, db <| instances ::= <[i := f inst]> |>).
Definition delete_instance (i : nat) : MD unit :=
  _ ← the_instance i; modify (λ db, db <| instances ::= delete i |>).
Definition new_identity : MD nat :=
  i ← gets next_identity; modify (λ db, db <| next_identity ::= S |>);; mret i.

(** The objects that an index finds, in its order. *)
Definition lookupAll {A} (P : A → bool) (m : gmap nat A) : list nat :=
  (filter (λ kv, P kv.2 = true) (map_to_list m)).*1.

(** ** [Service] *)

Definition MAX_BAD_BOOTS : Z := 5.

Definition isLocked (s : Service) : bool := bool_decide (_codebaseStatus s = LOCKED).
Definition unlock (s : Service) : Service := s <| _codebaseStatus := UNLOCKED |>.
Definition lock (s : Service) : Service := s <| _codebaseStatus := LOCKED |>.
Definition prepare (s : Service) : Service :=
  if bool_decide (_codebaseStatus s = LOCKED) then s <| _codebaseStatus := PREPARED |> else s.
Definition deploy (s : Service) : Service :=
  if bool_decide (_codebaseStatus s = PREPARED) then s <| _codebaseStatus := LOCKED |> else s.

Definition _setCodebase (other : nat) (s : Service) : Service :=
  if isLocked s then s else deploy (s <| _codebase := Some other |>).

Definition resetCounters (s : Service) : Service :=
  s <| timesBootedUnsuccessfully := 0 |> <| timesCrashed := 0 |> <| lastFailureReason := None |>.

Definition setCodebase (codebase : option nat) (moduleName className : option string) (s : Service) : option Service :=
  if (bool_decide (codebase ≠ None) && bool_decide (codebase ≠ _codebase s))
     || (bool_decide (moduleName ≠ None) && bool_decide (moduleName ≠ Some (service_module_name s)))
     || (bool_decide (className ≠ None) && bool_decide (className ≠ Some (service_class_name s)))
  then
    if isLocked s then None
    else
      let s := from_option (λ c, _setCodebase c s) s codebase in
      let s := from_option (λ m, s <| service_module_name := m |>) s moduleName in
      let s := from_option (λ c, s <| service_class_name := c |>) s className in
      Some (resetCounters s)
  else Some s.

Definition trySetCodebase (codebase : nat) (moduleName className : option string) (s : Service) : bool * Service :=
  match setCodebase (Some codebase) moduleName className s with
  | Some s => (true, s)
  | None => (false, s)
  end.

Definition isThrottled (s : Service) : bool := bool_decide (MAX_BAD_BOOTS <= timesBootedUnsuccessfully s).

Definition effectiveTargetCount (s : Service) : Z :=
  if bool_decide (MAX_BAD_BOOTS <= timesBootedUnsuccessfully s) then 0
  else if isSingleton s then Z.min 1 (Z.max (target_count s) 0)
  else Z.max (target_count s) 0.

(** ** [ServiceInstance] *)

Definition connection_exists (db : DB) (c : option nat) : bool :=
  match c with Some c => bool_decide (c ∈ connections db) | None => false end.

Definition isRunning (db : DB) (i : ServiceInstance) : bool :=
  bool_decide (i_state i = Running) && negb (shouldShutdown i) && connection_exists db (i_connection i).

Definition isNotActive (db : DB) (i : ServiceInstance) : bool :=
  bool_decide (i_state i ∈ [Stopped; FailedToStart; Crashed])
  || (bool_decide (i_connection i ≠ None) && negb (connection_exists db (i_connection i))).

Definition isActive (db : DB) (i : ServiceInstance) : bool :=
  bool_decide (i_state i ∈ [Running; Initializing; Booting]) && negb (shouldShutdown i)
  && (bool_decide (i_connection i = None) || connection_exists db (i_connection i)).

Definition triggerShutdown (now : Z) (i : ServiceInstance) : ServiceInstance :=
  if shouldShutdown i then i else i <| shouldShutdown := true |> <| shutdownTimestamp := Some now |>.

Definition markFailedToStart (now : Z) (reason : string) (i : ServiceInstance) : ServiceInstance :=
  i <| boot_timestamp := Some now |> <| end_timestamp := Some now |> <| failureReason := reason |>
    <| i_state := FailedToStart |>.

(** [instance.spawnChild()] *)
Definition spawnChild (now : Z) (i : nat) : MD nat :=
  inst ← the_instance i;
  child ← new_identity;
  modify (λ db, db <| instances ::= <[child := booting_instance (i_service inst) (i_host inst) now (Some i)]> |>);;
  mret child.
