(* ===== verification/ServiceManager.v ===== *)
(** * The service manager (ServiceManager.py, ServiceWorker.py, SubprocessServiceManager.py)

    One pass of a manager over the database, the operations of its clients, the transactions of
    a worker, and the processes of a manager that uses subprocesses.  [now] is what [time.time]
    gives, [wait] is what [db.waitForCondition] does while the given instances are shut down
    (others work on the database meanwhile), and [startServiceWorker] is the method that the
    subclasses define.  Statistics of the machine and log messages are left out, except for the
    attributes that a message reads. *)

From stdpp Require Import options.
From S2P Require Import Prelude Doubles Services.

Local Open Scope Z_scope.

(** ** Clients *)

(** [createOrUpdateService]; the codebase was inferred by the caller *)
Definition createOrUpdateService (moduleName className serviceName : string) (targetCount : option Z)
    (placement : option string) (singleton : option bool) (cores gbRam : option double) (codebase : option nat) : MD nat :=
  known ← gets (λ db, lookupAll (λ s, bool_decide (s_name s = serviceName)) (services db));
  service ← match known with
            | s :: _ => mret s
            | [] => s ← new_identity;
                    modify (λ db, db <| services ::= <[s := new_Service serviceName [
                      from_option (λ g, if bool_decide (g = ""%string) then "Master"%string else g) "Master"%string placement]]> |>);;
                    mret s
            end;
  s ← the_service service;
  s' ← lift_option CodebaseLockedException (setCodebase codebase (Some moduleName) (Some className) s);
  set_service service (λ _, s');;
  set_service service (λ s, from_option (λ v, s <| target_count := v |>) s targetCount);;
  set_service service (λ s, from_option (λ v, s <| validPlacementGroups := [v] |>) s placement);;
  set_service service (λ s, from_option (λ v, s <| coresUsed := v |>) s cores);;
  set_service service (λ s, from_option (λ v, s <| gbRamUsed := v |>) s gbRam);;
  set_service service (λ s, from_option (λ v, s <| isSingleton := v |>) s singleton);;
  mret service.

Definition services_named (name : string) (db : DB) : list nat :=
  lookupAll (λ s, bool_decide (s_name s = name)) (services db).

(** [lookupUnique]: at most one *)
Definition startService (name : string) (targetCount : Z) : MD unit :=
  found ← gets (services_named name);
  match found with
  | [] => raise TypeError
  | [s] => set_service s (λ s, s <| target_count := targetCount |>)
  | _ => raise (UserException "Found multiple items")
  end.
Definition stopService (name : string) : MD unit := startService name 0.

Definition instances_of (service : nat) (db : DB) : list nat :=
  lookupAll (λ i, bool_decide (i_service i = service)) (instances db).
Definition instances_on (host : nat) (db : DB) : list nat :=
  lookupAll (λ i, bool_decide (i_host i = host)) (instances db).
Definition terminals_on (host : nat) (db : DB) : list nat :=
  lookupAll (λ t, bool_decide (t_host t = host)) (terminals db).

Definition removeService (name : string) (force : bool) : MD unit :=
  found ← gets (services_named name);
  match found with
  | [s] =>
      ids ← gets (instances_of s);
      active ← mapM ids (λ i, inst ← the_instance i; gets (λ db, negb (isNotActive db inst)));
      if negb force && existsb id active then raise (UserException "Failed to remove service")
      else forM ids delete_instance;;
           modify (λ db, db <| services ::= delete s |>)
  | _ => raise (UserException "lookupOne")
  end.

Definition stopAllServices_request : MD unit :=
  all ← gets (λ db, lookupAll (λ _, true) (services db));
  forM all (λ s, set_service s (λ s, s <| target_count := 0 |>)).

(** ** Allocation *)

Definition canAssign (db : DB) (s : Service) (h : nat) (host : ServiceHost) : bool :=
  bool_decide (placementGroup host ∈ validPlacementGroups s)
  && match maxServiceInstances host with
     | Some most => negb (bool_decide (most <= Z.of_nat (length (instances_on h db))))
     | None => true
     end
  && negb (bool_decide (units (maxGbRam host) < units (dadd (h_gbRamUsed host) (gbRamUsed s))))
  && negb (bool_decide (maxCores host * one_unit < units (dadd (h_coresUsed host) (coresUsed s)))).   (* an int *)

Definition host_fits (db : DB) (s : Service) (h : nat) : bool :=
  match hosts db !! h with
  | Some host => bool_decide (h_connection host ∈ connections db) && canAssign db s h host
  | None => false
  end.

Definition _pickHost (s : Service) (db : DB) : option nat :=
  head (filter (λ h, host_fits db s h = true) (lookupAll (λ _, true) (hosts db))).

(** [ServiceInstance(service=service, host=host, state="Booting", ...)] *)
Definition create_instance (service host : nat) (now : Z) : MD nat :=
  i ← new_identity;
  modify (λ db, db <| instances ::= <[i := booting_instance service host now None]> |>);;
  mret i.

(** The first loop of [_updateService]: [None] if it returned because no host fits.  The fuel is
    the number of instances that are wanted. *)
Fixpoint boot_loop (fuel : nat) (service : nat) (now : Z) (actual : list nat) : MD (option (list nat)) :=
  s ← the_service service;
  if bool_decide (Z.of_nat (length actual) < effectiveTargetCount s) then
    match fuel with
    | O => raise (UserException "RecursionError")
    | S fuel =>
        picked ← gets (_pickHost s);
        match picked with
        | None =>
            whenM (bool_decide (unbootable_count s ≠ effectiveTargetCount s - Z.of_nat (length actual)))
              (set_service service (λ s, s <| unbootable_count := effectiveTargetCount s - Z.of_nat (length actual) |>));;
            mret None
        | Some h =>
            set_host h (λ host, host <| h_gbRamUsed ::= λ x, dadd x (gbRamUsed s) |> <| h_coresUsed ::= λ x, dadd x (coresUsed s) |>);;
            i ← create_instance service h now;
            boot_loop fuel service now (actual ++ [i])
        end
    end
  else mret (Some actual).

(** The last loop; [actual] is in reverse. *)
Fixpoint shutdown_loop (service : nat) (now : Z) (actual : list nat) : MD unit :=
  s ← the_service service;
  if bool_decide (effectiveTargetCount s < Z.of_nat (length actual)) then
    match actual with
    | [] => raise IndexError
    | i :: actual =>
        set_instance i (triggerShutdown now);;
        inst ← the_instance i;
        _ ← the_service (i_service inst);
        shutdown_loop service now actual
    end
  else mret tt.

Definition _updateService (service : nat) (now : Z) (actual_records : list nat) : MD unit :=
  s ← the_service service;
  r ← boot_loop (Z.to_nat (effectiveTargetCount s)) service now actual_records;
  match r with
  | None => mret tt
  | Some actual =>
      s ← the_service service;
      whenM (bool_decide (unbootable_count s ≠ 0)) (set_service service (λ s, s <| unbootable_count := 0 |>));;
      shutdown_loop service now (reverse actual)
  end.

(** The records that a view of [createInstanceRecords] collects. *)
Definition actual_records (db : DB) (service : nat) : list nat :=
  lookupAll (λ i, bool_decide (i_service i = service) && isActive db i && bool_decide (owner i = None)) (instances db).

Definition update_one (now : Z) (service_records : nat * list nat) : MD unit :=
  let (service, records) := service_records in
  s ← the_service service;
  whenM (bool_decide (effectiveTargetCount s ≠ Z.of_nat (length records))) (_updateService service now records).

Definition createInstanceRecords (now : Z) : MD unit :=
  actual_by_service ← gets (λ db, (λ s, (s, actual_records db s)) <$> lookupAll (λ _, true) (services db));
  forM actual_by_service (λ sr, transaction (update_one now sr)).

(** ** Collecting *)

(** [sum([i.service.gbRamUsed for i in instances if i.isActive()])], and the cores *)
Definition count_instance (i : nat) (acc : double * double) : MD (double * double) :=
  inst ← the_instance i;
  db ← get_state;
  if isActive db inst then
    s ← the_service (i_service inst);
    mret (dadd acc.1 (gbRamUsed s), dadd acc.2 (coresUsed s))
  else mret acc.
Definition used_by (ids : list nat) : MD (double * double) := foldM ids (dzero, dzero) count_instance.

(** One turn of the loop of [collectDeadHosts]; it returns the terminals to delete. *)
Definition collect_host (h : nat) : MD (list nat) :=
  ids ← gets (instances_on h);
  ts ← gets (terminals_on h);
  host ← the_host h;
  alive ← gets (λ db, bool_decide (h_connection host ∈ connections db));
  if negb alive then
    forM ids delete_instance;;
    modify (λ db, db <| hosts ::= delete h |>);;
    mret ts
  else
    used ← used_by ids;
    whenM (bool_decide (h_gbRamUsed host ≠ used.1)) (set_host h (λ host, host <| h_gbRamUsed := used.1 |>));;
    whenM (bool_decide (h_coresUsed host ≠ used.2)) (set_host h (λ host, host <| h_coresUsed := used.2 |>));;
    mret [].

Definition delete_terminal (t : nat) : MD unit := modify (λ db, db <| terminals ::= delete t |>).

Definition collect_hosts : MD (list (list nat)) :=
  transaction (hs ← gets (λ db, lookupAll (λ _, true) (hosts db)); mapM hs collect_host).
Definition collectDeadHosts : MD unit :=
  ts ← collect_hosts;
  forM (concat ts) (λ t, transaction (delete_terminal t)).

(** The reasons to remove an instance: whether there are any. *)
Definition removable (db : DB) (i : ServiceInstance) : bool :=
  isNotActive db i
  || bool_decide (i_host i ∉ dom (hosts db))
  || (bool_decide (i_connection i ≠ None) && negb (connection_exists db (i_connection i)))
  || (match owner i with Some o => bool_decide (o ∉ dom (instances db)) | None => false end).

(** A failure of an instance that the manager owns is counted. *)
Definition count_failure (inst : ServiceInstance) : MD unit :=
  match owner inst, i_state inst with
  | None, FailedToStart =>
      set_service (i_service inst) (λ s, s <| timesBootedUnsuccessfully ::= Z.succ |>
                                           <| lastFailureReason := Some (failureReason inst) |>)
  | None, Crashed =>
      set_service (i_service inst) (λ s, s <| timesCrashed ::= Z.succ |> <| lastFailureReason := Some (failureReason inst) |>)
  | _, _ => mret tt
  end.

(** One turn of the loop of [collectDeadConnections]; the message names the service. *)
Definition collect_instance (i : nat) : MD unit :=
  inst ← the_instance i;
  db ← get_state;
  whenM (removable db inst)
    (count_failure inst;;
     _ ← the_service (i_service inst);
     delete_instance i).

Definition collectDeadConnections : MD unit :=
  transaction (all ← gets (λ db, lookupAll (λ _, true) (instances db)); forM all collect_instance).

Section manager.
Context (serviceHostObject : nat).
Context (isMaster : bool).
Context (wait : list nat → MD bool).
Context (startServiceWorker : nat → nat → MD unit).

Definition trigger_all (now : Z) (ids : list nat) : MD unit :=
  transaction (forM ids (λ i,
    exists_ ← gets (λ db, bool_decide (i ∈ dom (instances db)));
    whenM exists_ (set_instance i (triggerShutdown now)))).
Definition stopServices (now : Z) (ids : list nat) : MD unit :=
  if bool_decide (ids = []) then mret tt
  else
    trigger_all now ids;;
    _ ← wait ids;
    mret tt.

Definition delete_orphans (orphans : list nat) : MD unit :=
  transaction (forM orphans (λ i, modify (λ db, db <| instances ::= delete i |>))).
Definition collectOrphanInstances (now : Z) : MD unit :=
  orphans ← gets (λ db,
    lookupAll (λ i, bool_decide (i_host i = serviceHostObject) && bool_decide (i_service i ∉ dom (services db))) (instances db));
  whenM (bool_decide (orphans ≠ []))
    (stopServices now orphans;;
     delete_orphans orphans).

(** The instances on this host whose codebase is not that of their service. *)
Definition outdated (db : DB) (i : ServiceInstance) : bool :=
  bool_decide (i_host i = serviceHostObject)
  && match services db !! i_service i with
     | Some s => bool_decide (_codebase s ≠ i_codebase i)
     | None => false
     end
  && bool_decide (i_connection i ≠ None) && negb (shouldShutdown i).

Definition redeployServicesIfNecessary (now : Z) : MD unit :=
  needRedeploy ← gets (λ db, lookupAll (outdated db) (instances db));
  stopServices now needRedeploy.

Definition collectOrphanTerminals : MD unit :=
  orphans ← gets (λ db,
    lookupAll (λ t, bool_decide (t_host t = serviceHostObject) && bool_decide (t_connection t ≠ None)
                    && negb (connection_exists db (t_connection t))) (terminals db));
  transaction (forM orphans delete_terminal).

Definition boot_or_delete (i : nat) : MD (option nat) :=
  inst ← the_instance i;
  if bool_decide (i_state inst = Booting) then
    if shouldShutdown inst then delete_instance i;; mret None else mret (Some i)
  else mret None.

Definition instanceRecordsToBoot : MD (list nat) :=
  transaction (ids ← gets (instances_on serviceHostObject);
               r ← mapM ids boot_or_delete;
               mret (omap id r)).

(** Starting one worker: [Some] of the failure if it raises *)
Definition start_one (i : nat) : MD (option nat) :=
  tryM
    (inst ← the_instance i;
     exists_ ← gets (λ db, bool_decide (i_service inst ∈ dom (services db)));
     whenM exists_ (startServiceWorker (i_service inst) i);;
     mret None)
    (λ _, mret (Some i)).

Definition doWork (now : Z) : MD unit :=
  collectOrphanInstances now;;
  redeployServicesIfNecessary now;;
  collectOrphanTerminals;;
  whenM isMaster
    (collectDeadHosts;; collectDeadConnections;; createInstanceRecords now);;
  ids ← instanceRecordsToBoot;
  bad ← mapM ids start_one;
  let bad_instances := omap id bad in
  whenM (bool_decide (bad_instances ≠ []))
    (transaction (forM bad_instances (λ i, set_instance i (markFailedToStart now "exception")))).
End manager.

(** [ServiceManager.start]: the host object of a manager *)
Definition start_manager (connection : nat) (group name : string) (gbRam : double) (cores : Z) (most : option Z) : MD nat :=
  h ← new_identity;
  modify (λ db, db <| hosts ::= <[h := {| h_connection := connection; placementGroup := group; hostname := name;
    maxGbRam := gbRam; maxCores := cores; h_gbRamUsed := dzero; h_coresUsed := dzero; maxServiceInstances := most |}]> |>);;
  mret h.

(** ** A worker *)

(** What [_instantiateServiceObject] and [serviceObject.initialize] did. *)
Inductive initialization := Initialized | NotInstantiated | NotInitialized.
#[export] Instance initialization_eq_dec : EqDecision initialization.
Proof. solve_decision. Defined.

(** The first transaction of [ServiceWorker.initialize]: whether the service object was made.
    Without a service it opens a transaction inside the transaction, which raises. *)
Definition worker_initialize (now : Z) (i connection : nat) (instantiated : bool) : MD bool :=
  transaction
    (inst ← the_instance i;
     o ← gets (λ db, services db !! i_service inst);
     match o with
     | None => raise (UserException "You can't open a view or transaction while another one is open.")
     | Some s =>
         set_instance i (λ x, x <| i_connection := Some connection |> <| i_codebase := _codebase s |>
                                <| start_timestamp := Some now |> <| i_state := Initializing |>);;
         if instantiated then mret true
         else set_instance i (markFailedToStart now "exception");; mret false
     end).

Definition worker_failed (now : Z) (i : nat) : MD unit := transaction (set_instance i (markFailedToStart now "exception")).
Definition worker_running (i : nat) : MD unit := transaction (set_instance i (λ x, x <| i_state := Running |>)).
Definition worker_crashed (now : Z) (i : nat) : MD unit :=
  transaction (set_instance i (λ x, x <| i_state := Crashed |> <| end_timestamp := Some now |> <| failureReason := "exception" |>)).
Definition worker_stopped (now : Z) (i : nat) : MD unit :=
  transaction (set_instance i (λ x, x <| i_state := Stopped |> <| end_timestamp := Some now |>)).

(** [checkForShutdown]: whether it sets [shouldStop] *)
Definition checkForShutdown (i : nat) (db : DB) : bool :=
  match instances db !! i with None => true | Some inst => shouldShutdown inst end.

(** [synchronouslyRunService] of a service whose initialization went as given and whose [doWork]
    returned or raised; the result is whether [exitedGracefully] is set. *)
Definition synchronouslyRunService (now : Z) (i connection : nat) (init : initialization) (returned : bool) : MD bool :=
  tryM
    (made ← worker_initialize now i connection (negb (bool_decide (init = NotInstantiated)));
     if negb made then mret false
     else if bool_decide (init = NotInitialized) then worker_failed now i;; mret false
     else
       worker_running i;;
       if returned then worker_stopped now i;; mret true
       else worker_crashed now i;; mret false)
    (λ _, mret false).

(** ** Subprocesses

    [serviceProcesses]: the process of each instance, and whether it is running. *)

Abbreviation Processes := (gmap nat bool).

(** [SubprocessServiceManager.startServiceWorker]; [checked] is the return code, if the process
    ended within [subprocessCheckTimeout] *)
Definition start_process (i : nat) (checked : option Z) : M Processes unit :=
  known ← gets (λ procs : Processes, procs !! i);
  match known with
  | Some _ => mret tt
  | None =>
      match checked with
      | Some code =>
          if bool_decide (code ≠ 0) then raise (UserException "Failed to start service_entrypoint.py")
          else modify (λ procs : Processes, <[i := false]> procs)
      | None => modify (λ procs : Processes, <[i := true]> procs)
      end
  end.

(** The second loop of [cleanup] for one process: whether it is killed if it runs, and dropped. *)
Definition is_overdue (shutdownTimeout now : Z) (db : DB) (i : nat) : option bool :=
  match instances db !! i with
  | None => Some true
  | Some inst =>
      if shouldShutdown inst then
        match shutdownTimestamp inst with
        | Some t => Some (bool_decide (shutdownTimeout < now - t))
        | None => None                                    (* a number minus None *)
        end
      else Some false
  end.

Definition check_process (shutdownTimeout now : Z) (db : DB) (i : nat) : M Processes (list nat) :=
  overdue ← lift_option TypeError (is_overdue shutdownTimeout now db i) : M Processes bool;
  if (overdue : bool) then
    alive ← gets (λ procs : Processes, procs !! i);
    modify (λ procs : Processes, delete i procs);;
    mret (if default false alive then [i] else [])
  else mret [].

(** What [cleanup] does with processes: the instances whose processes it kills.  The calls on files
    that follow ([moveCoverageFiles], [cleanupOldLogfiles], [cleanupStorageDir], [cleanupSourceDir])
    do not change the table, and may raise; the second is in [Logfiles]. *)
Definition cleanup_processes (shutdownTimeout now : Z) (db : DB) : M Processes (list nat) :=
  modify (λ procs : Processes, filter (λ kv : nat * bool, kv.2 = true) procs);;
  toCheck ← gets (λ procs : Processes, (map_to_list procs).*1);
  killed ← mapM toCheck (check_process shutdownTimeout now db);
  mret (concat killed).
