(* ===== verification/ServiceTheorems.v ===== *)
(** * What the service manager guarantees

    One pass of the master brings every service to the number of instances that it wants, or
    records how many could not be placed; whatever managers, workers and clients do, the hosts are
    never given more than they have; what has died is collected and its failures are counted; and
    a locked service keeps its code. *)

From Stdlib Require Import Lia.
From stdpp Require Import options.
From S2P Require Import Prelude Doubles Services ServiceManager.

Local Open Scope Z_scope.

(** ** Lookups *)

Lemma elem_of_lookupAll {A} (P : A → bool) (m : gmap nat A) i :
  i ∈ lookupAll P m ↔ (∃ x, m !! i = Some x ∧ P x = true).
Proof.
  unfold lookupAll. rewrite list_elem_of_fmap. split.
  - intros ([k x] & -> & [HP Hx]%list_elem_of_filter). exists x. by rewrite elem_of_map_to_list in Hx.
  - intros (x & Hx & HP). exists (i, x). split; [done|]. apply list_elem_of_filter. by rewrite elem_of_map_to_list.
Qed.

Lemma NoDup_lookupAll {A} (P : A → bool) (m : gmap nat A) : NoDup (lookupAll P m).
Proof.
  unfold lookupAll. pose proof (NoDup_fst_map_to_list m) as Hnd. revert Hnd.
  generalize (map_to_list m) as l. clear. induction l as [|[k x] l IH]; intros Hnd; [constructor|].
  cbn in Hnd. apply NoDup_cons in Hnd as [Hk Hnd]. rewrite filter_cons. case_decide; [|by apply IH].
  cbn. apply NoDup_cons. split; [|by apply IH]. intros Hin. apply Hk.
  apply list_elem_of_fmap in Hin as (y & -> & [_ Hy]%list_elem_of_filter). by apply list_elem_of_fmap_2.
Qed.

Lemma lookupAll_perm {A} (P Q : A → bool) (m m' : gmap nat A) :
  (∀ i, (∃ x, m !! i = Some x ∧ P x = true) ↔ ∃ x, m' !! i = Some x ∧ Q x = true) → lookupAll P m ≡ₚ lookupAll Q m'.
Proof.
  intros H. apply NoDup_Permutation; [apply NoDup_lookupAll..|]. intros i. by rewrite !elem_of_lookupAll.
Qed.

(** ** Running single accesses *)

Lemma run_the_service db sv s : services db !! sv = Some s → the_service sv db = (Ok s, db).
Proof. intros H. unfold the_service. rewrite run_bind, run_gets. cbn beta iota. by rewrite H. Qed.
Lemma run_the_instance db i x : instances db !! i = Some x → the_instance i db = (Ok x, db).
Proof. intros H. unfold the_instance. rewrite run_bind, run_gets. cbn beta iota. by rewrite H. Qed.
Lemma run_the_host db h x : hosts db !! h = Some x → the_host h db = (Ok x, db).
Proof. intros H. unfold the_host. rewrite run_bind, run_gets. cbn beta iota. by rewrite H. Qed.
Lemma run_set_service db sv s f :
  services db !! sv = Some s → set_service sv f db = (Ok tt, db <| services ::= <[sv := f s]> |>).
Proof. intros H. unfold set_service. rewrite run_bind, (run_the_service _ _ _ H). done. Qed.
Lemma run_set_instance db i x f :
  instances db !! i = Some x → set_instance i f db = (Ok tt, db <| instances ::= <[i := f x]> |>).
Proof. intros H. unfold set_instance. rewrite run_bind, (run_the_instance _ _ _ H). done. Qed.
Lemma run_set_host db h x f :
  hosts db !! h = Some x → set_host h f db = (Ok tt, db <| hosts ::= <[h := f x]> |>).
Proof. intros H. unfold set_host. rewrite run_bind, (run_the_host _ _ _ H). done. Qed.

(** ** Booting *)

(** One instance of the service more, on this host. *)
Definition charged (s : Service) (host : ServiceHost) : ServiceHost :=
  host <| h_gbRamUsed ::= λ x, dadd x (gbRamUsed s) |> <| h_coresUsed ::= λ x, dadd x (coresUsed s) |>.
Definition place (sv : nat) (s : Service) (now : Z) (h : nat) (host : ServiceHost) (db : DB) : DB :=
  db <| hosts ::= <[h := charged s host]> |> <| next_identity ::= S |>
     <| instances ::= <[next_identity db := booting_instance sv h now None]> |>.

(** Booting instances one after the other, each on a host that fits at that time. *)
Inductive boots (sv : nat) (s : Service) (now : Z) : DB → list nat → DB → Prop :=
  | boots_nil db : boots sv s now db [] db
  | boots_cons db h host new db' :
      hosts db !! h = Some host → host_fits db s h = true →
      boots sv s now (place sv s now h host db) new db' →
      boots sv s now db (next_identity db :: new) db'.

Lemma boots_services sv s now db new db' :
  boots sv s now db new db' → services db' = services db ∧ connections db' = connections db.
Proof. induction 1 as [|db h host new db' Hh Hf Hb [IH1 IH2]]; [done|]. by rewrite IH1, IH2. Qed.

Lemma pickHost_Some s db h : _pickHost s db = Some h → ∃ host, hosts db !! h = Some host ∧ host_fits db s h = true.
Proof.
  unfold _pickHost. intros Hh. apply head_Some_elem_of in Hh. apply list_elem_of_filter in Hh as [Hf Hin].
  apply elem_of_lookupAll in Hin as (host & Hh & _). by exists host.
Qed.

Lemma pickHost_None s db : _pickHost s db = None → ∀ h, host_fits db s h = false.
Proof.
  unfold _pickHost. intros Hn%head_None h. destruct (host_fits db s h) eqn:E; [|done]. exfalso.
  assert (h ∈ filter (λ h, host_fits db s h = true) (lookupAll (λ _, true) (hosts db))) as Hin.
  { apply list_elem_of_filter. split; [done|]. apply elem_of_lookupAll.
    unfold host_fits in E. destruct (hosts db !! h) as [host|]; [by exists host|done]. }
  rewrite Hn in Hin. set_solver.
Qed.

(** What the first loop leaves: either the target was met, or no host fits and it says so. *)
Definition short_of (sv : nat) (s : Service) (missing : Z) (db : DB) : DB :=
  db <| services ::= <[sv := s <| unbootable_count := missing |>]> |>.

Lemma boot_loop_spec sv s now : ∀ fuel actual db,
  services db !! sv = Some s → effectiveTargetCount s - Z.of_nat (length actual) <= Z.of_nat fuel →
  ∃ new db1, boots sv s now db new db1 ∧
    ((effectiveTargetCount s <= Z.of_nat (length actual + length new) ∧
      (new = [] ∨ Z.of_nat (length actual + length new) = effectiveTargetCount s) ∧
      boot_loop fuel sv now actual db = (Ok (Some (actual ++ new)), db1)) ∨
     (Z.of_nat (length actual + length new) < effectiveTargetCount s ∧ (∀ h, host_fits db1 s h = false) ∧
      ∃ db', boot_loop fuel sv now actual db = (Ok None, db') ∧
        db' = short_of sv s (effectiveTargetCount s - Z.of_nat (length actual + length new)) db1)).
Proof.
  induction fuel as [|fuel IH]; intros actual db Hs Hfuel; cbn [boot_loop];
    rewrite run_bind, (run_the_service _ _ _ Hs); cbn beta iota.
  - rewrite bool_decide_false by lia. exists [], db. split; [constructor|]. left. cbn. rewrite app_nil_r, Nat.add_0_r.
    split; [lia|]. split; [by left|done].
  - case_bool_decide as Hlt.
    2:{ exists [], db. split; [constructor|]. left. cbn. rewrite app_nil_r, Nat.add_0_r. split; [lia|]. split; [by left|done]. }
    rewrite run_bind, run_gets. cbn beta iota. destruct (_pickHost s db) as [h|] eqn:Hpick.
    + apply pickHost_Some in Hpick as (host & Hh & Hfits).
      rewrite run_bind, (run_set_host _ _ _ _ Hh). cbn beta iota.
      rewrite run_bind. unfold create_instance at 1, new_identity. rewrite !run_bind, run_gets. cbn beta iota.
      destruct (IH (actual ++ [next_identity db]) (place sv s now h host db)) as (new & db1 & Hb & Hcase).
      * done.
      * rewrite length_app. cbn. lia.
      * exists (next_identity db :: new), db1. split; [by econstructor|].
        rewrite length_app, <-Nat.add_assoc, <-app_assoc in Hcase. cbn [length app Nat.add] in Hcase |- *.
        destruct Hcase as [(Hle & Hor & Hrun) | (Hlt' & Hno & Hrun)]; [left|right; by split_and!].
        split; [done|]. split; [|exact Hrun]. right. destruct Hor as [-> | ?]; [|done]. cbn in *. lia.
    + exists [], db. split; [constructor|]. right. cbn. rewrite Nat.add_0_r. split; [done|].
      split; [by apply pickHost_None|]. unfold whenM. case_bool_decide as Hu.
      * rewrite run_bind, (run_set_service _ _ _ _ Hs). by eexists.
      * eexists. split; [reflexivity|]. unfold short_of. replace (s <| unbootable_count := _ |>) with s.
        -- destruct db; cbn in *. unfold set_field. cbn. by rewrite insert_id.
        -- destruct s; cbn in *. f_equal. lia.
Qed.

(** ** The records of a service *)

Definition fresh_instances (db : DB) : Prop := ∀ i, i ∈ dom (instances db) → (i < next_identity db)%nat.

(** An instance that counts for the service. *)
Definition counts (db : DB) (sv : nat) (x : ServiceInstance) : Prop :=
  i_service x = sv ∧ isActive db x = true ∧ owner x = None.

Lemma elem_of_actual_records db sv i :
  i ∈ actual_records db sv ↔ (∃ x, instances db !! i = Some x ∧ counts db sv x).
Proof.
  unfold actual_records, counts. rewrite elem_of_lookupAll. f_equiv. intros x.
  rewrite !andb_true_iff, !bool_decide_eq_true. tauto.
Qed.

Lemma booting_counts db sv h now : counts db sv (booting_instance sv h now None).
Proof. done. Qed.

Record booted (sv : nat) (now : Z) (db : DB) (new : list nat) (db' : DB) : Prop := {
  b_old : ∀ i x, instances db !! i = Some x → instances db' !! i = Some x;
  b_new : ∀ i, i ∈ new → (i ∉ dom (instances db)) ∧ (∃ h, instances db' !! i = Some (booting_instance sv h now None));
  b_dom : ∀ i x, instances db' !! i = Some x → instances db !! i = Some x ∨ i ∈ new;
  b_nodup : NoDup new;
  b_next : (next_identity db ≤ next_identity db')%nat;
  b_fresh : fresh_instances db';
}.

Lemma boots_booted sv s now db new db' : boots sv s now db new db' → fresh_instances db → booted sv now db new db'.
Proof.
  induction 1 as [db|db h host new db' Hh Hfit Hb IH]; intros Hfr.
  - split; try done; [set_solver|by left|constructor].
  - set (i0 := next_identity db) in *. set (db1 := place sv s now h host db) in *.
    assert (i0 ∉ dom (instances db)) as Hi0 by (intros Hin%Hfr; unfold i0 in Hin; lia).
    assert (fresh_instances db1) as Hfr1.
    { intros i. cbn. rewrite dom_insert. intros [->%elem_of_singleton | Hi%Hfr]%elem_of_union; unfold i0 in *; lia. }
    specialize (IH Hfr1). destruct IH as [Ho Hn Hd Hnd Hnx Hf]. split.
    + intros i x Hi. apply Ho. cbn. rewrite lookup_insert_ne; [done|]. intros <-. apply Hi0. by eapply elem_of_dom_2.
    + intros i [-> | Hi]%elem_of_cons.
      * split; [done|]. exists h. apply Ho. cbn. apply lookup_insert_eq.
      * destruct (Hn i Hi) as [Hni Hex]. split; [|done]. intros Hin. apply Hni. cbn. rewrite dom_insert. set_solver.
    + intros i x Hi. destruct (Hd i x Hi) as [Hi1 | Hi1]; [|right; set_solver].
      cbn in Hi1. apply lookup_insert_Some in Hi1 as [[<- _] | [_ Hi1]]; [right; set_solver|by left].
    + apply NoDup_cons. split; [|done]. intros Hin. destruct (Hn _ Hin) as [Hni _]. apply Hni. cbn.
      rewrite dom_insert. set_solver.
    + cbn in Hnx. lia.
    + done.
Qed.

Lemma booted_records sv now db new db' :
  booted sv now db new db' → connections db' = connections db →
  actual_records db' sv ≡ₚ actual_records db sv ++ new ∧
  ∀ sv', sv' ≠ sv → actual_records db' sv' ≡ₚ actual_records db sv'.
Proof.
  intros [Ho Hn Hd Hnd _ _] Hc.
  assert (∀ sv x, counts db' sv x ↔ counts db sv x) as Hcounts.
  { intros sv' x. unfold counts, isActive, connection_exists. by rewrite Hc. }
  split.
  - apply NoDup_Permutation; [apply NoDup_lookupAll| |].
    + apply NoDup_app. split; [apply NoDup_lookupAll|]. split; [|done].
      intros i (x & Hx & _)%elem_of_actual_records Hi. apply (Hn i) in Hi as [Hi _]. apply Hi. by eapply elem_of_dom_2.
    + intros i. rewrite elem_of_app, !elem_of_actual_records. setoid_rewrite Hcounts. split.
      * intros (x & Hx & Hcx). destruct (Hd _ _ Hx); [left; by exists x|by right].
      * intros [(x & Hx & Hcx) | Hi]; [exists x; auto|]. destruct (Hn _ Hi) as [_ [h Hx]]. exists (booting_instance sv h now None). done.
  - intros sv' Hne. apply NoDup_Permutation; [apply NoDup_lookupAll..|].
    intros i. rewrite !elem_of_actual_records. setoid_rewrite Hcounts. split.
    + intros (x & Hx & Hcx). destruct (Hd _ _ Hx) as [Hx' | Hi]; [by exists x|].
      destruct (Hn _ Hi) as [_ [h Hx']]. rewrite Hx' in Hx. injection Hx as <-. destruct Hcx as [Hs _]. by destruct Hne.
    + intros (x & Hx & Hcx). exists x. auto.
Qed.

(** ** Shutting down *)

(** Exactly these instances are told to stop. *)
Definition told (now : Z) (l : list nat) (db : DB) (m : gmap nat ServiceInstance) : Prop :=
  ∀ i, m !! i = if decide (i ∈ l) then triggerShutdown now <$> instances db !! i else instances db !! i.

Lemma triggerShutdown_service now x : i_service (triggerShutdown now x) = i_service x.
Proof. unfold triggerShutdown. by destruct (shouldShutdown x). Qed.
Lemma triggerShutdown_inactive db now x : isActive db (triggerShutdown now x) = false.
Proof. unfold isActive, triggerShutdown. destruct (shouldShutdown x) eqn:E; cbn; rewrite ?E; by rewrite andb_false_r. Qed.

Lemma shutdown_loop_spec sv s now : ∀ l db,
  services db !! sv = Some s → NoDup l → (∀ i, i ∈ l → ∃ x, instances db !! i = Some x ∧ i_service x = sv) →
  ∃ m, shutdown_loop sv now l db = (Ok tt, db <| instances := m |>) ∧
       told now (take (length l - Z.to_nat (effectiveTargetCount s)) l) db m.
Proof.
  induction l as [|i l IH]; intros db Hs Hnd Hl; cbn [shutdown_loop];
    rewrite run_bind, (run_the_service _ _ _ Hs); cbn beta iota.
  - assert (0 <= effectiveTargetCount s) by (unfold effectiveTargetCount; repeat case_match; lia).
    rewrite bool_decide_false by (cbn; lia). exists (instances db). split; [by destruct db|].
    intros i. rewrite take_nil. by rewrite decide_False by set_solver.
  - apply NoDup_cons in Hnd as [Hi Hnd]. case_bool_decide as Hlt.
    + destruct (Hl i) as (x & Hx & Hsv); [set_solver|].
      rewrite run_bind, (run_set_instance _ _ _ _ Hx). cbn beta iota.
      rewrite run_bind, (run_the_instance _ i (triggerShutdown now x)) by (cbn; apply lookup_insert_eq). cbn beta iota.
      rewrite run_bind, (run_the_service _ _ s) by (by rewrite triggerShutdown_service, Hsv). cbn beta iota.
      destruct (IH (db <| instances ::= <[i := triggerShutdown now x]> |>)) as (m & Hrun & Htold); [done|done| |].
      * intros j Hj. destruct (Hl j) as (y & Hy & Hysv); [set_solver|]. exists y. split; [|done]. cbn.
        rewrite lookup_insert_ne; [done|]. intros ->. done.
      * exists m. split; [rewrite Hrun; by destruct db|]. intros j. rewrite Htold. cbn.
        replace (S (length l) - Z.to_nat (effectiveTargetCount s))%nat
          with (S (length l - Z.to_nat (effectiveTargetCount s)))%nat by (cbn in Hlt; lia). cbn.
        destruct (decide (j = i)) as [-> | Hne].
        -- rewrite lookup_insert_eq, Hx. rewrite decide_False by (intros Hin; apply Hi; by apply (subseteq_take _ _ _ Hin)).
           rewrite decide_True by set_solver. done.
        -- rewrite lookup_insert_ne by done. repeat case_decide; set_solver.
    + exists (instances db). split; [by destruct db|]. intros j.
      replace (length (i :: l) - Z.to_nat (effectiveTargetCount s))%nat with 0%nat by lia.
      rewrite take_0. by rewrite decide_False by set_solver.
Qed.

Lemma told_records sv now l db m sv' :
  told now l db m →
  (∀ i, i ∈ l → ∃ x, instances db !! i = Some x ∧ i_service x = sv) →
  actual_records (db <| instances := m |>) sv' ≡ₚ
    if decide (sv' = sv) then filter (λ i, i ∉ l) (actual_records db sv) else actual_records db sv'.
Proof.
  intros Htold Hl.
  assert (∀ i, (∃ x, m !! i = Some x ∧ counts db sv' x) ↔ (i ∈ actual_records db sv' ∧ i ∉ l)) as Hiff.
  { intros i. rewrite elem_of_actual_records, Htold. case_decide as Hi; [|naive_solver].
    destruct (Hl i Hi) as (x & Hx & Hsv). rewrite Hx. split; [|naive_solver].
    intros (y & [= <-] & _ & Hact & _). by rewrite triggerShutdown_inactive in Hact. }
  destruct (decide (sv' = sv)) as [-> | Hne]; apply NoDup_Permutation; try apply NoDup_lookupAll.
  - apply NoDup_filter, NoDup_lookupAll.
  - intros i. rewrite list_elem_of_filter, elem_of_actual_records. rewrite (and_comm (i ∉ l)). apply Hiff.
  - intros i. rewrite (elem_of_actual_records (db <| instances := m |>)). etrans; [apply Hiff|].
    split; [by intros []|]. intros Hi. split; [done|]. intros Hin. destruct (Hl i Hin) as (x & Hx & Hsv).
    apply elem_of_actual_records in Hi as (y & Hy & Hysv & _). rewrite Hx in Hy. injection Hy as <-. congruence.
Qed.

(** Removing some elements of a list without duplicates. *)
Lemma length_filter_notin (l k : list nat) :
  NoDup l → NoDup k → k ⊆ l → length (filter (λ i, i ∉ k) l) = (length l - length k)%nat.
Proof.
  intros Hl Hk Hsub.
  assert (l ≡ₚ k ++ filter (λ i, i ∉ k) l) as Hp.
  { apply NoDup_Permutation; [done| |].
    - apply NoDup_app. split; [done|]. split; [|by apply NoDup_filter]. intros i Hi [Hn _]%list_elem_of_filter. done.
    - intros i. rewrite elem_of_app, list_elem_of_filter. destruct (decide (i ∈ k)); naive_solver. }
  apply Permutation_length in Hp. rewrite length_app in Hp. lia.
Qed.

(** ** Hosts fill up *)

Lemma length_lookupAll_mono {A} (P Q : A → bool) (m m' : gmap nat A) :
  (∀ i x, m !! i = Some x → P x = true → ∃ y, m' !! i = Some y ∧ Q y = true) →
  (length (lookupAll P m) ≤ length (lookupAll Q m'))%nat.
Proof.
  intros H. apply submseteq_length, NoDup_submseteq; [apply NoDup_lookupAll|].
  intros i. rewrite !elem_of_lookupAll. intros (x & Hx & HP). by apply (H i x).
Qed.

(** Whatever did not fit still does not. *)
Definition fuller (db db' : DB) : Prop := ∀ s h, host_fits db s h = true ∨ host_fits db' s h = false.

Lemma fuller_refl db : fuller db db.
Proof. intros s h. destruct (host_fits db s h); auto. Qed.
Lemma fuller_trans db1 db2 db3 : fuller db1 db2 → fuller db2 db3 → fuller db1 db3.
Proof. intros H1 H2 s h. destruct (H1 s h), (H2 s h); auto. congruence. Qed.

Lemma fuller_intro db db' :
  connections db' = connections db →
  (∀ h, hosts db !! h = hosts db' !! h ∨ ∃ host host', hosts db !! h = Some host ∧ hosts db' !! h = Some host' ∧
     h_connection host' = h_connection host ∧ placementGroup host' = placementGroup host ∧
     maxServiceInstances host' = maxServiceInstances host ∧ maxGbRam host' = maxGbRam host ∧
     maxCores host' = maxCores host ∧ units (h_gbRamUsed host) <= units (h_gbRamUsed host') ∧ units (h_coresUsed host) <= units (h_coresUsed host')) →
  (∀ h, length (instances_on h db) ≤ length (instances_on h db'))%nat →
  fuller db db'.
Proof.
  intros Hc Hh Hi s h. destruct (host_fits db' s h) eqn:E; [left|by right]. revert E. unfold host_fits.
  destruct (Hh h) as [Heq | (host & host' & H1 & H2 & Hcon & Hgr & Hmost & Hgb & Hco & Hle1 & Hle2)].
  - rewrite Heq. destruct (hosts db' !! h) as [host|]; [|done]. rewrite Hc. unfold canAssign.
    rewrite !andb_true_iff, !negb_true_iff, !bool_decide_eq_true, !bool_decide_eq_false. intros (? & ((? & Hm) & ?) & ?).
    split_and!; try done. destruct (maxServiceInstances host) as [most|]; [|done]. specialize (Hi h).
    rewrite negb_true_iff, bool_decide_eq_false in *. lia.
  - rewrite H1, H2, Hc. unfold canAssign. rewrite Hcon, Hgr, Hmost, Hgb, Hco.
    rewrite !andb_true_iff, !negb_true_iff, !bool_decide_eq_true, !bool_decide_eq_false. intros (? & ((? & Hm) & ?) & ?).
    pose proof (dadd_mono _ _ (gbRamUsed s) Hle1). pose proof (dadd_mono _ _ (coresUsed s) Hle2).
    split_and!; try done; try lia. destruct (maxServiceInstances host) as [most|]; [|done]. specialize (Hi h).
    rewrite negb_true_iff, bool_decide_eq_false in *. lia.
Qed.

Definition nonneg_service (s : Service) : Prop := 0 <= units (gbRamUsed s) ∧ 0 <= units (coresUsed s).

Lemma boots_fuller sv s now db new db' :
  boots sv s now db new db' → nonneg_service s → fresh_instances db → fuller db db'.
Proof.
  induction 1 as [db|db h host new db' Hh Hfit Hb IH]; intros Hs Hfr; [apply fuller_refl|].
  assert (∀ i, i ∈ dom (instances db) → i ≠ next_identity db) as Hne by (intros i Hi%Hfr; lia).
  eapply fuller_trans; [|apply IH; [done|]].
  - apply fuller_intro; [done| |].
    + intros h'. destruct (decide (h' = h)) as [-> | Hneq]; [right|left; cbn; by rewrite lookup_insert_ne].
      exists host, (charged s host). destruct Hs. cbn. rewrite lookup_insert_eq. split_and!; try done; by apply dadd_grows.
    + intros h'. apply length_lookupAll_mono. intros i x Hx HP. exists x. split; [|done]. cbn.
      rewrite lookup_insert_ne; [done|]. apply not_eq_sym, Hne. by eapply elem_of_dom_2.
  - intros i. cbn. rewrite dom_insert. intros [->%elem_of_singleton | Hi%Hfr]%elem_of_union; lia.
Qed.

Lemma told_fuller now l db m : told now l db m → fuller db (db <| instances := m |>).
Proof.
  intros Htold. apply fuller_intro; [done|by left|]. intros h. apply length_lookupAll_mono. intros i x Hx HP.
  cbn. rewrite Htold. destruct (decide (i ∈ l)); [|by exists x]. rewrite Hx. eexists. split; [reflexivity|].
  unfold triggerShutdown. by destruct (shouldShutdown x).
Qed.

(** ** One service *)

(** The service has what it wants; or no host fits, and what is missing is recorded. *)
Definition served (db : DB) (sv : nat) (s : Service) : Prop :=
  ∃ u, services db !! sv = Some (s <| unbootable_count := u |>) ∧
    (Z.of_nat (length (actual_records db sv)) = effectiveTargetCount s ∨
     (u = effectiveTargetCount s - Z.of_nat (length (actual_records db sv)) ∧ 0 < u ∧ ∀ h, host_fits db s h = false)).

(** Only the instances and the shortage of one service changed. *)
Record only_service (sv : nat) (db db' : DB) : Prop := {
  o_connections : connections db' = connections db;
  o_fresh : fresh_instances db';
  o_services : ∀ sv', sv' ≠ sv → services db' !! sv' = services db !! sv';
  o_records : ∀ sv', sv' ≠ sv → actual_records db' sv' ≡ₚ actual_records db sv';
  o_fuller : fuller db db';
}.

Lemma actual_records_same db db' sv :
  instances db' = instances db → connections db' = connections db → actual_records db' sv = actual_records db sv.
Proof. unfold actual_records, isActive, connection_exists. by intros -> ->. Qed.

Lemma updateService_spec sv s now actual db :
  services db !! sv = Some s → actual ≡ₚ actual_records db sv → fresh_instances db → nonneg_service s →
  ∃ db', _updateService sv now actual db = (Ok tt, db') ∧ served db' sv s ∧ only_service sv db db'.
Proof.
  intros Hs Hactual Hfr Hnn. unfold _updateService. rewrite run_bind, (run_the_service _ _ _ Hs). cbn beta iota.
  destruct (boot_loop_spec sv s now (Z.to_nat (effectiveTargetCount s)) actual db Hs) as (new & db1 & Hb & Hcase); [lia|].
  destruct (boots_services _ _ _ _ _ _ Hb) as [Hs1 Hc1].
  pose proof (boots_booted _ _ _ _ _ _ Hb Hfr) as Hbt. pose proof (boots_fuller _ _ _ _ _ _ Hb Hnn Hfr) as Hfull.
  destruct (booted_records _ _ _ _ _ Hbt Hc1) as [Hrec Hother].
  assert (services db1 !! sv = Some s) as Hs' by by rewrite Hs1.
  destruct Hcase as [(Hle & Hor & Hrun) | (Hlt & Hno & db' & Hrun & ->)]; rewrite run_bind, Hrun; cbn beta iota.
  2:{ eexists. split; [reflexivity|]. split.
    - eexists. split; [apply lookup_insert_eq|]. right. rewrite (actual_records_same db1) by done.
      rewrite Hrec, length_app, <-Hactual. split; [done|]. split; [lia|exact Hno].
    - split; [done|by apply Hbt| |done|done]. intros sv' Hne. cbn. by rewrite lookup_insert_ne, Hs1. }
  rewrite run_bind, (run_the_service _ _ _ Hs'). cbn beta iota.
  set (s2 := s <| unbootable_count := 0 |>).
  assert (∃ db2, whenM (bool_decide (unbootable_count s ≠ 0)) (set_service sv (λ s, s <| unbootable_count := 0 |>)) db1 = (Ok tt, db2)
    ∧ db2 = db1 <| services ::= <[sv := s2]> |>) as (db2 & Hrun2 & ->).
  { unfold whenM. case_bool_decide as Hu.
    - rewrite (run_set_service _ _ _ _ Hs'). by eexists.
    - eexists. split; [reflexivity|]. assert (s2 = s) as -> by (unfold s2; destruct s; cbn in *; f_equal; lia).
      destruct db1; cbn in *. unfold set_field. cbn. by rewrite insert_id. }
  rewrite run_bind, Hrun2. cbn beta iota. set (db2 := db1 <| services ::= <[sv := s2]> |>).
  assert (NoDup (actual ++ new)) as Hnd by (rewrite Hactual, <-Hrec; apply NoDup_lookupAll).
  assert (∀ i, i ∈ reverse (actual ++ new) → ∃ x, instances db2 !! i = Some x ∧ i_service x = sv) as Hin.
  { intros i. rewrite elem_of_reverse, Hactual, <-Hrec.
    intros (x & Hx & Hcx & _)%elem_of_actual_records. by exists x. }
  destruct (shutdown_loop_spec sv s2 now (reverse (actual ++ new)) db2) as (m & Hrun3 & Htold).
  { cbn. apply lookup_insert_eq. }
  { by rewrite reverse_Permutation. }
  { done. }
  rewrite Hrun3. eexists. split; [reflexivity|].
  set (gone := take _ _) in Htold.
  assert (gone ⊆ reverse (actual ++ new)) as Hsub by apply subseteq_take.
  pose proof (told_records sv now gone db2 m sv Htold (λ i Hi, Hin i (Hsub i Hi))) as Hrec3. rewrite decide_True in Hrec3 by done.
  assert (length (actual_records (db2 <| instances := m |>) sv) = Z.to_nat (effectiveTargetCount s)) as Hlen.
  { rewrite Hrec3. rewrite length_filter_notin.
    - unfold gone. rewrite length_take, length_reverse. rewrite (actual_records_same db1) by done; rewrite Hrec, <-Hactual.
      change (effectiveTargetCount s2) with (effectiveTargetCount s). rewrite length_app in *. lia.
    - apply NoDup_lookupAll.
    - apply (NoDup_app gone (drop (length (reverse (actual ++ new)) - Z.to_nat (effectiveTargetCount s2)) (reverse (actual ++ new)))).
      unfold gone. by rewrite take_drop, reverse_Permutation.
    - intros i Hi%Hsub. rewrite (actual_records_same db1) by done; rewrite Hrec, <-Hactual.
      by rewrite elem_of_reverse in Hi. }
  assert (0 <= effectiveTargetCount s) by (unfold effectiveTargetCount; repeat case_match; lia).
  split.
  - exists 0. split; [apply lookup_insert_eq|]. left. rewrite Hlen. lia.
  - split.
    + done.
    + intros i [x Hi]%elem_of_dom. cbn in Hi. cbn. apply (b_fresh _ _ _ _ _ Hbt).
      rewrite Htold in Hi. case_decide; [|by eapply elem_of_dom_2].
      apply fmap_Some in Hi as (y & Hy & _). by eapply elem_of_dom_2.
    + intros sv' Hne. cbn. by rewrite lookup_insert_ne, Hs1.
    + intros sv' Hne. rewrite (told_records sv now gone db2 m sv' Htold (λ i Hi, Hin i (Hsub i Hi))).
      rewrite decide_False by done. rewrite (actual_records_same db1) by done; by apply Hother.
    + eapply fuller_trans; [exact Hfull|]. by apply (told_fuller now gone db2).
Qed.

(** ** One pass *)

Lemma served_other sv sv' db db' s : sv' ≠ sv → only_service sv db db' → served db sv' s → served db' sv' s.
Proof.
  intros Hne [_ _ Hs Hr Hf] (u & Hu & Hcase). exists u. rewrite Hs by done. split; [done|].
  rewrite (Hr sv' Hne). destruct Hcase as [? | (? & ? & Hno)]; [by left|right]. split_and!; try done.
  intros h. destruct (Hf s h); [|done]. specialize (Hno h). congruence.
Qed.

Lemma update_one_spec sv s now actual db :
  services db !! sv = Some s → actual ≡ₚ actual_records db sv → fresh_instances db → nonneg_service s →
  ∃ db', transaction (update_one now (sv, actual)) db = (Ok tt, db') ∧ served db' sv s ∧ only_service sv db db'.
Proof.
  intros Hs Hactual Hfr Hnn. unfold transaction, update_one.
  rewrite run_bind, (run_the_service _ _ _ Hs). cbn beta iota. unfold whenM. case_bool_decide as Hne.
  - destruct (updateService_spec sv s now actual db Hs Hactual Hfr Hnn) as (db' & Hrun & Hserved). rewrite Hrun. by exists db'.
  - exists db. split; [done|]. split.
    + exists (unbootable_count s). rewrite Hs. split; [by destruct s|]. left. rewrite <-Hactual. lia.
    + split; try done. apply fuller_refl.
Qed.

Lemma updates_spec now l : ∀ db,
  NoDup l.*1 → fresh_instances db →
  (∀ sv actual, (sv, actual) ∈ l → actual ≡ₚ actual_records db sv) →
  (∀ sv, sv ∈ l.*1 → ∃ s, services db !! sv = Some s ∧ nonneg_service s) →
  ∃ db', forM l (λ sr, transaction (update_one now sr)) db = (Ok tt, db') ∧ fresh_instances db' ∧
    (∀ sv s, sv ∈ l.*1 → services db !! sv = Some s → served db' sv s) ∧
    (∀ sv s, sv ∉ l.*1 → served db sv s → served db' sv s).
Proof.
  induction l as [|[sv actual] l IH]; intros db Hnd Hfr Hact Hsv.
  - exists db. split_and!; try done. set_solver.
  - cbn in Hnd. apply NoDup_cons in Hnd as [Hni Hnd]. destruct (Hsv sv) as (s & Hs & Hnn); [cbn; set_solver|].
    destruct (update_one_spec sv s now actual db Hs) as (db1 & Hrun & Hserved & Honly); [|done|done|].
    { apply Hact. set_solver. }
    destruct (IH db1 Hnd) as (db' & Hrun' & Hfr' & Hin & Hout).
    + by apply Honly.
    + intros sv' actual' Hl. rewrite (o_records _ _ _ Honly); [apply Hact; set_solver|].
      intros ->. apply Hni. by apply (list_elem_of_fmap_2 fst _ (sv, actual')).
    + intros sv' Hl. rewrite (o_services _ _ _ Honly); [apply Hsv; cbn; set_solver|]. intros ->. done.
    + exists db'. cbn [forM]. unfold bind. rewrite Hrun. split; [done|]. split; [done|]. split.
      * intros sv' s' [-> | Hl]%elem_of_cons Hs'; [cbn in Hs' |- *; rewrite Hs in Hs'; injection Hs' as <-; by apply Hout|].
        apply Hin; [done|]. rewrite (o_services _ _ _ Honly); [done|]. intros ->. done.
      * intros sv' s' [Hne Hl]%not_elem_of_cons Hserved'. apply Hout; [done|]. by eapply served_other.
Qed.

(** C33. When the master creates instance records and nobody else commits meanwhile, no
    transaction raises and every service ends with exactly as many active instances of its own as
    its effective target says; or with fewer, no live host of a valid placement group having the
    memory, the cores and the places for another one at the end of the pass, and then
    [unbootable_count] is what is missing.  Nothing else of the service changes. *)
Theorem pass_meets_targets (now : Z) (db : DB)
    (Hfresh : fresh_instances db)
    (Hnonneg : ∀ sv s, services db !! sv = Some s → nonneg_service s) :
  ∃ db', createInstanceRecords now db = (Ok tt, db') ∧
    ∀ sv s, services db !! sv = Some s →
      ∃ u, services db' !! sv = Some (s <| unbootable_count := u |>) ∧
        (Z.of_nat (length (actual_records db' sv)) = effectiveTargetCount s ∨
         (u = effectiveTargetCount s - Z.of_nat (length (actual_records db' sv)) ∧ 0 < u ∧
          ∀ h, host_fits db' s h = false)).
Proof.
  unfold createInstanceRecords. rewrite run_bind, run_gets. cbn beta iota.
  set (l := (λ s, (s, actual_records db s)) <$> lookupAll (λ _, true) (services db)).
  assert (l.*1 = lookupAll (λ _, true) (services db)) as Hl by (unfold l; rewrite <-list_fmap_compose; apply list_fmap_id).
  destruct (updates_spec now l db) as (db' & Hrun & _ & Hin & _).
  - rewrite Hl. apply NoDup_lookupAll.
  - done.
  - intros sv actual. unfold l. intros (sv' & [= -> ->] & _)%list_elem_of_fmap. done.
  - intros sv. rewrite Hl. intros (s & Hs & _)%elem_of_lookupAll. exists s. split; [done|by eapply Hnonneg].
  - exists db'. split; [exact Hrun|]. intros sv s Hs. apply (Hin sv s); [|done].
    rewrite Hl. apply elem_of_lookupAll. by exists s.
Qed.

(** ** An example *)

(** One host of four gigabytes; one service fits twice on it, the other is of another group. *)
Definition two_services : DB :=
  {| services := {[1%nat := new_Service "app" ["Master"%string] <| target_count := 3 |> <| gbRamUsed := of_int 2 |>;
                   2%nat := new_Service "far" ["Worker"%string] <| target_count := 1 |>]};
     hosts := {[3%nat := {| h_connection := 0; placementGroup := "Master"; hostname := "here"; maxGbRam := of_int 4; maxCores := 4;
                            h_gbRamUsed := dzero; h_coresUsed := dzero; maxServiceInstances := None |}]};
     instances := ∅; terminals := ∅; connections := {[0%nat]}; next_identity := 4 |}.

Lemma two_services_fresh : fresh_instances two_services.
Proof. intros i. cbn. set_solver. Qed.

Lemma two_services_nonneg : map_Forall (λ _, nonneg_service) (services two_services).
Proof.
  unfold two_services. cbn [services]. repeat (apply map_Forall_insert_2; [split; by vm_compute|]). apply map_Forall_empty.
Qed.

Example pass_meets_targets_witness :
  ∃ db', createInstanceRecords 0 two_services = (Ok tt, db') ∧
    ∀ sv s, services two_services !! sv = Some s →
      ∃ u, services db' !! sv = Some (s <| unbootable_count := u |>) ∧
        (Z.of_nat (length (actual_records db' sv)) = effectiveTargetCount s ∨
         (u = effectiveTargetCount s - Z.of_nat (length (actual_records db' sv)) ∧ 0 < u ∧
          ∀ h, host_fits db' s h = false)).
Proof. exact (pass_meets_targets 0 two_services two_services_fresh two_services_nonneg). Defined.

Example two_services_pass :
  let db' := (createInstanceRecords 0 two_services).2 in
  length (actual_records db' 1) = 2%nat ∧ unbootable_count <$> services db' !! 1%nat = Some 1 ∧
  length (actual_records db' 2) = 0%nat ∧ unbootable_count <$> services db' !! 2%nat = Some 1.
Proof. vm_compute. split_and!; reflexivity. Qed.
