(* ===== verification/ServiceLimits.v ===== *)
(** * Hosts are not overcommitted

    The resources that the active instances on a host use never exceed what the host records as
    used, which never exceeds what the host has, and there are never more instances on it than it
    allows: an invariant of everything that managers, workers, connections and clients do to the
    database in any interleaving of their transactions, as long as services do not spawn children
    and the sizes of a service with instances are not changed. *)

From Stdlib Require Import Lia.
From stdpp Require Import options.
From S2P Require Import Prelude Doubles Services ServiceManager ServiceTheorems.

Local Open Scope Z_scope.

Lemma msum_lookupAll {A} (P : A → bool) (f : A → Z) (m : gmap nat A) :
  msum (λ x, if P x then f x else 0) m = foldr (λ i acc, from_option f 0 (m !! i) + acc) 0 (lookupAll P m).
Proof.
  unfold msum, lookupAll.
  assert (∀ k x, (k, x) ∈ map_to_list m → m !! k = Some x) as Hl by (intros k x; apply elem_of_map_to_list).
  revert Hl. induction (map_to_list m) as [|[k x] l IH]; intros Hl; [done|].
  rewrite filter_cons. cbn [lsum foldr snd]. fold (lsum (λ x, if P x then f x else 0) l). rewrite IH by (intros; apply Hl; set_solver).
  destruct (P x) eqn:E; [rewrite decide_True by done|rewrite decide_False by done; done].
  cbn. rewrite (Hl k x) by set_solver. done.
Qed.
(** ** Loads *)

(** Amounts are multiples of [2 ^ k] (in the units of doubles), and hosts have less than [2 ^ 53]
    times that: sums that stay within what a host has are then exact. *)
Section grain.
Context (k : Z).
Implicit Types (res : Service → double).

Definition weight (res : Service → double) (db : DB) (h : nat) (x : ServiceInstance) : Z :=
  if bool_decide (i_host x = h) then
    if isActive db x then from_option (λ s, units (res s)) 0 (services db !! i_service x) else 0
  else 0.

(** What the active instances on a host use. *)
Definition load (res : Service → double) (db : DB) (h : nat) : Z := msum (weight res db h) (instances db).

Definition grained (x : double) : Prop := (2 ^ k | units x).
Definition good_service (s : Service) : Prop := nonneg_service s ∧ grained (gbRamUsed s) ∧ grained (coresUsed s).

Record known (db : DB) : Prop := {
  k_instances : ∀ i x, instances db !! i = Some x → (i < next_identity db)%nat ∧ (i_host x < next_identity db)%nat ∧
                  (i_service x < next_identity db)%nat ∧ (∀ c, i_connection x = Some c → (c < next_identity db)%nat);
  k_hosts : ∀ h host, hosts db !! h = Some host → (h < next_identity db)%nat;
  k_services : ∀ sv s, services db !! sv = Some s → (sv < next_identity db)%nat;
  k_connections : ∀ c, c ∈ connections db → (c < next_identity db)%nat;
  k_booting : ∀ i x, instances db !! i = Some x → i_state x = Booting → i_connection x = None;
  k_good : ∀ sv s, services db !! sv = Some s → good_service s;
}.

(** What a host records is at least what is used, and at most what it has. *)
Definition enough (res : Service → double) (db : DB) (h : nat) (used : double) (most : Z) : Prop :=
  load res db h <= units used <= most ∧ grained used ∧ most < 2 ^ (53 + k).
Definition within (db : DB) (h : nat) (host : ServiceHost) : Prop :=
  enough gbRamUsed db h (h_gbRamUsed host) (units (maxGbRam host)) ∧
  enough coresUsed db h (h_coresUsed host) (maxCores host * one_unit) ∧
  ∀ most, maxServiceInstances host = Some most → Z.of_nat (length (instances_on h db)) <= most.

Definition limits (db : DB) : Prop := known db ∧ ∀ h host, hosts db !! h = Some host → within db h host.

Lemma weight_nonneg res db h x : (∀ sv s, services db !! sv = Some s → 0 <= units (res s)) → 0 <= weight res db h x.
Proof.
  intros Hres. unfold weight. repeat case_match; try lia.
  destruct (services db !! i_service x) eqn:E; cbn; [by eapply Hres|lia].
Qed.

(** The connection is kept, or it is a known one of an instance that is not booting any more. *)
Definition connected (n : nat) (x x' : ServiceInstance) : Prop :=
  i_connection x' = i_connection x ∨
  (i_state x' ≠ Booting ∧ ∀ c, i_connection x' = Some c → (c < n)%nat).

(** Everything that does not add to any host. *)
Record calmer (db db' : DB) : Prop := {
  c_next : (next_identity db ≤ next_identity db')%nat;
  c_hosts : ∀ h host, hosts db' !! h = Some host → hosts db !! h = Some host;
  c_connections : ∀ c, c ∈ connections db' → c ∈ connections db;
  c_services : ∀ sv s', services db' !! sv = Some s' →
    (sv < next_identity db')%nat ∧ good_service s' ∧
    ((∃ s, services db !! sv = Some s ∧ gbRamUsed s' = gbRamUsed s ∧ coresUsed s' = coresUsed s)
     ∨ ∀ i x, instances db !! i = Some x → i_service x ≠ sv);
  c_instances : ∀ i x', instances db' !! i = Some x' → ∃ x, instances db !! i = Some x ∧
    i_host x' = i_host x ∧ i_service x' = i_service x ∧ connected (next_identity db) x x' ∧
    (i_state x' = Booting → i_state x = Booting) ∧ (isActive db' x' = true → isActive db x = true);
}.

Lemma calmer_weight db db' (res : Service → double) h i x' :
  (∀ s s', gbRamUsed s' = gbRamUsed s → coresUsed s' = coresUsed s → res s' = res s) →
  (∀ s, nonneg_service s → 0 <= units (res s)) →
  known db → calmer db db' → instances db' !! i = Some x' →
  ∃ x, instances db !! i = Some x ∧ weight res db' h x' <= weight res db h x.
Proof.
  intros Hsame Hpos Hk [_ _ _ Hs Hi] Hx'. destruct (Hi i x' Hx') as (x & Hx & Hh & Hsv & _ & _ & Hact).
  exists x. split; [done|].
  assert (0 <= weight res db h x) as Hw by (apply weight_nonneg; intros; eapply Hpos, k_good; done).
  unfold weight at 1. rewrite Hh, Hsv. case_bool_decide as Hhost; [|done]. destruct (isActive db' x') eqn:E; [|done].
  unfold weight. rewrite bool_decide_true, (Hact eq_refl) by done.
  destruct (services db' !! i_service x) as [s'|] eqn:E'.
  - destruct (Hs _ _ E') as (_ & _ & [(s & Hsv' & Hg & Hc) | Hno]).
    + rewrite Hsv'. cbn. by rewrite (Hsame s s').
    + by destruct (Hno i x Hx).
  - cbn. unfold weight in Hw. by rewrite bool_decide_true, (Hact eq_refl) in Hw.
Qed.

Lemma calmer_limits db db' : calmer db db' → limits db → limits db'.
Proof.
  intros Hc [Hk Hw]. pose proof Hc as [Hn Hh Hco Hs Hi]. split.
  - split.
    + intros i x' Hx'. destruct (Hi i x' Hx') as (x & Hx & Hxh & Hxs & Hxc & _).
      destruct (k_instances _ Hk _ _ Hx) as (? & ? & ? & Hcon). rewrite Hxh, Hxs. split_and!; try lia.
      intros c Hcc. enough (c < next_identity db)%nat by lia. destruct Hxc as [E | [_ E]]; [apply Hcon; congruence|by apply E].
    + intros h host Hx%Hh. pose proof (k_hosts _ Hk _ _ Hx). lia.
    + intros sv s Hx. by destruct (Hs _ _ Hx).
    + intros c Hx%Hco. pose proof (k_connections _ Hk _ Hx). lia.
    + intros i x' Hx' Hb. destruct (Hi i x' Hx') as (x & Hx & _ & _ & [-> | [Hxc _]] & Hst & _); [|done].
      apply (k_booting _ Hk _ _ Hx). auto.
    + intros sv s Hx. by destruct (Hs _ _ Hx) as (_ & ? & _).
  - intros h host Hx. specialize (Hw h host (Hh _ _ Hx)) as (([Hg1 Hg2] & Hg3) & ([Hc1 Hc2] & Hc3) & Hm).
    assert (∀ res : Service → double, (∀ s s', gbRamUsed s' = gbRamUsed s → coresUsed s' = coresUsed s → res s' = res s) →
      (∀ s, nonneg_service s → 0 <= units (res s)) → load res db' h <= load res db h) as Hload.
    { intros res Hsame Hpos. apply msum_mono.
      - intros i x Hx'. by eapply calmer_weight.
      - intros y. apply weight_nonneg. intros; eapply Hpos, k_good; done. }
    pose proof (Hload gbRamUsed (λ _ _ H _, H) (λ _ H, proj1 H)).
    pose proof (Hload coresUsed (λ _ _ _ H, H) (λ _ H, proj2 H)).
    split; [split; [lia|done]|]. split; [split; [lia|done]|]. intros most Hmost%Hm.
    enough (length (instances_on h db') ≤ length (instances_on h db))%nat by lia.
    apply length_lookupAll_mono. intros i x' Hx' HP. destruct (Hi i x' Hx') as (y & Hy & Hyh & _).
    exists y. split; [done|]. by rewrite <-Hyh.
Qed.

Lemma calmer_refl db : known db → calmer db db.
Proof.
  intros Hk. split; try done.
  - intros sv s Hs. split; [by eapply k_services|]. split; [by eapply k_good|]. left. by exists s.
  - intros i x Hx. exists x. split_and!; try done. by left.
Qed.

(** ** Single accesses *)

Lemma preserves_transaction {A} I (m : MD A) : preserves I m → preserves I (transaction m).
Proof. intros Hm db Hdb. specialize (Hm db Hdb). unfold transaction. by destruct (m db) as [[a|e] db']. Qed.

Lemma preserves_calmer {A} (m : MD A) : (∀ db, known db → calmer db (m db).2) → preserves limits m.
Proof. intros Hm db Hdb. eapply calmer_limits; [|exact Hdb]. apply Hm, Hdb. Qed.

(** An update of an instance that does not make it active. *)
Definition calm (f : ServiceInstance → ServiceInstance) : Prop := ∀ x,
  i_host (f x) = i_host x ∧ i_service (f x) = i_service x ∧ i_connection (f x) = i_connection x ∧
  (i_state (f x) = Booting → i_state x = Booting) ∧ ∀ db, isActive db (f x) = true → isActive db x = true.

Lemma calmer_instances db m :
  known db →
  (∀ i x', m !! i = Some x' → ∃ x, instances db !! i = Some x ∧
    i_host x' = i_host x ∧ i_service x' = i_service x ∧ connected (next_identity db) x x' ∧
    (i_state x' = Booting → i_state x = Booting) ∧ (isActive db x' = true → isActive db x = true)) →
  calmer db (db <| instances := m |>).
Proof. intros Hk Hm. destruct (calmer_refl db Hk) as [????]. by split. Qed.

Lemma set_instance_limits i f : calm f → preserves limits (set_instance i f).
Proof.
  intros Hf. apply preserves_calmer. intros db Hk. unfold set_instance, the_instance.
  rewrite !run_bind, run_gets. cbn beta iota. destruct (instances db !! i) as [x|] eqn:E; [|by apply calmer_refl].
  cbn. apply calmer_instances; [done|]. intros j y Hy. apply lookup_insert_Some in Hy as [[<- <-] | [_ Hy]].
  - exists x. split; [done|]. destruct (Hf x) as (? & ? & ? & ? & ?). split_and!; try done; [by left|auto].
  - exists y. split_and!; try done. by left.
Qed.

Lemma calmer_delete db i : known db → calmer db (db <| instances ::= delete i |>).
Proof.
  intros Hk. apply (calmer_instances db (delete i (instances db)) Hk). intros j y Hy.
  apply lookup_delete_Some in Hy as [_ Hy]. exists y. split_and!; try done. by left.
Qed.

Lemma delete_instance_limits i : preserves limits (delete_instance i).
Proof.
  apply preserves_calmer. intros db Hk. unfold delete_instance, the_instance.
  rewrite !run_bind, run_gets. cbn beta iota. destruct (instances db !! i) as [x|] eqn:E; [|by apply calmer_refl].
  by apply calmer_delete.
Qed.

Lemma set_service_limits sv f :
  (∀ s, gbRamUsed (f s) = gbRamUsed s ∧ coresUsed (f s) = coresUsed s) → preserves limits (set_service sv f).
Proof.
  intros Hf. apply preserves_calmer. intros db Hk. unfold set_service, the_service.
  rewrite !run_bind, run_gets. cbn beta iota. destruct (services db !! sv) as [s|] eqn:E; [|by apply calmer_refl].
  destruct (Hf s) as [Hg Hc]. destruct (calmer_refl db Hk) as [Hn Hh Hco Hs Hi]. split; try done.
  intros sv' s' Hs'. cbn in Hs'. apply lookup_insert_Some in Hs' as [[<- <-] | [_ Hs']]; [|by apply Hs].
  split; [exact (k_services _ Hk _ _ E)|]. split; [|left; by exists s].
  unfold good_service, nonneg_service. rewrite Hg, Hc. exact (k_good _ Hk _ _ E).
Qed.

Lemma calm_triggerShutdown now : calm (triggerShutdown now).
Proof.
  intros x. split_and!; [..|intros db; by rewrite triggerShutdown_inactive];
    unfold triggerShutdown; destruct (shouldShutdown x); done.
Qed.

(** A state in which an instance is not active. *)
Lemma calm_ends (f : ServiceInstance → ServiceInstance) :
  (∀ x, i_host (f x) = i_host x ∧ i_service (f x) = i_service x ∧ i_connection (f x) = i_connection x ∧
        i_state (f x) ∈ [Stopped; FailedToStart; Crashed]) → calm f.
Proof.
  intros Hf x. destruct (Hf x) as (? & ? & ? & Hst). split_and!; try done.
  - revert Hst. rewrite !elem_of_cons, elem_of_nil. intros [E | [E | [E | []]]] Hb; congruence.
  - intros db. unfold isActive. rewrite bool_decide_false; [done|].
    revert Hst. rewrite !elem_of_cons, elem_of_nil. intros [E | [E | [E | []]]] [Hb | [Hb | [Hb | []]]]; congruence.
Qed.
Lemma calm_markFailedToStart now reason : calm (markFailedToStart now reason).
Proof. apply calm_ends. intros x. split_and!; try done. cbn. set_solver. Qed.

#[local] Hint Resolve delete_instance_limits : py.

(** Modifications of the parts that [limits] does not look at, and removals. *)
Lemma remove_limits (f : DB → DB) :
  (∀ db, next_identity (f db) = next_identity db ∧ services (f db) ⊆ services db ∧ hosts (f db) ⊆ hosts db ∧
     connections (f db) ⊆ connections db ∧ instances (f db) ⊆ instances db) → preserves limits (modify f).
Proof.
  intros Hf. apply preserves_calmer. intros db Hk. cbn. destruct (Hf db) as (Hn & Hs & Hh & Hc & Hi).
  destruct (calmer_refl db Hk) as [? ? ? Hs' ?]. split.
  - by rewrite Hn.
  - intros h host Hx. by eapply lookup_weaken.
  - set_solver.
  - rewrite Hn. intros sv s Hx. apply Hs'. by eapply lookup_weaken.
  - intros i x Hx. exists x. split; [by eapply lookup_weaken|]. split_and!; try done; [by left|].
    unfold isActive, connection_exists. rewrite !andb_true_iff, !orb_true_iff, !bool_decide_eq_true.
    intros [? [? | Hex]]; (split; [done|]); [by left|right]. destruct (i_connection x); [|done].
    rewrite bool_decide_eq_true in *. set_solver.
Qed.

Ltac limits_step :=
  idtac; lazymatch goal with
  | |- preserves _ (transaction _) => apply preserves_transaction
  | |- preserves limits (set_instance _ (triggerShutdown _)) => apply set_instance_limits, calm_triggerShutdown
  | |- preserves limits (set_instance _ (markFailedToStart _ _)) => apply set_instance_limits, calm_markFailedToStart
  | |- preserves limits (set_instance _ _) =>
      apply set_instance_limits, calm_ends; intros ?; split_and!; [done..|cbn; set_solver]
  | |- preserves limits (set_service _ _) => apply set_service_limits; intros ?; done
  | |- preserves limits (modify _) =>
      apply remove_limits; intros ?; split_and!; cbn; try done; apply delete_subseteq
  end.
Ltac limits_go := preserve_with limits_step.

Lemma collect_instance_limits i : preserves limits (collect_instance i).
Proof. unfold collect_instance, count_failure. limits_go. Qed.

Lemma trigger_all_limits now ids : preserves limits (trigger_all now ids).
Proof. unfold trigger_all. limits_go. Qed.

Lemma delete_orphans_limits ids : preserves limits (delete_orphans ids).
Proof. unfold delete_orphans. limits_go. Qed.

Lemma instanceRecordsToBoot_limits h : preserves limits (instanceRecordsToBoot h).
Proof. unfold instanceRecordsToBoot, boot_or_delete. limits_go. Qed.

Lemma collectDeadConnections_limits : preserves limits collectDeadConnections.
Proof. unfold collectDeadConnections. limits_go. Qed.

Lemma shutdown_loop_limits sv now l : preserves limits (shutdown_loop sv now l).
Proof. induction l as [|i l IH]; cbn [shutdown_loop]; limits_go. Qed.

Lemma removeService_limits name force : preserves limits (removeService name force).
Proof. unfold removeService. limits_go. Qed.

Lemma startService_limits name n : preserves limits (startService name n).
Proof. unfold startService. limits_go. Qed.

(** ** Booting *)

Context (Hk0 : 0 <= k).
#[local] Set Default Proof Using "k Hk0".

Lemma length_lookupAll_insert {A} (P : A → bool) (m : gmap nat A) i x :
  m !! i = None → length (lookupAll P (<[i := x]> m)) = ((if P x then 1 else 0) + length (lookupAll P m))%nat.
Proof.
  intros Hi. unfold lookupAll. rewrite !length_fmap.
  rewrite (filter_Permutation _ _ _ (map_to_list_insert m i x Hi)), filter_cons. cbn.
  destruct (P x); [by rewrite decide_True|by rewrite decide_False].
Qed.

Lemma load_place res sv s now h host db h' :
  instances db !! next_identity db = None → services db !! sv = Some s →
  load res (place sv s now h host db) h' = (if decide (h = h') then units (res s) else 0) + load res db h'.
Proof.
  intros Hi Hs. unfold load.
  change (msum (weight res db h') (<[next_identity db := booting_instance sv h now None]> (instances db)) =
          (if decide (h = h') then units (res s) else 0) + msum (weight res db h') (instances db)).
  rewrite msum_insert by done. unfold weight at 1. cbn. rewrite Hs. cbn.
  case_decide; [by rewrite bool_decide_true|by rewrite bool_decide_false].
Qed.

Lemma load_nonneg res db h :
  known db → (∀ s, nonneg_service s → 0 <= units (res s)) → 0 <= load res db h.
Proof.
  intros Hkn Hpos. apply msum_nonneg. intros x. apply weight_nonneg. intros sv s Hs. by eapply Hpos, k_good.
Qed.

(** What is recorded after an instance was placed; [Hfit]: it was seen to fit. *)
Lemma enough_more res db sv s now h host used most :
  known db → instances db !! next_identity db = None → services db !! sv = Some s →
  (∀ s, nonneg_service s → 0 <= units (res s)) → grained (res s) →
  enough res db h used most → ¬ most < units (dadd used (res s)) →
  enough res (place sv s now h host db) h (dadd used (res s)) most.
Proof.
  intros Hkn Hi Hs Hpos Hgr ([Hl Hu] & Hgu & Hm) Hfit%Z.nlt_ge.
  pose proof (load_nonneg res db h Hkn Hpos). pose proof (Hpos s (proj1 (k_good _ Hkn _ _ Hs))).
  assert (units (dadd used (res s)) = units used + units (res s)) as E by (apply (dadd_within k Hk0 used (res s) most); [lia|done..]).
  unfold enough, grained. rewrite (load_place _ _ _ _ _ _ _ _ Hi Hs), decide_True by done. rewrite E. split_and!; [lia|lia| |done].
  by apply Z.divide_add_r.
Qed.
Lemma enough_other res db sv s now h h' host used most :
  instances db !! next_identity db = None → services db !! sv = Some s → h ≠ h' →
  enough res db h' used most → enough res (place sv s now h host db) h' used most.
Proof. intros Hi Hs Hne He. unfold enough. rewrite (load_place _ _ _ _ _ _ _ _ Hi Hs), decide_False by done. exact He. Qed.

Lemma place_limits sv s now h host db :
  limits db → services db !! sv = Some s → hosts db !! h = Some host → host_fits db s h = true →
  limits (place sv s now h host db).
Proof.
  intros [Hk Hw] Hs Hh Hfits.
  assert (instances db !! next_identity db = None) as Hi.
  { destruct (instances db !! next_identity db) as [x|] eqn:E; [|done]. apply (k_instances _ Hk) in E as [? _]. lia. }
  unfold host_fits in Hfits. rewrite Hh in Hfits. unfold canAssign in Hfits.
  rewrite !andb_true_iff, !negb_true_iff, !bool_decide_eq_true, !bool_decide_eq_false in Hfits.
  destruct Hfits as (_ & ((_ & Hmost) & Hg) & Hc). split.
  - split; cbn.
    + intros i x [[<- <-] | [_ Hx]]%lookup_insert_Some.
      * pose proof (k_hosts _ Hk _ _ Hh). pose proof (k_services _ Hk _ _ Hs). cbn. split_and!; try lia. done.
      * destruct (k_instances _ Hk _ _ Hx) as (? & ? & ? & Hcon). split_and!; try lia. intros c Hcc%Hcon. lia.
    + intros h' host' [[<- _] | [_ Hx]]%lookup_insert_Some; [pose proof (k_hosts _ Hk _ _ Hh)|pose proof (k_hosts _ Hk _ _ Hx)]; lia.
    + intros sv' s' Hx. pose proof (k_services _ Hk _ _ Hx). lia.
    + intros c Hx. pose proof (k_connections _ Hk _ Hx). lia.
    + intros i x [[<- <-] | [_ Hx]]%lookup_insert_Some; [done|by apply (k_booting _ Hk _ _ Hx)].
    + apply Hk.
  - intros h' host' Hx. unfold within.
    assert (length (instances_on h' (place sv s now h host db)) =
            ((if bool_decide (h = h') then 1 else 0) + length (instances_on h' db))%nat) as ->
      by exact (length_lookupAll_insert (λ i, bool_decide (i_host i = h')) _ _ (booting_instance sv h now None) Hi).
    cbn in Hx. apply lookup_insert_Some in Hx as [[<- <-] | [Hne Hx]].
    + destruct (Hw _ _ Hh) as (Hg1 & Hc1 & Hm). destruct (k_good _ Hk _ _ Hs) as ([? ?] & ? & ?).
      rewrite bool_decide_true by done. split; [apply enough_more; try done; by intros ? [? ?]|].
      split; [apply enough_more; try done; by intros ? [? ?]|].
      intros most Hmost'. change (maxServiceInstances host = Some most) in Hmost'. rewrite Hmost', negb_true_iff, bool_decide_eq_false in Hmost. lia.
    + rewrite bool_decide_false by done. destruct (Hw _ _ Hx) as (? & ? & ?).
      split; [by apply enough_other|]. split; [by apply enough_other|done].
Qed.

Lemma boots_limits sv s now db new db' :
  boots sv s now db new db' → services db !! sv = Some s → limits db → limits db'.
Proof.
  induction 1 as [|db h host new db' Hh Hfit Hb IH]; intros Hs Hl; [done|].
  apply IH; [done|]. by apply place_limits.
Qed.

Lemma updateService_limits sv now actual : preserves limits (_updateService sv now actual).
Proof.
  intros db Hdb. unfold _updateService. rewrite run_bind.
  destruct (services db !! sv) as [s|] eqn:Hs.
  2:{ unfold the_service. rewrite run_bind, run_gets. cbn beta iota. by rewrite Hs. }
  rewrite (run_the_service _ _ _ Hs). cbn beta iota.
  destruct (boot_loop_spec sv s now (Z.to_nat (effectiveTargetCount s)) actual db Hs) as (new & db1 & Hb & Hcase); [lia|].
  pose proof (boots_limits _ _ _ _ _ _ Hb Hs Hdb) as Hl1.
  assert (services db1 !! sv = Some s) as Hs1 by by rewrite (proj1 (boots_services _ _ _ _ _ _ Hb)).
  destruct Hcase as [(_ & _ & Hrun) | (_ & _ & db' & Hrun & ->)]; rewrite run_bind, Hrun; cbn beta iota.
  - enough (preserves limits (s ← the_service sv;
      whenM (bool_decide (unbootable_count s ≠ 0)) (set_service sv (λ s, s <| unbootable_count := 0 |>));;
      shutdown_loop sv now (reverse (actual ++ new)))) as Hp by by apply Hp.
    limits_go. apply shutdown_loop_limits.
  - set (f := λ x : Service, x <| unbootable_count := effectiveTargetCount s - Z.of_nat (length actual + length new) |>).
    assert (preserves limits (set_service sv f)) as Hp by by apply set_service_limits.
    specialize (Hp db1 Hl1). by rewrite (run_set_service _ _ _ _ Hs1) in Hp.
Qed.

#[local] Hint Resolve updateService_limits : py.

Lemma update_one_limits now sr : preserves limits (transaction (update_one now sr)).
Proof. unfold update_one. destruct sr as [sv actual]. limits_go. Qed.

(** ** Counting again *)

Definition active_weight (res : Service → double) (db : DB) (x : ServiceInstance) : Z :=
  if isActive db x then from_option (λ s, units (res s)) 0 (services db !! i_service x) else 0.

(** The sums over a list of instances. *)
Definition counted (res : Service → double) (db : DB) (ids : list nat) : Z :=
  foldr (λ i n, from_option (active_weight res db) 0 (instances db !! i) + n) 0 ids.

Lemma run_get_state (db : DB) : get_state db = (Ok db, db).
Proof. done. Qed.

(** A sum that is begun with [x] and stays below the bound *)
Definition small (x : double) (rest : Z) : Prop := 0 <= units x ∧ grained x ∧ units x + rest < 2 ^ (53 + k).

Lemma counted_nonneg res db ids : known db → (∀ s, nonneg_service s → 0 <= units (res s)) → 0 <= counted res db ids.
Proof.
  intros Hkn Hpos. induction ids as [|i ids IH]; [done|]. unfold counted. cbn [foldr]. apply Z.add_nonneg_nonneg; [|exact IH].
  destruct (instances db !! i) as [x|]; cbn; [|done]. unfold active_weight. destruct (isActive db x); cbn; [|done].
  destruct (services db !! i_service x) as [s|] eqn:Hs; cbn; [|done]. exact (Hpos s (proj1 (k_good _ Hkn _ _ Hs))).
Qed.

Lemma counted_cons res db i ids : counted res db (i :: ids) = counted res db [i] + counted res db ids.
Proof. unfold counted. cbn. lia. Qed.

Lemma small_add res db i ids (x : double) s :
  known db → (∀ s, nonneg_service s → 0 <= units (res s)) → (∀ s, good_service s → grained (res s)) → good_service s →
  counted res db [i] = units (res s) → small x (counted res db (i :: ids)) →
  units (dadd x (res s)) = units x + units (res s) ∧ small (dadd x (res s)) (counted res db ids).
Proof.
  intros Hkn Hpos Hgr Hs Hi (H0 & Hx & Hlt). pose proof (Hpos s (proj1 Hs)). pose proof (counted_nonneg res db ids Hkn Hpos).
  rewrite counted_cons, Hi in Hlt.
  assert (units (dadd x (res s)) = units x + units (res s)) as E by (apply (dadd_exact k Hk0); [lia|done|by apply Hgr]).
  split; [done|]. unfold small, grained. rewrite E. split_and!; [lia| |lia]. apply Z.divide_add_r; [done|by apply Hgr].
Qed.

Lemma used_by_spec db ids : known db → ∀ acc,
  small acc.1 (counted gbRamUsed db ids) → small acc.2 (counted coresUsed db ids) →
  (∃ e, foldM ids acc count_instance db = (Raise e, db)) ∨
  ∃ r, foldM ids acc count_instance db = (Ok r, db) ∧
    units r.1 = units acc.1 + counted gbRamUsed db ids ∧ units r.2 = units acc.2 + counted coresUsed db ids ∧
    grained r.1 ∧ grained r.2.
Proof.
  intros Hkn. induction ids as [|i ids IH]; intros acc Hg Hc; cbn [foldM].
  { right. exists acc. unfold counted. cbn. rewrite !Z.add_0_r. split; [done|]. split_and!; [done..|apply Hg|apply Hc]. }
  unfold bind at 1 2. unfold count_instance at 1 3. rewrite run_bind. destruct (instances db !! i) as [x|] eqn:Hx.
  2:{ left. unfold the_instance. rewrite run_bind, run_gets. cbn beta iota. rewrite Hx. by eexists. }
  rewrite (run_the_instance _ _ _ Hx). cbn beta iota. rewrite run_bind, run_get_state. cbn beta iota.
  destruct (isActive db x) eqn:Hact.
  - rewrite run_bind. destruct (services db !! i_service x) as [s|] eqn:Hs.
    2:{ left. unfold the_service. rewrite run_bind, run_gets. cbn beta iota. rewrite Hs. by eexists. }
    rewrite (run_the_service _ _ _ Hs). cbn beta iota. rewrite run_mret. pose proof (k_good _ Hkn _ _ Hs) as Hgood.
    assert (∀ res, counted res db [i] = units (res s)) as Hone.
    { intros res. unfold counted. cbn. rewrite Hx. cbn. unfold active_weight. rewrite Hact, Hs. cbn. lia. }
    destruct (small_add gbRamUsed db i ids acc.1 s Hkn (λ _ H, proj1 H) (λ _ H, proj1 (proj2 H)) Hgood (Hone _) Hg) as [Eg Hg'].
    destruct (small_add coresUsed db i ids acc.2 s Hkn (λ _ H, proj2 H) (λ _ H, proj2 (proj2 H)) Hgood (Hone _) Hc) as [Ec Hc'].
    destruct (IH (dadd acc.1 (gbRamUsed s), dadd acc.2 (coresUsed s)) Hg' Hc') as [[e Hrun] | (r & Hrun & R1 & R2 & R3)]; [left; by exists e|].
    right. exists r. split; [exact Hrun|]. rewrite !(counted_cons _ db i ids), !Hone, R1, R2. cbn [fst snd]. rewrite Eg, Ec. split_and!; [lia..|apply R3|apply R3].
  - rewrite run_mret. assert (∀ res, counted res db [i] = 0) as Hnone.
    { intros res. unfold counted. cbn. rewrite Hx. cbn. unfold active_weight. by rewrite Hact. }
    rewrite !(counted_cons _ db i ids), !Hnone in *. rewrite !Z.add_0_l in *. by apply IH.
Qed.

Lemma load_counted res db h :
  load res db h = counted res db (instances_on h db).
Proof. unfold instances_on, counted. by rewrite <-msum_lookupAll. Qed.

Lemma set_host_limits db h host host' :
  limits db → hosts db !! h = Some host → within db h host' → limits (db <| hosts ::= <[h := host']> |>).
Proof.
  intros [Hk Hw] Hh Hw'. split.
  - destruct Hk as [Hi Hho Hs Hc Hb Hn]. split; try done. intros h' x Hx. cbn in Hx.
    apply lookup_insert_Some in Hx as [[<- _] | [_ Hx]]; [exact (Hho _ _ Hh)|exact (Hho _ _ Hx)].
  - intros h' x Hx. cbn in Hx. apply lookup_insert_Some in Hx as [[<- <-] | [_ Hx]]; [exact Hw'|exact (Hw _ _ Hx)].
Qed.

Lemma collect_host_limits h : preserves limits (collect_host h).
Proof.
  intros db Hdb. unfold collect_host. rewrite !run_bind, run_gets. cbn beta iota. rewrite !run_bind, run_gets. cbn beta iota.
  destruct (hosts db !! h) as [host|] eqn:Hh.
  2:{ unfold the_host. rewrite !run_bind, run_gets. cbn beta iota. by rewrite Hh. }
  rewrite !run_bind, (run_the_host _ _ _ Hh). cbn beta iota. rewrite !run_bind, run_gets. cbn beta iota.
  destruct (bool_decide (h_connection host ∈ connections db)); cbn [negb].
  2:{ enough (preserves limits (forM (instances_on h db) delete_instance;;
        modify (λ db, db <| hosts ::= delete h |>);; mret (terminals_on h db))) as Hp by by apply Hp.
      limits_go. }
  destruct (proj2 Hdb h host Hh) as (([Hg1 Hg2] & Hg3 & Hg4) & ([Hc1 Hc2] & Hc3 & Hc4) & Hm).
  assert (∀ most, most < 2 ^ (53 + k) → ∀ res, load res db h <= most → small dzero (counted res db (instances_on h db))) as Hsmall.
  { intros most Hmost res Hle. split; [done|]. split; [apply Z.divide_0_r|]. rewrite <-load_counted. change (units dzero) with 0. lia. }
  rewrite run_bind. unfold used_by.
  destruct (used_by_spec db (instances_on h db) (proj1 Hdb) (dzero, dzero)) as [[e ->] | (used & -> & Hu1 & Hu2 & Hu3 & Hu4)];
    [exact (Hsmall _ Hg4 _ (Z.le_trans _ _ _ Hg1 Hg2))|exact (Hsmall _ Hc4 _ (Z.le_trans _ _ _ Hc1 Hc2))|done|].
  cbn [fst snd] in Hu1, Hu2. change (units dzero) with 0 in Hu1, Hu2. rewrite <-load_counted, Z.add_0_l in Hu1, Hu2.
  assert (enough gbRamUsed db h used.1 (units (maxGbRam host)) ∧ enough coresUsed db h used.2 (maxCores host * one_unit)) as [He1 He2].
  { unfold enough. rewrite Hu1, Hu2. split; (split; [lia|done]). }
  set (host1 := host <| h_gbRamUsed := used.1 |>).
  assert (∃ db1, whenM (bool_decide (h_gbRamUsed host ≠ used.1))
      (set_host h (λ host, host <| h_gbRamUsed := used.1 |>)) db = (Ok tt, db1) ∧
    limits db1 ∧ (∃ x, hosts db1 !! h = Some x ∧ maxCores x = maxCores host ∧ within db1 h x) ∧
    load coresUsed db1 h = load coresUsed db h) as (db1 & Hrun & Hl1 & (x & Hx & Hmax & Hwx) & Hload).
  { unfold whenM. case_bool_decide.
    - rewrite (run_set_host _ _ _ _ Hh). assert (within db h host1) as Hw1 by (split; [exact He1|]; split; [by split_and!|exact Hm]).
      eexists. split; [reflexivity|]. split; [by eapply set_host_limits|]. split; [|done].
      exists host1. split; [apply lookup_insert_eq|]. done.
    - exists db. split; [done|]. split; [done|]. split; [|done]. exists host. split; [exact Hh|]. split; [reflexivity|exact (proj2 Hdb h host Hh)]. }
  rewrite run_bind, Hrun. cbn beta iota. rewrite run_bind. unfold whenM. destruct (bool_decide (h_coresUsed host ≠ used.2)); [|exact Hl1].
  rewrite (run_set_host _ _ _ _ Hx). cbn beta iota. eapply set_host_limits; [done|done|].
  destruct Hwx as (He & _ & Hm'). split; [exact He|]. split; [|exact Hm']. unfold enough in *.
  change (maxCores (x <| h_coresUsed := used.2 |>)) with (maxCores x). rewrite Hload, Hmax. exact He2.
Qed.
#[local] Hint Resolve collect_host_limits : py.

Lemma collect_hosts_limits : preserves limits collect_hosts.
Proof. unfold collect_hosts. limits_go. Qed.
Lemma terminal_limits t : preserves limits (transaction (delete_terminal t)).
Proof. unfold delete_terminal. limits_go. Qed.

(** ** Workers and connections *)

(** One instance is replaced by one that is active only if it was. *)
Lemma replace_instance db i x x' :
  limits db → instances db !! i = Some x →
  i_host x' = i_host x → i_service x' = i_service x → connected (next_identity db) x x' →
  (i_state x' = Booting → i_state x = Booting) → (isActive db x' = true → isActive db x = true) →
  limits (db <| instances ::= <[i := x']> |>).
Proof.
  intros Hl Hx Hh Hs Hc Hb Ha. eapply calmer_limits; [|exact Hl].
  apply (calmer_instances db (<[i := x']> (instances db)) (proj1 Hl)).
  intros j y [[<- <-] | [_ Hy]]%lookup_insert_Some; [by exists x|].
  exists y. split_and!; try done. by left.
Qed.

Lemma worker_initialize_limits now i connection instantiated db :
  limits db → (∀ x, instances db !! i = Some x → i_state x = Booting) → connection ∈ connections db →
  limits (worker_initialize now i connection instantiated db).2.
Proof.
  intros Hl Hboot Hcon. unfold worker_initialize, transaction. rewrite run_bind.
  destruct (instances db !! i) as [x|] eqn:Hx.
  2:{ unfold the_instance. rewrite run_bind, run_gets. cbn beta iota. by rewrite Hx. }
  rewrite (run_the_instance _ _ _ Hx). cbn beta iota. rewrite run_bind, run_gets. cbn beta iota.
  destruct (services db !! i_service x) as [s|]; [|done].
  rewrite run_bind, (run_set_instance _ _ _ _ Hx). cbn beta iota. set (db1 := db <| instances ::= _ |>).
  assert (limits db1) as Hl1.
  { apply (replace_instance db i x); try done.
    - right. split; [done|]. intros c [= <-]. by apply (k_connections _ (proj1 Hl)).
    - cbn. pose proof (k_booting _ (proj1 Hl) _ _ Hx (Hboot x eq_refl)) as Hnone. unfold isActive. cbn.
      rewrite (Hboot x eq_refl), Hnone. cbn. rewrite !andb_true_iff. naive_solver. }
  destruct instantiated; [done|]. rewrite run_bind.
  pose proof (set_instance_limits i _ (calm_markFailedToStart now "exception") db1 Hl1) as Hl2.
  destruct (set_instance i _ db1) as [[[]|e] db2]; done.
Qed.

Lemma worker_running_limits i db :
  limits db → (∀ x, instances db !! i = Some x → i_state x = Initializing) → limits (worker_running i db).2.
Proof.
  intros Hl Hinit. unfold worker_running, transaction.
  destruct (instances db !! i) as [x|] eqn:Hx.
  2:{ unfold set_instance, the_instance. rewrite !run_bind, run_gets. cbn beta iota. by rewrite Hx. }
  rewrite (run_set_instance _ _ _ _ Hx). apply (replace_instance db i x); try done; [by left|].
  unfold isActive. cbn. by rewrite (Hinit x eq_refl).
Qed.

(** [Connection] objects that the server makes and removes. *)
Definition connects : MD nat :=
  c ← new_identity; modify (λ db, db <| connections ::= union {[c]} |>);; mret c.
Definition disconnects (c : nat) : MD unit := modify (λ db, db <| connections ::= λ x, x ∖ {[c]} |>).

Lemma disconnects_limits c : preserves limits (disconnects c).
Proof. apply remove_limits. intros db. split_and!; try done. cbn. set_solver. Qed.

(** A new object that nothing refers to yet. *)
Lemma known_next db : known db → known (db <| next_identity ::= S |>).
Proof.
  intros [Hi Hh Hs Hc Hb Hn]. split; cbn; try done.
  - intros i x Hx. destruct (Hi _ _ Hx) as (? & ? & ? & Hcon). split_and!; try lia. intros c Hcc%Hcon. lia.
  - intros h x Hx%Hh. lia.
  - intros sv x Hx%Hs. lia.
  - intros c Hx%Hc. lia.
Qed.

Lemma connects_limits : preserves limits connects.
Proof.
  intros db [Hk Hw]. unfold connects, new_identity. rewrite !run_bind, run_gets. cbn beta iota. cbn [snd].
  set (c := next_identity db). set (db1 := db <| next_identity ::= S |>).
  assert (∀ x i, instances db !! i = Some x → isActive (db1 <| connections ::= union {[c]} |>) x = isActive db x) as Hact.
  { intros x i Hx. unfold isActive, connection_exists. do 2 f_equal. cbn.
    destruct (i_connection x) as [c'|] eqn:E; [|done]. apply bool_decide_ext.
    destruct (k_instances _ Hk _ _ Hx) as (_ & _ & _ & Hcon). specialize (Hcon _ E).
    rewrite elem_of_union, elem_of_singleton. subst c. split; [intros [Heq | ?]; [lia|done]|by right]. }
  split.
  - destruct (known_next db Hk) as [Hi Hh Hs Hc Hb Hn]. split; try done. cbn.
    intros c' [Heq%elem_of_singleton | Hx]%elem_of_union; [rewrite Heq; apply Nat.lt_succ_diag_r|by apply Hc].
  - intros h host Hh. destruct (Hw h host Hh) as (Hg & Hc & Hm).
    assert (∀ res, load res (db1 <| connections ::= union {[c]} |>) h = load res db h) as Hload.
    { intros res. unfold load. apply msum_ext. intros i x Hx. unfold weight. by rewrite (Hact x i Hx). }
    split; [|split; [|exact Hm]]; unfold enough; rewrite Hload; assumption.
Qed.

Lemma run_new_identity db : new_identity db = (Ok (next_identity db), db <| next_identity ::= S |>).
Proof. done. Qed.

Lemma start_manager_limits connection group name gbRam cores most :
  0 <= units gbRam < 2 ^ (53 + k) → 0 <= cores * one_unit < 2 ^ (53 + k) → (∀ n, most = Some n → 0 <= n) →
  preserves limits (start_manager connection group name gbRam cores most).
Proof.
  intros [Hg Hg'] [Hc Hc'] Hm db [Hk Hw]. unfold start_manager. rewrite run_bind, run_new_identity. cbn beta iota. rewrite run_bind, run_modify, run_mret. cbn [snd].
  assert (∀ i x, instances db !! i = Some x → i_host x ≠ next_identity db) as Hno.
  { intros i x Hx Heq. destruct (k_instances _ Hk _ _ Hx) as (_ & ? & _). lia. }
  pose proof (known_next db Hk) as Hk1. split.
  - destruct Hk1 as [Hi Hh Hs Hco Hb Hn]. split; try done. intros h x Hx. cbn in Hx.
    apply lookup_insert_Some in Hx as [[<- _] | [_ Hx]]; [apply Nat.lt_succ_diag_r|exact (Hh _ _ Hx)].
  - intros h x Hx. cbn in Hx. apply lookup_insert_Some in Hx as [[<- <-] | [_ Hx]]; [|exact (Hw _ _ Hx)].
    assert (∀ res, load res db (next_identity db) = 0) as Hload.
    { intros res. unfold load. rewrite (msum_ext _ (λ _, 0)).
      - unfold msum, lsum. induction (map_to_list (instances db)); cbn; lia.
      - intros i x Hx. unfold weight. by rewrite bool_decide_false by (by eapply Hno). }
    split; [|split]; [split; [split; [exact (Z.eq_le_incl _ _ (Hload gbRamUsed))|done]|split; [apply Z.divide_0_r|done]]|
                      split; [split; [exact (Z.eq_le_incl _ _ (Hload coresUsed))|done]|split; [apply Z.divide_0_r|done]]|].
    intros n Hn%Hm. change (Z.of_nat (length (instances_on (next_identity db) db)) <= n).
    destruct (instances_on (next_identity db) db) as [|i l] eqn:E; [done|]. exfalso.
    assert (i ∈ instances_on (next_identity db) db) as Hi by (rewrite E; set_solver).
    apply elem_of_lookupAll in Hi as (x & Hx & Hhost%bool_decide_eq_true_1). by apply (Hno i x Hx).
Qed.

(** A service of these sizes, or one without instances. *)
Definition sized (sv : nat) (g c : double) (db : DB) : Prop :=
  limits db ∧ ((∀ i x, instances db !! i = Some x → i_service x ≠ sv) ∨
               ∃ s, services db !! sv = Some s ∧ gbRamUsed s = g ∧ coresUsed s = c).

Lemma sized_insert sv g c db s s' :
  sized sv g c db → services db !! sv = Some s → good_service s' →
  (gbRamUsed s = g → coresUsed s = c → gbRamUsed s' = g ∧ coresUsed s' = c) →
  sized sv g c (db <| services ::= <[sv := s']> |>).
Proof.
  intros [Hl Hcase] Hs Hn Hsize. split.
  - eapply calmer_limits; [|exact Hl]. destruct (calmer_refl db (proj1 Hl)) as [? ? ? Hss ?]. split; try done.
    intros sv' x Hx. cbn in Hx. apply lookup_insert_Some in Hx as [[<- <-] | [_ Hx]]; [|exact (Hss _ _ Hx)].
    split; [exact (k_services _ (proj1 Hl) _ _ Hs)|]. split; [done|].
    destruct Hcase as [Hno | (y & Hy & Hg & Hc)]; [by right|left]. rewrite Hs in Hy. injection Hy as <-.
    destruct (Hsize Hg Hc). exists s. split; [done|]. split; congruence.
  - destruct Hcase as [Hno | (y & Hy & Hg & Hc)]; [by left|right]. rewrite Hs in Hy. injection Hy as <-.
    exists s'. split; [apply lookup_insert_eq|by apply Hsize].
Qed.

Lemma set_service_sized sv g c f :
  (∀ s, good_service s → good_service (f s) ∧
        (gbRamUsed s = g → coresUsed s = c → gbRamUsed (f s) = g ∧ coresUsed (f s) = c)) →
  preserves (sized sv g c) (set_service sv f).
Proof.
  intros Hf db Hdb. destruct (services db !! sv) as [s|] eqn:Hs.
  - rewrite (run_set_service _ _ _ _ Hs). destruct (Hf s (k_good _ (proj1 (proj1 Hdb)) _ _ Hs)).
    by apply (sized_insert _ _ _ _ s).
  - unfold set_service, the_service. rewrite !run_bind, run_gets. cbn beta iota. by rewrite Hs.
Qed.

Lemma setCodebase_sizes codebase m c s s' :
  setCodebase codebase m c s = Some s' → gbRamUsed s' = gbRamUsed s ∧ coresUsed s' = coresUsed s.
Proof.
  unfold setCodebase, _setCodebase, deploy. repeat case_match; intros E; try discriminate; injection E as <-;
    destruct codebase, m, c; cbn; repeat case_match; done.
Qed.

Lemma update_sized sv g c moduleName className targetCount placement singleton cores gbRam codebase :
  (∀ v, cores = Some v → v = c ∧ 0 <= units v ∧ grained v) → (∀ v, gbRam = Some v → v = g ∧ 0 <= units v ∧ grained v) →
  preserves (sized sv g c)
    (s ← the_service sv;
     s' ← lift_option CodebaseLockedException (setCodebase codebase (Some moduleName) (Some className) s);
     set_service sv (λ _, s');;
     set_service sv (λ s, from_option (λ v, s <| target_count := v |>) s targetCount);;
     set_service sv (λ s, from_option (λ v, s <| validPlacementGroups := [v] |>) s placement);;
     set_service sv (λ s, from_option (λ v, s <| coresUsed := v |>) s cores);;
     set_service sv (λ s, from_option (λ v, s <| gbRamUsed := v |>) s gbRam);;
     set_service sv (λ s, from_option (λ v, s <| isSingleton := v |>) s singleton);;
     mret sv).
Proof.
  intros Hc Hg db Hdb. rewrite run_bind. destruct (services db !! sv) as [s|] eqn:Hs.
  2:{ unfold the_service. rewrite !run_bind, run_gets. cbn beta iota. by rewrite Hs. }
  rewrite (run_the_service _ _ _ Hs). cbn beta iota. rewrite run_bind, run_lift_option.
  destruct (setCodebase _ _ _ s) as [s'|] eqn:E; [|done]. cbn beta iota. destruct (setCodebase_sizes _ _ _ _ _ E) as [E1 E2].
  rewrite run_bind, (run_set_service _ _ _ _ Hs). cbn beta iota.
  match goal with |- sized _ _ _ (?m ?x).2 => enough (preserves (sized sv g c) m) as Hp; [apply Hp|] end.
  - apply (sized_insert _ _ _ _ s); [done|done| |].
    + unfold good_service, nonneg_service. rewrite E1, E2. exact (k_good _ (proj1 (proj1 Hdb)) _ _ Hs).
    + by rewrite E1, E2.
  - repeat (apply preserves_bind; [apply set_service_sized|intros _]); [..|apply preserves_ret];
      intros x ([? ?] & ? & ?); (split; [split_and!; [split|..]|]).
    all: try (destruct targetCount, placement, singleton; done).
    all: try (destruct cores as [v|]; cbn; try done; destruct (Hc v eq_refl) as (? & ? & ?); subst; done).
    all: try (destruct gbRam as [v|]; cbn; try done; destruct (Hg v eq_refl) as (? & ? & ?); subst; done).
Qed.

(** The sizes of a service that has instances are not changed. *)
Definition keeps_sizes (name : string) (cores gbRam : option double) (db : DB) : Prop :=
  (∀ v, cores = Some v → 0 <= units v ∧ grained v) ∧ (∀ v, gbRam = Some v → 0 <= units v ∧ grained v) ∧
  ∀ sv s, services db !! sv = Some s → s_name s = name →
    instances_of sv db = [] ∨ (default (coresUsed s) cores = coresUsed s ∧ default (gbRamUsed s) gbRam = gbRamUsed s).

Lemma createOrUpdateService_limits m c name t p single cores gbRam codebase db :
  limits db → keeps_sizes name cores gbRam db →
  limits (createOrUpdateService m c name t p single cores gbRam codebase db).2.
Proof.
  intros Hl (Hpc & Hpg & Hsame). unfold createOrUpdateService. rewrite run_bind, run_gets. cbn beta iota.
  destruct (lookupAll _ (services db)) as [|sv rest] eqn:E.
  - rewrite !run_bind, run_new_identity. cbn beta iota. rewrite run_bind, run_modify, run_mret. cbn beta iota.
    set (sv := next_identity db).
    eapply (update_sized sv (default dzero gbRam) (default dzero cores)).
    + intros v ->. split; [done|by apply Hpc].
    + intros v ->. split; [done|by apply Hpg].
    + assert (limits (db <| next_identity ::= S |>)) as [Hk1 Hw1] by (destruct Hl as [Hk Hw]; split; [by apply known_next|done]).
      split.
      * eapply calmer_limits; [|split; [exact Hk1|exact Hw1]]. destruct (calmer_refl _ Hk1) as [? ? ? Hs ?]. split; try done.
        intros sv' x Hx. cbn in Hx. apply lookup_insert_Some in Hx as [[<- <-] | [_ Hx]]; [|exact (Hs _ _ Hx)].
        split; [apply Nat.lt_succ_diag_r|]. split; [by split_and!; try apply Z.divide_0_r|]. right. intros i x Hx Heq.
        destruct (k_instances _ (proj1 Hl) _ _ Hx) as (_ & _ & ? & _). unfold sv in Heq. lia.
      * left. intros i x Hx Heq. destruct (k_instances _ (proj1 Hl) _ _ Hx) as (_ & _ & ? & _). unfold sv in Heq. lia.
  - assert (sv ∈ lookupAll (λ s, bool_decide (s_name s = name)) (services db)) as Hin by (rewrite E; set_solver).
    apply elem_of_lookupAll in Hin as (s & Hs & Hname%bool_decide_eq_true_1).
    rewrite run_bind, run_mret. cbn beta iota.
    destruct (Hsame sv s Hs Hname) as [Hnone | [Hc Hg]].
    + eapply (update_sized sv (default dzero gbRam) (default dzero cores)).
      * intros v ->. split; [done|by apply Hpc].
      * intros v ->. split; [done|by apply Hpg].
      * split; [done|left]. intros i x Hx Heq.
        assert (i ∈ instances_of sv db) as Hi; [|rewrite Hnone in Hi; set_solver].
        apply elem_of_lookupAll. exists x. split; [done|]. by apply bool_decide_eq_true_2.
    + eapply (update_sized sv (gbRamUsed s) (coresUsed s)).
      * intros v ->. split; [done|by apply Hpc].
      * intros v ->. split; [done|by apply Hpg].
      * split; [done|right]. by exists s.
Qed.

Lemma stopAllServices_limits : preserves limits stopAllServices_request.
Proof. unfold stopAllServices_request. limits_go. Qed.

(** ** Everything that happens to the database *)

(** One transaction of anybody.  Those of a manager that acts on what it read in a view before
    (instances to stop, to delete, the records of a service, terminals) may be given anything.  A
    manager starts workers only for instances that are booting, and a worker takes its steps in
    order. *)
Inductive step (db : DB) : DB → Prop :=
  | step_update now sv records : step db (transaction (update_one now (sv, records)) db).2
  | step_dead_hosts : step db (collect_hosts db).2
  | step_terminal t : step db (transaction (delete_terminal t) db).2
  | step_dead_connections : step db (collectDeadConnections db).2
  | step_stops now ids : step db (trigger_all now ids db).2
  | step_orphans ids : step db (delete_orphans ids db).2
  | step_to_boot h : step db (instanceRecordsToBoot h db).2
  | step_initializes now i c ok :
      (∀ x, instances db !! i = Some x → i_state x = Booting) → c ∈ connections db →
      step db (worker_initialize now i c ok db).2
  | step_runs i : (∀ x, instances db !! i = Some x → i_state x = Initializing) → step db (worker_running i db).2
  | step_fails now i : step db (worker_failed now i db).2
  | step_crashes now i : step db (worker_crashed now i db).2
  | step_ends now i : step db (worker_stopped now i db).2
  | step_connects : step db (connects db).2
  | step_disconnects c : step db (disconnects c db).2
  | step_manager c group name gbRam cores most :
      0 <= units gbRam < 2 ^ (53 + k) → 0 <= cores * one_unit < 2 ^ (53 + k) → (∀ n, most = Some n → 0 <= n) →
      step db (start_manager c group name gbRam cores most db).2
  | step_service m c name t p single cores gbRam codebase :
      keeps_sizes name cores gbRam db → step db (createOrUpdateService m c name t p single cores gbRam codebase db).2
  | step_starts name n : step db (startService name n db).2
  | step_stops_all : step db (stopAllServices_request db).2
  | step_removes name force : step db (removeService name force db).2.

Definition empty_DB : DB :=
  {| services := ∅; hosts := ∅; instances := ∅; terminals := ∅; connections := ∅; next_identity := 0 |}.

Lemma empty_limits : limits empty_DB.
Proof. by split; [split|]. Qed.

Lemma worker_ends_limits now i :
  preserves limits (worker_failed now i) ∧ preserves limits (worker_crashed now i) ∧ preserves limits (worker_stopped now i).
Proof. unfold worker_failed, worker_crashed, worker_stopped. split_and!; limits_go. Qed.

Lemma step_limits db db' : limits db → step db db' → limits db'.
Proof.
  intros Hl Hstep. destruct Hstep; try (by apply (worker_ends_limits now i)).
  - by apply update_one_limits.
  - by apply collect_hosts_limits.
  - by apply terminal_limits.
  - by apply collectDeadConnections_limits.
  - by apply trigger_all_limits.
  - by apply delete_orphans_limits.
  - by apply instanceRecordsToBoot_limits.
  - by apply worker_initialize_limits.
  - by apply worker_running_limits.
  - by apply connects_limits.
  - by apply disconnects_limits.
  - by apply start_manager_limits.
  - by apply createOrUpdateService_limits.
  - by apply startService_limits.
  - by apply stopAllServices_limits.
  - by apply removeService_limits.
Qed.

Lemma steps_limits db db' : rtc step db db' → limits db → limits db'.
Proof. induction 1; eauto using step_limits. Qed.

(** C34. Starting from an empty database, and after any interleaving of the transactions of
    managers, workers, connections and clients, on every host: the memory (and the cores) of the
    services of its active instances add up to at most what the host records as used, which is at
    most what the host has; and there are at most [maxServiceInstances] instances on it.  Amounts
    are floating-point numbers; the theorem is for amounts that are multiples of a common power of
    two, and hosts that have less than 2^53 times that (so that the sums that matter are not
    rounded; with tenths of a core, ten services would fit a host that has less).  Excluded are
    also children that services spawn, and changing the size of a service that has instances. *)
Theorem hosts_are_not_overcommitted (db : DB) (Hreach : rtc step empty_DB db) :
  ∀ h host, hosts db !! h = Some host →
    load gbRamUsed db h <= units (h_gbRamUsed host) <= units (maxGbRam host) ∧
    load coresUsed db h <= units (h_coresUsed host) <= maxCores host * one_unit ∧
    ∀ most, maxServiceInstances host = Some most → Z.of_nat (length (instances_on h db)) <= most.
Proof.
  intros h host Hh. destruct (proj2 (steps_limits _ _ Hreach empty_limits) h host Hh) as ((? & _) & (? & _) & ?). done.
Qed.
End grain.

(** ** An example *)

(** Multiples of a sixteenth *)
Definition sixteenth : Z := 1070.
Definition one_host : DB := (start_manager 0 "Master" "here" (of_int 4) 4 (Some 3) (connects empty_DB).2).2.
Definition half : double := to_double (2 ^ 1073).
Definition one_service : DB :=
  (createOrUpdateService "m.app" "App" "app" (Some 3) None None (Some half) (Some (of_int 2)) None one_host).2.
(** The service, with identity 2, wants three instances of two gigabytes; the host has four. *)
Definition placed : DB := (transaction (update_one 0 (2%nat, [])) one_service).2.

Lemma half_grained : 0 <= units half ∧ grained sixteenth half.
Proof. split; [by vm_compute|]. apply Z.mod_divide; [by vm_compute|]. by vm_compute. Qed.
Lemma two_grained : 0 <= units (of_int 2) ∧ grained sixteenth (of_int 2).
Proof. split; [by vm_compute|]. apply Z.mod_divide; [by vm_compute|]. by vm_compute. Qed.

Lemma placed_reachable : rtc (step sixteenth) empty_DB placed.
Proof.
  apply (rtc_l _ _ (connects empty_DB).2); [apply step_connects|].
  apply (rtc_l _ _ one_host); [apply step_manager; [by vm_compute..|by intros n [= <-]]|].
  apply (rtc_l _ _ one_service).
  - apply step_service. split; [intros v [= <-]; exact half_grained|]. split; [intros v [= <-]; exact two_grained|].
    intros sv s Hs. by vm_compute in Hs.
  - apply rtc_once. apply step_update.
Qed.

Example placed_two : length (actual_records placed 2) = 2%nat ∧
  unbootable_count <$> services placed !! 2%nat = Some 1 ∧ units ∘ h_gbRamUsed <$> hosts placed !! 1%nat = Some (4 * one_unit).
Proof. by vm_compute. Qed.

Example hosts_are_not_overcommitted_witness :
  rtc (step sixteenth) empty_DB placed ∧
  ∀ h host, hosts placed !! h = Some host →
    load gbRamUsed placed h <= units (h_gbRamUsed host) <= units (maxGbRam host) ∧
    load coresUsed placed h <= units (h_coresUsed host) <= maxCores host * one_unit ∧
    ∀ most, maxServiceInstances host = Some most → Z.of_nat (length (instances_on h placed)) <= most.
Proof.
  split; [exact placed_reachable|]. apply (hosts_are_not_overcommitted sixteenth); [by vm_compute|exact placed_reachable].
Defined.
