(* ===== verification/ServiceCollection.v ===== *)
(** * What the service manager collects

    Instances that have died are removed and their failures are counted, exactly once; one dead
    instance whose service was removed stops all of it.  The processes that a manager keeps after
    [cleanup] are alive and belong to instances that are not overdue.  A locked service keeps its
    code. *)

From Stdlib Require Import Lia.
From stdpp Require Import options.
From S2P Require Import Prelude Doubles Services ServiceManager ServiceTheorems.

Local Open Scope Z_scope.

(** ** Dead instances *)

(** An instance of the service, owned by the manager, that ended in this way. *)
Definition ended (how : instance_state) (sv : nat) (x : ServiceInstance) : bool :=
  bool_decide (i_service x = sv) && bool_decide (owner x = None) && bool_decide (i_state x = how).
Definition ends (how : instance_state) (sv : nat) (db : DB) (l : list nat) : Z :=
  Z.of_nat (length (filter (λ i, from_option (ended how sv) false (instances db !! i) = true) l)).

(** Collecting removes instances and counts; [l] are those that it looked at. *)
Record collected (l : list nat) (db db' : DB) : Prop := {
  cd_connections : connections db' = connections db;
  cd_hosts : hosts db' = hosts db;
  cd_instances : ∀ i x, instances db' !! i = Some x → instances db !! i = Some x;
  cd_gone : ∀ i x, i ∈ l → instances db !! i = Some x → removable db x = true → instances db' !! i = None;
  cd_kept : ∀ i x, instances db !! i = Some x → removable db x = false → owner x = None → instances db' !! i = Some x;
  cd_other : ∀ i, i ∉ l → instances db' !! i = instances db !! i;
  cd_services : ∀ sv s, services db !! sv = Some s → ∃ s', services db' !! sv = Some s' ∧
    timesBootedUnsuccessfully s' = timesBootedUnsuccessfully s + ends FailedToStart sv db l ∧
    timesCrashed s' = timesCrashed s + ends Crashed sv db l;
}.

Lemma removable_grows db db' x :
  connections db' = connections db → hosts db' = hosts db →
  (∀ i, i ∈ dom (instances db') → i ∈ dom (instances db)) → removable db x = true → removable db' x = true.
Proof.
  intros Hc Hh Hi. unfold removable, isNotActive, connection_exists. rewrite Hc, Hh, !orb_true_iff.
  intros [? | Ho]; [by left|right]. destruct (owner x) as [o|]; [|done]. rewrite bool_decide_eq_true in *. auto.
Qed.

Lemma removable_unowned db db' x :
  connections db' = connections db → hosts db' = hosts db → owner x = None → removable db' x = removable db x.
Proof. intros Hc Hh Ho. unfold removable, isNotActive, connection_exists. by rewrite Hc, Hh, Ho. Qed.

Lemma ended_removable db how sv x : how ∈ [FailedToStart; Crashed] → ended how sv x = true → removable db x = true.
Proof.
  intros Hh. unfold ended, removable, isNotActive. rewrite !andb_true_iff, !bool_decide_eq_true. intros [_ ->].
  rewrite bool_decide_true; [done|]. rewrite !elem_of_cons, elem_of_nil in *. naive_solver.
Qed.

(** The counters after one failure. *)
Definition after_failure (x : ServiceInstance) (s : Service) : Service :=
  match owner x, i_state x with
  | None, FailedToStart => s <| timesBootedUnsuccessfully ::= Z.succ |> <| lastFailureReason := Some (failureReason x) |>
  | None, Crashed => s <| timesCrashed ::= Z.succ |> <| lastFailureReason := Some (failureReason x) |>
  | _, _ => s
  end.

Lemma count_failure_spec db x s :
  services db !! i_service x = Some s →
  count_failure x db = (Ok tt, db <| services ::= <[i_service x := after_failure x s]> |>).
Proof.
  intros Hs. assert (db = db <| services ::= <[i_service x := s]> |>) as Hid.
  { destruct db. unfold set_field; cbn in *. by rewrite insert_id. }
  unfold count_failure, after_failure. destruct (owner x), (i_state x); try (rewrite (run_set_service _ _ _ _ Hs); done);
    rewrite run_mret; by f_equal.
Qed.

Lemma collect_instance_removes db i x s :
  instances db !! i = Some x → services db !! i_service x = Some s → removable db x = true →
  collect_instance i db =
    (Ok tt, db <| services ::= <[i_service x := after_failure x s]> |> <| instances ::= delete i |>).
Proof.
  intros Hx Hs Hr. unfold collect_instance. rewrite run_bind, (run_the_instance _ _ _ Hx). cbn beta iota.
  rewrite run_bind. unfold get_state at 1. cbn beta iota. rewrite Hr. unfold whenM.
  rewrite run_bind, (count_failure_spec _ _ _ Hs). cbn beta iota.
  rewrite run_bind, (run_the_service _ _ (after_failure x s)) by (cbn; apply lookup_insert_eq). cbn beta iota.
  unfold delete_instance. rewrite run_bind, (run_the_instance _ _ x) by done. done.
Qed.

Lemma collect_instance_keeps db i x :
  instances db !! i = Some x → removable db x = false → collect_instance i db = (Ok tt, db).
Proof.
  intros Hx Hr. unfold collect_instance. rewrite run_bind, (run_the_instance _ _ _ Hx). cbn beta iota.
  rewrite run_bind. unfold get_state at 1. cbn beta iota. by rewrite Hr.
Qed.

Lemma ends_cons how sv db i x l :
  instances db !! i = Some x → ends how sv db (i :: l) = (if ended how sv x then 1 else 0) + ends how sv db l.
Proof.
  intros Hx. unfold ends. rewrite filter_cons, Hx. cbn [from_option]. destruct (ended how sv x).
  - rewrite decide_True by done. cbn [length]. lia.
  - rewrite decide_False by done. lia.
Qed.

Lemma ends_ext how sv db db' l :
  (∀ i, i ∈ l → instances db' !! i = instances db !! i) → ends how sv db' l = ends how sv db l.
Proof.
  intros H. unfold ends. do 2 f_equal. induction l as [|i l IH]; [done|]. rewrite !filter_cons.
  rewrite (H i) by set_solver. rewrite IH by (intros; apply H; set_solver). done.
Qed.

Lemma after_failure_counts how sv x s :
  how ∈ [FailedToStart; Crashed] → i_service x = sv →
  timesBootedUnsuccessfully (after_failure x s) = timesBootedUnsuccessfully s + (if ended FailedToStart sv x then 1 else 0) ∧
  timesCrashed (after_failure x s) = timesCrashed s + (if ended Crashed sv x then 1 else 0).
Proof.
  intros _ Hsv. unfold after_failure, ended. rewrite (bool_decide_true _ Hsv).
  destruct (owner x), (i_state x); cbn; repeat (case_bool_decide; try congruence); split; lia.
Qed.

Lemma collect_loop l : ∀ db,
  NoDup l → (∀ i, i ∈ l → ∃ x s, instances db !! i = Some x ∧ services db !! i_service x = Some s) →
  ∃ db', forM l collect_instance db = (Ok tt, db') ∧ collected l db db'.
Proof.
  induction l as [|i l IH]; intros db Hnd Hl.
  - exists db. split; [done|]. split; try done; [set_solver|]. intros sv s Hs. exists s.
    unfold ends. cbn. split; [done|]. lia.
  - apply NoDup_cons in Hnd as [Hi Hnd]. destruct (Hl i) as (x & s & Hx & Hs); [set_solver|].
    cbn [forM]. unfold bind. destruct (removable db x) eqn:Hr.
    + rewrite (collect_instance_removes _ _ _ _ Hx Hs Hr). cbn beta iota.
      set (db1 := db <| services ::= _ |> <| instances ::= _ |>).
      assert (∀ j, j ≠ i → instances db1 !! j = instances db !! j) as Hother by (intros j Hj; cbn; by rewrite lookup_delete_ne).
      destruct (IH db1 Hnd) as (db' & Hrun & [Hc Hh Hin Hg Hk Ho Hsv]).
      { intros j Hj. destruct (Hl j) as (y & t & Hy & Ht); [set_solver|]. exists y.
        destruct (decide (i_service y = i_service x)) as [E | E]; [exists (after_failure x s)|exists t];
          (split; [rewrite Hother; [done|intros ->; done]|]); cbn; [rewrite E; apply lookup_insert_eq|by rewrite lookup_insert_ne]. }
      exists db'. split; [exact Hrun|]. split.
      * by rewrite Hc.
      * by rewrite Hh.
      * intros j y Hy%Hin. cbn in Hy. by apply lookup_delete_Some in Hy as [_ ?].
      * intros j y [-> | Hj]%elem_of_cons Hy Hry.
        -- rewrite Ho by done. cbn. apply lookup_delete_eq.
        -- apply (Hg j y Hj); [rewrite Hother; [done|intros ->; done]|].
           apply (removable_grows db); [done|done| |done]. intros k. cbn. rewrite dom_delete. set_solver.
      * intros j y Hy Hry Hoy. apply Hk; [|by rewrite (removable_unowned db)|done].
        rewrite Hother; [done|]. intros ->. rewrite Hx in Hy. injection Hy as ->. congruence.
      * intros j [Hne Hj]%not_elem_of_cons. rewrite Ho by done. by apply Hother.
      * intros sv t Ht. rewrite !(ends_cons _ _ _ _ _ _ Hx).
        rewrite <-!(ends_ext _ sv db db1 l) by (intros j Hj; apply Hother; intros ->; done).
        destruct (decide (i_service x = sv)) as [<- | Hne].
        -- rewrite Hs in Ht. injection Ht as <-.
           destruct (Hsv (i_service x) (after_failure x s)) as (s' & Hs' & Hb & Hcr); [apply lookup_insert_eq|].
           exists s'. split; [done|]. destruct (after_failure_counts FailedToStart (i_service x) x s) as [E1 E2]; [set_solver|done|]. lia.
        -- destruct (Hsv sv t) as (s' & Hs' & Hb & Hcr); [cbn; by rewrite lookup_insert_ne|].
           exists s'. split; [done|]. unfold ended. rewrite (bool_decide_false (i_service x = sv)) by done. cbn. lia.
    + rewrite (collect_instance_keeps _ _ _ Hx Hr). cbn beta iota.
      destruct (IH db Hnd) as (db' & Hrun & [Hc Hh Hin Hg Hk Ho Hsv]); [intros j Hj; apply Hl; set_solver|].
      exists db'. split; [exact Hrun|]. split; try done.
      * intros j y [-> | Hj]%elem_of_cons Hy Hry; [|by apply (Hg j y)]. congruence.
      * intros j [Hne Hj]%not_elem_of_cons. by apply Ho.
      * intros sv t Ht. rewrite !(ends_cons _ _ _ _ _ _ Hx).
        assert (ended FailedToStart sv x = false) as ->.
        { destruct (ended FailedToStart sv x) eqn:E; [|done]. apply (ended_removable db) in E; [congruence|set_solver]. }
        assert (ended Crashed sv x = false) as ->.
        { destruct (ended Crashed sv x) eqn:E; [|done]. apply (ended_removable db) in E; [congruence|set_solver]. }
        by apply Hsv.
Qed.

(** What a pass over all instances finds. *)
Definition all_instances (db : DB) : list nat := lookupAll (λ _, true) (instances db).

Lemma elem_of_all_instances db i : i ∈ all_instances db ↔ is_Some (instances db !! i).
Proof.
  unfold all_instances. rewrite elem_of_lookupAll. split; [intros (x & Hx & _)|intros [x Hx]]; by exists x.
Qed.

(** C35. When the service of every instance exists, collecting the dead instances raises nothing
    and looks at each once: an instance that is not active, or whose host, connection or owner is
    gone, is removed; an instance that the manager owns and that has none of these stays as it
    is, and no other instance appears or changes.  Each service counts one unsuccessful boot for
    each of its own instances that failed to start, and one crash for each that crashed. *)
Theorem dead_instances_are_collected (db : DB)
    (Hservices : ∀ i x, instances db !! i = Some x → is_Some (services db !! i_service x)) :
  ∃ db', collectDeadConnections db = (Ok tt, db') ∧
    (∀ i x, instances db' !! i = Some x → instances db !! i = Some x ∧ removable db x = false) ∧
    (∀ i x, instances db !! i = Some x → removable db x = false → owner x = None → instances db' !! i = Some x) ∧
    (∀ sv s, services db !! sv = Some s → ∃ s', services db' !! sv = Some s' ∧
       timesBootedUnsuccessfully s' = timesBootedUnsuccessfully s + ends FailedToStart sv db (all_instances db) ∧
       timesCrashed s' = timesCrashed s + ends Crashed sv db (all_instances db)).
Proof.
  destruct (collect_loop (all_instances db) db) as (db' & Hrun & [Hc Hh Hin Hg Hk Ho Hsv]).
  - apply NoDup_lookupAll.
  - intros i [x Hx]%elem_of_all_instances. destruct (Hservices i x Hx) as [s Hs]. by exists x, s.
  - exists db'. split_and!; [|..|done].
    + unfold collectDeadConnections, transaction. rewrite run_bind, run_gets. cbn beta iota.
      fold (all_instances db). by rewrite Hrun.
    + intros i x Hx. pose proof (Hin i x Hx) as Hx'. split; [done|]. destruct (removable db x) eqn:Hr; [|done].
      rewrite (Hg i x) in Hx; [done| |done..]. apply elem_of_all_instances. by exists x.
    + done.
Qed.

(** ** One orphan is enough *)

Lemma count_failure_orphan db x :
  services db !! i_service x = None → (∃ e, (count_failure x db).1 = Raise e) ∨ count_failure x db = (Ok tt, db).
Proof.
  intros Hs. unfold count_failure, set_service, the_service.
  destruct (owner x), (i_state x); try (right; done); left; exists ObjectDoesntExistException;
    rewrite !run_bind, run_gets; cbn beta iota; by rewrite Hs.
Qed.

Lemma collect_instance_orphan db i x :
  instances db !! i = Some x → removable db x = true → services db !! i_service x = None →
  ∃ e, (collect_instance i db).1 = Raise e.
Proof.
  intros Hx Hr Hs. unfold collect_instance. rewrite run_bind, (run_the_instance _ _ _ Hx). cbn beta iota.
  rewrite run_bind. unfold get_state at 1. cbn beta iota. rewrite Hr. unfold whenM. rewrite run_bind.
  destruct (count_failure_orphan db x Hs) as [[e He] | ->].
  - destruct (count_failure x db) as [o db1]. cbn in He. subst o. by exists e.
  - cbn beta iota. exists ObjectDoesntExistException. unfold the_service. rewrite !run_bind, run_gets. cbn beta iota. by rewrite Hs.
Qed.

(** One turn for another instance: it raises, or it leaves alone what the orphan depends on. *)
Lemma collect_instance_other db j :
  (∃ e, (collect_instance j db).1 = Raise e) ∨
  ∃ db1, collect_instance j db = (Ok tt, db1) ∧ connections db1 = connections db ∧ hosts db1 = hosts db ∧
    dom (instances db1) ⊆ dom (instances db) ∧ (∀ k, k ≠ j → instances db1 !! k = instances db !! k) ∧
    (∀ sv, services db !! sv = None → services db1 !! sv = None).
Proof.
  destruct (instances db !! j) as [x|] eqn:Hx.
  2: { left. exists ObjectDoesntExistException. unfold collect_instance, the_instance.
       rewrite !run_bind, run_gets. cbn beta iota. by rewrite Hx. }
  destruct (removable db x) eqn:Hr.
  2: { right. exists db. by rewrite (collect_instance_keeps _ _ _ Hx Hr). }
  destruct (services db !! i_service x) as [s|] eqn:Hs; [right|left; by apply (collect_instance_orphan db j x)].
  eexists. split; [by apply collect_instance_removes|]. split_and!; try done.
  - cbn. rewrite dom_delete. set_solver.
  - intros k Hk. cbn. by rewrite lookup_delete_ne.
  - intros sv Hsv. cbn. rewrite lookup_insert_ne; [done|]. intros <-. congruence.
Qed.

Lemma collect_loop_orphan l i x : ∀ db,
  NoDup l → i ∈ l → instances db !! i = Some x → removable db x = true → services db !! i_service x = None →
  ∃ e, (forM l collect_instance db).1 = Raise e.
Proof.
  induction l as [|j l IH]; intros db Hnd Hi Hx Hr Hs; [by apply not_elem_of_nil in Hi|].
  apply NoDup_cons in Hnd as [Hj Hnd]. rewrite run_forM_cons. destruct (decide (j = i)) as [-> | Hne].
  - destruct (collect_instance_orphan db i x Hx Hr Hs) as [e He].
    destruct (collect_instance i db) as [o db1]. cbn in He. subst o. by exists e.
  - destruct (collect_instance_other db j) as [[e He] | (db1 & -> & Hc & Hh & Hd & Hk & Hsv)].
    + destruct (collect_instance j db) as [o db1]. cbn in He. subst o. by exists e.
    + cbn beta iota. apply (IH db1 Hnd); [set_solver|by rewrite Hk by done| |by apply Hsv].
      by apply (removable_grows db).
Qed.

(** C36. A single instance that is to be removed and whose service is gone stops the collection:
    [collectDeadConnections] raises an exception and its transaction changes nothing, whatever
    the other instances are.  (The reason is a log message that reads the name of the service.) *)
Theorem one_orphan_blocks_collection (db : DB) (i : nat) (x : ServiceInstance)
    (Hx : instances db !! i = Some x) (Hremovable : removable db x = true)
    (Horphan : services db !! i_service x = None) :
  ∃ e, collectDeadConnections db = (Raise e, db).
Proof.
  destruct (collect_loop_orphan (all_instances db) i x db) as [e He]; [apply NoDup_lookupAll| |done..|].
  - apply elem_of_all_instances. by exists x.
  - exists e. unfold collectDeadConnections, transaction. rewrite run_bind, run_gets. cbn beta iota.
    fold (all_instances db). destruct (forM (all_instances db) collect_instance db) as [o db1]. cbn in He. by subst o.
Qed.

(** ** Processes *)

Definition must_stop (shutdownTimeout now : Z) (db : DB) (i : nat) : bool := default false (is_overdue shutdownTimeout now db i).

Lemma check_processes shutdownTimeout now db l : ∀ procs : Processes,
  NoDup l → (∀ i, i ∈ l → is_Some (is_overdue shutdownTimeout now db i)) →
  ∃ killed procs', mapM l (check_process shutdownTimeout now db) procs = (Ok killed, procs') ∧
    procs' = filter (λ kv, ¬ (kv.1 ∈ l ∧ must_stop shutdownTimeout now db kv.1 = true)) procs ∧
    concat killed = filter (λ i, must_stop shutdownTimeout now db i = true ∧ procs !! i = Some true) l.
Proof.
  induction l as [|i l IH]; intros procs Hnd Hl.
  - exists [], procs. split; [done|]. split; [|done]. symmetry. apply map_filter_id. intros k v _ [Hk _]. cbn in Hk. set_solver.
  - apply NoDup_cons in Hnd as [Hi Hnd]. destruct (Hl i) as [b Hb]; [set_solver|].
    assert (must_stop shutdownTimeout now db i = b) as Hm by (unfold must_stop; by rewrite Hb).
    setoid_rewrite run_mapM_cons. unfold check_process at 1. rewrite run_bind, Hb. cbn [lift_option].
    setoid_rewrite (run_mret b procs). cbn beta iota. destruct b.
    + rewrite run_bind, run_gets. cbn beta iota. rewrite run_bind, run_modify. cbn beta iota. rewrite run_mret. cbn beta iota.
      destruct (IH (delete i procs) Hnd) as (killed & procs' & Hrun & -> & Hk); [intros; apply Hl; set_solver|].
      rewrite Hrun. eexists _, _. split; [done|]. split.
      * apply map_eq. intros k. apply option_eq. intros v.
        rewrite !map_lookup_filter_Some, lookup_delete_Some. cbn [fst]. rewrite elem_of_cons.
        destruct (decide (k = i)) as [-> | Hne]; [rewrite Hm; naive_solver|naive_solver].
      * cbn [concat]. rewrite Hk, filter_cons, Hm.
        rewrite (filter_ext_in _ (λ k, must_stop shutdownTimeout now db k = true ∧ procs !! k = Some true) l).
        2: { intros k Hkl. rewrite lookup_delete_ne; [done|]. intros ->. done. }
        destruct (procs !! i) as [[]|]; cbn [default from_option id]; [rewrite decide_True|rewrite decide_False..]; naive_solver.
    + rewrite run_mret. cbn beta iota. destruct (IH procs Hnd) as (killed & procs' & Hrun & -> & Hk); [intros; apply Hl; set_solver|].
      rewrite Hrun. eexists _, _. split; [done|]. split.
      * apply map_filter_ext. intros k v _. cbn [fst]. rewrite elem_of_cons.
        split; [intros H [[-> | Hkl] Hms]; [congruence|by apply H]|naive_solver].
      * cbn [concat app]. rewrite Hk, filter_cons, Hm, decide_False by naive_solver. done.
Qed.

(** What a process needs to be left alone. *)
Definition in_time (shutdownTimeout now : Z) (db : DB) (i : nat) : Prop :=
  ∃ x, instances db !! i = Some x ∧
    (shouldShutdown x = true → ∃ t, shutdownTimestamp x = Some t ∧ now - t <= shutdownTimeout).

(** Shutting down is always stamped with the time ([triggerShutdown]). *)
Definition stamped (db : DB) : Prop :=
  ∀ i x, instances db !! i = Some x → shouldShutdown x = true → is_Some (shutdownTimestamp x).

Lemma must_stop_spec T now db i :
  stamped db → is_Some (is_overdue T now db i) ∧ (must_stop T now db i = true ↔ ¬ in_time T now db i).
Proof.
  intros Hst. unfold must_stop, is_overdue, in_time. destruct (instances db !! i) as [x|] eqn:Hx.
  2: { split; [done|]. split; [|done]. intros _ (x & ? & _). done. }
  destruct (shouldShutdown x) eqn:Hsh.
  - destruct (Hst i x Hx Hsh) as [t Ht]. rewrite Ht. split; [done|]. cbn. rewrite bool_decide_eq_true. split.
    + intros Hlt (y & [= <-] & Hy). destruct (Hy Hsh) as (t' & Ht' & Hle). rewrite Ht in Ht'. injection Ht' as <-. lia.
    + intros Hn. apply Z.nle_gt. intros Hle. apply Hn. exists x. split; [done|]. intros _. by exists t.
  - split; [done|]. cbn. split; [done|]. intros Hn. exfalso. apply Hn. exists x. split; [done|]. congruence.
Qed.

(** C37. What [cleanup] does with processes, before it turns to files.  It raises nothing when
    shutdowns are stamped with a time, and leaves the manager with exactly the processes that
    still run, whose instance exists, and that were not told to stop longer ago than the timeout.
    It kills each process that runs and is not one of these, once, and no other.  (The calls on
    files that follow may raise; they do not change the table of processes.) *)
Theorem cleanup_keeps_live_processes (T now : Z) (db : DB) (procs : Processes) (Hstamped : stamped db) :
  ∃ killed procs', cleanup_processes T now db procs = (Ok killed, procs') ∧ NoDup killed ∧
    (∀ i b, procs' !! i = Some b ↔ procs !! i = Some true ∧ b = true ∧ in_time T now db i) ∧
    (∀ i, i ∈ killed ↔ procs !! i = Some true ∧ ¬ in_time T now db i).
Proof.
  unfold cleanup_processes. set (procs1 := filter (λ kv : nat * bool, kv.2 = true) procs).
  destruct (check_processes T now db (map_to_list procs1).*1 procs1) as (killed & procs' & Hrun & Hp & Hk).
  - apply NoDup_fst_map_to_list.
  - intros i _. by apply must_stop_spec.
  - assert (∀ i b, procs1 !! i = Some b ↔ procs !! i = Some true ∧ b = true) as Hp1.
    { intros i b. unfold procs1. rewrite map_lookup_filter_Some. cbn. naive_solver. }
    assert (∀ i, i ∈ (map_to_list procs1).*1 ↔ procs !! i = Some true) as Hl.
    { intros i. rewrite list_elem_of_fmap. split.
      - intros ([k b] & -> & Hkb%elem_of_map_to_list). by apply Hp1 in Hkb as [? _].
      - intros Hi. exists (i, true). split; [done|]. apply elem_of_map_to_list. by apply Hp1. }
    assert (∀ i, must_stop T now db i = true ↔ ¬ in_time T now db i) as Hm by (intros i; by apply must_stop_spec).
    assert (∀ i, ¬ ¬ in_time T now db i → in_time T now db i) as Hdec.
    { intros i Hn. destruct (must_stop T now db i) eqn:E; [by apply Hm in E|].
      unfold must_stop, is_overdue in E. destruct (instances db !! i) as [x|] eqn:Hx; [|done]. exists x. split; [done|].
      intros Hsh. rewrite Hsh in E. destruct (Hstamped i x Hx Hsh) as [t Ht]. rewrite Ht in E. exists t. split; [done|].
      cbn in E. apply bool_decide_eq_false in E. lia. }
    exists (concat killed), procs'. split_and!.
    + rewrite run_bind, run_modify. cbn beta iota. rewrite run_bind, run_gets. cbn beta iota. fold procs1.
      by rewrite run_bind, Hrun.
    + rewrite Hk. apply NoDup_filter, NoDup_fst_map_to_list.
    + intros i b. rewrite Hp, map_lookup_filter_Some, Hp1, Hl. cbn [fst]. rewrite Hm. naive_solver.
    + intros i. rewrite Hk, list_elem_of_filter, Hl, Hp1, Hm. naive_solver.
Qed.

(** ** Examples *)

Definition worker (st : instance_state) (stop : bool) : ServiceInstance :=
  {| i_host := 2; i_service := 1; i_codebase := None; i_connection := Some 0%nat; owner := None; shouldShutdown := stop;
     shutdownTimestamp := if stop then Some 10 else None; i_state := st; boot_timestamp := None;
     start_timestamp := Some 0; end_timestamp := None; failureReason := "exception" |}.

Definition mixed : DB :=
  {| services := {[1%nat := new_Service "app" ["Master"%string]]};
     hosts := {[2%nat := {| h_connection := 0; placementGroup := "Master"; hostname := "here"; maxGbRam := of_int 4; maxCores := 4;
                            h_gbRamUsed := dzero; h_coresUsed := dzero; maxServiceInstances := None |}]};
     instances := {[3%nat := worker Crashed false; 4%nat := worker FailedToStart false; 5%nat := worker Running false;
                    6%nat := worker Running true]};
     terminals := ∅; connections := {[0%nat]}; next_identity := 7 |}.

Definition without_service : DB := mixed <| services := ∅ |>.

Lemma mixed_services : map_Forall (λ _ x, is_Some (services mixed !! i_service x)) (instances mixed).
Proof. cbn. repeat (apply map_Forall_insert_2; [by eexists|]). apply map_Forall_empty. Qed.

Lemma mixed_instances : map_Forall (λ _ x, shouldShutdown x = true → is_Some (shutdownTimestamp x)) (instances mixed).
Proof. cbn. repeat (apply map_Forall_insert_2; [first [done | by eexists]|]). apply map_Forall_empty. Qed.

Example dead_instances_are_collected_witness :
  ∃ db', collectDeadConnections mixed = (Ok tt, db') ∧
    (∀ i x, instances db' !! i = Some x → instances mixed !! i = Some x ∧ removable mixed x = false) ∧
    (∀ i x, instances mixed !! i = Some x → removable mixed x = false → owner x = None → instances db' !! i = Some x) ∧
    (∀ sv s, services mixed !! sv = Some s → ∃ s', services db' !! sv = Some s' ∧
       timesBootedUnsuccessfully s' = timesBootedUnsuccessfully s + ends FailedToStart sv mixed (all_instances mixed) ∧
       timesCrashed s' = timesCrashed s + ends Crashed sv mixed (all_instances mixed)).
Proof. exact (dead_instances_are_collected mixed mixed_services). Defined.

Example mixed_counts : ends FailedToStart 1 mixed (all_instances mixed) = 1 ∧ ends Crashed 1 mixed (all_instances mixed) = 1.
Proof. by vm_compute. Qed.

Lemma without_service_removable : removable without_service (worker Crashed false) = true.
Proof. by vm_compute. Qed.

Example one_orphan_blocks_collection_witness : ∃ e, collectDeadConnections without_service = (Raise e, without_service).
Proof.
  exact (one_orphan_blocks_collection without_service 3 (worker Crashed false) eq_refl without_service_removable eq_refl).
Defined.

(** Processes of the last two, of an instance that does not exist, and one that has ended. *)
Definition some_processes : Processes := {[3%nat := false; 5%nat := true; 6%nat := true; 9%nat := true]}.

Example cleanup_keeps_live_processes_witness :
  ∃ killed procs', cleanup_processes 5 20 mixed some_processes = (Ok killed, procs') ∧ NoDup killed ∧
    (∀ i b, procs' !! i = Some b ↔ some_processes !! i = Some true ∧ b = true ∧ in_time 5 20 mixed i) ∧
    (∀ i, i ∈ killed ↔ some_processes !! i = Some true ∧ ¬ in_time 5 20 mixed i).
Proof. exact (cleanup_keeps_live_processes 5 20 mixed some_processes mixed_instances). Defined.

Example cleanup_kills : ∃ procs', cleanup_processes 5 20 mixed some_processes = (Ok [6; 9]%nat, procs') ∧ procs' = {[5%nat := true]}.
Proof. eexists. split; [refine (outcome_eta _ _ _)|]; by vm_compute. Qed.
