(* ===== verification/Logfiles.v ===== *)
(** * The log files of services (logfiles.py, SubprocessServiceManager.py)

    Names of log files, what is known about the files of a directory, moving the logs of dead
    instances away and deleting logs when there are too many.  The two directories are maps from
    names to files; nobody else touches them while a method runs, and moving a file succeeds.
    Names consist of ASCII characters. *)

From Stdlib Require Import Lia Ascii String.
From stdpp Require Import options pretty.
From S2P Require Import Prelude Services ServiceManager.

Local Open Scope Z_scope.

(** ** Names

    The whole name has to match: anything, a dash, digits, [.log], and perhaps a dot and digits. *)

Abbreviation chars := (list ascii).

Definition is_digit (c : ascii) : bool := bool_decide (48 <= N.to_nat (N_of_ascii c) <= 57)%nat.

(** [int] of a sequence of digits, continued from a number *)
Fixpoint int_from (acc : N) (ds : chars) : N :=
  match ds with
  | [] => acc
  | c :: ds => int_from (10 * acc + (N_of_ascii c - 48))%N ds
  end.
Definition int_of (ds : chars) : N := int_from 0 ds.

(** The longest prefix of digits; the pattern never gives one back, as no digit follows it. *)
Fixpoint span_digits (l : chars) : chars * chars :=
  match l with
  | [] => ([], [])
  | c :: l' => if is_digit c then let (ds, rest) := span_digits l' in (c :: ds, rest) else ([], l)
  end.

Definition dot_log : chars := list_ascii_of_string ".log".

(** An optional dot with digits, at the end of the name. *)
Definition match_backup (l : chars) : option (option N) :=
  match l with
  | [] => Some None
  | c :: l =>
      if bool_decide (c = "."%char) then
        match span_digits l with
        | ((_ :: _) as ds, []) => Some (Some (int_of ds))
        | _ => None
        end
      else None
  end.

(** What follows the name of the service. *)
Definition match_tail (l : chars) : option (N * option N) :=
  match l with
  | [] => None
  | c :: l =>
      if bool_decide (c = "-"%char) then
        match span_digits l with
        | ((_ :: _) as ds, rest) =>
            if bool_decide (take 4 rest = dot_log) then
              backup ← match_backup (drop 4 rest); Some (int_of ds, backup)
            else None
        | _ => None
        end
      else None
  end.

(** The first group takes as much as it can, but no line end. *)
Fixpoint match_name (l : chars) : option (chars * N * option N) :=
  match l with
  | [] => None
  | c :: l' =>
      match (if bool_decide (c = "010"%char) then None else match_name l') with
      | Some (s, i, b) => Some (c :: s, i, b)
      | None => '(i, b) ← match_tail l; Some ([], i, b)
      end
  end.

Definition parseLogfileName (fname : string) : option (string * N * option N) :=
  '(s, i, b) ← match_name (list_ascii_of_string fname); Some (string_of_list_ascii s, i, b).

(** [service.name + "-" + str(instanceIdentity) + ".log"], and what the handler of a process
    appends to the names of its older logs *)
Definition logfileName (service : string) (instance : N) : string := service +:+ "-" +:+ pretty instance +:+ ".log".
Definition backup_suffix (backup : option N) : string :=
  match backup with Some n => "." +:+ pretty n | None => "" end.

(** *** Printing and reading numbers *)

Lemma list_ascii_app s t : list_ascii_of_string (s +:+ t) = list_ascii_of_string s ++ list_ascii_of_string t.
Proof. induction s as [|c s IH]; [done|]. exact (f_equal (cons c) IH). Qed.

Lemma pretty_char_digit x : (x < 10)%N → is_digit (pretty_N_char x) = true ∧ (N_of_ascii (pretty_N_char x) - 48 = x)%N.
Proof.
  intros Hx. assert (x ∈ [0;1;2;3;4;5;6;7;8;9]%N) as Hin by (rewrite !elem_of_cons; lia).
  rewrite !elem_of_cons, elem_of_nil in Hin. naive_solver.
Qed.

Lemma pretty_go_digits x : ∀ s,
  Forall (λ c, is_digit c = true) (list_ascii_of_string s) →
  Forall (λ c, is_digit c = true) (list_ascii_of_string (pretty_N_go x s)) ∧
  int_of (list_ascii_of_string (pretty_N_go x s)) = int_from x (list_ascii_of_string s).
Proof.
  induction (N.lt_wf_0 x) as [x _ IH]. intros s Hs. destruct (decide (x = 0)%N) as [-> | Hne].
  - by rewrite pretty_N_go_0.
  - rewrite pretty_N_go_step by lia. destruct (pretty_char_digit (x `mod` 10)) as [Hd Hv]; [by apply N.mod_lt|].
    destruct (IH (x `div` 10)%N) with (s := String (pretty_N_char (x `mod` 10)) s) as [Hall Hval].
    + apply N.div_lt; lia.
    + by constructor.
    + split; [done|]. rewrite Hval. cbn [list_ascii_of_string int_from]. rewrite Hv. by rewrite <-N.div_mod.
Qed.

Lemma pretty_digits n : Forall (λ c, is_digit c = true) (list_ascii_of_string (pretty n)) ∧
  int_of (list_ascii_of_string (pretty n)) = n ∧ list_ascii_of_string (pretty n) ≠ [].
Proof.
  unfold pretty, pretty_N. case_decide as Hn; [subst; split; [repeat constructor|done]|].
  destruct (pretty_go_digits n "") as [Hd Hv]; [constructor|]. split; [done|]. split; [by rewrite Hv|].
  intros E. rewrite E in Hv. cbn in Hv. lia.
Qed.

(** *** Matching *)

Lemma span_digits_app ds rest :
  Forall (λ c, is_digit c = true) ds → span_digits rest = ([], rest) → span_digits (ds ++ rest) = (ds, rest).
Proof. induction 1 as [|c ds Hc _ IH]; intros Hr; [done|]. cbn. by rewrite Hc, (IH Hr). Qed.

Lemma match_name_no_dash l : "-"%char ∉ l → match_name l = None.
Proof.
  induction l as [|c l IH]; [done|]. intros [Hc Hl]%not_elem_of_cons. cbn [match_name]. rewrite (IH Hl).
  unfold match_tail. rewrite (bool_decide_false (c = "-"%char)) by congruence. by destruct (bool_decide _).
Qed.

Lemma digits_no_dash ds : Forall (λ c, is_digit c = true) ds → "-"%char ∉ ds.
Proof. rewrite Forall_forall. intros Hd Hin. by specialize (Hd _ Hin). Qed.

Definition backup_chars (backup : option N) : chars := list_ascii_of_string (backup_suffix backup).
Definition tail_chars (i : N) (backup : option N) : chars :=
  list_ascii_of_string (pretty i) ++ dot_log ++ backup_chars backup.

Lemma match_backup_chars backup : match_backup (backup_chars backup) = Some backup.
Proof.
  destruct backup as [n|]; [|done]. unfold backup_chars, backup_suffix. rewrite list_ascii_app. cbn [list_ascii_of_string app match_backup].
  rewrite bool_decide_true by done. destruct (pretty_digits n) as (Hd & Hv & Hne).
  pose proof (span_digits_app _ [] Hd eq_refl) as Hspan. rewrite app_nil_r in Hspan. rewrite Hspan.
  destruct (list_ascii_of_string (pretty n)); [done|]. exact (f_equal (λ k, Some (Some k)) Hv).
Qed.

Lemma match_tail_chars i backup : match_tail ("-"%char :: tail_chars i backup) = Some (i, backup).
Proof.
  unfold match_tail, tail_chars. rewrite bool_decide_true by done. destruct (pretty_digits i) as (Hd & Hv & Hne).
  rewrite (span_digits_app _ (dot_log ++ backup_chars backup) Hd) by done.
  destruct (list_ascii_of_string (pretty i)); [done|].
  rewrite bool_decide_true by done. change (drop 4 (dot_log ++ backup_chars backup)) with (backup_chars backup). by rewrite match_backup_chars, <-Hv.
Qed.

Lemma tail_chars_no_dash i backup : "-"%char ∉ tail_chars i backup.
Proof.
  unfold tail_chars, backup_chars. rewrite !not_elem_of_app. split_and!.
  - apply digits_no_dash, pretty_digits.
  - by apply (bool_decide_eq_true_1 _).
  - destruct backup as [n|]; cbn [backup_suffix]; [|by apply not_elem_of_nil]. rewrite list_ascii_app, not_elem_of_app.
    split; [by apply (bool_decide_eq_true_1 _)|apply digits_no_dash, pretty_digits].
Qed.

Lemma match_name_spec s i backup :
  "010"%char ∉ s → match_name (s ++ "-"%char :: tail_chars i backup) = Some (s, i, backup).
Proof.
  induction s as [|c s IH]; cbn [app match_name].
  - intros _. rewrite bool_decide_false by done. by rewrite (match_name_no_dash _ (tail_chars_no_dash i backup)), match_tail_chars.
  - intros [Hc Hs]%not_elem_of_cons. rewrite bool_decide_false by congruence. by rewrite (IH Hs).
Qed.

(** C39. The name of a log file tells whose it is: for every service whose name has no line end,
    whatever dashes, dots and digits it has, every instance and every number of an older log, the
    parser gives back the service, the instance and the number.  So no two of them share a name. *)
Theorem log_names_roundtrip (service : string) (instance : N) (backup : option N)
    (Hname : "010"%char ∉ list_ascii_of_string service) :
  parseLogfileName (logfileName service instance +:+ backup_suffix backup) = Some (service, instance, backup).
Proof.
  unfold parseLogfileName, logfileName. rewrite !list_ascii_app. rewrite <-!app_assoc.
  pose proof (match_name_spec _ instance backup Hname) as Hm. unfold tail_chars, backup_chars, dot_log in Hm.
  cbn [list_ascii_of_string app] in *. rewrite Hm. cbn. by rewrite string_of_list_ascii_of_string.
Qed.

Example log_names_roundtrip_witness :
  parseLogfileName (logfileName "my-app-7.log" 12 +:+ backup_suffix (Some 3%N)) = Some ("my-app-7.log"%string, 12%N, Some 3%N).
Proof. apply log_names_roundtrip. by apply (bool_decide_eq_true_1 _). Defined.

(** ** Files and what is known about them *)

Record File := { f_size : Z; f_modtime : Z }.
Abbreviation Directory := (gmap string File).

(** [cached] holds size and time of a log that is not active. *)
Record Logfile := {
  filename : string;
  l_service : string;
  l_instance : N;
  l_backupCount : N;
  isOld : bool;
  cached : option File;
}.

Definition log_isActive (backupCount : N) (old : bool) : bool := bool_decide (backupCount = 0%N) && negb old.

(** [Logfile(filename, path)] of a file that is there; [None] if it raises [ValueError] *)
Definition new_Logfile (old : bool) (fname : string) (file : File) : option Logfile :=
  '(s, i, b) ← parseLogfileName fname;
  let backupCount := default 0%N b in
  Some {| filename := fname; l_service := s; l_instance := i; l_backupCount := backupCount; isOld := old;
          cached := if log_isActive backupCount old then None else Some file |}.

Record LogfileSet := {
  _service : string;
  _logfilesByInstance : gmap N (gmap string Logfile);     (* sets of logs, by their name *)
  _size : Z;
  _len : Z;
  _oldest : option Logfile;
}.
#[export] Instance LogfileSet_settable : Settable LogfileSet := λ r,
  {| _service := _service r; _logfilesByInstance := _logfilesByInstance r; _size := _size r; _len := _len r;
     _oldest := _oldest r |}.

Definition new_LogfileSet (service : string) : LogfileSet :=
  {| _service := service; _logfilesByInstance := ∅; _size := 0; _len := 0; _oldest := None |}.

Definition instanceCount (s : LogfileSet) : Z := Z.of_nat (size (_logfilesByInstance s)).

(** A directory, and the sets that were made of it. *)
Record Store := { dir : Directory; sets : gmap string LogfileSet }.
#[export] Instance Store_settable : Settable Store := λ r, {| dir := dir r; sets := sets r |}.
Abbreviation ML := (M Store).
Definition FileNotFoundError : exn := UserException "FileNotFoundError".

Definition the_set (service : string) : ML LogfileSet :=
  o ← gets (λ st, sets st !! service); lift_option KeyError o.
Definition put_set (s : LogfileSet) : ML unit := modify (λ st, st <| sets ::= <[_service s := s]> |>).

(** [Logfile.size] and [Logfile.modtime] *)
Definition stat (l : Logfile) : ML File :=
  match cached l with
  | Some file => mret file
  | None => o ← gets (λ st, dir st !! filename l); lift_option FileNotFoundError o
  end.
Definition log_exists (l : Logfile) (st : Store) : bool := bool_decide (is_Some (dir st !! filename l)).

(** [Logfile.delete]: the bytes that were freed *)
Definition log_delete (l : Logfile) : ML Z :=
  if log_isActive (l_backupCount l) (isOld l) then mret 0
  else
    there ← gets (log_exists l);
    if (there : bool) then modify (λ st, st <| dir ::= delete (filename l) |>);; file ← stat l; mret (f_size file)
    else mret 0.

Definition addLogfile (s : LogfileSet) (l : Logfile) : ML LogfileSet :=
  if bool_decide (l_service l ≠ _service s) then raise ValueError
  else
    let logs := default ∅ (_logfilesByInstance s !! l_instance l) in
    if bool_decide (is_Some (logs !! filename l)) then mret s
    else
      let s := s <| _logfilesByInstance ::= <[l_instance l := <[filename l := l]> logs]> |> in
      file ← stat l;
      let s := s <| _size ::= λ n, n + f_size file |> <| _len ::= Z.succ |> in
      older ← match _oldest s with
              | None => mret true
              | Some o => other ← stat o; mret (bool_decide (f_modtime file < f_modtime other))
              end;
      mret (if (older : bool) then s <| _oldest := Some l |> else s).

(** [min] and [max] with a key: the first of the best ones *)
Fixpoint best_from {S A K} (better : K → K → bool) (key : A → M S K) (best : A) (k : K) (l : list A) : M S A :=
  match l with
  | [] => mret best
  | x :: l =>
      k' ← key x;
      if better k' k then best_from better key x k' l else best_from better key best k l
  end.
Definition best_of {S A K} (better : K → K → bool) (key : A → M S K) (l : list A) : M S A :=
  match l with
  | [] => raise ValueError
  | x :: l => k ← key x; best_from better key x k l
  end.

Definition all_logs (s : LogfileSet) : list Logfile :=
  concat ((λ im, (map_to_list im.2).*2) <$> map_to_list (_logfilesByInstance s)).

Definition _updateOldest (s : LogfileSet) : ML LogfileSet :=
  let candidates := all_logs s in
  if bool_decide (length candidates = 0%nat) then mret (s <| _oldest := None |>)
  else
    o ← best_of Z.ltb (λ l, file ← stat l; mret (f_modtime file)) candidates;
    mret (s <| _oldest := Some o |>).

Definition _removeExistingLogfile (s : LogfileSet) (l : Logfile) : ML LogfileSet :=
  file ← stat l;
  let s := s <| _size ::= λ n, n - f_size file |> <| _len ::= Z.pred |> in
  logs ← lift_option KeyError (_logfilesByInstance s !! l_instance l);
  _ ← lift_option KeyError (logs !! filename l);
  let logs := delete (filename l) logs in
  _updateOldest (s <| _logfilesByInstance ::=
    if bool_decide (size logs = 0%nat) then delete (l_instance l) else <[l_instance l := logs]> |>).

(** [LogfileSet.deleteOldest] of one of the sets *)
Definition deleteOldest (service : string) (alwaysRemoveOldest : bool) : ML Z :=
  s ← the_set service;
  match _oldest s with
  | None => mret 0
  | Some toDelete =>
      deletedBytes ← log_delete toDelete;
      there ← gets (log_exists toDelete);
      whenM (alwaysRemoveOldest || negb there) (s' ← _removeExistingLogfile s toDelete; put_set s');;
      mret deletedBytes
  end.

(** ** The quota *)

(** One file of [_collectLogsFromPath]; what is not a log is passed over. *)
Definition collect_log (old : bool) (fname : string) : ML unit :=
  tryM
    (file ← gets (λ st, dir st !! fname);
     file ← lift_option FileNotFoundError file;
     l ← lift_option ValueError (new_Logfile old fname file);
     known ← gets (λ st, sets st !! l_service l);
     let s := default (new_LogfileSet (l_service l)) known in
     put_set s;;
     s' ← addLogfile s l;
     put_set s')
    (λ e, if bool_decide (e ∈ [FileNotFoundError; ValueError]) then mret tt else raise e).

(** The sets of a directory, made anew *)
Definition _collectLogsFromPath (old : bool) : ML unit :=
  modify (λ st, st <| sets := ∅ |>);;
  files ← gets (λ st, (map_to_list (dir st)).*1);
  forM files (collect_log old).

(** [logSet.oldest.modtime] *)
Definition oldest_time (service : string) : ML Z :=
  s ← the_set service;
  l ← lift_option AttributeError (_oldest s);
  file ← stat l;
  mret (f_modtime file).

(** The loop of [_deleteOldestAmongServicesWithAtLeastKInstances]; each turn removes a log, so
    the number of files is enough fuel. *)
Fixpoint delete_oldest_loop (fuel : nat) (bytesToDelete K : Z) (candidates : list string) (totalDeletedBytes : Z) : ML Z :=
  if bool_decide (length candidates = 0%nat) || negb (bool_decide (totalDeletedBytes < bytesToDelete)) then mret totalDeletedBytes
  else
    match fuel with
    | O => raise (UserException "RecursionError")
    | S fuel =>
        oldestLogSet ← best_of Z.ltb oldest_time candidates;
        bytes ← deleteOldest oldestLogSet true;
        s ← the_set oldestLogSet;
        let candidates := if bool_decide (instanceCount s < K) then filter (.≠ oldestLogSet) candidates else candidates in
        delete_oldest_loop fuel bytesToDelete K candidates (totalDeletedBytes + bytes)
    end.

Definition _deleteOldestAmongServicesWithAtLeastKInstances (bytesToDelete K : Z) : ML Z :=
  candidates ← gets (λ st, (map_to_list (filter (λ kv : string * LogfileSet, K <= instanceCount kv.2) (sets st))).*1);
  fuel ← gets (λ st, size (dir st));
  delete_oldest_loop fuel bytesToDelete K candidates 0.

(** The key [(logSet.size, -logSet.oldest.modtime)], and the order of pairs *)
Definition size_and_age (service : string) : ML (Z * Z) :=
  s ← the_set service;
  time ← oldest_time service;
  mret (_size s, - time).
Definition pair_gtb (x y : Z * Z) : bool :=
  bool_decide (y.1 < x.1) || (bool_decide (x.1 = y.1) && bool_decide (y.2 < x.2)).

(** Every turn but the last deletes a file. *)
Fixpoint delete_largest_loop (fuel : nat) (bytesToDelete totalDeletedBytes : Z) : ML Z :=
  if negb (bool_decide (totalDeletedBytes < bytesToDelete)) then mret totalDeletedBytes
  else
    match fuel with
    | O => raise (UserException "RecursionError")
    | S fuel =>
        services ← gets (λ st, (map_to_list (sets st)).*1);
        largestLogSet ← best_of pair_gtb size_and_age services;
        deletedBytes ← deleteOldest largestLogSet true;
        if bool_decide (deletedBytes = 0) then mret totalDeletedBytes
        else delete_largest_loop fuel bytesToDelete (totalDeletedBytes + deletedBytes)
    end.

Definition _deleteFromLargestLogfileSet (bytesToDelete : Z) : ML Z :=
  fuel ← gets (λ st, S (size (dir st)));
  delete_largest_loop fuel bytesToDelete 0.

(** The directory of the logs, and its directory [old] *)
Record Logs := { front : Store; olds : Store }.
#[export] Instance Logs_settable : Settable Logs := λ r, {| front := front r; olds := olds r |}.

Definition getDirectorySize (logs : Logs) : Z := msum f_size (dir (front logs)) + msum f_size (dir (olds logs)).

Definition deleteLogsIfOverQuota (maxBytes : Z) : M Logs Z :=
  zoom front (_collectLogsFromPath false);;
  zoom olds (_collectLogsFromPath true);;
  totalSize ← gets getDirectorySize;
  let bytesToDelete := totalSize - maxBytes in
  bytesToDelete ←
    if bool_decide (0 < bytesToDelete) then
      bytes ← zoom olds (_deleteOldestAmongServicesWithAtLeastKInstances bytesToDelete 2);
      mret (bytesToDelete - bytes)
    else mret bytesToDelete;
  bytesToDelete ←
    if bool_decide (0 < bytesToDelete) then
      bytes ← zoom olds (_deleteOldestAmongServicesWithAtLeastKInstances bytesToDelete 1);
      mret (bytesToDelete - bytes)
    else mret bytesToDelete;
  if bool_decide (0 < bytesToDelete) then
    bytes ← zoom front (_deleteFromLargestLogfileSet bytesToDelete);
    mret (bytesToDelete - bytes)
  else mret bytesToDelete.

(** ** Moving the logs of dead instances *)

Section cleanup.
Context (SERVICE_NAME : string).
Context (startTs : N).

(** [_isLiveService] of an instance *)
Definition _isLiveService (procs : Processes) (i : N) : bool := bool_decide (is_Some (procs !! N.to_nat i)).

(** Whether [cleanupOldLogfiles] moves the file *)
Definition to_move (procs : Processes) (fname : string) : bool :=
  match parseLogfileName fname with
  | None => false
  | Some (service, instanceId, _) =>
      if bool_decide (service = SERVICE_NAME) then bool_decide (instanceId ≠ startTs)
      else negb (_isLiveService procs instanceId)
  end.

(** [shutil.move] replaces a file of the same name. *)
Definition _moveLogfile (fname : string) : M Logs unit :=
  file ← gets (λ logs, dir (front logs) !! fname);
  match file with
  | None => mret tt
  | Some file => modify (λ logs, logs <| front ::= λ st, st <| dir ::= delete fname |> |>
                                      <| olds ::= λ st, st <| dir ::= <[fname := file]> |> |>)
  end.

(** [cleanupOldLogfiles]: whether the logs are within the limit *)
Definition cleanupOldLogfiles (logMaxTotalBytes : Z) (procs : Processes) : M Logs bool :=
  files ← gets (λ logs, (map_to_list (dir (front logs))).*1);
  forM files (λ f, whenM (to_move procs f) (_moveLogfile f));;
  bytesToDelete ← deleteLogsIfOverQuota logMaxTotalBytes;
  mret (negb (bool_decide (0 < bytesToDelete))).
End cleanup.
