(* ===== verification/LogfileTheorems.v ===== *)
(** * What is deleted when there are too many logs

    The sets of logs that are kept in memory describe their directory exactly.  Deleting starts
    with the oldest logs of the services that have most to lose, never touches a log that is being
    written, and accounts for every byte. *)

From Stdlib Require Import Lia List.
From stdpp Require Import options.
From S2P Require Import Prelude Services ServiceManager Logfiles.

Local Open Scope Z_scope.

(** ** The sets and the directory *)

(** What a file name says. *)
Definition service_of (fname : string) : option string := '(s, _, _) ← parseLogfileName fname; Some s.
Definition log_of (old : bool) (d : Directory) (fname : string) : option Logfile :=
  file ← d !! fname; new_Logfile old fname file.
Definition files_of (d : Directory) (service : string) : Directory :=
  filter (λ kv : string * File, service_of kv.1 = Some service) d.
Definition mtime (d : Directory) (l : Logfile) : Z := from_option f_modtime 0 (d !! filename l).
Definition log_in (s : LogfileSet) (i : N) (fname : string) : option Logfile := _logfilesByInstance s !! i ≫= (.!! fname).

(** A set that describes the logs of a service in the files [d]. *)
Record set_ok (old : bool) (d : Directory) (service : string) (s : LogfileSet) : Prop := {
  s_service : _service s = service;
  s_logs : ∀ i fname l, log_in s i fname = Some l ↔
    log_of old d fname = Some l ∧ l_service l = service ∧ l_instance l = i;
  s_nonempty : ∀ i m, _logfilesByInstance s !! i = Some m → m ≠ ∅;
  s_size : _size s = msum f_size (files_of d service);
  s_len : _len s = Z.of_nat (size (files_of d service));
  s_oldest : match _oldest s with
             | None => _logfilesByInstance s = ∅
             | Some o => log_of old d (filename o) = Some o ∧ l_service o = service ∧
                 ∀ fname l, log_of old d fname = Some l → l_service l = service → mtime d o <= mtime d l
             end;
}.

Record matches (old : bool) (d : Directory) (ss : gmap string LogfileSet) : Prop := {
  m_sets : ∀ service s, ss !! service = Some s → set_ok old d service s;
  m_all : ∀ fname l, log_of old d fname = Some l → is_Some (ss !! l_service l);
}.

Lemma new_Logfile_spec old fname file l :
  new_Logfile old fname file = Some l →
  filename l = fname ∧ isOld l = old ∧ service_of fname = Some (l_service l) ∧
  cached l = (if log_isActive (l_backupCount l) old then None else Some file).
Proof.
  unfold new_Logfile, service_of. destruct (parseLogfileName fname) as [[[s i] b]|]; [|done]. by intros [= <-].
Qed.

Lemma new_Logfile_none old fname file : new_Logfile old fname file = None → service_of fname = None.
Proof. unfold new_Logfile, service_of. by destruct (parseLogfileName fname) as [[[s i] b]|]. Qed.

Lemma log_of_Some old d fname l :
  log_of old d fname = Some l → ∃ file, d !! fname = Some file ∧ new_Logfile old fname file = Some l ∧
    filename l = fname ∧ service_of fname = Some (l_service l).
Proof.
  unfold log_of. destruct (d !! fname) as [file|]; [|done]. cbn. intros Hl. exists file.
  destruct (new_Logfile_spec _ _ _ _ Hl) as (? & _ & ? & _). done.
Qed.

Lemma log_of_same old d d' fname : d' !! fname = d !! fname → log_of old d' fname = log_of old d fname.
Proof. unfold log_of. by intros ->. Qed.

Lemma stat_spec old d st fname l file :
  log_of old d fname = Some l → d !! fname = Some file → d ⊆ dir st → stat l st = (Ok file, st).
Proof.
  intros (file' & Hf' & Hnew & Hname & _)%log_of_Some Hf Hsub. rewrite Hf in Hf'. injection Hf' as <-.
  destruct (new_Logfile_spec _ _ _ _ Hnew) as (_ & _ & _ & Hc). unfold stat. rewrite Hc.
  destruct (log_isActive _ _); [|done]. rewrite run_bind, run_gets. cbn beta iota.
  rewrite Hname. by rewrite (lookup_weaken _ _ _ _ Hf Hsub).
Qed.

Lemma mtime_of old d fname l file : log_of old d fname = Some l → d !! fname = Some file → mtime d l = f_modtime file.
Proof. intros (file' & _ & _ & Hname & _)%log_of_Some Hf. unfold mtime. by rewrite Hname, Hf. Qed.

Lemma stat_mtime old d st fname l :
  log_of old d fname = Some l → d ⊆ dir st → (file ← stat l; mret (f_modtime file)) st = (Ok (mtime d l), st).
Proof.
  intros Hl Hsub. destruct (log_of_Some _ _ _ _ Hl) as (file & Hf & _). rewrite run_bind, (stat_spec _ _ _ _ _ _ Hl Hf Hsub).
  cbn beta iota. by rewrite (mtime_of _ _ _ _ _ Hl Hf).
Qed.

(** ** [min] *)

Lemma best_from_spec {S A} (key : A → M S Z) (k : A → Z) st l : ∀ best,
  key best st = (Ok (k best), st) → (∀ x, x ∈ l → key x st = (Ok (k x), st)) →
  ∃ x, best_from Z.ltb key best (k best) l st = (Ok x, st) ∧ x ∈ best :: l ∧ ∀ y, y ∈ best :: l → k x <= k y.
Proof.
  induction l as [|y l IH]; intros best Hb Hl.
  - exists best. split; [done|]. split; [set_solver|]. intros y. rewrite list_elem_of_singleton. by intros ->.
  - cbn [best_from]. rewrite run_bind, (Hl y) by set_solver. cbn beta iota.
    destruct (Z.ltb_spec (k y) (k best)) as [Hlt | Hge].
    + destruct (IH y) as (x & Hrun & Hin & Hmin); [apply Hl; set_solver|intros; apply Hl; set_solver|].
      exists x. split; [done|]. split; [set_solver|]. intros z [-> | Hz]%elem_of_cons; [|by apply Hmin].
      specialize (Hmin y). assert (k x <= k y) by (apply Hmin; set_solver). lia.
    + destruct (IH best) as (x & Hrun & Hin & Hmin); [done|intros; apply Hl; set_solver|].
      exists x. split; [done|]. split; [set_solver|].
      intros z [-> | [-> | Hz]%elem_of_cons]%elem_of_cons; [apply Hmin; set_solver| |apply Hmin; set_solver].
      assert (k x <= k best) by (apply Hmin; set_solver). lia.
Qed.

Lemma min_spec {S A} (key : A → M S Z) (k : A → Z) st l :
  l ≠ [] → (∀ x, x ∈ l → key x st = (Ok (k x), st)) →
  ∃ x, best_of Z.ltb key l st = (Ok x, st) ∧ x ∈ l ∧ ∀ y, y ∈ l → k x <= k y.
Proof.
  destruct l as [|x l]; [done|]. intros _ Hl. unfold best_of. rewrite run_bind, (Hl x) by set_solver. cbn beta iota.
  apply best_from_spec; [apply Hl; set_solver|]. intros; apply Hl; set_solver.
Qed.

(** ** Adding and removing logs *)

Lemma files_of_same d d' service :
  (∀ g, service_of g = Some service → d' !! g = d !! g) → files_of d' service = files_of d service.
Proof.
  intros Hsame. apply map_eq. intros g. apply option_eq. intros file. unfold files_of.
  rewrite !map_lookup_filter_Some. cbn. split; intros [Hg Hs]; (split; [|done]); specialize (Hsame g Hs); congruence.
Qed.

Lemma log_of_transfer old d d' service fname l :
  (∀ g, service_of g = Some service → d' !! g = d !! g) → l_service l = service →
  log_of old d' fname = Some l ↔ log_of old d fname = Some l.
Proof.
  intros Hsame Hs. split; intros Hl; destruct (log_of_Some _ _ _ _ Hl) as (file & _ & _ & _ & Hsv);
    rewrite <-Hl; apply log_of_same; [symmetry|]; apply Hsame; congruence.
Qed.

Lemma set_ok_same old d d' service s :
  (∀ g, service_of g = Some service → d' !! g = d !! g) → set_ok old d service s → set_ok old d' service s.
Proof.
  intros Hsame [Hsv Hlogs Hne Hsize Hlen Hold]. split; [done| |done|..].
  - intros i fname l. rewrite Hlogs. split; intros (Hl & Hs & Hi); (split; [|done]);
      by apply (log_of_transfer old d d' service).
  - by rewrite (files_of_same d d').
  - by rewrite (files_of_same d d').
  - assert (∀ fname l, log_of old d fname = Some l → l_service l = service → mtime d' l = mtime d l) as Hm.
    { intros fname l Hl Hs. destruct (log_of_Some _ _ _ _ Hl) as (file & _ & _ & Hname & Hsvc). unfold mtime.
      rewrite Hname, (Hsame fname) by congruence. done. }
    destruct (_oldest s) as [o|]; [|done]. destruct Hold as (Ho & Hos & Hmin). split_and!; [|done|].
    + by apply (log_of_transfer old d d' service).
    + intros fname l Hl Hls. apply (log_of_transfer old d d' service) in Hl; [|done..].
      rewrite (Hm _ _ Ho Hos), (Hm _ _ Hl Hls). by eapply Hmin.
Qed.

Lemma files_of_insert d fname file service :
  d !! fname = None → service_of fname = Some service →
  files_of (<[fname := file]> d) service = <[fname := file]> (files_of d service) ∧ files_of d service !! fname = None.
Proof.
  intros Hd Hs. unfold files_of. split; [by apply map_filter_insert_True|].
  apply map_lookup_filter_None. by left.
Qed.

Lemma files_of_delete d fname file service :
  d !! fname = Some file → service_of fname = Some service →
  files_of (delete fname d) service = delete fname (files_of d service) ∧ files_of d service !! fname = Some file.
Proof. intros Hd Hs. unfold files_of. split; [apply map_filter_delete|]. by apply map_lookup_filter_Some. Qed.

Lemma log_in_insert s i m fname' l' j fname l :
  default ∅ (_logfilesByInstance s !! i) = m →
  log_in (s <| _logfilesByInstance ::= <[i := <[fname' := l']> m]> |>) j fname = Some l ↔
  (j = i ∧ fname = fname' ∧ l = l') ∨ (¬ (j = i ∧ fname = fname') ∧ log_in s j fname = Some l).
Proof.
  intros <-. unfold log_in. cbn. destruct (decide (j = i)) as [-> | Hj].
  - rewrite lookup_insert_eq. cbn. rewrite lookup_insert_Some.
    destruct (_logfilesByInstance s !! i) as [m|]; cbn; [|rewrite lookup_empty]; naive_solver.
  - rewrite lookup_insert_ne by done. naive_solver.
Qed.

Lemma log_of_insert old d fname file l g l' :
  new_Logfile old fname file = Some l →
  log_of old (<[fname := file]> d) g = Some l' ↔ (g = fname ∧ l' = l) ∨ (g ≠ fname ∧ log_of old d g = Some l').
Proof.
  intros Hnew. unfold log_of. destruct (decide (g = fname)) as [-> | Hne].
  - rewrite lookup_insert_eq. cbn. rewrite Hnew. naive_solver.
  - rewrite lookup_insert_ne by done. naive_solver.
Qed.

(** What [addLogfile] does with the oldest log. *)
Definition add_oldest (d : Directory) (o : option Logfile) (l : Logfile) (file : File) : option Logfile :=
  match o with
  | Some o' => if bool_decide (f_modtime file < mtime d o') then Some l else o
  | None => Some l
  end.

Lemma addLogfile_run old d st service s fname file l :
  set_ok old d service s → d !! fname = None → dir st !! fname = Some file → d ⊆ dir st →
  new_Logfile old fname file = Some l → l_service l = service →
  addLogfile s l st =
    (Ok (s <| _logfilesByInstance ::= <[l_instance l := <[fname := l]> (default ∅ (_logfilesByInstance s !! l_instance l))]> |>
           <| _size ::= λ n, n + f_size file |> <| _len ::= Z.succ |> <| _oldest ::= λ o, add_oldest d o l file |>), st).
Proof.
  intros [Hsv Hlogs Hne Hsize Hlen Hold] Hd Hf Hsub Hnew Hs.
  destruct (new_Logfile_spec _ _ _ _ Hnew) as (Hname & Hisold & Hso & Hc).
  unfold addLogfile. rewrite bool_decide_false by congruence. rewrite Hname.
  rewrite bool_decide_false.
  2: { intros [l' Hl']. assert (log_in s (l_instance l) fname = Some l') as Hin.
       { unfold log_in. destruct (_logfilesByInstance s !! l_instance l); [done|cbn in Hl'; by rewrite lookup_empty in Hl']. }
       apply Hlogs in Hin as [(? & ? & _)%log_of_Some _]. congruence. }
  rewrite run_bind. rewrite (stat_spec old (<[fname := file]> d) st fname l file).
  2: { apply (log_of_insert old d fname file l); [done|]. by left. }
  2: { apply lookup_insert_eq. }
  2: { by apply insert_subseteq_l. }
  cbn beta iota. unfold add_oldest. destruct s as [sv byI sz ln o]. cbn in *. destruct o as [o|]; [|done].
  destruct Hold as (Ho & Hos & _). destruct (log_of_Some _ _ _ _ Ho) as (other & Hother & _).
  rewrite !run_bind, (stat_spec _ _ _ _ _ _ Ho Hother Hsub). cbn beta iota. rewrite run_mret. cbn beta iota.
  rewrite (mtime_of _ _ _ _ _ Ho Hother), run_mret. by destruct (bool_decide (f_modtime file < f_modtime other)).
Qed.

Lemma add_set_ok old d service s fname file l :
  set_ok old d service s → d !! fname = None → new_Logfile old fname file = Some l → l_service l = service →
  set_ok old (<[fname := file]> d) service
    (s <| _logfilesByInstance ::= <[l_instance l := <[fname := l]> (default ∅ (_logfilesByInstance s !! l_instance l))]> |>
       <| _size ::= λ n, n + f_size file |> <| _len ::= Z.succ |> <| _oldest ::= λ o, add_oldest d o l file |>).
Proof.
  intros [Hsv Hlogs Hne Hsize Hlen Hold] Hd Hnew Hs.
  destruct (new_Logfile_spec _ _ _ _ Hnew) as (Hname & _ & Hso & _). rewrite Hs in Hso.
  destruct (files_of_insert d fname file service Hd Hso) as [Hfiles Hfresh].
  assert (∀ g, g ≠ fname → log_of old (<[fname := file]> d) g = log_of old d g) as Hother.
  { intros g Hg. apply log_of_same. by rewrite lookup_insert_ne. }
  assert (mtime (<[fname := file]> d) l = f_modtime file) as Hml by (unfold mtime; by rewrite Hname, lookup_insert_eq).
  assert (∀ g l', log_of old d g = Some l' → mtime (<[fname := file]> d) l' = mtime d l') as Hm.
  { intros g l' (file' & Hg & _ & Hn & _)%log_of_Some. unfold mtime. rewrite Hn, lookup_insert_ne; congruence. }
  split; [done|..].
  - intros i g l'. unfold log_in. cbn. fold (log_in s i g). rewrite (log_of_insert old d fname file l) by done.
    pose proof (log_in_insert s (l_instance l) _ fname l i g l' eq_refl) as Hi. unfold log_in in Hi |- *. cbn in Hi. rewrite Hi.
    fold (log_in s i g). rewrite Hlogs. split; [intros [(-> & -> & ->) | (Hn & Hl' & Hs' & Hi')]|intros ([(-> & ->) | (Hn & Hl')] & Hs' & Hi')].
    + split_and!; [by left|done..].
    + split_and!; [|done..]. right. split; [|done]. intros ->. by apply log_of_Some in Hl' as (? & ? & _); congruence.
    + left. done.
    + right. split; [|done]. by intros [_ ?].
  - intros i m. cbn. rewrite lookup_insert_Some. intros [[<- <-] | [_ Hi]]; [apply insert_non_empty|by eapply Hne].
  - cbn. rewrite Hsize, Hfiles, (msum_insert _ _ _ _ Hfresh). lia.
  - cbn. rewrite Hlen, Hfiles, (map_size_insert_None _ _ _ Hfresh). lia.
  - cbn. unfold add_oldest. destruct (_oldest s) as [o|].
    + destruct Hold as (Ho & Hos & Hmin). pose proof (log_of_Some _ _ _ _ Ho) as (fo & Hfo & _).
      assert (filename o ≠ fname) as Hne' by (intros E; congruence). destruct (Z.lt_ge_cases (f_modtime file) (mtime d o)) as [Hlt | Hge].
      * rewrite bool_decide_true by done. rewrite Hname, (log_of_insert old d fname file l fname l Hnew). split_and!; [by left|done|].
        intros g l' [[-> ->] | [_ Hl']]%(log_of_insert old d fname file l); [lia| |done]. intros Hs'.
        rewrite Hml, (Hm g l' Hl'). specialize (Hmin g l' Hl' Hs'). lia.
      * rewrite bool_decide_false by lia. rewrite Hother by done. split_and!; [done..|].
        intros g l' [[-> ->] | [_ Hl']]%(log_of_insert old d fname file l); [|intros Hs'|done]; rewrite (Hm (filename o) o Ho).
        -- intros _. by rewrite Hml.
        -- rewrite (Hm g l' Hl'). by eapply Hmin.
    + rewrite Hname, (log_of_insert old d fname file l fname l Hnew). split_and!; [by left|done|].
      intros g l' [[-> ->] | [_ Hl']]%(log_of_insert old d fname file l); [lia| |done]. intros Hs'. exfalso.
      assert (log_in s (l_instance l') g = Some l') as Hin by (by apply Hlogs). unfold log_in in Hin. by rewrite Hold, lookup_empty in Hin.
Qed.

Lemma new_set_ok old service d :
  (∀ fname, fname ∈ dom d → service_of fname ≠ Some service) → set_ok old d service (new_LogfileSet service).
Proof.
  intros Hd. assert (files_of d service = ∅) as He.
  { unfold files_of. apply map_empty. intros fname. apply map_lookup_filter_None. right. intros file Hf. apply Hd. by eapply elem_of_dom_2. }
  split; cbn; rewrite ?He; try done.
  intros i fname l. unfold log_in. cbn. rewrite lookup_empty. split; [done|].
  intros ((file & Hf & _ & _ & Hs)%log_of_Some & Hsv & _). apply elem_of_dom_2 in Hf. specialize (Hd _ Hf). congruence.
Qed.

Lemma collect_log_spec old d st fname file :
  matches old d (sets st) → d !! fname = None → dir st !! fname = Some file → d ⊆ dir st →
  ∃ ss, collect_log old fname st = (Ok tt, st <| sets := ss |>) ∧ matches old (<[fname := file]> d) ss.
Proof.
  intros [Hsets Hall] Hd Hf Hsub. unfold collect_log, tryM. rewrite run_bind, run_gets. cbn beta iota.
  rewrite Hf, run_bind, run_lift_option. cbn beta iota.
  destruct (new_Logfile old fname file) as [l|] eqn:Hnew; rewrite run_bind, run_lift_option.
  2: { exists (sets st). split; [by destruct st|]. pose proof (new_Logfile_none _ _ _ Hnew) as Hno. split.
       - intros service s Hs. apply (set_ok_same old d); [|by apply Hsets]. intros g Hg. apply lookup_insert_ne. congruence.
       - intros g l Hl. apply (Hall g). rewrite <-Hl. symmetry. apply log_of_same, lookup_insert_ne. intros <-.
         unfold log_of in Hl. rewrite lookup_insert_eq in Hl. cbn in Hl. congruence. }
  destruct (new_Logfile_spec _ _ _ _ Hnew) as (Hname & _ & Hso & _). set (sv := l_service l) in *.
  cbn beta iota. rewrite run_bind, run_gets. cbn beta iota. fold sv.
  set (s := default (new_LogfileSet sv) (sets st !! sv)).
  assert (set_ok old d sv s) as Hok.
  { unfold s. destruct (sets st !! sv) as [s'|] eqn:Hs; [by apply Hsets|]. apply new_set_ok.
    intros g [file' Hg]%elem_of_dom Hgs. assert (∃ l', log_of old d g = Some l') as [l' Hl'].
    { unfold log_of. rewrite Hg. cbn. destruct (new_Logfile old g file') eqn:E; [by eexists|].
      by rewrite (new_Logfile_none _ _ _ E) in Hgs. }
    destruct (log_of_Some _ _ _ _ Hl') as (_ & _ & _ & _ & Hgs'). destruct (Hall _ _ Hl') as [x Hx]. congruence. }
  unfold put_set. rewrite run_bind, run_modify. cbn beta iota. rewrite run_bind.
  rewrite (addLogfile_run old d _ sv s fname file l Hok Hd) by done. cbn beta iota.
  rewrite run_modify. pose proof (add_set_ok old d sv s fname file l Hok Hd Hnew eq_refl) as Hok'.
  match goal with |- context [<[_ := ?x]>] => set (s' := x) in * end.
  rewrite (s_service _ _ _ _ Hok), (s_service _ _ _ _ Hok').
  exists (<[sv := s']> (sets st)). split; [destruct st; cbn; do 2 f_equal; by rewrite insert_insert_eq|]. split.
  - intros service s2 [[<- <-] | [Hne Hs2]]%lookup_insert_Some; [done|].
    apply (set_ok_same old d); [|by apply Hsets]. intros g Hg. apply lookup_insert_ne. congruence.
  - intros g l' [[-> ->] | [_ Hl']]%(log_of_insert old d fname file l); [|apply Hall in Hl'|done]; apply lookup_insert_is_Some'; [by left|by right].
Qed.

Lemma collect_logs_spec old st files : ∀ d ss,
  matches old d ss → d ⊆ dir st → NoDup files → (∀ f, f ∈ files → is_Some (dir st !! f) ∧ d !! f = None) →
  ∃ d' ss', forM files (collect_log old) (st <| sets := ss |>) = (Ok tt, st <| sets := ss' |>) ∧ matches old d' ss' ∧
    d' ⊆ dir st ∧ ∀ f file, d' !! f = Some file ↔ d !! f = Some file ∨ (f ∈ files ∧ dir st !! f = Some file).
Proof.
  induction files as [|f files IH]; intros d ss Hm Hsub Hnd Hfiles.
  - exists d, ss. split; [done|]. split_and!; [done..|]. set_solver.
  - apply NoDup_cons in Hnd as [Hni Hnd]. destruct (Hfiles f) as [[file Hf] Hd]; [set_solver|].
    destruct (collect_log_spec old d {| dir := dir st; sets := ss |} f file Hm Hd Hf Hsub) as (ss1 & Hrun1 & Hm1).
    assert (collect_log old f (st <| sets := ss |>) = (Ok tt, st <| sets := ss1 |>)) as Hrun by exact Hrun1.
    destruct (IH (<[f := file]> d) ss1 Hm1) as (d' & ss' & Hrun' & Hm' & Hsub' & Hd'); [|done|..].
    + by apply insert_subseteq_l.
    + intros g Hg. destruct (Hfiles g) as [? ?]; [set_solver|]. split; [done|]. rewrite lookup_insert_ne; [done|]. intros ->. done.
    + exists d', ss'. rewrite run_forM_cons, Hrun. split; [exact Hrun'|]. split_and!; [done..|].
      intros g file'. rewrite Hd', lookup_insert_Some, elem_of_cons. destruct (decide (g = f)) as [-> | Hne]; naive_solver.
Qed.

Lemma _collectLogsFromPath_spec old st :
  ∃ ss, _collectLogsFromPath old st = (Ok tt, st <| sets := ss |>) ∧ matches old (dir st) ss.
Proof.
  unfold _collectLogsFromPath. rewrite run_bind, run_modify. cbn beta iota. rewrite run_bind, run_gets. cbn beta iota.
  destruct (collect_logs_spec old st (map_to_list (dir st)).*1 ∅ ∅) as (d' & ss' & Hrun & Hm & Hsub & Hd').
  - split; [done|]. intros f l (file & Hf & _)%log_of_Some. done.
  - apply map_empty_subseteq.
  - apply NoDup_fst_map_to_list.
  - intros f ([k file] & -> & Hf%elem_of_map_to_list)%list_elem_of_fmap. cbn [fst]. by rewrite Hf.
  - exists ss'. split; [exact Hrun|]. assert (d' = dir st) as <-; [|done]. apply map_eq. intros f. apply option_eq. intros file.
    rewrite Hd', lookup_empty, list_elem_of_fmap. split; [naive_solver|]. intros Hf. right. split; [|done].
    exists (f, file). by rewrite elem_of_map_to_list.
Qed.

Lemma elem_of_all_logs s l : l ∈ all_logs s ↔ ∃ i fname, log_in s i fname = Some l.
Proof.
  unfold all_logs, log_in. rewrite list_elem_of_In, in_concat. setoid_rewrite <-list_elem_of_In. split.
  - intros (ls & ((i & m) & -> & Hi%elem_of_map_to_list)%list_elem_of_fmap & Hl). cbn in Hl.
    apply list_elem_of_fmap in Hl as ((f & l') & -> & Hf%elem_of_map_to_list). exists i, f. by rewrite Hi.
  - intros (i & f & Hl). destruct (_logfilesByInstance s !! i) as [m|] eqn:Hi; [|done]. exists (map_to_list m).*2. split.
    + apply list_elem_of_fmap. exists (i, m). split; [done|]. by apply elem_of_map_to_list.
    + apply list_elem_of_fmap. exists (f, l). split; [done|]. by apply elem_of_map_to_list.
Qed.

Lemma updateOldest_spec old d st service s :
  (∀ i fname l, log_in s i fname = Some l ↔ log_of old d fname = Some l ∧ l_service l = service ∧ l_instance l = i) →
  (∀ i m, _logfilesByInstance s !! i = Some m → m ≠ ∅) → d ⊆ dir st →
  ∃ o, _updateOldest s st = (Ok (s <| _oldest := o |>), st) ∧
    match o with
    | None => _logfilesByInstance s = ∅
    | Some o => log_of old d (filename o) = Some o ∧ l_service o = service ∧
        ∀ fname l, log_of old d fname = Some l → l_service l = service → mtime d o <= mtime d l
    end.
Proof.
  intros Hlogs Hne Hsub. unfold _updateOldest. destruct (all_logs s) as [|x ls] eqn:Hall.
  - exists None. split; [done|]. apply map_empty. intros i. apply eq_None_not_Some. intros [m Hm].
    apply (Hne i m Hm). apply map_empty. intros f. apply eq_None_not_Some. intros [l Hl].
    assert (l ∈ all_logs s) as Hin by (apply elem_of_all_logs; exists i, f; unfold log_in; by rewrite Hm).
    rewrite Hall in Hin. by apply not_elem_of_nil in Hin.
  - rewrite bool_decide_false by done. rewrite <-Hall.
    destruct (min_spec (λ l, file ← stat l; mret (f_modtime file)) (mtime d) st (all_logs s)) as (o & Hrun & Hin & Hmin).
    + by rewrite Hall.
    + intros l (i & f & (Hl & _ & _)%Hlogs)%elem_of_all_logs. by eapply stat_mtime.
    + exists (Some o). rewrite run_bind, Hrun. cbn beta iota. split; [done|].
      apply elem_of_all_logs in Hin as (i & f & (Ho & Hos & Hi)%Hlogs). destruct (log_of_Some _ _ _ _ Ho) as (_ & _ & _ & Hf & _).
      rewrite Hf. split_and!; [done..|]. intros g l Hl Hs. apply Hmin, elem_of_all_logs. exists (l_instance l), g. by apply Hlogs.
Qed.

(** The table of a set without a log. *)
Definition without (o : Logfile) (byInstance : gmap N (gmap string Logfile)) : gmap N (gmap string Logfile) :=
  let logs := delete (filename o) (default ∅ (byInstance !! l_instance o)) in
  (if bool_decide (size logs = 0%nat) then delete (l_instance o) else <[l_instance o := logs]>) byInstance.

Lemma log_in_without s o i fname l :
  log_in s (l_instance o) (filename o) = Some o →
  log_in (s <| _logfilesByInstance ::= without o |>) i fname = Some l ↔
  ¬ (i = l_instance o ∧ fname = filename o) ∧ log_in s i fname = Some l.
Proof.
  unfold log_in, without. cbn. destruct (_logfilesByInstance s !! l_instance o) as [m|] eqn:Hm; [|done]. cbn. intros Ho.
  destruct (decide (i = l_instance o)) as [-> | Hi].
  - case_bool_decide as Hsz.
    + apply map_size_empty_inv in Hsz. rewrite lookup_delete_eq. cbn. split; [done|]. rewrite Hm. cbn. intros [Hn Hl].
      assert (delete (filename o) m !! fname = Some l) as Hd by (rewrite lookup_delete_ne; naive_solver).
      by rewrite Hsz, lookup_empty in Hd.
    + rewrite lookup_insert_eq, Hm. cbn. rewrite lookup_delete_Some. naive_solver.
  - assert ((if bool_decide (size (delete (filename o) m) = 0%nat) then delete (l_instance o)
             else <[l_instance o := delete (filename o) m]>) (_logfilesByInstance s) !! i = _logfilesByInstance s !! i) as ->.
    { destruct (bool_decide _); [by apply lookup_delete_ne|by apply lookup_insert_ne]. }
    naive_solver.
Qed.

Lemma without_nonempty o byI i m :
  (∀ i m, byI !! i = Some m → m ≠ ∅) → without o byI !! i = Some m → m ≠ ∅.
Proof.
  intros Hne. unfold without. case_bool_decide as Hsz.
  - intros [_ Hi]%lookup_delete_Some. by eapply Hne.
  - intros [[_ <-] | [_ Hi]]%lookup_insert_Some; [|by eapply Hne]. intros E. by rewrite E, map_size_empty in Hsz.
Qed.

Lemma log_of_delete old d f g l : log_of old (delete f d) g = Some l ↔ g ≠ f ∧ log_of old d g = Some l.
Proof.
  unfold log_of. destruct (decide (g = f)) as [-> | Hne]; [rewrite lookup_delete_eq; naive_solver|].
  rewrite lookup_delete_ne by done. naive_solver.
Qed.

Lemma removeExisting_spec old d st service s o file :
  set_ok old d service s → log_of old d (filename o) = Some o → l_service o = service →
  d !! filename o = Some file → stat o st = (Ok file, st) → delete (filename o) d ⊆ dir st →
  ∃ s', _removeExistingLogfile s o st = (Ok s', st) ∧ set_ok old (delete (filename o) d) service s'.
Proof.
  intros [Hsv Hlogs Hne Hsize Hlen _] Ho Hos Hf Hc Hsub. set (fname := filename o) in *.
  destruct (log_of_Some _ _ _ _ Ho) as (_ & _ & _ & _ & Hfs). rewrite Hos in Hfs.
  destruct (files_of_delete d fname file service Hf Hfs) as [Hfiles Hin].
  assert (log_in s (l_instance o) fname = Some o) as Hino by (by apply Hlogs).
  set (s1 := s <| _size ::= λ n, n - f_size file |> <| _len ::= Z.pred |> <| _logfilesByInstance ::= without o |>).
  assert (∀ i g l, log_in s1 i g = Some l ↔ log_of old (delete fname d) g = Some l ∧ l_service l = service ∧ l_instance l = i) as Hlogs1.
  { intros i g l. rewrite log_of_delete. change (log_in s1 i g) with (log_in (s <| _logfilesByInstance ::= without o |>) i g).
    rewrite log_in_without by done. rewrite Hlogs. fold fname. split; [intros (Hn & Hl & Hs & Hi)|intros ((Hn & Hl) & Hs & Hi)].
    - split_and!; [|done..]. intros ->. apply Hn. split; [|done]. rewrite Ho in Hl. by injection Hl as <-.
    - split_and!; [|done..]. by intros [_ ?]. }
  assert (∀ i m, _logfilesByInstance s1 !! i = Some m → m ≠ ∅) as Hne1 by (intros i m; apply without_nonempty, Hne).
  destruct (updateOldest_spec old (delete fname d) st service s1 Hlogs1 Hne1 Hsub) as (o' & Hrun & Hold').
  exists (s1 <| _oldest := o' |>). split.
  - unfold _removeExistingLogfile. rewrite run_bind, Hc. cbn beta iota. cbv zeta.
    unfold log_in in Hino. destruct (_logfilesByInstance s !! l_instance o) as [m|] eqn:Hm; [|done]. cbn in Hino.
    rewrite run_bind, run_lift_option. cbn [_logfilesByInstance set_field]. rewrite Hm. cbn beta iota.
    rewrite run_bind, run_lift_option. fold fname. rewrite Hino. cbn beta iota. refine (eq_trans _ Hrun).
    unfold s1, without. cbn. rewrite Hm. cbn. by destruct (bool_decide _).
  - split; [done|exact Hlogs1|exact Hne1|..]; cbn.
    + rewrite Hsize, Hfiles, (msum_delete _ _ _ _ Hin). lia.
    + rewrite Hlen, Hfiles, (map_size_delete_Some fname (files_of d service)) by (by exists file).
      assert (size (files_of d service) ≠ 0%nat) by (intros E; apply map_size_empty_inv in E; by rewrite E, lookup_empty in Hin). lia.
    + done.
Qed.

Lemma deleteOldest_spec old st service s o file :
  matches old (dir st) (sets st) → sets st !! service = Some s → _oldest s = Some o →
  log_isActive (l_backupCount o) old = false → dir st !! filename o = Some file →
  ∃ s', deleteOldest service true st =
    (Ok (f_size file), {| dir := delete (filename o) (dir st); sets := <[service := s']> (sets st) |}) ∧
    matches old (delete (filename o) (dir st)) (<[service := s']> (sets st)).
Proof.
  intros [Hsets Hall] Hs Ho Hact Hf. pose proof (Hsets _ _ Hs) as Hok. pose proof (s_oldest _ _ _ _ Hok) as Hold.
  rewrite Ho in Hold. destruct Hold as (Hlo & Hos & _). destruct (log_of_Some _ _ _ _ Hlo) as (file' & Hf' & Hnew & _ & Hfs).
  rewrite Hf in Hf'. injection Hf' as <-. destruct (new_Logfile_spec _ _ _ _ Hnew) as (_ & Hio & _ & Hc). rewrite Hact in Hc.
  set (st1 := {| dir := delete (filename o) (dir st); sets := sets st |}).
  destruct (removeExisting_spec old (dir st) st1 service s o file Hok Hlo Hos Hf) as (s' & Hrun & Hok'); [unfold stat; by rewrite Hc|done|].
  exists s'. split.
  - unfold deleteOldest, the_set. rewrite !run_bind, run_gets. cbn beta iota. rewrite run_lift_option, Hs. cbn beta iota. rewrite Ho.
    assert (log_delete o st = (Ok (f_size file), st1)) as Hdel.
    { unfold log_delete. rewrite Hio, Hact, run_bind, run_gets. cbn beta iota. unfold log_exists.
      rewrite bool_decide_true by (by rewrite Hf). rewrite run_bind, run_modify. cbn beta iota. rewrite run_bind.
      unfold stat. rewrite Hc. done. }
    rewrite run_bind, Hdel. cbn beta iota. rewrite run_bind, run_gets. cbn beta iota. cbn [orb]. unfold whenM.
    rewrite !run_bind, Hrun. cbn beta iota. unfold put_set. rewrite run_modify. cbn beta iota. rewrite run_mret.
    by rewrite (s_service _ _ _ _ Hok').
  - split.
    + intros sv s2 [[<- <-] | [Hne Hs2]]%lookup_insert_Some; [done|]. apply (set_ok_same old (dir st)); [|by apply Hsets].
      intros g Hg. apply lookup_delete_ne. congruence.
    + intros g l [_ Hl]%log_of_delete. apply lookup_insert_is_Some'. right. by eapply Hall.
Qed.

(** ** Trimming the old logs *)

Definition instance_of (service fname : string) : option N :=
  '(s, i, _) ← parseLogfileName fname; if decide (s = service) then Some i else None.
(** The instances of a service that have logs in a directory, and their number. *)
Definition instances_in (d : Directory) (service : string) : gset N :=
  list_to_set (omap (instance_of service) (map_to_list d).*1).
Definition count_in (d : Directory) (service : string) : Z := Z.of_nat (size (instances_in d service)).

(** [d'] is [d] without some logs: for each service the oldest ones, down to [K - 1] instances at most. *)
Record trimmed (K : Z) (d d' : Directory) : Prop := {
  t_sub : d' ⊆ d;
  t_logs : ∀ f, is_Some (d !! f) → d' !! f = None → is_Some (service_of f);
  t_oldest : ∀ f g service file file', d !! f = Some file → d' !! f = None → d' !! g = Some file' →
    service_of f = Some service → service_of g = Some service → f_modtime file <= f_modtime file';
  t_keeps : ∀ service, Z.min (K - 1) (count_in d service) <= count_in d' service;
}.

Lemma elem_of_instances_in d service i :
  i ∈ instances_in d service ↔ ∃ f file, d !! f = Some file ∧ instance_of service f = Some i.
Proof.
  unfold instances_in. rewrite elem_of_list_to_set, list_elem_of_omap. split.
  - intros (f & ([g file] & -> & Hg%elem_of_map_to_list)%list_elem_of_fmap & Hi). by exists g, file.
  - intros (f & file & Hf & Hi). exists f. split; [|done]. apply list_elem_of_fmap. exists (f, file).
    by rewrite elem_of_map_to_list.
Qed.

Lemma instance_of_log old fname file l service :
  new_Logfile old fname file = Some l → instance_of service fname = if decide (l_service l = service) then Some (l_instance l) else None.
Proof. unfold new_Logfile, instance_of. destruct (parseLogfileName fname) as [[[s i] b]|]; [|done]. by intros [= <-]. Qed.

Lemma instance_of_service service f i : instance_of service f = Some i → service_of f = Some service.
Proof.
  unfold instance_of, service_of. destruct (parseLogfileName f) as [[[s j] b]|]; [|done]. cbn. case_decide; [by subst|done].
Qed.

Lemma log_of_instance old d f file service i :
  d !! f = Some file → instance_of service f = Some i → ∃ l, log_of old d f = Some l ∧ l_service l = service ∧ l_instance l = i.
Proof.
  intros Hf Hi. unfold log_of. rewrite Hf. cbn. destruct (new_Logfile old f file) as [l|] eqn:Hnew.
  - rewrite (instance_of_log _ _ _ _ _ Hnew) in Hi. case_decide; [|done]. injection Hi as <-. by exists l.
  - apply new_Logfile_none in Hnew. apply instance_of_service in Hi. congruence.
Qed.

Lemma instanceCount_spec old d service s : set_ok old d service s → instanceCount s = count_in d service.
Proof.
  intros [_ Hlogs Hne _ _ _]. unfold instanceCount, count_in. rewrite <-size_dom. do 2 f_equal. apply set_eq. intros i.
  rewrite elem_of_instances_in. split.
  - intros [m Hm]%elem_of_dom. destruct (map_choose m) as (f & l & Hl); [by eapply Hne|].
    assert (log_in s i f = Some l) as Hin by (unfold log_in; by rewrite Hm). apply Hlogs in Hin as (Hlog & Hs & Hi).
    destruct (log_of_Some _ _ _ _ Hlog) as (file & Hf & Hnew & _). exists f, file. split; [done|].
    rewrite (instance_of_log _ _ _ _ _ Hnew), decide_True by done. by f_equal.
  - intros (f & file & Hf & Hi). destruct (log_of_instance old d f file service i Hf Hi) as (l & Hl & Hs & Hli).
    assert (log_in s i f = Some l) as Hin by (by apply Hlogs). unfold log_in in Hin. apply elem_of_dom.
    by destruct (_logfilesByInstance s !! i).
Qed.

Lemma count_in_delete d f service :
  count_in d service - (if decide (service_of f = Some service) then 1 else 0) <= count_in (delete f d) service.
Proof.
  unfold count_in. case_decide as Hs.
  - assert (∃ i, instances_in d service ⊆ {[i]} ∪ instances_in (delete f d) service) as [i Hi].
    { destruct (instance_of service f) as [i|] eqn:Hi.
      - exists i. intros j (g & file & Hg & Hj)%elem_of_instances_in. rewrite elem_of_union, elem_of_instances_in.
        destruct (decide (g = f)) as [-> | Hne]; [left; set_solver|]. right. exists g, file. by rewrite lookup_delete_ne.
      - exists 0%N. intros j (g & file & Hg & Hj)%elem_of_instances_in. rewrite elem_of_union, elem_of_instances_in. right.
        exists g, file. rewrite lookup_delete_ne; [done|]. intros <-. congruence. }
    apply subseteq_size in Hi. rewrite size_union_alt, size_singleton in Hi.
    assert (size (instances_in (delete f d) service ∖ {[i]}) ≤ size (instances_in (delete f d) service))%nat by (apply subseteq_size; set_solver).
    lia.
  - enough (size (instances_in d service) ≤ size (instances_in (delete f d) service))%nat by lia. apply subseteq_size.
    intros j (g & file & Hg & Hj)%elem_of_instances_in. apply elem_of_instances_in. exists g, file.
    rewrite lookup_delete_ne; [done|]. intros <-. by apply instance_of_service in Hj.
Qed.

Lemma count_in_pos d service : 0 < count_in d service → ∃ f file i, d !! f = Some file ∧ instance_of service f = Some i.
Proof.
  intros Hc. destruct (set_choose_L (instances_in d service)) as [i Hi].
  - intros E. unfold count_in in Hc. rewrite E, size_empty in Hc. lia.
  - apply elem_of_instances_in in Hi as (f & file & Hf & Hi). by exists f, file, i.
Qed.

Lemma trimmed_refl K d : trimmed K d d.
Proof. split; [done|..]; [intros f [file Hf]|intros f g service file file' Hf|intros; lia]; congruence. Qed.

Lemma trimmed_step K d d' f file service :
  trimmed K (delete f d) d' → d !! f = Some file → service_of f = Some service → K <= count_in d service →
  (∀ g file', d !! g = Some file' → service_of g = Some service → f_modtime file <= f_modtime file') → trimmed K d d'.
Proof.
  intros [Hsub Hlogs Hold Hkeep] Hf Hs Hc Hmin. assert (delete f d ⊆ d) as Hdel by apply delete_subseteq.
  assert (∀ g, g ≠ f → delete f d !! g = d !! g) as Hne by (intros; by apply lookup_delete_ne). split.
  - by etrans.
  - intros g Hg Hg'. destruct (decide (g = f)) as [-> | Hgf]; [by rewrite Hs|]. apply Hlogs; [by rewrite Hne|done].
  - intros g h sv file1 file2 Hg Hg' Hh Hsg Hsh. destruct (decide (g = f)) as [-> | Hgf].
    + rewrite Hf in Hg. injection Hg as <-. rewrite Hs in Hsg. injection Hsg as <-. eapply Hmin; [|done].
      by eapply lookup_weaken, Hdel; eapply lookup_weaken.
    + eapply (Hold g h sv); [by rewrite Hne|done..].
  - intros sv. specialize (Hkeep sv). pose proof (count_in_delete d f sv) as Hdc. case_decide as Hd; [|lia].
    rewrite Hs in Hd. injection Hd as <-. lia.
Qed.

(** *** The loop *)

Definition total_size (d : Directory) : Z := msum f_size d.

Lemma some_log_oldest old d service s :
  set_ok old d service s → 0 < count_in d service → ∃ o file, _oldest s = Some o ∧ log_of old d (filename o) = Some o ∧
    l_service o = service ∧ d !! filename o = Some file ∧ service_of (filename o) = Some service ∧
    ∀ g file', d !! g = Some file' → service_of g = Some service → f_modtime file <= f_modtime file'.
Proof.
  intros Hok Hc. pose proof (instanceCount_spec _ _ _ _ Hok) as Hn. pose proof (s_oldest _ _ _ _ Hok) as Hold.
  destruct (_oldest s) as [o|].
  - destruct Hold as (Ho & Hos & Hmin). destruct (log_of_Some _ _ _ _ Ho) as (file & Hf & _ & _ & Hfs). rewrite Hos in Hfs.
    exists o, file. split_and!; [done..|]. intros g file' Hg Hgs. unfold service_of in Hgs.
    destruct (parseLogfileName g) as [[[sv i] b]|] eqn:Hp; [|done]. injection Hgs as ->.
    destruct (log_of_instance old d g file' service i Hg) as (l & Hl & Hls & _).
    { unfold instance_of. rewrite Hp. cbn. by rewrite decide_True. }
    specialize (Hmin g l Hl Hls). rewrite (mtime_of _ _ _ _ _ Hl Hg) in Hmin. rewrite (mtime_of _ _ _ _ _ Ho Hf) in Hmin. done.
  - unfold instanceCount in Hn. rewrite Hold, map_size_empty in Hn. lia.
Qed.

Lemma run_the_set st service s : sets st !! service = Some s → the_set service st = (Ok s, st).
Proof. intros Hs. unfold the_set. by rewrite run_bind, run_gets, Hs. Qed.

Lemma oldest_time_spec old st service s o :
  set_ok old (dir st) service s → sets st !! service = Some s → _oldest s = Some o →
  oldest_time service st = (Ok (mtime (dir st) o), st).
Proof.
  intros Hok Hs Ho. pose proof (s_oldest _ _ _ _ Hok) as Hold. rewrite Ho in Hold. destruct Hold as (Hlo & _ & _).
  unfold oldest_time. rewrite run_bind, (run_the_set _ _ _ Hs). cbn beta iota. rewrite run_bind, run_lift_option, Ho. cbn beta iota.
  by eapply stat_mtime.
Qed.

Definition candidates_ok (K : Z) (st : Store) (cands : list string) : Prop :=
  ∀ service, service ∈ cands ↔ ∃ s, sets st !! service = Some s ∧ K <= instanceCount s.

Lemma candidate_count K st cands service :
  matches true (dir st) (sets st) → candidates_ok K st cands → 1 <= K → service ∈ cands ↔ K <= count_in (dir st) service.
Proof.
  intros [Hsets Hall] Hc HK. rewrite (Hc service). split.
  - intros (s & Hs & Hn). by rewrite (instanceCount_spec _ _ _ _ (Hsets _ _ Hs)) in Hn.
  - intros Hn. destruct (count_in_pos (dir st) service) as (f & file & i & Hf & Hi); [lia|].
    destruct (log_of_instance true _ _ _ _ _ Hf Hi) as (l & Hl & Hls & _). destruct (Hall _ _ Hl) as [s Hs]. rewrite Hls in Hs.
    exists s. split; [done|]. by rewrite (instanceCount_spec _ _ _ _ (Hsets _ _ Hs)).
Qed.

Lemma pick_oldest K st cands :
  matches true (dir st) (sets st) → candidates_ok K st cands → 1 <= K → cands ≠ [] →
  ∃ service s, best_of Z.ltb oldest_time cands st = (Ok service, st) ∧ service ∈ cands ∧ sets st !! service = Some s.
Proof.
  intros [Hsets Hall] Hc HK Hne.
  destruct (min_spec oldest_time (λ sv, from_option (λ s, from_option (mtime (dir st)) 0 (_oldest s)) 0 (sets st !! sv)) st cands)
    as (service & Hrun & Hin & _); [done| |].
  - intros sv Hsv. apply Hc in Hsv as (s & Hs & Hn). pose proof (Hsets _ _ Hs) as Hok.
    destruct (some_log_oldest _ _ _ _ Hok) as (o & file & Ho & _).
    { rewrite <-(instanceCount_spec _ _ _ _ Hok). lia. }
    rewrite Hs. cbn. rewrite Ho. cbn. by eapply oldest_time_spec.
  - exists service. pose proof Hin as (s & Hs & _)%Hc. by exists s.
Qed.

Lemma candidates_after K st cands service s' d' :
  candidates_ok K st cands → service ∈ cands →
  candidates_ok K {| dir := d'; sets := <[service := s']> (sets st) |}
    (if bool_decide (instanceCount s' < K) then filter (.≠ service) cands else cands).
Proof.
  intros Hc Hin sv. cbn. destruct (decide (sv = service)) as [-> | Hne].
  - rewrite lookup_insert_eq. case_bool_decide as Hlt.
    + rewrite list_elem_of_filter. split; [by intros [? _]|]. intros (s & [= <-] & ?). lia.
    + split; [|done]. intros _. exists s'. split; [done|lia].
  - rewrite lookup_insert_ne by done. rewrite <-(Hc sv). case_bool_decide; [|done]. rewrite list_elem_of_filter. naive_solver.
Qed.

Lemma delete_oldest_loop_spec bytes K fuel : ∀ st cands total,
  matches true (dir st) (sets st) → candidates_ok K st cands → 1 <= K → (size (dir st) ≤ fuel)%nat →
  ∃ st', delete_oldest_loop fuel bytes K cands total st = (Ok (total + (total_size (dir st) - total_size (dir st'))), st') ∧
    matches true (dir st') (sets st') ∧ trimmed K (dir st) (dir st') ∧
    (bytes <= total + (total_size (dir st) - total_size (dir st')) ∨ ∀ service, count_in (dir st') service < K).
Proof.
  induction fuel as [|fuel IH]; intros st cands total Hm Hc HK Hfuel; cbn [delete_oldest_loop];
    destruct (bool_decide (length cands = 0%nat) || negb (bool_decide (total < bytes))) eqn:Hstop.
  1, 3: exists st; rewrite run_mret, Z.sub_diag, Z.add_0_r; (split; [done|]); (split; [done|]); (split; [apply trimmed_refl|]);
    apply orb_true_iff in Hstop as [He%bool_decide_eq_true_1 | Hb];
    [right; intros service; apply Z.nle_gt; rewrite <-(candidate_count K st cands service Hm Hc HK);
     apply nil_length_inv in He as ->; by apply not_elem_of_nil
    |left; apply negb_true_iff, bool_decide_eq_false_1 in Hb; lia].
  all: apply orb_false_iff in Hstop as [He%bool_decide_eq_false_1 _];
    destruct (pick_oldest K st cands Hm Hc HK) as (service & s & Hpick & Hin & Hs); [by intros ->|];
    pose proof (proj1 (candidate_count K st cands service Hm Hc HK) Hin) as HKc;
    destruct (some_log_oldest _ _ _ _ (m_sets _ _ _ Hm _ _ Hs)) as (o & file & Ho & _ & _ & Hf & Hfs & Hmin); [lia|].
  - apply Nat.le_0_r, map_size_empty_inv in Hfuel. by rewrite Hfuel, lookup_empty in Hf.
  - destruct (deleteOldest_spec true st service s o file Hm Hs Ho) as (s' & Hdel & Hm'); [by rewrite andb_false_r || apply andb_false_r|done|].
    rewrite run_bind, Hpick. cbn beta iota. rewrite run_bind, Hdel. cbn beta iota.
    set (st1 := {| dir := delete (filename o) (dir st); sets := <[service := s']> (sets st) |}) in *.
    rewrite run_bind, (run_the_set st1 service s') by apply lookup_insert_eq. cbn beta iota. cbv zeta.
    destruct (IH st1 (if bool_decide (instanceCount s' < K) then filter (.≠ service) cands else cands) (total + f_size file))
      as (st' & Hrun & Hm2 & Ht & Hend); [done|by apply candidates_after|done| |].
    { cbn. rewrite map_size_delete_Some by (by exists file). lia. }
    assert (total_size (dir st) = f_size file + total_size (dir st1)) as Hsum by (by apply msum_delete).
    exists st'. rewrite Hrun, Hsum. split; [do 2 f_equal; lia|]. split; [done|]. split.
    + exact (trimmed_step K _ _ _ _ _ Ht Hf Hfs HKc Hmin).
    + destruct Hend as [Hend | Hend]; [left; lia|by right].
Qed.

Lemma deleteOldestAmong_spec bytes K st :
  matches true (dir st) (sets st) → 1 <= K →
  ∃ st', _deleteOldestAmongServicesWithAtLeastKInstances bytes K st = (Ok (total_size (dir st) - total_size (dir st')), st') ∧
    matches true (dir st') (sets st') ∧ trimmed K (dir st) (dir st') ∧
    (bytes <= total_size (dir st) - total_size (dir st') ∨ ∀ service, count_in (dir st') service < K).
Proof.
  intros Hm HK. unfold _deleteOldestAmongServicesWithAtLeastKInstances. rewrite run_bind, run_gets. cbn beta iota.
  rewrite run_bind, run_gets. cbn beta iota. refine (delete_oldest_loop_spec bytes K _ st _ 0 Hm _ HK (Nat.le_refl _)).
  intros service. rewrite list_elem_of_fmap. split.
  - intros ([sv s] & -> & Hs%elem_of_map_to_list). apply map_lookup_filter_Some in Hs as [Hs HKs]. by exists s.
  - intros (s & Hs & HKs). exists (service, s). split; [done|]. apply elem_of_map_to_list. by apply map_lookup_filter_Some.
Qed.

(** ** The directory of the active logs *)

(** [d'] is [d] without some logs that are not active. *)
Definition cleared (d d' : Directory) : Prop :=
  d' ⊆ d ∧ ∀ f, is_Some (d !! f) → d' !! f = None →
    ∃ service i n, parseLogfileName f = Some (service, i, Some n) ∧ n ≠ 0%N.

Lemma best_from_any {S A K} (better : K → K → bool) (key : A → M S K) (P : A → Prop) (E : exn → Prop) st l : ∀ best k,
  P best → (∀ x, x ∈ l → ∃ r, key x st = (r, st) ∧ match r with Ok _ => P x | Raise e => E e end) →
  ∃ r, best_from better key best k l st = (r, st) ∧ match r with Ok x => P x | Raise e => E e end.
Proof.
  induction l as [|y l IH]; intros best k Hb Hl; [by exists (Ok best)|]. cbn [best_from]. rewrite run_bind.
  destruct (Hl y) as ([k' | e] & -> & He); [set_solver| |by exists (Raise e)]. cbn beta iota.
  destruct (better k' k); apply IH; try done; intros; apply Hl; set_solver.
Qed.

Lemma best_of_any {S A K} (better : K → K → bool) (key : A → M S K) (P : A → Prop) (E : exn → Prop) st l :
  E ValueError → (∀ x, x ∈ l → ∃ r, key x st = (r, st) ∧ match r with Ok _ => P x | Raise e => E e end) →
  ∃ r, best_of better key l st = (r, st) ∧ match r with Ok x => P x | Raise e => E e end.
Proof.
  intros HE Hl. destruct l as [|x l]; [by exists (Raise ValueError)|]. unfold best_of. rewrite run_bind.
  destruct (Hl x) as ([k | e] & -> & He); [set_solver| |by exists (Raise e)]. cbn beta iota.
  apply best_from_any; [done|]. intros; apply Hl; set_solver.
Qed.

Definition no_set_left (e : exn) : Prop := e = ValueError ∨ e = AttributeError.

Lemma pick_largest st :
  matches false (dir st) (sets st) →
  ∃ r, best_of pair_gtb size_and_age (map_to_list (sets st)).*1 st = (r, st) ∧
    match r with Ok service => ∃ s o, sets st !! service = Some s ∧ _oldest s = Some o | Raise e => no_set_left e end.
Proof.
  intros [Hsets _]. apply best_of_any; [by left|].
  intros sv ([service s] & -> & Hs%elem_of_map_to_list)%list_elem_of_fmap. cbn [fst]. unfold size_and_age.
  rewrite run_bind, (run_the_set _ _ _ Hs). cbn beta iota. rewrite run_bind. destruct (_oldest s) as [o|] eqn:Ho.
  - rewrite (oldest_time_spec false st service s o) by auto. cbn beta iota. eexists. split; [by rewrite run_mret|]. by exists s, o.
  - exists (Raise AttributeError). split; [|by right]. unfold oldest_time. rewrite run_bind, (run_the_set _ _ _ Hs). cbn beta iota.
    by rewrite run_bind, run_lift_option, Ho.
Qed.

Lemma deleteOldest_active old st service s o :
  matches old (dir st) (sets st) → sets st !! service = Some s → _oldest s = Some o →
  log_isActive (l_backupCount o) old = true → ∃ ss, deleteOldest service true st = (Ok 0, {| dir := dir st; sets := ss |}).
Proof.
  intros [Hsets Hall] Hs Ho Hact. pose proof (Hsets _ _ Hs) as Hok. pose proof (s_oldest _ _ _ _ Hok) as Hold.
  rewrite Ho in Hold. destruct Hold as (Hlo & Hos & _). destruct (log_of_Some _ _ _ _ Hlo) as (file & Hf & Hnew & _).
  destruct (new_Logfile_spec _ _ _ _ Hnew) as (_ & Hio & _).
  destruct (removeExisting_spec old (dir st) st service s o file Hok Hlo Hos Hf) as (s' & Hrun & Hok').
  - by eapply stat_spec.
  - apply delete_subseteq.
  - exists (<[_service s' := s']> (sets st)). unfold deleteOldest. rewrite run_bind, (run_the_set _ _ _ Hs). cbn beta iota. rewrite Ho.
    unfold log_delete. rewrite Hio, Hact, run_bind, run_mret. cbn beta iota. rewrite run_bind, run_gets. cbn beta iota. cbn [orb].
    unfold whenM, put_set. rewrite !run_bind, Hrun. cbn beta iota. rewrite run_modify. cbn beta iota. by destruct st.
Qed.

Lemma backup_parses fname file l :
  new_Logfile false fname file = Some l → log_isActive (l_backupCount l) false = false →
  ∃ service i n, parseLogfileName fname = Some (service, i, Some n) ∧ n ≠ 0%N.
Proof.
  unfold new_Logfile, log_isActive. destruct (parseLogfileName fname) as [[[s i] b]|]; [|done]. intros [= <-]. cbn.
  rewrite andb_true_r, bool_decide_eq_false. destruct b as [n|]; [|done]. cbn. intros Hn. by exists s, i, n.
Qed.

Lemma cleared_delete d d' f :
  cleared (delete f d) d' → (∃ service i n, parseLogfileName f = Some (service, i, Some n) ∧ n ≠ 0%N) → cleared d d'.
Proof.
  intros [Hsub Hd] Hf. split; [etrans; [done|apply delete_subseteq]|]. intros g Hg Hg'.
  destruct (decide (g = f)) as [-> | Hne]; [done|]. apply Hd; [by rewrite lookup_delete_ne|done].
Qed.

Lemma cleared_refl d : cleared d d.
Proof. split; [done|]. intros f [file Hf]. congruence. Qed.

Lemma delete_largest_loop_spec bytes fuel : ∀ st total,
  matches false (dir st) (sets st) → (size (dir st) < fuel)%nat →
  ∃ r st', delete_largest_loop fuel bytes total st = (r, st') ∧ cleared (dir st) (dir st') ∧
    match r with Ok n => n = total + (total_size (dir st) - total_size (dir st')) | Raise e => no_set_left e end.
Proof.
  induction fuel as [|fuel IH]; intros st total Hm Hfuel; [lia|]. cbn [delete_largest_loop].
  destruct (negb _); [exists (Ok total), st; split; [done|]; split; [apply cleared_refl|lia]|].
  rewrite run_bind, run_gets. cbn beta iota. rewrite run_bind.
  destruct (pick_largest st Hm) as ([service | e] & -> & Hr); cbn beta iota.
  2: { exists (Raise e), st. split; [done|]. split; [apply cleared_refl|done]. }
  destruct Hr as (s & o & Hs & Ho). rewrite run_bind. destruct (log_isActive (l_backupCount o) false) eqn:Hact.
  - destruct (deleteOldest_active false st service s o Hm Hs Ho Hact) as [ss ->]. cbn beta iota. rewrite bool_decide_true by done.
    exists (Ok total), {| dir := dir st; sets := ss |}. split; [done|]. split; [apply cleared_refl|]. cbn. lia.
  - pose proof (s_oldest _ _ _ _ (m_sets _ _ _ Hm _ _ Hs)) as Hold. rewrite Ho in Hold. destruct Hold as (Hlo & _ & _).
    destruct (log_of_Some _ _ _ _ Hlo) as (file & Hf & Hnew & _). pose proof (backup_parses _ _ _ Hnew Hact) as Hback.
    destruct (deleteOldest_spec false st service s o file Hm Hs Ho Hact Hf) as (s' & -> & Hm'). cbn beta iota.
    set (st1 := {| dir := delete (filename o) (dir st); sets := <[service := s']> (sets st) |}) in *.
    assert (total_size (dir st) = f_size file + total_size (dir st1)) as Hsum by (by apply msum_delete).
    destruct (bool_decide (f_size file = 0)) eqn:Hz.
    + apply bool_decide_eq_true_1 in Hz. exists (Ok total), st1. split; [done|]. split; [|lia].
      eapply cleared_delete; [apply cleared_refl|done].
    + destruct (IH st1 (total + f_size file) Hm') as (r & st' & Hrun & Hc & Hr).
      { cbn. rewrite map_size_delete_Some by (by exists file). assert (size (dir st) ≠ 0%nat); [|lia].
        intros E. apply map_size_empty_inv in E. by rewrite E, lookup_empty in Hf. }
      exists r, st'. rewrite Hrun. split; [done|]. split; [exact (cleared_delete _ _ _ Hc Hback)|]. destruct r; [lia|done].
Qed.

(** ** The whole *)

Lemma run_zoom {S T A} (proj : S → T) `{!Setter proj} (m : M T A) s r t :
  m (proj s) = (r, t) → zoom proj m s = (r, s <| proj := t |>).
Proof. intros Hm. unfold zoom. by rewrite Hm. Qed.

(** One turn over the old logs, if there is still something to delete. *)
Definition trim_step (K n : Z) : M Logs Z :=
  if bool_decide (0 < n) then
    bytes ← zoom olds (_deleteOldestAmongServicesWithAtLeastKInstances n K);
    mret (n - bytes)
  else mret n.

Lemma trim_step_spec K n fr st :
  matches true (dir st) (sets st) → 1 <= K →
  ∃ st', trim_step K n {| front := fr; olds := st |} =
      (Ok (n - (total_size (dir st) - total_size (dir st'))), {| front := fr; olds := st' |}) ∧
    matches true (dir st') (sets st') ∧ trimmed K (dir st) (dir st') ∧ (dir st' ≠ dir st → 0 < n) ∧
    (0 < n - (total_size (dir st) - total_size (dir st')) → ∀ service, count_in (dir st') service < K).
Proof.
  intros Hm HK. unfold trim_step. case_bool_decide as Hn.
  - destruct (deleteOldestAmong_spec n K st Hm HK) as (st' & Hrun & Hm' & Ht & Hend). exists st'.
    rewrite run_bind, (run_zoom olds _ {| front := fr; olds := st |} _ _ Hrun). cbn beta iota. rewrite run_mret. split_and!; [done..|].
    intros Hpos. destruct Hend as [Hend | Hend]; [lia|done].
  - exists st. rewrite run_mret, Z.sub_diag, Z.sub_0_r. split_and!; [done|done|apply trimmed_refl|done|lia].
Qed.

Definition measures (n : Z) : M Logs Z :=
  n ← trim_step 2 n;
  n ← trim_step 1 n;
  if bool_decide (0 < n) then
    bytes ← zoom front (_deleteFromLargestLogfileSet n);
    mret (n - bytes)
  else mret n.

Lemma measures_spec n fr st :
  matches false (dir fr) (sets fr) → matches true (dir st) (sets st) →
  ∃ r fr' st' d1, measures n {| front := fr; olds := st |} = (r, {| front := fr'; olds := st' |}) ∧
    trimmed 2 (dir st) d1 ∧ trimmed 1 d1 (dir st') ∧ cleared (dir fr) (dir fr') ∧
    (d1 ≠ dir st → 0 < n) ∧
    (dir st' ≠ d1 → 0 < n - (total_size (dir st) - total_size d1) ∧ ∀ service, count_in d1 service < 2) ∧
    (dir fr' ≠ dir fr ∨ (∃ e, r = Raise e) →
       0 < n - (total_size (dir st) - total_size (dir st')) ∧ ∀ service, count_in (dir st') service < 1) ∧
    match r with
    | Ok k => k = n - (total_size (dir st) - total_size (dir st')) - (total_size (dir fr) - total_size (dir fr'))
    | Raise e => no_set_left e
    end.
Proof.
  intros Hmf Hmo. unfold measures.
  destruct (trim_step_spec 2 n fr st Hmo) as (st1 & Hrun1 & Hm1 & Ht1 & Hn1 & Hend1); [lia|].
  rewrite run_bind, Hrun1. cbn beta iota.
  destruct (trim_step_spec 1 (n - (total_size (dir st) - total_size (dir st1))) fr st1 Hm1) as (st2 & Hrun2 & Hm2 & Ht2 & Hn2 & Hend2); [lia|].
  rewrite run_bind, Hrun2. cbn beta iota. set (k := n - _ - _) in *.
  assert (k = n - (total_size (dir st) - total_size (dir st2))) as Hk by (unfold k; lia).
  case_bool_decide as Hpos.
  - destruct (delete_largest_loop_spec k (S (size (dir fr))) fr 0 Hmf) as (r & fr' & Hrun & Hc & Hr); [lia|].
    assert (_deleteFromLargestLogfileSet k fr = (r, fr')) as Hrun' by exact Hrun.
    rewrite run_bind, (run_zoom front _ {| front := fr; olds := st2 |} _ _ Hrun').
    destruct r as [b|e]; cbn beta iota; eexists _, fr', st2, (dir st1);
      (split; [done|]); split_and!; try done; [intros Hne; split; [by apply Hn2|apply Hend1; by apply Hn2]|..].
    + intros _. split; [lia|by apply Hend2].
    + lia.
    + intros Hne; split; [by apply Hn2|apply Hend1; by apply Hn2].
    + intros _. split; [lia|by apply Hend2].
  - exists (Ok k), fr, st2, (dir st1). split; [done|]. split_and!; try done; [apply cleared_refl|..].
    + intros Hne; split; [by apply Hn2|apply Hend1; by apply Hn2].
    + intros [Hne | [e He]]; done.
    + lia.
Qed.

(** C38. Deleting logs when they take more than [maxBytes].  Each measure is taken only if the one
    before was not enough: first, per service, old logs from the oldest on, as long as logs of two
    instances are left; then all old logs that way; then logs in the directory of the active
    ones, of which those being written, and files that are no logs, are never deleted.  The
    result is exactly by how much the remaining files exceed the limit.  The method raises only
    in the last measure, when a service (or the directory) has run out of logs. *)
Theorem quota_is_enforced (maxBytes : Z) (logs : Logs) :
  ∃ r logs' d1, deleteLogsIfOverQuota maxBytes logs = (r, logs') ∧
    let old := dir (olds logs) in let old' := dir (olds logs') in
    let fr := dir (front logs) in let fr' := dir (front logs') in
    trimmed 2 old d1 ∧ trimmed 1 d1 old' ∧ cleared fr fr' ∧
    (d1 ≠ old → maxBytes < getDirectorySize logs) ∧
    (old' ≠ d1 → maxBytes < total_size fr + total_size d1 ∧ ∀ service, count_in d1 service < 2) ∧
    (fr' ≠ fr ∨ (∃ e, r = Raise e) → maxBytes < total_size fr + total_size old' ∧ ∀ service, count_in old' service < 1) ∧
    match r with
    | Ok n => n = getDirectorySize logs' - maxBytes
    | Raise e => e = ValueError ∨ e = AttributeError
    end.
Proof.
  destruct logs as [[fr fs] [old os]]. unfold deleteLogsIfOverQuota.
  destruct (_collectLogsFromPath_spec false {| dir := fr; sets := fs |}) as (fs1 & Hfs & Hmf).
  destruct (_collectLogsFromPath_spec true {| dir := old; sets := os |}) as (os1 & Hos & Hmo).
  rewrite run_bind, (run_zoom front _ {| front := {| dir := fr; sets := fs |}; olds := {| dir := old; sets := os |} |} _ _ Hfs).
  cbn beta iota.
  rewrite run_bind, (run_zoom olds _ {| front := {| dir := fr; sets := fs1 |}; olds := {| dir := old; sets := os |} |} _ _ Hos).
  cbn beta iota. rewrite run_bind, run_gets. cbn beta iota zeta.
  set (n := total_size fr + total_size old - maxBytes).
  destruct (measures_spec n {| dir := fr; sets := fs1 |} {| dir := old; sets := os1 |} Hmf Hmo)
    as (r & fr' & st' & d1 & Hrun & Ht1 & Ht2 & Hc & H1 & H2 & H3 & Hr).
  exists r, {| front := fr'; olds := st' |}, d1. split; [exact Hrun|]. unfold getDirectorySize. cbn in *.
  fold (total_size fr) (total_size old) (total_size (dir fr')) (total_size (dir st')). unfold n in *. split_and!; try done.
  - intros Hne. apply H1 in Hne. lia.
  - intros Hne. apply H2 in Hne as [Hlt Hd]. split; [lia|done].
  - intros Hne. apply H3 in Hne as [Hlt Hd]. split; [lia|done].
  - destruct r; [lia|done].
Qed.

(** *** Examples *)

Definition file (bytes time : Z) : File := {| f_size := bytes; f_modtime := time |}.
Definition store (d : Directory) : Store := {| dir := d; sets := ∅ |}.

(** The last log of a service is deleted, and then the oldest log of no log is asked for. *)
Definition one_rotated : Logs :=
  {| front := store {["app-5.log.1" := file 10 1; "web-7.log" := file 10 2]}; olds := store ∅ |}.
Example exhausted_service_raises : ∃ logs', deleteLogsIfOverQuota 0 one_rotated = (Raise AttributeError, logs') ∧
  dir (front logs') = {["web-7.log" := file 10 2]}.
Proof. eexists. split; [apply outcome_eta|]; by vm_compute. Qed.

(** Files that are no logs take the space. *)
Definition no_logs : Logs := {| front := store {["core" := file 10 1]}; olds := store ∅ |}.
Example no_logs_raises : ∃ logs', deleteLogsIfOverQuota 0 no_logs = (Raise ValueError, logs').
Proof. eexists. apply outcome_eta. by vm_compute. Qed.

(** Two instances of a service have old logs; those of the later one stay. *)
Definition two_instances : Logs :=
  {| front := store {["app-5.log" := file 10 9]};
     olds := store {["app-1.log" := file 10 1; "app-1.log.1" := file 10 0; "app-2.log" := file 10 2]} |}.
Example later_instance_stays : ∃ logs', deleteLogsIfOverQuota 20 two_instances = (Ok 0, logs') ∧
  dir (olds logs') = {["app-2.log" := file 10 2]}.
Proof. eexists. split; [apply outcome_eta|]; by vm_compute. Qed.

(** ** Moving logs *)

Lemma moveLogfile_spec fname logs :
  ∃ logs', _moveLogfile fname logs = (Ok tt, logs') ∧ dir (front logs') = delete fname (dir (front logs)) ∧
    dir (olds logs') = match dir (front logs) !! fname with Some x => <[fname := x]> (dir (olds logs)) | None => dir (olds logs) end.
Proof.
  unfold _moveLogfile. rewrite run_bind, run_gets. cbn beta iota. destruct (dir (front logs) !! fname) as [x|] eqn:Hx.
  - rewrite run_modify. by eexists.
  - exists logs. split; [done|]. split; [|done]. by rewrite delete_id.
Qed.

Definition moves (SERVICE_NAME : string) (startTs : N) (procs : Processes) (files : list string) (f : string) : bool :=
  bool_decide (f ∈ files) && to_move SERVICE_NAME startTs procs f.

(** Exactly the logs of instances that are not live leave the directory, and arrive in the other. *)
Theorem dead_logs_are_moved SERVICE_NAME startTs procs files : ∀ logs,
  NoDup files →
  ∃ logs', forM files (λ f, whenM (to_move SERVICE_NAME startTs procs f) (_moveLogfile f)) logs = (Ok tt, logs') ∧
    (∀ f, dir (front logs') !! f = if moves SERVICE_NAME startTs procs files f then None else dir (front logs) !! f) ∧
    (∀ f, dir (olds logs') !! f =
       if moves SERVICE_NAME startTs procs files f && bool_decide (is_Some (dir (front logs) !! f))
       then dir (front logs) !! f else dir (olds logs) !! f).
Proof.
  unfold moves. induction files as [|g files IH]; intros logs Hnd; [by exists logs|]. apply NoDup_cons in Hnd as [Hg Hnd].
  rewrite run_forM_cons. destruct (to_move SERVICE_NAME startTs procs g) eqn:Hm; cbn [whenM].
  - destruct (moveLogfile_spec g logs) as (logs1 & -> & Hfr & Hol). destruct (IH logs1 Hnd) as (logs' & -> & Hfr' & Hol').
    exists logs'. split; [done|]. split; intros f; rewrite ?Hfr', ?Hol', Hfr, ?Hol; destruct (decide (f = g)) as [-> | Hne].
    + rewrite (bool_decide_true (g ∈ g :: files)) by set_solver. rewrite Hm, lookup_delete_eq. by destruct (_ && _).
    + rewrite lookup_delete_ne by done. rewrite (bool_decide_ext (f ∈ g :: files) (f ∈ files)) by set_solver. done.
    + rewrite (bool_decide_true (g ∈ g :: files)) by set_solver. rewrite (bool_decide_false (g ∈ files)) by done.
      rewrite Hm. cbn. destruct (dir (front logs) !! g) as [x|] eqn:Hx; [by rewrite lookup_insert_eq|done].
    + rewrite lookup_delete_ne by done. rewrite (bool_decide_ext (f ∈ g :: files) (f ∈ files)) by set_solver.
      destruct (dir (front logs) !! g); [|done]. by rewrite lookup_insert_ne.
  - destruct (IH logs Hnd) as (logs' & Hrun & Hfr' & Hol'). exists logs'. split; [exact Hrun|].
    split; intros f; rewrite ?Hfr', ?Hol'; destruct (decide (f = g)) as [-> | Hne];
      rewrite ?Hm, ?andb_false_r; try done; by rewrite (bool_decide_ext (f ∈ g :: files) (f ∈ files)) by set_solver.
Qed.
